(* ===== verification/_CoqProject ===== *)
-Q . S2P
Prelude.v
RustStr.v
Lines.v
Varint.v
TcpCodec.v
UdpCodec.v
Reassembler.v
Salamander.v
Brutal.v
Stream.v
Rules.v
Net.v
Files.v
PrivateFile.v
Config.v
Inodes.v
Saves.v
Outbound.v
Traffic.v
Auth.v
Relay.v
UdpSessions.v
AcceptLoop.v
Vless.v
VlessRelay.v
ServerRun.v
DataPlane.v
ShortStore.v
Base64.v
SubNodes.v
SubRender.v
Sublink.v
SublinkHttp.v
NatTunnel.v
NatGateway.v
GatewayRun.v
Masquerade.v
AdminUsers.v
AdminAuth.v
ReverseProxy.v
ProxyRun.v
ShareAddress.v
AdminService.v
ServiceUnit.v
Startup.v
AdminRouter.v
Main.v
AdminRun.v
SourceTests.v
