(* ===== verification/Prelude.v ===== *)
(** * sing-box-ser-mini: a verification library

    The program is a proxy server with a management service, written in Rust: Hysteria 2
    over QUIC, VLESS and SSH over a shared TCP port, subscriptions and short links for
    clients, a reverse TCP tunnel through NAT, a WebUI that edits the configuration and
    administrators, and the installation as a system service.  This library models its
    parts as Rocq functions that can be run, and proves what makes them correct.

    ** Conventions

    A byte or a character of a string is a [Z]; a string is its UTF-8 bytes ([str] of
    RustStr).  An integer of [w] bits is a [Z], with wrapping, saturation and casts
    written out.  [Result] is [result], with the error first and the [?] operator as its
    bind; panics are a separate value where the code can panic.  A [HashMap] is a [gmap]
    whose iteration order is a parameter ([HashIter]); an [Arc] that is shared is a
    location in a map.  A file system is a map from paths to contents and modes, and an
    operation on it also returns the states on its way, so that a crash between two of
    them is covered.  Concurrent code is a step function or relation over a state, with
    one event for every await at which others may act, and theorems about all runs.

    Code that is not in the repository is a parameter, as a class with the laws that are
    relied on, each with a concrete instance on which the theorems are evaluated:
    [HttpLib], [TomlLib], [HostLib], [SubLib], [SubDigest], [SessionLib], [RouteLib],
    [RouterLib], [CredentialsToml], [Blake2bMac], [Sha256], [HostOs] and others beside the
    components that use them.

    ** Files

    - Prelude: results, integers, byte order, lists, maps, and the tactics [res_simpl]
      and [res_inv].  RustStr, Lines, Base64, Net, Files, Stream: what is used of
      Rust's strings, addresses and paths, files and streams.
    - Varint, TcpCodec, UdpCodec, Reassembler ([src/src/protocol]): the HY2 frames and
      the reassembly of fragments.
    - Salamander ([salamander.rs], [salamander_socket.rs]): the obfuscation and the
      socket that applies it to batches.
    - Brutal ([brutal.rs]): the congestion controller.  AcceptLoop ([server.rs], the
      loop): how a connection gets the rate cell of its controller.
    - Auth, Relay, UdpSessions, Traffic ([server.rs], [protocol/auth.rs]): HY2
      authentication, the TCP relay, the UDP sessions, the accounting.  Outbound
      ([outbound.rs]): addresses and attempts.  Vless ([vless_server.rs],
      [tcp_server.rs]): the shared TCP port; VlessRelay: the relays of its commands, as
      interleaved steps.
    - ServerRun ([server.rs], [tcp_server.rs]): the set-up of a server, and servers that
      follow each other over one registry, with the tasks of their connections: accept
      loop, authentication and accounting composed.  DataPlane ([server.rs], the loops of
      a connection): the streams and the datagrams of all connections, over one pool of
      buffers and inside the runs of the servers.
    - Rules, Config ([config.rs], part of [sublink.rs]): rule sets, domain lists, the
      configuration and its file.
    - SubNodes, SubRender, ShortStore, Sublink ([sublink.rs]): parsing of nodes, the
      documents for clients, short links, the service.  SublinkHttp ([admin.rs]): its
      routes.
    - NatTunnel, NatGateway, GatewayRun ([nat_tunnel.rs]), ReverseProxy
      ([reverse_proxy.rs]): the tunnel's handshake, its pool and commands, the runs of a
      gateway and of a client with all their tasks, its settings and controller.
      ProxyRun: the controller with updates that overlap.
    - Masquerade ([masquerade.rs]): the answers to clients that are not authenticated.
    - PrivateFile, AdminUsers, AdminAuth, ShareAddress, AdminService ([admin.rs]): the
      replacement of a private file, administrators, sessions and authorization,
      addresses, and the management loop with the handlers beside it.  AdminRouter: the
      table of routes and every handler with its arguments.  AdminRun: the start of the
      service, and its runs.
    - Inodes: the saves of the configuration and of the private files as system calls on
      a disk of names and inodes.  Saves: the saves that requests start under the lock of
      [put_config], with requests that are dropped.
    - ServiceUnit, Startup ([startup.rs]): the service files, and their installation.
    - Main ([main.rs]): what the program starts for its arguments.
    - SourceTests: unit tests of the repository, on the model.

    ** What is shown

    - Codecs and streams: encoding and decoding are inverse; decoding is total and
      never reads beyond its input; reading from a stream refines decoding; fragments
      arrive in any order and give the message; obfuscated batches come back.
    - The data path: which clients are authenticated and with what rate; a relay
      delivers to each side a prefix of what the other sent, whatever the
      interleaving, and returns its buffers; a UDP session belongs to one client
      session; every connection has its own rate, as long as the QUIC library builds
      one controller for each.  However streams and datagrams are interleaved, a stream is
      always where it would be alone, and the traffic listed for a user is the sum of what
      its connections carried.  Over any history of servers, every connection served was
      authenticated by a user of its server, and the traffic of a user that stays is that
      of its connections.
    - State and files: the configuration, the credentials and the tunnel's settings are
      replaced atomically: every state of a save, complete or failing, shows the old
      or the new contents; the store of short links survives a restart.  On inodes, with
      contents written in pieces and requests that come and go, that holds of the
      configuration as long as no save starts while that of a dropped request goes on.
    - The management service: who is authorized; that administrators are never lost;
      that a status tells what is running and the configuration's file stays loadable,
      among all handlers; that a configuration that was accepted comes into use, and that
      the loop comes to rest; which handler answers a path; and that
      requests that are not authorized, however many, change nothing but short links.
    - Subscriptions: what is parsed is valid, what is rendered refers to what it
      declares and cannot be escaped from by a name; a short link gives what it was
      made from; responses have valid headers and the statuses that are meant.
    - The tunnel: both sides agree exactly when they share the token; in every run of a
      gateway no tunnel is given to two connections, the pool keeps its bound, and the
      tracker counts the tunnels of authenticated nodes; updates of its settings that
      overlap leave one task at most, that of the settings in memory.
    - The host: service files start the program with the arguments meant; an
      installation stops at the first refusal and removes the temporary file it wrote.

    ** Fuel and bounds

    Functions that are not structurally recursive take fuel that is computed from their
    input: the length of a string for reading it ([valid_fuel], [strip_all_fuel],
    [words]), the nesting limit of the code for subscriptions, the number of bytes for
    a stream of frames ([upload_fuel]).  Lemmas beside them show that this fuel is
    enough, or the theorem is about every amount of it.  Times are in nanoseconds or
    seconds as in the code, and counters have 64 bits.

    ** Not modelled

    Failures of the HTTP/3 transport inside an authentication, and the ten seconds it and
    the VLESS prefix may take: they end the connection with an error.  Loss of power: the
    configuration is not synchronised before it is renamed, so its atomicity is that of
    names, against a program that is stopped, not against a machine.  A settings file of
    the tunnel without its token, which is read as another one every time.

    Inside the libraries: TLS, QUIC and HTTP/3, the sockets, and the bidirectional copy
    that relays SSH and the tunnel; what they answer comes as arguments or events.  The
    browser's side of the web pages; texts of errors, but for what a decision depends on;
    logging; the example client of HTTP/3.  Requests are dropped with their client where
    that changes the program's state: those that save the configuration, reload or update
    the tunnel.  The installation of the start-up service goes on too when its request is
    dropped; the other handlers have no await between their changes.

    ** Plan

    The parts of the program are modelled and composed.  What could still be added is a
    VLESS connection inside the runs of the data plane, whose bytes are reported there as
    they come from VlessRelay, and the tunnel's public connections beside them. *)

From stdpp Require Import base list gmap strings sorting.
From Stdlib Require Import ZArith Lia.

Open Scope Z_scope.

(** ** Results

    Rust's [Result<T, E>].  The error type comes first so that [result E] is
    the monad. *)

Inductive result (E A : Type) : Type :=
| Ok (a : A)
| Err (e : E).
Arguments Ok {E A} a.
Arguments Err {E A} e.

(** The [?] operator: [x ← c; k] and [c ;; k] are stdpp's monad notations at
    this instance. *)
#[export] Instance result_bind {E} : MBind (result E) := fun A B f r =>
  match r with
  | Ok a => f a
  | Err e => Err e
  end.

Definition rmap {E A B} (f : A → B) (r : result E A) : result E B :=
  match r with
  | Ok a => Ok (f a)
  | Err e => Err e
  end.

(** [map_err]. *)
Definition rmap_err {E F A} (f : E → F) (r : result E A) : result F A :=
  match r with
  | Ok a => Ok a
  | Err e => Err (f e)
  end.

(** [Option::ok_or]. *)
Definition ok_or {E A} (e : E) (o : option A) : result E A :=
  match o with
  | Some a => Ok a
  | None => Err e
  end.

(** [Result::ok]. *)
Definition rok {E A} (r : result E A) : option A :=
  match r with
  | Ok a => Some a
  | Err _ => None
  end.

Definition is_ok {E A} (r : result E A) : bool :=
  match r with
  | Ok _ => true
  | Err _ => false
  end.

(** [ensure!(c, e)]. *)
Definition ensure {E} (c : bool) (e : E) : result E unit :=
  if c then Ok tt else Err e.

Section result_lemmas.
Context {E : Type}.

Lemma rbind_Ok {A B} (r : result E A) (f : A → result E B) b :
  (r ≫= f) = Ok b ↔ ∃ a, r = Ok a ∧ f a = Ok b.
Proof. destruct r; simpl; naive_solver. Qed.

Lemma rbind_Err {A B} (r : result E A) (f : A → result E B) e :
  (r ≫= f) = Err e ↔ r = Err e ∨ ∃ a, r = Ok a ∧ f a = Err e.
Proof. destruct r; simpl; naive_solver. Qed.

Lemma ensure_Ok (c : bool) (e : E) u : ensure c e = Ok u ↔ c = true.
Proof. destruct c, u; simpl; naive_solver. Qed.

Lemma ensure_Err (c : bool) (e e' : E) : ensure c e = Err e' ↔ c = false ∧ e = e'.
Proof. destruct c; simpl; naive_solver. Qed.

Lemma ok_or_Ok {A} (e : E) (o : option A) a : ok_or e o = Ok a ↔ o = Some a.
Proof. destruct o; simpl; naive_solver. Qed.

Lemma is_ok_iff {A} (r : result E A) : is_ok r = true ↔ ∃ a, r = Ok a.
Proof. destruct r; simpl; naive_solver. Qed.

Lemma rmap_Ok {A B} (f : A → B) (r : result E A) b :
  rmap f r = Ok b ↔ ∃ a, r = Ok a ∧ b = f a.
Proof. destruct r; simpl; naive_solver. Qed.
End result_lemmas.

#[export] Instance Ok_inj {E A} : Inj (=) (=) (@Ok E A).
Proof. by intros ?? [=]. Qed.

#[export] Instance result_eq_dec {E A} `{EqDecision E, EqDecision A} :
  EqDecision (result E A).
Proof. solve_decision. Defined.

(** Run [f] over a list, stopping at the first error ([collect::<Result<Vec<_>,_>>]). *)
Fixpoint rtraverse {E A B} (f : A → result E B) (l : list A) : result E (list B) :=
  match l with
  | [] => Ok []
  | x :: l => y ← f x; ys ← rtraverse f l; Ok (y :: ys)
  end.

Lemma rtraverse_Ok {E A B} (f : A → result E B) l ys :
  rtraverse f l = Ok ys ↔ Forall2 (fun x y => f x = Ok y) l ys.
Proof.
  revert ys. induction l as [|x l IH]; intros ys; simpl.
  - split; [intros [= <-]; constructor | by inversion 1].
  - rewrite rbind_Ok. setoid_rewrite rbind_Ok. setoid_rewrite IH. split.
    + intros (y & Hy & zs & Hzs & [= <-]). by constructor.
    + inversion 1; subst. eauto 6.
Qed.

Lemma rtraverse_Err {E A B} (f : A → result E B) l e :
  rtraverse f l = Err e → ∃ x, x ∈ l ∧ f x = Err e.
Proof.
  induction l as [|x l IH]; simpl; [done|]. rewrite rbind_Err.
  intros [Hx|(y & _ & [Hl|(ys & _ & ?)]%rbind_Err)]; [| |done].
  - exists x. split; [by left|done].
  - destruct (IH Hl) as (z & Hz & Hf). exists z. split; [by right|done].
Qed.

(** ** Fixed-width integers

    A [w]-bit unsigned integer is a [Z] in [0, 2^w).  [wrap] is what a cast or
    a wrapping operation keeps, [sat_add] and [sat_mul] are the saturating
    operations. *)

Definition in_width (w v : Z) : Prop := 0 ≤ v < 2 ^ w.
Definition u8_ok : Z → Prop := in_width 8.
Definition u16_ok : Z → Prop := in_width 16.
Definition u32_ok : Z → Prop := in_width 32.
Definition u64_ok : Z → Prop := in_width 64.

Definition U16_MAX : Z := 65535.
Definition U64_MAX : Z := 18446744073709551615.

Definition wrap (w v : Z) : Z := v mod 2 ^ w.

Definition sat_add (a b : Z) : Z := Z.min (a + b) U64_MAX.
Definition sat_sub (a b : Z) : Z := Z.max (a - b) 0.
Definition sat_mul (a b : Z) : Z := Z.min (a * b) U64_MAX.

#[export] Instance in_width_dec w v : Decision (in_width w v).
Proof. unfold in_width. apply _. Defined.
#[export] Instance u8_ok_dec v : Decision (u8_ok v).
Proof. apply in_width_dec. Defined.

Lemma u8_ok_iff v : u8_ok v ↔ 0 ≤ v < 256.
Proof. done. Qed.

Lemma wrap_small w v : in_width w v → wrap w v = v.
Proof. intros. by apply Z.mod_small. Qed.

Lemma wrap_in_width w v : 0 ≤ w → in_width w (wrap w v).
Proof. intros. apply Z.mod_pos_bound. by apply Z.pow_pos_nonneg. Qed.

(** ** Byte vectors

    [Vec<u8>], [&[u8]] and [String] are lists of [Z]; [is_bytes] says every
    element is a byte.  A [String] is its UTF-8 bytes. *)

Definition is_bytes (l : list Z) : Prop := Forall u8_ok l.

(** [l.len()], as a [usize]. *)
Definition len {A} (l : list A) : Z := Z.of_nat (length l).

Lemma len_nonneg {A} (l : list A) : 0 ≤ len l.
Proof. unfold len. lia. Qed.

Lemma len_app {A} (l k : list A) : len (l ++ k) = len l + len k.
Proof. unfold len. rewrite length_app. lia. Qed.

Lemma len_cons {A} (x : A) l : len (x :: l) = 1 + len l.
Proof. unfold len. simpl. lia. Qed.

Lemma len_nil {A} : len (@nil A) = 0.
Proof. done. Qed.

Lemma len_0_nil {A} (l : list A) : len l = 0 → l = [].
Proof. destruct l; unfold len; simpl; [done|lia]. Qed.

(** [u64::to_be_bytes] and its shorter siblings: the [n] low bytes of [v], most
    significant first. *)
Fixpoint to_be_bytes (n : nat) (v : Z) : list Z :=
  match n with
  | O => []
  | S k => Z.land (Z.shiftr v (8 * Z.of_nat k)) 255 :: to_be_bytes k v
  end.

(** One step of a big-endian accumulation: [(acc << 8) | byte]. *)
Definition be_push (acc b : Z) : Z := Z.lor (Z.shiftl acc 8) b.

(** [from_be_bytes]. *)
Definition from_be_bytes (l : list Z) : Z := fold_left be_push l 0.

(** Or-ing a value below a shifted one is adding it. *)
Lemma lor_shiftl_add a b n :
  0 ≤ n → 0 ≤ b < 2 ^ n → Z.lor (Z.shiftl a n) b = a * 2 ^ n + b.
Proof.
  intros Hn Hb.
  assert (Hland : Z.land (Z.shiftl a n) b = 0).
  { apply Z.bits_inj'. intros m Hm. rewrite Z.land_spec, Z.bits_0.
    destruct (Z.ltb_spec m n); [by rewrite Z.shiftl_spec_low|].
    destruct (decide (b = 0)) as [->|]; [by rewrite Z.bits_0, andb_false_r|].
    rewrite (Z.bits_above_log2 b m); [by rewrite andb_false_r|lia|].
    apply Z.log2_lt_pow2; [lia|]. apply Z.lt_le_trans with (2 ^ n); [lia|].
    by apply Z.pow_le_mono_r. }
  rewrite <- Z.lxor_lor, <- Z.add_nocarry_lxor by done.
  by rewrite Z.shiftl_mul_pow2.
Qed.

Lemma be_push_eq acc b : u8_ok b → be_push acc b = acc * 256 + b.
Proof. intros Hb. by apply (lor_shiftl_add acc b 8). Qed.

Lemma to_be_bytes_cons k v :
  to_be_bytes (S k) v = (v / 2 ^ (8 * Z.of_nat k)) mod 256 :: to_be_bytes k v.
Proof.
  simpl. f_equal. rewrite Z.shiftr_div_pow2 by lia.
  change 255 with (Z.ones 8). by rewrite Z.land_ones.
Qed.

Lemma pow256 k : 256 ^ Z.of_nat k = 2 ^ (8 * Z.of_nat k).
Proof. change 256 with (2 ^ 8). by rewrite <- Z.pow_mul_r by lia. Qed.

Lemma to_be_bytes_length n v : length (to_be_bytes n v) = n.
Proof. induction n; simpl; congruence. Qed.

Lemma to_be_bytes_is_bytes n v : is_bytes (to_be_bytes n v).
Proof.
  induction n; [constructor|]. rewrite to_be_bytes_cons. constructor; [|done].
  by apply Z.mod_pos_bound.
Qed.

(** Folding big-endian bytes onto an accumulator is positional notation. *)
Lemma fold_be_push l acc :
  is_bytes l → fold_left be_push l acc = acc * 256 ^ len l + fold_left be_push l 0.
Proof.
  unfold len. revert acc. induction l as [|b l IH]; intros acc Hl.
  { simpl. lia. }
  inversion_clear Hl. simpl fold_left. rewrite !be_push_eq by done.
  rewrite IH, (IH (0 * 256 + b)) by done.
  replace (Z.of_nat (length (b :: l))) with (Z.succ (Z.of_nat (length l)))
    by (simpl; lia).
  rewrite Z.pow_succ_r by lia. ring.
Qed.

Lemma from_be_bytes_bound l : is_bytes l → 0 ≤ from_be_bytes l < 256 ^ len l.
Proof.
  unfold from_be_bytes, len. induction l as [|b l IH]; intros Hl; [simpl; lia|].
  inversion_clear Hl as [|? ? Hb Hl']. specialize (IH Hl').
  simpl fold_left. rewrite fold_be_push, be_push_eq by done. unfold len.
  replace (Z.of_nat (length (b :: l))) with (Z.succ (Z.of_nat (length l)))
    by (simpl; lia).
  rewrite Z.pow_succ_r by lia. rewrite u8_ok_iff in Hb.
  assert (0 < 256 ^ Z.of_nat (length l)) by (apply Z.pow_pos_nonneg; lia). nia.
Qed.

Lemma from_to_be_bytes n v : from_be_bytes (to_be_bytes n v) = v mod 256 ^ Z.of_nat n.
Proof.
  induction n as [|n IH]; [by rewrite Z.mod_1_r|].
  rewrite to_be_bytes_cons. unfold from_be_bytes in *. simpl fold_left.
  rewrite fold_be_push by apply to_be_bytes_is_bytes. rewrite IH, be_push_eq
    by (by apply Z.mod_pos_bound).
  unfold len. rewrite to_be_bytes_length.
  rewrite <- pow256.
  rewrite Nat2Z.inj_succ, Z.pow_succ_r by lia.
  rewrite Z.mul_comm. rewrite (Z.mul_comm 256).
  rewrite Z.rem_mul_r by (try apply Z.pow_nonzero; lia). lia.
Qed.

Lemma from_to_be_bytes_small n v :
  0 ≤ v < 256 ^ Z.of_nat n → from_be_bytes (to_be_bytes n v) = v.
Proof. intros. rewrite from_to_be_bytes. by apply Z.mod_small. Qed.

(** ** Slices

    [chunks n l] is [l.chunks(n)] for [n > 0]: blocks of [n] elements, the last
    one possibly shorter, none for an empty slice.  The fuel is the length of
    the list, one unit per element, and every block takes at least one. *)

Fixpoint chunks_fuel {A} (fuel n : nat) (l : list A) : list (list A) :=
  match fuel with
  | O => []
  | S fuel =>
      match l with
      | [] => []
      | _ => take n l :: chunks_fuel fuel n (drop n l)
      end
  end.

Definition chunks {A} (n : nat) (l : list A) : list (list A) :=
  chunks_fuel (length l) n l.

(** [a.div_ceil(b)] on [usize]. *)
Definition div_ceil (a b : Z) : Z := (a + b - 1) / b.

Section chunks.
Context {A : Type}.
Implicit Types l : list A.

Lemma chunks_fuel_enough f1 f2 n l :
  (0 < n)%nat → (length l ≤ f1)%nat → (length l ≤ f2)%nat →
  chunks_fuel f1 n l = chunks_fuel f2 n l.
Proof.
  intros Hn. revert f2 l. induction f1 as [|f1 IH]; intros f2 l H1 H2.
  - destruct l; simpl in *; [by destruct f2|lia].
  - destruct f2 as [|f2]; [destruct l; simpl in *; [done|lia]|].
    destruct l as [|x l]; [done|]. cbn [chunks_fuel]. f_equal.
    apply IH; rewrite length_drop; simpl in *; lia.
Qed.

Lemma chunks_nil n : chunks n (@nil A) = [].
Proof. done. Qed.

Lemma chunks_unfold n l :
  (0 < n)%nat → l ≠ [] → chunks n l = take n l :: chunks n (drop n l).
Proof.
  intros Hn Hl. unfold chunks. destruct l as [|x l]; [done|].
  cbn [length chunks_fuel]. f_equal. apply chunks_fuel_enough; [done| |done].
  rewrite length_drop. simpl. lia.
Qed.

(** Induction along the blocks. *)
Lemma chunks_ind (P : list A → Prop) n :
  (0 < n)%nat → P [] → (∀ l, l ≠ [] → P (drop n l) → P l) → ∀ l, P l.
Proof.
  intros Hn H0 HS l.
  remember (length l) as m eqn:Hm. revert l Hm.
  induction m as [m IH] using lt_wf_ind. intros l ->.
  destruct l as [|x l]; [done|]. apply HS; [done|].
  eapply IH; [|done]. rewrite length_drop. simpl. lia.
Qed.

Lemma concat_chunks n l : (0 < n)%nat → concat (chunks n l) = l.
Proof.
  intros Hn. revert l. apply (chunks_ind _ n Hn); [done|]. intros l Hl IH.
  rewrite chunks_unfold by done. simpl. by rewrite IH, take_drop.
Qed.

Lemma chunks_lengths n l :
  (0 < n)%nat → Forall (fun c => (1 ≤ length c ≤ n)%nat) (chunks n l).
Proof.
  intros Hn. revert l. apply (chunks_ind _ n Hn); [constructor|]. intros l Hl IH.
  rewrite chunks_unfold by done. constructor; [|done].
  rewrite length_take. destruct l; simpl; [done|lia].
Qed.

(** A block is a contiguous part of the list. *)
Lemma chunks_elem n l c :
  (0 < n)%nat → c ∈ chunks n l → (1 ≤ length c ≤ n)%nat ∧ ∃ a b, l = a ++ c ++ b.
Proof.
  intros Hn Hc. split.
  - pose proof (chunks_lengths n l Hn) as H. rewrite Forall_forall in H. by apply H.
  - apply list_elem_of_split in Hc as (l1 & l2 & E). exists (concat l1), (concat l2).
    rewrite <- (concat_chunks n l Hn), E, concat_app. done.
Qed.

Lemma length_chunks n l :
  (0 < n)%nat → len (chunks n l) = div_ceil (len l) (Z.of_nat n).
Proof.
  intros Hn. revert l. apply (chunks_ind _ n Hn); [|intros l Hl IH].
  - rewrite chunks_nil. unfold div_ceil, len. cbn [length]. rewrite Z.div_small; lia.
  - rewrite chunks_unfold, len_cons, IH by done. unfold div_ceil, len.
    rewrite length_drop. destruct (decide (length l ≤ n)%nat) as [Hle|Hgt].
    + replace (length l - n)%nat with 0%nat by lia.
      assert (0 < length l)%nat by (destruct l; simpl; [done|lia]).
      rewrite Z.div_small by lia.
      apply Z.div_unique with (Z.of_nat (length l) - 1); lia.
    + rewrite Nat2Z.inj_sub by lia.
      replace (Z.of_nat (length l) + Z.of_nat n - 1) with
        ((Z.of_nat (length l) - Z.of_nat n + Z.of_nat n - 1) + 1 * Z.of_nat n) by lia.
      rewrite Z.div_add by lia. lia.
Qed.

Lemma chunks_single n l : l ≠ [] → (length l ≤ n)%nat → chunks n l = [l].
Proof.
  intros Hl Hn. assert (0 < n)%nat by (destruct l; simpl in *; [done|lia]).
  rewrite chunks_unfold by done. rewrite take_ge, drop_ge by lia. done.
Qed.
End chunks.

Lemma div_ceil_pos a b : 0 < a → 0 < b → 0 < div_ceil a b.
Proof. intros. unfold div_ceil. apply Z.div_str_pos. lia. Qed.

Lemma div_ceil_le_1 a b : 0 < a → 0 < b → div_ceil a b ≤ 1 → a ≤ b.
Proof.
  unfold div_ceil. intros Ha Hb H.
  pose proof (Z.mul_succ_div_gt (a + b - 1) b Hb). nia.
Qed.

Lemma div_ceil_gt_1 a b : 0 < b → b < a → 1 < div_ceil a b.
Proof.
  unfold div_ceil. intros Hb H. apply Z.lt_le_trans with ((2 * b) / b).
  - rewrite Z.div_mul by lia. lia.
  - apply Z.div_le_mono; lia.
Qed.

(** ** Duplicates *)

(** Keep the first occurrence of each element. *)
Definition dedup {A} `{EqDecision A} (l : list A) : list A :=
  foldl (fun acc x => if decide (x ∈ acc) then acc else acc ++ [x]) [] l.

Lemma dedup_foldl_spec {A} `{EqDecision A} (l acc : list A) :
  NoDup acc →
  let r := foldl (fun acc x => if decide (x ∈ acc) then acc else acc ++ [x]) acc l in
  NoDup r ∧ ∀ x, x ∈ r ↔ x ∈ acc ∨ x ∈ l.
Proof.
  revert acc. induction l as [|y l IH]; intros acc Hnd r; [by split; [|set_solver]|].
  unfold r. cbn [foldl]. destruct (decide (y ∈ acc)) as [Hy|Hy].
  - destruct (IH acc Hnd) as [? Hin]. split; [done|]. intros x. rewrite Hin. set_solver.
  - destruct (IH (acc ++ [y])) as [? Hin].
    { apply NoDup_app. split_and!; [done|set_solver|apply NoDup_singleton]. }
    split; [done|]. intros x. rewrite Hin. set_solver.
Qed.

(** ** Hash maps

    A [HashMap] is a [gmap].  The order in which a [HashMap] is iterated is
    unspecified, so code that iterates one takes the order from this interface:
    some enumeration of the entries.  [hash_iter_sorted] is one such order, used
    where a theorem is evaluated. *)

Class HashIter := {
  hash_iter : ∀ {K V : Type} `{Countable K}, gmap K V → list (K * V);
  hash_iter_perm : ∀ {K V} `{Countable K} (m : gmap K V), hash_iter m ≡ₚ map_to_list m;
}.

Definition hash_iter_sorted : HashIter :=
  {| hash_iter := fun K V _ _ m => map_to_list m;
     hash_iter_perm := fun K V _ _ m => reflexivity _ |}.

Lemma elem_of_hash_iter `{HashIter} {K V} `{Countable K} (m : gmap K V) k v :
  (k, v) ∈ hash_iter m ↔ m !! k = Some v.
Proof. rewrite hash_iter_perm. apply elem_of_map_to_list. Qed.

Lemma NoDup_hash_iter_keys `{HashIter} {K V} `{Countable K} (m : gmap K V) :
  NoDup (hash_iter m).*1.
Proof. rewrite hash_iter_perm. apply NoDup_fst_map_to_list. Qed.

(** [HashMap::entry(k).or_default()] and friends: the map with [k] present. *)
Definition or_insert {K V} `{Countable K} (k : K) (v : V) (m : gmap K V) : gmap K V :=
  match m !! k with
  | Some _ => m
  | None => <[k := v]> m
  end.

(** [iter().map(|x| (key(x), value(x))).collect::<HashMap<_, _>>()]: the last
    element wins where two have the same key. *)
Definition collect_map {A K V} `{Countable K} (key : A → K) (value : A → V) (l : list A) : gmap K V :=
  foldl (fun m x => <[key x := value x]> m) ∅ l.

Lemma collect_map_Some {A K V} `{Countable K} (key : A → K) (value : A → V) l k v :
  collect_map key value l !! k = Some v → ∃ x, x ∈ l ∧ key x = k ∧ value x = v.
Proof.
  unfold collect_map. induction l as [|x l IH] using rev_ind; [done|].
  rewrite foldl_app. cbn [foldl]. intros [[<- <-]|[_ H']]%lookup_insert_Some.
  - exists x. set_solver.
  - destruct (IH H') as (y & ? & ? & ?). exists y. set_solver.
Qed.

Lemma collect_map_total {A K V} `{Countable K} (key : A → K) (value : A → V) l x :
  x ∈ l → is_Some (collect_map key value l !! key x).
Proof.
  unfold collect_map. induction l as [|y l IH] using rev_ind; [set_solver|].
  rewrite foldl_app. cbn [foldl]. intros Hx.
  destruct (decide (key y = key x)) as [->|Hne]; [rewrite lookup_insert_eq; eauto|].
  rewrite lookup_insert_ne by done. apply IH. set_solver.
Qed.

(** [iter().min_by_key(key)]: the first element with the least key. *)
Fixpoint min_by_key {A} (key : A → Z) (l : list A) : option A :=
  match l with
  | [] => None
  | x :: l =>
      match min_by_key key l with
      | None => Some x
      | Some y => if decide (key x ≤ key y) then Some x else Some y
      end
  end.

Lemma min_by_key_Some {A} (key : A → Z) l x :
  min_by_key key l = Some x → x ∈ l ∧ ∀ y, y ∈ l → key x ≤ key y.
Proof.
  revert x. induction l as [|z l IH]; intros x; simpl; [done|].
  destruct (min_by_key key l) as [y|] eqn:E.
  - destruct (IH y eq_refl) as [Hin Hmin]. case_decide; intros [= <-]; split.
    + set_solver.
    + intros w [->|Hw]%elem_of_cons; [lia|]. specialize (Hmin w Hw). lia.
    + set_solver.
    + intros w [->|Hw]%elem_of_cons; [lia|]. by apply Hmin.
  - intros [= <-]. destruct l as [|w l].
    + split; [set_solver|]. intros y Hy. apply list_elem_of_singleton in Hy as ->. lia.
    + simpl in E. destruct (min_by_key key l); [case_decide|]; done.
Qed.

Lemma min_by_key_None {A} (key : A → Z) l : min_by_key key l = None ↔ l = [].
Proof.
  destruct l as [|x l]; simpl; [done|].
  destruct (min_by_key key l); [case_decide|]; done.
Qed.

(** ** Searching *)

(** [iter().find(p)]. *)
Fixpoint find_first {A} (p : A → bool) (l : list A) : option A :=
  match l with
  | [] => None
  | x :: l => if p x then Some x else find_first p l
  end.

Section find_first.
Context {A : Type}.
Implicit Types (p q : A → bool) (l : list A).

Lemma find_first_app p l k :
  find_first p (l ++ k) = match find_first p l with Some x => Some x | None => find_first p k end.
Proof. induction l as [|x l IH]; cbn; [done|]. by destruct (p x). Qed.

Lemma find_first_Some p l x : find_first p l = Some x → x ∈ l ∧ p x = true.
Proof.
  induction l as [|y l IH]; cbn; [done|]. destruct (p y) eqn:E; [intros [= <-]; set_solver|].
  intros [? ?]%IH. set_solver.
Qed.

Lemma find_first_None p l : (∀ x, x ∈ l → p x = false) → find_first p l = None.
Proof. induction l as [|y l IH]; intros Hl; cbn; [done|]. rewrite Hl by set_solver. apply IH. set_solver. Qed.
End find_first.

(** ** Automation *)

Create HintDb hy2.
#[export] Hint Resolve len_nonneg to_be_bytes_is_bytes : hy2.
#[export] Hint Rewrite @len_app @len_cons @len_nil : len.

(** Reduce the binds of known results, and nothing else. *)
Ltac res_simpl := cbn [mbind result_bind rmap rmap_err ensure ok_or rok is_ok].
Tactic Notation "res_simpl" "in" hyp(H) :=
  cbn [mbind result_bind rmap rmap_err ensure ok_or rok is_ok] in H.

(** Split every [... = Ok _] hypothesis along its binds. *)
Ltac res_inv :=
  repeat match goal with
  | H : (_ ≫= _) = Ok _ |- _ =>
      let a := fresh "r" in let E := fresh "E" in
      apply rbind_Ok in H as (a & E & H)
  | H : ensure _ _ = Ok _ |- _ => apply ensure_Ok in H
  | H : ok_or _ _ = Ok _ |- _ => apply ok_or_Ok in H
  | H : rmap _ _ = Ok _ |- _ => apply rmap_Ok in H as (? & H & ?)
  | H : Ok _ = Ok _ |- _ => injection H as H
  | H : Err _ = Ok _ |- _ => discriminate H
  | H : Ok _ = Err _ |- _ => discriminate H
  end.
