(* ===== verification/RustStr.v ===== *)
(** * Rust strings

    A [&str] or [String] is its UTF-8 bytes, a [list Z].  This file holds the
    standard-library functions on strings that the program calls, with the lemmas
    the components share: UTF-8 validation and lossy decoding, trimming,
    splitting, ASCII case, decimal and hexadecimal formatting and parsing. *)

From stdpp Require Import base list gmap strings.
From Stdlib Require Import ZArith Lia Ascii.
From S2P Require Import Prelude.

Open Scope Z_scope.

Abbreviation str := (list Z).

(** A string literal, as bytes. *)
Fixpoint lit (s : string) : str :=
  match s with
  | EmptyString => []
  | String c s => Z.of_N (N_of_ascii c) :: lit s
  end.

(** Equality of strings as a boolean. *)
Definition str_eqb (a b : str) : bool := bool_decide (a = b).

Lemma str_eqb_eq a b : str_eqb a b = true ↔ a = b.
Proof. apply bool_decide_eq_true. Qed.

Definition is_nil {A} (l : list A) : bool := match l with [] => true | _ => false end.

Lemma is_nil_true {A} (l : list A) : is_nil l = true ↔ l = [].
Proof. by destruct l. Qed.

Lemma is_nil_false {A} (l : list A) : is_nil l = false ↔ l ≠ [].
Proof. by destruct l. Qed.

(** Membership in a closed interval, as [(a..=b).contains(&x)]. *)
Definition in_range (a x b : Z) : bool := (a <=? x) && (x <=? b).

Lemma in_range_true a x b : in_range a x b = true ↔ a ≤ x ≤ b.
Proof. unfold in_range. rewrite andb_true_iff, !Z.leb_le. done. Qed.

(** ** UTF-8

    [utf8_next l] inspects the first character of [l] as
    [core::str::lossy::Utf8Chunks] does: [(true, n)] when the first [n] bytes are
    a well-formed character, [(false, n)] when they are a maximal ill-formed
    prefix. *)

Definition is_cont (b : Z) : bool := Z.land b 192 =? 128.

(** [utf8_char_width]. *)
Definition utf8_width (b : Z) : nat :=
  if b <? 128 then 1%nat
  else if in_range 194 b 223 then 2%nat
  else if in_range 224 b 239 then 3%nat
  else if in_range 240 b 244 then 4%nat
  else 0%nat.

(** The range of the second byte of a 3-byte or 4-byte character. *)
Definition utf8_second3 (b c : Z) : bool :=
  ((b =? 224) && in_range 160 c 191) || (in_range 225 b 236 && in_range 128 c 191)
  || ((b =? 237) && in_range 128 c 159) || (in_range 238 b 239 && in_range 128 c 191).

Definition utf8_second4 (b c : Z) : bool :=
  ((b =? 240) && in_range 144 c 191) || (in_range 241 b 243 && in_range 128 c 191)
  || ((b =? 244) && in_range 128 c 143).

(** [safe_get]: the byte at [i], or 0 past the end. *)
Definition safe_get (l : str) (i : nat) : Z := nth i l 0.

Lemma safe_get_Forall (P : Z → Prop) l i : Forall P l → (i < length l)%nat → P (safe_get l i).
Proof. intros H Hi. rewrite List.Forall_forall in H. apply H. by apply nth_In. Qed.

Definition utf8_next (l : str) : option (bool * nat) :=
  match l with
  | [] => None
  | b :: _ => Some
      match utf8_width b with
      | 1%nat => (true, 1%nat)
      | 2%nat =>
          if is_cont (safe_get l 1) then (true, 2%nat) else (false, 1%nat)
      | 3%nat =>
          if utf8_second3 b (safe_get l 1) then
            if is_cont (safe_get l 2) then (true, 3%nat) else (false, 2%nat)
          else (false, 1%nat)
      | 4%nat =>
          if utf8_second4 b (safe_get l 1) then
            if is_cont (safe_get l 2) then
              if is_cont (safe_get l 3) then (true, 4%nat) else (false, 3%nat)
            else (false, 2%nat)
          else (false, 1%nat)
      | _ => (false, 1%nat)
      end
  end.

(** U+FFFD. *)
Definition replacement : str := [239; 191; 189].

Fixpoint lossy_fuel (fuel : nat) (l : str) : str :=
  match fuel with
  | O => []
  | S fuel =>
      match utf8_next l with
      | None => []
      | Some (true, n) => take n l ++ lossy_fuel fuel (drop n l)
      | Some (false, n) => replacement ++ lossy_fuel fuel (drop n l)
      end
  end.

(** [String::from_utf8_lossy(l).into_owned()]. *)
Definition from_utf8_lossy (l : str) : str := lossy_fuel (length l) l.

Fixpoint valid_fuel (fuel : nat) (l : str) : bool :=
  match fuel with
  | O => is_nil l
  | S fuel =>
      match utf8_next l with
      | None => true
      | Some (true, n) => valid_fuel fuel (drop n l)
      | Some (false, _) => false
      end
  end.

Definition utf8_valid (l : str) : bool := valid_fuel (length l) l.

(** [String::from_utf8(l).ok()]. *)
Definition from_utf8 (l : str) : option str := if utf8_valid l then Some l else None.

Lemma utf8_next_spec l v n :
  utf8_next l = Some (v, n) → (1 ≤ n)%nat.
Proof.
  unfold utf8_next. destruct l as [|b l]; [done|].
  intros [= H]. repeat case_match; simplify_eq; lia.
Qed.

Lemma is_cont_0 : is_cont 0 = false.
Proof. done. Qed.

(** A well-formed character lies inside the string. *)
Lemma utf8_next_valid_length l n :
  utf8_next l = Some (true, n) → (1 ≤ n ≤ length l)%nat.
Proof.
  intros H. split; [by eapply utf8_next_spec|]. revert H.
  unfold utf8_next, safe_get. destruct l as [|b l]; [done|]. intros [= H].
  destruct (utf8_width b) as [|[|[|[|[|]]]]]; simplify_eq; simpl; try lia;
    destruct l as [|c1 [|c2 [|c3 l]]]; simpl in *; try lia;
    repeat (case_match; simplify_eq; try lia);
    unfold utf8_second3, utf8_second4, in_range in *; simpl in *;
    repeat rewrite ?andb_false_r, ?orb_false_r in *; try done.
Qed.

Lemma utf8_next_valid_app l k n :
  utf8_next l = Some (true, n) → utf8_next (l ++ k) = Some (true, n).
Proof.
  intros H. pose proof (utf8_next_valid_length _ _ H) as Hn. revert H.
  unfold utf8_next, safe_get. destruct l as [|b l]; [done|]. intros [= H]. simpl app.
  f_equal. destruct (utf8_width b) as [|[|[|[|[|]]]]]; simplify_eq; try done;
    destruct l as [|c1 [|c2 [|c3 l]]]; simpl in *; try done;
    repeat (case_match; simplify_eq; try lia; try done).
Qed.

Lemma valid_fuel_enough f1 f2 l :
  (length l ≤ f1)%nat → (length l ≤ f2)%nat → valid_fuel f1 l = valid_fuel f2 l.
Proof.
  revert f2 l. induction f1 as [|f1 IH]; intros f2 l H1 H2.
  - destruct l; [by destruct f2|simpl in *; lia].
  - destruct f2 as [|f2]; [destruct l; [done|simpl in *; lia]|]. simpl.
    destruct (utf8_next l) as [[[] n]|] eqn:E; [|done|done].
    apply utf8_next_spec in E. apply IH; rewrite length_drop; lia.
Qed.

Lemma lossy_fuel_enough f1 f2 l :
  (length l ≤ f1)%nat → (length l ≤ f2)%nat → lossy_fuel f1 l = lossy_fuel f2 l.
Proof.
  revert f2 l. induction f1 as [|f1 IH]; intros f2 l H1 H2.
  - destruct l; [by destruct f2|simpl in *; lia].
  - destruct f2 as [|f2]; [destruct l; [done|simpl in *; lia]|]. simpl.
    destruct (utf8_next l) as [[[] n]|] eqn:E; [| |done];
      apply utf8_next_spec in E; rewrite (IH f2 (drop n l)) by (rewrite length_drop; lia); done.
Qed.

Lemma utf8_valid_cons l :
  l ≠ [] →
  utf8_valid l = match utf8_next l with
                 | Some (true, n) => utf8_valid (drop n l)
                 | _ => false
                 end.
Proof.
  intros Hl. unfold utf8_valid. destruct l as [|b l]; [done|].
  remember (b :: l) as bl eqn:Hbl.
  replace (length bl) with (S (length l)) by (by subst).
  cbn [valid_fuel]. destruct (utf8_next bl) as [[[] n]|] eqn:E; [|done|by subst].
  apply utf8_next_spec in E. apply valid_fuel_enough; [|done].
  subst. rewrite length_drop. simpl. lia.
Qed.

Lemma from_utf8_lossy_cons l :
  l ≠ [] →
  from_utf8_lossy l = match utf8_next l with
                      | Some (true, n) => take n l ++ from_utf8_lossy (drop n l)
                      | Some (false, n) => replacement ++ from_utf8_lossy (drop n l)
                      | None => []
                      end.
Proof.
  intros Hl. unfold from_utf8_lossy. destruct l as [|b l]; [done|].
  remember (b :: l) as bl eqn:Hbl.
  replace (length bl) with (S (length l)) by (by subst).
  cbn [lossy_fuel]. destruct (utf8_next bl) as [[[] n]|] eqn:E; [| |done];
    apply utf8_next_spec in E;
    rewrite (lossy_fuel_enough (length l) (length (drop n bl)) (drop n bl)); try done;
    subst; rewrite length_drop; simpl; lia.
Qed.

(** Induction along the characters of a string. *)
Lemma utf8_ind (P : str → Prop) :
  P [] →
  (∀ l v n, l ≠ [] → utf8_next l = Some (v, n) → P (drop n l) → P l) →
  ∀ l, P l.
Proof.
  intros H0 HS l. remember (length l) as m eqn:Hm. revert l Hm.
  induction m as [m IH] using lt_wf_ind. intros l ->.
  destruct l as [|b l]; [done|].
  destruct (utf8_next (b :: l)) as [[v n]|] eqn:E; [|done].
  eapply HS; [done|done|]. eapply IH; [|done].
  apply utf8_next_spec in E. rewrite length_drop. simpl. lia.
Qed.

(** Lossy decoding keeps a well-formed string... *)
Lemma from_utf8_lossy_valid l : utf8_valid l = true → from_utf8_lossy l = l.
Proof.
  revert l. apply (utf8_ind (fun l => utf8_valid l = true → from_utf8_lossy l = l));
    [done|].
  intros l v n Hl E IH. rewrite utf8_valid_cons, from_utf8_lossy_cons, E by done.
  destruct v; [|done]. intros H. by rewrite IH, take_drop.
Qed.

Lemma utf8_valid_app_l a b :
  utf8_valid a = true → utf8_valid (a ++ b) = utf8_valid b.
Proof.
  revert a. apply (utf8_ind (fun a => utf8_valid a = true → utf8_valid (a ++ b) = utf8_valid b));
    [done|].
  intros a v n Ha E IH. rewrite utf8_valid_cons, E by done.
  destruct v; [|done]. intros H.
  rewrite utf8_valid_cons by (destruct a; done).
  rewrite (utf8_next_valid_app _ _ _ E).
  pose proof (utf8_next_valid_length _ _ E).
  rewrite drop_app_le by lia. by apply IH.
Qed.

Lemma utf8_valid_take_next l n :
  utf8_next l = Some (true, n) → utf8_valid (take n l) = true.
Proof.
  intros E. pose proof (utf8_next_valid_length _ _ E) as Hn.
  assert (Hnext : utf8_next (take n l) = Some (true, n)).
  { revert E. unfold utf8_next, safe_get. destruct l as [|b l]; [done|].
    destruct n as [|n]; [lia|]. simpl take. intros [= E]. f_equal.
    revert E. destruct (utf8_width b) as [|[|[|[|[|]]]]] eqn:W; intros E; simplify_eq; try done;
    destruct l as [|c1 [|c2 [|c3 l]]]; simpl in *;
    repeat (case_match; simplify_eq; simpl; try lia; try done). }
  rewrite utf8_valid_cons by (destruct l, n; simpl in *; try done; lia).
  rewrite Hnext, drop_ge by (rewrite length_take; lia). done.
Qed.

(** ... and always yields a well-formed one. *)
Lemma from_utf8_lossy_is_valid l : utf8_valid (from_utf8_lossy l) = true.
Proof.
  revert l. apply (utf8_ind (fun l => utf8_valid (from_utf8_lossy l) = true)); [done|].
  intros l v n Hl E IH. rewrite from_utf8_lossy_cons, E by done. destruct v.
  - rewrite utf8_valid_app_l; [done|]. by apply utf8_valid_take_next.
  - by rewrite utf8_valid_app_l.
Qed.

Lemma utf8_valid_ascii l : Forall (fun b => b < 128) l → utf8_valid l = true.
Proof.
  induction 1 as [|b l Hb _ IH]; [done|].
  rewrite utf8_valid_cons by done. unfold utf8_next, utf8_width.
  by rewrite (proj2 (Z.ltb_lt b 128)).
Qed.

(** ** Prefixes, suffixes, substrings *)

(** [s.strip_prefix(p)]. *)
Fixpoint strip_prefix (p s : str) : option str :=
  match p, s with
  | [], _ => Some s
  | a :: p, b :: s => if a =? b then strip_prefix p s else None
  | _ :: _, [] => None
  end.

(** [s.starts_with(p)]. *)
Definition starts_with (p s : str) : bool :=
  match strip_prefix p s with Some _ => true | None => false end.

(** [s.strip_suffix(p)]. *)
Definition strip_suffix (p s : str) : option str :=
  reverse <$> strip_prefix (reverse p) (reverse s).

(** [s.contains(p)]. *)
Fixpoint contains (p s : str) : bool :=
  starts_with p s || match s with [] => false | _ :: s => contains p s end.

(** [s.contains(c)] for a single byte. *)
Definition contains_char (c : Z) (s : str) : bool := existsb (Z.eqb c) s.

Lemma strip_prefix_Some p s t : strip_prefix p s = Some t ↔ s = p ++ t.
Proof.
  revert s. induction p as [|a p IH]; intros [|b s]; simpl; try naive_solver.
  destruct (Z.eqb_spec a b); rewrite ?IH; naive_solver.
Qed.

Lemma starts_with_iff p s : starts_with p s = true ↔ ∃ t, s = p ++ t.
Proof.
  unfold starts_with. destruct (strip_prefix p s) as [t|] eqn:E.
  - apply strip_prefix_Some in E. naive_solver.
  - split; [done|]. intros [t Ht]. by rewrite (proj2 (strip_prefix_Some _ _ _) Ht) in E.
Qed.

Lemma contains_char_spec c s : contains_char c s = true ↔ c ∈ s.
Proof.
  unfold contains_char. rewrite existsb_exists. setoid_rewrite Z.eqb_eq.
  rewrite list_elem_of_In. naive_solver.
Qed.

Lemma contains_char_false c s : contains_char c s = false ↔ c ∉ s.
Proof. rewrite <- contains_char_spec. by destruct (contains_char c s). Qed.

(** [s.split_once(c)] and [s.rsplit_once(c)] for a single byte. *)
Fixpoint split_once (c : Z) (s : str) : option (str * str) :=
  match s with
  | [] => None
  | b :: s =>
      if b =? c then Some ([], s)
      else prod_map (cons b) id <$> split_once c s
  end.

Definition rsplit_once (c : Z) (s : str) : option (str * str) :=
  (fun p => (reverse p.2, reverse p.1)) <$> split_once c (reverse s).

(** [s.split_once(p)] for a string pattern. *)
Fixpoint split_once_str (p s : str) : option (str * str) :=
  match strip_prefix p s with
  | Some t => Some ([], t)
  | None =>
      match s with
      | [] => None
      | b :: s => prod_map (cons b) id <$> split_once_str p s
      end
  end.

Lemma split_once_Some c s a b :
  split_once c s = Some (a, b) ↔ s = a ++ c :: b ∧ c ∉ a.
Proof.
  revert a b. induction s as [|x s IH]; intros a b; simpl.
  { split; [done|]. intros [H _]. by destruct a. }
  destruct (Z.eqb_spec x c) as [->|Hne].
  - split.
    + intros [= <- <-]. split; [done|set_solver].
    + intros [H Hc]. destruct a as [|y a]; simpl in H; simplify_eq; [done|set_solver].
  - split.
    + intros ([a' b'] & E & Heq)%fmap_Some. apply IH in E as [-> Hc].
      simpl in Heq. simplify_eq. split; [done|set_solver].
    + intros [H Ha]. destruct a as [|y a]; simpl in H; [naive_solver|].
      injection H as -> ->. rewrite (proj2 (IH a b)); [done|]. set_solver.
Qed.

(** [s.split(p)] on bytes satisfying [p]: always at least one piece. *)
Fixpoint split_by (p : Z → bool) (s : str) : list str :=
  match s with
  | [] => [[]]
  | b :: s =>
      if p b then [] :: split_by p s
      else match split_by p s with
           | [] => [[b]]
           | w :: ws => (b :: w) :: ws
           end
  end.

(** [s.lines()]: split after each line feed, drop the terminator and a carriage
    return before it; a last empty line is not yielded. *)
Fixpoint split_inclusive_lf (s : str) : list str :=
  match s with
  | [] => []
  | b :: s =>
      if b =? 10 then [b] :: split_inclusive_lf s
      else match split_inclusive_lf s with
           | [] => [[b]]
           | w :: ws => (b :: w) :: ws
           end
  end.

Definition strip_line_end (s : str) : str :=
  match strip_suffix [10] s with
  | None => s
  | Some l => match strip_suffix [13] l with None => l | Some l => l end
  end.

Definition lines (s : str) : list str := strip_line_end <$> split_inclusive_lf s.

Lemma split_by_avoids p s : Forall (Forall (fun b => p b = false)) (split_by p s).
Proof.
  induction s as [|b s IH]; simpl; [repeat constructor|].
  destruct (p b) eqn:E; [by constructor|].
  destruct (split_by p s) as [|w ws]; inversion_clear IH; repeat constructor; done.
Qed.

Lemma split_by_nonempty p s : split_by p s ≠ [].
Proof. destruct s as [|b s]; cbn [split_by]; [done|]. by repeat case_match. Qed.

(** The pieces on both sides of a separator. *)
Lemma split_by_app_sep p a c b : p c = true → split_by p (a ++ c :: b) = split_by p a ++ split_by p b.
Proof.
  intros Hc. induction a as [|x a IH]; cbn [app split_by]; [by rewrite Hc|]. rewrite IH. destruct (p x); [done|].
  pose proof (split_by_nonempty p a). by destruct (split_by p a).
Qed.

Lemma split_by_none p s : Forall (fun b => p b = false) s → split_by p s = [s].
Proof. induction 1 as [|b s Hb _ IH]; cbn [split_by]; [done|]. by rewrite Hb, IH. Qed.

(** ** Trimming

    [char::is_whitespace] is Unicode White_Space; [white_space] lists the UTF-8
    encodings of its characters. *)

Definition white_space : list str :=
  [ [9]; [10]; [11]; [12]; [13]; [32]; [194; 133]; [194; 160]; [225; 154; 128];
    [226; 128; 128]; [226; 128; 129]; [226; 128; 130]; [226; 128; 131];
    [226; 128; 132]; [226; 128; 133]; [226; 128; 134]; [226; 128; 135];
    [226; 128; 136]; [226; 128; 137]; [226; 128; 138]; [226; 128; 168];
    [226; 128; 169]; [226; 128; 175]; [226; 129; 159]; [227; 128; 128] ].

(** Drop the first of [pats] that starts the string. *)
Definition strip_any (pats : list str) (s : str) : option str :=
  foldr (fun p acc => match strip_prefix p s with Some t => Some t | None => acc end)
        None pats.

Fixpoint strip_all_fuel (fuel : nat) (pats : list str) (s : str) : str :=
  match fuel with
  | O => s
  | S fuel =>
      match strip_any pats s with
      | Some t => strip_all_fuel fuel pats t
      | None => s
      end
  end.

(** Drop every leading pattern; each removes at least one byte. *)
Definition strip_all (pats : list str) (s : str) : str := strip_all_fuel (length s) pats s.

Definition trim_start (s : str) : str := strip_all white_space s.
Definition trim_end (s : str) : str := reverse (strip_all (reverse <$> white_space) (reverse s)).

(** [s.trim()]. *)
Definition trim (s : str) : str := trim_end (trim_start s).

(** [s.trim_start_matches(c)], [s.trim_end_matches(c)], [s.trim_matches(c)]. *)
Fixpoint trim_start_matches (c : Z) (s : str) : str :=
  match s with
  | b :: t => if b =? c then trim_start_matches c t else s
  | [] => []
  end.

Definition trim_end_matches (c : Z) (s : str) : str := reverse (trim_start_matches c (reverse s)).
Definition trim_matches (c : Z) (s : str) : str := trim_end_matches c (trim_start_matches c s).

(** [s.chars().any(char::is_whitespace)]. *)
Fixpoint has_whitespace (s : str) : bool :=
  match strip_any white_space s with
  | Some _ => true
  | None => match s with [] => false | _ :: s => has_whitespace s end
  end.

(** [s.chars().any(char::is_control)]: U+0000..U+001F, U+007F..U+009F.  The
    characters U+0080..U+009F are encoded as the byte 0xC2 followed by the
    character's number. *)
Fixpoint has_control (s : str) : bool :=
  match s with
  | [] => false
  | b :: t =>
      in_range 0 b 31 || (b =? 127)
      || ((b =? 194) && match t with c :: _ => in_range 128 c 159 | [] => false end)
      || has_control t
  end.

Lemma strip_any_suffix pats s t : strip_any pats s = Some t → ∃ p, p ∈ pats ∧ s = p ++ t.
Proof.
  induction pats as [|p pats IH]; simpl; [done|].
  destruct (strip_prefix p s) as [u|] eqn:E.
  - intros [= <-]. apply strip_prefix_Some in E. exists p. set_solver.
  - intros H. destruct (IH H) as (q & ? & ?). exists q. set_solver.
Qed.

Lemma strip_all_suffix pats s : ∃ p, s = p ++ strip_all pats s.
Proof.
  unfold strip_all. generalize (length s) as f. intros f. revert s.
  induction f as [|f IH]; intros s; simpl; [by exists []|].
  destruct (strip_any pats s) as [t|] eqn:E; [|by exists []].
  apply strip_any_suffix in E as (p & _ & ->). destruct (IH t) as [q Hq].
  exists (p ++ q). by rewrite <- app_assoc, <- Hq.
Qed.

(** Trimming keeps a contiguous part of the string. *)
Lemma trim_infix s : ∃ a b, s = a ++ trim s ++ b.
Proof.
  destruct (strip_all_suffix white_space s) as [a Ha].
  destruct (strip_all_suffix (reverse <$> white_space) (reverse (trim_start s))) as [b Hb].
  exists a, (reverse b). unfold trim, trim_end.
  apply (f_equal (reverse)) in Hb. rewrite reverse_involutive, reverse_app in Hb.
  by rewrite <- Hb.
Qed.

Lemma trim_length s : len (trim s) ≤ len s.
Proof.
  destruct (trim_infix s) as (a & b & H). rewrite H at 2.
  rewrite !len_app. pose proof (len_nonneg a). pose proof (len_nonneg b). lia.
Qed.

Lemma trim_Forall (P : Z → Prop) s : Forall P s → Forall P (trim s).
Proof.
  destruct (trim_infix s) as (a & b & H). rewrite H at 1.
  rewrite !Forall_app. naive_solver.
Qed.

Lemma trim_nil_of_nil : trim [] = [].
Proof. done. Qed.

(** ** ASCII case and replacement *)

Definition to_lower (b : Z) : Z := if in_range 65 b 90 then b + 32 else b.

(** [s.to_ascii_lowercase()]. *)
Definition to_ascii_lowercase (s : str) : str := to_lower <$> s.

(** [a.eq_ignore_ascii_case(b)]. *)
Definition eq_ignore_ascii_case (a b : str) : bool :=
  str_eqb (to_ascii_lowercase a) (to_ascii_lowercase b).

(** [c.is_ascii_alphanumeric()]. *)
Definition is_ascii_alphanumeric (b : Z) : bool :=
  in_range 48 b 57 || in_range 65 b 90 || in_range 97 b 122.

(** [s.replace(p, r)] for a class of single-byte characters. *)
Definition replace_chars (p : Z → bool) (r : str) (s : str) : str :=
  flat_map (fun b => if p b then r else [b]) s.

Definition replace_char (c : Z) : str → str → str := replace_chars (Z.eqb c).

(** [v.join(sep)]. *)
Fixpoint join (sep : str) (v : list str) : str :=
  match v with
  | [] => []
  | [w] => w
  | w :: ws => w ++ sep ++ join sep ws
  end.

Lemma replace_chars_Forall (P : Z → Prop) p r s :
  Forall P r → Forall (fun b => p b = false → P b) s → Forall P (replace_chars p r s).
Proof.
  intros Hr. induction 1 as [|b s Hb _ IH]; [constructor|]. simpl.
  apply Forall_app. split; [|done]. destruct (p b); [done|]. by repeat constructor; apply Hb.
Qed.

(** ** Numbers *)

Definition digit (v : Z) : Z := 48 + v.

Fixpoint dec_fuel (fuel : nat) (v : Z) (acc : str) : str :=
  match fuel with
  | O => acc
  | S fuel =>
      let acc := digit (v mod 10) :: acc in
      if v <? 10 then acc else dec_fuel fuel (v / 10) acc
  end.

(** [v.to_string()] of an unsigned integer.  A number has at most as many
    decimal digits as binary ones, which is the fuel. *)
Definition dec (v : Z) : str := dec_fuel (S (Z.to_nat (Z.log2 v))) v [].

(** The value of a string of decimal digits, most significant first. *)
Fixpoint digits_value (acc : Z) (s : str) : option Z :=
  match s with
  | [] => Some acc
  | b :: s => if in_range 48 b 57 then digits_value (acc * 10 + (b - 48)) s else None
  end.

(** [s.parse::<uN>()]: an optional plus sign, at least one digit, no overflow.
    Checking the bound at the end is checking it at every digit, as the
    accumulated value never decreases. *)
Definition parse_uint (max : Z) (s : str) : option Z :=
  let d := match s with 43 :: t => t | _ => s end in
  match d with
  | [] => None
  | _ => v ← digits_value 0 d; if v <=? max then Some v else None
  end.

Definition parse_u16 : str → option Z := parse_uint U16_MAX.
Definition parse_u64 : str → option Z := parse_uint U64_MAX.

(** The two digits of [{:02x}]. *)
Definition hex_digit (v : Z) : Z := if v <? 10 then 48 + v else 87 + v.
Definition hex_byte (b : Z) : str := [hex_digit (b / 16); hex_digit (b mod 16)].
Definition hex (l : list Z) : str := flat_map hex_byte l.

Lemma digits_value_app acc a b :
  digits_value acc (a ++ b) = (v ← digits_value acc a; digits_value v b).
Proof.
  revert acc. induction a as [|x a IH]; intros acc; simpl; [done|].
  case_match; [apply IH|done].
Qed.

Lemma dec_fuel_app f v acc : dec_fuel f v acc = dec_fuel f v [] ++ acc.
Proof.
  revert v acc. induction f as [|f IH]; intros v acc; simpl; [done|].
  destruct (v <? 10); [done|]. rewrite (IH _ (_ :: acc)), (IH _ [_]).
  by rewrite <- app_assoc.
Qed.

Lemma dec_fuel_value f v :
  0 ≤ v < 2 ^ Z.of_nat f → (0 < f)%nat →
  digits_value 0 (dec_fuel f v []) = Some v.
Proof.
  revert v. induction f as [|f IH]; intros v Hv Hf; [lia|]. cbn [dec_fuel].
  assert (Hr : in_range 48 (digit (v mod 10)) 57 = true).
  { apply in_range_true. unfold digit. pose proof (Z.mod_pos_bound v 10). lia. }
  destruct (Z.ltb_spec v 10) as [Hlt|Hge].
  - cbn [digits_value]. rewrite Hr. unfold digit. f_equal.
    rewrite Z.mod_small; lia.
  - rewrite dec_fuel_app, digits_value_app.
    pose proof (Z.div_mod v 10 ltac:(lia)). pose proof (Z.mod_pos_bound v 10 ltac:(lia)).
    rewrite Nat2Z.inj_succ, Z.pow_succ_r in Hv by lia.
    rewrite IH.
    + cbn [mbind option_bind digits_value]. rewrite Hr. f_equal. unfold digit. lia.
    + split; [apply Z.div_pos; lia|]. apply Z.div_lt_upper_bound; lia.
    + destruct f; [simpl in Hv; lia|lia].
Qed.

Lemma dec_digits f v acc :
  Forall (fun b => 48 ≤ b ≤ 57) acc → Forall (fun b => 48 ≤ b ≤ 57) (dec_fuel f v acc).
Proof.
  revert v acc. induction f as [|f IH]; intros v acc Hacc; simpl; [done|].
  assert (Forall (fun b => 48 ≤ b ≤ 57) (digit (v mod 10) :: acc)).
  { constructor; [|done]. unfold digit. pose proof (Z.mod_pos_bound v 10). lia. }
  case_match; eauto.
Qed.

Lemma dec_nonempty v : dec v ≠ [].
Proof.
  unfold dec. cbn [dec_fuel]. case_match; [done|]. rewrite dec_fuel_app.
  by destruct (dec_fuel _ _ []).
Qed.

Lemma dec_ascii v : Forall (fun b => 48 ≤ b ≤ 57) (dec v).
Proof. by apply dec_digits. Qed.

(** Printing then parsing a number gives it back. *)
Lemma parse_dec max v : 0 ≤ v ≤ max → parse_uint max (dec v) = Some v.
Proof.
  intros Hv. unfold parse_uint.
  pose proof (dec_nonempty v) as Hne. pose proof (dec_ascii v) as Hd.
  assert (Hval : digits_value 0 (dec v) = Some v).
  { apply dec_fuel_value; [|lia]. destruct (decide (v = 0)) as [->|]; [simpl; lia|].
    rewrite Nat2Z.inj_succ, Z2Nat.id by apply Z.log2_nonneg.
    pose proof (Z.log2_spec v ltac:(lia)). lia. }
  assert (Hsame : (match dec v with 43 :: t => t | _ => dec v end) = dec v).
  { destruct (dec v) as [|b l]; [done|]. inversion_clear Hd as [|? ? Hb].
    destruct b as [|b|b]; [done| |done].
    do 6 (destruct b as [b|b|]; try done). }
  rewrite Hsame. destruct (dec v) eqn:E; [done|]. rewrite Hval. simpl.
  rewrite (proj2 (Z.leb_le v max)); [done|lia].
Qed.

Lemma len_hex l : len (hex l) = 2 * len l.
Proof. unfold hex, len. induction l as [|b l IH]; [done|]. cbn [flat_map hex_byte app length]. lia. Qed.

(** A parsed number is within its type. *)
Lemma digits_value_nonneg s acc v : 0 ≤ acc → digits_value acc s = Some v → 0 ≤ v.
Proof.
  revert acc. induction s as [|b s IH]; intros acc Ha; cbn; [by intros [= <-]|].
  destruct (in_range 48 b 57) eqn:E; [|done]. apply in_range_true in E. apply IH. lia.
Qed.

Lemma parse_uint_range max s v : parse_uint max s = Some v → 0 ≤ v ≤ max.
Proof.
  unfold parse_uint. set (d := match s with 43 :: t => t | _ => s end).
  destruct d; [done|]. intros (w & Hw & H)%bind_Some. case_match; simplify_eq.
  split; [by apply digits_value_nonneg in Hw|lia].
Qed.

(** ** Order

    [Ord for str]: by bytes. *)
Fixpoint str_leb (a b : str) : bool :=
  match a, b with
  | [], _ => true
  | _ :: _, [] => false
  | x :: a, y :: b => (x <? y) || ((x =? y) && str_leb a b)
  end.

Lemma str_leb_total a b : str_leb a b = true ∨ str_leb b a = true.
Proof.
  revert b. induction a as [|x a IH]; intros [|y b]; cbn; [by left|by left|by right|].
  destruct (IH b) as [H|H]; rewrite H;
    destruct (Z.ltb_spec x y), (Z.ltb_spec y x), (Z.eqb_spec x y), (Z.eqb_spec y x); cbn; auto; lia.
Qed.

Lemma str_leb_trans a b c : str_leb a b = true → str_leb b c = true → str_leb a c = true.
Proof.
  revert b c. induction a as [|x a IH]; intros [|y b] [|z c]; cbn; try done.
  rewrite !orb_true_iff, !andb_true_iff, !Z.ltb_lt, !Z.eqb_eq. intros [?|[-> ?]] [?|[-> ?]]; eauto 6; left; lia.
Qed.
