(* ===== verification/Lines.v ===== *)
(** * Lines and trimmed text

    Facts about [str::trim], [str::lines] and [str::contains] that the text
    formats of the program rely on: trimming once is enough, and lines joined by
    line feeds are read back. *)

From stdpp Require Import base list strings sets.
From Stdlib Require Import ZArith Lia.
From S2P Require Import Prelude RustStr.

Open Scope Z_scope.

(** ** Trimming *)

Lemma strip_any_None pats s : strip_any pats s = None ↔ ∀ p, p ∈ pats → strip_prefix p s = None.
Proof.
  unfold strip_any. induction pats as [|p pats IH]; cbn [foldr]; [set_solver|].
  destruct (strip_prefix p s) eqn:E.
  - split; [done|]. intros Hp. rewrite (Hp p) in E by (by left). done.
  - rewrite IH. set_solver.
Qed.

Lemma strip_all_None pats s : strip_any pats s = None → strip_all pats s = s.
Proof. intros E. unfold strip_all. destruct (length s); cbn [strip_all_fuel]; [done|]. by rewrite E. Qed.

(** What is left after stripping starts with none of the patterns. *)
Lemma strip_all_fuel_stops fuel pats s :
  Forall (fun p => p ≠ []) pats → (length s ≤ fuel)%nat → strip_any pats (strip_all_fuel fuel pats s) = None.
Proof.
  intros Hp. revert s. induction fuel as [|fuel IH]; intros s Hs; cbn [strip_all_fuel].
  - apply strip_any_None. intros p Hin. rewrite Forall_forall in Hp. specialize (Hp p Hin).
    destruct s; [|cbn in Hs; lia]. by destruct p.
  - destruct (strip_any pats s) as [t|] eqn:E; [|done]. apply IH.
    apply strip_any_suffix in E as (p & Hin & ->). rewrite Forall_forall in Hp. specialize (Hp p Hin).
    rewrite length_app in Hs. destruct p; [done|cbn in *; lia].
Qed.

Lemma strip_all_stops pats s :
  Forall (fun p => p ≠ []) pats → strip_any pats (strip_all pats s) = None.
Proof. intros. by apply strip_all_fuel_stops. Qed.

Lemma white_space_nonempty : Forall (fun p => p ≠ []) white_space.
Proof. by repeat constructor. Qed.

Lemma reverse_white_space_nonempty : Forall (fun p => p ≠ []) (reverse <$> white_space).
Proof. by repeat constructor. Qed.

(** A text is trimmed when it neither starts nor ends with white space. *)
Definition trimmed (s : str) : Prop :=
  strip_any white_space s = None ∧ strip_any (reverse <$> white_space) (reverse s) = None.

Lemma trimmed_trim s : trimmed s → trim s = s.
Proof.
  intros [Ha Hb]. unfold trim, trim_end, trim_start. rewrite (strip_all_None _ s Ha).
  rewrite (strip_all_None _ _ Hb). apply reverse_involutive.
Qed.

Lemma strip_any_prefix pats s t : strip_any pats (s ++ t) = None → strip_any pats s = None.
Proof.
  rewrite !strip_any_None. intros Hp p Hin. specialize (Hp p Hin).
  destruct (strip_prefix p s) as [u|] eqn:E; [|done]. apply strip_prefix_Some in E as ->.
  rewrite <- app_assoc in Hp. by rewrite (proj2 (strip_prefix_Some p (p ++ u ++ t) (u ++ t)) eq_refl) in Hp.
Qed.

Lemma trim_trimmed s : trimmed (trim s).
Proof.
  unfold trim, trim_end. set (a := trim_start s). split.
  - destruct (strip_all_suffix (reverse <$> white_space) (reverse a)) as [b Hb].
    apply (f_equal reverse) in Hb. rewrite reverse_involutive, reverse_app in Hb.
    apply (strip_any_prefix _ _ (reverse b)). rewrite <- Hb.
    apply strip_all_stops, white_space_nonempty.
  - rewrite reverse_involutive. apply strip_all_stops, reverse_white_space_nonempty.
Qed.

Lemma trim_idemp s : trim (trim s) = trim s.
Proof. apply trimmed_trim, trim_trimmed. Qed.

(** Text whose every byte is printable ASCII other than the space is trimmed. *)
Lemma graphic_trimmed s : Forall (fun b => 33 ≤ b ≤ 126) s → trimmed s.
Proof.
  assert (Hgen : ∀ pats s, Forall (fun p => match p with b :: _ => ¬ 33 ≤ b ≤ 126 | [] => False end) pats →
    Forall (fun b => 33 ≤ b ≤ 126) s → strip_any pats s = None).
  { intros pats t Hp Ht. apply strip_any_None. intros p Hin. rewrite Forall_forall in Hp. specialize (Hp p Hin).
    destruct p as [|b p]; [done|]. destruct t as [|c t]; [done|]. cbn. inversion_clear Ht.
    destruct (Z.eqb_spec b c); [by subst|done]. }
  intros Hs. split; apply Hgen; try done.
  - repeat (apply List.Forall_cons; [cbn; lia|]). constructor.
  - repeat (apply List.Forall_cons; [cbn; lia|]). constructor.
  - by apply Forall_reverse.
Qed.

(** ** Substrings *)

Lemma contains_iff p s : contains p s = true ↔ ∃ a b, s = a ++ p ++ b.
Proof.
  induction s as [|c s IH]; cbn [contains].
  - rewrite orb_false_r, starts_with_iff. split.
    + intros [t Ht]. by exists [], t.
    + intros (a & b & Hab). destruct a; [by exists b|done].
  - rewrite orb_true_iff, starts_with_iff, IH. split.
    + intros [[t Ht]|(a & b & ->)]; [by exists [], t|by exists (c :: a), b].
    + intros ([|x a] & b & Hab); [left; by exists b|right]. injection Hab as -> ->. by exists a, b.
Qed.

Lemma contains_app_l p s t : contains p s = true → contains p (s ++ t) = true.
Proof. rewrite !contains_iff. intros (a & b & ->). exists a, (b ++ t). by rewrite <- !app_assoc. Qed.

Lemma contains_app_r p s t : contains p t = true → contains p (s ++ t) = true.
Proof. rewrite !contains_iff. intros (a & b & ->). exists (s ++ a), b. by rewrite <- !app_assoc. Qed.

Lemma contains_elem p s c : contains p s = true → c ∈ p → c ∈ s.
Proof. rewrite contains_iff. intros (a & b & ->) Hc. set_solver. Qed.

(** ** Lines *)

Lemma split_inclusive_cons a s :
  10 ∉ a → split_inclusive_lf (a ++ 10 :: s) = (a ++ [10]) :: split_inclusive_lf s.
Proof.
  induction a as [|b a IH]; intros Ha; [done|]. cbn [app split_inclusive_lf].
  rewrite (proj2 (Z.eqb_neq b 10)) by set_solver. rewrite IH by set_solver. done.
Qed.

Lemma split_inclusive_last a : 10 ∉ a → a ≠ [] → split_inclusive_lf a = [a].
Proof.
  induction a as [|b a IH]; intros Ha Hne; [done|]. cbn [split_inclusive_lf].
  rewrite (proj2 (Z.eqb_neq b 10)) by set_solver. destruct a as [|c a]; [done|].
  rewrite IH by set_solver. done.
Qed.

Lemma strip_suffix_app p s : strip_suffix p (s ++ p) = Some s.
Proof.
  unfold strip_suffix. rewrite reverse_app, (proj2 (strip_prefix_Some _ _ (reverse s)) eq_refl). cbn.
  by rewrite reverse_involutive.
Qed.

Lemma strip_suffix_Some p s t : strip_suffix p s = Some t ↔ s = t ++ p.
Proof.
  split.
  - unfold strip_suffix. intros (u & E & ->)%fmap_Some. apply strip_prefix_Some in E.
    apply (f_equal reverse) in E. by rewrite reverse_involutive, reverse_app, reverse_involutive in E.
  - intros ->. apply strip_suffix_app.
Qed.

(** A line that can be written on its own line and read back. *)
Definition line_ok (l : str) : Prop := l ≠ [] ∧ 10 ∉ l ∧ trimmed l.

Lemma trimmed_no_cr l t : trimmed l → l ≠ t ++ [13].
Proof.
  intros [_ Hb] ->. rewrite reverse_app, strip_any_None in Hb.
  assert (Hin : reverse [13] ∈ reverse <$> white_space) by (apply list_elem_of_fmap_2; set_solver).
  specialize (Hb _ Hin). by rewrite (proj2 (strip_prefix_Some _ _ (reverse t)) eq_refl) in Hb.
Qed.

Lemma strip_line_end_terminated l : trimmed l → strip_line_end (l ++ [10]) = l.
Proof.
  intros Hl. unfold strip_line_end. rewrite strip_suffix_app.
  destruct (strip_suffix [13] l) as [t|] eqn:E; [|done]. apply strip_suffix_Some in E.
  by apply (trimmed_no_cr l t) in Hl.
Qed.

Lemma strip_line_end_last l : 10 ∉ l → strip_line_end l = l.
Proof.
  intros Hl. unfold strip_line_end. destruct (strip_suffix [10] l) as [t|] eqn:E; [|done].
  apply strip_suffix_Some in E as ->. set_solver.
Qed.

Lemma join_cons_cons sep a b l : join sep (a :: b :: l) = a ++ sep ++ join sep (b :: l).
Proof. done. Qed.

(** Lines joined by line feeds are read back. *)
Lemma lines_join l : Forall line_ok l → lines (join [10] l) = l.
Proof.
  induction 1 as [|a l (Hne & Hlf & Htrim) Hl IH]; [done|]. unfold lines in *.
  destruct l as [|b l].
  - cbn [join]. rewrite split_inclusive_last by done. cbn [fmap list_fmap]. by rewrite strip_line_end_last.
  - rewrite join_cons_cons. cbn [app]. rewrite split_inclusive_cons by done. cbn [fmap list_fmap].
    rewrite strip_line_end_terminated, IH by done. done.
Qed.

Lemma split_inclusive_lf_elem s w :
  w ∈ split_inclusive_lf s → 10 ∉ w ∨ ∃ a, w = a ++ [10] ∧ 10 ∉ a.
Proof.
  revert w. induction s as [|b s IH]; intros w; cbn [split_inclusive_lf]; [set_solver|].
  destruct (Z.eqb_spec b 10) as [->|Hb].
  - intros [->|Hw]%elem_of_cons; [right; exists []; set_solver|by apply IH].
  - destruct (split_inclusive_lf s) as [|x xs] eqn:E.
    + intros ->%list_elem_of_singleton. left. set_solver.
    + intros [->|Hw]%elem_of_cons; [|apply IH; set_solver].
      destruct (IH x) as [Hx|(a & -> & Ha)]; [by left|left; set_solver|].
      right. exists (b :: a). split; [done|set_solver].
Qed.

Lemma lines_no_lf s w : w ∈ lines s → 10 ∉ w.
Proof.
  intros (x & -> & Hx)%list_elem_of_fmap. destruct (split_inclusive_lf_elem s x Hx) as [Hx'|(a & -> & Ha)].
  - by rewrite strip_line_end_last.
  - unfold strip_line_end. rewrite strip_suffix_app. destruct (strip_suffix [13] a) as [t|] eqn:E; [|done].
    apply strip_suffix_Some in E as ->. set_solver.
Qed.

Lemma trim_elem s b : b ∈ trim s → b ∈ s.
Proof. destruct (trim_infix s) as (x & y & E). rewrite E at 2. set_solver. Qed.

(** A byte that is not in the text is in none of its lines. *)
Lemma lines_avoid c s w : c ∉ s → w ∈ lines s → c ∉ w.
Proof.
  intros Hc (x & -> & Hx)%list_elem_of_fmap Hin. apply Hc.
  assert (Hx' : c ∈ x).
  { revert Hin. unfold strip_line_end. destruct (strip_suffix [10] x) as [t|] eqn:E; [|done].
    apply strip_suffix_Some in E as ->. destruct (strip_suffix [13] t) as [u|] eqn:E'; [|set_solver].
    apply strip_suffix_Some in E' as ->. set_solver. }
  clear -Hx Hx'. revert x Hx Hx'. induction s as [|b s IH]; intros x; cbn [split_inclusive_lf]; [set_solver|].
  destruct (Z.eqb_spec b 10) as [->|Hb].
  - intros [->|Hw]%elem_of_cons Hin; [set_solver|]. right. by eapply IH.
  - destruct (split_inclusive_lf s) as [|y ys] eqn:E.
    + intros ->%list_elem_of_singleton Hin. set_solver.
    + intros [->|Hw]%elem_of_cons Hin.
      * apply elem_of_cons in Hin as [->|Hin]; [by left|]. right. eapply IH; [|exact Hin]. by left.
      * right. eapply IH; [|exact Hin]. by right.
Qed.
