(* ===== verification/Varint.v ===== *)
(** * QUIC variable-length integers ([src/src/protocol/varint.rs])

    [encode_varint] and [decode_varint], their round trip, the canonical length
    of an encoding, and the behaviour of the decoder on every input. *)

From stdpp Require Import base list sets.
From Stdlib Require Import ZArith Lia.
From S2P Require Import Prelude RustStr.

Open Scope Z_scope.

Inductive VarIntError := VTruncated | VTooLarge.

#[export] Instance VarIntError_eq_dec : EqDecision VarIntError.
Proof. solve_decision. Defined.

(** The bounds of the four widths, [2^6 - 1], [2^14 - 1], [2^30 - 1], [2^62 - 1]. *)
Definition varint_class (value : Z) : option (nat * Z) :=
  if value <=? 63 then Some (1%nat, 0)
  else if value <=? 16383 then Some (2%nat, 64)
  else if value <=? 1073741823 then Some (4%nat, 128)
  else if value <=? 4611686018427387903 then Some (8%nat, 192)
  else None.

(** [encode_varint]: the bytes appended to [output]. *)
Definition encode_varint (value : Z) (output : list Z) : result VarIntError (list Z) :=
  match varint_class value with
  | None => Err VTooLarge
  | Some (width, prefix) =>
      let bytes := to_be_bytes 8 value in
      let start := (8 - width)%nat in
      let bytes := <[start := Z.lor (safe_get bytes start) prefix]> bytes in
      Ok (output ++ drop start bytes)
  end.

(** [decode_varint]: the value and the input left. *)
Definition decode_varint (input : list Z) : result VarIntError (Z * list Z) :=
  match input with
  | [] => Err VTruncated
  | first :: _ =>
      let width := Z.to_nat (Z.shiftl 1 (Z.shiftr first 6)) in
      if decide (length input < width)%nat then Err VTruncated
      else
        let value :=
          fold_left (fun v b => wrap 64 (be_push v b))
                    (take (width - 1) (drop 1 input)) (Z.land first 63) in
        Ok (value, drop width input)
  end.

#[global] Arguments encode_varint : simpl never.
#[global] Arguments decode_varint : simpl never.

(** [varint_size] of [src/src/protocol/udp.rs]. *)
Definition varint_size (value : Z) : Z :=
  if value <=? 63 then 1
  else if value <=? 16383 then 2
  else if value <=? 1073741823 then 4
  else 8.

Definition MAX_VARINT : Z := 4611686018427387903.

(** ** The decoder on a byte string *)

(** The width that the two top bits of the first byte announce. *)
Definition first_width (first : Z) : nat := Z.to_nat (Z.shiftl 1 (Z.shiftr first 6)).

Lemma first_width_cases first :
  u8_ok first →
  first_width first = 1%nat ∧ 0 ≤ first < 64 ∨
  first_width first = 2%nat ∧ 64 ≤ first < 128 ∨
  first_width first = 4%nat ∧ 128 ≤ first < 192 ∨
  first_width first = 8%nat ∧ 192 ≤ first < 256.
Proof.
  rewrite u8_ok_iff. intros Hf. unfold first_width.
  rewrite Z.shiftr_div_pow2 by lia. change (2 ^ 6) with 64.
  assert (Hq : first / 64 = 0 ∨ first / 64 = 1 ∨ first / 64 = 2 ∨ first / 64 = 3).
  { assert (0 ≤ first / 64) by (apply Z.div_pos; lia).
    assert (first / 64 < 4) by (apply Z.div_lt_upper_bound; lia). lia. }
  pose proof (Z.div_mod first 64 ltac:(lia)).
  pose proof (Z.mod_pos_bound first 64 ltac:(lia)).
  destruct Hq as [Hq|[Hq|[Hq|Hq]]]; rewrite Hq in *;
    [left|right; left|right; right; left|right; right; right]; (split; [reflexivity|lia]).
Qed.

(** Case analysis on the announced width. *)
Ltac width_cases Hw :=
  destruct Hw as [[Hw ?]|[[Hw ?]|[[Hw ?]|[Hw ?]]]]; rewrite Hw in *.

Lemma land63 first : Z.land first 63 = first mod 64.
Proof. change 63 with (Z.ones 6). by rewrite Z.land_ones. Qed.

(** Without overflow the accumulating loop is the big-endian value. *)
Lemma fold_wrap_be_push l acc :
  is_bytes l → 0 ≤ acc → acc * 256 ^ len l + from_be_bytes l < 2 ^ 64 →
  fold_left (fun v b => wrap 64 (be_push v b)) l acc = acc * 256 ^ len l + from_be_bytes l.
Proof.
  revert acc. induction l as [|b l IH]; intros acc Hl Hacc Hb.
  { unfold from_be_bytes, len. simpl. lia. }
  inversion_clear Hl as [|? ? Hb8 Hl'].
  pose proof (from_be_bytes_bound l Hl').
  assert (Hexp : 256 ^ len (b :: l) = 256 * 256 ^ len l).
  { rewrite len_cons. rewrite <- Z.pow_succ_r by apply len_nonneg. f_equal. lia. }
  assert (Hv : from_be_bytes (b :: l) = b * 256 ^ len l + from_be_bytes l).
  { unfold from_be_bytes. simpl. rewrite fold_be_push by done.
    by rewrite be_push_eq. }
  rewrite Hexp, Hv in Hb |- *. simpl fold_left.
  assert (0 < 256 ^ len l) by (apply Z.pow_pos_nonneg; [lia|apply len_nonneg]).
  rewrite be_push_eq by done. rewrite u8_ok_iff in Hb8.
  rewrite wrap_small by (unfold in_width; nia).
  rewrite IH by (try done; nia). lia.
Qed.

(** Every byte string is decoded by cutting it at the announced width. *)
Lemma decode_varint_spec first t :
  is_bytes (first :: t) →
  let width := first_width first in
  decode_varint (first :: t) =
    if decide (length t < width - 1)%nat then Err VTruncated
    else Ok (first mod 64 * 256 ^ Z.of_nat (width - 1) + from_be_bytes (take (width - 1) t),
             drop (width - 1) t).
Proof.
  intros Hb. inversion_clear Hb as [|? ? Hf Ht]. simpl.
  unfold decode_varint. fold (first_width first).
  pose proof (first_width_cases first Hf) as Hw.
  assert (1 ≤ first_width first)%nat by lia.
  destruct (decide (length t < first_width first - 1)%nat) as [Hlt|Hge].
  { rewrite decide_True by (simpl; lia). done. }
  rewrite decide_False by (simpl; lia). simpl drop at 1. rewrite drop_0.
  assert (Htk : is_bytes (take (first_width first - 1) t)) by by apply Forall_take.
  assert (Hlen : len (take (first_width first - 1) t) = Z.of_nat (first_width first - 1)).
  { unfold len. rewrite length_take. lia. }
  rewrite land63. pose proof (Z.mod_pos_bound first 64 ltac:(lia)).
  pose proof (from_be_bytes_bound _ Htk) as Hbd. rewrite Hlen in Hbd.
  rewrite fold_wrap_be_push; [|done|lia|].
  - rewrite Hlen. do 2 f_equal.
    destruct (first_width first) as [|w]; [lia|]. simpl. by rewrite Nat.sub_0_r.
  - rewrite Hlen.
    width_cases Hw; simpl in *; lia.
Qed.

(** The decoded value fits in 62 bits. *)
Lemma decode_varint_bound input v rest :
  is_bytes input → decode_varint input = Ok (v, rest) →
  0 ≤ v ≤ MAX_VARINT ∧
  ∃ w, w ∈ [1; 2; 4; 8]%nat ∧ rest = drop w input ∧ (w ≤ length input)%nat
       ∧ v < 64 * 256 ^ Z.of_nat (w - 1).
Proof.
  intros Hb. destruct input as [|first t]; [done|].
  rewrite decode_varint_spec by done. cbv zeta. inversion_clear Hb as [|? ? Hf Ht].
  pose proof (first_width_cases first Hf) as Hw.
  case_decide; [done|]. intros [= <- <-].
  pose proof (Z.mod_pos_bound first 64 ltac:(lia)).
  assert (Htk : is_bytes (take (first_width first - 1) t)) by by apply Forall_take.
  pose proof (from_be_bytes_bound _ Htk) as Hbd. unfold len in Hbd.
  rewrite length_take, Nat.min_l in Hbd by lia.
  split.
  - unfold MAX_VARINT. width_cases Hw; simpl in *; lia.
  - exists (first_width first). split_and!.
    + width_cases Hw; set_solver.
    + destruct (first_width first) as [|w]; [lia|]. simpl. by rewrite Nat.sub_0_r.
    + simpl. lia.
    + width_cases Hw; simpl in *; lia.
Qed.

(** ** The encoder *)

(** An encoding is its first byte, carrying the width, and the low bytes. *)
Lemma drop_insert_head {A} (l : list A) i x :
  (i < length l)%nat → drop i (<[i := x]> l) = x :: drop (S i) l.
Proof.
  revert i. induction l as [|y l IH]; intros [|i] Hi; simpl in *; try lia; [done|].
  apply IH. lia.
Qed.

Lemma drop_to_be_bytes n k v :
  (k ≤ n)%nat → drop (n - k) (to_be_bytes n v) = to_be_bytes k v.
Proof.
  induction n as [|n IH]; intros Hk.
  - by replace k with 0%nat by lia.
  - destruct (decide (k = S n)) as [->|]; [by rewrite Nat.sub_diag|].
    replace (S n - k)%nat with (S (n - k)) by lia. simpl. apply IH. lia.
Qed.

Lemma nth_to_be_bytes n k v :
  (k < n)%nat → safe_get (to_be_bytes n v) (n - S k) = (v / 256 ^ Z.of_nat k) mod 256.
Proof.
  unfold safe_get. induction n as [|n IH]; intros Hk; [lia|].
  rewrite to_be_bytes_cons. destruct (decide (k = n)) as [->|].
  - rewrite Nat.sub_diag. simpl. by rewrite pow256.
  - replace (S n - S k)%nat with (S (n - S k)) by lia. simpl. apply IH. lia.
Qed.

(** The four classes at once: a first byte [64 * tag + high bits]. *)
Lemma encode_class value output w tag :
  varint_class value = Some (w, 64 * tag) → w ∈ [1; 2; 4; 8]%nat →
  0 ≤ value < 64 * 256 ^ Z.of_nat (w - 1) →
  encode_varint value output
    = Ok (output ++ (64 * tag + value / 256 ^ Z.of_nat (w - 1)) :: to_be_bytes (w - 1) value).
Proof.
  intros Hc Hw Hv. unfold encode_varint. rewrite Hc.
  assert (1 ≤ w ≤ 8)%nat as Hw8 by (set_unfold in Hw; lia).
  rewrite drop_insert_head by (rewrite to_be_bytes_length; lia).
  replace (8 - w)%nat with (8 - S (w - 1))%nat by lia.
  rewrite nth_to_be_bytes by lia.
  replace (S (8 - S (w - 1))) with (8 - (w - 1))%nat by lia.
  rewrite drop_to_be_bytes by lia. do 3 f_equal.
  assert (0 < 256 ^ Z.of_nat (w - 1)) by (apply Z.pow_pos_nonneg; lia).
  assert (0 ≤ value / 256 ^ Z.of_nat (w - 1)) by (apply Z.div_pos; lia).
  assert (value / 256 ^ Z.of_nat (w - 1) < 64) by (apply Z.div_lt_upper_bound; lia).
  rewrite Z.mod_small by lia. rewrite Z.lor_comm.
  replace (64 * tag) with (Z.shiftl tag 6) by (rewrite Z.shiftl_mul_pow2; lia).
  rewrite lor_shiftl_add by lia. rewrite Z.shiftl_mul_pow2 by lia. lia.
Qed.

Lemma encode_varint_shape value output :
  0 ≤ value ≤ MAX_VARINT →
  ∃ w first,
    encode_varint value output = Ok (output ++ first :: to_be_bytes (w - 1) value) ∧
    u8_ok first ∧ first_width first = w ∧ w ∈ [1; 2; 4; 8]%nat ∧
    first mod 64 = value / 256 ^ Z.of_nat (w - 1) ∧ varint_size value = Z.of_nat w ∧
    value < 64 * 256 ^ Z.of_nat (w - 1).
Proof.
  unfold MAX_VARINT. intros Hv.
  assert (Hcl : ∃ w tag, varint_class value = Some (w, 64 * tag) ∧ w ∈ [1; 2; 4; 8]%nat
     ∧ 0 ≤ value < 64 * 256 ^ Z.of_nat (w - 1) ∧ varint_size value = Z.of_nat w
     ∧ 0 ≤ tag ≤ 3 ∧ w = Z.to_nat (Z.shiftl 1 tag)).
  { unfold varint_class, varint_size.
    destruct (Z.leb_spec value 63); [exists 1%nat, 0|
    destruct (Z.leb_spec value 16383); [exists 2%nat, 1|
    destruct (Z.leb_spec value 1073741823); [exists 4%nat, 2|
    destruct (Z.leb_spec value 4611686018427387903); [exists 8%nat, 3|lia]]]];
    (split; [done|split; [set_solver|split; [simpl; lia|done]]]). }
  destruct Hcl as (w & tag & Hc & Hw & Hv' & Hs & Htag & Hwt).
  set (hi := value / 256 ^ Z.of_nat (w - 1)).
  assert (0 < 256 ^ Z.of_nat (w - 1)) by (apply Z.pow_pos_nonneg; lia).
  assert (0 ≤ hi) by (apply Z.div_pos; lia).
  assert (hi < 64) by (apply Z.div_lt_upper_bound; lia).
  exists w, (64 * tag + hi). split_and!; try done.
  - by apply encode_class.
  - apply u8_ok_iff. lia.
  - unfold first_width. rewrite Hwt. do 3 f_equal. rewrite Z.shiftr_div_pow2 by lia.
    symmetry. apply Z.div_unique with hi; lia.
  - rewrite Z.add_comm, Z.mul_comm, Z.mod_add by lia. apply Z.mod_small. lia.
  - lia.
Qed.

(** ** Properties *)

Lemma be_bytes_split k v : 0 ≤ v →
  v / 256 ^ Z.of_nat k * 256 ^ Z.of_nat k + from_be_bytes (to_be_bytes k v) = v.
Proof.
  intros Hv. rewrite from_to_be_bytes.
  assert (0 < 256 ^ Z.of_nat k) by (apply Z.pow_pos_nonneg; lia).
  pose proof (Z.div_mod v (256 ^ Z.of_nat k) ltac:(lia)). lia.
Qed.

Lemma encode_then_decode value rest :
  0 ≤ value ≤ MAX_VARINT → is_bytes rest →
  ∃ enc, encode_varint value [] = Ok enc ∧ is_bytes enc ∧ len enc = varint_size value ∧
         decode_varint (enc ++ rest) = Ok (value, rest).
Proof.
  intros Hv Hrest.
  destruct (encode_varint_shape value [] Hv) as (w & first & Henc & Hf & Hfw & Hw & Hmod & Hs & _).
  assert (1 ≤ w)%nat by (set_unfold in Hw; lia).
  eexists. split; [exact Henc|]. simpl app.
  assert (Hb : is_bytes (first :: to_be_bytes (w - 1) value)).
  { constructor; [done|]. apply to_be_bytes_is_bytes. }
  split_and!; [done|rewrite len_cons; unfold len; rewrite to_be_bytes_length; lia|].
  rewrite decode_varint_spec; [|constructor; [done|]].
  2: { apply Forall_app. split; [apply to_be_bytes_is_bytes|done]. }
  cbv zeta. rewrite Hfw, length_app, to_be_bytes_length.
  rewrite decide_False by lia.
  rewrite take_app_length', drop_app_length' by (by rewrite to_be_bytes_length).
  rewrite Hmod, be_bytes_split by lia. done.
Qed.

(** Appending to an output buffer is appending the encoding. *)
Lemma encode_varint_output value output :
  encode_varint value output = rmap (app output) (encode_varint value []).
Proof. unfold encode_varint. by destruct (varint_class value) as [[w p]|]. Qed.

Lemma encode_varint_Err value output :
  0 ≤ value → encode_varint value output = Err VTooLarge ↔ MAX_VARINT < value.
Proof.
  intros Hv. unfold MAX_VARINT. split.
  - intros H. destruct (decide (value ≤ MAX_VARINT)) as [Hle|]; unfold MAX_VARINT in *; [|lia].
    destruct (encode_varint_shape value output) as (w & f & E & _); [done|]. congruence.
  - intros H. unfold encode_varint, varint_class.
    by rewrite !(proj2 (Z.leb_gt value _)) by lia.
Qed.

(** Encoding then decoding is the identity on every 62-bit value, in
    front of any bytes and after any output already written, and the encoding
    has the length that [varint_size] predicts. *)
Theorem varint_roundtrip value output rest :
  0 ≤ value ≤ MAX_VARINT → is_bytes rest →
  ∃ enc, encode_varint value output = Ok (output ++ enc) ∧
         len enc = varint_size value ∧
         decode_varint (enc ++ rest) = Ok (value, rest).
Proof.
  intros Hv Hr. destruct (encode_then_decode value rest Hv Hr) as (enc & He & _ & Hl & Hd).
  exists enc. by rewrite encode_varint_output, He.
Qed.

Lemma varint_roundtrip_witness :
  ∃ enc, encode_varint 15293 [7] = Ok ([7] ++ enc) ∧ len enc = varint_size 15293 ∧
         decode_varint (enc ++ [1; 2]) = Ok (15293, [1; 2]).
Proof.
  apply (varint_roundtrip 15293 [7] [1; 2]); [unfold MAX_VARINT; lia|].
  repeat constructor; vm_compute; congruence.
Defined.

(** The decoder on every byte string: it consumes 1, 2, 4 or 8 bytes
    from the front, yields a value of at most 62 bits that the encoder accepts
    and encodes in no more bytes than were consumed; it fails exactly when the
    string is empty or shorter than the width its first byte announces, always
    with [Truncated]. *)
Theorem varint_decode_total input :
  is_bytes input →
  match decode_varint input with
  | Ok (v, rest) =>
      0 ≤ v ≤ MAX_VARINT ∧
      ∃ used, input = used ++ rest ∧ len used ∈ [1; 2; 4; 8] ∧ varint_size v ≤ len used
  | Err e =>
      e = VTruncated ∧
      (input = [] ∨ ∃ first t, input = first :: t ∧ (length input < first_width first)%nat)
  end.
Proof.
  intros Hb. destruct (decode_varint input) as [[v rest]|e] eqn:E.
  - destruct (decode_varint_bound _ _ _ Hb E) as [Hv (w & Hw & -> & Hle & Hlt)].
    split; [done|]. exists (take w input). rewrite take_drop.
    assert (Hlen : len (take w input) = Z.of_nat w) by (unfold len; rewrite length_take; lia).
    rewrite Hlen. split_and!; [done|set_unfold in Hw; set_unfold; lia|].
    unfold varint_size. set_unfold in Hw.
    destruct Hw as [->|[->|[->|[->|[]]]]]; simpl in *; repeat case_match; lia.
  - destruct input as [|first t]; [split; [by injection E|by left]|].
    rewrite decode_varint_spec in E by done. cbv zeta in E. case_decide; [|done].
    split; [congruence|]. right. exists first, t. split; [done|]. simpl. lia.
Qed.

Lemma varint_decode_total_witness :
  match decode_varint [64; 37; 9] with
  | Ok (v, rest) =>
      0 ≤ v ≤ MAX_VARINT ∧
      ∃ used, [64; 37; 9] = used ++ rest ∧ len used ∈ [1; 2; 4; 8] ∧ varint_size v ≤ len used
  | Err e =>
      e = VTruncated ∧
      ([64; 37; 9] = [] ∨ ∃ first t, [64; 37; 9] = first :: t ∧
         (length [64; 37; 9] < first_width first)%nat)
  end.
Proof. apply (varint_decode_total [64; 37; 9]). repeat constructor; vm_compute; congruence. Defined.

(** ** Prefix codecs

    The contract between a field codec and the frames built from it: decoding an
    encoded field followed by any bytes gives the field and those bytes. *)

Class PrefixCodec {E A : Type} (dom : A → Prop) (enc : A → result E (list Z))
    (dec : list Z → result E (A * list Z)) := {
  prefix_enc : ∀ a, dom a → ∃ l, enc a = Ok l ∧ is_bytes l ∧
                 ∀ rest, is_bytes rest → dec (l ++ rest) = Ok (a, rest);
}.

#[export] Instance varint_codec :
  PrefixCodec (fun v => 0 ≤ v ≤ MAX_VARINT) (fun v => encode_varint v []) decode_varint.
Proof.
  constructor. intros v Hv.
  destruct (encode_then_decode v [] Hv (Forall_nil_2 _)) as (l & Hl & Hb & _).
  exists l. split_and!; [done..|]. intros rest Hrest.
  destruct (encode_then_decode v rest Hv Hrest) as (l' & Hl' & _ & _ & Hd).
  by assert (l = l') as -> by congruence.
Qed.
