(* ===== verification/TcpCodec.v ===== *)
(** * HY2 TCP frames ([src/src/protocol/tcp.rs], limits of [src/src/protocol/mod.rs])

    Requests carry a frame type, a length-prefixed address and padding, and the
    first payload bytes; responses a status byte, a length-prefixed message and
    padding, and a payload. *)

From stdpp Require Import base list strings sets.
From Stdlib Require Import ZArith Lia.
From S2P Require Import Prelude RustStr Varint.

Open Scope Z_scope.

Definition MAX_ADDRESS_LENGTH : Z := 2048.
Definition MAX_MESSAGE_LENGTH : Z := 2048.
Definition MAX_PADDING_LENGTH : Z := 4096.
Definition MAX_UDP_SIZE : Z := 4096.
Definition FRAME_TYPE_TCP_REQUEST : Z := 1025.

Inductive TcpCodecError :=
| InvalidFrameType (frame_type : Z)
| InvalidLength (field : string) (length : Z)
| TcpTruncated
| TcpVarInt (e : VarIntError).

#[export] Instance TcpCodecError_eq_dec : EqDecision TcpCodecError.
Proof. solve_decision. Defined.

Record TcpRequest := { req_destination : str; req_payload : list Z }.

Inductive TcpResponseStatus := StatusOk | StatusError.

Definition status_byte (s : TcpResponseStatus) : Z :=
  match s with StatusOk => 0 | StatusError => 1 end.

Record TcpResponse := {
  resp_status : TcpResponseStatus;
  resp_message : str;
  resp_payload : list Z;
}.

Definition validate_len (length maximum : Z) (field : string) : result TcpCodecError unit :=
  if length >? maximum then Err (InvalidLength field length) else Ok tt.

Definition write_bytes (bytes output : list Z) : result TcpCodecError (list Z) :=
  output ← rmap_err TcpVarInt (encode_varint (len bytes) output);
  Ok (output ++ bytes).

Definition read_limited (input : list Z) (maximum : Z) (field : string)
    : result TcpCodecError (list Z * list Z) :=
  '(length, input) ← rmap_err TcpVarInt (decode_varint input);
  validate_len length maximum field;;
  if len input <? length then Err TcpTruncated
  else Ok (take (Z.to_nat length) input, drop (Z.to_nat length) input).

Module Request.
(** [TcpRequest::decode]. *)
Definition decode (input : list Z) : result TcpCodecError TcpRequest :=
  '(frame_type, input) ← rmap_err TcpVarInt (decode_varint input);
  if negb (frame_type =? FRAME_TYPE_TCP_REQUEST) then Err (InvalidFrameType frame_type)
  else
    '(address, input) ← read_limited input MAX_ADDRESS_LENGTH "address";
    if is_nil address then Err (InvalidLength "address" 0)
    else
      '(_, input) ← read_limited input MAX_PADDING_LENGTH "padding";
      Ok {| req_destination := from_utf8_lossy address; req_payload := input |}.

(** [TcpRequest::encode]. *)
Definition encode (destination padding payload : list Z) : result TcpCodecError (list Z) :=
  validate_len (len destination) MAX_ADDRESS_LENGTH "address";;
  if is_nil destination then Err (InvalidLength "address" 0)
  else
    validate_len (len padding) MAX_PADDING_LENGTH "padding";;
    output ← rmap_err TcpVarInt (encode_varint FRAME_TYPE_TCP_REQUEST []);
    output ← write_bytes destination output;
    output ← write_bytes padding output;
    Ok (output ++ payload).
End Request.

Module Response.
(** [TcpResponse::encode]. *)
Definition encode (self : TcpResponse) (padding : list Z) : result TcpCodecError (list Z) :=
  validate_len (len (resp_message self)) MAX_MESSAGE_LENGTH "message";;
  validate_len (len padding) MAX_PADDING_LENGTH "padding";;
  output ← write_bytes (resp_message self) [status_byte (resp_status self)];
  output ← write_bytes padding output;
  Ok (output ++ resp_payload self).
End Response.

(** ** Length-prefixed fields *)

Lemma validate_len_Ok l m f u : validate_len l m f = Ok u ↔ l ≤ m.
Proof.
  unfold validate_len. destruct u. rewrite Z.gtb_ltb.
  destruct (Z.ltb_spec m l); split; intros; try done; lia.
Qed.

Lemma write_bytes_output bytes output :
  write_bytes bytes output = rmap (app output) (write_bytes bytes []).
Proof.
  unfold write_bytes. rewrite (encode_varint_output _ output).
  destruct (encode_varint (len bytes) []) as [e|]; simpl; [|done].
  by rewrite <- app_assoc.
Qed.

(** A field no longer than its limit is a prefix codec. *)
Section field.
Context (maximum : Z) (field : string).
Hypothesis Hmax : maximum ≤ MAX_VARINT.

#[export] Instance field_codec :
  PrefixCodec (fun b => is_bytes b ∧ len b ≤ maximum) (fun b => write_bytes b [])
              (fun i => read_limited i maximum field).
Proof using Hmax.
  constructor. intros b [Hb Hl].
  assert (Hdom : 0 ≤ len b ≤ MAX_VARINT) by (pose proof (len_nonneg b); lia).
  destruct (prefix_enc (PrefixCodec := varint_codec) (len b) Hdom) as (e & He & Heb & Hd).
  exists (e ++ b). unfold write_bytes. rewrite He. simpl. split_and!; [done| |].
  { by apply Forall_app. }
  intros rest Hrest. unfold read_limited. rewrite <- app_assoc, Hd by by apply Forall_app.
  simpl. rewrite (proj2 (validate_len_Ok _ _ _ tt)) by lia. simpl.
  rewrite (proj2 (Z.ltb_ge _ _)) by (rewrite len_app; pose proof (len_nonneg rest); lia).
  unfold len. rewrite Nat2Z.id, take_app_length, drop_app_length. done.
Qed.
End field.

Lemma write_bytes_spec maximum field b :
  maximum ≤ MAX_VARINT → is_bytes b → len b ≤ maximum →
  ∃ l, is_bytes l ∧ (∀ output, write_bytes b output = Ok (output ++ l)) ∧
       ∀ rest, is_bytes rest → read_limited (l ++ rest) maximum field = Ok (b, rest).
Proof.
  intros Hm Hb Hl.
  destruct (prefix_enc (PrefixCodec := field_codec maximum field Hm) b (conj Hb Hl))
    as (l & Hw & Hlb & Hr).
  exists l. split_and!; [done| |done]. intros output. by rewrite write_bytes_output, Hw.
Qed.

(** The only way to read a field: a length within the limit, then that many bytes. *)
Lemma read_limited_Ok input maximum field v rest :
  is_bytes input → read_limited input maximum field = Ok (v, rest) →
  len v ≤ maximum ∧ is_bytes v ∧ is_bytes rest ∧
  ∃ l t, decode_varint input = Ok (l, t) ∧ len v = l ∧ t = v ++ rest.
Proof.
  intros Hb. unfold read_limited. destruct (decode_varint input) as [[l t]|] eqn:E; [|done].
  simpl. intros H. res_inv. destruct r. apply validate_len_Ok in E0.
  destruct (decode_varint_bound _ _ _ Hb E) as [[Hl0 _] (w & _ & -> & _)].
  revert H. destruct (Z.ltb_spec (len (drop w input)) l); [done|]. intros [= <- <-].
  assert (Hd : is_bytes (drop w input)) by by apply Forall_drop.
  assert (len (take (Z.to_nat l) (drop w input)) = l).
  { unfold len in *. rewrite length_take. lia. }
  split_and!; [lia|by apply Forall_take|by apply Forall_drop|].
  eexists l, _. by rewrite take_drop.
Qed.

(** ** Properties *)

Lemma encode_request_spec destination padding payload :
  is_bytes destination → is_bytes padding → is_bytes payload →
  destination ≠ [] → len destination ≤ MAX_ADDRESS_LENGTH → len padding ≤ MAX_PADDING_LENGTH →
  ∃ ft a p, Request.encode destination padding payload = Ok (ft ++ a ++ p ++ payload) ∧
    is_bytes ft ∧ is_bytes a ∧ is_bytes p ∧
    (∀ rest, is_bytes rest → decode_varint (ft ++ rest) = Ok (FRAME_TYPE_TCP_REQUEST, rest)) ∧
    (∀ rest, is_bytes rest →
       read_limited (a ++ rest) MAX_ADDRESS_LENGTH "address" = Ok (destination, rest)) ∧
    (∀ rest, is_bytes rest →
       read_limited (p ++ rest) MAX_PADDING_LENGTH "padding" = Ok (padding, rest)).
Proof.
  intros Hd Hp Hpl Hne Hld Hlp.
  destruct (prefix_enc (PrefixCodec := varint_codec) FRAME_TYPE_TCP_REQUEST) as (ft & Hft & Hftb & Hftd).
  { unfold FRAME_TYPE_TCP_REQUEST, MAX_VARINT. lia. }
  destruct (write_bytes_spec MAX_ADDRESS_LENGTH "address" destination) as (a & Hab & Ha & Har);
    [unfold MAX_ADDRESS_LENGTH, MAX_VARINT; lia|done..|].
  destruct (write_bytes_spec MAX_PADDING_LENGTH "padding" padding) as (p & Hpb & Hpw & Hpr);
    [unfold MAX_PADDING_LENGTH, MAX_VARINT; lia|done..|].
  exists ft, a, p. split_and!; try done. unfold Request.encode.
  rewrite (proj2 (validate_len_Ok _ _ _ tt)) by done. res_simpl.
  rewrite (proj2 (is_nil_false destination)) by done.
  rewrite (proj2 (validate_len_Ok _ _ _ tt)) by done. res_simpl.
  rewrite Hft. res_simpl. rewrite Ha. res_simpl. rewrite Hpw. res_simpl. by rewrite <- !app_assoc.
Qed.

(** A request within the limits is encoded, and decoding the frame
    gives back its destination and the payload bytes that follow the padding,
    whatever the padding is. *)
Theorem tcp_request_roundtrip destination padding payload :
  is_bytes destination → is_bytes padding → is_bytes payload →
  utf8_valid destination = true → destination ≠ [] →
  len destination ≤ MAX_ADDRESS_LENGTH → len padding ≤ MAX_PADDING_LENGTH →
  ∃ frame, Request.encode destination padding payload = Ok frame ∧
    Request.decode frame = Ok {| req_destination := destination; req_payload := payload |}.
Proof.
  intros Hd Hp Hpl Hu Hne Hld Hlp.
  destruct (encode_request_spec destination padding payload)
    as (ft & a & p & -> & Hftb & Hab & Hpb & Hft & Ha & Hpr); [done..|].
  eexists. split; [done|]. unfold Request.decode.
  rewrite Hft by (repeat apply Forall_app_2; done). res_simpl.
  rewrite Ha by (repeat apply Forall_app_2; done). res_simpl.
  rewrite (proj2 (is_nil_false destination)) by done.
  rewrite Hpr by done. res_simpl. by rewrite from_utf8_lossy_valid.
Qed.

Lemma tcp_request_roundtrip_witness :
  ∃ frame, Request.encode (lit "example.com:443") (lit "padding") (lit "hello") = Ok frame ∧
    Request.decode frame
      = Ok {| req_destination := lit "example.com:443"; req_payload := lit "hello" |}.
Proof.
  apply (tcp_request_roundtrip (lit "example.com:443") (lit "padding") (lit "hello"));
    try (by vm_compute);
    repeat constructor; vm_compute; congruence.
Defined.

(** What the stream of a request must look like for [decode] to accept it. *)
Definition request_frame (frame destination payload : list Z) : Prop :=
  ∃ a padding t1 t2,
    decode_varint frame = Ok (FRAME_TYPE_TCP_REQUEST, t1) ∧
    decode_varint t1 = Ok (len a, a ++ t2) ∧ 1 ≤ len a ≤ MAX_ADDRESS_LENGTH ∧
    decode_varint t2 = Ok (len padding, padding ++ payload) ∧
    len padding ≤ MAX_PADDING_LENGTH ∧ destination = from_utf8_lossy a.

(** The decoder accepts a frame only if it is a request frame: the
    right frame type, an address of 1 to 2048 bytes, padding of at most 4096
    bytes; the payload is exactly what follows, and the destination is always
    well-formed UTF-8. *)
Theorem tcp_request_decode_sound frame request :
  is_bytes frame → Request.decode frame = Ok request →
  request_frame frame (req_destination request) (req_payload request) ∧
  utf8_valid (req_destination request) = true.
Proof.
  intros Hb H. unfold Request.decode in H.
  destruct (decode_varint frame) as [[ft t1]|] eqn:E1; [|done]. res_simpl in H.
  destruct (Z.eqb_spec ft FRAME_TYPE_TCP_REQUEST) as [->|]; [|done]. res_simpl in H.
  destruct (decode_varint_bound _ _ _ Hb E1) as [_ (w & _ & Ht1 & _)].
  assert (Hb1 : is_bytes t1) by (subst; by apply Forall_drop).
  apply rbind_Ok in H as ([a t2] & E2 & H).
  destruct (read_limited_Ok _ _ _ _ _ Hb1 E2) as (Hla & _ & Hb2 & l & t & Hd2 & <- & ->).
  destruct (is_nil a) eqn:Hnil; [done|]. apply is_nil_false in Hnil.
  apply rbind_Ok in H as ([padding t3] & E3 & [= <-]).
  destruct (read_limited_Ok _ _ _ _ _ Hb2 E3) as (Hlp & _ & _ & l' & t' & Hd3 & <- & ->).
  cbn. split; [|apply from_utf8_lossy_is_valid].
  assert (1 ≤ len a) by (destruct a; [done|rewrite len_cons; pose proof (len_nonneg a); lia]).
  exists a, padding, t1, t2. by split_and!.
Qed.

Lemma tcp_request_decode_sound_witness :
  ∃ frame request, Request.decode frame = Ok request ∧
    request_frame frame (req_destination request) (req_payload request) ∧
    utf8_valid (req_destination request) = true.
Proof.
  exists [68; 1; 3; 97; 58; 49; 1; 120; 104; 105],
    {| req_destination := lit "a:1"; req_payload := lit "hi" |}.
  split; [by vm_compute|].
  apply (tcp_request_decode_sound [68; 1; 3; 97; 58; 49; 1; 120; 104; 105]); [|by vm_compute].
  repeat constructor; vm_compute; congruence.
Defined.

(** The client's view of a response: the status byte, then two limited fields. *)
Definition response_parse (frame : list Z) : result TcpCodecError (Z * list Z * list Z * list Z) :=
  match frame with
  | [] => Err TcpTruncated
  | status :: t =>
      '(message, t) ← read_limited t MAX_MESSAGE_LENGTH "message";
      '(padding, t) ← read_limited t MAX_PADDING_LENGTH "padding";
      Ok (status, message, padding, t)
  end.

(** A response within the limits is encoded, and reading it back field
    by field gives its status, message, padding and payload; a response over a
    limit is refused with the offending field and length, message first. *)
Theorem tcp_response_encode_spec response padding :
  is_bytes (resp_message response) → is_bytes padding → is_bytes (resp_payload response) →
  match Response.encode response padding with
  | Ok frame =>
      len (resp_message response) ≤ MAX_MESSAGE_LENGTH ∧ len padding ≤ MAX_PADDING_LENGTH ∧
      response_parse frame = Ok (status_byte (resp_status response), resp_message response,
                                 padding, resp_payload response)
  | Err (InvalidLength field l) =>
      field = "message" ∧ l = len (resp_message response) ∧ MAX_MESSAGE_LENGTH < l ∨
      field = "padding" ∧ l = len padding ∧ MAX_PADDING_LENGTH < l ∧
        len (resp_message response) ≤ MAX_MESSAGE_LENGTH
  | Err _ => False
  end.
Proof.
  intros Hm Hp Hpl. unfold Response.encode, validate_len. rewrite !Z.gtb_ltb.
  destruct (Z.ltb_spec MAX_MESSAGE_LENGTH (len (resp_message response))); simpl; [naive_solver|].
  destruct (Z.ltb_spec MAX_PADDING_LENGTH (len padding)); simpl; [naive_solver|].
  destruct (write_bytes_spec MAX_MESSAGE_LENGTH "message" (resp_message response))
    as (m & Hmb & Hmw & Hmr); [unfold MAX_MESSAGE_LENGTH, MAX_VARINT; lia|done..|].
  destruct (write_bytes_spec MAX_PADDING_LENGTH "padding" padding)
    as (p & Hpb & Hpw & Hpr); [unfold MAX_PADDING_LENGTH, MAX_VARINT; lia|done..|].
  rewrite Hmw. res_simpl. rewrite Hpw. res_simpl. split_and!; [done..|].
  rewrite <- !app_assoc. cbn [app response_parse].
  rewrite Hmr by (by apply Forall_app_2). res_simpl. by rewrite Hpr.
Qed.

Lemma tcp_response_encode_spec_witness :
  match Response.encode {| resp_status := StatusOk; resp_message := []; resp_payload := lit "data" |} [] with
  | Ok frame => len (@nil Z) ≤ MAX_MESSAGE_LENGTH ∧ len (@nil Z) ≤ MAX_PADDING_LENGTH ∧
      response_parse frame = Ok (0, [], [], lit "data")
  | Err (InvalidLength field l) =>
      field = "message" ∧ l = len (@nil Z) ∧ MAX_MESSAGE_LENGTH < l ∨
      field = "padding" ∧ l = len (@nil Z) ∧ MAX_PADDING_LENGTH < l ∧
        len (@nil Z) ≤ MAX_MESSAGE_LENGTH
  | Err _ => False
  end.
Proof.
  apply (tcp_response_encode_spec
    {| resp_status := StatusOk; resp_message := []; resp_payload := lit "data" |} []);
    repeat constructor; vm_compute; congruence.
Defined.
