(* ===== verification/UdpCodec.v ===== *)
(** * HY2 UDP datagrams ([src/src/protocol/udp.rs], lines 1-182 and 268-275)

    The message codec and the two fragmentation routines: [fragment], on
    messages, and [encode_fragments], which produces the datagrams directly. *)

From stdpp Require Import base list strings sets.
From Stdlib Require Import ZArith Lia.
From S2P Require Import Prelude RustStr Varint TcpCodec.

Open Scope Z_scope.

Inductive UdpCodecError :=
| UdpTruncated
| InvalidDestination (length : Z)
| PayloadTooLarge
| InvalidFragment
| DatagramLimitTooSmall
| UdpVarInt (e : VarIntError).

#[export] Instance UdpCodecError_eq_dec : EqDecision UdpCodecError.
Proof. solve_decision. Defined.

Record UdpMessage := {
  session_id : Z;
  packet_id : Z;
  fragment_id : Z;
  fragment_count : Z;
  destination : str;
  payload : list Z;
}.

#[export] Instance UdpMessage_eq_dec : EqDecision UdpMessage.
Proof. solve_decision. Defined.

Definition validate_message (destination payload : list Z) : result UdpCodecError unit :=
  if is_nil destination || (len destination >? MAX_ADDRESS_LENGTH)
  then Err (InvalidDestination (len destination))
  else if len payload >? MAX_UDP_SIZE then Err PayloadTooLarge
  else Ok tt.

Definition encode_fragment (session_id packet_id fragment_id fragment_count : Z)
    (destination payload : list Z) : result UdpCodecError (list Z) :=
  validate_message destination payload;;
  let output := to_be_bytes 4 session_id ++ to_be_bytes 2 packet_id
                ++ [fragment_id; fragment_count] in
  output ← rmap_err UdpVarInt (encode_varint (len destination) output);
  Ok (output ++ destination ++ payload).

Module Udp.
(** [UdpMessage::decode]. *)
Definition decode (input : list Z) : result UdpCodecError UdpMessage :=
  if len input <? 9 then Err UdpTruncated
  else
    let sid := from_be_bytes (take 4 input) in
    let pid := from_be_bytes (take 2 (drop 4 input)) in
    let fid := safe_get input 6 in
    let cnt := safe_get input 7 in
    '(destination_length, tail) ← rmap_err UdpVarInt (decode_varint (drop 8 input));
    if (destination_length =? 0) || (destination_length >? MAX_ADDRESS_LENGTH)
    then Err (InvalidDestination destination_length)
    else if len tail <? destination_length then Err UdpTruncated
    else
      let dest := from_utf8_lossy (take (Z.to_nat destination_length) tail) in
      let pl := drop (Z.to_nat destination_length) tail in
      if len pl >? MAX_UDP_SIZE then Err PayloadTooLarge
      else Ok {| session_id := sid; packet_id := pid; fragment_id := fid;
                 fragment_count := cnt; destination := dest; payload := pl |}.

(** [UdpMessage::encode]. *)
Definition encode (self : UdpMessage) : result UdpCodecError (list Z) :=
  encode_fragment (session_id self) (packet_id self) (fragment_id self)
                  (fragment_count self) (destination self) (payload self).

(** The payload bytes left in a datagram after its header. *)
Definition payload_per_fragment (maximum_datagram_size : Z) (destination : str) : option Z :=
  let header_size := 8 + varint_size (len destination) + len destination in
  let size := maximum_datagram_size - header_size in
  if size >? 0 then Some size else None.

(** [UdpMessage::encode_fragments]. *)
Definition encode_fragments (sid pid : Z) (dest pl : list Z) (maximum_datagram_size : Z)
    : result UdpCodecError (list (list Z)) :=
  validate_message dest pl;;
  per ← ok_or DatagramLimitTooSmall (payload_per_fragment maximum_datagram_size dest);
  let count := Z.max (div_ceil (len pl) per) 1 in
  if count >? 255 then Err InvalidFragment
  else if is_nil pl then
    d ← encode_fragment sid pid 0 1 dest pl;
    Ok [d]
  else
    rtraverse (fun '(i, c) => encode_fragment sid pid (wrap 8 i) (wrap 8 count) dest c)
              (imap (fun i c => (Z.of_nat i, c)) (chunks (Z.to_nat per) pl)).

(** [UdpMessage::fragment]. *)
Definition fragment (self : UdpMessage) (maximum_datagram_size : Z)
    : result UdpCodecError (list UdpMessage) :=
  per ← ok_or DatagramLimitTooSmall
              (payload_per_fragment maximum_datagram_size (destination self));
  if len (payload self) <=? per then Ok [self]
  else
    let count := div_ceil (len (payload self)) per in
    if count >? 255 then Err InvalidFragment
    else Ok (imap (fun i c => {| session_id := session_id self;
                                 packet_id := packet_id self;
                                 fragment_id := wrap 8 (Z.of_nat i);
                                 fragment_count := wrap 8 count;
                                 destination := destination self;
                                 payload := c |})
                  (chunks (Z.to_nat per) (payload self))).
End Udp.

(** The type invariant of a message that can be sent: field widths, a non-empty
    destination of at most 2048 bytes, a payload of at most 4096 bytes. *)
Definition message_ok (m : UdpMessage) : Prop :=
  u32_ok (session_id m) ∧ u16_ok (packet_id m) ∧ u8_ok (fragment_id m) ∧
  u8_ok (fragment_count m) ∧ is_bytes (destination m) ∧ is_bytes (payload m) ∧
  utf8_valid (destination m) = true ∧
  1 ≤ len (destination m) ≤ MAX_ADDRESS_LENGTH ∧ len (payload m) ≤ MAX_UDP_SIZE.

(** ** The codec *)

Lemma validate_message_Ok d p u :
  validate_message d p = Ok u ↔
  1 ≤ len d ≤ MAX_ADDRESS_LENGTH ∧ len p ≤ MAX_UDP_SIZE.
Proof.
  unfold validate_message. rewrite !Z.gtb_ltb. destruct u.
  destruct d as [|x d]; simpl; [rewrite len_nil; split; [done|lia]|].
  rewrite len_cons. pose proof (len_nonneg d).
  destruct (Z.ltb_spec MAX_ADDRESS_LENGTH (1 + len d)); simpl; [split; [done|lia]|].
  destruct (Z.ltb_spec MAX_UDP_SIZE (len p)); simpl; split; done || lia.
Qed.

(** The encoded datagram, field by field. *)
Lemma encode_fragment_spec sid pid fid cnt d p :
  1 ≤ len d ≤ MAX_ADDRESS_LENGTH → len p ≤ MAX_UDP_SIZE →
  ∃ v, encode_varint (len d) [] = Ok v ∧ is_bytes v ∧ len v = varint_size (len d) ∧
    (∀ rest, is_bytes rest → decode_varint (v ++ rest) = Ok (len d, rest)) ∧
    encode_fragment sid pid fid cnt d p
      = Ok (to_be_bytes 4 sid ++ to_be_bytes 2 pid ++ [fid; cnt] ++ v ++ d ++ p).
Proof.
  intros Hd Hp.
  assert (Hdom : 0 ≤ len d ≤ MAX_VARINT)
    by (unfold MAX_ADDRESS_LENGTH, MAX_VARINT in *; lia).
  destruct (encode_then_decode (len d) [] Hdom (Forall_nil_2 _)) as (v & Hv & Hvb & Hvl & _).
  exists v. split_and!; try done.
  - intros rest Hr.
    destruct (encode_then_decode (len d) rest Hdom Hr) as (v' & Hv' & _ & _ & H).
    by assert (v = v') as -> by congruence.
  - unfold encode_fragment. rewrite (proj2 (validate_message_Ok d p tt)) by done. res_simpl.
    rewrite encode_varint_output, Hv. res_simpl. by rewrite <- !app_assoc.
Qed.

Lemma encode_fragment_length sid pid fid cnt d p l :
  encode_fragment sid pid fid cnt d p = Ok l →
  len l = 8 + varint_size (len d) + len d + len p.
Proof.
  intros H. assert (Hv : validate_message d p = Ok tt).
  { unfold encode_fragment in H. res_inv. by destruct r. }
  apply validate_message_Ok in Hv as [Hd Hp].
  destruct (encode_fragment_spec sid pid fid cnt d p Hd Hp) as (v & _ & _ & Hvl & _ & E).
  rewrite E in H. apply (inj Ok) in H as <-. rewrite !len_app, Hvl. unfold len.
  rewrite !to_be_bytes_length. cbn [length]. lia.
Qed.

(** Decoding an encoded message gives the message back. *)
Theorem udp_message_roundtrip m :
  message_ok m → ∃ datagram, Udp.encode m = Ok datagram ∧ Udp.decode datagram = Ok m.
Proof.
  intros (Hs & Hpk & Hf & Hc & Hdb & Hpb & Hu & Hd & Hp).
  destruct (encode_fragment_spec (session_id m) (packet_id m) (fragment_id m) (fragment_count m)
     (destination m) (payload m) Hd Hp) as (v & _ & Hvb & Hvl & Hdec & E).
  eexists. split; [exact E|]. unfold Udp.decode.
  set (b4 := to_be_bytes 4 (session_id m)). set (b2 := to_be_bytes 2 (packet_id m)).
  assert (L4 : length b4 = 4%nat) by apply to_be_bytes_length.
  assert (L2 : length b2 = 2%nat) by apply to_be_bytes_length.
  destruct b4 as [|s0 [|s1 [|s2 [|s3 [|]]]]] eqn:E4; try (simpl in L4; lia).
  destruct b2 as [|p0 [|p1 [|]]] eqn:E2; try (simpl in L2; lia).
  cbn [app]. rewrite (proj2 (Z.ltb_ge _ 9)).
  2: { rewrite !len_cons, !len_app. pose proof (len_nonneg v). pose proof (len_nonneg (payload m)). lia. }
  cbn [take drop safe_get nth].
  rewrite drop_0, Hdec by (by apply Forall_app_2). res_simpl.
  rewrite (proj2 (Z.eqb_neq _ 0)) by lia. rewrite Z.gtb_ltb, (proj2 (Z.ltb_ge _ _)) by lia.
  cbn [orb]. rewrite (proj2 (Z.ltb_ge _ _)).
  2: { rewrite len_app. pose proof (len_nonneg (payload m)). lia. }
  unfold len at 2 3 4. rewrite Nat2Z.id, take_app_length, drop_app_length.
  rewrite Z.gtb_ltb, (proj2 (Z.ltb_ge _ _)) by done.
  rewrite from_utf8_lossy_valid by done.
  replace [s0; s1; s2; s3] with (to_be_bytes 4 (session_id m)) by done.
  replace [p0; p1] with (to_be_bytes 2 (packet_id m)) by done.
  rewrite !from_to_be_bytes_small by done. by destruct m.
Qed.

Lemma udp_message_roundtrip_witness :
  ∃ datagram, Udp.encode {| session_id := 7; packet_id := 42; fragment_id := 0;
      fragment_count := 1; destination := lit "1.1.1.1:53"; payload := [1; 2; 3] |} = Ok datagram ∧
    Udp.decode datagram = Ok {| session_id := 7; packet_id := 42; fragment_id := 0;
      fragment_count := 1; destination := lit "1.1.1.1:53"; payload := [1; 2; 3] |}.
Proof.
  apply udp_message_roundtrip. unfold message_ok. simpl. split_and!; try (by vm_compute);
    repeat constructor; vm_compute; congruence.
Defined.

(** Every accepted datagram is a message within the field widths and
    limits, whose destination is well-formed UTF-8. *)
Lemma udp_decode_sound datagram m :
  is_bytes datagram → Udp.decode datagram = Ok m →
  u32_ok (session_id m) ∧ u16_ok (packet_id m) ∧ u8_ok (fragment_id m) ∧
  u8_ok (fragment_count m) ∧ utf8_valid (destination m) = true ∧
  is_bytes (payload m) ∧ len (payload m) ≤ MAX_UDP_SIZE ∧
  ∃ header, datagram = header ++ payload m ∧ 10 ≤ len header.
Proof.
  intros Hb H. unfold Udp.decode in H.
  destruct (Z.ltb_spec (len datagram) 9) as [|Hlen]; [done|].
  destruct (decode_varint (drop 8 datagram)) as [[dl tail]|] eqn:E; [|done]. res_simpl in H.
  destruct (dl =? 0) eqn:E0; [done|]. rewrite Z.gtb_ltb in H.
  destruct (Z.ltb_spec MAX_ADDRESS_LENGTH dl); [done|]. cbn [orb] in H.
  destruct (Z.ltb_spec (len tail) dl); [done|]. rewrite Z.gtb_ltb in H.
  destruct (Z.ltb_spec MAX_UDP_SIZE (len (drop (Z.to_nat dl) tail))); [done|].
  injection H as <-. cbn.
  assert (Hb8 : is_bytes (drop 8 datagram)) by by apply Forall_drop.
  destruct (decode_varint_bound _ _ _ Hb8 E) as [Hdl (w & Hw & -> & Hwl & _)].
  assert (Hget : ∀ i, (i < length datagram)%nat → u8_ok (safe_get datagram i)).
  { intros i. by apply safe_get_Forall. }
  unfold len in Hlen. split_and!.
  - pose proof (from_be_bytes_bound (take 4 datagram) ltac:(by apply Forall_take)) as Hx.
    unfold len in Hx. rewrite length_take, Nat.min_l in Hx by lia. done.
  - pose proof (from_be_bytes_bound (take 2 (drop 4 datagram))
      ltac:(by apply Forall_take, Forall_drop)) as Hx.
    unfold len in Hx. rewrite length_take, length_drop, Nat.min_l in Hx by lia. done.
  - apply Hget. lia.
  - apply Hget. lia.
  - apply from_utf8_lossy_is_valid.
  - by repeat apply Forall_drop.
  - done.
  - rewrite !drop_drop. exists (take (8 + w + Z.to_nat dl) datagram).
    replace (8 + (w + Z.to_nat dl))%nat with (8 + w + Z.to_nat dl)%nat by lia.
    rewrite take_drop. split; [done|]. unfold len in *. rewrite length_take.
    rewrite !length_drop in *. set_unfold in Hw. lia.
Qed.

Lemma udp_decode_sound_witness :
  ∃ m, Udp.decode [0; 0; 0; 7; 0; 42; 0; 1; 3; 97; 58; 49; 9] = Ok m ∧
    u32_ok (session_id m) ∧ u16_ok (packet_id m) ∧ u8_ok (fragment_id m) ∧
    u8_ok (fragment_count m) ∧ utf8_valid (destination m) = true ∧
    is_bytes (payload m) ∧ len (payload m) ≤ MAX_UDP_SIZE ∧
    ∃ header, [0; 0; 0; 7; 0; 42; 0; 1; 3; 97; 58; 49; 9] = header ++ payload m ∧ 10 ≤ len header.
Proof.
  eexists. split; [by vm_compute|].
  apply (udp_decode_sound [0; 0; 0; 7; 0; 42; 0; 1; 3; 97; 58; 49; 9]); [|by vm_compute].
  repeat constructor; vm_compute; congruence.
Defined.

(** ** Fragmentation *)

(** The bytes of a datagram before its payload. *)
Definition header_size (dest : str) : Z := 8 + varint_size (len dest) + len dest.

Lemma payload_per_fragment_Some limit d per :
  Udp.payload_per_fragment limit d = Some per ↔ 0 < per ∧ limit = header_size d + per.
Proof.
  unfold Udp.payload_per_fragment, header_size. rewrite Z.gtb_ltb.
  case_match; rewrite ?Z.ltb_lt, ?Z.ltb_ge in *; split; intros; simplify_eq; try f_equal; lia.
Qed.

Lemma payload_per_fragment_None limit d :
  Udp.payload_per_fragment limit d = None ↔ limit ≤ header_size d.
Proof.
  unfold Udp.payload_per_fragment, header_size. rewrite Z.gtb_ltb.
  case_match; rewrite ?Z.ltb_lt, ?Z.ltb_ge in *; split; intros; simplify_eq; try f_equal; lia.
Qed.

(** [m] carrying the payload [c] as fragment number [i] of [n]. *)
Definition fragment_of (m : UdpMessage) (n : Z) (i : nat) (c : list Z) : UdpMessage :=
  {| session_id := session_id m; packet_id := packet_id m;
     fragment_id := wrap 8 (Z.of_nat i); fragment_count := wrap 8 n;
     destination := destination m; payload := c |}.

Lemma rtraverse_imap_ext {E A B C D} (f : B → result E D) (g : C → result E D)
    (h : nat → A → B) (k : nat → A → C) l :
  (∀ i c, f (h i c) = g (k i c)) → rtraverse f (imap h l) = rtraverse g (imap k l).
Proof.
  revert h k. induction l as [|x l IH]; intros h k H; [done|]. rewrite !imap_cons.
  cbn [rtraverse]. rewrite H. by rewrite (IH (h ∘ S) (k ∘ S)) by (intros; apply H).
Qed.

(** Encoding the fragments of a payload directly is the same, on every
    input and in every error, as validating the message, cutting it with
    [fragment] and encoding each piece. *)
Theorem encode_fragments_is_fragment_then_encode sid pid dest pl limit :
  Udp.encode_fragments sid pid dest pl limit =
    (validate_message dest pl;;
     pieces ← Udp.fragment {| session_id := sid; packet_id := pid; fragment_id := 0;
                              fragment_count := 1; destination := dest; payload := pl |} limit;
     rtraverse Udp.encode pieces).
Proof.
  unfold Udp.encode_fragments, Udp.fragment. cbn [destination payload session_id packet_id].
  destruct (validate_message dest pl); [|done]. res_simpl.
  destruct (Udp.payload_per_fragment limit dest) as [per|] eqn:E; [|done]. res_simpl.
  apply payload_per_fragment_Some in E as [Hper _].
  destruct (Z.leb_spec (len pl) per) as [Hle|Hgt].
  - destruct pl as [|b pl].
    + replace (Z.max (div_ceil (len []) per) 1) with 1; [done|].
      unfold div_ceil. rewrite len_nil, Z.div_small; lia.
    + assert (0 < len (b :: pl)) by (rewrite len_cons; pose proof (len_nonneg pl); lia).
      assert (Hone : div_ceil (len (b :: pl)) per = 1).
      { unfold div_ceil. symmetry. apply Z.div_unique with (len (b :: pl) - 1); lia. }
      rewrite Hone. cbn [is_nil]. rewrite chunks_single; [done|done|unfold len in *; lia].
  - pose proof (div_ceil_gt_1 (len pl) per Hper Hgt). rewrite Z.max_l by lia.
    destruct (Z.gtb_spec (div_ceil (len pl) per) 255); [done|]. res_simpl.
    destruct pl as [|b pl]; [rewrite len_nil in *; lia|]. cbn [is_nil].
    apply rtraverse_imap_ext. done.
Qed.

Lemma message_ok_encode p limit :
  message_ok p → header_size (destination p) + len (payload p) ≤ limit →
  ∃ d, Udp.encode p = Ok d ∧ len d ≤ limit.
Proof.
  intros (_ & _ & _ & _ & _ & _ & _ & Hd & Hp) Hl.
  destruct (encode_fragment_spec (session_id p) (packet_id p) (fragment_id p) (fragment_count p)
    _ _ Hd Hp) as (v & _ & _ & _ & _ & E).
  eexists. split; [exact E|]. apply encode_fragment_length in E. unfold header_size in Hl. lia.
Qed.

Lemma message_ok_fragment m n i c :
  message_ok m → is_bytes c → len c ≤ MAX_UDP_SIZE → message_ok (fragment_of m n i c).
Proof.
  intros (Hs & Hp & Hf & Hcn & Hdb & _ & Hu & Hd & _) Hc Hl.
  unfold message_ok, fragment_of. cbn. split_and!; try done; try apply Hd;
    by apply wrap_in_width.
Qed.

(** The pieces of a payload that needs several datagrams. *)
Lemma fragment_pieces m per :
  message_ok m → 0 < per → per < len (payload m) → div_ceil (len (payload m)) per ≤ 255 →
  let pieces := imap (fragment_of m (div_ceil (len (payload m)) per))
                     (chunks (Z.to_nat per) (payload m)) in
  1 ≤ len pieces ≤ 255 ∧ concat (payload <$> pieces) = payload m ∧
  (∀ i p, pieces !! i = Some p →
    p = fragment_of m (len pieces) i (payload p) ∧ fragment_id p = Z.of_nat i ∧
    fragment_count p = len pieces ∧ message_ok p ∧
    ∃ d, Udp.encode p = Ok d ∧ len d ≤ header_size (destination m) + per).
Proof.
  intros Hok Hper Hgt Hn pieces. set (n := div_ceil (len (payload m)) per) in *.
  pose proof (div_ceil_gt_1 _ _ Hper Hgt) as Hn1. fold n in Hn1.
  assert (Hlen : len pieces = n).
  { unfold pieces, len. rewrite length_imap. fold (len (chunks (Z.to_nat per) (payload m))).
    rewrite length_chunks, Z2Nat.id by lia. done. }
  rewrite Hlen. split_and!; [lia|lia| |].
  - unfold pieces. rewrite fmap_imap.
    transitivity (concat (imap (const id) (chunks (Z.to_nat per) (payload m)))).
    { done. }
    by rewrite imap_const, list_fmap_id, concat_chunks by lia.
  - intros i p Hp. pose proof (lookup_lt_Some _ _ _ Hp) as Hi.
    unfold pieces in Hp. rewrite list_lookup_imap in Hp.
    apply fmap_Some in Hp as (c & Hc & ->). unfold len in Hlen.
    apply list_elem_of_lookup_2, chunks_elem in Hc as (Hcl & a & b & Hsplit); [|lia].
    pose proof Hok as (_ & _ & _ & _ & _ & Hpb & _ & _ & Hmax).
    rewrite Hsplit in Hpb, Hmax. rewrite !len_app in Hmax.
    apply Forall_app in Hpb as [_ [Hpb _]%Forall_app].
    pose proof (len_nonneg a). pose proof (len_nonneg b).
    assert (message_ok (fragment_of m n i c)) by (apply message_ok_fragment; done || lia).
    split_and!; [done| | |done|].
    + apply wrap_small. unfold in_width. lia.
    + apply wrap_small. unfold in_width. lia.
    + apply message_ok_encode; [done|]. cbn. unfold len. lia.
Qed.

Lemma div_ceil_gt a b k : 0 < b → k < div_ceil a b → k * b < a.
Proof.
  unfold div_ceil. intros Hb H.
  pose proof (Z.mul_div_le (a + b - 1) b Hb). nia.
Qed.

(** Claim C40. Cutting an unfragmented message to datagrams of at most [limit]
    bytes: the pieces carry the message's identity, are numbered [0 .. n-1] with
    the count [n <= 255] in each, their payloads concatenate to the message's,
    and every piece of a valid message encodes to a datagram of at most [limit]
    bytes.  Refusals happen exactly when the header leaves no room for a byte of
    payload, or 255 datagrams do not suffice. *)
Theorem fragment_spec m limit :
  message_ok m → fragment_id m = 0 → fragment_count m = 1 →
  match Udp.fragment m limit with
  | Ok pieces =>
      1 ≤ len pieces ≤ 255 ∧ concat (payload <$> pieces) = payload m ∧
      (∀ i p, pieces !! i = Some p →
        p = fragment_of m (len pieces) i (payload p) ∧ fragment_id p = Z.of_nat i ∧
        fragment_count p = len pieces ∧ message_ok p ∧
        ∃ d, Udp.encode p = Ok d ∧ len d ≤ limit)
  | Err DatagramLimitTooSmall => limit ≤ header_size (destination m)
  | Err InvalidFragment =>
      header_size (destination m) < limit ∧
      255 * (limit - header_size (destination m)) < len (payload m)
  | Err _ => False
  end.
Proof.
  intros Hok Hid Hcnt. unfold Udp.fragment.
  destruct (Udp.payload_per_fragment limit (destination m)) as [per|] eqn:E; res_simpl.
  2: by apply payload_per_fragment_None in E.
  apply payload_per_fragment_Some in E as [Hper ->].
  destruct (Z.leb_spec (len (payload m)) per) as [Hle|Hgt].
  - split_and!; [done|done|simpl; by rewrite app_nil_r|].
    intros [|i] p Hp; [|done]. injection Hp as <-. unfold fragment_of. cbn.
    rewrite Hcnt, Hid. split_and!; [|done..|by apply message_ok_encode; [|lia]].
    destruct m. cbn in *. by rewrite Hid, Hcnt.
  - rewrite Z.gtb_ltb. destruct (Z.ltb_spec 255 (div_ceil (len (payload m)) per)) as [Hbig|Hn].
    { split; [lia|]. apply div_ceil_gt in Hbig; lia. }
    by apply fragment_pieces.
Qed.

Lemma fragment_spec_witness :
  let m := {| session_id := 1; packet_id := 2; fragment_id := 0; fragment_count := 1;
              destination := lit "127.0.0.1:53"; payload := replicate 100 7 |} in
  match Udp.fragment m 32 with
  | Ok pieces =>
      1 ≤ len pieces ≤ 255 ∧ concat (payload <$> pieces) = payload m ∧
      (∀ i p, pieces !! i = Some p →
        p = fragment_of m (len pieces) i (payload p) ∧ fragment_id p = Z.of_nat i ∧
        fragment_count p = len pieces ∧ message_ok p ∧
        ∃ d, Udp.encode p = Ok d ∧ len d ≤ 32)
  | Err DatagramLimitTooSmall => 32 ≤ header_size (destination m)
  | Err InvalidFragment =>
      header_size (destination m) < 32 ∧
      255 * (32 - header_size (destination m)) < len (payload m)
  | Err _ => False
  end.
Proof.
  intros m. apply (fragment_spec m 32); [|done|done]. unfold message_ok. subst m.
  cbn [session_id packet_id fragment_id fragment_count destination payload].
  split_and!; try (by vm_compute); repeat constructor; vm_compute; congruence.
Defined.
