(* ===== verification/Reassembler.v ===== *)
(** * Reassembly of HY2 UDP fragments ([UdpReassembler], [src/src/protocol/udp.rs])

    The reassembler's state is the map from (session, packet) to the fragments
    received so far.  An [Instant] is its distance in nanoseconds from some
    fixed origin.  The theorems show the invariant of the table, that a
    fragmented message is rebuilt from its fragments in any order and
    interleaving, and what happens at the table's capacity. *)

From stdpp Require Import base list gmap strings sets fin_maps.
From Stdlib Require Import ZArith Lia.
From S2P Require Import Prelude RustStr Varint TcpCodec UdpCodec.

Open Scope Z_scope.

(** [REASSEMBLY_TIMEOUT], ten seconds in nanoseconds. *)
Definition REASSEMBLY_TIMEOUT : Z := 10 * 1000000000.
Definition MAX_INCOMPLETE_PACKETS : nat := 1024.

Record PartialPacket := {
  updated_at : Z;
  pp_destination : str;
  fragments : list (option (list Z));
}.

(** The [packets] table. *)
Abbreviation UdpReassembler := (gmap (Z * Z) PartialPacket).

(** [now.duration_since(then)], which saturates at zero. *)
Definition duration_since (now past : Z) : Z := Z.max (now - past) 0.

Definition fresh (now : Z) (p : PartialPacket) : Prop :=
  duration_since now (updated_at p) < REASSEMBLY_TIMEOUT.

#[export] Instance fresh_dec now p : Decision (fresh now p).
Proof. unfold fresh. apply _. Defined.

(** [packets.retain(...)]. *)
Definition retain_fresh (now : Z) (packets : UdpReassembler) : UdpReassembler :=
  filter (fun kp => fresh now kp.2) packets.

Definition msg_key (m : UdpMessage) : Z * Z := (session_id m, packet_id m).

Definition is_none {A} (o : option A) : bool := match o with None => true | Some _ => false end.

Section reassembler.
Context `{HashIter}.

(** The key of the entry to drop, when the table is full and [key] is new. *)
Definition oldest_key (packets : UdpReassembler) (key : Z * Z) : option (Z * Z) :=
  if bool_decide (packets !! key = None) && bool_decide (MAX_INCOMPLETE_PACKETS ≤ size packets)%nat
  then fst <$> min_by_key (fun kp => updated_at kp.2) (hash_iter packets)
  else None.

Definition make_room (packets : UdpReassembler) (key : Z * Z) : UdpReassembler :=
  match oldest_key packets key with
  | Some oldest => delete oldest packets
  | None => packets
  end.

(** [UdpReassembler::push_at]. *)
Definition push_at (packets : UdpReassembler) (message : UdpMessage) (now : Z)
    : result UdpCodecError (option UdpMessage) * UdpReassembler :=
  let packets := retain_fresh now packets in
  if fragment_count message <=? 1 then (Ok (Some message), packets)
  else if fragment_id message >=? fragment_count message then (Err InvalidFragment, packets)
  else
    let key := msg_key message in
    let packets := make_room packets key in
    let partial :=
      default {| updated_at := now; pp_destination := destination message;
                 fragments := replicate (Z.to_nat (fragment_count message)) None |}
              (packets !! key) in
    if negb (str_eqb (pp_destination partial) (destination message))
       || negb (len (fragments partial) =? fragment_count message)
    then (Err InvalidFragment, delete key packets)
    else
      let frags :=
        <[Z.to_nat (fragment_id message) := Some (payload message)]> (fragments partial) in
      if existsb is_none frags then
        (Ok None, <[key := {| updated_at := now; pp_destination := pp_destination partial;
                              fragments := frags |}]> packets)
      else
        let packets := delete key packets in
        let parts := omap id frags in
        let payload_size := foldr (fun f total => total + len f) 0 parts in
        if payload_size <=? MAX_UDP_SIZE then
          (Ok (Some {| session_id := key.1; packet_id := key.2; fragment_id := 0;
                       fragment_count := 1; destination := pp_destination partial;
                       payload := concat parts |}), packets)
        else (Err PayloadTooLarge, packets).

(** A sequence of pushes: the outcome of each, in order, and the final table. *)
Fixpoint push_all (packets : UdpReassembler) (l : list (UdpMessage * Z))
    : list (UdpMessage * result UdpCodecError (option UdpMessage)) * UdpReassembler :=
  match l with
  | [] => ([], packets)
  | (m, now) :: l =>
      let '(r, packets) := push_at packets m now in
      let '(rs, packets) := push_all packets l in
      ((m, r) :: rs, packets)
  end.
End reassembler.

(** ** The table's invariant *)

(** An entry is a packet that is still incomplete, of 2 to 255 fragments at
    least one of which has arrived. *)
Definition partial_ok (p : PartialPacket) : Prop :=
  (2 ≤ length (fragments p) ≤ 255)%nat ∧ existsb is_none (fragments p) = true ∧
  (∃ f, Some f ∈ fragments p).

Definition table_ok (packets : UdpReassembler) : Prop :=
  (size packets ≤ MAX_INCOMPLETE_PACKETS)%nat ∧ map_Forall (fun _ p => partial_ok p) packets.

Lemma retain_fresh_lookup now packets k p :
  retain_fresh now packets !! k = Some p ↔ packets !! k = Some p ∧ fresh now p.
Proof. unfold retain_fresh. by rewrite map_lookup_filter_Some. Qed.

Lemma retain_fresh_size now packets : (size (retain_fresh now packets) ≤ size packets)%nat.
Proof. apply map_size_filter. Qed.

Lemma table_ok_empty : table_ok ∅.
Proof. split; [rewrite map_size_empty; lia|apply map_Forall_empty]. Qed.

Lemma table_ok_retain now packets : table_ok packets → table_ok (retain_fresh now packets).
Proof.
  intros [Hs Hf]. split; [pose proof (retain_fresh_size now packets); lia|].
  intros k p [Hk _]%retain_fresh_lookup. by apply (Hf k).
Qed.

Lemma table_ok_delete k packets : table_ok packets → table_ok (delete k packets).
Proof.
  intros [Hs Hf]. split; [|by apply map_Forall_delete].
  rewrite map_size_delete. destruct (packets !! k); simpl; lia.
Qed.

Lemma existsb_is_none_false {A} (l : list (option A)) :
  existsb is_none l = false ↔ Forall is_Some l.
Proof.
  induction l as [|[x|] l IH]; simpl; [by split; [constructor|]| |].
  - rewrite IH, Forall_cons. naive_solver.
  - split; [done|]. inversion_clear 1 as [|?? []]. done.
Qed.

Section invariant.
Context `{HashIter}.

Lemma oldest_key_Some packets key k :
  oldest_key packets key = Some k →
  packets !! key = None ∧ (MAX_INCOMPLETE_PACKETS ≤ size packets)%nat ∧
  ∃ p, packets !! k = Some p ∧ ∀ k' p', packets !! k' = Some p' → updated_at p ≤ updated_at p'.
Proof.
  unfold oldest_key. case_bool_decide; [|done]. case_bool_decide; [|done]. simpl.
  intros ([k' p] & [Hin Hmin]%min_by_key_Some & ->)%fmap_Some.
  apply elem_of_hash_iter in Hin. split_and!; [done..|]. exists p. split; [done|].
  intros k2 p2 H2. apply (Hmin (k2, p2)). by apply elem_of_hash_iter.
Qed.

Lemma oldest_key_None packets key :
  oldest_key packets key = None →
  packets !! key ≠ None ∨ (size packets < MAX_INCOMPLETE_PACKETS)%nat.
Proof.
  unfold oldest_key. case_bool_decide; [|by left]. case_bool_decide; [|right; lia]. simpl.
  intros E%fmap_None%min_by_key_None. exfalso.
  assert (Hl : length (hash_iter packets) = size packets)
    by (rewrite hash_iter_perm; by rewrite length_map_to_list).
  rewrite E in Hl. simpl in Hl. unfold MAX_INCOMPLETE_PACKETS in *. lia.
Qed.

(** After making room there is a slot for [key]. *)
Lemma make_room_spec packets key :
  table_ok packets →
  table_ok (make_room packets key) ∧
  (make_room packets key !! key = None →
   (size (make_room packets key) < MAX_INCOMPLETE_PACKETS)%nat).
Proof.
  intros Hok. unfold make_room. destruct (oldest_key packets key) as [k|] eqn:E.
  - split; [by apply table_ok_delete|]. intros _.
    apply oldest_key_Some in E as (_ & _ & p & Hp & _).
    rewrite map_size_delete_Some by done. destruct Hok as [Hs _].
    assert (size packets ≠ 0%nat) by (intros Hz%map_size_empty_inv; by subst). lia.
  - split; [done|]. intros Hn. apply oldest_key_None in E as [|]; done.
Qed.
End invariant.

(** What a push may answer for [m]: an unfragmented message passes through; a
    completed packet is unfragmented, keeps the identity and the destination of
    the fragment that completed it and fits a HY2 message; anything else is
    "incomplete" or one of two errors. *)
Definition outcome_ok (m : UdpMessage) (r : result UdpCodecError (option UdpMessage)) : Prop :=
  match r with
  | Ok (Some out) =>
      fragment_count m ≤ 1 ∧ out = m ∨
      1 < fragment_count m ∧ msg_key out = msg_key m ∧ destination out = destination m ∧
      fragment_id out = 0 ∧ fragment_count out = 1 ∧ len (payload out) ≤ MAX_UDP_SIZE
  | Ok None => fragment_id m < fragment_count m ∧ 1 < fragment_count m
  | Err e => (e = InvalidFragment ∨ e = PayloadTooLarge) ∧ 1 < fragment_count m
  end.

Definition frag_ok (m : UdpMessage) : Prop := u8_ok (fragment_id m) ∧ u8_ok (fragment_count m).

Lemma sum_len_concat (l : list (list Z)) :
  foldr (fun f total => total + len f) 0 l = len (concat l).
Proof. induction l as [|x l IH]; [done|]. simpl. rewrite len_app, IH. lia. Qed.

(** Storing a fragment in an entry of the right size. *)
Lemma partial_ok_insert p i f now d :
  (2 ≤ length (fragments p) ≤ 255)%nat → (i < length (fragments p))%nat →
  existsb is_none (<[i := Some f]> (fragments p)) = true →
  partial_ok {| updated_at := now; pp_destination := d; fragments := <[i := Some f]> (fragments p) |}.
Proof.
  intros Hl Hi He. split_and!; cbn; rewrite ?length_insert; try lia; [done|].
  exists f. apply list_elem_of_lookup_2 with i. by apply list_lookup_insert_eq.
Qed.

Lemma table_ok_insert k p packets :
  table_ok packets → partial_ok p →
  (packets !! k = None → (size packets < MAX_INCOMPLETE_PACKETS)%nat) →
  table_ok (<[k := p]> packets).
Proof.
  intros [Hs Hf] Hp Hroom. split; [|by apply map_Forall_insert_2].
  rewrite map_size_insert. destruct (packets !! k) eqn:E; simpl; [done|].
  specialize (Hroom eq_refl). lia.
Qed.

(** One fragment does not complete a packet of several. *)
Lemma insert_replicate_incomplete {A} n i (x : A) :
  (2 ≤ n)%nat → existsb is_none (<[i := Some x]> (replicate n None)) = true.
Proof. intros Hn. destruct n as [|[|n]]; [lia..|]. by destruct i as [|[|i]]. Qed.

Section steps.
Context `{HashIter}.

Lemma push_at_ok packets m now :
  table_ok packets → frag_ok m →
  table_ok (push_at packets m now).2 ∧ outcome_ok m (push_at packets m now).1 ∧
  map_Forall (fun _ => fresh now) (push_at packets m now).2.
Proof.
  intros Hok [Hid Hcnt]. unfold push_at.
  set (packets1 := retain_fresh now packets).
  assert (Hok1 : table_ok packets1) by by apply table_ok_retain.
  assert (Hfr1 : map_Forall (fun _ => fresh now) packets1)
    by by intros k p [_ ?]%retain_fresh_lookup.
  destruct (Z.leb_spec (fragment_count m) 1); [by split_and!; [|left|]|].
  rewrite Z.geb_leb. destruct (Z.leb_spec (fragment_count m) (fragment_id m)); cbn [fst snd].
  { split_and!; [done| |done]. by split; [left|]. }
  destruct (make_room_spec packets1 (msg_key m) Hok1) as [Hok2 Hroom].
  set (packets2 := make_room packets1 (msg_key m)) in *.
  assert (Hfr2 : map_Forall (fun _ => fresh now) packets2).
  { unfold packets2, make_room. case_match; [by apply map_Forall_delete|done]. }
  set (partial := default _ _).
  destruct (str_eqb (pp_destination partial) (destination m)) eqn:Ed; cbn [negb orb].
  2: { cbn [fst snd]. split_and!; [by apply table_ok_delete|by split; [left|]|
       by apply map_Forall_delete]. }
  destruct (Z.eqb_spec (len (fragments partial)) (fragment_count m)) as [El|]; cbn [negb].
  2: { cbn [fst snd]. split_and!; [by apply table_ok_delete|by split; [left|]|
       by apply map_Forall_delete]. }
  apply str_eqb_eq in Ed. rewrite u8_ok_iff in Hid, Hcnt. unfold len in El.
  destruct (existsb is_none _) eqn:En; cbn [fst snd].
  - split_and!; [|done|].
    + apply table_ok_insert; [done| |done]. apply partial_ok_insert; [lia|lia|done].
    + apply map_Forall_insert_2; [|done]. unfold fresh, duration_since, REASSEMBLY_TIMEOUT.
      cbn. lia.
  - rewrite sum_len_concat.
    destruct (Z.leb_spec (len (concat (omap id (<[Z.to_nat (fragment_id m) :=
      Some (payload m)]> (fragments partial))))) MAX_UDP_SIZE); cbn [fst snd];
      (split_and!; [by apply table_ok_delete| |by apply map_Forall_delete]).
    + right. by split_and!.
    + split; [by right|lia].
Qed.
End steps.

(** From an empty reassembler, after any sequence of pushes at any
    instants the table holds at most 1024 packets, each incomplete, of 2 to 255
    fragments with at least one received; and every answer is of the expected
    form, in particular every rebuilt packet fits in 4096 bytes. *)
Theorem reassembler_invariant `{HashIter} l :
  Forall (fun mt => frag_ok mt.1) l →
  table_ok (push_all ∅ l).2 ∧ Forall (fun mr => outcome_ok mr.1 mr.2) (push_all ∅ l).1.
Proof.
  intros Hl. assert (H0 := table_ok_empty). revert H0. generalize (∅ : UdpReassembler) as t.
  induction Hl as [|[m now] l Hm Hl IH]; intros t Ht; cbn [push_all]; [by split; [|constructor]|].
  destruct (push_at_ok t m now Ht Hm) as (Ht' & Hr & _).
  destruct (push_at t m now) as [r t']. destruct (IH t' Ht') as [Hend Hrs].
  destruct (push_all t' l) as [rs t'']. cbn in *. split; [done|by constructor].
Qed.

(** A two-fragment packet received in reverse order, used by the witnesses. *)
Definition example_fragment (i : Z) (p : list Z) : UdpMessage :=
  {| session_id := 1; packet_id := 2; fragment_id := i; fragment_count := 2;
     destination := lit "127.0.0.1:53"; payload := p |}.

Definition example_pushes : list (UdpMessage * Z) :=
  [(example_fragment 1 [3; 4], 0); (example_fragment 0 [1; 2], 5)].

Lemma reassembler_invariant_witness :
  table_ok (@push_all hash_iter_sorted ∅ example_pushes).2 ∧
  Forall (fun mr => outcome_ok mr.1 mr.2) (@push_all hash_iter_sorted ∅ example_pushes).1.
Proof.
  apply (@reassembler_invariant hash_iter_sorted example_pushes).
  repeat constructor; vm_compute; congruence.
Defined.

(** ** Reassembly *)

Section reassembly.
Context `{HashIter}.

(** Below capacity nothing is evicted, and a push touches only its own key. *)
Lemma make_room_id packets key :
  (size packets < MAX_INCOMPLETE_PACKETS)%nat → make_room packets key = packets.
Proof.
  intros Hs. unfold make_room. destruct (oldest_key packets key) eqn:E; [|done].
  apply oldest_key_Some in E as (_ & ? & _). lia.
Qed.

Lemma push_at_size packets m now :
  (size packets < MAX_INCOMPLETE_PACKETS)%nat →
  (size (push_at packets m now).2 ≤ S (size packets))%nat.
Proof.
  intros Hs. pose proof (retain_fresh_size now packets). unfold push_at.
  rewrite make_room_id by lia.
  repeat case_match; cbn [snd]; rewrite ?map_size_delete, ?map_size_insert;
    repeat case_match; simpl; lia.
Qed.

Lemma push_at_frame packets m now k :
  (size packets < MAX_INCOMPLETE_PACKETS)%nat → k ≠ msg_key m →
  (push_at packets m now).2 !! k = retain_fresh now packets !! k.
Proof.
  intros Hs Hk. pose proof (retain_fresh_size now packets). unfold push_at.
  rewrite make_room_id by lia.
  repeat case_match; cbn [snd]; rewrite ?lookup_delete_ne, ?lookup_insert_ne by done; done.
Qed.

(** The fragments [pieces] of one packet [m]. *)
Variables (m : UdpMessage) (pieces : list UdpMessage).

Definition pieces_of : Prop :=
  2 ≤ len pieces ≤ 255 ∧ concat (payload <$> pieces) = payload m ∧
  len (payload m) ≤ MAX_UDP_SIZE ∧ fragment_id m = 0 ∧ fragment_count m = 1 ∧
  ∀ i p, pieces !! i = Some p →
    msg_key p = msg_key m ∧ destination p = destination m ∧
    fragment_id p = Z.of_nat i ∧ fragment_count p = len pieces.

Hypothesis Hpieces : pieces_of.

(** The slots of the packet once the pieces [got] have arrived. *)
Definition slot (got : list UdpMessage) (p : UdpMessage) : option (list Z) :=
  if decide (p ∈ got) then Some (payload p) else None.

Definition holding (got : list UdpMessage) : list (option (list Z)) := slot got <$> pieces.

Lemma piece_index p : p ∈ pieces → pieces !! Z.to_nat (fragment_id p) = Some p.
Proof.
  destruct Hpieces as (_ & _ & _ & _ & _ & Hp). intros [i Hi]%list_elem_of_lookup.
  destruct (Hp i p Hi) as (_ & _ & Hf & _). by rewrite Hf, Nat2Z.id.
Qed.

Lemma holding_insert got p :
  p ∈ pieces →
  <[Z.to_nat (fragment_id p) := Some (payload p)]> (holding got) = holding (p :: got).
Proof.
  intros Hp. pose proof (piece_index p Hp) as Hi. apply list_eq. intros j.
  destruct (decide (j = Z.to_nat (fragment_id p))) as [->|Hne].
  - rewrite list_lookup_insert_eq by (unfold holding; rewrite length_fmap; by eapply lookup_lt_Some).
    unfold holding. rewrite list_lookup_fmap, Hi. cbn. unfold slot.
    rewrite decide_True by set_solver. done.
  - rewrite list_lookup_insert_ne by done. unfold holding. rewrite !list_lookup_fmap.
    destruct (pieces !! j) as [q|] eqn:Hq; [|done]. cbn. f_equal. unfold slot.
    assert (q ≠ p).
    { intros ->. destruct Hpieces as (_ & _ & _ & _ & _ & H').
      destruct (H' _ _ Hq) as (_ & _ & Hf & _). lia. }
    destruct (decide (q ∈ got)); [by rewrite decide_True by set_solver|].
    by rewrite decide_False by set_solver.
Qed.

Lemma holding_nil : holding [] = replicate (length pieces) None.
Proof.
  unfold holding. clear Hpieces. induction pieces as [|p l IH]; [done|].
  rewrite fmap_cons, IH. done.
Qed.

Lemma holding_incomplete got q :
  q ∈ pieces → q ∉ got → existsb is_none (holding got) = true.
Proof.
  intros Hq Hn. apply existsb_exists. exists None. split; [|done].
  apply list_elem_of_In, list_elem_of_fmap. exists q. unfold slot.
  by rewrite decide_False.
Qed.

Lemma holding_complete got :
  (∀ q, q ∈ pieces → q ∈ got) → holding got = Some <$> (payload <$> pieces).
Proof.
  intros Hall. unfold holding. rewrite <- list_fmap_compose.
  apply list_fmap_ext. intros i q Hq. cbn. unfold slot.
  rewrite decide_True; [done|]. by apply Hall, list_elem_of_lookup_2 with i.
Qed.

Lemma omap_id_Some {A} (l : list A) : omap id (Some <$> l) = l.
Proof. induction l as [|x l IH]; [done|]. cbn. by f_equal. Qed.

(** Instants less than the timeout after [t0]. *)
Variable t0 : Z.
Definition in_window (t : Z) : Prop := t0 ≤ t < t0 + REASSEMBLY_TIMEOUT.

(** The table's entry for the packet after the pieces [got]. *)
Definition entry (u : Z) (got : list UdpMessage) : PartialPacket :=
  {| updated_at := u; pp_destination := destination m; fragments := holding got |}.

Definition holds (packets : UdpReassembler) (got : list UdpMessage) : Prop :=
  match got with
  | [] => packets !! msg_key m = None
  | _ => ∃ u, in_window u ∧ packets !! msg_key m = Some (entry u got)
  end.

Lemma holds_retain packets got now :
  in_window now → holds packets got → holds (retain_fresh now packets) got.
Proof.
  intros Hnow. unfold holds. destruct got as [|p got].
  - intros Hn. apply eq_None_not_Some. intros [x [Hx _]%retain_fresh_lookup]. congruence.
  - intros (u & Hu & E). exists u. split; [done|]. apply retain_fresh_lookup.
    split; [done|]. unfold fresh, duration_since, in_window, entry in *. cbn. lia.
Qed.

(** The slots the code works on when a piece arrives. *)
Lemma holds_default packets got now p :
  holds packets got → destination p = destination m → fragment_count p = len pieces →
  ∃ u, default {| updated_at := now; pp_destination := destination p;
                  fragments := replicate (Z.to_nat (fragment_count p)) None |}
               (packets !! msg_key m) = entry u got.
Proof.
  intros Hh Hd Hc. unfold holds in Hh. destruct got as [|q got].
  - exists now. rewrite Hh, Hd, Hc. cbn. unfold entry, len.
    by rewrite Nat2Z.id, holding_nil.
  - destruct Hh as (u & _ & E). exists u. by rewrite E.
Qed.

Lemma push_piece packets got p now :
  (size packets < MAX_INCOMPLETE_PACKETS)%nat → in_window now → p ∈ pieces →
  holds packets got →
  push_at packets p now =
    if existsb is_none (holding (p :: got))
    then (Ok None, <[msg_key m := entry now (p :: got)]> (retain_fresh now packets))
    else (Ok (Some m), delete (msg_key m) (retain_fresh now packets)).
Proof.
  intros Hs Hnow Hp Hh. apply (holds_retain _ _ now Hnow) in Hh.
  destruct Hpieces as (Hn & Hcat & Hmax & Hid0 & Hcnt1 & Hpc).
  pose proof (piece_index p Hp) as Hi. pose proof (lookup_lt_Some _ _ _ Hi) as Hlt.
  destruct (Hpc _ _ Hi) as (Hk & Hd & Hf & Hc). unfold len in Hn, Hc.
  pose proof (retain_fresh_size now packets). unfold push_at.
  rewrite (proj2 (Z.leb_gt _ _)) by lia. rewrite Z.geb_leb, (proj2 (Z.leb_gt _ _)) by lia.
  rewrite make_room_id by lia. rewrite Hk.
  destruct (holds_default _ _ now p Hh Hd Hc) as [u ->].
  rewrite Hd, (proj2 (str_eqb_eq _ _)) by done. cbn [entry fragments pp_destination negb orb].
  unfold len at 1. unfold holding at 1. rewrite length_fmap.
  rewrite Hc, Z.eqb_refl. cbn [negb]. rewrite holding_insert by done.
  destruct (existsb is_none (holding (p :: got))) eqn:E; [done|].
  rewrite holding_complete.
  2: { intros q Hq. destruct (decide (q ∈ p :: got)) as [|Hq']; [done|].
       by rewrite (holding_incomplete _ _ Hq Hq') in E. }
  rewrite omap_id_Some, sum_len_concat, Hcat, (proj2 (Z.leb_le _ _)) by done.
  destruct m. cbn in *. by subst.
Qed.

(** The answers given to the pieces: [None] to each but the last. *)
Definition expected (rem : list UdpMessage) : list (result UdpCodecError (option UdpMessage)) :=
  match rem with
  | [] => []
  | _ :: r => replicate (length r) (Ok None) ++ [Ok (Some m)]
  end.

Definition own (x : UdpMessage) : Prop := msg_key x = msg_key m.
#[export] Instance own_dec x : Decision (own x).
Proof. unfold own. apply _. Defined.

Definition own_answers (rs : list (UdpMessage * result UdpCodecError (option UdpMessage))) :=
  snd <$> filter (fun mr => own mr.1) rs.

(** [rem] is what is still to come after [got]. *)
Definition remaining (got rem : list UdpMessage) : Prop :=
  NoDup rem ∧ (∀ q, q ∈ rem → q ∈ pieces ∧ q ∉ got) ∧ (∀ q, q ∈ pieces → q ∈ got ∨ q ∈ rem).

Lemma remaining_cons got rem x rem' :
  rem ≡ₚ x :: rem' → remaining got rem → x ∈ pieces ∧ remaining (x :: got) rem'.
Proof.
  intros Hp (Hnd & Hin & Hall).
  assert (Hel : ∀ q, q ∈ rem ↔ q = x ∨ q ∈ rem')
    by (intros q; by rewrite Hp, elem_of_cons).
  rewrite Hp in Hnd. apply NoDup_cons in Hnd as [Hx Hnd].
  split; [by apply Hin, Hel; left|]. split_and!; [done| |].
  - intros q Hq. destruct (Hin q) as [? ?]; [by apply Hel; right|].
    split; [done|]. set_solver.
  - intros q Hq. destruct (Hall q Hq) as [?|[->|?]%Hel]; set_solver.
Qed.

Lemma remaining_slots got rem :
  remaining got rem → existsb is_none (holding got) = negb (is_nil rem).
Proof.
  intros (_ & Hin & Hall). destruct rem as [|q rem]; cbn.
  - apply existsb_is_none_false. rewrite holding_complete by set_solver.
    apply Forall_fmap, Forall_true. by eexists.
  - by apply (holding_incomplete _ q); apply Hin; left.
Qed.

Lemma push_own packets got x rem now :
  (size packets < MAX_INCOMPLETE_PACKETS)%nat → in_window now → x ∈ pieces →
  holds packets got → remaining (x :: got) rem →
  (push_at packets x now).1 = (if is_nil rem then Ok (Some m) else Ok None) ∧
  (rem ≠ [] → holds (push_at packets x now).2 (x :: got)).
Proof.
  intros Hs Hnow Hx Hh Hrem. rewrite (push_piece _ _ _ _ Hs Hnow Hx Hh).
  rewrite (remaining_slots _ _ Hrem). destruct rem; cbn; split; try done.
  intros _. exists now. split; [done|]. by rewrite lookup_insert_eq.
Qed.

Lemma push_other packets got x now :
  (size packets < MAX_INCOMPLETE_PACKETS)%nat → in_window now → ¬ own x →
  holds packets got → holds (push_at packets x now).2 got.
Proof.
  intros Hs Hnow Hx Hh. apply (holds_retain _ _ now Hnow) in Hh.
  unfold holds in *. by rewrite push_at_frame.
Qed.

Lemma expected_perm rem x rem' :
  rem ≡ₚ x :: rem' →
  expected rem = (if is_nil rem' then Ok (Some m) else Ok None) :: expected rem'.
Proof.
  intros Hl%Permutation_length. destruct rem as [|y r]; [done|].
  simpl in Hl. injection Hl as Hl. cbn. rewrite Hl. by destruct rem'.
Qed.

Lemma reassembly_run l packets got rem :
  (size packets + length l ≤ MAX_INCOMPLETE_PACKETS)%nat →
  Forall (fun mt => in_window mt.2) l →
  filter own l.*1 ≡ₚ rem → remaining got rem → (rem ≠ [] → holds packets got) →
  own_answers (push_all packets l).1 = expected rem.
Proof.
  revert packets got rem.
  induction l as [|[x now] l IH]; intros packets got rem Hs Hw Hperm Hrem Hh.
  { cbn in Hperm. apply Permutation_nil in Hperm. by subst. }
  inversion_clear Hw as [|? ? Hnow Hw']. cbn in Hnow. cbn [length] in Hs.
  pose proof (push_at_size packets x now ltac:(lia)) as Hsz.
  rewrite fmap_cons, filter_cons in Hperm. cbn [fst] in Hperm.
  cbn [push_all]. unfold own_answers in *.
  specialize (IH (push_at packets x now).2).
  pose proof (push_other packets got x now ltac:(lia) Hnow) as Hother.
  pose proof (push_own packets got x) as Hown. specialize Hown with (now := now).
  destruct (push_at packets x now) as [r t'] eqn:Epush. cbn [fst snd] in *.
  destruct (push_all t' l) as [rs t''] eqn:Eall. cbn [fst] in *. rewrite filter_cons. cbn [fst].
  destruct (decide (own x)) as [Hx|Hx].
  - destruct (remaining_cons got rem x (filter own l.*1)) as [Hxp Hrem']; [done|done|].
    destruct (Hown (filter own l.*1)) as [-> Hh']; try done; [lia| |].
    { apply Hh. intros ->. by apply Permutation_nil_r in Hperm. }
    rewrite (expected_perm _ _ _ (symmetry Hperm)), fmap_cons. f_equal.
    apply (IH (x :: got)); try done. lia.
  - apply (IH got); try done; [lia|]. auto.
Qed.
End reassembly.

Lemma pieces_of_fragment m limit pieces :
  message_ok m → fragment_id m = 0 → fragment_count m = 1 →
  Udp.fragment m limit = Ok pieces → 2 ≤ len pieces → pieces_of m pieces.
Proof.
  intros Hok Hid Hcnt Hf Hlen. unfold Udp.fragment in Hf.
  destruct (Udp.payload_per_fragment limit (destination m)) as [per|] eqn:E; [|done].
  apply payload_per_fragment_Some in E as [Hper _]. res_simpl in Hf.
  destruct (Z.leb_spec (len (payload m)) per); [injection Hf as <-; by cbn in Hlen|].
  rewrite Z.gtb_ltb in Hf. destruct (Z.ltb_spec 255 (div_ceil (len (payload m)) per)); [done|].
  apply (inj Ok) in Hf.
  change (imap (fragment_of m (div_ceil (len (payload m)) per))
            (chunks (Z.to_nat per) (payload m)) = pieces) in Hf.
  pose proof (fragment_pieces m per Hok Hper ltac:(lia) ltac:(lia)) as H'.
  cbv zeta in H'. rewrite Hf in H'.
  destruct H' as (Hn & Hcat & Hall).
  split_and!; try done; [apply Hn|apply Hok|]. intros i p Hi.
  destruct (Hall i p Hi) as (Hp & Hfi & Hfc & _). split_and!; [by rewrite Hp..|done|done].
Qed.

Lemma NoDup_pieces m pieces : pieces_of m pieces → NoDup pieces.
Proof.
  intros (_ & _ & _ & _ & _ & Hp). apply NoDup_alt. intros i j p Hi Hj.
  destruct (Hp i p Hi) as (_ & _ & ? & _), (Hp j p Hj) as (_ & _ & ? & _). lia.
Qed.

(** Claim C13. The fragments of a message, pushed in any order and interleaved in
    any way with other traffic (fewer than 1024 packets in all, all within ten
    seconds), are answered "incomplete" until the last one, which is answered
    with the original message. *)
Theorem reassembly_any_order `{HashIter} m limit pieces packets l t0 :
  message_ok m → fragment_id m = 0 → fragment_count m = 1 →
  Udp.fragment m limit = Ok pieces → 2 ≤ len pieces →
  packets !! msg_key m = None → (size packets + length l ≤ MAX_INCOMPLETE_PACKETS)%nat →
  Forall (fun mt => in_window t0 mt.2) l → filter (own m) l.*1 ≡ₚ pieces →
  own_answers m (push_all packets l).1
    = replicate (length pieces - 1) (Ok None) ++ [Ok (Some m)].
Proof.
  intros Hok Hid Hcnt Hf Hlen Hnone Hs Hw Hperm.
  pose proof (pieces_of_fragment _ _ _ Hok Hid Hcnt Hf Hlen) as Hp.
  rewrite (reassembly_run m pieces Hp t0 l packets [] pieces Hs Hw Hperm); [| |done].
  - destruct pieces as [|p ps]; [done|]. cbn. by rewrite Nat.sub_0_r.
  - split_and!; [by apply (NoDup_pieces m)|set_solver|set_solver].
Qed.

Lemma reassembly_any_order_witness :
  let m := {| session_id := 1; packet_id := 2; fragment_id := 0; fragment_count := 1;
              destination := lit "127.0.0.1:53"; payload := [1; 2; 3; 4] |} in
  let other := {| session_id := 9; packet_id := 2; fragment_id := 0; fragment_count := 2;
              destination := lit "a:1"; payload := [7] |} in
  own_answers m (@push_all hash_iter_sorted ∅
    [(example_fragment 1 [3; 4], 0); (other, 3); (example_fragment 0 [1; 2], 5)]).1
    = [Ok None; Ok (Some m)].
Proof.
  intros m other. etransitivity.
  - apply (@reassembly_any_order hash_iter_sorted m 23
      [example_fragment 0 [1; 2]; example_fragment 1 [3; 4]] ∅ _ 0).
    + unfold message_ok. cbn [m session_id packet_id fragment_id fragment_count destination payload].
      split_and!; try (by vm_compute); repeat constructor; vm_compute; congruence.
    + reflexivity.
    + reflexivity.
    + vm_compute. reflexivity.
    + vm_compute. congruence.
    + apply lookup_empty.
    + rewrite map_size_empty. cbn. unfold MAX_INCOMPLETE_PACKETS. lia.
    + repeat constructor; vm_compute; congruence.
    + change (filter _ _) with [example_fragment 1 [3; 4]; example_fragment 0 [1; 2]].
      apply Permutation_swap.
  - reflexivity.
Defined.

(** ** Capacity *)

(** When the table is full of live packets, the first fragment of a new
    packet evicts exactly one entry, one of those updated the longest ago, and
    the table stays full. *)
Theorem push_at_full `{HashIter} packets m now :
  table_ok packets → frag_ok m → fragment_id m < fragment_count m → 1 < fragment_count m →
  let live := retain_fresh now packets in
  size live = MAX_INCOMPLETE_PACKETS → live !! msg_key m = None →
  ∃ k p, live !! k = Some p ∧
    (∀ k' p', live !! k' = Some p' → updated_at p ≤ updated_at p') ∧
    push_at packets m now =
      (Ok None, <[msg_key m := {| updated_at := now; pp_destination := destination m;
          fragments := <[Z.to_nat (fragment_id m) := Some (payload m)]>
                         (replicate (Z.to_nat (fragment_count m)) None) |}]> (delete k live)) ∧
    size (push_at packets m now).2 = MAX_INCOMPLETE_PACKETS.
Proof.
  intros Hok [Hfi Hfc] Hlt Hgt live Hfull Hnew. rewrite u8_ok_iff in Hfi, Hfc.
  destruct (oldest_key live (msg_key m)) as [k|] eqn:E.
  2: { apply oldest_key_None in E as [|]; [done|lia]. }
  pose proof (oldest_key_Some _ _ _ E) as (_ & _ & p & Hp & Hmin). exists k, p.
  assert (Hkm : delete k live !! msg_key m = None) by (by rewrite lookup_delete_None; right).
  assert (Hpush : push_at packets m now = (Ok None, <[msg_key m := {| updated_at := now;
       pp_destination := destination m;
       fragments := <[Z.to_nat (fragment_id m) := Some (payload m)]>
                         (replicate (Z.to_nat (fragment_count m)) None) |}]> (delete k live))).
  { unfold push_at. fold live. rewrite (proj2 (Z.leb_gt _ _)) by lia.
    rewrite Z.geb_leb, (proj2 (Z.leb_gt _ _)) by lia. unfold make_room. rewrite E, Hkm.
    cbn [default pp_destination fragments]. rewrite (proj2 (str_eqb_eq _ _)) by done.
    unfold len. rewrite length_replicate, Z2Nat.id, Z.eqb_refl by lia. cbn [negb orb].
    by rewrite insert_replicate_incomplete by lia. }
  rewrite Hpush. split_and!; try done. cbn [snd].
  rewrite map_size_insert_None, map_size_delete_Some by done.
  unfold MAX_INCOMPLETE_PACKETS in *. lia.
Qed.

(** A table of 1024 packets, one per session. *)
Definition full_entry : PartialPacket :=
  {| updated_at := 0; pp_destination := lit "a:1"; fragments := [None; Some [1]] |}.

Definition full_table : UdpReassembler :=
  list_to_map ((fun i => ((Z.of_nat i, 0), full_entry)) <$> seq 0 1024).

Lemma full_table_ok : table_ok full_table.
Proof.
  split; [vm_compute; lia|]. intros k p Hk%elem_of_list_to_map_2.
  apply list_elem_of_fmap in Hk as (i & [= _ ->] & _).
  split_and!; cbn; [lia..|done|]. exists [1]. set_solver.
Qed.

Lemma push_at_full_witness :
  ∃ k p, retain_fresh 5 full_table !! k = Some p ∧
    (∀ k' p', retain_fresh 5 full_table !! k' = Some p' → updated_at p ≤ updated_at p') ∧
    @push_at hash_iter_sorted full_table (example_fragment 1 [3; 4]) 5 =
      (Ok None, <[msg_key (example_fragment 1 [3; 4]) := {| updated_at := 5;
          pp_destination := lit "127.0.0.1:53";
          fragments := <[1%nat := Some [3; 4]]> (replicate 2 None) |}]>
                (delete k (retain_fresh 5 full_table))) ∧
    size (@push_at hash_iter_sorted full_table (example_fragment 1 [3; 4]) 5).2
      = MAX_INCOMPLETE_PACKETS.
Proof.
  apply (@push_at_full hash_iter_sorted full_table (example_fragment 1 [3; 4]) 5).
  - apply full_table_ok.
  - split; vm_compute; split; congruence.
  - reflexivity.
  - reflexivity.
  - vm_compute. reflexivity.
  - vm_compute. reflexivity.
Defined.
