(* ===== verification/Salamander.v ===== *)
(** * Salamander obfuscation ([src/src/salamander.rs], [src/src/salamander_socket.rs])

    The packet cipher and the UDP socket wrapper: segmented sends, and the
    in-place decoding of received batches.  BLAKE2b is a parameter of the model;
    what is used of it is the length of its output.  Buffer positions and
    lengths are [nat]. *)

From stdpp Require Import base list strings sets.
From Stdlib Require Import ZArith Lia.
From S2P Require Import Prelude RustStr.

Open Scope Z_scope.

Definition SALT_LENGTH : nat := 8.

Inductive SalamanderError := SalamanderTruncated.

(** The hash with a 32-byte output, on the concatenation of what it was fed. *)
Class Blake2b := {
  blake2b_256 : list Z → list Z;
  blake2b_256_length : ∀ x, length (blake2b_256 x) = 32%nat;
}.

(** [RecvMeta]: the fields the code reads, and the others, which it carries. *)
Record RecvMeta {A : Type} := { rm_len : nat; rm_stride : nat; rm_rest : A }.
Arguments RecvMeta : clear implicits.

(** [Transmit]: what the code changes, and the destination, the congestion mark and the
    source address, which it carries. *)
Record Transmit {A : Type} := { tx_contents : list Z; tx_segment_size : option nat; tx_rest : A }.
Arguments Transmit : clear implicits.

Inductive IoError := InvalidInput | OtherIo.

(** [buf[at..at+data.len()].copy_from_slice(data)], for a range inside [buf]. *)
Definition write_at (buf : list Z) (at_ : nat) (data : list Z) : list Z :=
  take at_ buf ++ data ++ drop (at_ + length data) buf.

Definition slice (buf : list Z) (start stop : nat) : list Z := take (stop - start) (drop start buf).

(** [buf[start..stop]], and [buf.copy_within(range, at)] with the range's data: [None] is
    the panic on a range that is not one of the buffer. *)
Definition get_range (buf : list Z) (start stop : nat) : option (list Z) :=
  if (start <=? stop)%nat && (stop <=? length buf)%nat then Some (slice buf start stop) else None.

Definition copy_to (buf : list Z) (at_ : nat) (data : list Z) : option (list Z) :=
  if (at_ + length data <=? length buf)%nat then Some (write_at buf at_ data) else None.

(** [a - b] of machine integers, whose result must not be negative. *)
Definition checked_sub (a b : nat) : option nat := if (b <=? a)%nat then Some (a - b)%nat else None.

Section salamander.
Context `{Blake2b}.

Definition derive_key (password salt : list Z) : list Z := blake2b_256 (password ++ salt).

Definition apply_keystream (password salt payload : list Z) : list Z :=
  let key := derive_key password salt in
  imap (fun index byte => Z.lxor byte (safe_get key (index mod length key)%nat)) payload.

Definition encrypt (password salt payload : list Z) : list Z :=
  salt ++ apply_keystream password salt payload.

Definition decrypt (password packet : list Z) : result SalamanderError (list Z) :=
  if (length packet <=? SALT_LENGTH)%nat then Err SalamanderTruncated
  else Ok (apply_keystream password (take SALT_LENGTH packet) (drop SALT_LENGTH packet)).

(** [SalamanderSocket::encrypt_transmit].  [fill n] is what the random generator
    answers to a request for [n] bytes. *)
Definition encrypt_transmit (fill : nat → result IoError (list Z)) (password contents : list Z)
    (segment_size : option nat) : result IoError (list Z * option nat) :=
  let source_segment_size := default (length contents) segment_size in
  if (source_segment_size =? 0)%nat then Err InvalidInput
  else
    let segments := chunks source_segment_size contents in
    let segment_count := Z.to_nat (div_ceil (len contents) (Z.of_nat source_segment_size)) in
    salts ← fill (segment_count * SALT_LENGTH)%nat;
    let encrypted :=
      concat (imap (fun index segment =>
        encrypt password (slice salts (index * SALT_LENGTH) ((index + 1) * SALT_LENGTH)) segment)
        segments) in
    Ok (encrypted, (fun size => size + SALT_LENGTH)%nat <$> segment_size).

(** [SalamanderSocket::try_send], over the inner socket's. *)
Definition try_send {A} (fill : nat → result IoError (list Z)) (inner : Transmit A → result IoError unit)
    (password : list Z) (transmit : Transmit A) : result IoError unit :=
  '(contents, segment_size) ← encrypt_transmit fill password (tx_contents transmit) (tx_segment_size transmit);
  inner {| tx_contents := contents; tx_segment_size := segment_size; tx_rest := tx_rest transmit |}.

(** [(0..len).step_by(stride)]. *)
Definition starts (len stride : nat) : list nat :=
  (fun k => k * stride)%nat <$> seq 0 (Z.to_nat (div_ceil (Z.of_nat len) (Z.of_nat stride))).

(** One segment of a received buffer: decode it in place and move it down to
    [plain_length]; [None] is a panic. *)
Definition decode_segment (password : list Z) (total stride : nat)
    (st : list Z * nat) (start : nat) : option (list Z * nat) :=
  let '(buf, plain_length) := st in
  let stop := Nat.min (start + stride) total in
  salt ← get_range buf start (start + SALT_LENGTH);
  let payload_start := (start + SALT_LENGTH)%nat in
  payload ← get_range buf payload_start stop;
  let buf := write_at buf payload_start (apply_keystream password salt payload) in
  payload ← get_range buf payload_start stop;
  buf ← copy_to buf plain_length payload;
  plain ← checked_sub stop payload_start;
  Some (buf, plain_length + plain)%nat.

Definition decode_segments (password : list Z) (total stride : nat) (segments : list nat) (st : list Z * nat)
    : option (list Z * nat) :=
  fold_left (fun st start => st ← st; decode_segment password total stride st start) segments (Some st).

(** [(0..len).step_by(stride)], which panics on a step of zero. *)
Definition step_by (len stride : nat) : option (list nat) :=
  if (stride =? 0)%nat then None else Some (starts len stride).

Section batch.
Context {A : Type}.

Definition source_stride (m : RecvMeta A) : nat :=
  if (rm_stride m =? 0)%nat then rm_len m else rm_stride m.

(** Is the packet one the loop decodes? *)
Definition acceptable (buf : list Z) (m : RecvMeta A) : option bool :=
  let stride := source_stride m in
  if (stride <=? SALT_LENGTH)%nat || (length buf <? rm_len m)%nat then Some false
  else
    segments ← step_by (rm_len m) stride;
    Some (negb (existsb (fun start => (Nat.min (start + stride) (rm_len m) - start <=? SALT_LENGTH)%nat) segments)).

(** One iteration of [decrypt_receive_batch]; [None] is a panic on an index out
    of range. *)
Definition receive_step (password : list Z) (index : nat)
    (st : list (list Z) * list (RecvMeta A) * nat)
    : option (list (list Z) * list (RecvMeta A) * nat) :=
  let '(bufs, meta, target) := st in
  source_meta ← meta !! index;
  buf ← bufs !! index;
  accepted ← acceptable buf source_meta;
  if negb accepted then Some st
  else
    let stride := source_stride source_meta in
    segments ← step_by (rm_len source_meta) stride;
    '(buf, plain_length) ← decode_segments password (rm_len source_meta) stride segments (buf, 0%nat);
    let bufs := <[index := buf]> bufs in
    plain_stride ← checked_sub stride SALT_LENGTH;
    let plain_meta := {| rm_len := plain_length; rm_stride := plain_stride; rm_rest := rm_rest source_meta |} in
    bufs ← (if (target =? index)%nat then Some bufs
            else target_buf ← take index bufs !! target;
                 plain ← get_range buf 0 plain_length;
                 target_buf ← copy_to target_buf 0 plain;
                 Some (<[target := target_buf]> bufs));
    if (length meta <=? target)%nat then None
    else Some (bufs, <[target := plain_meta]> meta, S target).

(** [SalamanderSocket::decrypt_receive_batch]: the buffers, the metadata and the
    number of decoded packets. *)
Definition decrypt_receive_batch (password : list Z) (count : nat)
    (bufs : list (list Z)) (meta : list (RecvMeta A))
    : option (list (list Z) * list (RecvMeta A) * nat) :=
  foldl (fun st index => st ← st; receive_step password index st)
        (Some (bufs, meta, 0%nat)) (seq 0 count).

(** What the inner socket answers to one [poll_recv]. *)
Inductive Poll :=
| Pending
| ReadyErr (e : IoError)
| ReadyOk (count : nat) (bufs : list (list Z)) (meta : list (RecvMeta A)).

(** [SalamanderSocket::poll_recv], run on the successive answers of the inner
    socket; the loop ends at the latest when an answer is [Pending], which is
    also what the end of the list stands for. *)
Fixpoint poll_recv (password : list Z) (inner : list Poll) : option Poll :=
  match inner with
  | [] => Some Pending
  | Pending :: _ => Some Pending
  | ReadyErr e :: _ => Some (ReadyErr e)
  | ReadyOk count bufs meta :: inner =>
      '(bufs, meta, decoded) ← decrypt_receive_batch password count bufs meta;
      if (0 <? decoded)%nat then Some (ReadyOk decoded bufs meta)
      else poll_recv password inner
  end.
End batch.
End salamander.

(** ** Buffers *)

Lemma write_at_length a n d : (n + length d ≤ length a)%nat → length (write_at a n d) = length a.
Proof. intros Hn. unfold write_at. rewrite !length_app, length_take, length_drop. lia. Qed.

Lemma write_at_app a b n d :
  (n + length d ≤ length a)%nat → write_at (a ++ b) n d = write_at a n d ++ b.
Proof.
  intros Hn. unfold write_at. rewrite take_app_le by lia. rewrite drop_app_le by lia.
  by rewrite <- !app_assoc.
Qed.

Lemma take_write_at a n d :
  (n + length d ≤ length a)%nat → take (n + length d) (write_at a n d) = take n a ++ d.
Proof.
  intros Hn. unfold write_at. rewrite app_assoc. apply take_app_length'.
  rewrite length_app, length_take. lia.
Qed.

Lemma write_at_mid a b c d : length d = length b → write_at (a ++ b ++ c) (length a) d = a ++ d ++ c.
Proof.
  intros Hd. unfold write_at. rewrite take_app_length. do 2 f_equal.
  rewrite Hd, <- length_app, app_assoc. apply drop_app_length.
Qed.

Lemma slice_mid a b c : slice (a ++ b ++ c) (length a) (length a + length b) = b.
Proof.
  unfold slice. rewrite drop_app_length.
  replace (length a + length b - length a)%nat with (length b) by lia. apply take_app_length.
Qed.

Lemma get_range_mid a b c : get_range (a ++ b ++ c) (length a) (length a + length b) = Some b.
Proof.
  unfold get_range. rewrite slice_mid, !length_app, (proj2 (Nat.leb_le _ _)) by lia.
  by rewrite (proj2 (Nat.leb_le _ _)) by lia.
Qed.

Lemma copy_to_Some buf n data : (n + length data ≤ length buf)%nat → copy_to buf n data = Some (write_at buf n data).
Proof. intros Hn. unfold copy_to. by rewrite (proj2 (Nat.leb_le _ _)) by lia. Qed.

Lemma checked_sub_Some a b : (b ≤ a)%nat → checked_sub a b = Some (a - b)%nat.
Proof. intros Hn. unfold checked_sub. by rewrite (proj2 (Nat.leb_le _ _)) by lia. Qed.

Lemma starts_0 stride : starts 0 stride = [].
Proof.
  unfold starts, div_ceil. destruct stride; [done|]. rewrite Z.div_small by lia. done.
Qed.

Lemma starts_S len stride :
  (0 < stride)%nat → (0 < len)%nat →
  starts len stride = 0%nat :: ((fun s => stride + s)%nat <$> starts (len - stride) stride).
Proof.
  intros Hs Hl. unfold starts.
  assert (Hd : Z.to_nat (div_ceil (Z.of_nat len) (Z.of_nat stride))
    = S (Z.to_nat (div_ceil (Z.of_nat (len - stride)) (Z.of_nat stride)))).
  { unfold div_ceil. destruct (decide (len ≤ stride)%nat).
    - replace (len - stride)%nat with 0%nat by lia. rewrite (Z.div_small (Z.of_nat 0 + _ - 1)) by lia.
      rewrite <- (Z.div_unique (Z.of_nat len + Z.of_nat stride - 1) (Z.of_nat stride) 1 (Z.of_nat len - 1)); lia.
    - replace (Z.of_nat len + Z.of_nat stride - 1)
        with (Z.of_nat (len - stride) + Z.of_nat stride - 1 + 1 * Z.of_nat stride) by lia.
      rewrite Z.div_add by lia.
      assert (0 ≤ (Z.of_nat (len - stride) + Z.of_nat stride - 1) / Z.of_nat stride)
        by (apply Z.div_pos; lia). lia. }
  rewrite Hd. cbn [seq]. rewrite fmap_cons. f_equal. rewrite <- list_fmap_compose.
  rewrite <- fmap_S_seq, <- list_fmap_compose.
  apply list_fmap_ext. intros i x _. cbn. lia.
Qed.

(** ** The cipher *)

Section cipher.
Context `{Blake2b}.

Lemma apply_keystream_length pw salt l : length (apply_keystream pw salt l) = length l.
Proof. unfold apply_keystream. by rewrite length_imap. Qed.

Lemma apply_keystream_involutive pw salt l :
  apply_keystream pw salt (apply_keystream pw salt l) = l.
Proof.
  unfold apply_keystream. apply list_eq. intros i. rewrite !list_lookup_imap.
  destruct (l !! i) as [b|]; [|done]. cbn. f_equal.
  by rewrite Z.lxor_assoc, Z.lxor_nilpotent, Z.lxor_0_r.
Qed.

(** What the receiver makes of one whole segment. *)
Definition open_segment (pw c : list Z) : list Z :=
  apply_keystream pw (take SALT_LENGTH c) (drop SALT_LENGTH c).

Lemma open_encrypt pw salt l :
  length salt = SALT_LENGTH → open_segment pw (encrypt pw salt l) = l.
Proof.
  intros Hs. unfold open_segment, encrypt. rewrite <- Hs, take_app_length, drop_app_length.
  apply apply_keystream_involutive.
Qed.

Lemma encrypt_length pw salt l : length (encrypt pw salt l) = (length salt + length l)%nat.
Proof. unfold encrypt. by rewrite length_app, apply_keystream_length. Qed.

(** Decrypting a packet encrypted under the same password and any
    8-byte salt gives the payload back, at a cost of 8 bytes; a packet with an
    empty payload, like any packet of at most 8 bytes, is refused. *)
Theorem salamander_roundtrip pw salt l :
  length salt = SALT_LENGTH →
  length (encrypt pw salt l) = (SALT_LENGTH + length l)%nat ∧
  decrypt pw (encrypt pw salt l) = (if is_nil l then Err SalamanderTruncated else Ok l).
Proof.
  intros Hs. split; [by rewrite encrypt_length, Hs|]. unfold decrypt.
  rewrite encrypt_length, Hs. destruct l as [|b l].
  - cbn [length is_nil]. by rewrite Nat.add_0_r, Nat.leb_refl.
  - cbn [length is_nil]. rewrite (proj2 (Nat.leb_gt _ _)) by lia. f_equal.
    by apply open_encrypt.
Qed.

(** ** Receiving *)

(** One segment, with the segments before it in [done] already reduced to their
    first [p] bytes. *)
Lemma decode_segment_spec pw stride done seg rest p total :
  (SALT_LENGTH < length seg ≤ stride)%nat → (p ≤ length done)%nat →
  Nat.min (length done + stride) total = (length done + length seg)%nat →
  ∃ done', decode_segment pw total stride (done ++ seg ++ rest, p) (length done)
             = Some (done' ++ rest, p + length (open_segment pw seg))%nat ∧
           length done' = (length done + length seg)%nat ∧
           take (p + length (open_segment pw seg)) done' = take p done ++ open_segment pw seg.
Proof.
  intros Hseg Hp Hstop. unfold decode_segment. rewrite Hstop.
  destruct (decide (seg = [])) as [->|_]; [simpl in Hseg; lia|].
  set (salt := take SALT_LENGTH seg). set (body := drop SALT_LENGTH seg).
  assert (Hsp : seg = salt ++ body) by (symmetry; apply take_drop).
  assert (Hsl : length salt = SALT_LENGTH) by (unfold salt; rewrite length_take; lia).
  assert (Hseglen : length seg = (SALT_LENGTH + length body)%nat) by (rewrite Hsp, length_app; lia).
  assert (Hopen : open_segment pw seg = apply_keystream pw salt body) by done.
  rewrite Hopen, apply_keystream_length, Hseglen, Hsp, <- !app_assoc.
  rewrite <- Hsl, get_range_mid. cbn [mbind option_bind]. rewrite (app_assoc done salt), <- !length_app.
  replace (length (done ++ salt ++ body)) with (length (done ++ salt) + length body)%nat
    by (rewrite !length_app; lia).
  rewrite get_range_mid. cbn [mbind option_bind]. rewrite write_at_mid by apply apply_keystream_length.
  set (x := apply_keystream pw salt body).
  assert (Hx : length x = length body) by apply apply_keystream_length.
  rewrite <- Hx, get_range_mid. cbn [mbind option_bind]. rewrite checked_sub_Some by lia.
  replace (length (done ++ salt) + length x - length (done ++ salt))%nat with (length x) by lia.
  exists (write_at ((done ++ salt) ++ x) p x).
  assert (Hfit : (p + length x ≤ length ((done ++ salt) ++ x))%nat)
    by (rewrite !length_app; lia).
  rewrite (app_assoc (done ++ salt) x rest), copy_to_Some by (rewrite !length_app in *; lia).
  rewrite write_at_app, write_at_length, take_write_at by done.
  split_and!; [done|rewrite !length_app; lia|]. by rewrite <- app_assoc, take_app_le.
Qed.

Lemma starts_chunks stride (l : list Z) :
  (0 < stride)%nat →
  (fun start => Nat.min (start + stride) (length l) - start)%nat <$> starts (length l) stride
    = length <$> chunks stride l.
Proof.
  intros Hs. revert l. apply (chunks_ind _ stride Hs); [by rewrite starts_0|]. intros l Hl IH.
  assert (0 < length l)%nat by (destruct l; simpl; [done|lia]).
  rewrite starts_S, chunks_unfold, !fmap_cons by done. f_equal; [rewrite length_take; lia|].
  rewrite <- IH, length_drop, <- list_fmap_compose. apply list_fmap_ext. intros i s _. cbn. lia.
Qed.

(** All the segments of a buffer, decoded in place from [done] on. *)
Lemma decode_loop pw stride todo :
  (SALT_LENGTH < stride)%nat → ∀ done rest p,
  Forall (fun c => SALT_LENGTH < length c)%nat (chunks stride todo) → (p ≤ length done)%nat →
  let out := concat (open_segment pw <$> chunks stride todo) in
  ∃ done', decode_segments pw (length done + length todo) stride
             ((fun s => length done + s)%nat <$> starts (length todo) stride) (done ++ todo ++ rest, p)
             = Some (done' ++ rest, p + length out)%nat ∧
           length done' = (length done + length todo)%nat ∧
           take (p + length out) done' = take p done ++ out.
Proof.
  intros Hs. assert (Hs0 : (0 < stride)%nat) by lia.
  pattern todo. apply (chunks_ind _ stride Hs0); clear todo; cbv beta.
  - intros done rest p _ Hp. cbn [length]. rewrite starts_0. exists done. cbn.
    rewrite !Nat.add_0_r, app_nil_r. done.
  - intros todo Hne IH done rest p Hall Hp out. unfold out.
    assert (0 < length todo)%nat by (destruct todo; simpl; [done|lia]).
    rewrite chunks_unfold in Hall |- * by done. inversion_clear Hall as [|? ? Hseg Hall'].
    rewrite starts_S, fmap_cons by done. unfold decode_segments in *. cbn [fold_left fmap list_fmap concat mbind option_bind].
    rewrite Nat.add_0_r.
    set (seg := take stride todo) in *. set (todo' := drop stride todo) in *.
    assert (Hbuf : done ++ todo ++ rest = done ++ seg ++ todo' ++ rest)
      by (unfold seg, todo'; by rewrite (app_assoc (take _ _)), take_drop).
    assert (Hsl : length seg = Nat.min stride (length todo)) by apply length_take.
    assert (Htl : length todo' = (length todo - stride)%nat) by apply length_drop.
    destruct (decode_segment_spec pw stride done seg (todo' ++ rest) p (length done + length todo))
      as (done1 & E1 & L1 & T1); [lia|done|lia|].
    rewrite Hbuf, E1.
    destruct (IH done1 rest (p + length (open_segment pw seg))%nat) as (done' & E & L & T); [done| |].
    { rewrite L1. unfold open_segment. rewrite apply_keystream_length, length_drop. lia. }
    exists done'. rewrite length_app, Nat.add_assoc. split_and!.
    + rewrite <- E, L1. rewrite Htl.
      destruct (decide (length todo ≤ stride)%nat) as [Hle|Hgt].
      * replace (length todo - stride)%nat with 0%nat by lia. rewrite starts_0. done.
      * replace (length done + length seg + (length todo - stride))%nat
          with (length done + length todo)%nat by lia.
        f_equal. rewrite <- list_fmap_compose. apply list_fmap_ext. intros i s _. cbn. lia.
    + rewrite L, L1. lia.
    + rewrite T, T1, <- app_assoc. done.
Qed.

Section packets.
Context {A : Type}.

(** The packet a receiver gets out of a buffer and its metadata: every segment of it
    decrypted on its own, if it has a stride beyond the salt and each of them can be. *)
Definition decode_packet (pw : list Z) (bm : list Z * RecvMeta A) : option (list Z * RecvMeta A) :=
  let '(buf, m) := bm in
  let stride := source_stride m in
  if (SALT_LENGTH <? stride)%nat && (rm_len m <=? length buf)%nat then
    segments ← mapM (fun c => match decrypt pw c with Ok p => Some p | Err _ => None end) (chunks stride (take (rm_len m) buf));
    let out := concat segments in
    Some (out, {| rm_len := length out; rm_stride := stride - SALT_LENGTH; rm_rest := rm_rest m |})
  else None.

(** Segments decrypt if each is longer than a salt. *)
Lemma decrypt_segments pw cs :
  (Forall (fun c => SALT_LENGTH < length c)%nat cs ∧
   mapM (fun c => match decrypt pw c with Ok p => Some p | Err _ => None end) cs = Some (open_segment pw <$> cs)) ∨
  (¬ Forall (fun c => SALT_LENGTH < length c)%nat cs ∧
   mapM (fun c => match decrypt pw c with Ok p => Some p | Err _ => None end) cs = None).
Proof.
  set (f := fun c => match decrypt pw c with Ok p => Some p | Err _ => None end).
  induction cs as [|c cs IH]; [by left|]. cbn [mapM]. rewrite Forall_cons.
  assert (Hc : f c = if (length c <=? SALT_LENGTH)%nat then None else Some (open_segment pw c)) by (unfold f, decrypt; by destruct (length c <=? SALT_LENGTH)%nat).
  rewrite Hc. destruct (Nat.leb_spec (length c) SALT_LENGTH).
  - right. split; [lia|done].
  - destruct IH as [[? ->]|[? ->]]; [left|right]; (split; [naive_solver lia|done]).
Qed.

Lemma decode_packet_Some pw buf (m : RecvMeta A) :
  (SALT_LENGTH < source_stride m)%nat → (rm_len m ≤ length buf)%nat →
  Forall (fun c => SALT_LENGTH < length c)%nat (chunks (source_stride m) (take (rm_len m) buf)) →
  let out := concat (open_segment pw <$> chunks (source_stride m) (take (rm_len m) buf)) in
  decode_packet pw (buf, m)
  = Some (out, {| rm_len := length out; rm_stride := source_stride m - SALT_LENGTH; rm_rest := rm_rest m |}).
Proof.
  intros Hs Hl Hall out. unfold decode_packet. rewrite (proj2 (Nat.ltb_lt _ _)), (proj2 (Nat.leb_le _ _)) by done.
  cbn [andb]. by destruct (decrypt_segments pw (chunks (source_stride m) (take (rm_len m) buf))) as [[_ ->]|[? _]].
Qed.

(** The loop's test never panics, and finds whether the packet can be decoded. *)
Lemma acceptable_spec buf (m : RecvMeta A) pw :
  (acceptable buf m = Some false ∧ decode_packet pw (buf, m) = None) ∨
  (acceptable buf m = Some true ∧ (SALT_LENGTH < source_stride m)%nat ∧ (rm_len m ≤ length buf)%nat ∧
   Forall (fun c => SALT_LENGTH < length c)%nat (chunks (source_stride m) (take (rm_len m) buf))).
Proof.
  unfold acceptable, decode_packet. rewrite (Nat.ltb_antisym (rm_len m)), (Nat.ltb_antisym (source_stride m)).
  destruct (Nat.leb_spec (source_stride m) SALT_LENGTH) as [|Hs]; [by left|].
  destruct (Nat.leb_spec (rm_len m) (length buf)) as [Hl|]; [|by left]. cbn [negb orb andb].
  unfold step_by. destruct (Nat.eqb_spec (source_stride m) 0); [lia|]. cbn [mbind option_bind].
  set (f := fun start => (Nat.min (start + source_stride m) (rm_len m) - start)%nat).
  assert (Hf : ∀ l, existsb (fun s => (f s <=? SALT_LENGTH)%nat) l = false ↔
                    Forall (fun n => SALT_LENGTH < n)%nat (f <$> l)).
  { induction l as [|x l IH]; [by split; [constructor|]|].
    cbn [existsb]. rewrite fmap_cons, orb_false_iff, IH, Nat.leb_gt, Forall_cons. done. }
  change (existsb _ (starts (rm_len m) (source_stride m))) with
    (existsb (fun s => (f s <=? SALT_LENGTH)%nat) (starts (rm_len m) (source_stride m))).
  pose proof (Hf (starts (rm_len m) (source_stride m))) as Hfm.
  pose proof (starts_chunks (source_stride m) (take (rm_len m) buf) ltac:(lia)) as Hc.
  rewrite length_take, Nat.min_l in Hc by lia. fold f in Hc. rewrite Hc, Forall_fmap in Hfm.
  destruct (decrypt_segments pw (chunks (source_stride m) (take (rm_len m) buf))) as [[Hall ->]|[Hall ->]].
  - right. by rewrite (proj2 Hfm Hall).
  - left. split; [|done]. destruct (existsb _ _); [done|]. by destruct Hall, Hfm; auto.
Qed.

Lemma decode_in_place pw buf (m : RecvMeta A) :
  (SALT_LENGTH < source_stride m)%nat → (rm_len m ≤ length buf)%nat →
  Forall (fun c => SALT_LENGTH < length c)%nat (chunks (source_stride m) (take (rm_len m) buf)) →
  let out := concat (open_segment pw <$> chunks (source_stride m) (take (rm_len m) buf)) in
  ∃ buf', decode_segments pw (rm_len m) (source_stride m) (starts (rm_len m) (source_stride m)) (buf, 0%nat)
          = Some (buf', length out) ∧
          length buf' = length buf ∧ take (length out) buf' = out ∧ (length out ≤ length buf)%nat.
Proof.
  intros Hs Hl Hall.
  destruct (decode_loop pw (source_stride m) (take (rm_len m) buf) Hs [] (drop (rm_len m) buf) 0)
    as (done' & E & L & T); [done|done|].
  cbn [app length Nat.add take] in E, L, T.
  rewrite take_drop, length_take, Nat.min_l in E by done.
  rewrite length_take, Nat.min_l in L by done.
  assert (Hid : (fun s : nat => s) <$> starts (rm_len m) (source_stride m)
                = starts (rm_len m) (source_stride m)) by apply list_fmap_id.
  rewrite Hid in E. set (out := concat _) in *. intros out'. unfold out'.
  assert (Hout : (length out ≤ length done')%nat).
  { rewrite <- T at 1. rewrite length_take. lia. }
  eexists. split; [exact E|]. rewrite length_app, length_drop, L. split_and!; [lia| |lia].
  by rewrite take_app_le.
Qed.

(** The state of the loop after [i] packets: the decoded ones are at the front,
    those not yet looked at are as they were. *)
Definition batch_state (pw : list Z) (N : nat) (bufs : list (list Z)) (meta : list (RecvMeta A))
    (i : nat) (st : list (list Z) * list (RecvMeta A) * nat) : Prop :=
  let '(bufs', meta', target) := st in
  let packets := omap (decode_packet pw) (take i (zip bufs meta)) in
  length bufs' = length bufs ∧ length meta' = length meta ∧
  Forall (fun b => length b = N) bufs' ∧
  (∀ k, (i ≤ k)%nat → bufs' !! k = bufs !! k ∧ meta' !! k = meta !! k) ∧
  target = length packets ∧ (target ≤ i)%nat ∧
  ∀ j data m, packets !! j = Some (data, m) →
    meta' !! j = Some m ∧ ∃ b, bufs' !! j = Some b ∧ take (rm_len m) b = data.

Lemma take_zip_S (bufs : list (list Z)) (meta : list (RecvMeta A)) i b m :
  bufs !! i = Some b → meta !! i = Some m →
  take (S i) (zip bufs meta) = take i (zip bufs meta) ++ [(b, m)].
Proof. intros Hb Hm. apply take_S_r. by rewrite lookup_zip_Some. Qed.

(** Moving a decoded packet of buffer [i] down to slot [t]. *)
Lemma place_packet (N i t : nat) (bufs : list (list Z)) buf' out :
  Forall (fun b => length b = N) bufs → (i < length bufs)%nat → (t ≤ i)%nat →
  length buf' = N → take (length out) buf' = out → (length out ≤ N)%nat →
  ∃ bufs', (if (t =? i)%nat then Some (<[i := buf']> bufs)
            else target_buf ← take i (<[i := buf']> bufs) !! t;
                 plain ← get_range buf' 0 (length out);
                 target_buf ← copy_to target_buf 0 plain;
                 Some (<[t := target_buf]> (<[i := buf']> bufs)))
             = Some bufs' ∧
    length bufs' = length bufs ∧ Forall (fun b => length b = N) bufs' ∧
    (∀ k, k ≠ i → k ≠ t → bufs' !! k = bufs !! k) ∧
    ∃ b, bufs' !! t = Some b ∧ take (length out) b = out.
Proof.
  intros HN Hi Hti Hl Hout Hle. destruct (Nat.eqb_spec t i) as [->|Hne].
  - eexists. split; [done|]. rewrite length_insert. split_and!; [done|by apply Forall_insert| |].
    + intros k Hk _. by rewrite list_lookup_insert_ne.
    + exists buf'. by rewrite list_lookup_insert_eq.
  - rewrite lookup_take_lt, list_lookup_insert_ne by lia.
    destruct (lookup_lt_is_Some_2 bufs t ltac:(lia)) as [tb Htb]. rewrite Htb. cbn [mbind option_bind].
    assert (Htl : length tb = N) by (by eapply (Forall_lookup_1 _ _ _ _ HN)).
    assert (Hr : get_range buf' 0 (length out) = Some out).
    { unfold get_range, slice. rewrite (proj2 (Nat.leb_le _ _)), (proj2 (Nat.leb_le _ _)) by lia.
      by rewrite Nat.sub_0_r, drop_0, Hout. }
    rewrite Hr. cbn [mbind option_bind]. rewrite copy_to_Some by lia. eexists. split; [done|].
    rewrite !length_insert. split_and!; [done| | |].
    + apply Forall_insert; [by apply Forall_insert|]. rewrite write_at_length; [done|]. lia.
    + intros k Hk Hk'. by rewrite !list_lookup_insert_ne.
    + eexists. rewrite list_lookup_insert_eq by (rewrite length_insert; lia). split; [done|].
      apply (take_write_at tb 0 out). lia.
Qed.

Lemma receive_step_ok pw N bufs meta i st :
  Forall (fun b => length b = N) bufs → (i < length bufs)%nat → (i < length meta)%nat →
  batch_state pw N bufs meta i st →
  ∃ st', receive_step pw i st = Some st' ∧ batch_state pw N bufs meta (S i) st'.
Proof.
  intros HN Hi Hi'. destruct st as [[bufs' meta'] target].
  intros (Lb & Lm & HN' & Hrest & Ht & Hti & Hpk).
  destruct (lookup_lt_is_Some_2 bufs i Hi) as [b Hb].
  destruct (lookup_lt_is_Some_2 meta i Hi') as [m Hm].
  destruct (Hrest i ltac:(lia)) as [Hb' Hm']. unfold receive_step.
  rewrite Hm', Hm. cbn [mbind option_bind]. rewrite Hb', Hb. cbn [mbind option_bind].
  unfold batch_state. rewrite (take_zip_S _ _ _ _ _ Hb Hm), omap_app.
  assert (Hdec : omap (decode_packet pw) [(b, m)] = option_list (decode_packet pw (b, m))) by (cbn; by case_match).
  rewrite Hdec. clear Hdec.
  destruct (acceptable_spec b m pw) as [[-> Edec]|(-> & Hs & Hl & Hall)]; cbn [mbind option_bind negb].
  { rewrite Edec. eexists. split; [done|]. cbn [option_list].
    rewrite app_nil_r. split_and!; try done; [|lia]. intros k Hk. apply Hrest. lia. }
  assert (Hbl : length b = N) by (by eapply (Forall_lookup_1 _ _ _ _ HN)).
  rewrite decode_packet_Some by done.
  unfold step_by. destruct (Nat.eqb_spec (source_stride m) 0); [lia|]. cbn [mbind option_bind].
  destruct (decode_in_place pw b m Hs Hl Hall) as (buf' & -> & Hlb & Hout & Hle). cbn [mbind option_bind].
  set (out := concat _) in *. rewrite checked_sub_Some by lia. cbn [mbind option_bind].
  destruct (place_packet N i target bufs' buf' out) as (bufs2 & -> & L2 & HN2 & Hfr & b2 & Hb2 & Hb2o);
    [done|lia|done|lia|done|lia|].
  cbn [mbind option_bind]. rewrite (proj2 (Nat.leb_gt _ _)) by lia. eexists. split; [done|].
  cbn [option_list option_rect]. rewrite length_app, length_insert, <- Ht.
  cbn [length]. split_and!; [lia|done|done| |lia|lia|].
  - intros k Hk. rewrite list_lookup_insert_ne, Hfr by lia. apply Hrest. lia.
  - intros j data mj Hj. destruct (decide (j = target)) as [->|Hne].
    + rewrite lookup_app_r, <- Ht, Nat.sub_diag in Hj by lia. injection Hj as <- <-.
      rewrite list_lookup_insert_eq by lia. split; [done|]. by exists b2.
    + assert (j < target)%nat.
      { apply lookup_lt_Some in Hj. rewrite length_app in Hj. simpl in Hj. lia. }
      rewrite lookup_app_l in Hj by lia. rewrite list_lookup_insert_ne, Hfr by lia. by apply Hpk.
Qed.

Lemma batch_loop pw N bufs meta count :
  Forall (fun b => length b = N) bufs →
  (count ≤ length bufs)%nat → (count ≤ length meta)%nat →
  ∃ st, decrypt_receive_batch pw count bufs meta = Some st ∧ batch_state pw N bufs meta count st.
Proof.
  intros HN Hb Hm. unfold decrypt_receive_batch. induction count as [|count IH].
  - eexists. split; [done|]. split_and!; try done.
  - destruct IH as (st & E & Hst); [lia..|]. rewrite seq_S, foldl_snoc, E.
    cbn [mbind option_bind Nat.add]. by apply receive_step_ok.
Qed.

(** Claim C34. Decoding a batch in place, compacting it as it goes, is decoding
    every packet on its own and keeping the acceptable ones in order: no index is
    out of range (the buffers have one size, as the caller allocates them), the
    count returned is the number of acceptable packets, and slot [j] holds the
    plaintext and the metadata of the [j]-th of them. *)
Theorem decrypt_receive_batch_refines pw N bufs meta count :
  Forall (fun b => length b = N) bufs →
  (count ≤ length bufs)%nat → (count ≤ length meta)%nat →
  let packets := omap (decode_packet pw) (take count (zip bufs meta)) in
  ∃ bufs' meta', decrypt_receive_batch pw count bufs meta = Some (bufs', meta', length packets) ∧
    ∀ j data m, packets !! j = Some (data, m) →
      meta' !! j = Some m ∧ ∃ b, bufs' !! j = Some b ∧ take (rm_len m) b = data.
Proof.
  intros HN Hb Hm packets.
  destruct (batch_loop pw N bufs meta count HN Hb Hm)
    as ([[bufs' meta'] t] & E & _ & _ & _ & _ & -> & _ & Hpk).
  exists bufs', meta'. by split.
Qed.
End packets.

(** ** Sending, then receiving *)

(** Cutting the encrypted segments at the padded size finds them again. *)
Lemma chunks_encrypted pw n contents :
  (0 < n)%nat → ∀ g : nat → list Z, (∀ i, length (g i) = SALT_LENGTH) →
  let enc := imap (fun i seg => encrypt pw (g i) seg) (chunks n contents) in
  chunks (n + SALT_LENGTH) (concat enc) = enc.
Proof.
  intros Hn. pattern contents. apply (chunks_ind _ n Hn); clear contents; cbv beta; [done|].
  intros c Hc IH g Hg. rewrite chunks_unfold, imap_cons by done. cbn [concat].
  specialize (IH (g ∘ S) ltac:(intros; apply Hg)). cbv zeta in IH.
  set (e0 := encrypt pw (g 0%nat) (take n c)).
  assert (He0 : length e0 = (SALT_LENGTH + Nat.min n (length c))%nat)
    by (unfold e0; by rewrite encrypt_length, Hg, length_take).
  assert (Hne : e0 ≠ []) by (intros E; rewrite E in He0; done).
  destruct (decide (length c ≤ n)%nat) as [Hle|Hgt].
  - rewrite drop_ge by done. cbn. rewrite app_nil_r. apply chunks_single; [done|lia].
  - assert (He : length e0 = (n + SALT_LENGTH)%nat) by lia.
    rewrite chunks_unfold by (by try lia; destruct e0).
    rewrite <- He, take_app_length, drop_app_length, He. f_equal. exact IH.
Qed.

Lemma slice_length l a b : (b ≤ length l)%nat → length (slice l a b) = (b - a)%nat.
Proof. intros. unfold slice. rewrite length_take, length_drop. lia. Qed.

(** Consecutive slices of eight bytes are the whole. *)
Lemma concat_salts {B} (segments : list B) salts :
  length salts = (length segments * SALT_LENGTH)%nat →
  concat (imap (fun i _ => slice salts (i * SALT_LENGTH) ((i + 1) * SALT_LENGTH)) segments) = salts.
Proof.
  revert salts. induction segments as [|x segments IH]; intros salts Hl; [by apply nil_length_inv in Hl as ->|].
  rewrite imap_cons. cbn [concat length] in *. etrans; [|exact (take_drop SALT_LENGTH salts)]. f_equal.
  rewrite <- (IH (drop SALT_LENGTH salts)) by (rewrite length_drop; lia). f_equal. apply imap_ext. intros i y _.
    unfold slice, compose. rewrite drop_drop. repeat f_equal; lia.
Qed.

(** What a send is made of: as many salts as there are chunks, or the generator's
    failure, and one encrypted segment per chunk. *)
Lemma encrypt_transmit_cases fill pw contents seg :
  (∀ n l, fill n = Ok l → length l = n) →
  let n := default (length contents) seg in
  (n = 0%nat ∧ encrypt_transmit fill pw contents seg = Err InvalidInput) ∨
  (0 < n)%nat ∧
  match fill (length (chunks n contents) * SALT_LENGTH)%nat with
  | Err e => encrypt_transmit fill pw contents seg = Err e
  | Ok salts => ∃ g : nat → list Z, (∀ i, length (g i) = SALT_LENGTH) ∧
      concat (imap (fun i _ => g i) (chunks n contents)) = salts ∧
      encrypt_transmit fill pw contents seg
      = Ok (concat (imap (fun i s => encrypt pw (g i) s) (chunks n contents)), (fun size => size + SALT_LENGTH)%nat <$> seg)
  end.
Proof.
  intros Hfill n. unfold encrypt_transmit. fold n.
  destruct (Nat.eqb_spec n 0) as [|Hn]; [by left|]. right. split; [lia|].
  rewrite <- (length_chunks n contents) by lia. unfold len. rewrite Nat2Z.id.
  destruct (fill _) as [salts|e] eqn:E; [|done]. apply Hfill in E. cbn [mbind result_bind].
  set (k := length (chunks n contents)) in *.
  exists (fun i => if (i <? k)%nat then slice salts (i * SALT_LENGTH) ((i + 1) * SALT_LENGTH)
                   else replicate SALT_LENGTH 0). split_and!.
  - intros i. destruct (Nat.ltb_spec i k); [|done].
    rewrite slice_length by (rewrite E; apply Nat.mul_le_mono_r; lia). lia.
  - etrans; [|exact (concat_salts (chunks n contents) salts E)]. f_equal. apply imap_ext.
    intros i s Hs%lookup_lt_Some. by rewrite (proj2 (Nat.ltb_lt _ _)).
  - do 3 f_equal. apply imap_ext. intros i s Hs%lookup_lt_Some. by rewrite (proj2 (Nat.ltb_lt _ _)).
Qed.

Lemma open_encrypted pw n contents g :
  (0 < n)%nat → (∀ i, length (g i) = SALT_LENGTH) →
  concat (open_segment pw <$> imap (fun i s => encrypt pw (g i) s) (chunks n contents)) = contents.
Proof.
  intros Hn Hg. rewrite fmap_imap. transitivity (concat (imap (const id) (chunks n contents))).
  - f_equal. apply imap_ext. intros i s _. cbn. by apply open_encrypt.
  - by rewrite imap_const, list_fmap_id, concat_chunks.
Qed.

(** A datagram or a segmented burst sent through the wrapper and
    received into one buffer, whatever follows it there, is decoded to what was
    sent, with the sender's segment size as its stride. *)
Lemma transmit_then_receive {A} pw contents seg (g : nat → list Z) tail (rest : A) :
  let n := default (length contents) seg in
  let enc := concat (imap (fun i s => encrypt pw (g i) s) (chunks n contents)) in
  (0 < n)%nat → (∀ i, length (g i) = SALT_LENGTH) →
  ∃ buf, decrypt_receive_batch pw 1 [enc ++ tail]
           [{| rm_len := length enc; rm_stride := default 0%nat ((fun size => size + SALT_LENGTH)%nat <$> seg); rm_rest := rest |}]
         = Some ([buf], [{| rm_len := length contents; rm_stride := n; rm_rest := rest |}], 1%nat) ∧
         take (length contents) buf = contents.
Proof.
  intros n enc Hn Hg. set (m := {| rm_len := _ |}).
  pose proof (chunks_encrypted pw n contents Hn g Hg) as Hch. cbv zeta in Hch. fold enc in Hch.
  assert (Hlens : Forall (fun c => SALT_LENGTH < length c)%nat (chunks (n + SALT_LENGTH) enc)).
  { rewrite Hch. apply Forall_lookup. intros i c. rewrite list_lookup_imap.
    intros (s & Hs & ->)%fmap_Some. rewrite encrypt_length, Hg.
    apply list_elem_of_lookup_2, chunks_elem in Hs as [? _]; lia. }
  assert (Hstride : source_stride m = (n + SALT_LENGTH)%nat).
  { unfold source_stride, m. destruct seg as [sz|]; cbn [rm_stride rm_len default fmap option_fmap option_map].
    - by destruct sz.
    - cbn. unfold enc, n in *. cbn [default] in *.
      rewrite chunks_single by first [lia|intros E%(f_equal length); cbn in E; lia]. cbn. rewrite app_nil_r, encrypt_length, Hg. lia. }
  assert (Hdec : decode_packet pw (enc ++ tail, m) = Some (contents,
     {| rm_len := length contents; rm_stride := n; rm_rest := rest |})).
  { rewrite decode_packet_Some; rewrite ?Hstride; cbn [rm_len rm_rest m]; rewrite ?take_app_length, ?length_app; try done; try lia.
    by rewrite Hch, open_encrypted, Nat.add_sub by done. }
  destruct (batch_loop pw (length (enc ++ tail)) [enc ++ tail] [m] 1)
    as ([[bufs' meta'] t] & E & Lb & Lm & _ & _ & Ht & _ & Hpk); [by repeat constructor|done|done|].
  change (take 1 (zip [enc ++ tail] [m])) with [(enc ++ tail, m)] in *.
  cbn [omap list_omap] in Ht, Hpk. rewrite Hdec in Ht, Hpk.
  destruct (Hpk 0%nat _ _ eq_refl) as (Hm0 & b & Hb0 & Htk).
  destruct bufs' as [|b0 [|]]; try done. destruct meta' as [|m0 [|]]; try done.
  injection Hm0 as ->. injection Hb0 as ->. exists b. by rewrite E, Ht.
Qed.

(** Claim C31. Sending through the wrapper hands the inner socket one transmit, whatever that socket then answers, or
    fails with nothing sent: exactly if a segment would be empty, the size given being
    zero or no size and no contents, or if the random generator, asked for eight bytes
    for each segment, fails, and then with its error. The transmit has the destination of the original
    and eight bytes more in each of its segments, the generator's bytes in their order;
    and when it is received by the wrapper of a peer with the same password, alone in
    a batch and with any bytes behind it in the buffer, that peer gets the original
    contents with the sender's segment size as their stride. *)
Theorem send_then_receive {A B} fill pw (t : Transmit A) tail (rest : B) :
  (∀ n l, fill n = Ok l → length l = n) →
  let n := default (length (tx_contents t)) (tx_segment_size t) in
  let needed := (length (chunks n (tx_contents t)) * 8)%nat in
  ∃ out,
    (∀ inner, try_send fill inner pw t = (t' ← out; inner t')) ∧
    (n = 0%nat → out = Err InvalidInput) ∧
    (∀ e, n ≠ 0%nat → fill needed = Err e → out = Err e) ∧
    (∀ salts, n ≠ 0%nat → fill needed = Ok salts → ∃ t', out = Ok t' ∧
      tx_rest t' = tx_rest t ∧ tx_segment_size t' = (fun size => size + 8)%nat <$> tx_segment_size t ∧
      concat (take 8 <$> chunks (n + 8) (tx_contents t')) = salts ∧
      ∃ buf,
        poll_recv pw [ReadyOk 1 [tx_contents t' ++ tail]
          [{| rm_len := length (tx_contents t'); rm_stride := default 0%nat (tx_segment_size t'); rm_rest := rest |}]] =
        Some (ReadyOk 1 [buf] [{| rm_len := length (tx_contents t); rm_stride := n; rm_rest := rest |}]) ∧
        take (length (tx_contents t)) buf = tx_contents t).
Proof.
  intros Hfill n needed. destruct t as [contents seg other]. cbn [tx_contents tx_segment_size tx_rest] in *.
  exists (rmap (fun '(enc, seg') => {| tx_contents := enc; tx_segment_size := seg'; tx_rest := other |})
            (encrypt_transmit fill pw contents seg)).
  pose proof (encrypt_transmit_cases fill pw contents seg Hfill) as Hc. cbv zeta in Hc. fold n in Hc.
  change (length (chunks n contents) * SALT_LENGTH)%nat with needed in Hc. split_and!.
  - intros inner. unfold try_send. cbn [tx_contents tx_segment_size tx_rest].
    by destruct (encrypt_transmit fill pw contents seg) as [[enc seg']|e].
  - intros Hn. destruct Hc as [[_ ->]|[? _]]; [done|lia].
  - intros e Hn Hf. destruct Hc as [[? _]|[_ Hc]]; [done|]. rewrite Hf in Hc. by rewrite Hc.
  - intros salts Hn Hf. destruct Hc as [[? _]|[Hpos Hc]]; [done|]. rewrite Hf in Hc. destruct Hc as (g & Hg & Hsalts & ->).
    eexists. split; [done|]. cbn [tx_contents tx_segment_size tx_rest]. split_and!; [done|done| |].
    + change (n + 8)%nat with (n + SALT_LENGTH)%nat. rewrite chunks_encrypted by done. rewrite fmap_imap, <- Hsalts. f_equal.
      apply imap_ext. intros i s _. apply take_app_length'; symmetry; apply Hg.
    + destruct (transmit_then_receive pw contents seg g tail rest Hpos Hg) as (buf & Hd & Hb). fold n in Hd.
      exists buf. split; [|done]. cbn [poll_recv]. by rewrite Hd.
Qed.
End cipher.

(** A concrete function with the hash's interface, to evaluate the theorems on. *)
Definition example_hash (x : list Z) : list Z := take 32 (x ++ replicate 32 7).

Lemma example_hash_length x : length (example_hash x) = 32%nat.
Proof. unfold example_hash. rewrite length_take, length_app, length_replicate. lia. Qed.

Definition example_blake2b : Blake2b :=
  {| blake2b_256 := example_hash; blake2b_256_length := example_hash_length |}.

Lemma salamander_roundtrip_witness :
  length (@encrypt example_blake2b (lit "pw") [1; 2; 3; 4; 5; 6; 7; 8] (lit "HY2 datagram"))
    = (SALT_LENGTH + length (lit "HY2 datagram"))%nat ∧
  @decrypt example_blake2b (lit "pw")
    (@encrypt example_blake2b (lit "pw") [1; 2; 3; 4; 5; 6; 7; 8] (lit "HY2 datagram"))
    = Ok (lit "HY2 datagram").
Proof.
  apply (@salamander_roundtrip example_blake2b (lit "pw") [1; 2; 3; 4; 5; 6; 7; 8] (lit "HY2 datagram")).
  reflexivity.
Defined.

Lemma decrypt_receive_batch_refines_witness :
  let enc s := @encrypt example_blake2b (lit "pw") [1; 2; 3; 4; 5; 6; 7; 8] (lit s) in
  let bufs := [replicate 13 0; enc "other"] in
  let meta := [{| rm_len := 5; rm_stride := 0; rm_rest := tt |};
               {| rm_len := 13; rm_stride := 13; rm_rest := tt |}] in
  ∃ bufs' meta', @decrypt_receive_batch example_blake2b unit (lit "pw") 2 bufs meta = Some (bufs', meta', 1%nat) ∧
    ∀ j data m, [(lit "other", {| rm_len := 5; rm_stride := 5; rm_rest := tt |})] !! j = Some (data, m) →
      meta' !! j = Some m ∧ ∃ b, bufs' !! j = Some b ∧ take (rm_len m) b = data.
Proof.
  intros enc bufs meta.
  apply (@decrypt_receive_batch_refines example_blake2b unit (lit "pw") 13 bufs meta 2);
    [repeat constructor|cbn; lia|cbn; lia].
Defined.

Definition example_burst : list Z :=
  match @encrypt_transmit example_blake2b (fun n => Ok (replicate n 9)) (lit "pw")
          (lit "firstother") (Some 5%nat) with
  | Ok p => p.1
  | Err _ => []
  end.

(** A burst of two segments is sent and received. *)
Definition example_fill (n : nat) : result IoError (list Z) := Ok (replicate n 9).

Lemma send_then_receive_witness :
  ∃ t' buf,
    (∀ inner, @try_send example_blake2b unit example_fill inner (lit "pw")
       {| tx_contents := lit "firstother"; tx_segment_size := Some 5%nat; tx_rest := tt |} = inner t') ∧
    @poll_recv example_blake2b unit (lit "pw") [ReadyOk 1 [tx_contents t' ++ [0; 0]]
      [{| rm_len := length (tx_contents t'); rm_stride := default 0%nat (tx_segment_size t'); rm_rest := tt |}]] =
    Some (ReadyOk 1 [buf] [{| rm_len := 10; rm_stride := 5; rm_rest := tt |}]) ∧
    take 10 buf = lit "firstother".
Proof.
  destruct (@send_then_receive example_blake2b unit unit example_fill (lit "pw")
    {| tx_contents := lit "firstother"; tx_segment_size := Some 5%nat; tx_rest := tt |} [0; 0] tt) as (out & Hout & _ & _ & Hok).
  - intros n l [= <-]. apply length_replicate.
  - destruct (Hok (replicate 16 9) ltac:(done) eq_refl) as (t' & -> & _ & _ & _ & buf & Hr & Hb). exists t', buf. by split_and!.
Defined.
