(* ===== verification/Brutal.v ===== *)
(** * Brutal congestion control ([src/src/brutal.rs])

    The fixed-rate controller: its ring of per-second samples, the loss
    estimate, the cached window; the controller that switches between it and
    quinn's BBR; and the queue that hands each new controller's rate cell to its
    connection.

    [f64] is IEEE binary64, computed with the Standard Library's [SpecFloat]
    (53 bits of precision, round to nearest even).  The rate of a controller is
    an atomic shared with the connection, so every operation takes the value it
    reads from it.  Instants and durations are in nanoseconds. *)

From stdpp Require Import base list gmap.
From Stdlib Require Import ZArith Lia SpecFloat.
From S2P Require Import Prelude.

Open Scope Z_scope.

(** ** Binary64 *)

Definition f64 : Type := spec_float.
Definition f64_of_Z (v : Z) : f64 := binary_normalize 53 1024 v 0 false.
Definition fmul (x y : f64) : f64 := SFmul 53 1024 x y.
Definition fdiv (x y : f64) : f64 := SFdiv 53 1024 x y.
Definition fadd (x y : f64) : f64 := SFadd 53 1024 x y.

(** The double nearest to [0.8]: the correctly rounded quotient of 4 by 5. *)
Definition f64_0_8 : f64 := fdiv (f64_of_Z 4) (f64_of_Z 5).
Definition f64_1 : f64 := f64_of_Z 1.

(** [f64::max], which ignores a NaN. *)
Definition fmax (x y : f64) : f64 :=
  match SFcompare x y with
  | Some Lt => y
  | Some _ => x
  | None => match x with S754_nan => y | _ => x end
  end.

(** [x as u64]: truncation, saturating, 0 for a NaN. *)
Definition f64_to_u64 (x : f64) : Z :=
  match x with
  | S754_zero _ => 0
  | S754_nan => 0
  | S754_infinity s => if s then 0 else U64_MAX
  | S754_finite true _ _ => 0
  | S754_finite false m e => Z.min (Z.shiftl (Zpos m) e) U64_MAX
  end.

(** [Duration::as_secs_f64]. *)
Definition NANOS_PER_SEC : Z := 1000000000.
Definition as_secs_f64 (d : Z) : f64 :=
  fadd (f64_of_Z (d / NANOS_PER_SEC)) (fdiv (f64_of_Z (d mod NANOS_PER_SEC)) (f64_of_Z NANOS_PER_SEC)).

(** ** Constants and state *)

Definition SLOT_COUNT : nat := 5.
Definition MIN_SAMPLE_BYTES : Z := 50 * 1200.
Definition MIN_ACK_RATE : f64 := f64_0_8.
Definition MIN_WINDOW : Z := 10240.
Definition QUINN_PACING_WINDOW_FACTOR : f64 := f64_0_8.

Record SampleSlot := { second : Z; acked_bytes : Z; lost_bytes : Z }.

Record BrutalController := {
  mtu : Z;
  started : Z;
  rtt : Z;
  ack_rate : f64;
  slots : list SampleSlot;
  cached_rate : Z;
  cached_window : Z;
  cached_pacing_rate : Z;
}.

(** The window and the pacing rate for a rate, as [refresh_cache] computes them. *)
Definition computed_window (rate rtt mtu : Z) (ack_rate : f64) : Z :=
  let target :=
    fdiv (fmul (fmul (f64_of_Z rate) (as_secs_f64 rtt)) QUINN_PACING_WINDOW_FACTOR) ack_rate in
  Z.max (Z.max (f64_to_u64 target) MIN_WINDOW) (mtu * 2).

Definition computed_pacing_rate (rate : Z) (ack_rate : f64) : Z :=
  f64_to_u64 (fmul (fdiv (f64_of_Z rate) ack_rate) (f64_of_Z 8)).

(** [BrutalController::refresh_cache]. *)
Definition refresh_cache (rate : Z) (force : bool) (c : BrutalController) : BrutalController :=
  if negb force && (rate =? cached_rate c) then c
  else {| mtu := mtu c; started := started c; rtt := rtt c; ack_rate := ack_rate c;
          slots := slots c; cached_rate := rate;
          cached_window := computed_window rate (rtt c) (mtu c) (ack_rate c);
          cached_pacing_rate := computed_pacing_rate rate (ack_rate c) |}.

Definition empty_slot (s : Z) : SampleSlot := {| second := s; acked_bytes := 0; lost_bytes := 0 |}.

(** [BrutalController::new]. *)
Definition brutal_new (rate mtu now : Z) : BrutalController :=
  refresh_cache rate true
    {| mtu := mtu; started := now; rtt := 100 * 1000000; ack_rate := f64_1;
       slots := replicate SLOT_COUNT (empty_slot U64_MAX);
       cached_rate := U64_MAX; cached_window := MIN_WINDOW; cached_pacing_rate := 0 |}.

(** The parts of [BrutalController::record]: add a sample to the slot of its
    second, sum the slots of the window, estimate the rate of acknowledgement. *)
Definition update_slot (s acked lost : Z) (sl : list SampleSlot) : list SampleSlot :=
  let i := Z.to_nat (s mod Z.of_nat SLOT_COUNT) in
  let slot := default (empty_slot s) (sl !! i) in
  let slot := if second slot =? s then slot else empty_slot s in
  <[i := {| second := second slot; acked_bytes := sat_add (acked_bytes slot) acked;
            lost_bytes := sat_add (lost_bytes slot) lost |}]> sl.

Definition sample_totals (s : Z) (sl : list SampleSlot) : Z * Z :=
  let oldest := sat_sub s (Z.of_nat SLOT_COUNT) in
  fold_left (fun '(acked, lost) sample =>
               (sat_add acked (acked_bytes sample), sat_add lost (lost_bytes sample)))
            (filter (fun sample => oldest ≤ second sample ∧ second sample ≤ s) sl) (0, 0).

Definition estimate_ack_rate (acked lost : Z) : f64 :=
  let total := sat_add acked lost in
  if total <? MIN_SAMPLE_BYTES then f64_1
  else fmax (fdiv (f64_of_Z acked) (f64_of_Z total)) MIN_ACK_RATE.

(** [now.saturating_duration_since(started).as_secs()]. *)
Definition elapsed_secs (c : BrutalController) (now : Z) : Z :=
  Z.max (now - started c) 0 / NANOS_PER_SEC.

Definition record (rate now acked lost : Z) (c : BrutalController) : BrutalController :=
  let s := elapsed_secs c now in
  let sl := update_slot s acked lost (slots c) in
  let '(a, l) := sample_totals s sl in
  refresh_cache rate true
    {| mtu := mtu c; started := started c; rtt := rtt c; ack_rate := estimate_ack_rate a l;
       slots := sl; cached_rate := cached_rate c; cached_window := cached_window c;
       cached_pacing_rate := cached_pacing_rate c |}.

Definition set_rtt (v : Z) (c : BrutalController) : BrutalController :=
  {| mtu := mtu c; started := started c; rtt := v; ack_rate := ack_rate c; slots := slots c;
     cached_rate := cached_rate c; cached_window := cached_window c;
     cached_pacing_rate := cached_pacing_rate c |}.

Definition set_mtu (v : Z) (c : BrutalController) : BrutalController :=
  {| mtu := v; started := started c; rtt := rtt c; ack_rate := ack_rate c; slots := slots c;
     cached_rate := cached_rate c; cached_window := cached_window c;
     cached_pacing_rate := cached_pacing_rate c |}.

(** ** Controllers

    quinn's [Controller] trait, with the methods the program implements or
    forwards.  [rate] is the value of the shared rate cell at the call, which
    only the Brutal side reads; [rtt] is what the estimator answers.  A query
    may refresh a cache, so it returns the controller too. *)

Record Metrics := { congestion_window : Z; pacing_rate : option Z }.

Class Controller (C : Type) := {
  on_sent : Z → Z → Z → Z → C → C;
  on_ack : Z → Z → Z → Z → bool → Z → C → C;
  on_end_acks : Z → Z → Z → bool → option Z → C → C;
  on_congestion_event : Z → Z → Z → bool → Z → C → C;
  on_mtu_update : Z → Z → C → C;
  window : Z → C → Z * C;
  metrics : Z → C → Metrics * C;
  initial_window : Z → C → Z * C;
}.

Definition target_window (rate : Z) (c : BrutalController) : Z * BrutalController :=
  let c := refresh_cache rate false c in (cached_window c, c).

(** The trait's default [on_sent] and [on_end_acks] do nothing. *)
#[export] Instance brutal_controller : Controller BrutalController := {|
  on_sent := fun rate now bytes packet c => c;
  on_ack := fun rate now sent bytes app_limited rtt c => record rate now bytes 0 (set_rtt rtt c);
  on_end_acks := fun rate now in_flight app_limited largest c => c;
  on_congestion_event := fun rate now sent persistent lost c => record rate now 0 lost c;
  on_mtu_update := fun rate new_mtu c => refresh_cache rate true (set_mtu new_mtu c);
  window := target_window;
  metrics := fun rate c =>
    let c := refresh_cache rate false c in
    ({| congestion_window := cached_window c; pacing_rate := Some (cached_pacing_rate c) |}, c);
  initial_window := target_window;
|}.

Record Hy2Controller {B : Type} := { bbr : B; brutal : BrutalController }.
Arguments Hy2Controller : clear implicits.

Definition with_bbr {B} (h : Hy2Controller B) (b : B) : Hy2Controller B :=
  {| bbr := b; brutal := brutal h |}.
Definition with_brutal {B} (h : Hy2Controller B) (c : BrutalController) : Hy2Controller B :=
  {| bbr := bbr h; brutal := c |}.

Definition use_brutal (rate : Z) : bool := 0 <? rate.

(** Send an event to the controller in charge. *)
Definition dispatch {B} (rate : Z) (f : BrutalController → BrutalController) (g : B → B)
    (h : Hy2Controller B) : Hy2Controller B :=
  if use_brutal rate then with_brutal h (f (brutal h)) else with_bbr h (g (bbr h)).

Definition query {B R} (rate : Z) (f : BrutalController → R * BrutalController) (g : B → R * B)
    (h : Hy2Controller B) : R * Hy2Controller B :=
  if use_brutal rate then let '(r, c) := f (brutal h) in (r, with_brutal h c)
  else let '(r, b) := g (bbr h) in (r, with_bbr h b).

#[export] Instance hy2_controller {B} `{Controller B} : Controller (Hy2Controller B) := {|
  on_sent := fun rate now bytes packet =>
    dispatch rate (on_sent rate now bytes packet) (on_sent rate now bytes packet);
  on_ack := fun rate now sent bytes app_limited rtt =>
    dispatch rate (on_ack rate now sent bytes app_limited rtt) (on_ack rate now sent bytes app_limited rtt);
  on_end_acks := fun rate now in_flight app_limited largest =>
    dispatch rate (on_end_acks rate now in_flight app_limited largest)
                  (on_end_acks rate now in_flight app_limited largest);
  on_congestion_event := fun rate now sent persistent lost =>
    dispatch rate (on_congestion_event rate now sent persistent lost)
                  (on_congestion_event rate now sent persistent lost);
  on_mtu_update := fun rate new_mtu h =>
    {| bbr := on_mtu_update rate new_mtu (bbr h); brutal := on_mtu_update rate new_mtu (brutal h) |};
  window := fun rate => query rate (window rate) (window rate);
  metrics := fun rate => query rate (metrics rate) (metrics rate);
  initial_window := fun rate h =>
    let '(w, b) := initial_window rate (bbr h) in (w, with_bbr h b);
|}.

(** ** The factory

    [Hy2CongestionConfig]: rate cells are heap locations; [build] allocates one,
    queues it and gives it to the new controller, [take_pending_rate] takes the
    oldest.  An empty queue makes the caller wait ([None]). *)

Record Hy2CongestionConfig := {
  server_limit_bps : Z;
  pending_rates : list positive;
  cells : gmap positive Z;
}.

Definition congestion_new (limit : Z) : Hy2CongestionConfig :=
  {| server_limit_bps := limit; pending_rates := []; cells := ∅ |}.

Definition build (f : Hy2CongestionConfig) : positive * Hy2CongestionConfig :=
  let loc := fresh (dom (cells f)) in
  (loc, {| server_limit_bps := server_limit_bps f; pending_rates := pending_rates f ++ [loc];
           cells := <[loc := 0]> (cells f) |}).

Definition take_pending_rate (f : Hy2CongestionConfig) : option (positive * Hy2CongestionConfig) :=
  match pending_rates f with
  | [] => None
  | loc :: rest => Some (loc, {| server_limit_bps := server_limit_bps f; pending_rates := rest;
                                 cells := cells f |})
  end.

Definition negotiated_rate (server_limit client_receive_bps : Z) : Z :=
  if client_receive_bps =? 0 then 0
  else if server_limit =? 0 then client_receive_bps
  else Z.min server_limit client_receive_bps.

(** ** Runs

    What happens to a Brutal controller: each event comes with the value of the
    rate cell when it is handled. *)

Inductive BrutalEvent :=
| EAck (now sent bytes : Z) (app_limited : bool) (rtt : Z)
| ELoss (now sent : Z) (persistent : bool) (lost : Z)
| EMtu (new_mtu : Z)
| EWindow
| EMetrics.

Definition brutal_step (c : BrutalController) (e : Z * BrutalEvent) : BrutalController :=
  let '(rate, e) := e in
  match e with
  | EAck now sent bytes app r => on_ack rate now sent bytes app r c
  | ELoss now sent p lost => on_congestion_event rate now sent p lost c
  | EMtu m => on_mtu_update rate m c
  | EWindow => (window rate c).2
  | EMetrics => (metrics rate c).2
  end.

Definition brutal_run (c : BrutalController) (es : list (Z * BrutalEvent)) : BrutalController :=
  fold_left brutal_step es c.

(** The cache agrees with the parameters it was computed from. *)
Definition cache_ok (c : BrutalController) : Prop :=
  cached_window c = computed_window (cached_rate c) (rtt c) (mtu c) (ack_rate c) ∧
  cached_pacing_rate c = computed_pacing_rate (cached_rate c) (ack_rate c).

Lemma refresh_cache_force_ok rate c : cache_ok (refresh_cache rate true c).
Proof. done. Qed.

Lemma refresh_cache_ok rate force c : cache_ok c → cache_ok (refresh_cache rate force c).
Proof. intros Hc. unfold refresh_cache. by destruct (negb force && _). Qed.

Lemma record_ok rate now a l c : cache_ok (record rate now a l c).
Proof. unfold record. destruct (sample_totals _ _). apply refresh_cache_force_ok. Qed.

Lemma brutal_step_ok c e : cache_ok c → cache_ok (brutal_step c e).
Proof.
  intros Hc. destruct e as [rate []]; cbn [brutal_step];
    first [apply record_ok | apply refresh_cache_force_ok | by apply refresh_cache_ok].
Qed.

Lemma brutal_run_ok es c : cache_ok c → cache_ok (brutal_run c es).
Proof. revert c. induction es as [|e es IH]; intros c Hc; [done|]. by apply IH, brutal_step_ok. Qed.

(** Looking at a coherent cache gives the values computed from the current rate. *)
Lemma refresh_cache_computes rate c :
  cache_ok c →
  cached_window (refresh_cache rate false c) = computed_window rate (rtt c) (mtu c) (ack_rate c) ∧
  cached_pacing_rate (refresh_cache rate false c) = computed_pacing_rate rate (ack_rate c).
Proof.
  intros [Hw Hp]. unfold refresh_cache. cbn [negb andb].
  destruct (Z.eqb_spec rate (cached_rate c)) as [->|]; done.
Qed.

(** The cache is never observable: after any sequence of events and
    changes of the rate, the window and the pacing rate reported are the ones
    computed from the current rate, round-trip time, MTU and loss estimate, and
    the window is at least 10240 bytes and two MTUs. *)
Theorem brutal_cache_transparent rate0 m0 t0 es rate :
  let c := brutal_run (brutal_new rate0 m0 t0) es in
  let w := computed_window rate (rtt c) (mtu c) (ack_rate c) in
  (window rate c).1 = w ∧ (initial_window rate c).1 = w ∧
  (metrics rate c).1 = {| congestion_window := w;
                          pacing_rate := Some (computed_pacing_rate rate (ack_rate c)) |} ∧
  MIN_WINDOW ≤ w ∧ mtu c * 2 ≤ w.
Proof.
  intros c w. assert (Hc : cache_ok c) by apply brutal_run_ok, refresh_cache_force_ok.
  destruct (refresh_cache_computes rate c Hc) as [Hw Hp]. cbn. unfold target_window. cbn.
  rewrite Hw, Hp. split_and!; try done; unfold w, computed_window; lia.
Qed.

(** ** The ring of samples *)

(** A sample: its second, the bytes acknowledged and lost. *)
Definition sample : Type := Z * Z * Z.
Definition s_sec (e : sample) : Z := e.1.1.
Definition s_ack (e : sample) : Z := e.1.2.
Definition s_lost (e : sample) : Z := e.2.

(** The sum of [f] over the samples whose second satisfies [P]. *)
Definition sum_if (P : Z → Prop) `{∀ s, Decision (P s)} (f : sample → Z) (log : list sample) : Z :=
  foldr (fun e acc => (if decide (P (s_sec e)) then f e else 0) + acc) 0 log.

Definition saturate (v : Z) : Z := Z.min v U64_MAX.

Definition sample_ok (e : sample) : Prop :=
  0 ≤ s_sec e < U64_MAX ∧ 0 ≤ s_ack e ∧ 0 ≤ s_lost e.

Lemma sat_add_saturate a b : 0 ≤ a → 0 ≤ b → sat_add (saturate a) (saturate b) = saturate (a + b).
Proof. unfold sat_add, saturate, U64_MAX. lia. Qed.

Lemma sat_add_saturate_l a b : 0 ≤ a → 0 ≤ b → sat_add (saturate a) b = saturate (a + b).
Proof. unfold sat_add, saturate, U64_MAX. lia. Qed.

Lemma sum_if_cons P `{∀ s, Decision (P s)} f e log :
  sum_if P f (e :: log) = (if decide (P (s_sec e)) then f e else 0) + sum_if P f log.
Proof. done. Qed.

Lemma if_decide_and (P Q : Prop) `{Decision P, Decision Q} (v : Z) :
  (if decide (P ∧ Q) then v else 0) = if decide P then (if decide Q then v else 0) else 0.
Proof. repeat case_decide; tauto. Qed.

Section sums.
Context (f : sample → Z) (Hf : ∀ e, sample_ok e → 0 ≤ f e).

Lemma sum_if_nonneg P `{∀ s, Decision (P s)} log : Forall sample_ok log → 0 ≤ sum_if P f log.
Proof.
  induction 1 as [|e log He _ IH]; [done|]. rewrite sum_if_cons. specialize (Hf e He).
  case_decide; lia.
Qed.

Lemma sum_if_ext P Q `{∀ s, Decision (P s)} `{∀ s, Decision (Q s)} log :
  Forall (fun e => P (s_sec e) ↔ Q (s_sec e)) log → sum_if P f log = sum_if Q f log.
Proof.
  induction 1 as [|e log He _ IH]; [done|]. rewrite !sum_if_cons, IH. f_equal.
  do 2 case_decide; tauto.
Qed.

Lemma sum_if_none P `{∀ s, Decision (P s)} log :
  Forall (fun e => ¬ P (s_sec e)) log → sum_if P f log = 0.
Proof.
  induction 1 as [|e log He _ IH]; [done|]. by rewrite sum_if_cons, IH, decide_False.
Qed.

(** Summing over the five residues is summing over everything. *)
Lemma sum_if_residues P `{∀ s, Decision (P s)} log :
  sum_if P f log =
    sum_if (fun s => s mod 5 = 0 ∧ P s) f log + (sum_if (fun s => s mod 5 = 1 ∧ P s) f log +
    (sum_if (fun s => s mod 5 = 2 ∧ P s) f log + (sum_if (fun s => s mod 5 = 3 ∧ P s) f log +
     sum_if (fun s => s mod 5 = 4 ∧ P s) f log))).
Proof.
  induction log as [|e log IH]; [done|]. rewrite !sum_if_cons, IH.
  pose proof (Z.mod_pos_bound (s_sec e) 5 ltac:(lia)).
  assert (Hc : s_sec e mod 5 = 0 ∨ s_sec e mod 5 = 1 ∨ s_sec e mod 5 = 2 ∨
               s_sec e mod 5 = 3 ∨ s_sec e mod 5 = 4) by lia.
  rewrite !if_decide_and. generalize (if decide (P (s_sec e)) then f e else 0). intros v.
  destruct Hc as [Hm|[Hm|[Hm|[Hm|Hm]]]]; rewrite Hm; cbn [decide]; simpl; lia.
Qed.
End sums.

(** What slot [i] of the ring says of the samples [log], newest first. *)
Definition slot_ok (log : list sample) (i : nat) (sl : SampleSlot) : Prop :=
  (second sl = U64_MAX ∧ Forall (fun e => s_sec e mod 5 ≠ Z.of_nat i) log ∨
   second sl mod 5 = Z.of_nat i ∧ (∃ e, e ∈ log ∧ s_sec e = second sl) ∧
   Forall (fun e => s_sec e mod 5 = Z.of_nat i → s_sec e ≤ second sl) log) ∧
  acked_bytes sl = saturate (sum_if (fun s => s = second sl) s_ack log) ∧
  lost_bytes sl = saturate (sum_if (fun s => s = second sl) s_lost log).

Definition ring_ok (log : list sample) (ring : list SampleSlot) : Prop :=
  length ring = SLOT_COUNT ∧ ∀ i sl, ring !! i = Some sl → slot_ok log i sl.

(** Newest first, in order of time. *)
Inductive log_ok : list sample → Prop :=
| log_nil : log_ok []
| log_cons e log : sample_ok e → Forall (fun e' => s_sec e' ≤ s_sec e) log → log_ok log → log_ok (e :: log).

Lemma log_ok_samples log : log_ok log → Forall sample_ok log.
Proof. induction 1; by constructor. Qed.

Lemma ring_ok_init : ring_ok [] (replicate SLOT_COUNT (empty_slot U64_MAX)).
Proof.
  split; [done|]. intros i sl [-> _]%lookup_replicate. split_and!; [|done..]. by left.
Qed.

Lemma s_ack_nonneg e : sample_ok e → 0 ≤ s_ack e.
Proof. by intros (_ & ? & _). Qed.
Lemma s_lost_nonneg e : sample_ok e → 0 ≤ s_lost e.
Proof. by intros (_ & _ & ?). Qed.

(** A slot of another residue does not see the new sample... *)
Lemma slot_ok_other log i sl e :
  sample_ok e → s_sec e mod 5 ≠ Z.of_nat i → slot_ok log i sl → slot_ok (e :: log) i sl.
Proof.
  intros He Hi (Hsec & Ha & Hl).
  assert (Hne : s_sec e ≠ second sl).
  { destruct Hsec as [[Hs _]|[Hs _]]; [rewrite Hs; destruct He; lia|congruence]. }
  split_and!.
  - destruct Hsec as [[Hs Hall]|(Hs & (e' & Hin & He') & Hall)]; [left|right]; split_and!; try done.
    + by constructor.
    + exists e'. split; [by right|done].
    + by constructor.
  - by rewrite sum_if_cons, decide_False.
  - by rewrite sum_if_cons, decide_False.
Qed.

(** ... and the slot of its residue takes it. *)
Lemma slot_ok_own log i sl e :
  log_ok (e :: log) → s_sec e mod 5 = Z.of_nat i → slot_ok log i sl →
  let old := if second sl =? s_sec e then sl else empty_slot (s_sec e) in
  slot_ok (e :: log) i {| second := second old; acked_bytes := sat_add (acked_bytes old) (s_ack e);
                          lost_bytes := sat_add (lost_bytes old) (s_lost e) |}.
Proof.
  intros Hlog Hi (Hsec & Ha & Hl) old. inversion_clear Hlog as [|? ? He Hle Hlog'].
  pose proof (log_ok_samples _ Hlog') as Hs.
  assert (Hold : second old = s_sec e).
  { unfold old. destruct (Z.eqb_spec (second sl) (s_sec e)); done. }
  assert (Hsums : acked_bytes old = saturate (sum_if (fun s => s = s_sec e) s_ack log) ∧
                  lost_bytes old = saturate (sum_if (fun s => s = s_sec e) s_lost log)).
  { unfold old. destruct (Z.eqb_spec (second sl) (s_sec e)) as [<-|Hne]; [done|].
    assert (Hnone : Forall (fun e' => s_sec e' ≠ s_sec e) log).
    { apply Forall_forall. intros e' Hin Heq. destruct Hsec as [[_ Hall]|(_ & (x & Hx & Hxs) & Hall)].
      - rewrite Forall_forall in Hall. apply (Hall e' Hin). by rewrite Heq.
      - rewrite Forall_forall in Hall, Hle. specialize (Hall e' Hin ltac:(by rewrite Heq)).
        specialize (Hle x Hx). lia. }
    by rewrite !sum_if_none. }
  destruct Hsums as [Hsa Hsl]. unfold slot_ok. cbn [second acked_bytes lost_bytes].
  rewrite Hold, !sum_if_cons, !decide_True, Hsa, Hsl by done. split_and!.
  - right. split_and!; [done|exists e; split; [by left|done]|].
    constructor; [done|]. eapply Forall_impl; [exact Hle|]. by intros.
  - rewrite sat_add_saturate_l, Z.add_comm; [done|by apply sum_if_nonneg, Hs; apply s_ack_nonneg|by apply He].
  - rewrite sat_add_saturate_l, Z.add_comm; [done|by apply sum_if_nonneg, Hs; apply s_lost_nonneg|by apply He].
Qed.

Lemma ring_ok_update log ring e :
  log_ok (e :: log) → ring_ok log ring →
  ring_ok (e :: log) (update_slot (s_sec e) (s_ack e) (s_lost e) ring).
Proof.
  intros Hlog [Hlen Hok]. unfold update_slot. change (Z.of_nat SLOT_COUNT) with 5.
  pose proof (Z.mod_pos_bound (s_sec e) 5 ltac:(lia)).
  set (i := Z.to_nat (s_sec e mod 5)).
  assert (Hi : (i < length ring)%nat) by (unfold SLOT_COUNT in *; lia).
  destruct (lookup_lt_is_Some_2 ring i Hi) as [sl Hsl]. rewrite Hsl. cbn [default].
  split; [by rewrite length_insert|]. intros j sl' Hj.
  destruct (decide (j = i)) as [->|Hne].
  - rewrite list_lookup_insert_eq in Hj by done. injection Hj as <-.
    apply slot_ok_own; [done|lia|by apply Hok].
  - rewrite list_lookup_insert_ne in Hj by done.
    apply slot_ok_other; [by inversion Hlog|lia|by apply Hok].
Qed.

(** The samples of the last five seconds, up to [s]. *)
Definition in_window (s t : Z) : Prop := s - 5 < t ≤ s.
#[export] Instance in_window_dec s t : Decision (in_window s t).
Proof. unfold in_window. apply _. Defined.

(** The condition of the filter in [record]. *)
Definition kept (s : Z) (sl : SampleSlot) : Prop :=
  sat_sub s (Z.of_nat SLOT_COUNT) ≤ second sl ∧ second sl ≤ s.
#[export] Instance kept_dec s sl : Decision (kept s sl).
Proof. unfold kept. apply _. Defined.

(** Of its residue, a slot the filter keeps holds exactly the samples of the
    last five seconds; the slot of the current second rules out the sixth. *)
Lemma slot_contribution f e log i sl :
  log_ok (e :: log) → slot_ok (e :: log) i sl → (i < SLOT_COUNT)%nat →
  (if decide (kept (s_sec e) sl) then sum_if (fun t => t = second sl) f (e :: log) else 0) =
  sum_if (fun t => t mod 5 = Z.of_nat i ∧ in_window (s_sec e) t) f (e :: log).
Proof.
  intros Hlog (Hsec & _) Hi. pose proof (log_ok_samples _ Hlog) as Hs.
  assert (Hall_le : Forall (fun e' => s_sec e' ≤ s_sec e) (e :: log)).
  { inversion_clear Hlog. by constructor. }
  destruct Hsec as [[Hmax Hall]|(Hmod & (x & Hx & Hxs) & Hall)].
  - rewrite decide_False.
    2: { intros [_ Hle]. inversion_clear Hs as [|? ? [? _] _]. lia. }
    symmetry. apply sum_if_none. eapply Forall_impl; [exact Hall|]. by intros ? ? [? _].
  - assert (Hle : second sl ≤ s_sec e)
      by (rewrite Forall_forall in Hall_le; specialize (Hall_le x Hx); lia).
    rewrite Forall_forall in Hall. pose proof (Hall e ltac:(by left)) as Hnew.
    assert (0 ≤ second sl) by (rewrite Forall_forall in Hs; destruct (Hs x Hx); lia).
    destruct (decide (kept (s_sec e) sl)) as [[Hk _]|Hk]; unfold kept, sat_sub in Hk;
      change (Z.of_nat SLOT_COUNT) with 5 in Hk.
    + assert (Hgt : s_sec e - 5 < second sl).
      { destruct (decide (second sl = s_sec e - 5)) as [Heq|]; [|lia].
        assert (s_sec e mod 5 = Z.of_nat i).
        { rewrite <- Hmod, Heq. replace (s_sec e) with (s_sec e - 5 + 1 * 5) at 1 by lia.
          by rewrite Z.mod_add. }
        lia. }
      apply sum_if_ext, Forall_forall. intros e' He'. specialize (Hall e' He').
      rewrite Forall_forall in Hall_le. specialize (Hall_le e' He'). unfold in_window.
      split; [intros Heq; rewrite Heq; split; [done|lia]|]. intros [Hm [? ?]]. specialize (Hall Hm).
      pose proof (Z.div_mod (s_sec e') 5 ltac:(lia)). pose proof (Z.div_mod (second sl) 5 ltac:(lia)).
      lia.
    + symmetry. apply sum_if_none, Forall_forall. intros e' He' [Hm [? ?]].
      specialize (Hall e' He' Hm). lia.
Qed.

(** The fold of [record] over slots whose contents are known. *)
Lemma totals_fold s ring (u v : SampleSlot → Z) x y :
  Forall (fun sl => acked_bytes sl = saturate (u sl) ∧ lost_bytes sl = saturate (v sl) ∧
                    0 ≤ u sl ∧ 0 ≤ v sl) ring → 0 ≤ x → 0 ≤ y →
  fold_left (fun '(acked, lost) sample =>
               (sat_add acked (acked_bytes sample), sat_add lost (lost_bytes sample)))
            (filter (kept s) ring) (saturate x, saturate y)
  = (saturate (x + foldr (fun sl acc => (if decide (kept s sl) then u sl else 0) + acc) 0 ring),
     saturate (y + foldr (fun sl acc => (if decide (kept s sl) then v sl else 0) + acc) 0 ring)).
Proof.
  intros Hall. revert x y. induction Hall as [|sl ring (Ha & Hl & Hu & Hv) _ IH]; intros x y Hx Hy.
  { simpl. by rewrite !Z.add_0_r. }
  rewrite filter_cons. cbn [foldr]. case_decide; cbn [fold_left].
  - rewrite Ha, Hl, !sat_add_saturate, IH by lia. f_equal; f_equal; lia.
  - rewrite IH by done. done.
Qed.

Lemma sample_totals_spec e log ring :
  log_ok (e :: log) → ring_ok (e :: log) ring →
  sample_totals (s_sec e) ring =
    (saturate (sum_if (in_window (s_sec e)) s_ack (e :: log)),
     saturate (sum_if (in_window (s_sec e)) s_lost (e :: log))).
Proof.
  intros Hlog [Hlen Hok]. pose proof (log_ok_samples _ Hlog) as Hs.
  change (sample_totals (s_sec e) ring) with
    (fold_left (fun '(acked, lost) sample =>
               (sat_add acked (acked_bytes sample), sat_add lost (lost_bytes sample)))
            (filter (kept (s_sec e)) ring) (saturate 0, saturate 0)).
  rewrite (totals_fold (s_sec e) ring (fun sl => sum_if (fun t => t = second sl) s_ack (e :: log))
    (fun sl => sum_if (fun t => t = second sl) s_lost (e :: log))); [|  |done|done].
  2: { apply Forall_lookup. intros i sl Hsl. destruct (Hok i sl Hsl) as (_ & Ha & Hl).
       split_and!; [done|done| |]; apply sum_if_nonneg, Hs; [apply s_ack_nonneg|apply s_lost_nonneg]. }
  destruct ring as [|r0 [|r1 [|r2 [|r3 [|r4 [|]]]]]]; try done. cbn [foldr].
  rewrite !(slot_contribution _ e log 0 r0), !(slot_contribution _ e log 1 r1), !(slot_contribution _ e log 2 r2),
    !(slot_contribution _ e log 3 r3), !(slot_contribution _ e log 4 r4);
    try done; try (by apply Hok); try (unfold SLOT_COUNT; lia).
  rewrite !Z.add_0_r, !Z.add_0_l.
  rewrite (sum_if_residues s_ack (in_window (s_sec e))), (sum_if_residues s_lost (in_window (s_sec e))).
  done.
Qed.

(** ** The estimate over a run *)

Definition sample_of (t0 : Z) (e : Z * BrutalEvent) : option sample :=
  let sec now := Z.max (now - t0) 0 / NANOS_PER_SEC in
  match e.2 with
  | EAck now _ bytes _ _ => Some (sec now, bytes, 0)
  | ELoss now _ _ lost => Some (sec now, 0, lost)
  | _ => None
  end.

(** The samples of a run, newest first. *)
Definition samples (t0 : Z) (es : list (Z * BrutalEvent)) : list sample :=
  reverse (omap (sample_of t0) es).

(** The loss estimate the samples call for. *)
Definition expected_ack_rate (log : list sample) : f64 :=
  match log with
  | [] => f64_1
  | e :: _ => estimate_ack_rate (saturate (sum_if (in_window (s_sec e)) s_ack log))
                                (saturate (sum_if (in_window (s_sec e)) s_lost log))
  end.

Definition tracks (t0 : Z) (log : list sample) (c : BrutalController) : Prop :=
  started c = t0 ∧ ring_ok log (slots c) ∧ ack_rate c = expected_ack_rate log.

Lemma refresh_cache_tracks t0 log rate force c :
  tracks t0 log c → tracks t0 log (refresh_cache rate force c).
Proof. intros H. unfold refresh_cache. by case_match. Qed.

Lemma record_tracks t0 log rate now a l c :
  let e := (Z.max (now - t0) 0 / NANOS_PER_SEC, a, l) in
  log_ok (e :: log) → tracks t0 log c → tracks t0 (e :: log) (record rate now a l c).
Proof.
  intros e Hlog (Hst & Hring & _). unfold record, elapsed_secs. rewrite Hst.
  pose proof (ring_ok_update log (slots c) e Hlog Hring) as Hring'.
  change (update_slot (Z.max (now - t0) 0 / NANOS_PER_SEC) a l (slots c))
    with (update_slot (s_sec e) (s_ack e) (s_lost e) (slots c)).
  pose proof (sample_totals_spec e log _ Hlog Hring') as Ht. change (s_sec e) with (e.1.1) in Ht at 1.
  cbn [fst e] in Ht. rewrite Ht. apply refresh_cache_tracks. by split_and!.
Qed.

Lemma brutal_run_tracks t0 es rate0 m0 :
  log_ok (samples t0 es) → tracks t0 (samples t0 es) (brutal_run (brutal_new rate0 m0 t0) es).
Proof.
  induction es as [|[rate e] es IH] using rev_ind; intros Hlog.
  { by split_and!; [|apply ring_ok_init|]. }
  unfold brutal_run. rewrite fold_left_app. cbn [fold_left].
  fold (brutal_run (brutal_new rate0 m0 t0) es). unfold samples in *.
  rewrite omap_app, reverse_app in *.
  destruct e as [now sent bytes al r|now sent p lost|m| |]; cbn [brutal_step omap list_omap sample_of snd] in *;
    try (rewrite reverse_nil in *; apply refresh_cache_tracks, IH, Hlog);
    rewrite reverse_singleton in *; cbn [app] in *; inversion Hlog as [|? ? _ _ Hlog']; subst.
  - by apply record_tracks, IH.
  - by apply record_tracks, IH.
Qed.

Lemma SFcompare_antisym x y : SFcompare y x = option_map CompOpp (SFcompare x y).
Proof.
  destruct x as [[]|[]| |[] mx ex], y as [[]|[]| |[] my ey]; try done; cbn;
    rewrite (Z.compare_antisym ex ey); destruct (ex ?= ey); cbn; try done;
    rewrite (Pos.compare_cont_antisym mx my Eq); cbn; by destruct (Pos.compare_cont Eq mx my).
Qed.

Lemma fmax_lower x y : SFcompare y y = Some Eq → SFleb y (fmax x y) = true.
Proof.
  intros Hy. unfold fmax, SFleb. destruct (SFcompare x y) as [[]|] eqn:E.
  - by rewrite SFcompare_antisym, E.
  - by rewrite Hy.
  - by rewrite SFcompare_antisym, E.
  - destruct x as [| | |]; try by rewrite Hy. all: destruct y as [[]|[]| |[]]; done.
Qed.

(** Claim C35. After any sequence of events in order of time, the ring of five
    slots has counted, for every second, exactly the bytes of the last five
    seconds: the loss estimate is the one computed from those sums (each
    saturating at 2^64 - 1), and is never below 0.8. *)
Theorem brutal_ack_rate_window t0 es rate0 m0 :
  log_ok (samples t0 es) →
  let c := brutal_run (brutal_new rate0 m0 t0) es in
  ack_rate c = expected_ack_rate (samples t0 es) ∧ SFleb MIN_ACK_RATE (ack_rate c) = true.
Proof.
  intros Hlog c. destruct (brutal_run_tracks t0 es rate0 m0 Hlog) as (_ & _ & Hr). fold c in Hr.
  split; [done|]. rewrite Hr. destruct (samples t0 es) as [|e log]; [done|].
  cbn [expected_ack_rate]. unfold estimate_ack_rate. case_match; [done|]. by apply fmax_lower.
Qed.

Lemma brutal_ack_rate_window_witness :
  let es := [(10000000, EAck 1000000000 0 60000 false 50000000);
             (10000000, ELoss 1500000000 0 false 60000);
             (10000000, EAck 9000000000 0 60000 false 50000000)] in
  ack_rate (brutal_run (brutal_new 10000000 1200 0) es) = expected_ack_rate (samples 0 es) ∧
  SFleb MIN_ACK_RATE (ack_rate (brutal_run (brutal_new 10000000 1200 0) es)) = true.
Proof.
  intros es. apply (brutal_ack_rate_window 0 es 10000000 1200).
  repeat (constructor; [repeat split; vm_compute; congruence|repeat constructor; vm_compute; congruence|]).
  constructor.
Defined.

(** ** The factory *)

(** What a run of builds and takes does to the queue. *)
Inductive FactoryOp := Build | Take.

Definition factory_step (f : Hy2CongestionConfig) (op : FactoryOp)
    : option positive * Hy2CongestionConfig :=
  match op with
  | Build => let '(l, f) := build f in (Some l, f)
  | Take => match take_pending_rate f with Some (l, f) => (Some l, f) | None => (None, f) end
  end.

Fixpoint factory_run (f : Hy2CongestionConfig) (ops : list FactoryOp)
    : list positive * list positive * Hy2CongestionConfig :=
  match ops with
  | [] => ([], [], f)
  | op :: ops =>
      let '(r, f) := factory_step f op in
      let '(built, taken, f) := factory_run f ops in
      match op with
      | Build => (option_list r ++ built, taken, f)
      | Take => (built, option_list r ++ taken, f)
      end
  end.

Lemma factory_run_queue ops f :
  let '(built, taken, f') := factory_run f ops in
  taken ++ pending_rates f' = pending_rates f ++ built ∧
  NoDup built ∧ (∀ l, l ∈ built → l ∉ dom (cells f)).
Proof.
  revert f. induction ops as [|op ops IH]; intros f; cbn [factory_run].
  { rewrite app_nil_r. split_and!; [done|constructor|set_solver]. }
  destruct op; cbn [factory_step].
  - unfold build. set (loc := fresh (dom (cells f))).
    specialize (IH {| server_limit_bps := server_limit_bps f; pending_rates := pending_rates f ++ [loc];
                      cells := <[loc := 0]> (cells f) |}).
    destruct (factory_run _ ops) as [[built taken] f']. cbn in IH |- *.
    destruct IH as (Hq & Hnd & Hfr). rewrite Hq, <- app_assoc. split_and!; [done| |].
    + constructor; [|done]. intros Hin. apply (Hfr loc Hin). rewrite dom_insert. set_solver.
    + intros l [->|Hin]%elem_of_cons; [apply is_fresh|].
      specialize (Hfr l Hin). rewrite dom_insert in Hfr. set_solver.
  - unfold take_pending_rate. destruct (pending_rates f) as [|loc rest] eqn:E.
    + specialize (IH f). destruct (factory_run f ops) as [[built taken] f']. by rewrite E in IH.
    + specialize (IH {| server_limit_bps := server_limit_bps f; pending_rates := rest; cells := cells f |}).
      destruct (factory_run _ ops) as [[built taken] f']. cbn in IH |- *.
      destruct IH as (Hq & Hrest). by rewrite Hq.
Qed.

(** In any interleaving of new controllers and accepted connections,
    the rate cells taken by the connections are the cells of the controllers, in
    the order they were built and each taken once; the rest are still queued. *)
Theorem pending_rates_fifo limit ops :
  let '(built, taken, f) := factory_run (congestion_new limit) ops in
  taken ++ pending_rates f = built ∧ NoDup built.
Proof.
  pose proof (factory_run_queue ops (congestion_new limit)) as H.
  destruct (factory_run _ ops) as [[built taken] f]. by destruct H as (? & ? & _).
Qed.
