(* ===== verification/Stream.v ===== *)
(** * Byte streams

    The receiving half of a QUIC stream, a TLS stream or a pipe, as the program
    reads it: the data comes in chunks cut anywhere, [read_exact] waits for its
    count across chunks, and the end of the list is the end of the stream.  The
    theorems of the components say that where the chunks are cut does not
    matter. *)

From stdpp Require Import base list.
From Stdlib Require Import ZArith Lia.
From S2P Require Import Prelude RustStr.

Open Scope Z_scope.

Abbreviation Stream := (list (list Z)).

Inductive StreamError := FinishedEarly.

(** [recv.read_exact(&mut [0; n])]: the bytes and the stream left. *)
Fixpoint read_exact (n : nat) (s : Stream) : result StreamError (list Z * Stream) :=
  match s with
  | [] => if (n =? 0)%nat then Ok ([], []) else Err FinishedEarly
  | c :: s =>
      if (n <=? length c)%nat then Ok (take n c, drop n c :: s)
      else
        '(rest, s) ← read_exact (n - length c) s;
        Ok (c ++ rest, s)
  end.

(** [read_chunk(usize::MAX, true)]: the next data available, if any. *)
Fixpoint read_chunk (s : Stream) : option (list Z) * Stream :=
  match s with
  | [] => (None, [])
  | [] :: s => read_chunk s
  | c :: s => (Some c, s)
  end.

(** [read_u8] and [read_u16] (big-endian). *)
Definition read_u8 (s : Stream) : result StreamError (Z * Stream) :=
  '(b, s) ← read_exact 1 s; Ok (safe_get b 0, s).

Definition read_u16 (s : Stream) : result StreamError (Z * Stream) :=
  '(b, s) ← read_exact 2 s; Ok (from_be_bytes b, s).

(** Reading is cutting the concatenation. *)
Lemma read_exact_spec n s :
  match read_exact n s with
  | Ok (b, s') => (n ≤ length (concat s))%nat ∧ b = take n (concat s) ∧ concat s' = drop n (concat s)
  | Err e => (length (concat s) < n)%nat
  end.
Proof.
  revert n. induction s as [|c s IH]; intros n; cbn [read_exact concat].
  { destruct (Nat.eqb_spec n 0) as [->|]; simpl; [split_and!; try done; lia|lia]. }
  rewrite length_app. destruct (Nat.leb_spec n (length c)).
  - split_and!; [lia|by rewrite take_app_le|]. cbn [concat]. by rewrite drop_app_le.
  - specialize (IH (n - length c)%nat). destruct (read_exact (n - length c) s) as [[b s']|e]; res_simpl; [|lia].
    destruct IH as (Hn & -> & Hs'). split_and!; [lia| |].
    + by rewrite take_app_ge by lia.
    + by rewrite Hs', drop_app_ge by lia.
Qed.

Lemma read_exact_Ok n s b s' :
  read_exact n s = Ok (b, s') → concat s = b ++ concat s' ∧ length b = n.
Proof.
  intros E. pose proof (read_exact_spec n s) as H. rewrite E in H.
  destruct H as (Hn & -> & ->). rewrite take_drop, length_take. split; [done|lia].
Qed.

(** The same bytes in other chunks are read the same way. *)
Lemma read_exact_concat n s :
  (n ≤ length (concat s))%nat →
  ∃ s', read_exact n s = Ok (take n (concat s), s') ∧ concat s' = drop n (concat s).
Proof.
  intros Hn. pose proof (read_exact_spec n s) as H.
  destruct (read_exact n s) as [[b s']|e]; [|lia].
  destruct H as (_ & -> & Hs'). by exists s'.
Qed.

Lemma read_chunk_concat s :
  match read_chunk s with
  | (Some c, s') => c ≠ [] ∧ concat s = c ++ concat s'
  | (None, s') => concat s = [] ∧ s' = []
  end.
Proof. induction s as [|[|b c] s IH]; cbn [read_chunk]; [done| |done]. apply IH. Qed.

(** Reads from a stream whose bytes are known, and what a read says of them. *)
Lemma read_exact_app a b s :
  concat s = a ++ b → ∃ s', read_exact (length a) s = Ok (a, s') ∧ concat s' = b.
Proof.
  intros Hs. destruct (read_exact_concat (length a) s) as (s' & E & Hs'); [rewrite Hs, length_app; lia|].
  exists s'. rewrite E, Hs', Hs, take_app_length, drop_app_length. done.
Qed.

Lemma read_u8_app b t s : concat s = b :: t → ∃ s', read_u8 s = Ok (b, s') ∧ concat s' = t.
Proof.
  intros Hs. destruct (read_exact_app [b] t s Hs) as (s' & E & Hs'). exists s'. split; [|done].
  unfold read_u8. change 1%nat with (length [b]). by rewrite E.
Qed.

Lemma read_u16_app p t s :
  concat s = p ++ t → length p = 2%nat → ∃ s', read_u16 s = Ok (from_be_bytes p, s') ∧ concat s' = t.
Proof.
  intros Hs Hp. destruct (read_exact_app p t s Hs) as (s' & E & Hs'). exists s'. split; [|done].
  unfold read_u16. rewrite <- Hp, E. done.
Qed.

Lemma read_u8_Ok s b s' : read_u8 s = Ok (b, s') → concat s = b :: concat s'.
Proof.
  unfold read_u8. intros H. apply rbind_Ok in H as ([x t] & E & [= <- <-]).
  apply read_exact_Ok in E as [-> Hl]. by destruct x as [|y [|]].
Qed.

Lemma read_u16_Ok s v s' :
  read_u16 s = Ok (v, s') → ∃ p, concat s = p ++ concat s' ∧ length p = 2%nat ∧ v = from_be_bytes p.
Proof.
  unfold read_u16. intros H. apply rbind_Ok in H as ([x t] & E & [= <- <-]).
  apply read_exact_Ok in E as [-> Hl]. eauto.
Qed.
