(* ===== verification/Rules.v ===== *)
(** * Routing rules of subscriptions ([src/src/sublink.rs], lines 35-254, 932-1027)

    The rule catalogues, the presets that select from them, and the parser of
    the user's domain lists.  [url::Host::parse] is a parameter: what the parser
    relies on is that a domain it returns has no forbidden host code point. *)

From stdpp Require Import base list strings sets.
From Stdlib Require Import ZArith Lia.
From S2P Require Import Prelude RustStr.

Open Scope Z_scope.

Inductive RulePreset := Minimal | Balanced | Comprehensive | China.
Inductive RuleAction := Proxy | Direct | Reject.

#[export] Instance RulePreset_eq_dec : EqDecision RulePreset.
Proof. solve_decision. Defined.
#[export] Instance RuleAction_eq_dec : EqDecision RuleAction.
Proof. solve_decision. Defined.

Record RuleSpec := { name : str; sites : list str; ips : list str; action : RuleAction }.

#[export] Instance RuleSpec_eq_dec : EqDecision RuleSpec.
Proof. solve_decision. Defined.

Inductive DomainRule := Exact (domain : str) | Suffix (domain : str).

#[export] Instance DomainRule_eq_dec : EqDecision DomainRule.
Proof. solve_decision. Defined.

Record CustomRules := { whitelist : list DomainRule; blacklist : list DomainRule }.

Definition RULES : list RuleSpec := [
  {| name := lit "Ad Block"; sites := [lit "category-ads-all"];
     ips := []; action := Reject |};
  {| name := lit "AI Services"; sites := [lit "category-ai-!cn"];
     ips := []; action := Proxy |};
  {| name := lit "Bilibili"; sites := [lit "bilibili"];
     ips := []; action := Proxy |};
  {| name := lit "Youtube"; sites := [lit "youtube"];
     ips := []; action := Proxy |};
  {| name := lit "Google"; sites := [lit "google"];
     ips := [lit "google"]; action := Proxy |};
  {| name := lit "Private"; sites := [];
     ips := [lit "private"]; action := Direct |};
  {| name := lit "Location:CN"; sites := [lit "geolocation-cn"; lit "cn"];
     ips := [lit "cn"]; action := Direct |};
  {| name := lit "Telegram"; sites := [];
     ips := [lit "telegram"]; action := Proxy |};
  {| name := lit "Github"; sites := [lit "github"; lit "gitlab"];
     ips := []; action := Proxy |};
  {| name := lit "Microsoft"; sites := [lit "microsoft"];
     ips := []; action := Proxy |};
  {| name := lit "Apple"; sites := [lit "apple"];
     ips := []; action := Proxy |};
  {| name := lit "Social Media"; sites := [lit "facebook"; lit "instagram"; lit "twitter"; lit "tiktok"; lit "linkedin"];
     ips := []; action := Proxy |};
  {| name := lit "Streaming"; sites := [lit "netflix"; lit "hulu"; lit "disney"; lit "hbo"; lit "amazon"; lit "bahamut"];
     ips := []; action := Proxy |};
  {| name := lit "Gaming"; sites := [lit "steam"; lit "epicgames"; lit "ea"; lit "ubisoft"; lit "blizzard"];
     ips := []; action := Proxy |};
  {| name := lit "Education"; sites := [lit "coursera"; lit "edx"; lit "udemy"; lit "khanacademy"; lit "category-scholar-!cn"];
     ips := []; action := Proxy |};
  {| name := lit "Financial"; sites := [lit "paypal"; lit "visa"; lit "mastercard"; lit "stripe"; lit "wise"];
     ips := []; action := Proxy |};
  {| name := lit "Cloud Services"; sites := [lit "aws"; lit "azure"; lit "digitalocean"; lit "heroku"; lit "dropbox"];
     ips := []; action := Proxy |};
  {| name := lit "Non-China"; sites := [lit "geolocation-!cn"];
     ips := []; action := Proxy |}].

Definition CHINA_RULES : list RuleSpec := [
  {| name := lit "Ad Block"; sites := [lit "category-ads-all"];
     ips := []; action := Reject |};
  {| name := lit "Private"; sites := [lit "private"];
     ips := [lit "private"]; action := Direct |};
  {| name := lit "China Services"; sites := [lit "apple-cn"; lit "microsoft@cn"; lit "steam@cn"; lit "category-games@cn"; lit "bilibili"];
     ips := []; action := Direct |};
  {| name := lit "AI Services"; sites := [lit "category-ai-!cn"];
     ips := []; action := Proxy |};
  {| name := lit "Youtube"; sites := [lit "youtube"];
     ips := []; action := Proxy |};
  {| name := lit "Google"; sites := [lit "google"];
     ips := [lit "google"]; action := Proxy |};
  {| name := lit "Telegram"; sites := [];
     ips := [lit "telegram"]; action := Proxy |};
  {| name := lit "Github"; sites := [lit "github"; lit "gitlab"];
     ips := []; action := Proxy |};
  {| name := lit "Location:CN"; sites := [lit "geolocation-cn"; lit "cn"];
     ips := [lit "cn"]; action := Direct |};
  {| name := lit "Non-China"; sites := [lit "geolocation-!cn"];
     ips := []; action := Proxy |}].

(** ** Presets *)

(** The errors of the subscription service, by the check that raised them. *)
Inductive SubError :=
| TooLarge | InvalidDomain (raw : str) | OnlyDomains (raw : str) | TooManyDomains
| InvalidPreset | NoNodes | UnsupportedInput | NestingTooDeep | RemoteSubscription | TooManyNodes
| InvalidUri | ServerMissing | CredentialsMissing | UnsupportedUri | InvalidShadowsocks
| InvalidVmess | InvalidUrlParameter | InvalidCode | InvalidShortUrl | ShortUrlNotFound
| StorageDisabled | PersistFailed | InvalidOverride | NoTcpNodes | UnsupportedFormat
| IncompatibleFormat | RandomFailed.

Definition parse_rule_preset (value : str) : result SubError RulePreset :=
  let v := to_ascii_lowercase (trim value) in
  if str_eqb v (lit "minimal") then Ok Minimal
  else if str_eqb v (lit "balanced") then Ok Balanced
  else if str_eqb v (lit "comprehensive") then Ok Comprehensive
  else if str_eqb v (lit "china") then Ok China
  else Err InvalidPreset.

Definition ad_block_name : str := lit "Ad Block".

Definition one_of (s : str) (l : list str) : bool := existsb (str_eqb s) l.

Definition preset_includes (preset : option RulePreset) (n : str) : bool :=
  match preset with
  | None => false
  | Some Minimal => one_of n [lit "Location:CN"; lit "Private"; lit "Non-China"]
  | Some Balanced =>
      one_of n [lit "Location:CN"; lit "Private"; lit "Non-China"; lit "Github"; lit "Google";
                lit "Youtube"; lit "AI Services"; lit "Telegram"]
  | Some Comprehensive => true
  | Some China => false
  end.

Definition selected_rule_specs (preset : option RulePreset) (ad_block : bool) : list RuleSpec :=
  match preset with
  | Some China => List.filter (fun r => ad_block || negb (str_eqb (name r) ad_block_name)) CHINA_RULES
  | _ => List.filter (fun r => preset_includes preset (name r)
                               || (ad_block && str_eqb (name r) ad_block_name)) RULES
  end.

(** ** Domain lists *)

Inductive Host := HDomain (d : str) | HIpv4 | HIpv6.

(** Code points no host may contain: controls, space, and the delimiters of the
    URL standard. *)
Definition forbidden_host_char (b : Z) : bool :=
  in_range 0 b 32 || existsb (Z.eqb b) [35; 37; 47; 58; 60; 62; 63; 64; 91; 92; 93; 94; 124; 127].

Class HostLib := {
  host_parse : str → option Host;
  host_parse_domain : ∀ s d, host_parse s = Some (HDomain d) →
    d ≠ [] ∧ Forall (fun b => forbidden_host_char b = false) d;
}.

(** The separators of a list: comma, line feed, carriage return. *)
Definition is_separator (b : Z) : bool := (b =? 44) || (b =? 10) || (b =? 13).

Section domains.
Context `{HostLib}.

(** A leading ["*."] or ["."] asks for the domain and its subdomains. *)
Definition split_wildcard (raw : str) : bool * str :=
  match strip_prefix (lit "*.") raw with
  | Some d => (true, d)
  | None => match strip_prefix (lit ".") raw with
            | Some d => (true, d)
            | None => (false, raw)
            end
  end.

(** One non-empty entry of a list. *)
Definition parse_domain_rule (raw : str) : result SubError DomainRule :=
  let '(suffix, domain) := split_wildcard raw in
  let domain := trim_end_matches 46 domain in
  if negb (negb (is_nil domain) && negb (contains_char 42 domain) && negb (has_whitespace domain))
  then Err (InvalidDomain raw)
  else match host_parse domain with
       | None => Err (InvalidDomain raw)
       | Some (HDomain d) => Ok (if suffix then Suffix d else Exact d)
       | Some _ => Err (OnlyDomains raw)
       end.

(** The loop over the entries, with the rules seen so far. *)
Fixpoint parse_domain_loop (raws : list str) (rules : list DomainRule)
    : result SubError (list DomainRule) :=
  match raws with
  | [] => Ok rules
  | raw :: raws =>
      let raw := trim raw in
      if is_nil raw then parse_domain_loop raws rules
      else
        rule ← parse_domain_rule raw;
        parse_domain_loop raws (if decide (rule ∈ rules) then rules else rules ++ [rule])
  end.

Definition parse_domain_rules (value : str) : result SubError (list DomainRule) :=
  ensure (len value <=? 8 * 1024) TooLarge;;
  rules ← parse_domain_loop (split_by is_separator value) [];
  ensure (len rules <=? 128) TooManyDomains;;
  Ok rules.

Definition validate_custom_rule_values (values : list str) : result SubError unit :=
  parse_domain_rules (join [10] values);; Ok tt.

Definition parse_custom_rules (wl bl : option str) : result SubError CustomRules :=
  w ← parse_domain_rules (default [] wl);
  b ← parse_domain_rules (default [] bl);
  Ok {| whitelist := w; blacklist := b |}.
End domains.

(** ** The presets *)

(** The names of the rule sets a list of rules refers to. *)
Definition rule_tags (rules : list RuleSpec) : list str :=
  flat_map (fun r => sites r ++ ((fun ip => ip ++ lit "-ip") <$> ips r)) rules.

Definition all_presets : list (option RulePreset) :=
  [None; Some Minimal; Some Balanced; Some Comprehensive; Some China].

Lemma all_presets_complete p : p ∈ all_presets.
Proof. destruct p as [[]|]; set_solver. Qed.

Lemma filter_sublist {A} (f : A → bool) l : List.filter f l `sublist_of` l.
Proof. induction l as [|x l IH]; cbn; [constructor|]. destruct (f x); by constructor. Qed.

Lemma filter_sublist_mono {A} (f g : A → bool) l :
  (∀ x, f x = true → g x = true) → List.filter f l `sublist_of` List.filter g l.
Proof.
  intros H. induction l as [|x l IH]; cbn; [constructor|].
  destruct (f x) eqn:E; [rewrite (H x E); by constructor|].
  destruct (g x); [by constructor|done].
Qed.

Definition is_reject (r : RuleSpec) : bool := bool_decide (action r = Reject).

Lemma rejects_iff rules : (∃ r, r ∈ rules ∧ action r = Reject) ↔ existsb is_reject rules = true.
Proof.
  rewrite existsb_exists. unfold is_reject. setoid_rewrite bool_decide_eq_true.
  by setoid_rewrite list_elem_of_In.
Qed.

(** Every preset, with or without the ad-block option, selects rules
    of its catalogue in the catalogue's order; it rejects advertisements exactly
    when the option is on or the preset is the comprehensive one; the rule-set
    tags it refers to are distinct; and each preset includes the smaller ones. *)
Theorem selected_rules_spec preset ad :
  let rules := selected_rule_specs preset ad in
  rules `sublist_of` (if decide (preset = Some China) then CHINA_RULES else RULES) ∧
  ((∃ r, r ∈ rules ∧ action r = Reject) ↔ ad = true ∨ preset = Some Comprehensive) ∧
  NoDup (rule_tags rules) ∧
  selected_rule_specs (Some Minimal) ad `sublist_of` selected_rule_specs (Some Balanced) ad ∧
  selected_rule_specs (Some Balanced) ad `sublist_of` selected_rule_specs (Some Comprehensive) ad.
Proof.
  intros rules. split_and!.
  - unfold rules, selected_rule_specs. destruct preset as [[]|]; apply filter_sublist.
  - rewrite rejects_iff. unfold rules. destruct preset as [[]|], ad; vm_compute; naive_solver.
  - apply (bool_decide_eq_true_1 (NoDup (rule_tags rules))). unfold rules.
    destruct preset as [[]|], ad; vm_compute; reflexivity.
  - apply filter_sublist_mono. intros r. rewrite !orb_true_iff. intros [Hm|]; [left|by right].
    cbn in *. rewrite !orb_true_iff in *. naive_solver.
  - apply filter_sublist_mono. intros r. rewrite !orb_true_iff. naive_solver.
Qed.

(** ** The domain lists *)

Section domain_lists.
Context `{HostLib}.

(** The entries of a list that count. *)
Definition entries (value : str) : list str :=
  List.filter (fun raw => negb (is_nil raw)) (trim <$> split_by is_separator value).

Lemma parse_domain_loop_spec raws acc :
  parse_domain_loop raws acc =
    rmap (foldl (fun acc x => if decide (x ∈ acc) then acc else acc ++ [x]) acc)
         (rtraverse parse_domain_rule (List.filter (fun raw => negb (is_nil raw)) (trim <$> raws))).
Proof.
  revert acc. induction raws as [|raw raws IH]; intros acc; [done|].
  rewrite fmap_cons. cbn [parse_domain_loop List.filter].
  destruct (is_nil (trim raw)) eqn:E; cbn [negb]; [apply IH|].
  cbn [rtraverse]. destruct (parse_domain_rule (trim raw)) as [rule|e]; [|done]. res_simpl.
  rewrite IH. by destruct (rtraverse parse_domain_rule _).
Qed.

Definition rule_domain (r : DomainRule) : str := match r with Exact d => d | Suffix d => d end.

Lemma parse_domain_rule_safe raw r :
  parse_domain_rule raw = Ok r →
  rule_domain r ≠ [] ∧ Forall (fun b => forbidden_host_char b = false) (rule_domain r).
Proof.
  unfold parse_domain_rule. destruct (split_wildcard raw) as [suffix d].
  destruct (negb _); [done|]. destruct (host_parse (trim_end_matches 46 d)) as [[x| |]|] eqn:E; try done.
  intros [= <-]. apply host_parse_domain in E. by destruct suffix.
Qed.

Lemma parse_domain_rule_Err raw e :
  parse_domain_rule raw = Err e → e = InvalidDomain raw ∨ e = OnlyDomains raw.
Proof.
  unfold parse_domain_rule. destruct (split_wildcard raw) as [suffix d].
  destruct (negb _); [intros [= <-]; by left|].
  destruct (host_parse (trim_end_matches 46 d)) as [[x| |]|]; intros [= <-]; auto.
Qed.

(** Parsing a list of domains: it succeeds exactly when the list has
    at most 8192 bytes, every entry parses and at most 128 rules differ; the
    rules are those of the entries, each once, in the order of first appearance,
    and their domains are non-empty and free of forbidden host characters. *)
Theorem parse_domain_rules_spec value :
  match parse_domain_rules value with
  | Ok rules =>
      ∃ parsed, rtraverse parse_domain_rule (entries value) = Ok parsed ∧ rules = dedup parsed ∧
        NoDup rules ∧ (∀ r, r ∈ rules ↔ r ∈ parsed) ∧ len rules ≤ 128 ∧
        Forall (fun r => rule_domain r ≠ [] ∧
                         Forall (fun b => forbidden_host_char b = false) (rule_domain r)) rules
  | Err TooLarge => 8192 < len value
  | Err TooManyDomains =>
      ∃ parsed, rtraverse parse_domain_rule (entries value) = Ok parsed ∧ 128 < len (dedup parsed)
  | Err e => rtraverse parse_domain_rule (entries value) = Err e
  end.
Proof.
  unfold parse_domain_rules. change (8 * 1024) with 8192.
  destruct (Z.leb_spec (len value) 8192) as [Hle|]; res_simpl; [|done].
  rewrite parse_domain_loop_spec. fold (entries value).
  destruct (rtraverse parse_domain_rule (entries value)) as [parsed|e] eqn:E; res_simpl.
  2: { destruct (rtraverse_Err _ _ _ E) as (x & _ & Hx).
       apply parse_domain_rule_Err in Hx as [Hx|Hx]; by rewrite Hx. }
  fold (dedup parsed).
  destruct (dedup_foldl_spec parsed [] (NoDup_nil_2)) as [Hnd Hin].
  destruct (Z.leb_spec (len (dedup parsed)) 128); res_simpl; [|by exists parsed].
  exists parsed. assert (Hin' : ∀ r, r ∈ dedup parsed ↔ r ∈ parsed) by (intros r; rewrite Hin; set_solver).
  split_and!; try done. apply Forall_forall. intros r Hr%Hin'.
  apply rtraverse_Ok in E. apply list_elem_of_lookup in Hr as [i Hi].
  destruct (Forall2_lookup_r _ _ _ _ _ E Hi) as (raw & _ & Hraw). by apply parse_domain_rule_safe in Hraw.
Qed.
End domain_lists.

(** A host parser with the documented behaviour, to evaluate the theorems on:
    it accepts the strings without forbidden characters, in lower case. *)
Definition example_host_parse (s : str) : option Host :=
  if negb (is_nil s) && forallb (fun b => negb (forbidden_host_char b)) s
  then Some (HDomain (to_ascii_lowercase s)) else None.

Lemma to_lower_forbidden b : forbidden_host_char b = false → forbidden_host_char (to_lower b) = false.
Proof.
  intros H. unfold to_lower. destruct (in_range 65 b 90) eqn:E; [|done].
  apply in_range_true in E. unfold forbidden_host_char, in_range. cbn [existsb].
  repeat (rewrite orb_false_iff; split); try done;
    rewrite ?andb_false_iff, ?Z.leb_gt, ?Z.eqb_neq; lia.
Qed.

Lemma example_host_parse_domain s d :
  example_host_parse s = Some (HDomain d) →
  d ≠ [] ∧ Forall (fun b => forbidden_host_char b = false) d.
Proof.
  unfold example_host_parse. destruct (negb (is_nil s)) eqn:E; [|done]. cbn [andb].
  destruct (forallb _ s) eqn:F; [|done]. intros [= <-]. split; [by destruct s|].
  unfold to_ascii_lowercase. apply Forall_fmap, Forall_forall. intros b Hb.
  apply to_lower_forbidden. rewrite forallb_forall in F.
  by apply negb_true_iff, F, list_elem_of_In.
Qed.

Definition example_hostlib : HostLib :=
  {| host_parse := example_host_parse; host_parse_domain := example_host_parse_domain |}.

Lemma parse_domain_rules_spec_witness :
  match @parse_domain_rules example_hostlib (lit "Example.cn, *.internal.cn,example.cn") with
  | Ok rules =>
      ∃ parsed, rtraverse (@parse_domain_rule example_hostlib)
                  (entries (lit "Example.cn, *.internal.cn,example.cn")) = Ok parsed ∧
        rules = dedup parsed ∧ NoDup rules ∧ (∀ r, r ∈ rules ↔ r ∈ parsed) ∧ len rules ≤ 128 ∧
        Forall (fun r => rule_domain r ≠ [] ∧
                         Forall (fun b => forbidden_host_char b = false) (rule_domain r)) rules
  | Err _ => False
  end.
Proof.
  apply (@parse_domain_rules_spec example_hostlib (lit "Example.cn, *.internal.cn,example.cn")).
Defined.
