(* ===== verification/Net.v ===== *)
(** * Addresses

    The part of [std::net] the program uses: IP and socket addresses, their
    classification and their text form.  An IPv4 address is its 4 octets, an
    IPv6 address its 16. *)

From stdpp Require Import base list strings.
From Stdlib Require Import ZArith Lia.
From S2P Require Import Prelude RustStr.

Open Scope Z_scope.

Inductive IpAddr := V4 (octets : list Z) | V6 (octets : list Z).

#[export] Instance IpAddr_eq_dec : EqDecision IpAddr.
Proof. solve_decision. Defined.

Record SocketAddr := { ip : IpAddr; port : Z }.

#[export] Instance SocketAddr_eq_dec : EqDecision SocketAddr.
Proof. solve_decision. Defined.

Definition ip_ok (a : IpAddr) : Prop :=
  match a with
  | V4 o => length o = 4%nat ∧ is_bytes o
  | V6 o => length o = 16%nat ∧ is_bytes o
  end.

Definition is_ipv4 (a : SocketAddr) : bool := match ip a with V4 _ => true | V6 _ => false end.
Definition is_ipv6 (a : SocketAddr) : bool := negb (is_ipv4 a).

Definition octet (o : list Z) (i : nat) : Z := safe_get o i.

Definition all_zero (o : list Z) : bool := forallb (Z.eqb 0) o.

Definition is_unspecified (a : IpAddr) : bool :=
  match a with V4 o => all_zero o | V6 o => all_zero o end.

Definition is_loopback (a : IpAddr) : bool :=
  match a with
  | V4 o => octet o 0 =? 127
  | V6 o => all_zero (take 15 o) && (octet o 15 =? 1)
  end.

(** [Ipv4Addr]'s text. *)
Definition show_ipv4 (o : list Z) : str := join (lit ".") (dec <$> o).

(** The eight 16-bit segments of an IPv6 address. *)
Fixpoint segments (o : list Z) : list Z :=
  match o with
  | a :: b :: o => be_push a b :: segments o
  | _ => []
  end.

(** [{:x}] of a 16-bit number. *)
Definition show_segment (v : Z) : str :=
  match trim_start_matches 48 (hex (to_be_bytes 2 v)) with
  | [] => lit "0"
  | s => s
  end.

(** The longest run of zero segments, the first of that length: its start and
    its length.  [i] is the index of the next segment, [cur] and [best] the
    current and the longest run so far. *)
Fixpoint longest_zeros (l : list Z) (i : nat) (cur best : nat * nat) : nat * nat :=
  match l with
  | [] => best
  | s :: l =>
      if s =? 0 then
        let cur := if (cur.2 =? 0)%nat then (i, 1%nat) else (cur.1, S cur.2) in
        longest_zeros l (S i) cur (if (best.2 <? cur.2)%nat then cur else best)
      else longest_zeros l (S i) (0%nat, 0%nat) best
  end.

Definition show_segments (l : list Z) : str := join (lit ":") (show_segment <$> l).

(** [Ipv6Addr]'s text: an IPv4-mapped address shows the IPv4 part, otherwise the
    longest run of at least two zero segments is abbreviated. *)
Definition show_ipv6 (o : list Z) : str :=
  if all_zero (take 10 o) && (octet o 10 =? 255) && (octet o 11 =? 255)
  then lit "::ffff:" ++ show_ipv4 (drop 12 o)
  else
    let s := segments o in
    let '(start, count) := longest_zeros s 0 (0%nat, 0%nat) (0%nat, 0%nat) in
    if (1 <? count)%nat
    then show_segments (take start s) ++ lit "::" ++ show_segments (drop (start + count) s)
    else show_segments s.

Definition show_ip (a : IpAddr) : str :=
  match a with V4 o => show_ipv4 o | V6 o => show_ipv6 o end.

(** [SocketAddr]'s text. *)
Definition show_addr (a : SocketAddr) : str :=
  match ip a with
  | V4 o => show_ipv4 o ++ lit ":" ++ dec (port a)
  | V6 o => lit "[" ++ show_ipv6 o ++ lit "]:" ++ dec (port a)
  end.

Example show_loopback :
  show_ip (V6 (replicate 15 0 ++ [1])) = lit "::1" ∧
  show_ip (V4 [127; 0; 0; 1]) = lit "127.0.0.1" ∧
  show_ip (V6 [32; 1; 13; 184; 0; 0; 0; 0; 0; 0; 0; 0; 0; 0; 0; 16]) = lit "2001:db8::10" ∧
  show_ip (V6 (replicate 10 0 ++ [255; 255; 192; 0; 2; 1])) = lit "::ffff:192.0.2.1".
Proof. by vm_compute. Qed.

(** No address text contains a control character, a space, a quote or a slash:
    it is made of hexadecimal digits, dots and colons. *)
Definition addr_char (b : Z) : bool := in_range 48 b 58 || in_range 97 b 102 || (b =? 46).

Lemma join_Forall (P : Z → Prop) sep l :
  Forall P sep → Forall (Forall P) l → Forall P (join sep l).
Proof.
  intros Hs. induction 1 as [|w l Hw Hl IH]; [constructor|]. destruct l as [|w' l]; [done|].
  change (join sep (w :: w' :: l)) with (w ++ sep ++ join sep (w' :: l)).
  by repeat apply Forall_app_2.
Qed.

Lemma dec_addr_char v : Forall (fun b => addr_char b = true) (dec v).
Proof.
  eapply Forall_impl; [apply dec_ascii|]. intros b [? ?]. unfold addr_char.
  rewrite (proj2 (in_range_true 48 b 58)) by lia. done.
Qed.

Lemma show_ipv4_chars o : Forall (fun b => addr_char b = true) (show_ipv4 o).
Proof.
  apply join_Forall; [by repeat constructor|]. apply Forall_fmap, Forall_true.
  intros v. apply dec_addr_char.
Qed.

Lemma hex_digit_addr_char v : 0 ≤ v < 16 → addr_char (hex_digit v) = true.
Proof.
  intros Hv. unfold addr_char, hex_digit. destruct (Z.ltb_spec v 10).
  - rewrite (proj2 (in_range_true 48 _ 58)) by lia. done.
  - rewrite (proj2 (in_range_true 97 _ 102)) by lia. by rewrite orb_true_r.
Qed.

Lemma hex_addr_chars l : is_bytes l → Forall (fun b => addr_char b = true) (hex l).
Proof.
  induction 1 as [|b l Hb _ IH]; [constructor|]. rewrite u8_ok_iff in Hb. cbn.
  pose proof (Z.mod_pos_bound b 16 ltac:(lia)).
  assert (0 ≤ b / 16 < 16) by (split; [apply Z.div_pos|apply Z.div_lt_upper_bound]; lia).
  repeat constructor; try (by apply hex_digit_addr_char). done.
Qed.

Lemma trim_start_matches_Forall (P : Z → Prop) c s :
  Forall P s → Forall P (trim_start_matches c s).
Proof. induction 1 as [|b s Hb Hs IH]; cbn; [constructor|]. case_match; [done|by constructor]. Qed.

Lemma show_segments_chars l : Forall (fun b => addr_char b = true) (show_segments l).
Proof.
  apply join_Forall; [by repeat constructor|]. apply Forall_fmap, Forall_true. intros v. cbn.
  unfold show_segment.
  assert (H : Forall (fun b => addr_char b = true) (trim_start_matches 48 (hex (to_be_bytes 2 v)))).
  { apply trim_start_matches_Forall, hex_addr_chars, to_be_bytes_is_bytes. }
  destruct (trim_start_matches 48 _); [by repeat constructor|done].
Qed.

Lemma show_ip_chars a : Forall (fun b => addr_char b = true) (show_ip a).
Proof.
  destruct a as [o|o]; cbn; [apply show_ipv4_chars|]. unfold show_ipv6. case_match.
  - apply Forall_app_2; [by repeat constructor|apply show_ipv4_chars].
  - destruct (longest_zeros _ _ _ _) as [start count]. case_match; [|apply show_segments_chars].
    repeat apply Forall_app_2; try apply show_segments_chars. by repeat constructor.
Qed.
