(* ===== verification/Files.v ===== *)
(** * Files

    The file operations the program persists its state with.  A file system maps
    paths to files; an operation may fail, and a failed or interrupted write
    leaves any part of the new contents behind. *)

From stdpp Require Import base list gmap strings.
From Stdlib Require Import ZArith Lia.
From S2P Require Import Prelude RustStr.

Open Scope Z_scope.

Record file := { contents : list Z; mode : Z }.
Abbreviation filesystem := (gmap str file).

(** The mode a new file gets from [fs::write]. *)
Definition DEFAULT_MODE : Z := 420.

(** [fs::write(path, data)]: create or truncate, then write; the mode of an
    existing file is kept. *)
Definition write_file (fs : filesystem) (path : str) (data : list Z) : filesystem :=
  let m := match fs !! path with Some f => mode f | None => DEFAULT_MODE end in
  <[path := {| contents := data; mode := m |}]> fs.

Definition set_mode (fs : filesystem) (path : str) (m : Z) : filesystem :=
  match fs !! path with
  | Some f => <[path := {| contents := contents f; mode := m |}]> fs
  | None => fs
  end.

(** [fs::read_to_string]. *)
Definition read_to_string (fs : filesystem) (path : str) : option str := fs !! path ≫= fun f => from_utf8 (contents f).

(** [fs::rename(from, to)], which replaces [to] in one step. *)
Definition rename (fs : filesystem) (from to : str) : filesystem :=
  match fs !! from with
  | Some f => <[to := f]> (delete from fs)
  | None => fs
  end.

(** The directory part of a path, with its slash, and the file name. *)
Definition split_path (path : str) : str * str :=
  match rsplit_once 47 path with
  | Some (d, n) => (d ++ lit "/", n)
  | None => ([], path)
  end.

(** [Path::file_stem] of a file name: what precedes the last dot, unless that is
    nothing. *)
Definition file_stem (n : str) : str :=
  match rsplit_once 46 n with
  | Some ([], _) => n
  | Some (s, _) => s
  | None => n
  end.

(** [path.with_extension(ext)]. *)
Definition with_extension (path ext : str) : str :=
  let '(d, n) := split_path path in d ++ file_stem n ++ lit "." ++ ext.

Lemma rsplit_once_Some c s a b :
  rsplit_once c s = Some (a, b) ↔ s = a ++ c :: b ∧ c ∉ b.
Proof.
  unfold rsplit_once. split.
  - intros ([x y] & E & [= -> ->])%fmap_Some. apply split_once_Some in E as [E Hx].
    apply (f_equal reverse) in E. rewrite reverse_involutive, reverse_app, reverse_cons in E.
    rewrite E, <- app_assoc. split; [done|]. by rewrite elem_of_reverse.
  - intros [-> Hb]. apply fmap_Some. exists (reverse b, reverse a). split.
    + apply split_once_Some. rewrite reverse_app, reverse_cons, <- app_assoc.
      split; [done|by rewrite elem_of_reverse].
    + cbn [fst snd]. by rewrite !reverse_involutive.
Qed.

Lemma split_path_app path : path = (split_path path).1 ++ (split_path path).2.
Proof.
  unfold split_path. destruct (rsplit_once 47 path) as [[d n]|] eqn:E; [|done].
  apply rsplit_once_Some in E as [-> _]. cbn. by rewrite <- app_assoc.
Qed.

Lemma read_to_string_valid fs path f :
  fs !! path = Some f → utf8_valid (contents f) = true → read_to_string fs path = Some (contents f).
Proof. intros Hf Hv. unfold read_to_string. rewrite Hf. cbn. unfold from_utf8. by rewrite Hv. Qed.

(** An extension with a dot in it never gives the same path back. *)
Lemma with_extension_ne path ext : 46 ∈ ext → with_extension path ext ≠ path.
Proof.
  intros Hext. unfold with_extension. pose proof (split_path_app path) as Hp.
  destruct (split_path path) as [d n]. cbn in Hp. rewrite Hp. intros Heq.
  apply (inj (app d)) in Heq. unfold file_stem in Heq.
  destruct (rsplit_once 46 n) as [[s e]|] eqn:E.
  - apply rsplit_once_Some in E as [-> He]. destruct s as [|x s].
    + apply (f_equal length) in Heq. rewrite !length_app in Heq. cbn in Heq. lia.
    + change (lit "." ++ ext) with (46 :: ext) in Heq. apply (inj (app (x :: s))) in Heq.
      injection Heq as ->. done.
  - apply (f_equal length) in Heq. rewrite !length_app in Heq. cbn in Heq. lia.
Qed.
