(* ===== verification/PrivateFile.v ===== *)
(** * Files replaced privately

    How [src/src/reverse_proxy.rs] and [src/src/admin.rs] write their files: a
    temporary with mode 0600 is created beside the file, written, synchronised and
    renamed over it.  The outcome comes with every state of the file system on the
    way, partial writes included, so that an interruption anywhere is a state of
    the list. *)

From stdpp Require Import base list gmap strings.
From Stdlib Require Import ZArith Lia.
From S2P Require Import Prelude RustStr Files.

Open Scope Z_scope.

Inductive ReplaceError :=
| DirectoryNotCreated
| FileNotOpened
| FileNotWritten
| FileNotSynced
| FileNotRenamed.

(** What goes wrong: the directory cannot be created, the temporary cannot be
    opened, the write stops after some bytes, the synchronisation or the rename
    fails. *)
Record ReplaceFaults := {
  directory_fault : bool;
  open_fault : bool;
  short_write : option nat;
  sync_fault : bool;
  move_fault : bool;
}.

Definition no_replace_faults : ReplaceFaults :=
  {| directory_fault := false; open_fault := false; short_write := None; sync_fault := false; move_fault := false |}.

(** 0o600. *)
Definition PRIVATE_MODE : Z := 384.

Definition private_temporary (path : str) : str := with_extension path (lit "tmp").

(** [options.mode(0o600)] only matters for a file that is created. *)
Definition private_mode (fs : filesystem) (path : str) : Z :=
  match fs !! path with Some f => mode f | None => PRIVATE_MODE end.

(** The temporary with the first bytes of the data. *)
Definition written (fs : filesystem) (tmp : str) (data : list Z) : filesystem :=
  <[tmp := {| contents := data; mode := private_mode fs tmp |}]> fs.

Definition replace_private (data : list Z) (fs : filesystem) (path : str) (faults : ReplaceFaults)
    : result ReplaceError unit * list filesystem :=
  let tmp := private_temporary path in
  let partial n := written fs tmp (take n data) in
  if directory_fault faults then (Err DirectoryNotCreated, [fs])
  else if open_fault faults then (Err FileNotOpened, [fs])
  else
    match short_write faults with
    | Some n => (Err FileNotWritten, fs :: (partial <$> seq 0 (S n)))
    | None =>
        let full := written fs tmp data in
        let trace := (fs :: (partial <$> seq 0 (length data))) ++ [full] in
        if sync_fault faults then (Err FileNotSynced, trace)
        else if move_fault faults then (Err FileNotRenamed, trace)
        else (Ok tt, trace ++ [rename full tmp path])
    end.

(** The file written. *)
Definition private_file (fs : filesystem) (path : str) (data : list Z) : file :=
  {| contents := data; mode := private_mode fs (private_temporary path) |}.

(** A state on the way: only the file and its temporary differ, and the file is
    the old one or the complete new one. *)
Definition replace_state (data : list Z) (fs : filesystem) (path : str) (fs' : filesystem) : Prop :=
  (∀ p, p ≠ path → p ≠ private_temporary path → fs' !! p = fs !! p) ∧
  (fs' !! path = fs !! path ∨ fs' !! path = Some (private_file fs path data)).

Definition replace_outcome (data : list Z) (fs : filesystem) (path : str)
    (out : result ReplaceError unit * list filesystem) : Prop :=
  Forall (replace_state data fs path) out.2 ∧
  ∃ fs_end, last out.2 = Some fs_end ∧
    match out.1 with
    | Ok _ => fs_end !! path = Some (private_file fs path data) ∧ fs_end !! private_temporary path = None
    | Err _ => fs_end !! path = fs !! path
    end.

Section replace.
Context (fs : filesystem) (path : str) (data : list Z) (Hne : private_temporary path ≠ path).

Lemma replace_state_refl : replace_state data fs path fs.
Proof. by split; [|left]. Qed.

Lemma replace_state_written d : replace_state data fs path (written fs (private_temporary path) d).
Proof.
  unfold written. split; [intros p Hp Ht; by rewrite lookup_insert_ne|left; by rewrite lookup_insert_ne].
Qed.

Lemma replace_state_renamed :
  let fs' := rename (written fs (private_temporary path) data) (private_temporary path) path in
  replace_state data fs path fs' ∧ fs' !! path = Some (private_file fs path data) ∧
  fs' !! private_temporary path = None.
Proof.
  unfold rename, written. rewrite lookup_insert_eq. cbn zeta. split_and!.
  - split; [|right; by rewrite lookup_insert_eq].
    intros p Hp Ht. by rewrite lookup_insert_ne, lookup_delete_ne, lookup_insert_ne.
  - by rewrite lookup_insert_eq.
  - by rewrite lookup_insert_ne, lookup_delete_eq.
Qed.

Lemma replace_outcome_err e trace d :
  Forall (replace_state data fs path) trace →
  replace_outcome data fs path (Err e, trace ++ [written fs (private_temporary path) d]).
Proof.
  intros Ht. split; cbn [fst snd].
  - apply Forall_app_2; [done|]. constructor; [apply replace_state_written|done].
  - eexists. rewrite last_snoc. split; [done|]. unfold written. by rewrite lookup_insert_ne.
Qed.

Lemma replace_private_outcome faults : replace_outcome data fs path (replace_private data fs path faults).
Proof.
  assert (Hsame : ∀ e, replace_outcome data fs path (Err e, [fs])).
  { intros e. split; cbn [fst snd]; [constructor; [apply replace_state_refl|done]|by exists fs]. }
  unfold replace_private. destruct (directory_fault faults); [apply Hsame|].
  destruct (open_fault faults); [apply Hsame|].
  set (part := fun n => written fs (private_temporary path) (take n data)).
  assert (Hpart : ∀ l, Forall (replace_state data fs path) (fs :: (part <$> l))).
  { intros l. constructor; [apply replace_state_refl|]. apply Forall_fmap, Forall_true.
    intros n. apply replace_state_written. }
  destruct (short_write faults) as [n|].
  { rewrite seq_S, fmap_app. change (fs :: ?a ++ ?b) with ((fs :: a) ++ b). by apply replace_outcome_err. }
  destruct (sync_fault faults); [by apply replace_outcome_err|].
  destruct (move_fault faults); [by apply replace_outcome_err|].
  destruct replace_state_renamed as (H1 & H2 & H3). split; cbn [fst snd].
  - apply Forall_app_2; [|by constructor]. apply Forall_app_2; [done|].
    constructor; [apply replace_state_written|done].
  - eexists. rewrite last_snoc. done.
Qed.
End replace.

(** Saving a document: the directory is created before the text is made. *)
Definition save_private {E : Type} (unprinted : E) (failed : ReplaceError → E) (text : option (list Z))
    (fs : filesystem) (path : str) (faults : ReplaceFaults) : result E unit * list filesystem :=
  if directory_fault faults then (Err (failed DirectoryNotCreated), [fs])
  else
    match text with
    | None => (Err unprinted, [fs])
    | Some data =>
        let '(r, trace) := replace_private data fs path faults in
        (rmap_err failed r, trace)
    end.

(** What a reader of the file sees: in every state the old document or the new
    one, at the end the new one on success, and on failure the old file, which
    happens only when something goes wrong or there is no text. *)
Definition saved {E V : Type} (view : option file → V) (new : V) (text : option (list Z)) (fs : filesystem) (path : str)
    (faults : ReplaceFaults) (out : result E unit * list filesystem) : Prop :=
  (∀ fs', fs' ∈ out.2 → view (fs' !! path) = view (fs !! path) ∨ view (fs' !! path) = new) ∧
  (∀ fs' p, fs' ∈ out.2 → p ≠ path → p ≠ private_temporary path → fs' !! p = fs !! p) ∧
  ∃ fs_end, last out.2 = Some fs_end ∧
    match out.1 with
    | Ok _ => view (fs_end !! path) = new
    | Err _ => fs_end !! path = fs !! path ∧ (faults = no_replace_faults → text = None)
    end.

Lemma saved_unchanged {E V : Type} (view : option file → V) new text fs path faults (e : E) :
  (faults = no_replace_faults → text = None) → saved view new text fs path faults (Err e, [fs]).
Proof.
  intros Hf. split_and!; cbn [fst snd].
  - intros fs' ->%list_elem_of_singleton. by left.
  - by intros fs' p ->%list_elem_of_singleton.
  - by exists fs.
Qed.

Lemma save_private_saved {E V : Type} (view : option file → V) new (unprinted : E) failed text fs path faults :
  private_temporary path ≠ path →
  (∀ data m, text = Some data → view (Some {| contents := data; mode := m |}) = new) →
  saved view new text fs path faults (save_private unprinted failed text fs path faults).
Proof.
  intros Hne Hview. unfold save_private. destruct (directory_fault faults) eqn:Ed.
  { apply saved_unchanged. by intros ->. }
  destruct text as [data|]; [|by apply saved_unchanged].
  destruct (replace_private_outcome fs path data Hne faults) as [Hall (fs_end & Hlast & Hend)].
  assert (Hr : faults = no_replace_faults → (replace_private data fs path faults).1 = Ok tt) by by intros ->.
  destruct (replace_private data fs path faults) as [r trace]. cbn [fst snd] in *.
  assert (Hnew : ∀ fs' : filesystem, fs' !! path = Some (private_file fs path data) → view (fs' !! path) = new).
  { intros fs' ->. by apply Hview. }
  rewrite Forall_forall in Hall. split_and!; cbn [fst snd].
  - intros fs' Hin. destruct (Hall fs' Hin) as [_ [E'|E']]; [left; by rewrite E'|right; by apply Hnew].
  - intros fs' p Hin. by apply (Hall fs' Hin).
  - exists fs_end. split; [done|]. destruct r as [[]|e]; res_simpl; [by apply Hnew, Hend|].
    split; [done|]. intros Hf. by specialize (Hr Hf).
Qed.
