(* ===== verification/Config.v ===== *)
(** * Configuration ([src/src/config.rs])

    The configuration record, its validation, and the replacement of the
    configuration file on disk.  The URL and HTTP libraries are parameters
    ([HttpLib]), the TOML serializer is one of [save_atomic]. *)

From stdpp Require Import base list gmap strings.
From Stdlib Require Import ZArith Lia.
From S2P Require Import Prelude RustStr Rules Net Files.

Open Scope Z_scope.

Inductive OutboundMode := PreferIpv4 | Ipv4Only | Ipv6Only.

#[export] Instance OutboundMode_eq_dec : EqDecision OutboundMode.
Proof. solve_decision. Defined.

Record SshConfig := {
  ssh_enabled : bool;
  ssh_upstream : SocketAddr;
  ssh_username : str;
  ssh_private_key : str;
  ssh_host_key : str;
}.

Record TlsConfig := { certificate : str; private_key : str }.
Record User := { user_name : str; user_password : str }.
Record Bandwidth := { up_mbps : Z; down_mbps : Z; ignore_client_bandwidth : bool }.
Record UdpConfig := { udp_enabled : bool; timeout_secs : Z }.
Record ObfsConfig := { obfs_kind : str; obfs_password : str }.

Record ShareConfig := {
  share_server : str;
  ipv6_server : str;
  share_port : Z;
  share_sni : str;
  share_insecure : bool;
  rule_preset : str;
  ad_block : bool;
  share_whitelist : list str;
  share_blacklist : list str;
}.

Inductive MasqueradeConfig :=
| MFile (directory : str)
| MProxy (url : str) (rewrite_host : bool)
| MString (status_code : Z) (headers : list (str * list str)) (content : str).

Record Config := {
  listen : SocketAddr;
  tls : TlsConfig;
  users : list User;
  ssh : SshConfig;
  bandwidth : Bandwidth;
  udp : UdpConfig;
  outbound : OutboundMode;
  obfs : option ObfsConfig;
  masquerade : option MasqueradeConfig;
  share : option ShareConfig;
}.

#[export] Instance SshConfig_eq_dec : EqDecision SshConfig.
Proof. solve_decision. Defined.
#[export] Instance TlsConfig_eq_dec : EqDecision TlsConfig.
Proof. solve_decision. Defined.
#[export] Instance User_eq_dec : EqDecision User.
Proof. solve_decision. Defined.
#[export] Instance Bandwidth_eq_dec : EqDecision Bandwidth.
Proof. solve_decision. Defined.
#[export] Instance UdpConfig_eq_dec : EqDecision UdpConfig.
Proof. solve_decision. Defined.
#[export] Instance ObfsConfig_eq_dec : EqDecision ObfsConfig.
Proof. solve_decision. Defined.
#[export] Instance ShareConfig_eq_dec : EqDecision ShareConfig.
Proof. solve_decision. Defined.
#[export] Instance MasqueradeConfig_eq_dec : EqDecision MasqueradeConfig.
Proof. solve_decision. Defined.
#[export] Instance Config_eq_dec : EqDecision Config.
Proof. solve_decision. Defined.

(** The values serde fills in. *)
Definition default_udp : UdpConfig := {| udp_enabled := true; timeout_secs := 300 |}.
Definition default_ssh_upstream : SocketAddr := {| ip := V4 [127; 0; 0; 1]; port := 51401 |}.
Definition default_ssh : SshConfig :=
  {| ssh_enabled := false; ssh_upstream := default_ssh_upstream; ssh_username := [];
     ssh_private_key := []; ssh_host_key := [] |}.
Definition default_masquerade_status : Z := 200.
Definition default_share_rule_preset : str := lit "balanced".

(** What the URL and HTTP crates answer. *)
Class HttpLib := {
  url_scheme : str → option str;
  status_ok : Z → bool;
  header_name_ok : str → bool;
  header_value_ok : str → bool;
}.

Inductive ConfigError :=
| NoUsers | EmptyPassword | EmptyUserName | NoCertificate | NoPrivateKey | ZeroUdpTimeout
| SshNotLoopback | NoSshUsername | NoSshPrivateKey | UnsupportedObfs | EmptyObfsPassword
| NoMasqueradeDirectory | BadMasqueradeUrl | MasqueradeScheme | BadMasqueradeStatus
| BadMasqueradeHeader (name : str) | NoShareServer | ZeroSharePort | BadSharePreset
| BadCustomRules (e : SubError).

Definition blank (s : str) : bool := is_nil (trim s).

Section validate.
Context `{HostLib} `{HttpLib}.

Definition validate_ssh (c : SshConfig) : result ConfigError unit :=
  if ssh_enabled c then
    ensure (is_loopback (ip (ssh_upstream c))) SshNotLoopback;;
    ensure (negb (blank (ssh_username c))) NoSshUsername;;
    ensure (negb (blank (ssh_private_key c))) NoSshPrivateKey
  else Ok tt.

Definition validate_obfs (o : option ObfsConfig) : result ConfigError unit :=
  match o with
  | None => Ok tt
  | Some o =>
      ensure (str_eqb (obfs_kind o) (lit "salamander")) UnsupportedObfs;;
      ensure (negb (is_nil (obfs_password o))) EmptyObfsPassword
  end.

(** The loops over the headers and their values stop at the first bad one. *)
Fixpoint validate_headers (l : list (str * list str)) : result ConfigError unit :=
  match l with
  | [] => Ok tt
  | (n, values) :: l =>
      ensure (header_name_ok n) (BadMasqueradeHeader n);;
      ensure (forallb header_value_ok values) (BadMasqueradeHeader n);;
      validate_headers l
  end.

Definition validate_masquerade (m : option MasqueradeConfig) : result ConfigError unit :=
  match m with
  | None => Ok tt
  | Some (MFile directory) => ensure (negb (blank directory)) NoMasqueradeDirectory
  | Some (MProxy url _) =>
      scheme ← ok_or BadMasqueradeUrl (url_scheme url);
      ensure (one_of scheme [lit "http"; lit "https"]) MasqueradeScheme
  | Some (MString status headers _) =>
      ensure (status_ok status) BadMasqueradeStatus;;
      validate_headers headers
  end.

Definition validate_share (s : option ShareConfig) : result ConfigError unit :=
  match s with
  | None => Ok tt
  | Some s =>
      ensure (negb (blank (share_server s)) || negb (blank (ipv6_server s))) NoShareServer;;
      ensure (0 <? share_port s) ZeroSharePort;;
      ensure (one_of (rule_preset s)
                [lit "minimal"; lit "balanced"; lit "comprehensive"; lit "china"]) BadSharePreset;;
      rmap_err BadCustomRules (validate_custom_rule_values (share_whitelist s));;
      rmap_err BadCustomRules (validate_custom_rule_values (share_blacklist s))
  end.

(** [Config::validate]. *)
Definition validate (c : Config) : result ConfigError unit :=
  ensure (negb (is_nil (users c))) NoUsers;;
  ensure (forallb (fun u => negb (is_nil (user_password u))) (users c)) EmptyPassword;;
  ensure (forallb (fun u => negb (blank (user_name u))) (users c)) EmptyUserName;;
  ensure (negb (blank (certificate (tls c)))) NoCertificate;;
  ensure (negb (blank (private_key (tls c)))) NoPrivateKey;;
  ensure (0 <? timeout_secs (udp c)) ZeroUdpTimeout;;
  validate_ssh (ssh c);;
  validate_obfs (obfs c);;
  validate_masquerade (masquerade c);;
  validate_share (share c).
End validate.

(** ** Validation *)

(** The conditions of a configuration the server accepts. *)
Definition not_blank (s : str) : Prop := trim s ≠ [].

Definition lists_ok `{HostLib} (l : list str) : Prop := ∃ rules, parse_domain_rules (join [10] l) = Ok rules.

Definition ssh_ok (s : SshConfig) : Prop :=
  ssh_enabled s = true →
  is_loopback (ip (ssh_upstream s)) = true ∧ not_blank (ssh_username s) ∧ not_blank (ssh_private_key s).

Definition obfs_ok (o : ObfsConfig) : Prop :=
  obfs_kind o = lit "salamander" ∧ obfs_password o ≠ [].

Definition masquerade_ok `{HttpLib} (m : MasqueradeConfig) : Prop :=
  match m with
  | MFile directory => not_blank directory
  | MProxy url _ => ∃ scheme, url_scheme url = Some scheme ∧ scheme ∈ [lit "http"; lit "https"]
  | MString status headers _ =>
      status_ok status = true ∧
      Forall (fun h => header_name_ok h.1 = true ∧ Forall (fun v => header_value_ok v = true) h.2) headers
  end.

Definition share_ok `{HostLib} (s : ShareConfig) : Prop :=
  (not_blank (share_server s) ∨ not_blank (ipv6_server s)) ∧ 0 < share_port s ∧
  rule_preset s ∈ [lit "minimal"; lit "balanced"; lit "comprehensive"; lit "china"] ∧
  lists_ok (share_whitelist s) ∧ lists_ok (share_blacklist s).

Definition config_ok `{HostLib, HttpLib} (c : Config) : Prop :=
  users c ≠ [] ∧ Forall (fun u => user_password u ≠ [] ∧ not_blank (user_name u)) (users c) ∧
  not_blank (certificate (tls c)) ∧ not_blank (private_key (tls c)) ∧ 0 < timeout_secs (udp c) ∧
  ssh_ok (ssh c) ∧ (∀ o, obfs c = Some o → obfs_ok o) ∧
  (∀ m, masquerade c = Some m → masquerade_ok m) ∧ (∀ s, share c = Some s → share_ok s).

Lemma not_blank_true s : negb (blank s) = true ↔ not_blank s.
Proof. unfold blank, not_blank. by rewrite negb_true_iff, is_nil_false. Qed.

Lemma one_of_true s l : one_of s l = true ↔ s ∈ l.
Proof.
  unfold one_of. rewrite existsb_exists. setoid_rewrite str_eqb_eq.
  rewrite list_elem_of_In. naive_solver.
Qed.

Lemma forallb_Forall {A} (f : A → bool) l : forallb f l = true ↔ Forall (fun x => f x = true) l.
Proof. rewrite forallb_forall, Forall_forall. by setoid_rewrite list_elem_of_In. Qed.

Lemma seq_Ok {E} (a b : result E unit) u : (a;; b) = Ok u ↔ a = Ok tt ∧ b = Ok tt.
Proof. destruct a as [[]|], b as [[]|], u; naive_solver. Qed.

Section validate_lemmas.
Context `{HostLib} `{HttpLib}.

Lemma validate_ssh_Ok s u : validate_ssh s = Ok u ↔ ssh_ok s.
Proof.
  unfold validate_ssh, ssh_ok. destruct u. destruct (ssh_enabled s); [|naive_solver].
  rewrite !seq_Ok, !ensure_Ok, !not_blank_true. naive_solver.
Qed.

Lemma validate_obfs_Ok o u : validate_obfs o = Ok u ↔ ∀ x, o = Some x → obfs_ok x.
Proof.
  unfold validate_obfs, obfs_ok. destruct u, o as [o|]; [|naive_solver].
  rewrite seq_Ok, !ensure_Ok, str_eqb_eq, negb_true_iff, is_nil_false. naive_solver.
Qed.

Lemma validate_headers_Ok l u :
  validate_headers l = Ok u ↔
  Forall (fun h => header_name_ok h.1 = true ∧ Forall (fun v => header_value_ok v = true) h.2) l.
Proof.
  destruct u. induction l as [|[n vs] l IH]; cbn [validate_headers]; [naive_solver|].
  rewrite !seq_Ok, !ensure_Ok, IH, forallb_Forall, Forall_cons. cbn. naive_solver.
Qed.

Lemma validate_masquerade_Ok m u :
  validate_masquerade m = Ok u ↔ ∀ x, m = Some x → masquerade_ok x.
Proof.
  unfold validate_masquerade. destruct u, m as [[d|url r|st hs ct]|]; [| | |naive_solver].
  - rewrite ensure_Ok, not_blank_true. unfold masquerade_ok. naive_solver.
  - rewrite rbind_Ok. setoid_rewrite ok_or_Ok. setoid_rewrite ensure_Ok. setoid_rewrite one_of_true.
    unfold masquerade_ok. naive_solver.
  - rewrite seq_Ok, ensure_Ok, validate_headers_Ok. unfold masquerade_ok. naive_solver.
Qed.

Lemma custom_values_Ok l u :
  rmap_err BadCustomRules (validate_custom_rule_values l) = Ok u ↔ lists_ok l.
Proof.
  unfold validate_custom_rule_values, lists_ok. destruct u.
  destruct (parse_domain_rules (join [10] l)); res_simpl; naive_solver.
Qed.

Lemma validate_share_Ok s u : validate_share s = Ok u ↔ ∀ x, s = Some x → share_ok x.
Proof.
  unfold validate_share. destruct u, s as [s|]; [|naive_solver].
  rewrite !seq_Ok, !ensure_Ok, orb_true_iff, !not_blank_true, Z.ltb_lt, one_of_true, !custom_values_Ok.
  unfold share_ok. naive_solver.
Qed.

Lemma validate_Ok c u : validate c = Ok u ↔ config_ok c.
Proof.
  unfold validate, config_ok. destruct u.
  rewrite !seq_Ok, !ensure_Ok, !not_blank_true, !forallb_Forall, Z.ltb_lt, negb_true_iff, is_nil_false.
  rewrite validate_ssh_Ok, validate_obfs_Ok, validate_masquerade_Ok, validate_share_Ok.
  assert (Hu : Forall (fun u => negb (is_nil (user_password u)) = true) (users c) ∧
               Forall (fun u => negb (blank (user_name u)) = true) (users c) ↔
               Forall (fun u => user_password u ≠ [] ∧ not_blank (user_name u)) (users c)).
  { rewrite <- Forall_and. apply Forall_iff. intros x.
    by rewrite not_blank_true, negb_true_iff, is_nil_false. }
  naive_solver.
Qed.
End validate_lemmas.

(** ** Loading and saving

    The TOML library: a document it prints is UTF-8, and one it parses back.  Printing can
    fail, as TOML integers have 63 bits. *)

Class TomlLib (A : Type) := {
  toml_print : A → option str;
  toml_parse : str → option A;
  toml_print_utf8 : ∀ c s, toml_print c = Some s → utf8_valid s = true;
  toml_print_parse : ∀ c s, toml_print c = Some s → toml_parse s = Some c;
}.

Inductive SaveError := Invalid (e : ConfigError) | SerializeFailed | ParseFailed | ReadFailed
| WriteFailed | PermissionFailed | RenameFailed.

(** What goes wrong while saving: the temporary cannot be opened, [Some 0], or the write
    stops after [n] bytes, [Some (S n)]; the old file's metadata cannot be read; the mode
    cannot be set; the rename fails. *)
Record SaveFaults := { write_fault : option nat; metadata_fault : bool; mode_fault : bool; rename_fault : bool }.

Definition no_faults : SaveFaults :=
  {| write_fault := None; metadata_fault := false; mode_fault := false; rename_fault := false |}.

Section files.
Context `{HostLib} `{HttpLib} `{TomlLib Config}.

Definition from_toml (s : str) : result SaveError Config :=
  c ← ok_or ParseFailed (toml_parse s);
  rmap_err Invalid (validate c);;
  Ok c.

Definition to_toml (c : Config) : result SaveError str :=
  rmap_err Invalid (validate c);;
  ok_or SerializeFailed (toml_print c).

(** [Config::load]. *)
Definition load (fs : filesystem) (path : str) : result SaveError Config :=
  s ← ok_or ReadFailed (read_to_string fs path);
  from_toml s.

Definition temporary (path : str) : str := with_extension path (lit "toml.tmp").

(** [Config::save_atomic]: the outcome, and every state of the file system on the
    way, the partial writes included, in order.  Metadata that cannot be read is as no
    old file: the mode is not set, and the rename follows. *)
Definition save_atomic (c : Config) (fs : filesystem) (path : str) (faults : SaveFaults)
    : result SaveError unit * list filesystem :=
  match to_toml c with
  | Err e => (Err e, [fs])
  | Ok data =>
      let tmp := temporary path in
      let partial n := write_file fs tmp (take n data) in
      match write_fault faults with
      | Some n => (Err WriteFailed, fs :: (partial <$> seq 0 n))
      | None =>
          let fs1 := write_file fs tmp data in
          let trace := fs :: (partial <$> seq 0 (length data)) ++ [fs1] in
          let continue fs2 trace :=
            if rename_fault faults then (Err RenameFailed, trace ++ [fs2])
            else (Ok tt, trace ++ [fs2; rename fs2 tmp path]) in
          match (if metadata_fault faults then None else fs1 !! path) with
          | Some f =>
              if mode_fault faults then (Err PermissionFailed, trace)
              else continue (set_mode fs1 tmp (mode f)) trace
          | None => continue fs1 trace
          end
      end
  end.

(** A state seen while saving [data] over [fs]: nothing but the two files
    changes, and the configuration file is the old one, or the new one complete
    and, with [kept], with the old one's mode. *)
Definition save_state (kept : bool) (fs : filesystem) (path : str) (data : str) (fs' : filesystem) : Prop :=
  (∀ p, p ≠ path → p ≠ temporary path → fs' !! p = fs !! p) ∧
  (fs' !! path = fs !! path ∨
   ∃ f, fs' !! path = Some f ∧ contents f = data ∧ (kept = true → ∀ g, fs !! path = Some g → mode f = mode g)).

Lemma temporary_ne path : path ≠ temporary path.
Proof. intros E. symmetry in E. revert E. apply with_extension_ne. by vm_compute; repeat constructor. Qed.

Lemma save_state_write kept fs path data d : save_state kept fs path data (write_file fs (temporary path) d).
Proof.
  pose proof (temporary_ne path). unfold write_file. split.
  - intros p Hp Ht. by rewrite lookup_insert_ne.
  - left. by rewrite lookup_insert_ne.
Qed.

Lemma save_state_refl kept fs path data : save_state kept fs path data fs.
Proof. by split; [|left]. Qed.

Lemma to_toml_from_toml c data : to_toml c = Ok data → from_toml data = Ok c ∧ config_ok c.
Proof.
  unfold to_toml, from_toml. intros E. res_inv. destruct r.
  destruct (validate c) as [[]|] eqn:Ev; [|done].
  rewrite (toml_print_parse c data E). res_simpl. rewrite Ev. res_simpl.
  split; [done|]. by apply (validate_Ok c tt).
Qed.

Lemma to_toml_utf8 c data : to_toml c = Ok data → utf8_valid data = true.
Proof. unfold to_toml. intros E. res_inv. by eapply toml_print_utf8. Qed.

(** A file with the text of a configuration loads as it. *)
Lemma load_written_config c fs path f :
  to_toml c = Ok (contents f) → fs !! path = Some f → load fs path = Ok c.
Proof.
  intros E Hf. unfold load. rewrite (read_to_string_valid fs path f Hf) by by eapply to_toml_utf8. res_simpl.
  by apply to_toml_from_toml.
Qed.

Lemma save_state_load kept c fs path data fs' :
  to_toml c = Ok data → save_state kept fs path data fs' →
  load fs' path = load fs path ∨ load fs' path = Ok c.
Proof.
  intros E (_ & [Hp|(f & Hf & <- & _)]).
  - left. unfold load, read_to_string. by rewrite Hp.
  - right. by apply (load_written_config c fs' path f).
Qed.

(** The rename is what makes the new file visible, complete and with its mode. *)
Lemma save_state_rename kept fs path data fs2 f :
  fs2 !! temporary path = Some f → contents f = data →
  (kept = true → ∀ g, fs !! path = Some g → mode f = mode g) → save_state kept fs path data fs2 →
  let fs3 := rename fs2 (temporary path) path in
  save_state kept fs path data fs3 ∧ fs3 !! path = Some f ∧ fs3 !! temporary path = None.
Proof.
  intros Hf Hd Hm [Hfr _] fs3. pose proof (temporary_ne path) as Hne.
  unfold fs3, rename. rewrite Hf. split_and!.
  - split; [|right; exists f; by rewrite lookup_insert_eq].
    intros p Hp Ht. rewrite lookup_insert_ne, lookup_delete_ne by done. by apply Hfr.
  - by rewrite lookup_insert_eq.
  - by rewrite lookup_insert_ne, lookup_delete_eq.
Qed.

Definition save_outcome (kept : bool) (c : Config) (fs : filesystem) (path : str)
    (out : result SaveError unit * list filesystem) : Prop :=
  (∀ fs', fs' ∈ out.2 → load fs' path = load fs path ∨ load fs' path = Ok c) ∧
  (∀ fs' p, fs' ∈ out.2 → p ≠ path → p ≠ temporary path → fs' !! p = fs !! p) ∧
  ∃ fs_end, last out.2 = Some fs_end ∧
    match out.1 with
    | Ok _ => load fs_end path = Ok c ∧ fs_end !! temporary path = None ∧
              (kept = true → ∀ f g, fs_end !! path = Some f → fs !! path = Some g → mode f = mode g)
    | Err _ => fs_end !! path = fs !! path
    end.

(** A trace of good states ending in one with the old file, when saving fails... *)
Lemma save_outcome_err kept c fs path data e trace fs_end :
  to_toml c = Ok data → Forall (save_state kept fs path data) (trace ++ [fs_end]) →
  fs_end !! path = fs !! path → save_outcome kept c fs path (Err e, trace ++ [fs_end]).
Proof.
  intros E Hall Hend. rewrite Forall_forall in Hall. split_and!; cbn [fst snd].
  - intros fs' Hin. by apply (save_state_load kept c fs path data), Hall.
  - intros fs' p Hin. by apply (Hall fs' Hin).
  - exists fs_end. by rewrite last_snoc.
Qed.

(** ... or in the renamed one, when it succeeds. *)
Lemma save_outcome_ok kept c fs path data trace fs2 f :
  to_toml c = Ok data → Forall (save_state kept fs path data) (trace ++ [fs2]) →
  fs2 !! temporary path = Some f → contents f = data →
  (kept = true → ∀ g, fs !! path = Some g → mode f = mode g) →
  save_outcome kept c fs path (Ok tt, trace ++ [fs2; rename fs2 (temporary path) path]).
Proof.
  intros E Hall Hf Hd Hm.
  assert (H2 : save_state kept fs path data fs2) by (apply Forall_app in Hall as [_ H2]; by inversion H2).
  destruct (save_state_rename kept fs path data fs2 f Hf Hd Hm H2) as (H3 & Hp3 & Ht3).
  assert (Hall' : ∀ x, x ∈ trace ++ [fs2; rename fs2 (temporary path) path] → save_state kept fs path data x).
  { apply Forall_forall. change ([fs2; ?r]) with ([fs2] ++ [r]). rewrite app_assoc.
    apply Forall_app_2; [done|by constructor]. }
  split_and!; cbn [fst snd].
  - intros fs' Hin. by apply (save_state_load kept c fs path data), Hall'.
  - intros fs' p Hin. by apply (Hall' fs' Hin).
  - eexists. change ([fs2; ?r]) with ([fs2] ++ [r]). rewrite app_assoc, last_snoc.
    split; [done|]. split_and!; [|done|].
    + apply (load_written_config c _ path f); [by rewrite Hd|done].
    + intros Hk f' g Hf' Hg. rewrite Hp3 in Hf'. injection Hf' as <-. by apply Hm.
Qed.

(** After the temporary is written in full: [fs2] is what the rename starts from. *)
Lemma save_outcome_finish kept c fs path data trace fs2 f (fault : bool) :
  to_toml c = Ok data → Forall (save_state kept fs path data) trace →
  save_state kept fs path data fs2 → fs2 !! path = fs !! path →
  fs2 !! temporary path = Some f → contents f = data →
  (kept = true → ∀ g, fs !! path = Some g → mode f = mode g) →
  save_outcome kept c fs path
    (if fault then (Err RenameFailed, trace ++ [fs2])
     else (Ok tt, trace ++ [fs2; rename fs2 (temporary path) path])).
Proof.
  intros E Ht H2 Hp Hf Hd Hm.
  assert (Hall : Forall (save_state kept fs path data) (trace ++ [fs2])) by (apply Forall_app_2; auto).
  destruct fault; [by apply (save_outcome_err kept c fs path data)|].
  by apply (save_outcome_ok kept c fs path data _ _ f).
Qed.

Lemma save_state_mode kept fs path data fs1 f m :
  save_state kept fs path data fs1 → fs1 !! path = fs !! path →
  fs1 !! temporary path = Some f →
  let fs2 := set_mode fs1 (temporary path) m in
  save_state kept fs path data fs2 ∧ fs2 !! path = fs !! path ∧
  fs2 !! temporary path = Some {| contents := contents f; mode := m |}.
Proof.
  intros [Hfr _] Hp Hf fs2. pose proof (temporary_ne path). unfold fs2, set_mode. rewrite Hf.
  rewrite lookup_insert_ne, lookup_insert_eq by done. split_and!; [|done|done].
  split; [|left; by rewrite lookup_insert_ne].
  intros p Hp' Ht. rewrite lookup_insert_ne by done. by apply Hfr.
Qed.

Lemma save_atomic_outcome c fs path faults :
  save_outcome (negb (metadata_fault faults)) c fs path (save_atomic c fs path faults).
Proof.
  set (kept := negb (metadata_fault faults)).
  unfold save_atomic. destruct (to_toml c) as [data|e] eqn:E.
  2: { split_and!; cbn.
       - intros fs' ->%list_elem_of_singleton. by left.
       - by intros fs' p ->%list_elem_of_singleton.
       - by exists fs. }
  set (part := fun n => write_file fs (temporary path) (take n data)).
  assert (Hpart : ∀ l, Forall (save_state kept fs path data) (fs :: (part <$> l))).
  { intros l. constructor; [apply save_state_refl|]. apply Forall_fmap, Forall_true.
    intros n. apply save_state_write. }
  pose proof (temporary_ne path) as Hne.
  destruct (write_fault faults) as [[|n]|].
  - apply (save_outcome_err kept c fs path data _ []); [done|apply (Hpart [])|done].
  - rewrite seq_S, fmap_app. change (fs :: ?a ++ ?b) with ((fs :: a) ++ b).
    apply (save_outcome_err kept c fs path data); [done| |by apply lookup_insert_ne].
    apply Forall_app_2; [apply Hpart|]. constructor; [apply save_state_write|done].
  - set (fs1 := write_file fs (temporary path) data).
    assert (Hfs1 : save_state kept fs path data fs1) by apply save_state_write.
    assert (Hp1 : fs1 !! path = fs !! path) by (by apply lookup_insert_ne).
    pose proof (lookup_insert_eq fs (temporary path) {| contents := data; mode :=
      match fs !! temporary path with Some f => mode f | None => DEFAULT_MODE end |}) as Ht1.
    change (fs1 !! temporary path = Some {| contents := data; mode :=
      match fs !! temporary path with Some f => mode f | None => DEFAULT_MODE end |}) in Ht1.
    change (fs :: (part <$> ?a) ++ ?b) with ((fs :: (part <$> a)) ++ b).
    set (trace := (fs :: (part <$> seq 0 (length data))) ++ [fs1]).
    assert (Htrace : Forall (save_state kept fs path data) trace)
      by (apply Forall_app_2; [apply Hpart|by constructor]).
    destruct (if metadata_fault faults then None else fs1 !! path) as [f|] eqn:Hm; [destruct (mode_fault faults)|].
    1, 2: destruct (metadata_fault faults); [done|]; rename Hm into Hf.
    + apply (save_outcome_err kept c fs path data); [done|done|congruence].
    + destruct (save_state_mode kept fs path data fs1 _ (mode f) Hfs1 ltac:(congruence) Ht1) as (H2 & Hp2 & Ht2).
      apply (save_outcome_finish kept c fs path data _ _ _ _ E Htrace H2 Hp2 Ht2); [done|].
      intros _ g Hg. cbn. congruence.
    + apply (save_outcome_finish kept c fs path data _ _ _ _ E Htrace Hfs1 ltac:(congruence) Ht1); [done|].
      intros Hk g Hg. apply negb_true_iff in Hk. rewrite Hk in Hm. congruence.
Qed.

(** Claim C19. Whatever call fails and wherever a save is interrupted, the program being stopped, the configuration file
    loads as before or as the new configuration, and no other file than it and its
    temporary changes; after a failed save it is untouched, after a successful one it
    loads as the new configuration, and the temporary is gone. Its permissions are the
    old file's, unless these could not be read, which the save passes over. (The
    program does not synchronise this file, and what a loss of power leaves is not
    described here.) *)
Theorem save_atomic_crash_safe c fs path faults :
  save_outcome (negb (metadata_fault faults)) c fs path (save_atomic c fs path faults).
Proof. apply save_atomic_outcome. Qed.
End files.

Section text.
Context `{HostLib} `{HttpLib} `{TomlLib Config}.

(** Text and configuration: a document the program writes is one it
    reads back as the same configuration; only configurations that meet every
    condition of [config_ok] are read or written, and one is refused as invalid
    exactly when it breaks one of them. *)
Theorem config_text_roundtrip c :
  (∀ data, to_toml c = Ok data → from_toml data = Ok c) ∧
  (∀ s, from_toml s = Ok c → config_ok c) ∧
  ((∃ e, to_toml c = Err (Invalid e)) ↔ ¬ config_ok c).
Proof.
  split_and!.
  - intros data E. by apply to_toml_from_toml.
  - intros s E. unfold from_toml in E. res_inv. subst. destruct (validate c) as [[]|] eqn:Ev; [|done].
    by apply (validate_Ok c tt).
  - rewrite <- (validate_Ok c tt). unfold to_toml. destruct (validate c) as [[]|e]; res_simpl.
    + destruct (toml_print c); res_simpl; naive_solver.
    + naive_solver.
Qed.
End text.

(** ** An instance to evaluate on *)

Definition example_http : HttpLib := {|
  url_scheme := fun u => fst <$> split_once_str (lit "://") u;
  status_ok := fun s => in_range 100 s 999;
  header_name_ok := fun n => negb (is_nil n) && forallb is_ascii_alphanumeric n;
  header_value_ok := forallb (fun b => in_range 32 b 126) |}.

Definition example_config : Config := {|
  listen := {| ip := V4 [0; 0; 0; 0]; port := 443 |};
  tls := {| certificate := lit "cert.pem"; private_key := lit "key.pem" |};
  users := [{| user_name := lit "poetry"; user_password := lit "secret" |}];
  ssh := default_ssh;
  bandwidth := {| up_mbps := 100; down_mbps := 0; ignore_client_bandwidth := false |};
  udp := default_udp; outbound := PreferIpv4; obfs := None; masquerade := None;
  share := Some {| share_server := lit "198.51.100.10"; ipv6_server := []; share_port := 443;
                   share_sni := lit "example.com"; share_insecure := false;
                   rule_preset := default_share_rule_preset; ad_block := false;
                   share_whitelist := [lit "example.cn"]; share_blacklist := [] |} |}.

(** A printer that knows one document. *)
Definition example_print (c : Config) : option str :=
  if decide (c = example_config) then Some (lit "example") else None.
Definition example_parse (s : str) : option Config :=
  if str_eqb s (lit "example") then Some example_config else None.

Lemma example_print_parse c s : example_print c = Some s → example_parse s = Some c.
Proof. unfold example_print. case_decide; [|done]. by intros [= <-]; subst. Qed.

Lemma example_print_utf8 c s : example_print c = Some s → utf8_valid s = true.
Proof. unfold example_print. case_decide; [|done]. by intros [= <-]. Qed.

Definition example_toml : TomlLib Config :=
  {| toml_print := example_print; toml_parse := example_parse; toml_print_utf8 := example_print_utf8;
     toml_print_parse := example_print_parse |}.

Lemma save_atomic_crash_safe_witness :
  (@save_atomic example_hostlib example_http example_toml example_config ∅ (lit "/etc/a.toml") no_faults).1
    = Ok tt ∧
  @save_outcome example_hostlib example_http example_toml true example_config ∅ (lit "/etc/a.toml")
    (@save_atomic example_hostlib example_http example_toml example_config ∅ (lit "/etc/a.toml") no_faults).
Proof.
  split; [by vm_compute|].
  apply (@save_atomic_crash_safe example_hostlib example_http example_toml example_config ∅ (lit "/etc/a.toml") no_faults).
Defined.

Lemma config_text_roundtrip_witness :
  (∀ data, @to_toml example_hostlib example_http example_toml example_config = Ok data →
           @from_toml example_hostlib example_http example_toml data = Ok example_config) ∧
  (∀ s, @from_toml example_hostlib example_http example_toml s = Ok example_config →
        @config_ok example_hostlib example_http example_config) ∧
  ((∃ e, @to_toml example_hostlib example_http example_toml example_config = Err (Invalid e)) ↔
   ¬ @config_ok example_hostlib example_http example_config).
Proof. apply (@config_text_roundtrip example_hostlib example_http example_toml example_config). Defined.
