(* ===== verification/Inodes.v ===== *)
(** * Saves over inodes

    The two ways in which the program replaces a file, [Config::save_atomic] of
    [src/src/config.rs] and the [save] of [src/src/reverse_proxy.rs] with
    [write_credentials] of [src/src/admin.rs], as sequences of system calls on a disk in
    which names refer to inodes: a file that was opened is written to wherever its name
    goes meanwhile.  One saver alone does what Config and PrivateFile say of it. *)

From stdpp Require Import base list gmap strings.
From Stdlib Require Import ZArith Lia.
From S2P Require Import Prelude RustStr Rules Files PrivateFile Config.

Open Scope Z_scope.

(** ** The disk *)

Record Disk := {
  names : gmap str nat;
  inodes : gmap nat file;
  next_inode : nat;
}.

(** What a reader that opens files by name sees. *)
Definition view (d : Disk) : filesystem := omap (fun i => inodes d !! i) (names d).

Definition set_inode (i : nat) (g : file → file) (d : Disk) : Disk :=
  {| names := names d; inodes := alter g i (inodes d); next_inode := next_inode d |}.

Definition truncated (f : file) : file := {| contents := []; mode := mode f |}.

Definition with_mode (m : Z) (f : file) : file := {| contents := contents f; mode := m |}.

(** Bytes written at an offset; a gap is filled with zeros. *)
Definition splice (off : nat) (data c : list Z) : list Z :=
  take off c ++ replicate (off - length c) 0 ++ data ++ drop (off + length data) c.

Definition spliced (off : nat) (data : list Z) (f : file) : file :=
  {| contents := splice off data (contents f); mode := mode f |}.

(** [open] with create and truncate: the inode that has the name, or a new one. *)
Definition open_file (path : str) (new_mode : Z) (d : Disk) : nat * Disk :=
  match names d !! path with
  | Some i => (i, set_inode i truncated d)
  | None =>
      (next_inode d,
       {| names := <[path := next_inode d]> (names d);
          inodes := <[next_inode d := {| contents := []; mode := new_mode |}]> (inodes d);
          next_inode := S (next_inode d) |})
  end.

(** [rename]: the name [to] refers to the inode, whatever it referred to. *)
Definition move (from to : str) (i : nat) (d : Disk) : Disk :=
  {| names := <[to := i]> (delete from (names d)); inodes := inodes d; next_inode := next_inode d |}.

(** ** One saver *)

(** The configuration is written with [fs::write] and takes over the mode of the old
    file; the private files are created with their mode and synchronised. *)
Inductive SaveKind := Public | Private.

#[export] Instance SaveKind_eq_dec : EqDecision SaveKind.
Proof. solve_decision. Defined.

Definition save_temporary (k : SaveKind) (path : str) : str :=
  match k with Public => temporary path | Private => private_temporary path end.

Definition created_mode (k : SaveKind) : Z :=
  match k with Public => DEFAULT_MODE | Private => PRIVATE_MODE end.

(** The call that failed. *)
Inductive SaveStage := AtOpen | AtWrite | AtMode | AtSync | AtRename.

(** The next call: to open the temporary, to write at an offset of the inode that was
    opened, to read the mode of the old file, to set it, to synchronise, to rename. *)
Inductive SavePhase :=
| Opening
| Writing (i off : nat)
| Inspecting
| SettingMode (m : Z)
| Syncing
| Renaming
| Saved (r : result SaveStage unit).

Definition saved_phase (p : SavePhase) : bool := match p with Saved _ => true | _ => false end.

(** What a call does: a write takes at least one byte, and up to the given number
    more; any call may fail.  The inspection of the old file is not an error when it
    fails: the mode is not set. *)
Inductive Outcome := Works (more : nat) | Fails.

Definition after_writing (k : SaveKind) : SavePhase :=
  match k with Public => Inspecting | Private => Syncing end.

(** [write_all] goes on until everything is written. *)
Definition writing (k : SaveKind) (data : list Z) (i off : nat) : SavePhase :=
  if (off <? length data)%nat then Writing i off else after_writing k.

Definition save_step (k : SaveKind) (path : str) (data : list Z) (o : Outcome) (p : SavePhase) (d : Disk)
    : SavePhase * Disk :=
  let tmp := save_temporary k path in
  match p, o with
  | Opening, Fails => (Saved (Err AtOpen), d)
  | Opening, Works _ => let '(i, d) := open_file tmp (created_mode k) d in (writing k data i 0, d)
  | Writing i off, Fails => (Saved (Err AtWrite), d)
  | Writing i off, Works more =>
      let chunk := take (S more) (drop off data) in
      (writing k data i (off + length chunk), set_inode i (spliced off chunk) d)
  | Inspecting, Fails => (Renaming, d)
  | Inspecting, Works _ => (match view d !! path with Some f => SettingMode (mode f) | None => Renaming end, d)
  | SettingMode m, Fails => (Saved (Err AtMode), d)
  | SettingMode m, Works _ =>
      match names d !! tmp with
      | Some i => (Renaming, set_inode i (with_mode m) d)
      | None => (Saved (Err AtMode), d)
      end
  | Syncing, Fails => (Saved (Err AtSync), d)
  | Syncing, Works _ => (Renaming, d)
  | Renaming, Fails => (Saved (Err AtRename), d)
  | Renaming, Works _ =>
      match names d !! tmp with
      | Some i => (Saved (Ok tt), move tmp path i d)
      | None => (Saved (Err AtRename), d)
      end
  | Saved r, _ => (Saved r, d)
  end.

(** ** The disk's lemmas *)

(** No name is a hard link of another, and no name dangles. *)
Record disk_ok (d : Disk) : Prop := {
  names_inj : ∀ p q i, names d !! p = Some i → names d !! q = Some i → p = q;
  names_live : ∀ p i, names d !! p = Some i → is_Some (inodes d !! i);
  inodes_old : ∀ i, is_Some (inodes d !! i) → (i < next_inode d)%nat;
}.

Lemma view_lookup d p : view d !! p = names d !! p ≫= fun i => inodes d !! i.
Proof. unfold view. by rewrite lookup_omap. Qed.

Lemma view_dom d p : disk_ok d → is_Some (view d !! p) ↔ is_Some (names d !! p).
Proof.
  intros Hd. rewrite view_lookup. split; [intros (f & (i & Hi & _)%bind_Some); by eexists|].
  intros [i Hi]. rewrite Hi. cbn. by apply (names_live d Hd p).
Qed.

(** A change of an inode is a change of the file with its name, and of no other. *)
Lemma view_set_inode i g d p : disk_ok d → names d !! p = Some i → view (set_inode i g d) = alter g p (view d).
Proof.
  intros Hd Hp. apply map_eq. intros q. rewrite view_lookup. cbn [names inodes set_inode].
  destruct (decide (q = p)) as [->|Hq].
  - rewrite lookup_alter_eq, view_lookup, Hp. cbn. by rewrite lookup_alter_eq.
  - rewrite lookup_alter_ne, view_lookup by done. destruct (names d !! q) as [j|] eqn:Hj; [|done]. cbn.
    rewrite lookup_alter_ne; [done|]. intros ->. by apply Hq, (names_inj d Hd q p j).
Qed.

(** An inode without a name is nobody's file. *)
Lemma view_set_unnamed i g d : (∀ p, names d !! p ≠ Some i) → view (set_inode i g d) = view d.
Proof.
  intros Hn. apply map_eq. intros q. rewrite !view_lookup. cbn [names inodes set_inode].
  destruct (names d !! q) as [j|] eqn:Hj; [|done]. cbn. rewrite lookup_alter_ne; [done|].
  intros ->. by apply (Hn q).
Qed.

Lemma set_inode_ok i g d : disk_ok d → disk_ok (set_inode i g d).
Proof.
  intros [H1 H2 H3]. split; cbn [names inodes next_inode set_inode].
  - done.
  - intros p j Hj. rewrite lookup_alter_is_Some. eauto.
  - intros j. rewrite lookup_alter_is_Some. eauto.
Qed.

Lemma view_move from to i d :
  disk_ok d → names d !! from = Some i → view (move from to i d) = rename (view d) from to.
Proof.
  intros Hd Hi. destruct (names_live d Hd from i Hi) as [f Hf]. unfold rename.
  rewrite (view_lookup d from), Hi. cbn [mbind option_bind]. rewrite Hf.
  apply map_eq. intros q. rewrite view_lookup. cbn [names inodes move].
  destruct (decide (q = to)) as [->|Hq]; [by rewrite !lookup_insert_eq|]. rewrite !lookup_insert_ne by done.
  destruct (decide (q = from)) as [->|Hq']; [by rewrite !lookup_delete_eq|]. by rewrite !lookup_delete_ne, view_lookup by done.
Qed.

Lemma move_ok from to i d : disk_ok d → names d !! from = Some i → disk_ok (move from to i d).
Proof.
  intros [H1 H2 H3] Hi. split; cbn [names inodes next_inode move]; [| |done].
  - intros p q j. rewrite !lookup_insert_Some, !lookup_delete_Some. naive_solver.
  - intros p j. rewrite lookup_insert_Some, lookup_delete_Some. naive_solver.
Qed.

Lemma open_file_ok path m d : disk_ok d → disk_ok (open_file path m d).2.
Proof.
  intros Hd. unfold open_file. destruct (names d !! path) as [i|] eqn:Hi; [by apply set_inode_ok|].
  destruct Hd as [H1 H2 H3].
  assert (Hfresh : ∀ p, names d !! p ≠ Some (next_inode d)).
  { intros p Hp. specialize (H3 _ (H2 _ _ Hp)). lia. }
  split; cbn [snd names inodes next_inode].
  - intros p q j. rewrite !lookup_insert_Some. naive_solver.
  - intros p j. rewrite lookup_insert_Some. intros [[<- <-]|[Hp Hj]]; [by rewrite lookup_insert_eq|].
    rewrite lookup_insert_ne by (intros <-; by apply (Hfresh p)). eauto.
  - intros j [f Hf]. rewrite lookup_insert_Some in Hf. destruct Hf as [[<- _]|[_ Hf]]; [lia|].
    specialize (H3 j ltac:(eauto)). lia.
Qed.

Lemma open_file_spec path m d i d' :
  disk_ok d → open_file path m d = (i, d') →
  names d' !! path = Some i ∧ (∀ q, q ≠ path → names d' !! q = names d !! q) ∧
  view d' = <[path := {| contents := []; mode := match view d !! path with Some f => mode f | None => m end |}]> (view d).
Proof.
  intros Hd. unfold open_file. destruct (names d !! path) as [j|] eqn:Hj; intros [= <- <-].
  - split_and!; [done|done|]. rewrite (view_set_inode _ _ _ path) by done.
    destruct (proj2 (view_dom d path Hd) (ex_intro _ _ Hj)) as [f Hf]. rewrite Hf.
    apply map_eq. intros q. destruct (decide (q = path)) as [->|Hq].
    + by rewrite lookup_alter_eq, lookup_insert_eq, Hf.
    + by rewrite lookup_alter_ne, lookup_insert_ne.
  - cbn [names]. split_and!; [by rewrite lookup_insert_eq|intros q Hq; by rewrite lookup_insert_ne|].
    rewrite (view_lookup d path), Hj. cbn [mbind option_bind].
    apply map_eq. intros q. rewrite view_lookup. cbn [names inodes].
    destruct (decide (q = path)) as [->|Hq].
    + rewrite !lookup_insert_eq. cbn. by rewrite lookup_insert_eq.
    + rewrite !lookup_insert_ne, view_lookup by done. destruct (names d !! q) as [k|] eqn:Hk; [|done]. cbn.
      rewrite lookup_insert_ne; [done|]. intros <-.
      specialize (inodes_old d Hd _ (names_live d Hd q _ Hk)). lia.
Qed.

Lemma save_step_ok k path data o p d : disk_ok d → disk_ok (save_step k path data o p d).2.
Proof.
  intros Hd. destruct p, o; cbn [save_step snd]; try done.
  - pose proof (open_file_ok (save_temporary k path) (created_mode k) d Hd) as H.
    by destruct (open_file (save_temporary k path) (created_mode k) d).
  - by apply set_inode_ok.
  - destruct (names d !! _); [by apply set_inode_ok|done].
  - destruct (names d !! _) eqn:E; [by apply move_ok|done].
Qed.

(** ** A saver that is alone *)

(** The disks on the way of one saver, one for each call, and its phase at the end. *)
Fixpoint save_run (k : SaveKind) (path : str) (data : list Z) (outcomes : list Outcome) (p : SavePhase) (d : Disk)
    : list Disk * SavePhase :=
  match outcomes with
  | [] => ([d], p)
  | o :: outcomes =>
      let '(p', d') := save_step k path data o p d in
      let '(ds, q) := save_run k path data outcomes p' d' in
      (d :: ds, q)
  end.

Definition save_error (s : SaveStage) : SaveError :=
  match s with AtMode => PermissionFailed | AtRename => RenameFailed | _ => WriteFailed end.

Definition replace_error (s : SaveStage) : ReplaceError :=
  match s with
  | AtOpen => FileNotOpened
  | AtSync => FileNotSynced
  | AtRename => FileNotRenamed
  | _ => FileNotWritten
  end.

(** Whether the old file's metadata is still read. *)
Definition still_kept (o : Outcome) (p : SavePhase) (ins : bool) : bool :=
  match p, o with Inspecting, Fails => false | _, _ => ins end.

(** Whether a run reads it where it tries to. *)
Fixpoint reads_metadata (k : SaveKind) (path : str) (data : list Z) (outcomes : list Outcome) (p : SavePhase) (d : Disk)
    : bool :=
  match outcomes with
  | [] => true
  | o :: outcomes =>
      let '(p', d') := save_step k path data o p d in
      still_kept o p true && reads_metadata k path data outcomes p' d'
  end.

Lemma still_kept_and o p ins : still_kept o p ins = ins && still_kept o p true.
Proof. destruct p, o; cbn; by rewrite ?andb_true_r, ?andb_false_r. Qed.

(** A save that has ended does nothing more. *)
Lemma save_run_saved k path data outcomes r d :
  (save_run k path data outcomes (Saved r) d).2 = Saved r ∧ last (save_run k path data outcomes (Saved r) d).1 = Some d.
Proof.
  induction outcomes as [|o outcomes [IH1 IH2]]; cbn [save_run save_step]; [done|].
  destruct (save_run k path data outcomes (Saved r) d) as [ds q]. cbn [fst snd] in *. by rewrite last_cons, IH2.
Qed.

(** The calls left at most, so that a saver ends. *)
Definition calls_left (data : list Z) (p : SavePhase) : nat :=
  match p with
  | Opening => length data + 5
  | Writing _ off => length data - off + 4
  | Inspecting => 3
  | SettingMode _ | Syncing => 2
  | Renaming => 1
  | Saved _ => 0
  end.

Lemma save_step_calls k path data o p d :
  calls_left data p ≠ 0%nat →
  (calls_left data (save_step k path data o p d).1 < calls_left data p)%nat.
Proof.
  assert (Hw : ∀ i off, (calls_left data (writing k data i off) ≤ length data - off + (if (off <? length data)%nat then 4 else 3))%nat).
  { intros i off. unfold writing. destruct (off <? length data)%nat; destruct k; cbn; lia. }
  intros Hp. destruct p as [|i off| | | | |r], o; cbn [save_step fst calls_left]; try lia; try done;
    repeat (case_match; cbn [fst calls_left]); try lia.
  - specialize (Hw n 0%nat). destruct (0 <? length data)%nat; lia.
  - pose proof (Hw i (off + length (take (S more) (drop off data)))%nat) as H1. rewrite length_take, length_drop in *.
    destruct (Nat.ltb_spec (off + S more `min` (length data - off)) (length data)); lia.
Qed.

Lemma save_run_ends k path data outcomes p d :
  (calls_left data p ≤ length outcomes)%nat → ∃ r, (save_run k path data outcomes p d).2 = Saved r.
Proof.
  revert p d. induction outcomes as [|o outcomes IH]; intros p d Hl; cbn [length save_run] in *.
  - destruct p; cbn [calls_left snd] in *; try lia. by eexists.
  - pose proof (save_step_calls k path data o p d) as Hs.
    destruct (save_step k path data o p d) as [p' d'] eqn:E. cbn [fst] in Hs.
    assert (Hl' : (calls_left data p' ≤ length outcomes)%nat).
    { destruct (decide (calls_left data p = 0%nat)) as [H0|H0]; [|specialize (Hs H0); lia].
      destruct p; cbn [calls_left] in H0; try lia. injection E as <- <-. cbn. lia. }
    destruct (IH p' d' Hl') as [r Hr]. destruct (save_run k path data outcomes p' d') as [ds q]. by exists r.
Qed.

(** The flat account of both savers: one fault at most, with the bytes written before
    it; [ins] says whether the old file's metadata was read. *)
Section flat.
Context (k : SaveKind) (path : str) (data : list Z) (fs : filesystem).

Definition partly (n : nat) : filesystem :=
  <[save_temporary k path := {| contents := take n data;
      mode := match fs !! save_temporary k path with Some f => mode f | None => created_mode k end |}]> fs.

Definition complete : filesystem := partly (length data).

(** What is renamed. *)
Definition ready (ins : bool) : filesystem :=
  match k with
  | Public =>
      match (if ins then complete !! path else None) with
      | Some f => set_mode complete (save_temporary k path) (mode f)
      | None => complete
      end
  | Private => complete
  end.

Definition until (n : nat) : list filesystem := fs :: (partly <$> seq 0 n).

Definition until_ready (ins : bool) : list filesystem :=
  until (S (length data)) ++ match k with Public => [ready ins] | Private => [] end.

Definition flat (ins : bool) (fault : option (SaveStage * nat)) : result SaveStage unit * list filesystem :=
  match fault with
  | Some (AtOpen, _) => (Err AtOpen, [fs])
  | Some (AtWrite, n) => (Err AtWrite, until (S n))
  | Some (AtRename, _) => (Err AtRename, until_ready ins)
  | Some (stage, _) => (Err stage, until (S (length data)))
  | None => (Ok tt, until_ready ins ++ [rename (ready ins) (save_temporary k path) path])
  end.

(** A saver at a phase has been through a part of that account. *)
Definition along (ins : bool) (p : SavePhase) (d : Disk) (seen : list filesystem) : Prop :=
  match p with
  | Opening => ins = true ∧ view d = fs ∧ seen ⊆ [fs]
  | Writing i off =>
      ins = true ∧ names d !! save_temporary k path = Some i ∧ (off < length data)%nat ∧ view d = partly off ∧ seen ⊆ until (S off)
  | Inspecting => ins = true ∧ k = Public ∧ view d = complete ∧ seen ⊆ until (S (length data))
  | SettingMode m =>
      ins = true ∧ k = Public ∧ (∃ f, complete !! path = Some f ∧ mode f = m) ∧ view d = complete ∧ seen ⊆ until (S (length data))
  | Syncing => ins = true ∧ k = Private ∧ view d = complete ∧ seen ⊆ until (S (length data))
  | Renaming => view d = ready ins ∧ seen ⊆ until_ready ins
  | Saved r => ∃ fault, (flat ins fault).1 = r ∧ seen ⊆ (flat ins fault).2 ∧ last (flat ins fault).2 = Some (view d) ∧
      (∀ n, fault = Some (AtMode, n) → k = Public ∧ is_Some (complete !! path)) ∧
      (∀ n, fault = Some (AtSync, n) → k = Private)
  end.
End flat.

Section flat_lemmas.
Context (k : SaveKind) (path : str) (data : list Z) (fs : filesystem) (Hne : save_temporary k path ≠ path).
Local Abbreviation tmp := (save_temporary k path).
Local Abbreviation partly := (partly k path data fs).
Local Abbreviation complete := (complete k path data fs).
Local Abbreviation ready := (ready k path data fs).
Local Abbreviation until := (until k path data fs).
Local Abbreviation until_ready := (until_ready k path data fs).
Local Abbreviation flat := (flat k path data fs).
Local Abbreviation along := (along k path data fs).

Lemma until_mono m n : (m ≤ n)%nat → until m ⊆ until n.
Proof.
  intros Hmn x. unfold Inodes.until. rewrite !elem_of_cons, !list_elem_of_fmap.
  intros [->|(i & -> & Hi%elem_of_seq)]; [by left|right]. exists i. split; [done|]. apply elem_of_seq. lia.
Qed.

Lemma until_partly n : partly n ∈ until (S n).
Proof. unfold Inodes.until. right. apply list_elem_of_fmap. exists n. split; [done|]. apply elem_of_seq. lia. Qed.

Lemma last_until n : last (until (S n)) = Some (partly n).
Proof. unfold Inodes.until. rewrite seq_S, fmap_app. change (fs :: ?a ++ ?b) with ((fs :: a) ++ b). apply last_snoc. Qed.

Lemma until_until_ready ins : until (S (length data)) ⊆ until_ready ins.
Proof. apply list_subseteq_app_l. reflexivity. Qed.

Lemma last_until_ready ins : last (until_ready ins) = Some (ready ins).
Proof.
  pose proof (last_until (length data)) as Hl. unfold Inodes.until_ready, Inodes.ready, Inodes.complete.
  revert Hl. destruct k; intros Hl; [apply last_snoc|by rewrite app_nil_r].
Qed.

Lemma partly_lookup n :
  partly n !! tmp = Some {| contents := take n data;
                            mode := match fs !! tmp with Some f => mode f | None => created_mode k end |}.
Proof. apply lookup_insert_eq. Qed.

Lemma partly_path n : partly n !! path = fs !! path.
Proof. by apply lookup_insert_ne. Qed.

(** Writing the next bytes. *)
Lemma partly_spliced off more :
  (off < length data)%nat →
  alter (spliced off (take (S more) (drop off data))) tmp (partly off) =
  partly (off + length (take (S more) (drop off data))).
Proof.
  intros Hoff. unfold Inodes.partly. rewrite alter_insert_eq. f_equal. unfold spliced. cbn [contents mode]. f_equal.
  unfold splice. rewrite take_ge, (drop_ge (take off data)) by (rewrite length_take; lia).
  rewrite length_take, Nat.min_l, Nat.sub_diag by lia. cbn [replicate app]. rewrite app_nil_r, take_take_drop.
  rewrite length_take, length_drop.
  destruct (Nat.le_gt_cases (S more) (length data - off)); [by rewrite Nat.min_l by lia|].
  rewrite Nat.min_r, !take_ge by lia. done.
Qed.

Lemma along_writing i off d seen :
  names d !! tmp = Some i → (off ≤ length data)%nat → view d = partly off → seen ⊆ until (S off) →
  along true (writing k data i off) d seen.
Proof.
  intros Hi Hoff Hv Hs. unfold writing. destruct (Nat.ltb_spec off (length data)) as [Hlt|Hge]; [done|].
  assert (off = length data) as -> by lia. unfold Inodes.complete. by destruct k.
Qed.

Lemma along_saved ins fault d seen :
  seen ⊆ (flat ins fault).2 → last (flat ins fault).2 = Some (view d) →
  (∀ n, fault = Some (AtMode, n) → k = Public ∧ is_Some (complete !! path)) →
  (∀ n, fault = Some (AtSync, n) → k = Private) → along ins (Saved (flat ins fault).1) d seen.
Proof. intros H1 H2 H3 H4. by exists fault. Qed.

(** The next disk is in the account too. *)
Lemma seen_cons (l l' seen : list filesystem) x : seen ⊆ l → l ⊆ l' → x ∈ l' → x :: seen ⊆ l'.
Proof. set_solver. Qed.

Lemma last_in (l : list filesystem) x : last l = Some x → x ∈ l.
Proof. intros (l' & ->)%last_Some. apply elem_of_app. right. by left. Qed.

(** The call that fails, in the state where the account then ends. *)
Lemma along_fails ins fault l d seen :
  (flat ins fault).2 = l → seen ⊆ l → last l = Some (view d) →
  (∀ n, fault = Some (AtMode, n) → k = Public ∧ is_Some (complete !! path)) →
  (∀ n, fault = Some (AtSync, n) → k = Private) → along ins (Saved (flat ins fault).1) d (view d :: seen).
Proof. intros <- Hs Hl H1 H2. apply along_saved; [|done..]. by apply (seen_cons _ _ _ _ Hs), last_in. Qed.

Lemma along_opened d seen more :
  disk_ok d → along true Opening d seen →
  let '(p', d') := save_step k path data (Works more) Opening d in along true p' d' (view d' :: seen).
Proof.
  intros Hd (_ & Hv & Hs). cbn [save_step]. destruct (open_file tmp (created_mode k) d) as [i d'] eqn:E.
  destruct (open_file_spec _ _ _ _ _ Hd E) as (Hi & _ & Hv'). rewrite Hv in Hv'.
  apply along_writing; [done|lia|done|]. rewrite Hv'.
  apply (seen_cons _ _ _ _ Hs); [|apply (until_partly 0)]. intros x ->%list_elem_of_singleton. by left.
Qed.

Lemma along_wrote i off d seen more :
  disk_ok d → along true (Writing i off) d seen →
  let '(p', d') := save_step k path data (Works more) (Writing i off) d in along true p' d' (view d' :: seen).
Proof.
  intros Hd (_ & Hi & Hoff & Hv & Hs). cbn [save_step].
  set (chunk := take (S more) (drop off data)).
  assert (Hv' : view (set_inode i (spliced off chunk) d) = partly (off + length chunk)).
  { rewrite (view_set_inode _ _ _ tmp), Hv by done. by apply partly_spliced. }
  apply along_writing; [done| |done|].
  - unfold chunk. rewrite length_take, length_drop. lia.
  - rewrite Hv'. apply (seen_cons _ _ _ _ Hs); [apply until_mono; lia|apply until_partly].
Qed.

(** The temporary is there when its mode is set and when it is renamed. *)
Lemma ready_temporary ins : is_Some (ready ins !! tmp) ∧ is_Some (complete !! tmp).
Proof.
  assert (Hc : is_Some (complete !! tmp)) by (eexists; apply partly_lookup). split; [|exact Hc].
  unfold Inodes.ready, set_mode. destruct Hc as [g Hg].
  repeat case_match; try done; by rewrite ?Hg, ?lookup_insert_eq; eexists.
Qed.

Lemma names_of_view d fs' : disk_ok d → view d = fs' → is_Some (fs' !! tmp) → ∃ i, names d !! tmp = Some i.
Proof. intros Hd <- Hs. by apply (view_dom d tmp Hd). Qed.

Lemma along_inspected o d seen :
  along true Inspecting d seen →
  let '(p', d') := save_step k path data o Inspecting d in along (still_kept o Inspecting true) p' d' (view d' :: seen).
Proof.
  intros (_ & Hk & Hv & Hs). assert (Hs' : view d :: seen ⊆ until (S (length data))).
  { apply (seen_cons _ _ _ _ Hs); [done|]. rewrite Hv. apply until_partly. }
  destruct o as [more|]; cbn [save_step still_kept].
  - rewrite Hv at 1. destruct (complete !! path) as [f|] eqn:E; [by split_and!; [..|exists f| |]|].
    split; [|by etrans; [|apply until_until_ready]]. unfold Inodes.ready. by rewrite Hk, <- Hk, E.
  - split; [|by etrans; [|apply until_until_ready]]. unfold Inodes.ready. by rewrite Hk, <- Hk.
Qed.

Lemma along_mode_set more m d seen :
  disk_ok d → along true (SettingMode m) d seen →
  let '(p', d') := save_step k path data (Works more) (SettingMode m) d in along true p' d' (view d' :: seen).
Proof.
  intros Hd (_ & Hk & (f & Hf & Hm) & Hv & Hs). cbn [save_step].
  destruct (names_of_view d _ Hd Hv (proj2 (ready_temporary true))) as [i Hi]. rewrite Hi.
  assert (Hv' : view (set_inode i (with_mode m) d) = ready true).
  { rewrite (view_set_inode _ _ _ tmp), Hv by done. unfold Inodes.ready, set_mode.
    destruct (proj2 (ready_temporary true)) as [g Hg]. rewrite Hk, <- Hk, Hf, Hg, <- Hm.
    by rewrite (alter_alt_Some _ _ _ g). }
  split; [done|]. rewrite Hv'. apply (seen_cons _ _ _ _ Hs); [apply until_until_ready|apply last_in, last_until_ready].
Qed.

Lemma along_renamed ins more d seen :
  disk_ok d → along ins Renaming d seen →
  let '(p', d') := save_step k path data (Works more) Renaming d in along ins p' d' (view d' :: seen).
Proof.
  intros Hd (Hv & Hs). cbn [save_step].
  destruct (names_of_view d _ Hd Hv (proj1 (ready_temporary ins))) as [i Hi]. rewrite Hi.
  assert (Hv' : view (move tmp path i d) = rename (ready ins) tmp path) by (by rewrite view_move, Hv).
  apply (along_saved ins None); [| |done..]; rewrite Hv'; cbn [Inodes.flat snd].
  - apply (seen_cons _ _ _ _ Hs); [apply list_subseteq_app_l; reflexivity|apply last_in, last_snoc].
  - apply last_snoc.
Qed.

(** The invariant of the account is kept by every call. *)
Lemma along_step ins o p d seen :
  disk_ok d → along ins p d seen →
  let '(p', d') := save_step k path data o p d in along (still_kept o p ins) p' d' (view d' :: seen).
Proof.
  intros Hd Ha.
  assert (Hins : match p with Renaming | Saved _ => True | _ => ins = true end) by (destruct p; cbn in Ha; tauto).
  destruct o as [more|]; destruct p as [|i off| |m| | |r]; try subst ins;
    [by apply along_opened|by apply along_wrote|by apply along_inspected|by apply along_mode_set| |by apply along_renamed|
    | | |by apply along_inspected| | | |]; cbn [save_step still_kept].
  - destruct Ha as (_ & Hk & Hv & Hs). split; [|].
    + unfold Inodes.ready. by rewrite Hk, <- Hk.
    + rewrite Hv. apply (seen_cons _ _ _ _ Hs); [apply until_until_ready|apply until_until_ready, until_partly].
  - destruct Ha as (fault & <- & Hs & Hl & H1 & H2). by apply (along_fails ins fault _ _ _ eq_refl Hs).
  - destruct Ha as (_ & Hv & Hs). by apply (along_fails true (Some (AtOpen, 0%nat)) [fs]); [|done|cbn; rewrite Hv|..].
  - destruct Ha as (_ & _ & _ & Hv & Hs).
    by apply (along_fails true (Some (AtWrite, off)) _ _ _ eq_refl Hs); [cbn [Inodes.flat snd]; rewrite last_until, Hv|..].
  - destruct Ha as (_ & Hk & (f & Hf & _) & Hv & Hs).
    apply (along_fails true (Some (AtMode, 0%nat)) _ _ _ eq_refl Hs); [cbn [Inodes.flat snd]; by rewrite last_until, Hv| |done].
    intros _ _. split; [done|by eexists].
  - destruct Ha as (_ & Hk & Hv & Hs).
    by apply (along_fails true (Some (AtSync, 0%nat)) _ _ _ eq_refl Hs); [cbn [Inodes.flat snd]; rewrite last_until, Hv|..].
  - destruct Ha as (Hv & Hs).
    by apply (along_fails ins (Some (AtRename, 0%nat)) _ _ _ eq_refl Hs); [cbn [Inodes.flat snd]; rewrite last_until_ready, Hv|..].
  - destruct Ha as (fault & <- & Hs & Hl & H1 & H2). by apply (along_fails ins fault _ _ _ eq_refl Hs).
Qed.

Lemma along_run outcomes ins p d seen ds q :
  disk_ok d → along ins p d seen → view d ∈ seen → save_run k path data outcomes p d = (ds, q) →
  ∃ d_end seen', last ds = Some d_end ∧ along (ins && reads_metadata k path data outcomes p d) q d_end seen' ∧
    seen ⊆ seen' ∧ (∀ d', d' ∈ ds → view d' ∈ seen').
Proof.
  revert ins p d seen ds q. induction outcomes as [|o outcomes IH]; intros ins p d seen ds q Hd Ha Hin; cbn [save_run reads_metadata].
  - intros [= <- <-]. rewrite andb_true_r. exists d, seen. split_and!; [done..|]. by intros d' ->%list_elem_of_singleton.
  - pose proof (along_step ins o p d seen Hd Ha) as Hstep. pose proof (save_step_ok k path data o p d Hd) as Hd'.
    destruct (save_step k path data o p d) as [p' d1]. destruct (save_run k path data outcomes p' d1) as [ds1 q1] eqn:E.
    intros [= <- <-].
    destruct (IH _ p' d1 (view d1 :: seen) ds1 q1 Hd' Hstep ltac:(by left) E) as (d_end & seen' & Hl & Ha' & Hsub & Hall).
    rewrite still_kept_and, <- andb_assoc in Ha'.
    assert (Hsub' : seen ⊆ seen') by (intros x Hx; apply Hsub; by right).
    exists d_end, seen'. split_and!; [by rewrite last_cons, Hl|done..|].
    intros d' [->|Hd1]%elem_of_cons; [by apply Hsub'|by apply Hall].
Qed.

(** Wherever a saver is, there is an account that contains what was seen. *)
Lemma along_account ins p d seen :
  along ins p d seen →
  ∃ fault, seen ⊆ (flat ins fault).2 ∧
    (∀ n, fault = Some (AtMode, n) → k = Public ∧ is_Some (complete !! path)) ∧
    (∀ n, fault = Some (AtSync, n) → k = Private) ∧
    (∀ r, p = Saved r → r = (flat ins fault).1 ∧ last (flat ins fault).2 = Some (view d)).
Proof.
  assert (Hall : until (S (length data)) ⊆ (flat ins None).2).
  { cbn [Inodes.flat snd]. apply list_subseteq_app_l, until_until_ready. }
  destruct p as [|i off| |m| | |r]; cbn [Inodes.along]; intros Ha.
  7: { destruct Ha as (fault & Hr & Hs & Hl & H1 & H2). exists fault. split_and!; [done..|]. by intros ? [= <-]. }
  all: exists None; split_and!; [|done..].
  - destruct Ha as (_ & _ & Hs). etrans; [apply Hs|]. intros x ->%list_elem_of_singleton. apply Hall. by left.
  - destruct Ha as (_ & _ & Hoff & _ & Hs). etrans; [apply Hs|]. etrans; [|apply Hall]. apply until_mono. lia.
  - by etrans; [apply Ha|].
  - by etrans; [apply Ha|].
  - by etrans; [apply Ha|].
  - etrans; [apply Ha|]. cbn [Inodes.flat snd]. by apply list_subseteq_app_l.
Qed.

Lemma lone_account outcomes d :
  disk_ok d → view d = fs →
  let '(ds, q) := save_run k path data outcomes Opening d in
  let ins := reads_metadata k path data outcomes Opening d in
  ∃ fault, (∀ d', d' ∈ ds → view d' ∈ (flat ins fault).2) ∧
    (∀ n, fault = Some (AtMode, n) → k = Public ∧ is_Some (complete !! path)) ∧
    (∀ n, fault = Some (AtSync, n) → k = Private) ∧
    (∀ r, q = Saved r → r = (flat ins fault).1 ∧ last (flat ins fault).2 = view <$> last ds).
Proof.
  intros Hd Hv. destruct (save_run k path data outcomes Opening d) as [ds q] eqn:E.
  destruct (along_run outcomes true Opening d [fs] ds q) as (d_end & seen & Hl & Ha & _ & Hall);
    [done|by split|by rewrite Hv; left|done|]. cbn [andb] in Ha. set (ins := reads_metadata _ _ _ _ _ _) in *.
  destruct (along_account ins q d_end seen Ha) as (fault & Hs & H1 & H2 & H3). exists fault. split_and!; [|done..|].
  - intros d' Hd'. by apply Hs, Hall.
  - intros r Hr. rewrite Hl. by apply H3.
Qed.
End flat_lemmas.

Lemma last_partly k path data fs : complete k path data fs = <[save_temporary k path := {| contents := data;
    mode := match fs !! save_temporary k path with Some f => mode f | None => created_mode k end |}]> fs.
Proof. unfold complete, partly. by rewrite take_ge. Qed.

Lemma until_complete k path data fs :
  until k path data fs (S (length data)) =
  fs :: (partly k path data fs <$> seq 0 (length data)) ++ [complete k path data fs].
Proof. unfold until. by rewrite seq_S, fmap_app. Qed.

(** The flat account is that of Config... *)
Lemma flat_public `{HostLib} `{HttpLib} `{TomlLib Config} c path data fs ins fault :
  to_toml c = Ok data →
  (∀ n, fault = Some (AtMode, n) → is_Some (complete Public path data fs !! path)) →
  (∀ n, fault ≠ Some (AtSync, n)) →
  ∃ faults, (metadata_fault faults = true → ins = false) ∧ save_atomic c fs path faults =
    (rmap_err save_error (flat Public path data fs ins fault).1, (flat Public path data fs ins fault).2).
Proof.
  intros Hc Hm Hs.
  exists (match fault with
          | Some (AtOpen, _) => {| write_fault := Some 0%nat; metadata_fault := false; mode_fault := false; rename_fault := false |}
          | Some (AtWrite, n) => {| write_fault := Some (S n); metadata_fault := false; mode_fault := false; rename_fault := false |}
          | Some (AtMode, _) => {| write_fault := None; metadata_fault := false; mode_fault := true; rename_fault := false |}
          | Some (_, _) => {| write_fault := None; metadata_fault := negb ins; mode_fault := false; rename_fault := true |}
          | None => {| write_fault := None; metadata_fault := negb ins; mode_fault := false; rename_fault := false |}
          end).
  assert (Hw : write_file fs (temporary path) data = complete Public path data fs) by by rewrite last_partly.
  split; [by destruct fault as [[[]]|], ins|]. unfold save_atomic. rewrite Hc.
  destruct fault as [[[] n]|]; cbn [write_fault metadata_fault mode_fault rename_fault flat fst snd rmap_err save_error]; try done.
  - rewrite Hw, until_complete. destruct (Hm n eq_refl) as [f Hf]. by rewrite Hf.
  - by destruct (Hs n).
  - rewrite Hw. unfold until_ready, ready. rewrite until_complete. destruct ins; cbn [negb]; [|done].
    by destruct (complete Public path data fs !! path).
  - rewrite Hw. unfold until_ready, ready. rewrite until_complete, <- app_assoc. destruct ins; cbn [negb]; [|done].
    by destruct (complete Public path data fs !! path).
Qed.

(** ... and that of PrivateFile. *)
Lemma flat_private path data fs ins fault :
  (∀ n, fault ≠ Some (AtMode, n)) →
  ∃ faults, directory_fault faults = false ∧ replace_private data fs path faults =
    (rmap_err replace_error (flat Private path data fs ins fault).1, (flat Private path data fs ins fault).2).
Proof.
  intros Hm.
  exists {| directory_fault := false;
            open_fault := match fault with Some (AtOpen, _) => true | _ => false end;
            short_write := match fault with Some (AtWrite, n) => Some n | _ => None end;
            sync_fault := match fault with Some (AtSync, _) => true | _ => false end;
            move_fault := match fault with Some (AtRename, _) => true | _ => false end |}.
  assert (Hw : written fs (private_temporary path) data = complete Private path data fs) by by rewrite last_partly.
  split; [done|]. unfold replace_private.
  destruct fault as [[[] n]|]; cbn [directory_fault open_fault short_write sync_fault move_fault flat fst snd rmap_err replace_error];
    try done; [by destruct (Hm n)|..]; unfold until_ready, ready; rewrite ?app_nil_r, until_complete, Hw; done.
Qed.

(** What a run of one saver shows and how it ends, against an account. *)
Definition accounted {E : Type} (error : SaveStage → E) (run : list Disk * SavePhase)
    (out : result E unit * list filesystem) : Prop :=
  (∀ d, d ∈ run.1 → view d ∈ out.2) ∧
  (∀ r, run.2 = Saved r → out.1 = rmap_err error r ∧ last out.2 = view <$> last run.1).

(** Claim C21. A save, call by call on a disk of names and inodes, with writes that are
    accepted in pieces of any size and any call failing, is what the development says of
    it on a file system: that of a configuration is [save_atomic], that of a private file
    [replace_private], for some of their faults, the old mode being given up only if the
    call that reads it has failed.  Every disk on its way looks like a
    state of theirs, and when it ends the result and the last state are theirs; and it
    ends after at most five calls more than it has bytes to write. *)
Theorem lone_saver_refines `{HostLib} `{HttpLib} `{TomlLib Config} c path data outcomes d :
  disk_ok d →
  (to_toml c = Ok data →
   ∃ faults, (metadata_fault faults = true → reads_metadata Public path data outcomes Opening d = false) ∧
     accounted save_error (save_run Public path data outcomes Opening d) (save_atomic c (view d) path faults)) ∧
  (private_temporary path ≠ path →
   ∃ faults, accounted replace_error (save_run Private path data outcomes Opening d)
               (replace_private data (view d) path faults)) ∧
  (∀ k, (length data + 5 ≤ length outcomes)%nat →
   ∃ r, (save_run k path data outcomes Opening d).2 = Saved r).
Proof.
  intros Hd. split_and!.
  - intros Hc. pose proof (temporary_ne path) as Hne.
    pose proof (lone_account Public path data (view d) (not_eq_sym Hne) outcomes d Hd eq_refl) as Ha.
    destruct (save_run Public path data outcomes Opening d) as [ds q]. destruct Ha as (fault & Hin & Hmode & Hsync & Hend).
    destruct (flat_public c path data (view d) (reads_metadata Public path data outcomes Opening d) fault Hc) as (faults & Hmf & Hf);
      [intros n En; by apply (Hmode n)|intros n En; by specialize (Hsync n En)|].
    exists faults. split; [done|]. rewrite Hf. split; [done|].
    intros r Hr. destruct (Hend r Hr) as [-> Hl]. by split.
  - intros Hne.
    pose proof (lone_account Private path data (view d) Hne outcomes d Hd eq_refl) as Ha.
    destruct (save_run Private path data outcomes Opening d) as [ds q]. destruct Ha as (fault & Hin & Hmode & Hsync & Hend).
    destruct (flat_private path data (view d) (reads_metadata Private path data outcomes Opening d) fault) as (faults & _ & Hf); [intros n En; by destruct (Hmode n En)|].
    exists faults. rewrite Hf. split; [done|]. intros r Hr. destruct (Hend r Hr) as [-> Hl]. by split.
  - intros k Hl. by apply save_run_ends.
Qed.

(** ** A concrete save *)

Definition example_config_path : str := lit "config.toml".

Definition example_disk : Disk :=
  {| names := {[ example_config_path := 0%nat ]}; inodes := {[ 0%nat := {| contents := lit "first"; mode := 384 |} ]};
     next_inode := 1 |}.

Lemma example_disk_ok : disk_ok example_disk.
Proof.
  split; cbn [names inodes next_inode example_disk].
  - intros p q i. rewrite !lookup_singleton_Some. naive_solver.
  - intros p i. rewrite lookup_singleton_Some. intros [_ <-]. by rewrite lookup_singleton_eq.
  - intros i [f Hf]. apply lookup_singleton_Some in Hf as [<- _]. lia.
Qed.

(** The calls of a configuration's save, the text taken in two pieces. *)
Definition example_outcomes : list Outcome := [Works 0; Works 3; Works 9] ++ replicate 20 (Works 0).

Lemma lone_saver_refines_witness :
  (save_run Public example_config_path (lit "example") example_outcomes Opening example_disk).2 = Saved (Ok tt) ∧
  ∃ faults, metadata_fault faults = false ∧ accounted save_error
    (save_run Public example_config_path (lit "example") example_outcomes Opening example_disk)
    (@save_atomic example_hostlib example_http example_toml example_config (view example_disk) example_config_path faults).
Proof.
  split; [by vm_compute|].
  destruct (proj1 (@lone_saver_refines example_hostlib example_http example_toml example_config example_config_path
    (lit "example") example_outcomes example_disk example_disk_ok) ltac:(by vm_compute)) as (faults & Hm & Ha).
  exists faults. split; [|exact Ha]. destruct (metadata_fault faults); [|done].
  specialize (Hm eq_refl). by vm_compute in Hm.
Defined.
