(* ===== verification/Saves.v ===== *)
(** * Saves of one file by many requests

    [put_config] of [src/src/admin.rs]: a request takes the lock, and its save runs on
    another thread while it waits.  A request whose client goes away is dropped where it
    waits: the lock is free again, and the save goes on. *)

From stdpp Require Import base list gmap strings.
From Stdlib Require Import ZArith Lia.
From S2P Require Import Prelude RustStr Rules Files PrivateFile Config Inodes.

Open Scope Z_scope.

(** The disk, the saves that were started with what they write, and who has the lock. *)
Record Saves := {
  disk : Disk;
  savers : gmap nat (list Z * SavePhase);
  holder : option nat;
}.

Definition saves_init (d : Disk) : Saves := {| disk := d; savers := ∅; holder := None |}.

(** A request takes the lock and starts its save; the save makes its next call; the
    request, its save ended, gives the lock back; or it is dropped before. *)
Inductive SaveEvent :=
| Acquire (id : nat) (data : list Z)
| Call (id : nat) (o : Outcome)
| Release (id : nat)
| Cancel (id : nat).

Definition set_holder (h : option nat) (s : Saves) : Saves :=
  {| disk := disk s; savers := savers s; holder := h |}.

Section saves.
Context (k : SaveKind) (path : str).

Definition saves_step (s : Saves) (e : SaveEvent) : option Saves :=
  match e with
  | Acquire id data =>
      if bool_decide (holder s = None ∧ savers s !! id = None)
      then Some {| disk := disk s; savers := <[id := (data, Opening)]> (savers s); holder := Some id |}
      else None
  | Call id o =>
      match savers s !! id with
      | Some (data, p) =>
          if saved_phase p then None
          else
            let '(p', d') := save_step k path data o p (disk s) in
            Some {| disk := d'; savers := <[id := (data, p')]> (savers s); holder := holder s |}
      | None => None
      end
  | Release id =>
      match savers s !! id with
      | Some (_, p) => if bool_decide (holder s = Some id) && saved_phase p then Some (set_holder None s) else None
      | None => None
      end
  | Cancel id => if bool_decide (holder s = Some id) then Some (set_holder None s) else None
  end.

Fixpoint saves_run (s : Saves) (events : list SaveEvent) : option Saves :=
  match events with
  | [] => Some s
  | e :: events => s' ← saves_step s e; saves_run s' events
  end.

(** No save is under way. *)
Definition settled (s : Saves) : bool := bool_decide (map_Forall (fun _ q => saved_phase q.2 = true) (savers s)).

(** A run in which a save starts only when none is under way. *)
Fixpoint orderly_run (s : Saves) (events : list SaveEvent) : option Saves :=
  match events with
  | [] => Some s
  | e :: events =>
      if match e with Acquire _ _ => settled s | _ => true end
      then s' ← saves_step s e; orderly_run s' events
      else None
  end.

(** Whether the step reads the old file's metadata where it tries to, and whether every
    step of a run does. *)
Definition inspects (s : Saves) (e : SaveEvent) : bool :=
  match e with
  | Call id o => match savers s !! id with Some (_, p) => still_kept o p true | None => true end
  | _ => true
  end.

Fixpoint all_inspect (s : Saves) (events : list SaveEvent) : bool :=
  match events with
  | [] => true
  | e :: events => inspects s e && match saves_step s e with Some s' => all_inspect s' events | None => true end
  end.

Definition is_cancel (e : SaveEvent) : bool := match e with Cancel _ => true | _ => false end.

(** What a call by which a save ends well has saved. *)
Definition landed (s' : Saves) (e : SaveEvent) : option (list Z) :=
  match e with
  | Call id _ => match savers s' !! id with Some (data, Saved (Ok _)) => Some data | _ => None end
  | _ => None
  end.

(** A step seen by readers: it changes nothing but the temporary, or it puts the
    complete new contents in place of the file at once, with its mode if [kept]. *)
Definition step_seen (kept : bool) (fs fs' : filesystem) (landing : option (list Z)) : Prop :=
  (∀ p, p ≠ path → p ≠ save_temporary k path → fs' !! p = fs !! p) ∧
  match landing with
  | None => fs' !! path = fs !! path
  | Some data => ∃ f, fs' !! path = Some f ∧ contents f = data ∧
      (kept = true → k = Public → ∀ g, fs !! path = Some g → mode f = mode g)
  end.

Lemma step_seen_weaken (kept kept' : bool) fs fs' landing :
  (kept' = true → kept = true) → step_seen kept fs fs' landing → step_seen kept' fs fs' landing.
Proof.
  intros Hk [Ho Hl]. split; [done|]. destruct landing as [data|]; [|done]. destruct Hl as (f & Hf & Hd & Hm).
  exists f. split_and!; [done..|]. auto.
Qed.
End saves.

(** ** The lock keeps the saves apart *)

Section locked.
Context (k : SaveKind) (path : str) (Hne : save_temporary k path ≠ path).
Local Abbreviation tmp := (save_temporary k path).
Local Abbreviation step := (saves_step k path).

(** Without cancellations a save that is under way is the holder's. *)
Definition only_holder (s : Saves) : Prop :=
  ∀ id data p, savers s !! id = Some (data, p) → saved_phase p = false → holder s = Some id.

Lemma only_holder_step s e s' : only_holder s → is_cancel e = false → step s e = Some s' → only_holder s'.
Proof.
  intros Hs Hc. destruct e as [id data|id o|id|id]; cbn [saves_step is_cancel] in *; [| | |done].
  - case_bool_decide as Hb; [|done]. intros [= <-] j data' p. cbn [savers holder]. rewrite lookup_insert_Some.
    intros [[<- _]|[_ Hj]] Hp; [done|]. specialize (Hs _ _ _ Hj Hp). destruct Hb as [Hb _]. congruence.
  - destruct (savers s !! id) as [[data p]|] eqn:E; [|done]. destruct (saved_phase p) eqn:Ep; [done|].
    destruct (save_step k path data o p (disk s)) as [p' d']. intros [= <-] j data' q. cbn [savers holder].
    rewrite lookup_insert_Some. intros [[<- _]|[_ Hj]] Hq; [by apply (Hs _ _ _ E)|by apply (Hs _ _ _ Hj)].
  - destruct (savers s !! id) as [[data p]|] eqn:E; [|done]. case_bool_decide as Hb; [|done]. cbn [andb].
    destruct (saved_phase p) eqn:Ep; [|done]. intros [= <-] j data' q Hj Hq. cbn [savers holder set_holder] in *.
    specialize (Hs _ _ _ Hj Hq). rewrite Hb in Hs. injection Hs as ->. rewrite E in Hj. injection Hj as <- <-. congruence.
Qed.

Lemma free_settled s : only_holder s → holder s = None → settled s = true.
Proof.
  intros Hs Hh. apply bool_decide_eq_true. intros id [data p] Hi. cbn [snd].
  destruct (saved_phase p) eqn:Ep; [done|]. specialize (Hs _ _ _ Hi Ep). congruence.
Qed.

Lemma locked_orderly s events s' :
  only_holder s → Forall (fun e => is_cancel e = false) events → saves_run k path s events = Some s' →
  orderly_run k path s events = Some s'.
Proof.
  revert s. induction events as [|e events IH]; intros s Hs Hc; cbn [saves_run orderly_run]; [done|].
  inversion Hc as [|? ? Hce Hcs]; subst. intros (s1 & He & Hrun)%bind_Some.
  assert (Hset : match e with Acquire _ _ => settled s | _ => true end = true).
  { destruct e; try done. cbn [saves_step] in He. case_bool_decide as Hb; [|done]. by apply free_settled, Hb. }
  rewrite Hset, He. cbn. apply IH; [by apply (only_holder_step s e)|done|done].
Qed.

(** ** A save that is alone is seen at once *)

Section alone.
Context (data : list Z) (fs : filesystem).
Local Abbreviation ready := (ready k path data fs).
Local Abbreviation flat := (flat k path data fs).

(** Nothing but the temporary has changed. *)
Definition unseen (fs' : filesystem) : Prop := ∀ q, q ≠ tmp → fs' !! q = fs !! q.

Lemma unseen_partly n : unseen (partly k path data fs n).
Proof. intros q Hq. by apply lookup_insert_ne. Qed.

Lemma unseen_ready ins : unseen (ready ins).
Proof.
  intros q Hq. rewrite <- (unseen_partly (length data) q Hq). unfold Inodes.ready, set_mode, complete.
  repeat case_match; try done. by rewrite lookup_insert_ne.
Qed.

Lemma ready_contents ins :
  ∃ f, ready ins !! tmp = Some f ∧ contents f = data ∧
    (ins = true → k = Public → ∀ g, fs !! path = Some g → mode f = mode g).
Proof.
  pose proof (partly_lookup k path data fs (length data)) as Ht. rewrite take_ge in Ht by done.
  assert (Hp : complete k path data fs !! path = fs !! path) by by apply unseen_partly.
  unfold Inodes.ready, set_mode. fold (complete k path data fs) in Ht. rewrite Hp, Ht.
  destruct (decide (k = Private)) as [->|Hk]; [by eexists|].
  assert (k = Public) as -> by by destruct k.
  destruct ins; [|by eexists]. destruct (fs !! path) as [g|].
  - rewrite lookup_insert_eq. eexists. split_and!; [done..|]. by intros _ _ g' [= <-].
  - eexists. split_and!; [apply Ht|done|done].
Qed.

Lemma flat_end_seen ins fault fs' :
  last (flat ins fault).2 = Some fs' → step_seen k path ins fs fs' (match fault with None => Some data | _ => None end).
Proof.
  assert (Hu : ∀ fs', unseen fs' → step_seen k path ins fs fs' None).
  { intros fs1 Hu. split; [intros q _ Hq|]; by apply Hu. }
  destruct fault as [[[] n]|]; cbn [Inodes.flat snd]; rewrite ?last_until, ?last_until_ready by done.
  - intros [= <-]. by apply Hu.
  - intros [= <-]. apply Hu, unseen_partly.
  - intros [= <-]. apply Hu, unseen_partly.
  - intros [= <-]. apply Hu, unseen_partly.
  - intros [= <-]. apply Hu, unseen_ready.
  - rewrite last_snoc. intros [= <-]. destruct (ready_contents ins) as (f & Hf & Hd & Hm). unfold rename. rewrite Hf. split.
    + intros q Hq Hq'. rewrite lookup_insert_ne, lookup_delete_ne by done. by apply unseen_ready.
    + exists f. by rewrite lookup_insert_eq.
Qed.

(** What a saver has changed so far. *)
Lemma along_seen ins p d seen :
  along k path data fs ins p d seen →
  step_seen k path ins fs (view d) (match p with Saved (Ok _) => Some data | _ => None end).
Proof.
  assert (Hu : unseen (view d) → step_seen k path ins fs (view d) None).
  { intros Hu. split; [intros q _ Hq|]; by apply Hu. }
  destruct p as [|i off| |m| | |r]; cbn [along].
  - intros (_ & Hv & _). apply Hu. by rewrite Hv.
  - intros (_ & _ & _ & Hv & _). apply Hu. rewrite Hv. apply unseen_partly.
  - intros (_ & _ & Hv & _). apply Hu. rewrite Hv. apply unseen_partly.
  - intros (_ & _ & _ & Hv & _). apply Hu. rewrite Hv. apply unseen_partly.
  - intros (_ & _ & Hv & _). apply Hu. rewrite Hv. apply unseen_partly.
  - intros (Hv & _). apply Hu. rewrite Hv. apply unseen_ready.
  - intros (fault & <- & _ & Hl & _). apply flat_end_seen in Hl. by destruct fault as [[[] n]|].
Qed.
End alone.

(** In an orderly run at most one save is under way, and it has been alone: the file and
    those beside it are as when it started; with [kept] its mode will be kept. *)
Record orderly_inv (kept : bool) (s : Saves) : Prop := {
  orderly_disk : disk_ok (disk s);
  orderly_alone : ∀ i j q q', savers s !! i = Some q → savers s !! j = Some q' →
    saved_phase q.2 = false → saved_phase q'.2 = false → i = j;
  orderly_along : ∀ i data p, savers s !! i = Some (data, p) → saved_phase p = false →
    ∃ ins fs seen, (kept = true → ins = true) ∧ along k path data fs ins p (disk s) seen;
}.

Lemma orderly_inv_step kept s e s' :
  orderly_inv kept s → (match e with Acquire _ _ => settled s | _ => true end) = true → step s e = Some s' →
  orderly_inv (kept && inspects s e) s' ∧
  step_seen k path (kept && inspects s e) (view (disk s)) (view (disk s')) (landed s' e).
Proof.
  intros [Hd Hone Ha] Hset.
  assert (Hrefl : ∀ b, step_seen k path b (view (disk s)) (view (disk s)) None) by done.
  destruct e as [id data|id o|id|id]; cbn [saves_step landed inspects] in *; rewrite ?andb_true_r.
  - case_bool_decide; [|done]. intros [= <-]. split; [|done]. apply bool_decide_eq_true in Hset.
    assert (Hold : ∀ i q, <[id := (data, Opening)]> (savers s) !! i = Some q → saved_phase q.2 = false →
                   i = id ∧ q = (data, Opening)).
    { intros i q [[<- <-]|[_ Hi]]%lookup_insert_Some Hq; [done|]. specialize (Hset i q Hi). cbn in Hset. congruence. }
    split; cbn [disk savers]; [done| |].
    + intros i j q q' Hi Hj Hq Hq'. by destruct (Hold i q Hi Hq) as [-> _], (Hold j q' Hj Hq') as [-> _].
    + intros i data' p Hi Hp. destruct (Hold i _ Hi Hp) as [-> [= -> ->]]. by exists true, (view (disk s)), [view (disk s)].
  - destruct (savers s !! id) as [[data p]|] eqn:E; [|done]. destruct (saved_phase p) eqn:Ep; [done|].
    destruct (Ha id data p E Ep) as (ins & fs & seen & Hins & Hal).
    assert (Hins' : kept && still_kept o p true = true → still_kept o p ins = true).
    { rewrite andb_true_iff. intros [->%Hins ?]. done. }
    pose proof (along_step k path data fs Hne ins o p (disk s) seen Hd Hal) as Hal'.
    pose proof (save_step_ok k path data o p (disk s) Hd) as Hd'.
    destruct (save_step k path data o p (disk s)) as [p' d']. intros [= <-]. cbn [disk savers].
    assert (Hold : ∀ i q, <[id := (data, p')]> (savers s) !! i = Some q → saved_phase q.2 = false →
                   i = id ∧ q = (data, p')).
    { intros i q [[<- <-]|[Hi Hi']]%lookup_insert_Some Hq; [done|]. by destruct Hi; apply (Hone id i _ _ E Hi'). }
    split.
    + split; cbn [disk savers]; [done| |].
      * intros i j q q' Hi Hj Hq Hq'. by destruct (Hold i q Hi Hq) as [-> _], (Hold j q' Hj Hq') as [-> _].
      * intros i data' q Hi Hq. destruct (Hold i _ Hi Hq) as [-> [= -> ->]].
        by exists (still_kept o p ins), fs, (view d' :: seen).
    + rewrite lookup_insert_eq. apply (step_seen_weaken _ _ _ _ _ _ _ Hins'). apply along_seen in Hal, Hal'. destruct Hal as [Hf Hp], Hal' as [Hf' Hp'].
      assert (Hpath : view (disk s) !! path = fs !! path) by by destruct p.
      split; [intros q H1 H2; by rewrite Hf', Hf|]. rewrite <- Hpath in Hp'.
      by destruct p' as [| | | | | |[[]|]].
  - destruct (savers s !! id) as [[data p]|]; [|done]. destruct (bool_decide _ && _); [|done]. by intros [= <-].
  - case_bool_decide; [|done]. by intros [= <-].
Qed.
End locked.

(** ** Every orderly run *)

Section runs.
Context (k : SaveKind) (path : str) (Hne : save_temporary k path ≠ path) (d : Disk) (Hd : disk_ok d).

(** The file is the first one, or what a save that ended well has written, complete, and
    with [kept] with the mode of the first one where that is kept. *)
Definition whole_file (kept : bool) (s : Saves) : Prop :=
  view (disk s) !! path = view d !! path ∨
  ∃ id f, view (disk s) !! path = Some f ∧ savers s !! id = Some (contents f, Saved (Ok tt)) ∧
    (kept = true → k = Public → ∀ g, view d !! path = Some g → mode f = mode g).

(** What has ended well stays so. *)
Lemma savers_keep s e s' id data :
  saves_step k path s e = Some s' → savers s !! id = Some (data, Saved (Ok tt)) →
  savers s' !! id = Some (data, Saved (Ok tt)).
Proof.
  intros Hstep Hi. destruct e as [j data'|j o|j|j]; cbn [saves_step] in Hstep.
  - case_bool_decide as Hb; [|done]. injection Hstep as <-. cbn. destruct Hb as [_ Hb].
    rewrite lookup_insert_ne by congruence. done.
  - destruct (savers s !! j) as [[data' p]|] eqn:E; [|done]. destruct (saved_phase p) eqn:Ep; [done|].
    destruct (save_step k path data' o p (disk s)). injection Hstep as <-. cbn.
    rewrite lookup_insert_ne; [done|]. intros ->. rewrite E in Hi. injection Hi as -> ->. done.
  - destruct (savers s !! j) as [[data' p]|]; [|done]. destruct (_ && _); [|done]. by injection Hstep as <-.
  - case_bool_decide; [|done]. by injection Hstep as <-.
Qed.

Lemma whole_step (kept kept' : bool) s e s' :
  (kept' = true → kept = true) → whole_file kept s → saves_step k path s e = Some s' →
  step_seen k path kept' (view (disk s)) (view (disk s')) (landed s' e) → whole_file kept' s'.
Proof.
  intros Hk Hw Hstep [_ Hseen]. destruct (landed s' e) as [data|] eqn:El.
  - destruct Hseen as (f & Hf & <- & Hm). right.
    destruct e as [| id o| |]; try done. cbn [landed] in El.
    destruct (savers s' !! id) as [[data' [| | | | | |[[]|]]]|] eqn:E; try done. injection El as ->.
    exists id, f. split_and!; [done..|]. intros Hkept Hp g Hg. specialize (Hm Hkept Hp).
    destruct Hw as [Hw|(id' & f' & Hf' & _ & Hm')]; [rewrite Hw in Hm; by apply Hm|].
    rewrite (Hm f' Hf'). by apply Hm'; auto.
  - destruct Hw as [Hw|(id & f & Hf & Hi & Hm)]; [left; by rewrite Hseen|].
    right. exists id, f. rewrite Hseen. split_and!; [done|by apply (savers_keep s e)|auto].
Qed.

Lemma orderly_run_inv kept s events s' :
  orderly_inv k path kept s → whole_file kept s →
  (∀ p, p ≠ path → p ≠ save_temporary k path → view (disk s) !! p = view d !! p) →
  orderly_run k path s events = Some s' →
  orderly_inv k path (kept && all_inspect k path s events) s' ∧ whole_file (kept && all_inspect k path s events) s' ∧
  (∀ p, p ≠ path → p ≠ save_temporary k path → view (disk s') !! p = view d !! p).
Proof.
  revert kept s. induction events as [|e events IH]; intros kept s Hi Hw Hf; cbn [orderly_run all_inspect].
  { intros [= <-]. by rewrite andb_true_r. }
  destruct (match e with Acquire _ _ => settled s | _ => true end) eqn:Hset; [|done].
  intros (s1 & Hstep & Hrun)%bind_Some. destruct (orderly_inv_step k path Hne kept s e s1 Hi Hset Hstep) as [Hi1 Hseen].
  rewrite Hstep, andb_assoc. apply (IH _ s1); [done| | |done].
  - apply (whole_step kept _ s e); [|done..]. by intros [? _]%andb_true_iff.
  - intros p Hp Hp'. rewrite (proj1 Hseen p Hp Hp'). by apply Hf.
Qed.

Lemma saves_init_inv : orderly_inv k path true (saves_init d) ∧ whole_file true (saves_init d) ∧ only_holder (saves_init d).
Proof. split_and!; [split; cbn; [done|..]; intros *; by rewrite lookup_empty|by left|]. intros id data p Hi. done. Qed.

(** Claim C20. Whatever saves of a file are requested under its lock, in whatever order
    their calls come and fail: if no request is dropped while its save goes on, no save
    starts while another is under way; and whenever that is so, dropped requests or not,
    readers of the file see at every moment the first version or the complete version of
    a save that ended well, in place at once when it ends, and no other file but the
    temporary changes; the mode is the one that is to be kept, if no save failed to read
    the metadata of the file it replaces. *)
Theorem saves_atomic events s :
  (Forall (fun e => is_cancel e = false) events →
   saves_run k path (saves_init d) events = Some s → orderly_run k path (saves_init d) events = Some s) ∧
  (orderly_run k path (saves_init d) events = Some s →
   let kept := all_inspect k path (saves_init d) events in
   whole_file kept s ∧ (∀ p, p ≠ path → p ≠ save_temporary k path → view (disk s) !! p = view d !! p) ∧
   ∀ e s', orderly_run k path s [e] = Some s' →
     step_seen k path (kept && inspects s e) (view (disk s)) (view (disk s')) (landed s' e)).
Proof.
  destruct saves_init_inv as (Hi & Hw & Ho). split; [by apply locked_orderly|].
  intros Hrun kept. destruct (orderly_run_inv true _ _ _ Hi Hw (fun _ _ _ => eq_refl) Hrun) as (Hi' & Hw' & Hf').
  cbn [andb] in Hi', Hw'.
  split_and!; [done..|]. intros e s'. cbn [orderly_run].
  destruct (match e with Acquire _ _ => settled s | _ => true end) eqn:Hset; [|done].
  destruct (saves_step k path s e) as [s1|] eqn:E; [|done]. cbn. intros [= <-].
  by apply (orderly_inv_step k path Hne kept s e s1).
Qed.
End runs.

(** ** Concrete runs *)

(** One save after another, the first failing. *)
Definition example_saves : list SaveEvent :=
  [Acquire 1 (lit "second"); Call 1 (Works 0); Call 1 (Works 3); Call 1 Fails; Release 1;
   Acquire 2 (lit "third"); Call 2 (Works 0); Call 2 (Works 1); Call 2 (Works 9); Call 2 (Works 0); Call 2 (Works 0);
   Call 2 (Works 0); Release 2].

Definition example_end : Saves := default (saves_init example_disk) (saves_run Public example_config_path (saves_init example_disk) example_saves).

Definition file_text (s : Saves) : option (list Z) := contents <$> view (disk s) !! example_config_path.

Lemma saves_atomic_witness :
  file_text example_end = Some (lit "third") ∧ whole_file Public example_config_path example_disk true example_end.
Proof.
  split; [by vm_compute|].
  assert (Hne : save_temporary Public example_config_path ≠ example_config_path) by by vm_compute.
  destruct (saves_atomic Public example_config_path Hne example_disk example_disk_ok example_saves example_end) as [H1 H2].
  apply H2, H1; [repeat constructor|by vm_compute].
Defined.

(** A request is dropped while its save is writing, and the next one starts.  Both write
    to the same inode: the first save ends well and the file is empty; then it is a
    mixture of both versions; and the second save, whose temporary is gone, fails. *)
Definition example_dropped : list SaveEvent :=
  [Acquire 1 (lit "the second version"); Call 1 (Works 0); Cancel 1;
   Acquire 2 (lit "the third"); Call 1 (Works 20); Call 1 (Works 0); Call 1 (Works 0);
   Call 2 (Works 0); Call 1 (Works 0)].

Definition example_mixed : list SaveEvent :=
  example_dropped ++ [Call 2 (Works 20); Call 2 (Works 0); Call 2 (Works 0); Release 2].

Example dropped_request_damages_file :
  let run events := saves_run Public example_config_path (saves_init example_disk) events in
  match run example_dropped, run example_mixed with
  | Some s, Some s' =>
      (savers s !! 1%nat = Some (lit "the second version", Saved (Ok tt)) ∧ file_text s = Some []) ∧
      savers s' !! 2%nat = Some (lit "the third", Saved (Err AtMode))
  | _, _ => False
  end.
Proof. by vm_compute. Qed.

Example dropped_request_mixes_versions :
  let events := [Acquire 1 (lit "the second version"); Call 1 (Works 0); Cancel 1;
                 Acquire 2 (lit "the third"); Call 2 (Works 0); Call 1 (Works 20); Call 2 (Works 20);
                 Call 1 (Works 0); Call 1 (Works 0); Call 1 (Works 0)] in
  file_text <$> saves_run Public example_config_path (saves_init example_disk) events = Some (Some (lit "the thirdd version")).
Proof. by vm_compute. Qed.
