(* ===== verification/Outbound.v ===== *)
(** * Outbound connections ([src/src/outbound.rs])

    The choice of destination addresses, and the attempts made over them.  Name
    resolution and the sockets are arguments: what the resolver and each connect
    or send answers. *)

From stdpp Require Import base list strings sets.
From Stdlib Require Import ZArith Lia.
From S2P Require Import Prelude RustStr Rules Net Files Config.

Open Scope Z_scope.

Inductive OutError {E : Type} := AddrNotAvailable | Io (e : E).
Arguments OutError : clear implicits.
Arguments AddrNotAvailable {E}.
Arguments Io {E} e.

(** The loop of [order_addresses]: each new address goes to its family's list. *)
Definition sort_family (acc : list SocketAddr * list SocketAddr) (a : SocketAddr)
    : list SocketAddr * list SocketAddr :=
  let push l := if decide (a ∈ l) then l else l ++ [a] in
  let '(ipv4, ipv6) := acc in
  if is_ipv4 a then (push ipv4, ipv6) else (ipv4, push ipv6).

Definition order_addresses (addresses : list SocketAddr) (mode : OutboundMode) : list SocketAddr :=
  let '(ipv4, ipv6) := foldl sort_family ([], []) addresses in
  match mode with
  | PreferIpv4 => ipv4 ++ ipv6
  | Ipv4Only => ipv4
  | Ipv6Only => ipv6
  end.

Section attempts.
Context {E S : Type}.

(** Try each address; the first success wins, otherwise the last error. *)
Fixpoint try_each (connect : SocketAddr → result E S) (addresses : list SocketAddr) (last : option E)
    : result (OutError E) S :=
  match addresses with
  | [] => Err (match last with Some e => Io e | None => AddrNotAvailable end)
  | a :: rest =>
      match connect a with
      | Ok s => Ok s
      | Err e => try_each connect rest (Some e)
      end
  end.

(** [OutboundConnector::resolve] and [connect_tcp]; [lookup] is the resolver's
    answer for the destination. *)
Definition resolve (lookup : result E (list SocketAddr)) (mode : OutboundMode)
    : result (OutError E) (list SocketAddr) :=
  addresses ← rmap_err Io lookup;
  let addresses := order_addresses addresses mode in
  if is_nil addresses then Err AddrNotAvailable else Ok addresses.

Definition connect_tcp (lookup : result E (list SocketAddr)) (mode : OutboundMode)
    (connect : SocketAddr → result E S) : result (OutError E) S :=
  addresses ← resolve lookup mode;
  try_each connect addresses None.

(** [OutboundUdpSession]: the socket of each family, if bound. *)
Record OutboundUdpSession := { ipv4 : option S; ipv6 : option S; session_mode : OutboundMode }.

(** [OutboundConnector::open_udp]; the arguments are what the two binds answer. *)
Definition open_udp (mode : OutboundMode) (bind4 bind6 : result E S)
    : result (OutError E) OutboundUdpSession :=
  v4 ← (if decide (mode = Ipv6Only) then Ok None else rmap Some (rmap_err Io bind4));
  let v6 := if decide (mode = Ipv4Only) then None else rok bind6 in
  match v4, v6 with
  | None, None => Err AddrNotAvailable
  | _, _ => Ok {| ipv4 := v4; ipv6 := v6; session_mode := mode |}
  end.

(** [OutboundUdpSession::send_to]. *)
Fixpoint send_each (self : OutboundUdpSession) (send : S → SocketAddr → result E Z)
    (addresses : list SocketAddr) (last : option E) : result (OutError E) Z :=
  match addresses with
  | [] => Err (match last with Some e => Io e | None => AddrNotAvailable end)
  | a :: rest =>
      match (if is_ipv4 a then ipv4 self else ipv6 self) with
      | None => send_each self send rest last
      | Some socket =>
          match send socket a with
          | Ok written => Ok written
          | Err e => send_each self send rest (Some e)
          end
      end
  end.

Definition send_to (self : OutboundUdpSession) (lookup : result E (list SocketAddr))
    (send : S → SocketAddr → result E Z) : result (OutError E) Z :=
  addresses ← rmap_err Io lookup;
  send_each self send (order_addresses addresses (session_mode self)) None.

(** [buffer.resize(n, 0)]. *)
Definition resize (n : nat) (buffer : list Z) : list Z := take n buffer ++ replicate (n - length buffer) 0.

(** A datagram received into a buffer: it is cut to the buffer, whose end is kept. *)
Definition receive_into (buffer data : list Z) : nat * list Z :=
  let data := take (length buffer) data in
  (length data, data ++ drop (length data) buffer).

(** [OutboundUdpSession::recv_from].  [arrival] is the socket that is ready first, of
    its family, and what it gives; there is none when the time is up.  [RecvUnreachable]
    is the panic of a session without a socket. *)
Inductive RecvError := RecvTimedOut | RecvIo (e : E) | RecvUnreachable.

Definition recv_from (self : OutboundUdpSession) (arrival : option (bool * result E (list Z * SocketAddr))) (buffer : list Z)
    : result RecvError (nat * str) * list Z :=
  let buffer := resize (Z.to_nat U16_MAX) buffer in
  match ipv4 self, ipv6 self, arrival with
  | None, None, _ => (Err RecvUnreachable, buffer)
  | _, _, None => (Err RecvTimedOut, buffer)
  | _, _, Some (_, Err e) => (Err (RecvIo e), buffer)
  | Some _, Some _, Some (false, Ok (data, source)) =>
      let '(length, ipv6_buffer) := receive_into (replicate (Datatypes.length buffer) 0) data in
      (Ok (length, show_addr source), take length ipv6_buffer ++ drop length buffer)
  | _, _, Some (_, Ok (data, source)) =>
      let '(length, buffer) := receive_into buffer data in (Ok (length, show_addr source), buffer)
  end.
End attempts.
Arguments OutboundUdpSession : clear implicits.

(** ** The order of addresses *)

Definition allowed (mode : OutboundMode) (a : SocketAddr) : bool :=
  match mode with
  | PreferIpv4 => true
  | Ipv4Only => is_ipv4 a
  | Ipv6Only => is_ipv6 a
  end.

Lemma sort_family_spec l v4 v6 :
  foldl sort_family (v4, v6) l =
    (foldl (fun acc x => if decide (x ∈ acc) then acc else acc ++ [x]) v4 (List.filter is_ipv4 l),
     foldl (fun acc x => if decide (x ∈ acc) then acc else acc ++ [x]) v6 (List.filter is_ipv6 l)).
Proof.
  revert v4 v6. induction l as [|a l IH]; intros v4 v6; [done|]. cbn [foldl].
  unfold sort_family at 2. cbn [List.filter]. unfold is_ipv6 at 1.
  destruct (is_ipv4 a) eqn:Ea; cbn [negb foldl]; by rewrite IH.
Qed.

(** The families apart, each without duplicates, in the resolver's order. *)
Lemma order_addresses_families l mode :
  order_addresses l mode =
    match mode with
    | PreferIpv4 => dedup (List.filter is_ipv4 l) ++ dedup (List.filter is_ipv6 l)
    | Ipv4Only => dedup (List.filter is_ipv4 l)
    | Ipv6Only => dedup (List.filter is_ipv6 l)
    end.
Proof. unfold order_addresses. rewrite sort_family_spec. by destruct mode. Qed.

Lemma elem_of_dedup_filter (f : SocketAddr → bool) l a :
  a ∈ dedup (List.filter f l) ↔ a ∈ l ∧ f a = true.
Proof.
  destruct (dedup_foldl_spec (List.filter f l) [] NoDup_nil_2) as [_ Hin]. unfold dedup.
  rewrite Hin, !list_elem_of_In, filter_In. set_solver.
Qed.

Lemma NoDup_dedup {A} `{EqDecision A} (l : list A) : NoDup (dedup l).
Proof. apply (dedup_foldl_spec l [] NoDup_nil_2). Qed.

Lemma order_addresses_elem l mode a :
  a ∈ order_addresses l mode ↔ a ∈ l ∧ allowed mode a = true.
Proof.
  rewrite order_addresses_families.
  destruct mode; rewrite ?elem_of_app, ?elem_of_dedup_filter; unfold allowed, is_ipv6;
    destruct (is_ipv4 a); naive_solver.
Qed.

Lemma order_addresses_NoDup l mode : NoDup (order_addresses l mode).
Proof.
  rewrite order_addresses_families. destruct mode; try apply NoDup_dedup.
  apply NoDup_app. split_and!; [apply NoDup_dedup| |apply NoDup_dedup].
  intros a Ha Hb. rewrite elem_of_dedup_filter in Ha, Hb. unfold is_ipv6 in Hb.
  destruct (is_ipv4 a); naive_solver.
Qed.

(** ** Attempts *)

Lemma try_each_spec {E S} (connect : SocketAddr → result E S) l last :
  match try_each connect l last with
  | Ok s => ∃ before a after, l = before ++ a :: after ∧ connect a = Ok s ∧
              Forall (fun b => is_ok (connect b) = false) before
  | Err e => Forall (fun b => is_ok (connect b) = false) l ∧
             match list.last l with
             | Some a => ∃ e', connect a = Err e' ∧ e = Io e'
             | None => e = match last with Some e => Io e | None => AddrNotAvailable end
             end
  end.
Proof.
  revert last. induction l as [|a l IH]; intros last; cbn [try_each]; [done|].
  destruct (connect a) as [s|e] eqn:Ea.
  - exists [], a, l. by repeat split.
  - specialize (IH (Some e)). destruct (try_each connect l (Some e)) as [s|e'].
    + destruct IH as (b & x & r & -> & Hx & Hb). exists (a :: b), x, r.
      split_and!; [done|done|]. constructor; [by rewrite Ea|done].
    + destruct IH as [Hl He]. split; [constructor; [by rewrite Ea|done]|].
      destruct l as [|b l]; [by exists e|]. rewrite last_cons_cons.
      destruct (list.last (b :: l)) eqn:El; [done|by apply last_None in El].
Qed.

(** A TCP connection goes to the first address, in the mode's order
    (IPv4 before IPv6 where both are allowed, duplicates dropped, the resolver's
    order kept), whose connect succeeds; it fails only when every allowed address
    failed, with the last one's error, or when the resolver failed or gave no
    allowed address. *)
Theorem connect_tcp_spec {E S} (lookup : result E (list SocketAddr)) mode
    (connect : SocketAddr → result E S) :
  match lookup with
  | Err e => connect_tcp lookup mode connect = Err (Io e)
  | Ok found =>
      let order := order_addresses found mode in
      (∀ a, a ∈ order ↔ a ∈ found ∧ allowed mode a = true) ∧ NoDup order ∧
      (∃ v4 v6, order = v4 ++ v6 ∧ Forall (fun a => is_ipv4 a = true) v4 ∧
                Forall (fun a => is_ipv6 a = true) v6) ∧
      match connect_tcp lookup mode connect with
      | Ok s => ∃ before a after, order = before ++ a :: after ∧ connect a = Ok s ∧
                  Forall (fun b => is_ok (connect b) = false) before
      | Err AddrNotAvailable => order = []
      | Err (Io e) => Forall (fun b => is_ok (connect b) = false) order ∧
                      ∃ a, last order = Some a ∧ connect a = Err e
      end
  end.
Proof.
  destruct lookup as [found|e]; [|done]. intros order. split_and!.
  - intros a. apply order_addresses_elem.
  - apply order_addresses_NoDup.
  - unfold order. rewrite order_addresses_families.
    assert (Hfam : ∀ f, Forall (fun a => f a = true) (dedup (List.filter f found))).
    { intros f. apply Forall_forall. intros a. rewrite elem_of_dedup_filter. naive_solver. }
    destruct mode; [by eexists _, _|exists (dedup (List.filter is_ipv4 found)), []|
                    exists [], (dedup (List.filter is_ipv6 found))];
      rewrite ?app_nil_r; split_and!; try done; apply Hfam.
  - unfold connect_tcp, resolve. res_simpl. fold order.
    destruct (is_nil order) eqn:En; [apply is_nil_true in En; by rewrite En|]. res_simpl.
    pose proof (try_each_spec connect order None) as H.
    destruct (try_each connect order None) as [s|e]; [done|]. destruct H as [Hall Hlast].
    destruct (last order) as [a|] eqn:El.
    + destruct Hlast as (e' & He' & ->). split; [done|]. by exists a.
    + apply last_None in El. by rewrite El in En.
Qed.

(** A session is opened with the sockets its mode needs, and a datagram goes out
    only on the socket of its address's family. *)
Lemma open_udp_families {E S} mode (b4 b6 : result E S) s :
  open_udp mode b4 b6 = Ok s →
  session_mode s = mode ∧ (ipv4 s ≠ None ∨ ipv6 s ≠ None) ∧
  (mode = Ipv4Only → ipv6 s = None ∧ ipv4 s ≠ None) ∧
  (mode = Ipv6Only → ipv4 s = None ∧ ipv6 s ≠ None) ∧
  (mode = PreferIpv4 → ipv4 s ≠ None).
Proof.
  unfold open_udp. destruct mode, b4 as [x|], b6 as [y|]; cbn; intros; simplify_eq; naive_solver.
Qed.

(** ** Receiving *)

Lemma resize_length n buffer : length (resize n buffer) = n.
Proof. unfold resize. rewrite length_app, length_take, length_replicate. lia. Qed.

Lemma receive_into_spec buffer data :
  (length data ≤ length buffer)%nat →
  receive_into buffer data = (length data, data ++ drop (length data) buffer).
Proof. intros Hl. unfold receive_into. by rewrite take_ge. Qed.

(** A datagram is received whole, whichever socket it comes on and whatever an earlier
    one has left in the buffer: the part of the buffer that is reported is the data. *)
Lemma recv_from_spec {E S} (self : OutboundUdpSession S) (on_ipv4 : bool) data source (buffer : list Z) :
  is_Some (ipv4 self) ∨ is_Some (ipv6 self) → len data ≤ U16_MAX →
  let '(r, buffer') := recv_from (E := E) self (Some (on_ipv4, Ok (data, source))) buffer in
  r = Ok (length data, show_addr source) ∧ take (length data) buffer' = data ∧ length buffer' = Z.to_nat U16_MAX.
Proof.
  intros Hsocket Hl. unfold recv_from. pose proof (resize_length (Z.to_nat U16_MAX) buffer) as Hb.
  set (b := resize (Z.to_nat U16_MAX) buffer) in *. unfold len in Hl.
  assert (Hd : (length data ≤ length b)%nat) by lia.
  assert (Hlen : ∀ k : list Z, length k = length b → length (data ++ drop (length data) k) = Z.to_nat U16_MAX).
  { intros k Hk. rewrite length_app, length_drop. lia. }
  assert (Hd' : (length data ≤ length (replicate (length b) (0%Z)))%nat) by (rewrite length_replicate; lia).
  destruct (ipv4 self), (ipv6 self), on_ipv4; try (by destruct Hsocket as [[]|[]]); rewrite receive_into_spec by done;
    rewrite ?take_app_length; (split_and!; [done|done|by apply Hlen]).
Qed.
