(* ===== verification/Traffic.v ===== *)
(** * Traffic accounting ([TrafficRegistry], [src/src/server.rs], lines 47-130)

    Counters are shared: the registry, every task serving a user and every open
    connection hold the same [Arc<UserTraffic>].  The model keeps them in a heap;
    an [Arc] is a location.  A user removed by [sync_users] leaves the registry,
    but the tasks that still hold its counters go on updating them. *)

From stdpp Require Import base list gmap strings sets sorting fin_maps.
From Stdlib Require Import ZArith Lia.
From S2P Require Import Prelude RustStr.

Open Scope Z_scope.

Record UserTraffic := {
  uploaded_bytes : Z;
  downloaded_bytes : Z;
  active_connections : Z;
}.

Definition no_traffic : UserTraffic :=
  {| uploaded_bytes := 0; downloaded_bytes := 0; active_connections := 0 |}.

Record TrafficRegistry := {
  users : gmap str positive;
  heap : gmap positive UserTraffic;
}.

Definition empty_registry : TrafficRegistry := {| users := ∅; heap := ∅ |}.

(** [entry(username).or_default()]: the counters of a user, new if need be. *)
Definition entry_or_default (r : TrafficRegistry) (username : str) : positive * TrafficRegistry :=
  match users r !! username with
  | Some loc => (loc, r)
  | None =>
      let loc := fresh (dom (heap r)) in
      (loc, {| users := <[username := loc]> (users r); heap := <[loc := no_traffic]> (heap r) |})
  end.

(** [TrafficRegistry::user]. *)
Definition user : TrafficRegistry → str → positive * TrafficRegistry := entry_or_default.

(** [TrafficRegistry::sync_users]. *)
Definition sync_users (r : TrafficRegistry) (usernames : list str) : TrafficRegistry :=
  let usernames := dedup usernames in
  foldl (fun r u => (entry_or_default r u).2)
        {| users := filter (fun ul => ul.1 ∈ usernames) (users r); heap := heap r |} usernames.

Definition update (f : UserTraffic → UserTraffic) (loc : positive) (r : TrafficRegistry) : TrafficRegistry :=
  {| users := users r; heap := alter f loc (heap r) |}.

(** [UserTraffic::connection] and the drop of an [ActiveConnection]. *)
Definition connection : positive → TrafficRegistry → TrafficRegistry :=
  update (fun t => {| uploaded_bytes := uploaded_bytes t; downloaded_bytes := downloaded_bytes t;
                      active_connections := wrap 64 (active_connections t + 1) |}).

Definition drop_connection : positive → TrafficRegistry → TrafficRegistry :=
  update (fun t => {| uploaded_bytes := uploaded_bytes t; downloaded_bytes := downloaded_bytes t;
                      active_connections := wrap 64 (active_connections t - 1) |}).

Definition record_upload (bytes : Z) : positive → TrafficRegistry → TrafficRegistry :=
  update (fun t => {| uploaded_bytes := wrap 64 (uploaded_bytes t + bytes);
                      downloaded_bytes := downloaded_bytes t;
                      active_connections := active_connections t |}).

Definition record_download (bytes : Z) : positive → TrafficRegistry → TrafficRegistry :=
  update (fun t => {| uploaded_bytes := uploaded_bytes t;
                      downloaded_bytes := wrap 64 (downloaded_bytes t + bytes);
                      active_connections := active_connections t |}).

Definition snapshot_le (a b : str * UserTraffic) : Prop := str_leb a.1 b.1 = true.
#[export] Instance snapshot_le_dec a b : Decision (snapshot_le a b).
Proof. unfold snapshot_le. apply _. Defined.

(** [TrafficRegistry::snapshots]: name and counters of each user, by name. *)
Definition snapshots `{HashIter} (r : TrafficRegistry) : list (str * UserTraffic) :=
  merge_sort snapshot_le
    ((fun ul => (ul.1, default no_traffic (heap r !! ul.2))) <$> hash_iter (users r)).

(** ** Runs

    The calls the server makes: a new configuration, a client authenticated, its
    connection opened and closed, its bytes counted.  The connections open are
    kept as a list of the locations they hold. *)

Inductive TrafficOp :=
| TSync (usernames : list str)
| TUser (username : str)
| TConnect (loc : positive)
| TDisconnect (loc : positive)
| TUpload (loc : positive) (bytes : Z)
| TDownload (loc : positive) (bytes : Z).

(** A task can only use counters it was given, and close a connection it opened. *)
Definition op_valid (r : TrafficRegistry) (live : list positive) (op : TrafficOp) : Prop :=
  match op with
  | TSync _ | TUser _ => True
  | TConnect loc => loc ∈ dom (heap r) ∧ Z.of_nat (length live) < 2 ^ 64 - 1
  | TUpload loc _ | TDownload loc _ => loc ∈ dom (heap r)
  | TDisconnect loc => loc ∈ live
  end.

Fixpoint remove_one (loc : positive) (l : list positive) : list positive :=
  match l with
  | [] => []
  | x :: l => if decide (x = loc) then l else x :: remove_one loc l
  end.

Definition traffic_step (st : TrafficRegistry * list positive) (op : TrafficOp)
    : TrafficRegistry * list positive :=
  let '(r, live) := st in
  match op with
  | TSync us => (sync_users r us, live)
  | TUser u => ((user r u).2, live)
  | TConnect loc => (connection loc r, loc :: live)
  | TDisconnect loc => (drop_connection loc r, remove_one loc live)
  | TUpload loc n => (record_upload n loc r, live)
  | TDownload loc n => (record_download n loc r, live)
  end.

(** Counters are never freed. *)
Lemma entry_heap r u : dom (heap r) ⊆ dom (heap (entry_or_default r u).2).
Proof. unfold entry_or_default. destruct (users r !! u); cbn; [done|]. rewrite dom_insert. set_solver. Qed.

Lemma traffic_step_heap r live op : dom (heap r) ⊆ dom (heap (traffic_step (r, live) op).1).
Proof.
  destruct op as [us|u|loc|loc|loc n|loc n]; cbn; [|apply entry_heap|by rewrite dom_alter_L..].
  unfold sync_users. set (r0 := {| users := filter _ (users r); heap := heap r |}).
  change (dom (heap r)) with (dom (heap r0)). clearbody r0. revert r0.
  induction (dedup us) as [|u l IH]; intros r0; [done|]. cbn [foldl]. etrans; [apply (entry_heap r0 u)|apply IH].
Qed.

(** Reachable states, with the history that led there, newest first. *)
Inductive traffic_reachable : list TrafficOp → TrafficRegistry * list positive → Prop :=
| traffic_init : traffic_reachable [] (empty_registry, [])
| traffic_next h st op :
    traffic_reachable h st → op_valid st.1 st.2 op →
    traffic_reachable (op :: h) (traffic_step st op).

(** The bytes a history counts on a location. *)
Fixpoint uploads (loc : positive) (h : list TrafficOp) : Z :=
  match h with
  | TUpload l n :: h => (if decide (l = loc) then n else 0) + uploads loc h
  | _ :: h => uploads loc h
  | [] => 0
  end.

Fixpoint downloads (loc : positive) (h : list TrafficOp) : Z :=
  match h with
  | TDownload l n :: h => (if decide (l = loc) then n else 0) + downloads loc h
  | _ :: h => downloads loc h
  | [] => 0
  end.

(** How many open connections hold a location. *)
Definition open_count (loc : positive) (live : list positive) : Z :=
  Z.of_nat (length (filter (fun l => l = loc) live)).

(** ** The invariant *)

Record traffic_inv (h : list TrafficOp) (r : TrafficRegistry) (live : list positive) : Prop := {
  inv_alloc : ∀ u loc, users r !! u = Some loc → loc ∈ dom (heap r);
  inv_distinct : ∀ u v loc, users r !! u = Some loc → users r !! v = Some loc → u = v;
  inv_counts : ∀ loc t, heap r !! loc = Some t →
    uploaded_bytes t = wrap 64 (uploads loc h) ∧ downloaded_bytes t = wrap 64 (downloads loc h) ∧
    active_connections t = open_count loc live;
  inv_fresh : ∀ loc, loc ∉ dom (heap r) →
    uploads loc h = 0 ∧ downloads loc h = 0 ∧ open_count loc live = 0;
  inv_live : Z.of_nat (length live) < 2 ^ 64;
}.

(** A registry whose users all keep their counters. *)
Lemma inv_entry h r live u :
  traffic_inv h r live → traffic_inv h (entry_or_default r u).2 live.
Proof.
  intros [Ha Hd Hc Hf Hl]. unfold entry_or_default. destruct (users r !! u) as [l|] eqn:Eu; [by split|].
  set (loc := fresh (dom (heap r))). pose proof (is_fresh (dom (heap r))) as Hfr. fold loc in Hfr.
  split; cbn [snd users heap]; [| | | |done].
  - intros v l Hv. rewrite dom_insert. apply lookup_insert_Some in Hv as [[_ <-]|[_ Hv]]; [set_solver|].
    apply Ha in Hv. set_solver.
  - intros v w l Hv Hw.
    apply lookup_insert_Some in Hv as [[<- <-]|[Hv Hv']], Hw as [[<- Hw]|[Hw Hw']]; try done.
    + by apply Ha in Hw'.
    + subst. by apply Ha in Hv'.
    + by apply (Hd v w l).
  - intros l t Ht. apply lookup_insert_Some in Ht as [[<- <-]|[_ Ht]]; [|by apply Hc].
    destruct (Hf loc Hfr) as (-> & -> & ->). done.
  - intros l Hl'. rewrite dom_insert in Hl'. apply Hf. set_solver.
Qed.

Lemma inv_retain h r live P `{∀ x, Decision (P x)} :
  traffic_inv h r live → traffic_inv h {| users := filter P (users r); heap := heap r |} live.
Proof.
  intros [Ha Hd Hc Hf Hl]. split; cbn [users heap]; try done.
  - intros u loc [Hu _]%map_lookup_filter_Some. by apply (Ha u).
  - intros u v loc [Hu _]%map_lookup_filter_Some [Hv _]%map_lookup_filter_Some. by apply (Hd u v loc).
Qed.

Lemma inv_sync h r live us : traffic_inv h r live → traffic_inv h (sync_users r us) live.
Proof.
  intros Hr. unfold sync_users. apply (inv_retain _ _ _ (fun ul => ul.1 ∈ dedup us)) in Hr.
  revert Hr. generalize ({| users := filter (fun ul => ul.1 ∈ dedup us) (users r); heap := heap r |}) as r0.
  induction (dedup us) as [|u l IH]; intros r0 Hr; [done|]. cbn [foldl]. by apply IH, inv_entry.
Qed.

(** An update of one location, with the history and the connections it goes with. *)
Lemma inv_update h h' r live live' f loc :
  traffic_inv h r live → loc ∈ dom (heap r) → Z.of_nat (length live') < 2 ^ 64 →
  (∀ l, l ≠ loc → uploads l h' = uploads l h ∧ downloads l h' = downloads l h ∧
                  open_count l live' = open_count l live) →
  (∀ t, uploaded_bytes t = wrap 64 (uploads loc h) → downloaded_bytes t = wrap 64 (downloads loc h) →
        active_connections t = open_count loc live →
        uploaded_bytes (f t) = wrap 64 (uploads loc h') ∧
        downloaded_bytes (f t) = wrap 64 (downloads loc h') ∧
        active_connections (f t) = open_count loc live') →
  traffic_inv h' (update f loc r) live'.
Proof.
  intros [Ha Hd Hc Hf Hl] Hloc Hl' Hother Hown. split; cbn [users heap update]; try done.
  - intros u l Hu. rewrite dom_alter_L. by apply (Ha u).
  - intros l t Ht. destruct (decide (l = loc)) as [->|Hne].
    + rewrite lookup_alter_eq in Ht. apply fmap_Some in Ht as (t0 & Ht0 & ->).
      destruct (Hc loc t0 Ht0) as (? & ? & ?). by apply Hown.
    + rewrite lookup_alter_ne in Ht by done. destruct (Hother l Hne) as (-> & -> & ->). by apply Hc.
  - intros l Hn. rewrite dom_alter_L in Hn. destruct (Hother l) as (-> & -> & ->); [by intros ->|].
    by apply Hf.
Qed.

Lemma open_count_cons loc l live :
  open_count loc (l :: live) = (if decide (l = loc) then 1 else 0) + open_count loc live.
Proof. unfold open_count. rewrite filter_cons. case_decide; cbn [length]; lia. Qed.

Lemma open_count_bound loc live : 0 ≤ open_count loc live ≤ Z.of_nat (length live).
Proof.
  unfold open_count. pose proof (length_filter (fun l => l = loc) live). lia.
Qed.

Lemma remove_one_perm loc live : loc ∈ live → live ≡ₚ loc :: remove_one loc live.
Proof.
  induction live as [|x l IH]; [set_solver|]. intros Hin. cbn [remove_one].
  case_decide as Hx; [by subst|]. rewrite IH at 1 by set_solver. by rewrite Permutation_swap.
Qed.

Lemma open_count_perm loc l k : l ≡ₚ k → open_count loc l = open_count loc k.
Proof. intros Hp. unfold open_count. by rewrite Hp. Qed.

Lemma traffic_reachable_inv h st : traffic_reachable h st → traffic_inv h st.1 st.2.
Proof.
  induction 1 as [|h [r live] op _ IH Hv].
  { split; cbn; try done; set_solver. }
  cbn [fst snd] in *. destruct op as [us|u|loc|loc|loc n|loc n]; cbn [traffic_step fst snd op_valid] in *.
  - destruct (inv_sync h r live us IH). by split.
  - destruct (inv_entry h r live u IH). by split.
  - destruct Hv as [Hloc Hlen]. apply (inv_update h _ _ live); try done; [cbn [length]; lia| |].
    + intros l Hl. rewrite open_count_cons, decide_False by done. done.
    + intros t Hu Hd Ha. cbn. split_and!; try done. rewrite open_count_cons, decide_True, Ha by done.
      pose proof (open_count_bound loc live). rewrite wrap_small by (unfold in_width; lia). lia.
  - pose proof (remove_one_perm loc live Hv) as Hp. pose proof (Permutation_length Hp) as Hlen.
    assert (Hcount : ∀ l, open_count l live
      = (if decide (loc = l) then 1 else 0) + open_count l (remove_one loc live))
      by (intros l; by rewrite (open_count_perm l _ _ Hp), open_count_cons).
    cbn [length] in Hlen. pose proof (inv_live _ _ _ IH).
    assert (Hloc : loc ∈ dom (heap r)).
    { destruct (decide (loc ∈ dom (heap r))) as [|Hn]; [done|]. exfalso.
      destruct (inv_fresh _ _ _ IH loc Hn) as (_ & _ & H0). rewrite Hcount, decide_True in H0 by done.
      pose proof (open_count_bound loc (remove_one loc live)). lia. }
    apply (inv_update h _ _ live); try done; [lia| |].
    + intros l Hl. rewrite Hcount, decide_False by done. done.
    + intros t Hu Hd Ha. cbn. split_and!; try done. rewrite Ha, Hcount, decide_True by done.
      pose proof (open_count_bound loc (remove_one loc live)).
      rewrite wrap_small by (unfold in_width; lia). lia.
  - apply (inv_update h _ _ live); try done; [by apply IH| |].
    + intros l Hl. cbn. by rewrite decide_False.
    + intros t Hu Hd Ha. cbn. rewrite decide_True, Hu by done. split_and!; try done.
      unfold wrap. rewrite Zplus_mod_idemp_l. f_equal. lia.
  - apply (inv_update h _ _ live); try done; [by apply IH| |].
    + intros l Hl. cbn. by rewrite decide_False.
    + intros t Hu Hd Ha. cbn. rewrite decide_True, Hd by done. split_and!; try done.
      unfold wrap. rewrite Zplus_mod_idemp_l. f_equal. lia.
Qed.

(** ** Configuration changes and snapshots *)

Lemma entries_or_default us r :
  let r' := foldl (fun r u => (entry_or_default r u).2) r us in
  (∀ u loc, users r !! u = Some loc → users r' !! u = Some loc) ∧
  dom (users r') = dom (users r) ∪ list_to_set us.
Proof.
  revert r. induction us as [|u us IH]; intros r; cbn [foldl]; [by split; [|set_solver]|].
  unfold entry_or_default at 2 4. destruct (users r !! u) as [l|] eqn:E; cbn [snd].
  - destruct (IH r) as [Hk Hd]. split; [done|]. rewrite Hd.
    assert (u ∈ dom (users r)) by (by apply elem_of_dom_2 in E). set_solver.
  - set (r1 := {| users := <[u := _]> (users r); heap := _ |}). destruct (IH r1) as [Hk Hd].
    split; [|rewrite Hd; cbn [users r1]; rewrite dom_insert_L; set_solver].
    intros v loc Hv. apply Hk. cbn [users r1]. rewrite lookup_insert_ne; [done|]. congruence.
Qed.

(** A change of users leaves exactly the new ones, and the counters of those that stay. *)
Lemma sync_users_spec r us :
  dom (users (sync_users r us)) = list_to_set us ∧
  ∀ u loc, u ∈ us → users r !! u = Some loc → users (sync_users r us) !! u = Some loc.
Proof.
  unfold sync_users. set (r0 := {| users := filter _ (users r); heap := heap r |}).
  destruct (entries_or_default (dedup us) r0) as [Hk Hd].
  assert (Hin : ∀ u, u ∈ dedup us ↔ u ∈ us).
  { intros u. destruct (dedup_foldl_spec us [] NoDup_nil_2) as [_ H]. unfold dedup. rewrite H. set_solver. }
  split.
  - rewrite Hd. apply set_eq. intros u. rewrite elem_of_union, !elem_of_list_to_set, Hin.
    split; [|by right]. intros [[loc [_ Hu]%map_lookup_filter_Some]%elem_of_dom|?]; [by apply Hin|done].
  - intros u loc Hu Hloc. apply Hk. apply map_lookup_filter_Some. split; [done|]. by apply Hin.
Qed.

#[export] Instance snapshot_le_total : Total snapshot_le.
Proof. intros a b. apply str_leb_total. Qed.

Lemma snapshots_perm `{HashIter} r :
  snapshots r ≡ₚ (fun ul => (ul.1, default no_traffic (heap r !! ul.2))) <$> map_to_list (users r).
Proof. unfold snapshots. rewrite merge_sort_Permutation. by rewrite hash_iter_perm. Qed.

(** In every reachable state, whatever the interleaving of
    reconfigurations, clients and connections: the snapshot lists each registered
    user once, in order of name; its byte counts are the bytes counted on its
    counters (modulo 2^64), and its connections are exactly those open; no two
    users share counters; and a change of users keeps exactly the named ones,
    with the counters of those already known. *)
Theorem traffic_accounting `{HashIter} h r live :
  traffic_reachable h (r, live) →
  Sorted snapshot_le (snapshots r) ∧ NoDup (snapshots r).*1 ∧
  (∀ u loc, users r !! u = Some loc →
     ∃ t, (u, t) ∈ snapshots r ∧ uploaded_bytes t = wrap 64 (uploads loc h) ∧
          downloaded_bytes t = wrap 64 (downloads loc h) ∧
          active_connections t = open_count loc live) ∧
  (∀ u t, (u, t) ∈ snapshots r → u ∈ dom (users r)) ∧
  (∀ u v loc, users r !! u = Some loc → users r !! v = Some loc → u = v) ∧
  (∀ us, dom (users (sync_users r us)) = list_to_set us ∧
         ∀ u loc, u ∈ us → users r !! u = Some loc → users (sync_users r us) !! u = Some loc).
Proof.
  intros Hr. pose proof (traffic_reachable_inv _ _ Hr) as Hinv. cbn in Hinv. split_and!.
  - apply Sorted_merge_sort. apply _.
  - rewrite snapshots_perm, <- list_fmap_compose. apply NoDup_fst_map_to_list.
  - intros u loc Hu. pose proof (inv_alloc _ _ _ Hinv u loc Hu) as [t Ht]%elem_of_dom.
    exists t. destruct (inv_counts _ _ _ Hinv loc t Ht) as (? & ? & ?). split_and!; try done.
    rewrite snapshots_perm. apply list_elem_of_fmap. exists (u, loc). cbn. rewrite Ht.
    split; [done|]. by apply elem_of_map_to_list.
  - intros u t. rewrite snapshots_perm. intros ([v loc] & [= -> _] & Hv)%list_elem_of_fmap.
    apply elem_of_map_to_list in Hv. by apply elem_of_dom_2 in Hv.
  - apply (inv_distinct _ _ _ Hinv).
  - intros us. apply sync_users_spec.
Qed.

Lemma traffic_accounting_witness :
  ∃ r, traffic_reachable [TUpload 1 1024; TConnect 1; TSync [lit "poetry"]] (r, [1%positive]) ∧
  Sorted snapshot_le (@snapshots hash_iter_sorted r) ∧
  users r !! lit "poetry" = Some 1%positive ∧
  ∃ t, (lit "poetry", t) ∈ @snapshots hash_iter_sorted r ∧ uploaded_bytes t = 1024 ∧
       downloaded_bytes t = 0 ∧ active_connections t = 1.
Proof.
  assert (Hr : traffic_reachable [TUpload 1 1024; TConnect 1; TSync [lit "poetry"]]
    (record_upload 1024 1 (connection 1 (sync_users empty_registry [lit "poetry"])), [1%positive])).
  { apply (traffic_next _ (connection 1 (sync_users empty_registry [lit "poetry"]), [1%positive]) (TUpload 1 1024)).
    - apply (traffic_next _ (sync_users empty_registry [lit "poetry"], []) (TConnect 1)).
      + apply (traffic_next _ (empty_registry, []) (TSync [lit "poetry"])); [constructor|done].
      + split; [apply elem_of_dom; by eexists; vm_compute|done].
    - apply elem_of_dom. by eexists; vm_compute. }
  exists (record_upload 1024 1 (connection 1 (sync_users empty_registry [lit "poetry"]))).
  destruct (@traffic_accounting hash_iter_sorted _ _ _ Hr) as (Hs & _ & Hc & _).
  split_and!; [exact Hr|exact Hs|by vm_compute|].
  destruct (Hc (lit "poetry") 1%positive ltac:(by vm_compute)) as (t & Hin & Hu & Hd & Ha).
  exists t. split_and!; [exact Hin|exact Hu|exact Hd|exact Ha].
Defined.
