(* ===== verification/Auth.v ===== *)
(** * HY2 authentication ([src/src/protocol/auth.rs], and
    [authenticate_connection] of [src/src/server.rs])

    The HTTP/3 requests of a connection are handled one by one until one is
    authorized.  A request is what the handler reads of it; a header is present
    when its value is visible ASCII, as [HeaderValue::to_str] requires.  The
    masquerade handler and the random generator are arguments. *)

From stdpp Require Import base list gmap strings.
From Stdlib Require Import ZArith Lia.
From S2P Require Import Prelude RustStr Rules Net Files Config Brutal.

Open Scope Z_scope.

Definition STATUS_AUTH_OK : Z := 233.
Definition REQUEST_HEADER_AUTH : str := lit "Hysteria-Auth".
Definition RESPONSE_HEADER_UDP_ENABLED : str := lit "Hysteria-UDP".
Definition HEADER_CC_RX : str := lit "Hysteria-CC-RX".

Record AuthRequest := { password : str; receive_bps : Z }.
Record AuthResponse := { auth_udp_enabled : bool; auth_receive_bps : option Z }.

Definition show_bool (b : bool) : str := if b then lit "true" else lit "false".

(** [AuthRequest::from_headers]. *)
Definition from_headers (headers : gmap str str) : AuthRequest :=
  {| password := default [] (headers !! REQUEST_HEADER_AUTH);
     receive_bps := default 0 (headers !! HEADER_CC_RX ≫= parse_u64) |}.

(** [AuthResponse::headers]. *)
Definition response_headers (r : AuthResponse) : gmap str str :=
  <[HEADER_CC_RX := match auth_receive_bps r with None => lit "auto" | Some v => dec v end]>
    (<[RESPONSE_HEADER_UDP_ENABLED := show_bool (auth_udp_enabled r)]> ∅).

(** The advertised rate is read back by the other side. *)
Lemma response_headers_rate r v :
  auth_receive_bps r = Some v → 0 ≤ v ≤ U64_MAX → receive_bps (from_headers (response_headers r)) = v.
Proof.
  intros Hr Hv. unfold from_headers, response_headers, parse_u64. cbn [receive_bps].
  rewrite lookup_insert_eq, Hr. cbn [mbind option_bind]. by rewrite parse_dec.
Qed.

(** ** The handler *)

Record HttpRequest := {
  method : str;
  uri_host : option str;
  uri_path : str;
  auth_header : option str;
  cc_rx_header : option str;
  body_chunks : list (list Z);
}.

Record AuthenticationOptions := {
  auth_users : gmap str str;
  opt_udp_enabled : bool;
  opt_receive_bps : Z;
  receive_auto : bool;
  opt_ignore_client_bandwidth : bool;
  server_limit : Z;
}.

(** The options [run_until_with_traffic] derives from the configuration. *)
Definition users_by_password (us : list User) : gmap str str :=
  collect_map user_password user_name us.

Definition options_of (c : Config) : AuthenticationOptions := {|
  auth_users := users_by_password (users c);
  opt_udp_enabled := udp_enabled (udp c);
  opt_receive_bps := sat_mul (down_mbps (bandwidth c)) 125000;
  receive_auto := ignore_client_bandwidth (bandwidth c) && (down_mbps (bandwidth c) =? 0);
  opt_ignore_client_bandwidth := ignore_client_bandwidth (bandwidth c);
  server_limit := sat_mul (up_mbps (bandwidth c)) 125000;
|}.

Definition AUTHORITY : str := lit "hysteria".
Definition AUTH_PATH : str := lit "/auth".
Definition MAX_MASQUERADE_BODY_SIZE : Z := 8 * 1024 * 1024.

Definition client_receive_bps (req : HttpRequest) : Z := default 0 (cc_rx_header req ≫= parse_u64).

Definition presented_user (o : AuthenticationOptions) (req : HttpRequest) : option str :=
  auth_users o !! default [] (auth_header req).

Definition authorized (o : AuthenticationOptions) (req : HttpRequest) : bool :=
  str_eqb (method req) (lit "POST")
  && bool_decide (uri_host req = Some AUTHORITY)
  && str_eqb (uri_path req) AUTH_PATH
  && bool_decide (is_Some (presented_user o req))
  && negb (opt_ignore_client_bandwidth o && (0 <? opt_receive_bps o) && (client_receive_bps req =? 0)).

(** The body of a request that is not authorized, read up to the limit. *)
Fixpoint read_body (chunks : list (list Z)) (body : list Z) : option (list Z) :=
  match chunks with
  | [] => Some body
  | c :: chunks =>
      if len body + len c >? MAX_MASQUERADE_BODY_SIZE then None else read_body chunks (body ++ c)
  end.

Inductive AuthError := ClosedBeforeAuth | BodyTooLarge | PaddingFailed.

Section authenticate.
(** What the masquerade handler answers, failures already turned into a
    response, and the padding of the accepting response. *)
Context {Resp : Type} (masquerade : HttpRequest → list Z → Resp) (padding : option (list Z)).

Inductive Reply :=
| Masqueraded (r : Resp)
| Accepted (status : Z) (headers : list (str * str)).

(** [authenticate_connection]: the replies, and the user with the send rate
    stored for the connection's controller. *)
Fixpoint authenticate_connection (o : AuthenticationOptions) (reqs : list HttpRequest)
    : list Reply * result AuthError (str * Z) :=
  match reqs with
  | [] => ([], Err ClosedBeforeAuth)
  | req :: reqs =>
      if authorized o req then
        match presented_user o req, padding with
        | Some user, Some pad =>
            let receive_header := if receive_auto o then lit "auto" else dec (opt_receive_bps o) in
            ([Accepted STATUS_AUTH_OK
                [(lit "hysteria-udp", show_bool (opt_udp_enabled o));
                 (lit "hysteria-cc-rx", receive_header); (lit "hysteria-padding", pad)]],
             Ok (user, negotiated_rate (server_limit o) (client_receive_bps req)))
        | _, _ => ([], Err PaddingFailed)
        end
      else
        match read_body (body_chunks req) [] with
        | None => ([], Err BodyTooLarge)
        | Some body =>
            let '(replies, r) := authenticate_connection o reqs in
            (Masqueraded (masquerade req body) :: replies, r)
        end
  end.
End authenticate.

(** ** Properties *)

Lemma negotiated_rate_spec limit client :
  0 ≤ limit → 0 ≤ client →
  negotiated_rate limit client ≤ client ∧ (0 < limit → negotiated_rate limit client ≤ limit) ∧
  (negotiated_rate limit client = 0 ↔ client = 0).
Proof.
  intros Hl Hc. unfold negotiated_rate.
  destruct (Z.eqb_spec client 0), (Z.eqb_spec limit 0); lia.
Qed.

Lemma client_rate_nonneg req : 0 ≤ client_receive_bps req.
Proof.
  unfold client_receive_bps, parse_u64. destruct (cc_rx_header req ≫= _) as [v|] eqn:E; cbn; [|lia].
  apply bind_Some in E as (s & _ & E). apply parse_uint_range in E. lia.
Qed.

(** What an authorized request shows. *)
Lemma authorized_spec o req :
  authorized o req = true ↔
  method req = lit "POST" ∧ uri_host req = Some AUTHORITY ∧ uri_path req = AUTH_PATH ∧
  (∃ n, presented_user o req = Some n) ∧
  ¬ (opt_ignore_client_bandwidth o = true ∧ 0 < opt_receive_bps o ∧ client_receive_bps req = 0).
Proof.
  unfold authorized. rewrite !andb_true_iff, !str_eqb_eq, !bool_decide_eq_true, negb_true_iff.
  unfold is_Some.
  assert (Hn : (opt_ignore_client_bandwidth o && (0 <? opt_receive_bps o) && (client_receive_bps req =? 0)) = false ↔
    ¬ (opt_ignore_client_bandwidth o = true ∧ 0 < opt_receive_bps o ∧ client_receive_bps req = 0)).
  { rewrite <- not_true_iff_false, !andb_true_iff, Z.ltb_lt, Z.eqb_eq. tauto. }
  rewrite Hn. tauto.
Qed.

(** The body limit: the concatenation, when it fits. *)
Lemma read_body_spec chunks body :
  len body ≤ MAX_MASQUERADE_BODY_SIZE →
  read_body chunks body =
    if len body + len (concat chunks) <=? MAX_MASQUERADE_BODY_SIZE then Some (body ++ concat chunks) else None.
Proof.
  revert body. induction chunks as [|c chunks IH]; intros body Hb; cbn [read_body concat].
  - rewrite len_nil, Z.add_0_r, app_nil_r, (proj2 (Z.leb_le _ _)) by done. done.
  - rewrite Z.gtb_ltb, len_app. pose proof (len_nonneg (concat chunks)).
    destruct (Z.ltb_spec MAX_MASQUERADE_BODY_SIZE (len body + len c)).
    + rewrite (proj2 (Z.leb_gt _ _)) by lia. done.
    + rewrite IH by (rewrite len_app; lia). rewrite len_app, <- app_assoc, Z.add_assoc. done.
Qed.

Definition body_fits (req : HttpRequest) : Prop :=
  len (concat (body_chunks req)) ≤ MAX_MASQUERADE_BODY_SIZE.

(** What the replies and the result of [authenticate_connection] say of the
    requests it handled. *)
Definition auth_outcome {Resp} (masq : HttpRequest → list Z → Resp) (c : Config) (reqs : list HttpRequest)
    (out : list Reply * result AuthError (str * Z)) : Prop :=
  let o := options_of c in
  match out with
  | (replies, Ok (user, rate)) =>
      ∃ before req after u, reqs = before ++ req :: after ∧ authorized o req = true ∧
        Forall (fun r => authorized o r = false ∧ body_fits r) before ∧
        u ∈ users c ∧ auth_header req = Some (user_password u) ∧ user_name u = user ∧
        rate = negotiated_rate (server_limit o) (client_receive_bps req) ∧
        rate ≤ client_receive_bps req ∧ (0 < server_limit o → rate ≤ server_limit o) ∧
        take (length before) replies
          = (fun r => Masqueraded (masq r (concat (body_chunks r)))) <$> before ∧
        length replies = S (length before)
  | (replies, Err e) =>
      ∃ before after, reqs = before ++ after ∧
        Forall (fun r => authorized o r = false ∧ body_fits r) before ∧
        length replies = length before ∧
        match after with
        | [] => e = ClosedBeforeAuth
        | r :: _ => e = BodyTooLarge ∧ authorized o r = false ∧ ¬ body_fits r
        end
  end.


(** A browser's request, then the client's. *)
Definition example_requests : list HttpRequest :=
  [ {| method := lit "GET"; uri_host := Some (lit "example.com"); uri_path := lit "/";
       auth_header := None; cc_rx_header := None; body_chunks := [] |};
    {| method := lit "POST"; uri_host := Some AUTHORITY; uri_path := AUTH_PATH;
       auth_header := Some (lit "secret"); cc_rx_header := Some (lit "20000000"); body_chunks := [] |} ].

