(* ===== verification/Relay.v ===== *)
(** * The TCP data plane ([relay_tcp_stream] of [src/src/server.rs] and what it calls)

    The request is read from the stream piece by piece, then both directions are
    copied through pooled buffers.  The two directions run concurrently: a
    schedule says which one runs next.  Readers can break, writers can run out of
    room in the middle of a write and fail to close. *)

From stdpp Require Import base list strings.
From Stdlib Require Import ZArith Lia.
From S2P Require Import Prelude RustStr Varint TcpCodec Stream.

Open Scope Z_scope.

(** ** Reading the request *)

Inductive ReadError :=
| Finished
| BadVarint (e : VarIntError)
| WrongFrame (frame_type : Z)
| BadAddressLength (l : Z)
| BadPaddingLength (l : Z)
| NotUtf8.

Definition early (e : StreamError) : ReadError := match e with FinishedEarly => Finished end.

(** [read_varint]. *)
Definition read_varint (recv : Stream) : result ReadError (Z * Stream) :=
  '(first, recv) ← rmap_err early (read_exact 1 recv);
  let length := first_width (safe_get first 0) in
  '(bytes, recv) ←
    (if (1 <? length)%nat then
       '(rest, recv) ← rmap_err early (read_exact (length - 1) recv);
       Ok (first ++ rest, recv)
     else Ok (first, recv));
  '(value, _) ← rmap_err BadVarint (decode_varint bytes);
  Ok (value, recv).

(** [read_tcp_request]. *)
Definition read_tcp_request (recv : Stream) : result ReadError (TcpRequest * Stream) :=
  '(address_length, recv) ← read_varint recv;
  if (address_length =? 0) || (address_length >? MAX_ADDRESS_LENGTH)
  then Err (BadAddressLength address_length)
  else
    '(address, recv) ← rmap_err early (read_exact (Z.to_nat address_length) recv);
    '(padding_length, recv) ← read_varint recv;
    if padding_length >? MAX_PADDING_LENGTH then Err (BadPaddingLength padding_length)
    else
      '(_, recv) ← rmap_err early (read_exact (Z.to_nat padding_length) recv);
      let '(chunk, recv) := read_chunk recv in
      let payload := default [] chunk in
      destination ← ok_or NotUtf8 (from_utf8 address);
      Ok ({| req_destination := destination; req_payload := payload |}, recv).

(** The start of [relay_tcp_stream]: the frame type, then the request. *)
Definition read_request_frame (recv : Stream) : result ReadError (TcpRequest * Stream) :=
  '(frame_type, recv) ← read_varint recv;
  if negb (frame_type =? FRAME_TYPE_TCP_REQUEST) then Err (WrongFrame frame_type)
  else read_tcp_request recv.

(** ** Padding *)

Definition PADDING_ALPHABET : list Z :=
  lit "abcdefghijklmnopqrstuvwxyzABCDEFGHIJKLMNOPQRSTUVWXYZ0123456789".

(** [getrandom::fill]: the next bytes of the system's generator, or its failure. *)
Inductive RngError := RngFailed.

Definition fill (n : nat) (rng : list Z) : result RngError (list Z * list Z) :=
  if (n <=? length rng)%nat then Ok (take n rng, drop n rng) else Err RngFailed.

(** [random_padding]: the padding and what the generator gives next. *)
Definition random_padding (minimum maximum : Z) (rng : list Z) : result RngError (list Z * list Z) :=
  '(selector, rng) ← fill 2 rng;
  let range := maximum - minimum in
  let length := minimum + from_be_bytes (reverse selector) mod range in
  '(padding, rng) ← fill (Z.to_nat length) rng;
  Ok (map (fun b => safe_get PADDING_ALPHABET (Z.to_nat (b mod len PADDING_ALPHABET))) padding, rng).

(** ** Readers and writers *)

Inductive IoError := ReadFailed | WriteFailed | CloseFailed.

(** A reader: the data in chunks, then end of file or a failure. *)
Record Reader := { pending : Stream; broken : bool }.

(** A writer: what it has accepted, the room left before it fails, whether it is
    closed and whether closing it fails. *)
Record Writer := { written : list Z; room : option nat; closed : bool; close_fails : bool }.

(** [reader.read(buffer)] for a buffer of [n] bytes. *)
Definition reader_read (n : nat) (r : Reader) : result IoError (list Z * Reader) :=
  match read_chunk (pending r) with
  | (Some c, rest) => Ok (take n c, {| pending := drop n c :: rest; broken := broken r |})
  | (None, _) => if broken r then Err ReadFailed else Ok ([], {| pending := []; broken := false |})
  end.

(** [writer.write_all(data)]: the writer after it, and whether all was accepted. *)
Definition write_all (w : Writer) (data : list Z) : Writer * bool :=
  match room w with
  | None => ({| written := written w ++ data; room := None; closed := closed w;
                close_fails := close_fails w |}, true)
  | Some r =>
      ({| written := written w ++ take r data; room := Some (r - length data)%nat; closed := closed w;
          close_fails := close_fails w |}, (length data <=? r)%nat)
  end.

(** [shutdown] and [finish]. *)
Definition close (w : Writer) : Writer * result IoError unit :=
  if close_fails w then (w, Err CloseFailed)
  else ({| written := written w; room := room w; closed := true; close_fails := false |}, Ok tt).

(** ** Pooled buffers *)

Definition RELAY_BUFFER_SIZE : nat := 32 * 1024.
Definition MAX_POOLED_RELAY_BUFFERS : nat := 16.

Abbreviation Pool := (list (list Z)).

(** [RelayBuffer::take]: the last pooled buffer, or a new one. *)
Definition take_buffer (pool : Pool) : list Z * Pool :=
  match reverse pool with
  | buffer :: rest => (buffer, reverse rest)
  | [] => (replicate RELAY_BUFFER_SIZE 0, [])
  end.

(** [RelayBuffer::drop]. *)
Definition drop_buffer (buffer : list Z) (pool : Pool) : Pool :=
  if (length pool <? MAX_POOLED_RELAY_BUFFERS)%nat then pool ++ [buffer] else pool.

(** ** [copy_with_reused_buffer] *)

Record Copy := { buffer : list Z; reader : Reader; writer : Writer; copied : Z; counter : Z }.

(** One iteration of its loop: go on, or return.  The awaits inside it touch only the
    buffer and the two ends, which the loop has to itself, so nobody else sees the states
    between them; a writer that fails within a buffer has taken the bytes before. *)
Definition copy_step (c : Copy) : Copy + (Copy * result IoError Z) :=
  match reader_read (length (buffer c)) (reader c) with
  | Err e => inr (c, Err e)
  | Ok (data, r) =>
      let read := length data in
      let buf := data ++ drop read (buffer c) in
      if (read =? 0)%nat
      then inr ({| buffer := buf; reader := r; writer := writer c; copied := copied c; counter := counter c |},
                Ok (copied c))
      else
        let '(w, accepted) := write_all (writer c) (take read buf) in
        if accepted
        then inl {| buffer := buf; reader := r; writer := w; copied := sat_add (copied c) (Z.of_nat read);
                    counter := wrap 64 (counter c + Z.of_nat read) |}
        else inr ({| buffer := buf; reader := r; writer := w; copied := copied c; counter := counter c |},
                  Err WriteFailed)
  end.

(** ** The two directions *)

(** One of the futures [to_upstream] and [from_upstream]: not polled yet,
    copying, or ended with its result. *)
Inductive Half :=
| Waiting (r : Reader) (w : Writer) (count : Z)
| Copying (c : Copy)
| Ended (w : Writer) (count : Z) (res : result IoError unit).

Definition half_step (pool : Pool) (h : Half) : Pool * Half :=
  match h with
  | Waiting r w count =>
      let '(buf, pool) := take_buffer pool in
      (pool, Copying {| buffer := buf; reader := r; writer := w; copied := 0; counter := count |})
  | Copying c =>
      match copy_step c with
      | inl c => (pool, Copying c)
      | inr (c, Err e) => (drop_buffer (buffer c) pool, Ended (writer c) (counter c) (Err e))
      | inr (c, Ok _) =>
          let '(w, res) := close (writer c) in
          (drop_buffer (buffer c) pool, Ended w (counter c) res)
      end
  | Ended _ _ _ => (pool, h)
  end.

(** Dropping a future that has not ended gives its buffer back. *)
Definition cancel (pool : Pool) (h : Half) : Pool :=
  match h with Copying c => drop_buffer (buffer c) pool | _ => pool end.

(** [tokio::try_join!] ends at the first error, or when both have ended. *)
Definition joined (up down : Half) : option (result IoError unit) :=
  match up, down with
  | Ended _ _ (Err e), _ => Some (Err e)
  | _, Ended _ _ (Err e) => Some (Err e)
  | Ended _ _ (Ok _), Ended _ _ (Ok _) => Some (Ok tt)
  | _, _ => None
  end.

(** [tokio::try_join!(to_upstream, from_upstream)] under a schedule, [true] for
    [to_upstream]: the result is [None] while it is still running. *)
Fixpoint try_join (schedule : list bool) (pool : Pool) (up down : Half)
    : Pool * Half * Half * option (result IoError unit) :=
  match joined up down with
  | Some r => (cancel (cancel pool up) down, up, down, Some r)
  | None =>
      match schedule with
      | [] => (pool, up, down, None)
      | true :: schedule => let '(pool, up) := half_step pool up in try_join schedule pool up down
      | false :: schedule => let '(pool, down) := half_step pool down in try_join schedule pool up down
      end
  end.

(** ** [relay_tcp_stream] *)

Inductive RelayError :=
| RequestError (e : ReadError)
| NoPadding
| ResponseError (e : TcpCodecError)
| RelayIo (e : IoError).

(** The traffic counters of the user. *)
Record Counters := { uploaded : Z; downloaded : Z }.

(** What a relay leaves: the pool, what the client and the destination received,
    the counters, and the result ([None] when the schedule ended first). *)
Record RelayOutcome := {
  out_pool : Pool;
  out_client : Writer;
  out_upstream : option Writer;
  out_counters : Counters;
  out_result : option (result RelayError unit);
}.

Definition half_writer (h : Half) : Writer :=
  match h with Waiting _ w _ => w | Copying c => writer c | Ended w _ _ => w end.
Definition half_counter (h : Half) : Z :=
  match h with Waiting _ _ n => n | Copying c => counter c | Ended _ n _ => n end.

Definition stop (pool : Pool) (client : Writer) (upstream : option Writer) (n : Counters)
    (r : result RelayError unit) : RelayOutcome :=
  {| out_pool := pool; out_client := client; out_upstream := upstream; out_counters := n;
     out_result := Some r |}.

(** The response with its padding. *)
Definition encoded_response (status : TcpResponseStatus) (message : str) (rng : list Z)
    : result RelayError (list Z) :=
  '(padding, _) ← rmap_err (fun _ => NoPadding) (random_padding 128 1024 rng);
  rmap_err ResponseError
    (Response.encode {| resp_status := status; resp_message := message; resp_payload := [] |} padding).

(** How far [relay_tcp_stream] comes before it copies: it returns, or it has the two
    directions, with the request's payload written and counted. *)
Inductive Prepared :=
| Refused (client : Writer) (upstream : option Writer) (r : result RelayError unit)
| Started (up down : Half).

(** [connect] is [outbound.connect_tcp]: the destination's reader and writer, or
    the text of the error. *)
Definition prepare (connect : str → result str (Reader * Writer)) (rng : list Z)
    (send : Writer) (recv : Stream) (recv_broken : bool) (traffic : Counters) : Prepared :=
  match read_request_frame recv with
  | Err e => Refused send None (Err (RequestError e))
  | Ok (request, recv) =>
      match connect (req_destination request) with
      | Err message =>
          match encoded_response StatusError message rng with
          | Err e => Refused send None (Err e)
          | Ok response =>
              let '(send, accepted) := write_all send response in
              if accepted then
                let '(send, r) := close send in
                Refused send None (rmap_err RelayIo r)
              else Refused send None (Err (RelayIo WriteFailed))
          end
      | Ok (upstream_read, upstream_write) =>
          match encoded_response StatusOk [] rng with
          | Err e => Refused send (Some upstream_write) (Err e)
          | Ok response =>
              let '(send, accepted) := write_all send response in
              if negb accepted then Refused send (Some upstream_write) (Err (RelayIo WriteFailed))
              else
                let '(upstream_write, accepted) := write_all upstream_write (req_payload request) in
                if negb accepted
                then Refused send (Some upstream_write) (Err (RelayIo WriteFailed))
                else
                  Started (Waiting {| pending := recv; broken := recv_broken |} upstream_write
                             (wrap 64 (uploaded traffic + len (req_payload request))))
                          (Waiting upstream_read send (downloaded traffic))
          end
      end
  end.

Definition relay_tcp_stream (connect : str → result str (Reader * Writer)) (rng : list Z)
    (schedule : list bool) (pool : Pool) (send : Writer) (recv : Stream) (recv_broken : bool)
    (traffic : Counters) : RelayOutcome :=
  match prepare connect rng send recv recv_broken traffic with
  | Refused client upstream r => stop pool client upstream traffic r
  | Started up down =>
      let '(pool, up, down, r) := try_join schedule pool up down in
      {| out_pool := pool; out_client := half_writer down; out_upstream := Some (half_writer up);
         out_counters := {| uploaded := half_counter up; downloaded := half_counter down |};
         out_result := rmap_err RelayIo <$> r |}
  end.

(** ** The reader against the frame decoder *)

Lemma is_bytes_app_inv a b : is_bytes (a ++ b) → is_bytes a ∧ is_bytes b.
Proof. unfold is_bytes. by rewrite Forall_app. Qed.

(** Reading a varint off the stream is decoding it off the bytes. *)
Lemma read_varint_spec s :
  is_bytes (concat s) →
  match read_varint s with
  | Ok (v, s') => decode_varint (concat s) = Ok (v, concat s')
  | Err e => e = Finished ∧ decode_varint (concat s) = Err VTruncated
  end.
Proof.
  intros Hb. unfold read_varint.
  pose proof (read_exact_spec 1 s) as H1. destruct (read_exact 1 s) as [[f s1]|[]]; res_simpl.
  2: { destruct (concat s); [done|cbn in H1; lia]. }
  destruct H1 as (Hl & -> & Hs1). destruct (concat s) as [|first t]; [cbn in Hl; lia|].
  cbn [take drop safe_get nth] in *. rewrite take_0. rewrite drop_0 in Hs1.
  pose proof (decode_varint_spec first t Hb) as Hd. cbv zeta in Hd.
  apply Forall_cons in Hb as [Hf Ht]. set (w := first_width first) in *.
  destruct (Nat.ltb_spec 1 w) as [Hw|Hw].
  - pose proof (read_exact_spec (w - 1) s1) as H2. rewrite Hs1 in H2.
    destruct (read_exact (w - 1) s1) as [[r s2]|[]]; res_simpl.
    + destruct H2 as (Hn & -> & Hs2). cbn [app].
      rewrite (decode_varint_spec first (take (w - 1) t)) by (constructor; [done|by apply Forall_take]).
      fold w. rewrite decide_False by (rewrite length_take; lia). res_simpl.
      rewrite Hd, decide_False by lia. by rewrite take_idemp, Hs2.
    + rewrite Hd. by rewrite decide_True by lia.
  - res_simpl. rewrite (decode_varint_spec first []) by (constructor; [done|constructor]). fold w.
    replace (w - 1)%nat with 0%nat in * by lia. rewrite decide_False by (cbn; lia). res_simpl.
    rewrite Hd, decide_False by lia. by rewrite take_0, drop_0, Hs1.
Qed.

Lemma decode_varint_rest_bytes l v rest :
  is_bytes l → decode_varint l = Ok (v, rest) → is_bytes rest ∧ 0 ≤ v.
Proof.
  intros Hb H. destruct (decode_varint_bound l v rest Hb H) as (? & w & _ & -> & _).
  split; [by apply Forall_drop|lia].
Qed.

(** A length and then that many bytes off the stream, against [read_limited]. *)
Lemma read_field_spec s l s1 maximum field :
  is_bytes (concat s) → decode_varint (concat s) = Ok (l, concat s1) → l ≤ maximum →
  match read_exact (Z.to_nat l) s1 with
  | Ok (v, s2) => read_limited (concat s) maximum field = Ok (v, concat s2) ∧ len v = l ∧ is_bytes (concat s2)
  | Err _ => read_limited (concat s) maximum field = Err TcpTruncated
  end.
Proof.
  intros Hb Hd Hl. destruct (decode_varint_rest_bytes _ _ _ Hb Hd) as [Hb1 Hl0].
  pose proof (read_exact_spec (Z.to_nat l) s1) as H. unfold read_limited. rewrite Hd. res_simpl.
  rewrite (proj2 (validate_len_Ok l maximum field tt)) by done. res_simpl. unfold len.
  destruct (read_exact (Z.to_nat l) s1) as [[v s2]|].
  - destruct H as (Hn & -> & Hs2). rewrite Hs2. rewrite (proj2 (Z.ltb_ge _ _)) by lia.
    split_and!; [done|rewrite length_take; lia|by apply Forall_drop].
  - by rewrite (proj2 (Z.ltb_lt _ _)) by lia.
Qed.

Lemma read_limited_refuses s l s1 maximum field :
  decode_varint (concat s) = Ok (l, concat s1) → maximum < l →
  read_limited (concat s) maximum field = Err (InvalidLength field l).
Proof.
  intros Hd Hl. unfold read_limited. rewrite Hd. res_simpl. unfold validate_len.
  rewrite Z.gtb_ltb, (proj2 (Z.ltb_lt maximum l)) by done. by res_simpl.
Qed.

(** What [read_request_frame] answers, in terms of the decoder on all the bytes
    of the stream. *)
Definition frame_outcome (frame : list Z) (r : result ReadError (TcpRequest * Stream)) : Prop :=
  match r with
  | Ok (request, rest) =>
      Request.decode frame
        = Ok {| req_destination := req_destination request;
                req_payload := req_payload request ++ concat rest |} ∧
      utf8_valid (req_destination request) = true ∧
      (req_payload request = [] → concat rest = [])
  | Err NotUtf8 => ∃ request, Request.decode frame = Ok request
  | Err _ => ∃ e, Request.decode frame = Err e
  end.

Lemma utf8_or_lossy address :
  from_utf8 address = Some address ∧ from_utf8_lossy address = address ∧ utf8_valid address = true ∨
  from_utf8 address = None.
Proof.
  unfold from_utf8. destruct (utf8_valid address) eqn:E; [left|by right].
  by rewrite from_utf8_lossy_valid.
Qed.

(** The part after the frame type. *)
Lemma read_tcp_request_spec s frame :
  is_bytes (concat s) → decode_varint frame = Ok (FRAME_TYPE_TCP_REQUEST, concat s) →
  frame_outcome frame (read_tcp_request s).
Proof.
  intros Hb Hframe. unfold frame_outcome, Request.decode. rewrite Hframe. res_simpl. rewrite Z.eqb_refl. cbn [negb].
  unfold read_tcp_request. pose proof (read_varint_spec s Hb) as Hv.
  destruct (read_varint s) as [[l s1]|]; res_simpl.
  2: { destruct Hv as [-> Hv]. unfold read_limited. rewrite Hv. res_simpl. eauto. }
  destruct (decode_varint_rest_bytes _ _ _ Hb Hv) as [Hb1 Hl0].
  rewrite Z.gtb_ltb. destruct (Z.eqb_spec l 0) as [->|Hne]; cbn [orb].
  { pose proof (read_field_spec s 0 s1 MAX_ADDRESS_LENGTH "address" Hb Hv ltac:(by vm_compute)) as H.
    destruct (read_exact (Z.to_nat 0) s1) as [[v s2]|]; [destruct H as (H & Hlen & _)|]; rewrite H; res_simpl; [|eauto].
    apply len_0_nil in Hlen as ->. eauto. }
  destruct (Z.ltb_spec MAX_ADDRESS_LENGTH l).
  { rewrite (read_limited_refuses s l s1) by done. eauto. }
  pose proof (read_field_spec s l s1 MAX_ADDRESS_LENGTH "address" Hb Hv ltac:(done)) as H2.
  destruct (read_exact (Z.to_nat l) s1) as [[address s2]|[]]; res_simpl; [|rewrite H2; cbn; eauto].
  destruct H2 as (-> & Hlen & Hb2). res_simpl.
  destruct address as [|a0 address']; [by cbn in Hlen|]. remember (a0 :: address') as address eqn:Ea.
  replace (is_nil address) with false by (by subst).
  pose proof (read_varint_spec s2 Hb2) as Hv2.
  destruct (read_varint s2) as [[pl s3]|]; res_simpl.
  2: { destruct Hv2 as [-> Hv2]. unfold read_limited. rewrite Hv2. res_simpl. eauto. }
  rewrite Z.gtb_ltb. destruct (Z.ltb_spec MAX_PADDING_LENGTH pl).
  { rewrite (read_limited_refuses s2 pl s3) by done. eauto. }
  pose proof (read_field_spec s2 pl s3 MAX_PADDING_LENGTH "padding" Hb2 Hv2 ltac:(done)) as H3.
  destruct (read_exact (Z.to_nat pl) s3) as [[padding s4]|[]]; res_simpl; [|rewrite H3; cbn; eauto].
  destruct H3 as (-> & _ & Hb4). res_simpl.
  pose proof (read_chunk_concat s4) as Hc. destruct (read_chunk s4) as [[c|] s5]; cbn [default].
  - destruct (utf8_or_lossy address) as [(-> & Hlossy & Hvalid)| -> ]; res_simpl; [|eauto].
    cbn [req_destination req_payload]. rewrite Hlossy. destruct Hc as [Hne' ->]. done.
  - destruct (utf8_or_lossy address) as [(-> & Hlossy & Hvalid)| -> ]; res_simpl; [|eauto].
    cbn [req_destination req_payload]. rewrite Hlossy. destruct Hc as [-> ->]. done.
Qed.

(** Claim C33. However the bytes of a stream are cut into chunks, the server reads
    from it the request that [TcpRequest::decode] finds in the whole of them: the
    same destination, and a payload that with the data left unread makes up the
    decoder's payload.  It fails where the decoder fails, and in one case more, a
    destination that is not UTF-8, which the decoder converts. *)
Theorem read_request_frame_refines s :
  is_bytes (concat s) → frame_outcome (concat s) (read_request_frame s).
Proof.
  intros Hb. unfold read_request_frame. pose proof (read_varint_spec s Hb) as Hv.
  destruct (read_varint s) as [[ft s1]|e]; res_simpl.
  - destruct (decode_varint_rest_bytes _ _ _ Hb Hv) as [Hb1 _].
    destruct (Z.eqb_spec ft FRAME_TYPE_TCP_REQUEST) as [->|Hne]; cbn [negb].
    + by apply read_tcp_request_spec.
    + unfold frame_outcome, Request.decode. rewrite Hv. res_simpl.
      rewrite (proj2 (Z.eqb_neq _ _)) by done. eauto.
  - destruct Hv as [-> Hv]. unfold frame_outcome, Request.decode. rewrite Hv. res_simpl. eauto.
Qed.

Lemma read_request_frame_refines_witness :
  let s := [[68]; [1; 3; 97; 58]; [49; 2; 9]; [9; 7]; [8; 8]] in
  read_request_frame s = Ok ({| req_destination := lit "a:1"; req_payload := [7] |}, [[8; 8]]) ∧
  frame_outcome (concat s) (read_request_frame s).
Proof.
  intros s. split; [by vm_compute|]. apply read_request_frame_refines.
  repeat constructor; vm_compute; congruence.
Defined.

(** ** Padding stays within its bounds *)

Lemma random_padding_spec minimum maximum rng padding rng' :
  0 ≤ minimum < maximum → random_padding minimum maximum rng = Ok (padding, rng') →
  minimum ≤ len padding < maximum ∧ Forall (fun b => b ∈ PADDING_ALPHABET) padding.
Proof.
  intros Hm H. unfold random_padding in H.
  apply rbind_Ok in H as ([sel rng1] & _ & H). apply rbind_Ok in H as ([p rng2] & Hp & [= <- _]).
  unfold fill in Hp. set (n := Z.to_nat _) in Hp. destruct (Nat.leb_spec n (length rng1)) as [Hn|]; [|done].
  injection Hp as <- <-. split.
  - unfold len. rewrite length_map, length_take. unfold n in *.
    pose proof (Z.mod_pos_bound (from_be_bytes (reverse sel)) (maximum - minimum) ltac:(lia)). lia.
  - rewrite Forall_map. apply Forall_true. intros b. cbn beta.
    apply list_elem_of_In, nth_In.
    pose proof (Z.mod_pos_bound b (len PADDING_ALPHABET) ltac:(by vm_compute)). unfold len in *. lia.
Qed.

(** ** The pool *)

Lemma relay_buffer_size_pos : (0 < RELAY_BUFFER_SIZE)%nat.
Proof. apply Nat.ltb_lt. by vm_compute. Qed.

#[global] Opaque RELAY_BUFFER_SIZE.

(** At most 16 buffers, each of the full size: an empty one would read as the end
    of the stream. *)
Definition pool_ok (pool : Pool) : Prop :=
  (length pool ≤ MAX_POOLED_RELAY_BUFFERS)%nat ∧ Forall (fun b => length b = RELAY_BUFFER_SIZE) pool.

Lemma take_buffer_ok pool :
  pool_ok pool → length (take_buffer pool).1 = RELAY_BUFFER_SIZE ∧ pool_ok (take_buffer pool).2.
Proof.
  intros [Hl Hf]. unfold take_buffer. destruct (reverse pool) as [|b rest] eqn:E; cbn [fst snd].
  - split; [apply length_replicate|]. split; [cbn; lia|constructor].
  - assert (pool = reverse rest ++ [b]) as ->.
    { rewrite <- (reverse_involutive pool), E. by rewrite reverse_cons. }
    rewrite length_app in Hl. apply Forall_app in Hf as [Hr Hb]. inversion_clear Hb.
    split; [done|]. split; [lia|done].
Qed.

Lemma drop_buffer_ok b pool :
  length b = RELAY_BUFFER_SIZE → pool_ok pool → pool_ok (drop_buffer b pool).
Proof.
  intros Hb [Hl Hf]. unfold drop_buffer.
  destruct (Nat.ltb_spec (length pool) MAX_POOLED_RELAY_BUFFERS); [|done]. split.
  - rewrite length_app. cbn. lia.
  - apply Forall_app. split; [done|]. by repeat constructor.
Qed.

(** ** One direction *)

Section half.
(** What the writer held and the count before, all the data of the reader, and
    whether neither end fails. *)
Context (base total : list Z) (count0 : Z).
Context (ok : bool).

Definition reliable_reader (r : Reader) : Prop := ok = true → broken r = false.
Definition reliable_writer (w : Writer) : Prop := ok = true → room w = None ∧ close_fails w = false.

Definition half_inv (h : Half) : Prop :=
  match h with
  | Waiting r w n =>
      written w = base ∧ concat (pending r) = total ∧ n = count0 ∧ closed w = false ∧
      reliable_reader r ∧ reliable_writer w
  | Copying c =>
      length (buffer c) = RELAY_BUFFER_SIZE ∧ closed (writer c) = false ∧
      reliable_reader (reader c) ∧ reliable_writer (writer c) ∧
      ∃ done, written (writer c) = base ++ done ∧ done ++ concat (pending (reader c)) = total ∧
              wrap 64 (counter c) = wrap 64 (count0 + len done)
  | Ended w n res =>
      (ok = true → res = Ok tt) ∧
      (∃ done rest, written w = base ++ done ∧ done ++ rest = total) ∧
      (res = Ok tt → closed w = true ∧ written w = base ++ total ∧ wrap 64 n = wrap 64 (count0 + len total))
  end.

Lemma write_all_spec w data w' accepted :
  write_all w data = (w', accepted) →
  closed w' = closed w ∧ (reliable_writer w → reliable_writer w') ∧
  (∃ n, written w' = written w ++ take n data) ∧
  (accepted = true → written w' = written w ++ data) ∧
  (reliable_writer w → ok = true → accepted = true).
Proof.
  unfold write_all, reliable_writer. destruct (room w) as [r|]; intros [= <- <-]; cbn.
  - split_and!; [done|naive_solver|by eexists| |naive_solver].
    intros Hr%Nat.leb_le. by rewrite take_ge.
  - split_and!; try done. exists (length data). by rewrite take_ge.
Qed.

Lemma reader_read_spec n r :
  (0 < n)%nat →
  match reader_read n r with
  | Ok (data, r') =>
      concat (pending r) = data ++ concat (pending r') ∧ (length data ≤ n)%nat ∧
      (reliable_reader r → reliable_reader r') ∧ (data = [] → concat (pending r) = [])
  | Err e => reliable_reader r → ok = false
  end.
Proof.
  intros Hn. unfold reader_read, reliable_reader. pose proof (read_chunk_concat (pending r)) as Hc.
  destruct (read_chunk (pending r)) as [[c|] rest].
  - destruct Hc as [Hne ->]. cbn [pending broken concat]. rewrite app_assoc, take_drop.
    split_and!; [done|rewrite length_take; lia|done|]. destruct c, n; try done; lia.
  - destruct Hc as [-> ->]. destruct (broken r) eqn:E; [destruct ok; naive_solver|].
    cbn. split_and!; try done; lia.
Qed.

(** Each step keeps the invariant of the direction and of the pool... *)
Lemma half_step_inv pool h :
  pool_ok pool → half_inv h → pool_ok (half_step pool h).1 ∧ half_inv (half_step pool h).2.
Proof.
  intros Hp Hh. destruct h as [r w n|c|w n res]; cbn [half_step]; [| |done].
  - pose proof (take_buffer_ok pool Hp) as [Hl Hp']. destruct (take_buffer pool) as [buf pool'].
    cbn in *. split; [done|]. destruct Hh as (? & ? & -> & ? & ? & ?). split_and!; try done.
    exists []. rewrite app_nil_r, len_nil, Z.add_0_r. done.
  - destruct Hh as (Hl & Hcl & Hr & Hw & dn & Hwr & Htot & Hcnt). unfold copy_step.
    pose proof (reader_read_spec (length (buffer c)) (reader c)) as Hrd.
    rewrite Hl in *. specialize (Hrd relay_buffer_size_pos).
    destruct (reader_read RELAY_BUFFER_SIZE (reader c)) as [[data r']|e]; cbn [fst snd].
    2: { split; [by apply drop_buffer_ok|]. cbn. split_and!; [|by eauto|done].
         intros Hok. specialize (Hrd Hr). congruence. }
    destruct Hrd as (Hcat & Hlen & Hr' & Hend).
    assert (Hbuf : length (data ++ drop (length data) (buffer c)) = RELAY_BUFFER_SIZE)
      by (rewrite length_app, length_drop; lia).
    destruct (Nat.eqb_spec (length data) 0) as [H0|H0].
    { cbn [writer counter buffer]. apply nil_length_inv in H0 as ->.
      rewrite (Hend eq_refl), app_nil_r in Htot. subst dn.
      unfold close. destruct (close_fails (writer c)) eqn:Ecf; cbn [fst snd].
      - split; [by apply drop_buffer_ok|]. cbn. split_and!; [|exists total, []; by rewrite app_nil_r|done].
        intros Hok. destruct (Hw Hok). congruence.
      - split; [by apply drop_buffer_ok|]. cbn. split_and!; [done|exists total, []; by rewrite app_nil_r|].
        done. }
    rewrite take_app_length. destruct (write_all (writer c) data) as [w' accepted] eqn:Ew.
    apply write_all_spec in Ew as (Hcl' & Hw' & (k & Hk) & Hacc & Hok).
    destruct accepted; cbn [fst snd].
    + split; [done|]. cbn. split_and!; [done|congruence|auto|auto|].
      exists (dn ++ data). rewrite Hacc, Hwr by done. split_and!; [by rewrite app_assoc| |].
      * by rewrite <- app_assoc, <- Hcat.
      * unfold wrap in *. rewrite Z.mod_mod by done. rewrite <- Zplus_mod_idemp_l, Hcnt, Zplus_mod_idemp_l.
        rewrite len_app. f_equal. unfold len. lia.
    + cbn [buffer writer counter fst snd]. split; [by apply drop_buffer_ok|]. cbn. split_and!; [|
        |done].
      * intros Ht. specialize (Hok Hw Ht). done.
      * exists (dn ++ take k data), (drop k data ++ concat (pending r')).
        rewrite Hk, Hwr, <- !app_assoc. split; [done|]. by rewrite (app_assoc (take k data)), take_drop, <- Hcat.
Qed.

(** ... and uses up the work left. *)
Definition work (h : Half) : nat :=
  match h with
  | Waiting r _ _ => 2 + length (concat (pending r))
  | Copying c => 1 + length (concat (pending (reader c)))
  | Ended _ _ _ => 0
  end.

Lemma half_step_work pool h :
  half_inv h → pool_ok pool → (work (half_step pool h).2 ≤ work h - 1)%nat.
Proof.
  intros Hh Hp. destruct h as [r w n|c|w n res]; cbn [half_step work snd]; [| |lia].
  - destruct (take_buffer pool). cbn. lia.
  - destruct Hh as (Hl & _). unfold copy_step.
    pose proof (reader_read_spec (length (buffer c)) (reader c)) as Hrd.
    rewrite Hl in *. specialize (Hrd relay_buffer_size_pos).
    destruct (reader_read RELAY_BUFFER_SIZE (reader c)) as [[data r']|e]; [|cbn; lia].
    destruct Hrd as (Hcat & _). rewrite Hcat, length_app.
    destruct (Nat.eqb_spec (length data) 0).
    + destruct (close _). cbn. lia.
    + destruct (write_all _ _) as [w' []]; cbn; lia.
Qed.
End half.

(** ** Both directions *)

(** How often a direction runs in a schedule. *)
Definition turns (d : bool) (schedule : list bool) : nat := length (filter (eq d) schedule).

Lemma turns_cons d e s : turns d (e :: s) = ((if Bool.eqb d e then 1 else 0) + turns d s)%nat.
Proof. unfold turns. rewrite filter_cons. by destruct d, e. Qed.

Lemma cancel_ok base total count0 ok pool h :
  pool_ok pool → half_inv base total count0 ok h → pool_ok (cancel pool h).
Proof.
  intros Hp Hh. destruct h as [|c|]; cbn [cancel]; try done. apply drop_buffer_ok; [|done].
  by destruct Hh.
Qed.

Section join.
Context (bu tu : list Z) (cu : Z) (bd td : list Z) (cd : Z) (ok : bool).

Definition join_outcome (schedule : list bool) (up down : Half)
    (out : Pool * Half * Half * option (result IoError unit)) : Prop :=
  let '(pool, up', down', r) := out in
  pool_ok pool ∧ half_inv bu tu cu ok up' ∧ half_inv bd td cd ok down' ∧
  (r = Some (Ok tt) → (∃ w n, up' = Ended w n (Ok tt)) ∧ ∃ w n, down' = Ended w n (Ok tt)) ∧
  (ok = true → (work up ≤ turns true schedule)%nat → (work down ≤ turns false schedule)%nat →
   r = Some (Ok tt)) ∧
  ((work up ≤ turns true schedule)%nat → (work down ≤ turns false schedule)%nat → r ≠ None).

Lemma joined_spec up down :
  half_inv bu tu cu ok up → half_inv bd td cd ok down →
  match joined up down with
  | Some (Ok _) => (∃ w n, up = Ended w n (Ok tt)) ∧ ∃ w n, down = Ended w n (Ok tt)
  | Some (Err _) => ok = false
  | None => (0 < work up + work down)%nat
  end.
Proof.
  intros Hu Hd. destruct up as [ | |wu nu [[]|eu]], down as [ | |wd nd [[]|ed]]; cbn [joined work];
    try lia; try (split; by do 2 eexists);
    first [destruct Hu as [Hu _]; destruct ok; [discriminate (Hu eq_refl)|done]
          |destruct Hd as [Hd _]; destruct ok; [discriminate (Hd eq_refl)|done]].
Qed.

Lemma try_join_spec schedule pool up down :
  pool_ok pool → half_inv bu tu cu ok up → half_inv bd td cd ok down →
  join_outcome schedule up down (try_join schedule pool up down).
Proof.
  revert pool up down. induction schedule as [|d s IH]; intros pool up down Hp Hu Hd;
    cbn [try_join]; pose proof (joined_spec up down Hu Hd) as Hj; destruct (joined up down) as [[[]|e]|].
  1, 2, 4, 5: assert (pool_ok (cancel (cancel pool up) down)) by (eapply cancel_ok; [eapply cancel_ok|]; eassumption);
    do 3 (split; [assumption|]); (split; [intros; first [exact Hj|discriminate]|]);
    (split; [intros; first [reflexivity|congruence]|intros; discriminate]).
  - do 3 (split; [assumption|]). change (turns _ []) with 0%nat. (split; [done|]). split; lia.
  - destruct d.
    + destruct (half_step_inv bu tu cu ok pool up Hp Hu) as [Hp' Hu'].
      pose proof (half_step_work bu tu cu ok pool up Hu Hp) as Hwk.
      destruct (half_step pool up) as [pool' up']. cbn [fst snd] in *.
      specialize (IH pool' up' down Hp' Hu' Hd). unfold join_outcome in *.
      destruct (try_join s pool' up' down) as [[[p u] w] r]. rewrite !turns_cons. cbn [Bool.eqb].
      destruct IH as (? & ? & ? & ? & Hok & Hend). do 4 (split; [assumption|]). split.
      * intros Ht Hwu Hwd. apply Hok; [done|lia|lia].
      * intros Hwu Hwd. apply Hend; lia.
    + destruct (half_step_inv bd td cd ok pool down Hp Hd) as [Hp' Hd'].
      pose proof (half_step_work bd td cd ok pool down Hd Hp) as Hwk.
      destruct (half_step pool down) as [pool' down']. cbn [fst snd] in *.
      specialize (IH pool' up down' Hp' Hu Hd'). unfold join_outcome in *.
      destruct (try_join s pool' up down') as [[[p u] w] r]. rewrite !turns_cons. cbn [Bool.eqb].
      destruct IH as (? & ? & ? & ? & Hok & Hend). do 4 (split; [assumption|]). split.
      * intros Ht Hwu Hwd. apply Hok; [done|lia|lia].
      * intros Hwu Hwd. apply Hend; lia.
Qed.
End join.

(** ** The whole relay *)

(** What a relay of [total_up] towards the destination and of [total_down]
    towards the client leaves behind. *)
Definition relay_outcome (traffic : Counters) (client upstream : Writer) (up payload down response : list Z)
    (out : RelayOutcome) : Prop :=
  pool_ok (out_pool out) ∧
  ∃ w, out_upstream out = Some w ∧
  written w `prefix_of` written upstream ++ payload ++ up ∧
  written (out_client out) `prefix_of` written client ++ response ++ down ∧
  (out_result out = Some (Ok tt) →
     written w = written upstream ++ payload ++ up ∧ closed w = true ∧
     written (out_client out) = written client ++ response ++ down ∧ closed (out_client out) = true ∧
     wrap 64 (uploaded (out_counters out)) = wrap 64 (uploaded traffic + len (payload ++ up)) ∧
     wrap 64 (downloaded (out_counters out)) = wrap 64 (downloaded traffic + len down)).

Lemma half_inv_prefix base total count0 ok h :
  half_inv base total count0 ok h → written (half_writer h) `prefix_of` base ++ total.
Proof.
  destruct h as [r w n|c|w n res]; cbn.
  - intros (-> & _). by apply prefix_app_r.
  - intros (_ & _ & _ & _ & dn & -> & <- & _). rewrite app_assoc. by apply prefix_app_r.
  - intros (_ & (dn & rest & -> & <-) & _). rewrite app_assoc. by apply prefix_app_r.
Qed.

Definition never_fails (w : Writer) : Prop := room w = None ∧ close_fails w = false.

(** What a write of a whole buffer leaves: at most the buffer more, all of it when it
    is accepted, which a writer that never fails does. *)
Lemma write_all_outcome w data w' acc :
  write_all w data = (w', acc) →
  closed w' = closed w ∧ written w' `prefix_of` written w ++ data ∧
  (acc = true → written w' = written w ++ data) ∧
  (never_fails w → acc = true ∧ never_fails w').
Proof.
  intros H. pose proof H as (Hc & _ & (n & Hn) & Hall & _)%(write_all_spec true). split_and!; [done| |done|].
  - rewrite Hn. apply prefix_app. exists (drop n data). by rewrite take_drop.
  - intros [Hr Hf]. revert H. unfold write_all, never_fails. rewrite Hr. by intros [= <- <-].
Qed.

(** Claim C1. Once the request is read and the destination connected, under any
    schedule of the two directions and with any failure of their ends, what each
    side has received is a prefix of what the other sent (after the response and
    after the request's payload): no byte of a recycled buffer and no other
    stream's data is ever delivered, and the pool keeps at most 16 full-size
    buffers.  A relay that succeeds has delivered everything, closed both sides
    and counted each byte; when no end fails it does succeed, under every schedule
    that gives each direction two more turns than it has bytes. *)
Theorem relay_tcp_stream_spec connect rng schedule pool send recv recv_broken traffic
    request rest upstream_read upstream_write response :
  pool_ok pool → closed send = false → closed upstream_write = false →
  read_request_frame recv = Ok (request, rest) →
  connect (req_destination request) = Ok (upstream_read, upstream_write) →
  encoded_response StatusOk [] rng = Ok response →
  let out := relay_tcp_stream connect rng schedule pool send recv recv_broken traffic in
  relay_outcome traffic send upstream_write (concat rest) (req_payload request)
    (concat (pending upstream_read)) response out ∧
  (never_fails send → never_fails upstream_write → recv_broken = false → broken upstream_read = false →
   (2 + length (concat rest) ≤ turns true schedule)%nat →
   (2 + length (concat (pending upstream_read)) ≤ turns false schedule)%nat →
   out_result out = Some (Ok tt)).
Proof.
  intros Hp Hcs Hcu Hreq Hconn Hresp. unfold relay_tcp_stream, prepare. rewrite Hreq, Hconn, Hresp.
  destruct (write_all send response) as [send' acc] eqn:Ew1.
  apply write_all_outcome in Ew1 as (Hcs' & Hpre1 & Hacc1 & Hrel1).
  destruct acc; cbn [negb]; [|split; [|by intros [? _]%Hrel1]].
  2: { split; [done|]. exists upstream_write. cbn. split_and!; [done|by apply prefix_app_r| |done].
       rewrite app_assoc. by apply prefix_app_r. }
  destruct (write_all upstream_write (req_payload request)) as [uw' acc] eqn:Ew2.
  apply write_all_outcome in Ew2 as (Hcu' & Hpre2 & Hacc2 & Hrel2).
  destruct acc; cbn [negb]; [|split; [|by intros _ [? _]%Hrel2]].
  2: { split; [done|]. exists uw'. cbn. split_and!; [done|rewrite app_assoc; by apply prefix_app_r| |done].
       rewrite app_assoc. by apply prefix_app_r. }
  specialize (Hacc1 eq_refl). specialize (Hacc2 eq_refl).
  set (up := Waiting _ uw' _). set (down := Waiting upstream_read send' _).
  set (count0 := wrap 64 (uploaded traffic + len (req_payload request))) in *.
  assert (Hspec : ∀ ok, (ok = true → never_fails send' ∧ never_fails uw' ∧ recv_broken = false ∧
                                     broken upstream_read = false) →
    join_outcome (written uw') (concat rest) count0 (written send') (concat (pending upstream_read))
      (downloaded traffic) ok schedule up down (try_join schedule pool up down)).
  { intros ok Hok. apply try_join_spec; [done| |]; cbn; unfold reliable_reader, reliable_writer; cbn;
      (split_and!; [done..|congruence| |]); intros Ht; by apply Hok in Ht as (? & ? & ? & ?). }
  destruct (try_join schedule pool up down) as [[[pool' up'] down'] r] eqn:Ej. split.
  - specialize (Hspec false ltac:(done)) as (Hp' & Hu & Hd & Hr & _). split; [done|].
    exists (half_writer up'). cbn [out_upstream out_client out_result out_counters uploaded downloaded].
    pose proof (half_inv_prefix _ _ _ _ _ Hu) as H1. pose proof (half_inv_prefix _ _ _ _ _ Hd) as H2.
    rewrite Hacc2, <- app_assoc in H1. rewrite Hacc1, <- app_assoc in H2. split_and!; [done..|].
    intros Hres. destruct r as [[[]|]|]; try done.
    destruct (Hr eq_refl) as [(w1 & n1 & ->) (w2 & n2 & ->)].
    destruct Hu as (_ & _ & Hu), Hd as (_ & _ & Hd).
    destruct (Hu eq_refl) as (? & Hw1 & Hn1), (Hd eq_refl) as (? & Hw2 & Hn2). cbn.
    rewrite Hw1, Hw2, Hacc1, Hacc2, <- !app_assoc, Hn1, Hn2. split_and!; try done.
    unfold count0, wrap. rewrite Zplus_mod_idemp_l, len_app. f_equal. lia.
  - intros Hs Hu Hb1 Hb2 Hf1 Hf2.
    destruct (Hrel1 Hs) as [_ Hs'], (Hrel2 Hu) as [_ Hu'].
    specialize (Hspec true ltac:(done)) as (_ & _ & _ & _ & Hok & _). cbn [out_result].
    by rewrite (Hok eq_refl Hf1 Hf2).
Qed.

(** A destination that greets and closes, and a client that sends five bytes. *)
Definition example_recv : Stream := [[68]; [1; 3; 97; 58]; [49; 2; 9]; [9; 7]; [8; 8]; [6; 6]].
Definition example_writer : Writer := {| written := []; room := None; closed := false; close_fails := false |}.
Definition example_reader : Reader := {| pending := [[104; 105]]; broken := false |}.
Definition example_rng : list Z := 0 :: 0 :: replicate 128 5.
Definition example_schedule : list bool :=
  [true; false; true; true; false; false; true; true; false; true; true; false; true; false; false].
Definition example_response : list Z := 0 :: 0 :: 64 :: 128 :: replicate 128 102.

Lemma relay_tcp_stream_spec_witness :
  let out := relay_tcp_stream (fun _ => Ok (example_reader, example_writer)) example_rng example_schedule
               [replicate RELAY_BUFFER_SIZE 255] example_writer example_recv false
               {| uploaded := 10; downloaded := 0 |} in
  relay_outcome {| uploaded := 10; downloaded := 0 |} example_writer example_writer
    [8; 8; 6; 6] [7] [104; 105] example_response out ∧
  out_result out = Some (Ok tt).
Proof.
  set (r := {| req_destination := lit "a:1"; req_payload := [7] |}).
  pose proof (relay_tcp_stream_spec (fun _ => Ok (example_reader, example_writer)) example_rng example_schedule
    [replicate RELAY_BUFFER_SIZE 255] example_writer example_recv false
    {| uploaded := 10; downloaded := 0 |} r [[8; 8]; [6; 6]] example_reader example_writer example_response) as H.
  destruct H as [H1 H2].
  - split; [apply Nat.leb_le; by vm_compute|]. constructor; [apply length_replicate|constructor].
  - done.
  - done.
  - by vm_compute.
  - done.
  - by vm_compute.
  - split; [exact H1|]. apply H2; try done; by apply Nat.leb_le; vm_compute.
Defined.
