(* ===== verification/UdpSessions.v ===== *)
(** * UDP sessions of a connection ([serve_udp_datagrams] and [get_udp_session] of
    [src/src/server.rs])

    The loop selects between datagrams and the expirations sent by the receiving
    tasks, one per session.  A session is an [Arc]: its identity is a handle, the
    map and the task hold it, and an expiration carries a [Weak] of it.  The state
    is that of the loop and of its tasks; an event is what one of them is woken
    by, in any order. *)

From stdpp Require Import base list gmap strings.
From Stdlib Require Import ZArith Lia.
From S2P Require Import Prelude RustStr TcpCodec UdpCodec Reassembler.

Open Scope Z_scope.

(** A receiving task: the session id, the datagram size it was started with and
    the session's packet counter. *)
Record Task := { task_session : Z; maximum_datagram_size : Z; next_packet_id : Z }.

(** A packet from a destination, and the datagrams of it that the connection took: all, or
    those before the one it refused. *)
Record Reply := {
  reply_session : Z;
  reply_id : Z;
  reply_source : str;
  reply_packet : list Z;
  reply_datagrams : list (list Z);
  reply_whole : bool;
}.

Record UdpState := {
  sessions : gmap Z positive;
  tasks : gmap positive Task;
  expirations : list (Z * positive);
  reassembler : UdpReassembler;
  next_handle : positive;
  upstream_sent : list (positive * UdpMessage);
  client_sent : list Reply;
  up_bytes : Z;
  down_bytes : Z;
}.

Definition initial : UdpState := {|
  sessions := ∅; tasks := ∅; expirations := []; reassembler := ∅; next_handle := 1%positive;
  upstream_sent := []; client_sent := []; up_bytes := 0; down_bytes := 0 |}.

Inductive UdpEvent :=
(** A datagram at an instant; whether a socket could be opened if one was needed,
    the connection's datagram size, and whether the packet could be sent. *)
| Datagram (bytes : list Z) (now : Z) (opened : bool) (size : option Z) (sent : bool)
(** The expiration channel yields its first message. *)
| Expired
(** The task of a session received a packet; [accepted] is how many datagrams
    the connection takes before it refuses one. *)
| Received (h : positive) (source : str) (packet : list Z) (accepted : option nat)
(** The task's socket failed or timed out. *)
| SocketFailed (h : positive).

Inductive UdpError := BadDatagram (e : UdpCodecError) | BadFragments (e : UdpCodecError)
                    | OpenFailed | SendFailed.

(** [Weak::upgrade]: a session lives as long as the map or its task holds it. *)
Definition upgrade (st : UdpState) (h : positive) : option positive :=
  if bool_decide (is_Some (tasks st !! h)) || bool_decide (h ∈ (map_to_list (sessions st)).*2)
  then Some h else None.

(** [get_udp_session]. *)
Definition get_udp_session (st : UdpState) (sid : Z) (opened : bool) (size : option Z)
    : result UdpError (positive * UdpState) :=
  match sessions st !! sid with
  | Some h => Ok (h, st)
  | None =>
      if opened then
        let h := next_handle st in
        Ok (h, {| sessions := <[sid := h]> (sessions st);
                  tasks := <[h := {| task_session := sid; maximum_datagram_size := default 1200 size;
                                     next_packet_id := 0 |}]> (tasks st);
                  expirations := expirations st; reassembler := reassembler st;
                  next_handle := Pos.succ h; upstream_sent := upstream_sent st;
                  client_sent := client_sent st; up_bytes := up_bytes st; down_bytes := down_bytes st |})
      else Err OpenFailed
  end.

Definition with_reassembler (st : UdpState) (r : UdpReassembler) : UdpState :=
  {| sessions := sessions st; tasks := tasks st; expirations := expirations st; reassembler := r;
     next_handle := next_handle st; upstream_sent := upstream_sent st; client_sent := client_sent st;
     up_bytes := up_bytes st; down_bytes := down_bytes st |}.

(** The packet is sent and counted. *)
Definition deliver (st : UdpState) (h : positive) (m : UdpMessage) : UdpState :=
  {| sessions := sessions st; tasks := tasks st; expirations := expirations st;
     reassembler := reassembler st; next_handle := next_handle st;
     upstream_sent := upstream_sent st ++ [(h, m)]; client_sent := client_sent st;
     up_bytes := wrap 64 (up_bytes st + len (payload m)); down_bytes := down_bytes st |}.

(** The body of the loop for a datagram. *)
Definition on_datagram `{HashIter} (st : UdpState) (bytes : list Z) (now : Z) (opened : bool)
    (size : option Z) (sent : bool) : UdpState * result UdpError unit :=
  match Udp.decode bytes with
  | Err e => (st, Err (BadDatagram e))
  | Ok frag =>
      let '(r, table) := push_at (reassembler st) frag now in
      let st := with_reassembler st table in
      match r with
      | Err e => (st, Err (BadFragments e))
      | Ok None => (st, Ok tt)
      | Ok (Some message) =>
          match get_udp_session st (session_id message) opened size with
          | Err e => (st, Err e)
          | Ok (h, st) => if sent then (deliver st h message, Ok tt) else (st, Err SendFailed)
          end
      end
  end.

(** The other branch of the [select!]. *)
Definition on_expired (st : UdpState) : UdpState :=
  match expirations st with
  | [] => st
  | (sid, expired) :: rest =>
      let should_remove :=
        match sessions st !! sid, upgrade st expired with
        | Some current, Some expired => Pos.eqb current expired
        | _, _ => false
        end in
      {| sessions := if should_remove then delete sid (sessions st) else sessions st;
         tasks := tasks st; expirations := rest; reassembler := reassembler st;
         next_handle := next_handle st; upstream_sent := upstream_sent st;
         client_sent := client_sent st; up_bytes := up_bytes st; down_bytes := down_bytes st |}
  end.

(** The task leaves its loop: it sends its expiration and drops its session. *)
Definition end_task (st : UdpState) (h : positive) : UdpState :=
  match tasks st !! h with
  | None => st
  | Some t =>
      {| sessions := sessions st; tasks := delete h (tasks st);
         expirations := expirations st ++ [(task_session t, h)]; reassembler := reassembler st;
         next_handle := next_handle st; upstream_sent := upstream_sent st;
         client_sent := client_sent st; up_bytes := up_bytes st; down_bytes := down_bytes st |}
  end.

(** The body of the task's loop. *)
Definition on_received (st : UdpState) (h : positive) (source : str) (packet : list Z)
    (accepted : option nat) : UdpState :=
  match tasks st !! h with
  | None => st
  | Some t =>
      let pid := next_packet_id t in
      let t := {| task_session := task_session t; maximum_datagram_size := maximum_datagram_size t;
                  next_packet_id := wrap 16 (pid + 1) |} in
      let sent replies bytes :=
        {| sessions := sessions st; tasks := <[h := t]> (tasks st); expirations := expirations st;
           reassembler := reassembler st; next_handle := next_handle st;
           upstream_sent := upstream_sent st; client_sent := client_sent st ++ replies;
           up_bytes := up_bytes st; down_bytes := wrap 64 (down_bytes st + bytes) |} in
      let reply datagrams whole :=
        {| reply_session := task_session t; reply_id := pid; reply_source := source; reply_packet := packet;
           reply_datagrams := datagrams; reply_whole := whole |} in
      match Udp.encode_fragments (task_session t) pid source packet (maximum_datagram_size t) with
      | Err _ => sent [] 0
      | Ok fragments =>
          let n := default (length fragments) accepted in
          if (length fragments <=? n)%nat then sent [reply fragments true] (len packet)
          else end_task (sent [reply (take n fragments) false] 0) h
      end
  end.

(** One event; an error ends the connection. *)
Definition udp_step `{HashIter} (st : UdpState) (e : UdpEvent) : UdpState * result UdpError unit :=
  match e with
  | Datagram bytes now opened size sent => on_datagram st bytes now opened size sent
  | Expired => (on_expired st, Ok tt)
  | Received h source packet accepted => (on_received st h source packet accepted, Ok tt)
  | SocketFailed h => (end_task st h, Ok tt)
  end.

(** [serve_udp_datagrams] over a sequence of events. *)
Fixpoint serve_udp_datagrams `{HashIter} (st : UdpState) (events : list UdpEvent)
    : UdpState * result UdpError unit :=
  match events with
  | [] => (st, Ok tt)
  | e :: events =>
      match udp_step st e with
      | (st, Err e) => (st, Err e)
      | (st, Ok _) => serve_udp_datagrams st events
      end
  end.

(** ** The invariant *)

Definition total_payload (l : list (positive * UdpMessage)) : Z :=
  foldr (fun x n => len (payload x.2) + n) 0 l.

(** The packets that were sent to the client whole. *)
Definition total_replies (l : list Reply) : Z :=
  foldr (fun r n => (if reply_whole r then len (reply_packet r) else 0) + n) 0 l.

(** What the client was sent of a packet is its encoding, or a part of it. *)
Definition reply_ok (r : Reply) : Prop :=
  ∃ size fragments,
    Udp.encode_fragments (reply_session r) (reply_id r) (reply_source r) (reply_packet r) size = Ok fragments ∧
    reply_datagrams r `prefix_of` fragments ∧ (reply_whole r = true ↔ reply_datagrams r = fragments).

Record udp_inv (st : UdpState) : Prop := {
  (** a session in the map has its task, or its expiration is on the way *)
  inv_session : ∀ sid h, sessions st !! sid = Some h →
    (h < next_handle st)%positive ∧
    ((∃ t, tasks st !! h = Some t ∧ task_session t = sid) ∨ (sid, h) ∈ expirations st);
  (** a running task has sent no expiration *)
  inv_task : ∀ h t, tasks st !! h = Some t →
    (h < next_handle st)%positive ∧ h ∉ (expirations st).*2 ∧ u16_ok (next_packet_id t);
  inv_expirations : Forall (fun x => (x.2 < next_handle st)%positive) (expirations st);
  inv_table : table_ok (reassembler st);
  inv_sent : Forall (fun x => len (payload x.2) ≤ MAX_UDP_SIZE) (upstream_sent st);
  inv_count : up_bytes st = wrap 64 (total_payload (upstream_sent st));
  inv_replies : Forall reply_ok (client_sent st);
  inv_down : down_bytes st = wrap 64 (total_replies (client_sent st));
}.

Lemma udp_inv_initial : udp_inv initial.
Proof. split; [done|done|constructor|apply table_ok_empty|constructor|done|constructor|done]. Qed.

Lemma inv_with_reassembler st r : udp_inv st → table_ok r → udp_inv (with_reassembler st r).
Proof. intros [] Hr. by split. Qed.

Lemma inv_get_session st sid opened size h st' :
  udp_inv st → get_udp_session st sid opened size = Ok (h, st') →
  udp_inv st' ∧ sessions st' !! sid = Some h.
Proof.
  intros [Hs Ht He Hr Hsent Hc Hrep Hdown]. unfold get_udp_session.
  destruct (sessions st !! sid) as [h'|] eqn:E; [by intros [= <- <-]|].
  destruct opened; [|done]. intros [= <- <-]. split; [split; cbn; try done|apply lookup_insert_eq].
  - intros sid' h [[-> <-]|[Hne H]]%lookup_insert_Some.
    + split; [lia|left]. eexists. split; [apply lookup_insert_eq|done].
    + destruct (Hs sid' h H) as [Hlt Hor]. split; [lia|]. destruct Hor as [(t & Hh & ?)|]; [left|by right].
      exists t. rewrite lookup_insert_ne by lia. done.
  - intros h t [[<- <-]|[Hne H]]%lookup_insert_Some; cbn.
    + split_and!; [lia| |done]. intros Hin. apply list_elem_of_fmap in Hin as ([s k] & Hk & Hin).
      rewrite Forall_forall in He. specialize (He _ Hin). cbn in *. subst. lia.
    + destruct (Ht h t H) as (? & ? & ?). split_and!; [lia|done|done].
  - eapply Forall_impl; [exact He|]. intros [s h]. cbn. lia.
Qed.

Lemma total_payload_snoc l h m : total_payload (l ++ [(h, m)]) = total_payload l + len (payload m).
Proof. unfold total_payload. induction l as [|x l IH]; cbn [app foldr snd]; [lia|]. rewrite IH. lia. Qed.

Lemma inv_deliver st h m : udp_inv st → len (payload m) ≤ MAX_UDP_SIZE → udp_inv (deliver st h m).
Proof.
  intros [Hs Ht He Hr Hsent Hc Hrep Hdown] Hm. split; cbn; try done.
  - apply Forall_app_2; [done|]. by repeat constructor.
  - rewrite total_payload_snoc, Hc. unfold wrap. by rewrite Zplus_mod_idemp_l.
Qed.

Lemma inv_on_datagram `{HashIter} st bytes now opened size sent :
  udp_inv st → is_bytes bytes → udp_inv (on_datagram st bytes now opened size sent).1.
Proof.
  intros Hi Hb. unfold on_datagram. destruct (Udp.decode bytes) as [frag|] eqn:Ed; [|done].
  apply udp_decode_sound in Ed as (_ & _ & Hf & Hc & _ & _ & Hlen & _); [|done].
  destruct (push_at_ok (reassembler st) frag now (inv_table _ Hi) (conj Hf Hc)) as (Htab & Hout & _).
  destruct (push_at (reassembler st) frag now) as [r table]. cbn [fst snd] in *.
  pose proof (inv_with_reassembler st table Hi Htab) as Hi'.
  destruct r as [[m|]|]; [|done|done].
  destruct (get_udp_session _ _ opened size) as [[h st']|] eqn:Eg; [|done].
  destruct (inv_get_session _ _ _ _ _ _ Hi' Eg) as [Hi'' _].
  destruct sent; cbn [fst]; [|done]. apply inv_deliver; [done|].
  destruct Hout as [[_ ->]|(_ & _ & _ & _ & _ & ?)]; done.
Qed.

Lemma inv_on_expired st : udp_inv st → udp_inv (on_expired st).
Proof.
  intros [Hs Ht He Hr Hsent Hc Hrep Hdown]. unfold on_expired.
  destruct (expirations st) as [|[sid x] rest] eqn:E; [by split; rewrite ?E|].
  split; cbn; try done; rewrite ?E in *.
  - intros sid' h Hlook.
    assert (Hold : sessions st !! sid' = Some h).
    { revert Hlook. case_match; [|done]. by intros [_ ?]%lookup_delete_Some. }
    destruct (Hs sid' h Hold) as [Hlt [Htask|Hin]]; [by split; [|left]|]. split; [done|right].
    apply elem_of_cons in Hin as [[= -> ->]|Hin]; [|done]. exfalso.
    rewrite Hold in Hlook. unfold upgrade in Hlook.
    rewrite (bool_decide_eq_true_2 (x ∈ (map_to_list (sessions st)).*2)), orb_true_r, Pos.eqb_refl in Hlook.
    + by rewrite lookup_delete_eq in Hlook.
    + apply list_elem_of_fmap. exists (sid, x). split; [done|]. by apply elem_of_map_to_list.
  - intros h t Hh. destruct (Ht h t Hh) as (? & Hn & ?). split_and!; [done| |done]. cbn in Hn. set_solver.
  - by inversion He.
Qed.

Lemma inv_end_task st h : udp_inv st → udp_inv (end_task st h).
Proof.
  intros [Hs Ht He Hr Hsent Hc Hrep Hdown]. unfold end_task. destruct (tasks st !! h) as [t|] eqn:E; [|by split].
  destruct (Ht h t E) as (Hlt & Hn & _). split; cbn; try done.
  - intros sid h' Hlook. destruct (Hs sid h' Hlook) as [Hlt' [(t' & Ht' & Hsid)|Hin]]; (split; [done|]).
    + destruct (decide (h' = h)) as [->|Hne]; [right|left].
      * simplify_eq. apply elem_of_app. right. by apply list_elem_of_singleton.
      * exists t'. by rewrite lookup_delete_ne.
    + right. apply elem_of_app. by left.
  - intros h' t' [Hne Hh]%lookup_delete_Some. destruct (Ht h' t' Hh) as (? & ? & ?). split_and!; [done| |done].
    rewrite fmap_app. cbn. set_solver.
  - apply Forall_app_2; [done|]. by repeat constructor.
Qed.

Lemma total_replies_snoc l r : total_replies (l ++ [r]) = total_replies l + if reply_whole r then len (reply_packet r) else 0.
Proof. unfold total_replies. induction l as [|x l IH]; cbn [app foldr]; [lia|]. rewrite IH. lia. Qed.

(** Replacing the entry of a running task by one of the same session, with what it has
    sent and counted. *)
Lemma inv_task_update st h t t' l n :
  udp_inv st → tasks st !! h = Some t → task_session t' = task_session t → u16_ok (next_packet_id t') →
  Forall reply_ok l → n = wrap 64 (total_replies l) →
  udp_inv {| sessions := sessions st; tasks := <[h := t']> (tasks st); expirations := expirations st;
             reassembler := reassembler st; next_handle := next_handle st;
             upstream_sent := upstream_sent st; client_sent := l; up_bytes := up_bytes st; down_bytes := n |}.
Proof.
  intros [Hs Ht He Hr Hsent Hc Hrep Hdown] E Hsid Hpid Hl Hn'. destruct (Ht h t E) as (Hlt & Hn & _). split; cbn; try done.
  - intros sid h' Hlook. destruct (Hs sid h' Hlook) as [? [(u & Hu & Hus)|?]]; (split; [done|]); [left|by right].
    destruct (decide (h' = h)) as [->|Hne].
    + exists t'. rewrite lookup_insert_eq. split; [done|]. congruence.
    + exists u. by rewrite lookup_insert_ne.
  - intros h' u [[<- <-]|[Hne Hu]]%lookup_insert_Some; [done|]. by apply Ht.
Qed.

(** What is counted for the client is a packet whose datagrams were all accepted. *)
Lemma inv_reply st r :
  udp_inv st → reply_ok r →
  Forall reply_ok (client_sent st ++ [r]) ∧
  wrap 64 (down_bytes st + (if reply_whole r then len (reply_packet r) else 0)) = wrap 64 (total_replies (client_sent st ++ [r])).
Proof.
  intros Hi Hr. split; [apply Forall_app_2; [apply Hi|by repeat constructor]|].
  rewrite total_replies_snoc, (inv_down st Hi). unfold wrap. by rewrite Zplus_mod_idemp_l.
Qed.

Lemma inv_on_received st h source packet accepted :
  udp_inv st → udp_inv (on_received st h source packet accepted).
Proof.
  intros Hi. unfold on_received. destruct (tasks st !! h) as [t|] eqn:E; [|done].
  assert (Hw : u16_ok (wrap 16 (next_packet_id t + 1))) by (by apply wrap_in_width). cbn [task_session maximum_datagram_size].
  destruct (Udp.encode_fragments _ _ _ _ _) as [fragments|e] eqn:Ee.
  - destruct (Nat.leb_spec (length fragments) (default (length fragments) accepted)).
    + edestruct (inv_reply st) as [H1 H2]; [done| |by eapply inv_task_update; try done; exact H2].
      exists (maximum_datagram_size t), fragments. by cbn.
    + apply inv_end_task. edestruct (inv_reply st) as [H1 H2]; [done| |by eapply inv_task_update; try done; exact H2].
      exists (maximum_datagram_size t), fragments. cbn. split_and!; [done|by apply prefix_take|]. split; [done|].
      intros Hl. apply (f_equal length) in Hl. rewrite length_take in Hl. lia.
  - eapply inv_task_update; try done; [by rewrite app_nil_r; apply Hi|].
    rewrite app_nil_r, (inv_down st Hi). unfold wrap. by rewrite Z.add_0_r, Z.mod_mod.
Qed.

Lemma udp_step_inv `{HashIter} st e :
  udp_inv st → (∀ b now o sz s, e = Datagram b now o sz s → is_bytes b) → udp_inv (udp_step st e).1.
Proof.
  intros Hi He. destruct e; cbn [udp_step fst].
  - apply inv_on_datagram; [done|]. by eapply He.
  - by apply inv_on_expired.
  - by apply inv_on_received.
  - by apply inv_end_task.
Qed.

Definition event_ok (e : UdpEvent) : Prop :=
  match e with Datagram b _ _ _ _ => is_bytes b | _ => True end.

Lemma serve_inv `{HashIter} events st :
  udp_inv st → Forall event_ok events → udp_inv (serve_udp_datagrams st events).1.
Proof.
  intros Hi Hev. revert st Hi. induction Hev as [|e events He Hev IH]; intros st Hi; [done|].
  cbn [serve_udp_datagrams]. assert (Hi' : udp_inv (udp_step st e).1).
  { apply udp_step_inv; [done|]. by intros ? ? ? ? ? ->. }
  destruct (udp_step st e) as [st' [u|]]; cbn [fst] in *; [|done]. by apply IH.
Qed.

(** Claim C12. Whatever the datagrams, packets, failures and timeouts of a
    connection and their order: a session whose task runs is never removed by an
    expiration, also when an older session of the same number expired late; a
    session whose task has ended is removed once its expiration is handled, so
    none is left when no task runs and no expiration is queued; every packet sent
    to a destination fits in 4096 bytes, and the upload counter is their total. *)
Theorem udp_sessions_spec `{HashIter} events :
  Forall event_ok events →
  let st := (serve_udp_datagrams initial events).1 in
  (∀ sid h t, sessions st !! sid = Some h → tasks st !! h = Some t →
              sessions (on_expired st) !! sid = Some h) ∧
  (tasks st = ∅ → expirations st = [] → sessions st = ∅) ∧
  (∀ sid h t, sessions st !! sid = Some h → tasks st !! h = Some t → task_session t = sid) ∧
  Forall (fun x => len (payload x.2) ≤ MAX_UDP_SIZE) (upstream_sent st) ∧
  up_bytes st = wrap 64 (total_payload (upstream_sent st)).
Proof.
  intros Hev st. pose proof (serve_inv events initial udp_inv_initial Hev) as Hi. fold st in Hi. clearbody st.
  destruct Hi as [Hs Ht He Hr Hsent Hc Hrep Hdown]. split_and!; try done.
  - intros sid h t Hh Htask. unfold on_expired.
    destruct (expirations st) as [|[sid' x] rest] eqn:E; [done|]. cbn.
    destruct (Ht h t Htask) as (_ & Hn & _). cbn in Hn.
    destruct (decide (sid = sid')) as [->|Hne].
    + rewrite Hh. destruct (upgrade st x) as [y|] eqn:Eu; [|done].
      assert (y = x) as -> by (unfold upgrade in Eu; case_match; congruence).
      rewrite (proj2 (Pos.eqb_neq h x)) by set_solver. done.
    + case_match; [by rewrite lookup_delete_ne|done].
  - intros Htk Hex. apply map_eq. intros sid. rewrite lookup_empty.
    destruct (sessions st !! sid) as [h|] eqn:E; [|done].
    destruct (Hs sid h E) as [_ [(t & Ht' & _)|Hin]].
    + by rewrite Htk, lookup_empty in Ht'.
    + rewrite Hex in Hin. by apply not_elem_of_nil in Hin.
  - intros sid h t Hh Htask. destruct (Hs sid h Hh) as [_ [(t' & Ht' & Hsid)|Hin]]; [congruence|].
    destruct (Ht h t Htask) as (_ & Hn & _). exfalso. apply Hn.
    apply list_elem_of_fmap. by exists (sid, h).
Qed.

(** A session opened, answered, timed out, opened again by a later packet. *)
Definition example_datagram : list Z := [0; 0; 0; 7; 0; 42; 0; 1; 3; 97; 58; 49; 9].
Definition example_events : list UdpEvent :=
  [Datagram example_datagram 0 true None true; Received 1 (lit "1.1.1.1:53") [1; 2] None; SocketFailed 1;
   Expired; Datagram example_datagram 5 true (Some 1400) true].

Lemma udp_sessions_spec_witness :
  let st := (@serve_udp_datagrams hash_iter_sorted initial example_events).1 in
  sessions st = {[7 := 2%positive]} ∧ length (upstream_sent st) = 2%nat ∧
  ((∀ sid h t, sessions st !! sid = Some h → tasks st !! h = Some t →
              sessions (on_expired st) !! sid = Some h) ∧
  (tasks st = ∅ → expirations st = [] → sessions st = ∅) ∧
  (∀ sid h t, sessions st !! sid = Some h → tasks st !! h = Some t → task_session t = sid) ∧
  Forall (fun x => len (payload x.2) ≤ MAX_UDP_SIZE) (upstream_sent st) ∧
  up_bytes st = wrap 64 (total_payload (upstream_sent st))).
Proof.
  intros st. split; [by vm_compute|]. split; [by vm_compute|].
  apply (@udp_sessions_spec hash_iter_sorted example_events).
  repeat constructor; vm_compute; congruence.
Defined.
