(* ===== verification/AcceptLoop.v ===== *)
(** * The server's accept loop ([run_until_with_traffic] of [src/src/server.rs])

    One loop takes QUIC and TCP connections.  A QUIC connection's congestion controller
    is built by the QUIC library, out of the loop's hands: the factory queues the
    controller's rate cell, and the loop gives the next queued cell to the task of the
    connection it has just accepted, which sets it to the rate it negotiates.

    The events are those of the endpoint and the listener, of the library building a
    controller, and of a task.  Connections are known by numbers. *)

From stdpp Require Import base list gmap strings.
From Stdlib Require Import ZArith Lia.
From S2P Require Import Prelude RustStr Brutal.

Open Scope Z_scope.

(** Where the loop waits: for a connection; for the rate cell of one it accepted,
    whose handshake may have ended meanwhile; nowhere. *)
Inductive LoopPhase := Listening | Pairing (conn : nat) (connected : bool) | Closed.

Record Accepting := {
  factory : Hy2CongestionConfig;
  loop : LoopPhase;
  controllers : list (nat * positive);
  tasks : list (nat * positive);
  tcp_tasks : nat;
  agreed : list (nat * Z);
}.

Definition accepting_init (limit : Z) : Accepting :=
  {| factory := congestion_new limit; loop := Listening; controllers := []; tasks := []; tcp_tasks := 0; agreed := [] |}.

Definition set_cell (loc : positive) (rate : Z) (f : Hy2CongestionConfig) : Hy2CongestionConfig :=
  {| server_limit_bps := server_limit_bps f; pending_rates := pending_rates f; cells := <[loc := rate]> (cells f) |}.

Definition set_loop_phase (p : LoopPhase) (s : Accepting) : Accepting :=
  {| factory := factory s; loop := p; controllers := controllers s; tasks := tasks s; tcp_tasks := tcp_tasks s;
     agreed := agreed s |}.

(** What a task's cell is, and what was agreed for a connection. *)
Definition find_conn {A} (conn : nat) (l : list (nat * A)) : option A :=
  snd <$> find_first (fun x => (x.1 =? conn)%nat) l.
Arguments find_conn : simpl never.

Inductive AcceptEvent :=
| QuicIncoming (conn : nat)
| TcpIncoming
| TcpAcceptError
| EndpointEnded
| Shutdown
| Built (conn : nat)
| HandshakeEnd
| TakeRate
| Negotiated (conn : nat) (client_receive_bps : Z).

Definition accept_step (s : Accepting) (e : AcceptEvent) : option Accepting :=
  match e, loop s with
  | QuicIncoming conn, Listening => Some (set_loop_phase (Pairing conn false) s)
  | TcpIncoming, Listening =>
      Some {| factory := factory s; loop := Listening; controllers := controllers s; tasks := tasks s;
              tcp_tasks := S (tcp_tasks s); agreed := agreed s |}
  | TcpAcceptError, Listening | EndpointEnded, Listening | Shutdown, Listening => Some (set_loop_phase Closed s)
  | HandshakeEnd, Pairing conn false => Some (set_loop_phase (Pairing conn true) s)
  | TakeRate, Pairing conn _ =>
      '(loc, f) ← take_pending_rate (factory s);
      Some {| factory := f; loop := Listening; controllers := controllers s; tasks := tasks s ++ [(conn, loc)];
              tcp_tasks := tcp_tasks s; agreed := agreed s |}
  | Built conn, _ =>
      let '(loc, f) := build (factory s) in
      Some {| factory := f; loop := loop s; controllers := controllers s ++ [(conn, loc)]; tasks := tasks s;
              tcp_tasks := tcp_tasks s; agreed := agreed s |}
  | Negotiated conn rx, _ =>
      loc ← find_conn conn (tasks s);
      let rate := negotiated_rate (server_limit_bps (factory s)) rx in
      Some {| factory := set_cell loc rate (factory s); loop := loop s; controllers := controllers s; tasks := tasks s;
              tcp_tasks := tcp_tasks s; agreed := (conn, rate) :: agreed s |}
  | _, _ => None
  end.

(** A run in which the library builds one controller for a connection, while the loop is
    at it, and none at another time. *)
Definition orderly (s : Accepting) (e : AcceptEvent) : Prop :=
  match e with
  | Built conn => ∃ b, loop s = Pairing conn b ∧ conn ∉ (controllers s).*1
  | QuicIncoming conn => conn ∉ (controllers s).*1
  | _ => True
  end.

Inductive orderly_run (s0 : Accepting) : list AcceptEvent → Accepting → Prop :=
| orderly_nil : orderly_run s0 [] s0
| orderly_snoc events s e s' :
    orderly_run s0 events s → orderly s e → accept_step s e = Some s' → orderly_run s0 (events ++ [e]) s'.

Fixpoint accept_run (s : Accepting) (events : list AcceptEvent) : option Accepting :=
  match events with
  | [] => Some s
  | e :: events => s ← accept_step s e; accept_run s events
  end.

(** ** Each connection has its own rate *)

(** The controllers are those of the tasks, and then that of the connection at hand,
    whose cell is the one queued; every cell has what was agreed for its connection. *)
Record accept_inv (s : Accepting) : Prop := {
  inv_pending : ∃ waiting, controllers s = tasks s ++ waiting ∧ pending_rates (factory s) = waiting.*2 ∧
                  (waiting = [] ∨ ∃ conn b loc, loop s = Pairing conn b ∧ waiting = [(conn, loc)]);
  inv_conns : NoDup (controllers s).*1;
  inv_locs : NoDup (controllers s).*2;
  inv_cells : ∀ conn loc, (conn, loc) ∈ controllers s →
    cells (factory s) !! loc = Some (default 0 (find_conn conn (agreed s)));
  inv_agreed : ∀ conn, conn ∉ (controllers s).*1 → find_conn conn (agreed s) = None;
  inv_new : ∀ conn b, loop s = Pairing conn b → conn ∉ (tasks s).*1;
}.

Lemma find_conn_elem {A} conn (l : list (nat * A)) x : find_conn conn l = Some x → (conn, x) ∈ l.
Proof.
  unfold find_conn. intros ([c y] & Hf & ->)%fmap_Some. apply find_first_Some in Hf as [Hin E].
  apply Nat.eqb_eq in E. cbn in E. by subst.
Qed.

Lemma find_conn_cons {A} conn c (x : A) l :
  find_conn conn ((c, x) :: l) = if decide (c = conn) then Some x else find_conn conn l.
Proof. unfold find_conn. cbn. destruct (Nat.eqb_spec c conn), (decide (c = conn)); done. Qed.

Lemma accept_init_inv limit : accept_inv (accepting_init limit).
Proof. split; cbn; try done; [exists []; by repeat split; left|constructor|constructor|set_solver]. Qed.

Lemma elem_of_fst (l : list (nat * positive)) c loc : (c, loc) ∈ l → c ∈ l.*1.
Proof. intros Hin. apply list_elem_of_fmap. by exists (c, loc). Qed.

Lemma elem_of_snd (l : list (nat * positive)) c loc : (c, loc) ∈ l → loc ∈ l.*2.
Proof. intros Hin. apply list_elem_of_fmap. by exists (c, loc). Qed.

Lemma NoDup_snd_inj (l : list (nat * positive)) c c' loc :
  NoDup l.*2 → (c, loc) ∈ l → (c', loc) ∈ l → c = c'.
Proof.
  induction l as [|[d p] l IH]; cbn; [set_solver|]. intros [Hp Hl]%NoDup_cons.
  rewrite !elem_of_cons. intros [E|Hc] [E'|Hc']; [congruence| | |by apply IH].
  - injection E as -> ->. by apply elem_of_snd in Hc'.
  - injection E' as -> ->. by apply elem_of_snd in Hc.
Qed.

Lemma NoDup_fst_inj (l : list (nat * positive)) c loc loc' :
  NoDup l.*1 → (c, loc) ∈ l → (c, loc') ∈ l → loc = loc'.
Proof.
  induction l as [|[d p] l IH]; cbn; [set_solver|]. intros [Hp Hl]%NoDup_cons.
  rewrite !elem_of_cons. intros [E|Hc] [E'|Hc']; [congruence| | |by apply IH].
  - injection E as -> ->. by apply elem_of_fst in Hc'.
  - injection E' as -> ->. by apply elem_of_fst in Hc.
Qed.

Lemma accept_phase_inv s p :
  accept_inv s → (∀ conn b, loop s = Pairing conn b → p = Pairing conn true) →
  (∀ conn b, p = Pairing conn b → conn ∉ (tasks s).*1) → accept_inv (set_loop_phase p s).
Proof.
  intros [(w & Hc & Hp & Hw) H2 H3 H4 H5 H6] Hphase Hnew. split; cbn; try done.
  exists w. split_and!; [done|done|]. destruct Hw as [->|(conn & b & loc & E & ->)]; [by left|right].
  exists conn, true, loc. split; [by apply (Hphase conn b)|done].
Qed.

Lemma built_inv s conn s' :
  accept_inv s → orderly s (Built conn) → accept_step s (Built conn) = Some s' → accept_inv s'.
Proof.
  intros [(w & Hc & Hp & Hw) H2 H3 H4 H5 H6] (b & Hl & Hnew) Hstep. cbn in Hstep. rewrite Hl in Hstep.
  injection Hstep as <-. set (loc := fresh (dom (cells (factory s)))).
  assert (Hfresh : loc ∉ dom (cells (factory s))) by apply is_fresh.
  assert (Hloc : loc ∉ (controllers s).*2).
  { intros ([c l] & -> & Hin)%list_elem_of_fmap. apply Hfresh, elem_of_dom. cbn. rewrite (H4 c l Hin). by eexists. }
  assert (w = []) as ->.
  { destruct Hw as [->|(conn' & b' & loc' & E & ->)]; [done|]. exfalso. rewrite Hl in E. injection E as <- <-.
    apply Hnew. rewrite Hc, fmap_app. set_solver. }
  rewrite app_nil_r in Hc. split; cbn.
  - exists [(conn, loc)]. rewrite Hc, Hp. split_and!; [done|done|]. right. by exists conn, b, loc.
  - rewrite fmap_app. apply NoDup_app. split_and!; [done|set_solver|]. apply NoDup_singleton.
  - rewrite fmap_app. apply NoDup_app. split_and!; [done|set_solver|]. apply NoDup_singleton.
  - intros c l [Hin|E%list_elem_of_singleton]%elem_of_app.
    + rewrite lookup_insert_ne; [by apply H4|]. intros <-. by apply Hloc, (elem_of_snd _ c).
    + injection E as -> ->. rewrite lookup_insert_eq.
      by rewrite H5.
  - intros c Hc'. apply H5. rewrite fmap_app in Hc'. set_solver.
  - intros c b' [= <- <-]. by rewrite Hc in Hnew.
Qed.

Lemma taken_inv s s' : accept_inv s → accept_step s TakeRate = Some s' → accept_inv s'.
Proof.
  intros [(w & Hc & Hp & Hw) H2 H3 H4 H5 H6] Hstep. cbn in Hstep. destruct (loop s) as [|conn b|] eqn:Hl; try done.
  unfold take_pending_rate in Hstep. destruct (pending_rates (factory s)) as [|loc rest] eqn:Epend; [done|].
  injection Hstep as <-. destruct Hw as [->|(conn' & b' & loc' & [= <- <-] & ->)]; [done|]. injection Hp as -> ->.
  split; cbn; try done. exists []. rewrite app_nil_r. by repeat split; [|left].
Qed.

Lemma negotiated_inv s conn rx s' : accept_inv s → accept_step s (Negotiated conn rx) = Some s' → accept_inv s'.
Proof.
  intros [(w & Hc & Hp & Hw) H2 H3 H4 H5 H6] Hstep. cbn in Hstep.
  assert (Hs : ∃ loc, find_conn conn (tasks s) = Some loc ∧
    s' = {| factory := set_cell loc (negotiated_rate (server_limit_bps (factory s)) rx) (factory s); loop := loop s;
            controllers := controllers s; tasks := tasks s; tcp_tasks := tcp_tasks s;
            agreed := (conn, negotiated_rate (server_limit_bps (factory s)) rx) :: agreed s |}).
  { destruct (find_conn conn (tasks s)) as [loc|]; [|by destruct (loop s)]. exists loc. by destruct (loop s); injection Hstep as <-. }
  destruct Hs as (loc & Hf%find_conn_elem & ->).
  assert (Hin : (conn, loc) ∈ controllers s) by (rewrite Hc; set_solver).
  split; cbn; try done.
  - by exists w.
  - intros c l Hl. rewrite find_conn_cons. destruct (decide (conn = c)) as [<-|Hne].
    + rewrite (NoDup_fst_inj (controllers s) conn l loc) by done.
      by rewrite lookup_insert_eq.
    + rewrite lookup_insert_ne; [by apply H4|]. intros <-. by apply Hne, (NoDup_snd_inj (controllers s) conn c loc).
  - intros c Hc'. rewrite find_conn_cons. destruct (decide (conn = c)) as [<-|]; [|by apply H5].
    destruct Hc'. by apply (elem_of_fst _ _ loc).
Qed.

Lemma quic_inv s conn s' :
  accept_inv s → orderly s (QuicIncoming conn) → accept_step s (QuicIncoming conn) = Some s' → accept_inv s'.
Proof.
  intros Hinv Hnew Hstep. cbn in Hstep, Hnew. destruct (loop s) eqn:Hl; try done. injection Hstep as <-.
  apply accept_phase_inv; [done|by rewrite Hl|]. intros c b [= <- <-] Hin. apply Hnew.
  destruct (inv_pending _ Hinv) as (w & -> & _). rewrite fmap_app. set_solver.
Qed.

Lemma accept_step_inv s e s' : accept_inv s → orderly s e → accept_step s e = Some s' → accept_inv s'.
Proof.
  intros Hinv Ho Hstep. destruct e as [conn| | | | |conn| | |conn rx].
  1: by apply (quic_inv s conn). 5: by apply (built_inv s conn). 6: by apply (taken_inv s). 6: by apply (negotiated_inv s conn rx).
  - cbn in Hstep. destruct (loop s) eqn:Hl; try done. injection Hstep as <-. destruct Hinv as [H1 H2 H3 H4 H5 H6].
    split; cbn; try done. destruct H1 as (w & ? & ? & [->|(c & b & l & E & _)]); [exists []; by repeat split; [| |left]|].
    by rewrite Hl in E.
  - cbn in Hstep. destruct (loop s) eqn:Hl; try done. injection Hstep as <-. by apply accept_phase_inv; [|rewrite Hl|].
  - cbn in Hstep. destruct (loop s) eqn:Hl; try done. injection Hstep as <-. by apply accept_phase_inv; [|rewrite Hl|].
  - cbn in Hstep. destruct (loop s) eqn:Hl; try done. injection Hstep as <-. by apply accept_phase_inv; [|rewrite Hl|].
  - cbn in Hstep. destruct (loop s) as [|c []|] eqn:Hl; try done. injection Hstep as <-.
    apply accept_phase_inv; [done| |].
    + intros c' b'. rewrite Hl. by intros [= <- <-].
    + intros c' b' [= <- <-]. by apply (inv_new _ Hinv c false).
Qed.

(** Claim C17. As long as the QUIC library builds one controller for each connection, while the loop is at it, every
    connection is limited by its own client: the rate cell that a connection's task
    sets is its own controller's, and every controller has the rate last negotiated
    for its connection and for no other, and none before it is authenticated. *)
Theorem connection_rates limit events s :
  orderly_run (accepting_init limit) events s →
  (∀ conn loc, find_conn conn (tasks s) = Some loc → (conn, loc) ∈ controllers s) ∧
  (∀ conn loc, (conn, loc) ∈ controllers s →
     cells (factory s) !! loc = Some (default 0 (find_conn conn (agreed s)))) ∧
  NoDup (controllers s).*2 ∧
  (∀ conn rx s', accept_step s (Negotiated conn rx) = Some s' →
     ∃ loc, (conn, loc) ∈ controllers s' ∧ cells (factory s') !! loc = Some (negotiated_rate (server_limit_bps (factory s)) rx) ∧
       ∀ conn' loc', conn' ≠ conn → (conn', loc') ∈ controllers s → cells (factory s') !! loc' = cells (factory s) !! loc').
Proof.
  intros Hrun. assert (Hinv : accept_inv s).
  { induction Hrun as [|events s e s' _ IH Ho Hstep]; [apply accept_init_inv|by apply (accept_step_inv s e)]. }
  assert (Htask : ∀ conn loc, find_conn conn (tasks s) = Some loc → (conn, loc) ∈ controllers s).
  { intros conn loc Hf%find_conn_elem. destruct (inv_pending _ Hinv) as (w & -> & _). set_solver. }
  split_and!; [done|apply Hinv|apply Hinv|].
  intros conn rx s' Hstep. pose proof (negotiated_inv s conn rx s' Hinv Hstep) as Hinv'. cbn in Hstep.
  destruct (find_conn conn (tasks s)) as [loc|] eqn:Hf; [|by destruct (loop s)].
  assert (Hs' : s' = {| factory := set_cell loc (negotiated_rate (server_limit_bps (factory s)) rx) (factory s); loop := loop s;
     controllers := controllers s; tasks := tasks s; tcp_tasks := tcp_tasks s;
     agreed := (conn, negotiated_rate (server_limit_bps (factory s)) rx) :: agreed s |})
    by (by destruct (loop s); injection Hstep as <-).
  subst s'. exists loc. cbn. split_and!; [by apply Htask|by rewrite lookup_insert_eq|].
  intros conn' loc' Hne Hin. apply lookup_insert_ne. intros <-.
  by apply Hne, (NoDup_snd_inj (controllers s) conn' conn loc (inv_locs _ Hinv) Hin), Htask.
Qed.

(** Two connections, the second one accepted before the first is authenticated. *)
Definition example_accepts : list AcceptEvent :=
  [QuicIncoming 1; Built 1; TakeRate; QuicIncoming 2; HandshakeEnd; Built 2; TakeRate; Negotiated 2 1000; Negotiated 1 70].

Definition example_accepted : Accepting := default (accepting_init 0) (accept_run (accepting_init 500) example_accepts).

(** The states after each event. *)
Definition after (n : nat) : Accepting := default (accepting_init 0) (accept_run (accepting_init 500) (take n example_accepts)).

Lemma connection_rates_witness :
  (fun x => (x.1, cells (factory example_accepted) !! x.2)) <$> controllers example_accepted
    = [(1%nat, Some 70); (2%nat, Some 500)] ∧
  NoDup (controllers example_accepted).*2.
Proof.
  split; [vm_compute; reflexivity|].
  refine (proj1 (proj2 (proj2 (connection_rates 500 example_accepts example_accepted _)))).
  change (orderly_run (accepting_init 500) ([] ++ [QuicIncoming 1] ++ [Built 1] ++ [TakeRate] ++ [QuicIncoming 2] ++
    [HandshakeEnd] ++ [Built 2] ++ [TakeRate] ++ [Negotiated 2 1000] ++ [Negotiated 1 70]) example_accepted).
  rewrite !app_assoc.
  apply (orderly_snoc _ _ (after 8)); [|exact I|vm_compute; reflexivity].
  apply (orderly_snoc _ _ (after 7)); [|exact I|vm_compute; reflexivity].
  apply (orderly_snoc _ _ (after 6)); [|exact I|vm_compute; reflexivity].
  apply (orderly_snoc _ _ (after 5)); [|exists true; split; [reflexivity|apply (bool_decide_unpack _); exact I]|vm_compute; reflexivity].
  apply (orderly_snoc _ _ (after 4)); [|exact I|vm_compute; reflexivity].
  apply (orderly_snoc _ _ (after 3)); [|apply (bool_decide_unpack _); exact I|vm_compute; reflexivity].
  apply (orderly_snoc _ _ (after 2)); [|exact I|vm_compute; reflexivity].
  apply (orderly_snoc _ _ (after 1)); [|exists false; split; [reflexivity|apply (bool_decide_unpack _); exact I]|vm_compute; reflexivity].
  apply (orderly_snoc _ _ (after 0)); [|apply (bool_decide_unpack _); exact I|vm_compute; reflexivity].
  apply orderly_nil.
Defined.

(** ** What the loop relies on *)

(** A connection whose controller is never built stops the server: the loop waits for
    its rate, and until some controller is built it takes no other connection, of
    either kind, and does not see that it should shut down. *)
Theorem accept_loop_blocked s conn b events s' :
  loop s = Pairing conn b → pending_rates (factory s) = [] →
  Forall (fun e => ∀ c, e ≠ Built c) events → accept_run s events = Some s' →
  (∃ b', loop s' = Pairing conn b') ∧ tasks s' = tasks s ∧ tcp_tasks s' = tcp_tasks s.
Proof.
  intros Hl Hp Hno Hrun. revert s b Hl Hp Hrun. induction Hno as [|e events He _ IH]; intros s b Hl Hp Hrun; cbn in Hrun.
  { injection Hrun as <-. by split_and!; [exists b| |]. }
  apply bind_Some in Hrun as (s1 & Hs1 & Hrun).
  assert (Hs : (∃ b', loop s1 = Pairing conn b') ∧ pending_rates (factory s1) = [] ∧ tasks s1 = tasks s ∧
               tcp_tasks s1 = tcp_tasks s).
  { destruct e; cbn in Hs1; rewrite Hl in Hs1; try done; [by specialize (He conn0)| | |].
    - destruct b; [done|]. injection Hs1 as <-. split_and!; try done. by exists true.
    - unfold take_pending_rate in Hs1. by rewrite Hp in Hs1.
    - apply bind_Some in Hs1 as (loc & _ & [= <-]). split_and!; try done. by exists b. }
  destruct Hs as ([b1 Hl1] & Hp1 & Ht & Htcp). rewrite <- Ht, <- Htcp. by apply (IH s1 b1).
Qed.

Definition example_blocked : list AcceptEvent := [QuicIncoming 1; HandshakeEnd].

Lemma accept_loop_blocked_witness :
  ∃ s, accept_run (accepting_init 0) example_blocked = Some s ∧
    accept_step s TcpIncoming = None ∧ accept_step s Shutdown = None ∧
    (∀ events s', Forall (fun e => ∀ c, e ≠ Built c) events → accept_run s events = Some s' → tcp_tasks s' = O).
Proof.
  exists (set_loop_phase (Pairing 1 true) (set_loop_phase (Pairing 1 false) (accepting_init 0))).
  split; [reflexivity|]. split; [reflexivity|]. split; [reflexivity|]. intros events s' Hno Hrun.
  refine (proj2 (proj2 (accept_loop_blocked _ 1 true events s' _ _ Hno Hrun))); reflexivity.
Defined.

(** A controller built at another time, as for a connection that moves to a new path,
    gives every later connection the cell of the one before it. *)
Example stray_controller :
  match accept_run (accepting_init 0) [QuicIncoming 1; Built 1; TakeRate; Built 1; QuicIncoming 2; Built 2; TakeRate;
                                       Negotiated 2 1000] with
  | Some s => (fun x => (x.1, cells (factory s) !! x.2)) <$> controllers s = [(1%nat, Some 0); (1%nat, Some 1000); (2%nat, Some 0)]
  | None => False
  end.
Proof. vm_compute. reflexivity. Qed.

(** ** The streams of a connection *)

Inductive ConnectionError := ApplicationClosed | ConnectionClosed | LocallyClosed | OtherError.

(** [serve_tcp_streams]: the streams given to relays, and how the loop ends, if it does;
    [accepts] is what the connection answers. *)
Fixpoint serve_tcp_streams {S} (accepts : list (result ConnectionError S)) : list S * option (result ConnectionError unit) :=
  match accepts with
  | [] => ([], None)
  | Ok stream :: accepts => let '(streams, r) := serve_tcp_streams accepts in (stream :: streams, r)
  | Err OtherError :: _ => ([], Some (Err OtherError))
  | Err _ :: _ => ([], Some (Ok tt))
  end.

(** [serve_connection]: with UDP both loops run, and the first error ends both. *)
Definition serve_connection (udp : bool) (tcp_end udp_end : option (result ConnectionError unit))
    : option (result ConnectionError unit) :=
  if negb udp then tcp_end
  else match tcp_end, udp_end with
       | Some (Err e), _ | _, Some (Err e) => Some (Err e)
       | Some (Ok _), Some (Ok _) => Some (Ok tt)
       | _, _ => None
       end.
