(* ===== verification/Vless.v ===== *)
(** * VLESS and SSH on the TCP port ([src/src/vless_server.rs], [src/src/tcp_server.rs])

    The TCP listener tells SSH from TLS by peeking, and the data inside TLS is a
    VLESS stream.  SHA-256 is a parameter; the decrypted stream is a [Stream], the
    outbound sockets are arguments. *)

From stdpp Require Import base list gmap strings.
From Stdlib Require Import ZArith Lia.
From S2P Require Import Prelude RustStr Net Rules Files Config Stream.

Open Scope Z_scope.

Definition VERSION : Z := 0.
Definition COMMAND_TCP : Z := 1.
Definition COMMAND_UDP : Z := 2.
Definition MAX_UDP_PACKET_SIZE : Z := U16_MAX.

(** SHA-256 of the [sha2] crate: 32 bytes. *)
Class Sha256 := {
  sha256 : list Z → list Z;
  sha256_length : ∀ m, length (sha256 m) = 32%nat;
  sha256_bytes : ∀ m, is_bytes (sha256 m);
}.

Section vless.
Context `{Sha256}.

(** [user_id]. *)
Definition user_id (username password : str) : list Z :=
  let id := take 16 (sha256 (username ++ [0] ++ password)) in
  let id := <[6%nat := Z.lor (Z.land (safe_get id 6) 15) 64]> id in
  <[8%nat := Z.lor (Z.land (safe_get id 8) 63) 128]> id.

(** [user_id_string]. *)
Definition user_id_string (username password : str) : str :=
  let id := user_id username password in
  hex (take 4 id) ++ lit "-" ++ hex (take 2 (drop 4 id)) ++ lit "-" ++ hex (take 2 (drop 6 id))
  ++ lit "-" ++ hex (take 2 (drop 8 id)) ++ lit "-" ++ hex (drop 10 id).

(** [users]: the last user wins where two have the same identifier. *)
Definition vless_users (us : list User) : gmap (list Z) str :=
  collect_map (fun u => user_id (user_name u) (user_password u)) user_name us.
End vless.

Inductive VlessError :=
| Eof
| FlowAddons
| EmptyDomain
| DomainNotUtf8
| AddressType (kind : Z)
| UnsupportedCommand (command : Z)
| UnsupportedProtocol
| InvalidUser
| PacketLength
| PacketSend.

Definition eof (e : StreamError) : VlessError := Eof.

(** [read_destination]. *)
Definition read_destination (stream : Stream) : result VlessError (str * Stream) :=
  '(port, stream) ← rmap_err eof (read_u16 stream);
  '(kind, stream) ← rmap_err eof (read_u8 stream);
  '(host, stream) ←
    (if kind =? 1 then
       '(octets, stream) ← rmap_err eof (read_exact 4 stream);
       Ok (show_ipv4 octets, stream)
     else if kind =? 2 then
       '(length, stream) ← rmap_err eof (read_u8 stream);
       if length =? 0 then Err EmptyDomain
       else
         '(domain, stream) ← rmap_err eof (read_exact (Z.to_nat length) stream);
         domain ← ok_or DomainNotUtf8 (from_utf8 domain);
         Ok (domain, stream)
     else if kind =? 3 then
       '(octets, stream) ← rmap_err eof (read_exact 16 stream);
       Ok (lit "[" ++ show_ipv6 octets ++ lit "]", stream)
     else Err (AddressType kind));
  Ok (host ++ lit ":" ++ dec port, stream).

(** What a connection becomes. *)
Inductive Served :=
| ServeTcp (username destination : str) (rest : Stream)
| ServeUdp (username destination : str) (rest : Stream).

(** [vless_server::serve], up to the relay it starts. *)
Definition vless_serve (username : str) (stream : Stream) : result VlessError Served :=
  '(addons_length, stream) ← rmap_err eof (read_u8 stream);
  if negb (addons_length =? 0) then
    _ ← rmap_err eof (read_exact (Z.to_nat addons_length) stream);
    Err FlowAddons
  else
    '(command, stream) ← rmap_err eof (read_u8 stream);
    '(destination, stream) ← read_destination stream;
    if command =? COMMAND_TCP then Ok (ServeTcp username destination stream)
    else if command =? COMMAND_UDP then Ok (ServeUdp username destination stream)
    else Err (UnsupportedCommand command).

(** [tcp_server::serve] once TLS is established, on a prefix that arrives within
    [HANDSHAKE_TIMEOUT]; one that is later ends the connection as a stream that is cut
    does, with another text of the error. *)
Definition tcp_serve (users : gmap (list Z) str) (stream : Stream) : result VlessError Served :=
  '(prefix, stream) ← rmap_err eof (read_exact 17 stream);
  if negb (safe_get prefix 0 =? 0) then Err UnsupportedProtocol
  else
    username ← ok_or InvalidUser (users !! drop 1 prefix);
    vless_serve username stream.

(** ** Telling SSH from TLS *)

(** [is_ssh_connection]: what successive peeks of four bytes show, an [Err] for a
    failed one; when the list ends the time is up. *)
Fixpoint is_ssh_connection {E} (peeks : list (result E (list Z))) : result E bool :=
  match peeks with
  | [] => Ok true
  | Err e :: _ => Err e
  | Ok prefix :: peeks =>
      if (length prefix =? 0)%nat then Ok false
      else if negb (str_eqb prefix (take (length prefix) (lit "SSH-"))) then Ok false
      else if (length prefix =? 4)%nat then Ok true
      else is_ssh_connection peeks
  end.

(** ** UDP over VLESS *)

(** The upload loop of [serve_udp]: the packets sent, and how it ends.  [send]
    says whether the n-th packet could be sent.  Every packet takes at least
    three bytes, so the bytes of the stream are fuel enough. *)
Fixpoint upload_fuel (fuel : nat) (send : nat → bool) (n : nat) (stream : Stream) : list (list Z) * VlessError :=
  match fuel with
  | O => ([], Eof)
  | S fuel =>
      match read_u16 stream with
      | Err _ => ([], Eof)
      | Ok (length, stream) =>
          if (length =? 0) || (length >? MAX_UDP_PACKET_SIZE) then ([], PacketLength)
          else
            match read_exact (Z.to_nat length) stream with
            | Err _ => ([], Eof)
            | Ok (payload, stream) =>
                if send n then
                  let '(rest, e) := upload_fuel fuel send (S n) stream in
                  (payload :: rest, e)
                else ([], PacketSend)
            end
      end
  end.

Definition upload (send : nat → bool) (stream : Stream) : list (list Z) * VlessError :=
  upload_fuel (S (length (concat stream))) send 0 stream.

(** One packet of the download loop, as written to the client. *)
Definition download_frame (payload : list Z) : list Z :=
  to_be_bytes 2 (wrap 16 (len payload)) ++ payload.

(** ** Properties *)

(** *** The identifier *)

Lemma user_id_length `{Sha256} u p : length (user_id u p) = 16%nat.
Proof. unfold user_id. rewrite !length_insert, length_take, sha256_length. done. Qed.

Lemma land_lor_bits x m b k :
  0 ≤ k → m = Z.ones k → 0 ≤ Z.lor (Z.land x m) (Z.shiftl b k) - b * 2 ^ k < 2 ^ k.
Proof.
  intros Hk ->. rewrite Z.land_ones by done. pose proof (Z.mod_pos_bound x (2 ^ k) ltac:(by apply Z.pow_pos_nonneg)).
  rewrite Z.lor_comm, lor_shiftl_add by done. lia.
Qed.

Lemma shiftr_top x k b : 0 ≤ k → 0 ≤ x - b * 2 ^ k < 2 ^ k → Z.shiftr x k = b.
Proof.
  intros Hk Hx. rewrite Z.shiftr_div_pow2 by done. symmetry.
  apply Z.div_unique with (x - b * 2 ^ k); lia.
Qed.

(** The identifier is a UUID: version 4, variant 1. *)
Lemma user_id_uuid `{Sha256} u p :
  is_bytes (user_id u p) ∧ Z.shiftr (safe_get (user_id u p) 6) 4 = 4 ∧
  Z.shiftr (safe_get (user_id u p) 8) 6 = 2.
Proof.
  set (h := take 16 (sha256 (u ++ [0] ++ p))).
  assert (Hl : length h = 16%nat) by (unfold h; rewrite length_take, sha256_length; done).
  assert (Hb : is_bytes h) by apply Forall_take, sha256_bytes.
  pose proof (land_lor_bits (safe_get h 6) 15 4 4 ltac:(lia) eq_refl) as H6.
  unfold user_id. fold h. set (h' := <[6%nat := _]> h).
  pose proof (land_lor_bits (safe_get h' 8) 63 2 6 ltac:(lia) eq_refl) as H8.
  change (Z.shiftl 4 4) with 64 in H6. change (Z.shiftl 2 6) with 128 in H8.
  change (4 * 2 ^ 4) with 64 in H6. change (2 * 2 ^ 6) with 128 in H8.
  change (2 ^ 4) with 16 in H6. change (2 ^ 6) with 64 in H8.
  split_and!.
  - apply Forall_insert; [apply Forall_insert; [done|]|]; apply u8_ok_iff; lia.
  - unfold safe_get at 1. rewrite nth_lookup, list_lookup_insert_ne by done. unfold h'.
    rewrite list_lookup_insert_eq by lia. cbn [default]. by apply (shiftr_top _ 4 4).
  - unfold safe_get at 1. rewrite nth_lookup, list_lookup_insert_eq
      by (unfold h'; rewrite length_insert; lia). cbn [default]. by apply (shiftr_top _ 6 2).
Qed.

(** *** The handshake *)

(** The request of a client: a port as its two bytes and one of three kinds of
    address. *)
Inductive VlessAddr := AddrV4 (o : list Z) | AddrDomain (d : str) | AddrV6 (o : list Z).

Definition addr_wf (a : VlessAddr) : Prop :=
  match a with
  | AddrV4 o => length o = 4%nat
  | AddrDomain d => 1 ≤ len d ≤ 255 ∧ utf8_valid d = true
  | AddrV6 o => length o = 16%nat
  end.

Definition addr_bytes (a : VlessAddr) : list Z :=
  match a with
  | AddrV4 o => 1 :: o
  | AddrDomain d => 2 :: len d :: d
  | AddrV6 o => 3 :: o
  end.

Definition show_destination (port : list Z) (a : VlessAddr) : str :=
  match a with
  | AddrV4 o => show_ipv4 o
  | AddrDomain d => d
  | AddrV6 o => lit "[" ++ show_ipv6 o ++ lit "]"
  end ++ lit ":" ++ dec (from_be_bytes port).

Definition vless_request (id : list Z) (command : Z) (port : list Z) (a : VlessAddr) : list Z :=
  VERSION :: id ++ [0; command] ++ port ++ addr_bytes a.

(** Split a hypothesis on the result of reads, innermost first. *)
Ltac read_inv :=
  repeat match goal with
  | H : (_ ≫= _) = Ok _ |- _ =>
      apply rbind_Ok in H as ([? ?] & ? & H) || apply rbind_Ok in H as (? & ? & H); cbv beta iota in H
  | H : rmap_err eof ?r = Ok _ |- _ => destruct r eqn:?; [cbn [rmap_err] in H; injection H as ->|discriminate H]
  | H : ok_or _ _ = Ok _ |- _ => apply ok_or_Ok in H
  | H : from_utf8 _ = Some _ |- _ => unfold from_utf8 in H; case_match; [injection H as ->|discriminate H]
  | H : read_exact _ _ = Ok _ |- _ => apply read_exact_Ok in H as [? ?]
  | H : read_u8 _ = Ok _ |- _ => apply read_u8_Ok in H
  | H : read_u16 _ = Ok _ |- _ => apply read_u16_Ok in H as (? & ? & ? & ->)
  | H : Ok _ = Ok _ |- _ => injection H as ? ?; subst
  end.

Lemma read_destination_complete s port a t :
  concat s = port ++ addr_bytes a ++ t → length port = 2%nat → addr_wf a →
  ∃ s', read_destination s = Ok (show_destination port a, s') ∧ concat s' = t.
Proof.
  intros Hs Hp Ha. unfold read_destination.
  destruct (read_u16_app port _ s Hs Hp) as (s1 & -> & H1). res_simpl.
  destruct a as [o|d|o]; cbn [addr_bytes app] in H1.
  - destruct (read_u8_app _ _ s1 H1) as (s2 & -> & H2). res_simpl. cbn [Z.eqb Pos.eqb].
    destruct (read_exact_app _ _ s2 H2) as (s3 & E & H3). cbn in Ha. rewrite Ha in E. rewrite E. res_simpl. eauto.
  - destruct (read_u8_app _ _ s1 H1) as (s2 & -> & H2). res_simpl. cbn [Z.eqb Pos.eqb].
    destruct (read_u8_app _ _ s2 H2) as (s3 & -> & H3). res_simpl. destruct Ha as [Hl Hv].
    rewrite (proj2 (Z.eqb_neq _ _)) by lia.
    destruct (read_exact_app _ _ s3 H3) as (s4 & E & H4). unfold len. rewrite Nat2Z.id, E. res_simpl.
    unfold from_utf8. rewrite Hv. res_simpl. eauto.
  - destruct (read_u8_app _ _ s1 H1) as (s2 & -> & H2). res_simpl. cbn [Z.eqb Pos.eqb].
    destruct (read_exact_app _ _ s2 H2) as (s3 & E & H3). cbn in Ha. rewrite Ha in E. rewrite E. res_simpl. eauto.
Qed.

Lemma read_destination_sound s d s' :
  is_bytes (concat s) → read_destination s = Ok (d, s') →
  ∃ port a, concat s = port ++ addr_bytes a ++ concat s' ∧ length port = 2%nat ∧ addr_wf a ∧
            d = show_destination port a.
Proof.
  intros Hb Hr. unfold read_destination in Hr. read_inv.
  rename x into port, l0 into s2. exists port.
  match goal with Hk : concat l = ?z :: _ |- _ => rename Hk into Hkind; set (kind := z) in * end.
  destruct (Z.eqb_spec kind 1) as [->|_]; [|destruct (Z.eqb_spec kind 2) as [->|_];
    [|destruct (Z.eqb_spec kind 3) as [->|_]; [|done]]]; read_inv.
  - eexists (AddrV4 _). split_and!; [|done..]. cbn. congruence.
  - destruct (Z.eqb_spec z 0) as [->|Hz]; [done|]. read_inv. exists (AddrDomain l1). cbn.
    assert (Hz8 : u8_ok z).
    { rewrite H, Hkind, Heqr in Hb. apply Forall_app in Hb as [_ Hb]. by inversion_clear Hb as [|? ? _ Hb'];
        inversion_clear Hb'. }
    rewrite u8_ok_iff in Hz8. assert (Hlen : len l1 = z) by (unfold len; lia).
    split_and!; [|done|lia|lia|done|done]. rewrite H, Hkind, Heqr, Hlen. cbn. congruence.
  - eexists (AddrV6 _). split_and!; [|done..]. cbn. congruence.
Qed.

Definition served (command : Z) (name dest : str) (rest : Stream) (r : Served) : Prop :=
  command = COMMAND_TCP ∧ r = ServeTcp name dest rest ∨ command = COMMAND_UDP ∧ r = ServeUdp name dest rest.

Lemma tcp_serve_complete users s id command port a name t :
  concat s = vless_request id command port a ++ t → length id = 16%nat → users !! id = Some name →
  length port = 2%nat → addr_wf a → command = COMMAND_TCP ∨ command = COMMAND_UDP →
  ∃ r rest, tcp_serve users s = Ok r ∧ served command name (show_destination port a) rest r ∧ concat rest = t.
Proof.
  intros Hs Hid Hu Hp Ha Hc. unfold vless_request in Hs. cbn [app] in Hs. rewrite <- !app_assoc in Hs. cbn [app] in Hs.
  unfold tcp_serve. destruct (read_exact_app (VERSION :: id) _ s Hs) as (s1 & E & H1).
  cbn [length] in E. rewrite Hid in E. rewrite E. res_simpl. cbn [safe_get nth Z.eqb negb VERSION drop].
  rewrite drop_0, Hu. res_simpl. unfold vless_serve.
  destruct (read_u8_app _ _ s1 H1) as (s2 & -> & H2). res_simpl. cbn [Z.eqb negb].
  destruct (read_u8_app _ _ s2 H2) as (s3 & -> & H3). res_simpl. rewrite <- app_assoc in H3.
  destruct (read_destination_complete s3 port a t H3 Hp Ha) as (s4 & -> & H4). res_simpl.
  exists (if command =? COMMAND_TCP then ServeTcp name (show_destination port a) s4
          else ServeUdp name (show_destination port a) s4), s4.
  unfold served. destruct Hc as [->| ->]; naive_solver.
Qed.

Lemma tcp_serve_sound users s r :
  is_bytes (concat s) → tcp_serve users s = Ok r →
  ∃ id command port a name rest, concat s = vless_request id command port a ++ concat rest ∧
    users !! id = Some name ∧ length id = 16%nat ∧ length port = 2%nat ∧ addr_wf a ∧
    served command name (show_destination port a) rest r.
Proof.
  intros Hb H. unfold tcp_serve in H. apply rbind_Ok in H as ([prefix s1] & E & H).
  destruct (read_exact 17 s) as [[p q]|] eqn:E17; [|done]. cbn [rmap_err] in E. injection E as -> ->.
  apply read_exact_Ok in E17 as [Hs Hl]. destruct prefix as [|v id]; [done|]. injection Hl as Hl.
  cbn [safe_get nth drop] in H. rewrite drop_0 in H.
  destruct (Z.eqb_spec v 0) as [->|]; [|done]. cbn [negb] in H.
  destruct (users !! id) as [name|] eqn:Eu; [|done]. cbn [ok_or mbind result_bind] in H.
  unfold vless_serve in H. apply rbind_Ok in H as ([al s2] & E & H).
  destruct (read_u8 s1) as [[? ?]|] eqn:E8; [|done]. cbn [rmap_err] in E. injection E as -> ->.
  apply read_u8_Ok in E8. destruct (Z.eqb_spec al 0) as [->|]; cbn [negb] in H.
  2: { by apply rbind_Ok in H as (? & _ & ?). }
  apply rbind_Ok in H as ([command s3] & E & H).
  destruct (read_u8 s2) as [[? ?]|] eqn:E9; [|done]. cbn [rmap_err] in E. injection E as -> ->.
  apply read_u8_Ok in E9. apply rbind_Ok in H as ([dest s4] & E & H).
  apply read_destination_sound in E as (port & a & H3 & Hp & Ha & ->).
  2: { rewrite Hs, E8, E9 in Hb. apply Forall_app in Hb as [_ Hb]. by do 2 apply Forall_cons in Hb as [_ Hb]. }
  exists id, command, port, a, name, s4. split_and!; try done.
  - rewrite Hs, E8, E9, H3. unfold vless_request, VERSION.
    cbn [app]. rewrite <- !app_assoc. cbn [app]. by rewrite <- app_assoc.
  - destruct (Z.eqb_spec command COMMAND_TCP) as [->|]; [left; by simplify_eq|].
    destruct (Z.eqb_spec command COMMAND_UDP) as [->|]; [right; by simplify_eq|done].
Qed.

(** Claim C11. However the stream is cut, a client is served exactly when it sends
    version 0, the 16-byte identifier of a configured user, no addons, the TCP or
    the UDP command, a port and an address of a known kind; it is then served as
    the user with that identifier, towards that address and port, and the data
    after the request is left for the relay. *)
Theorem vless_handshake `{Sha256} us s :
  is_bytes (concat s) →
  (∀ r, tcp_serve (vless_users us) s = Ok r →
     ∃ id command port a name rest, concat s = vless_request id command port a ++ concat rest ∧
       vless_users us !! id = Some name ∧ length port = 2%nat ∧ addr_wf a ∧
       (∃ u, u ∈ us ∧ user_id (user_name u) (user_password u) = id ∧ user_name u = name) ∧
       served command name (show_destination port a) rest r) ∧
  (∀ u command port a t, u ∈ us → length port = 2%nat → addr_wf a →
     command = COMMAND_TCP ∨ command = COMMAND_UDP →
     concat s = vless_request (user_id (user_name u) (user_password u)) command port a ++ t →
     ∃ name r rest, vless_users us !! user_id (user_name u) (user_password u) = Some name ∧
       tcp_serve (vless_users us) s = Ok r ∧ served command name (show_destination port a) rest r ∧
       concat rest = t).
Proof.
  intros Hb. split.
  - intros r Hr. destruct (tcp_serve_sound _ _ _ Hb Hr) as (id & c & p & a & n & rest & ? & Hl & _ & ? & ? & ?).
    exists id, c, p, a, n, rest. split_and!; try done.
    by apply collect_map_Some in Hl.
  - intros u command port a t Hu Hp Ha Hc Hs.
    destruct (collect_map_total (fun u => user_id (user_name u) (user_password u)) user_name us u Hu) as [name Hn].
    destruct (tcp_serve_complete _ s _ command port a name t Hs (user_id_length _ _) Hn Hp Ha Hc)
      as (r & rest & ? & ? & ?). eauto 8.
Qed.

(** *** SSH *)

(** A connection that shows a TLS record first is never taken for SSH, and one
    that shows the SSH banner or nothing is. *)
Lemma is_ssh_spec {E} (data : list Z) (peeks : list (result E (list Z))) :
  (∀ p, p ∈ peeks → ∃ k, p = Ok (take k data) ∧ (0 < k ≤ 4)%nat) → data ≠ [] →
  match is_ssh_connection peeks with
  | Ok true => peeks ≠ [] → ∃ k, (0 < k)%nat ∧ take k data `prefix_of` lit "SSH-"
  | Ok false => ¬ take 4 data `prefix_of` lit "SSH-"
  | Err _ => False
  end.
Proof.
  intros Hp Hd. induction peeks as [|p peeks IH]; cbn [is_ssh_connection]; [done|].
  destruct (Hp p) as (k & -> & Hk); [by left|]. cbn beta iota.
  destruct (Nat.eqb_spec (length (take k data)) 0) as [H0|H0].
  { rewrite length_take in H0. destruct data; cbn in *; [done|lia]. }
  assert (Hpre : take k data `prefix_of` take 4 data).
  { exists (drop k (take 4 data)). rewrite <- (take_drop k (take 4 data)) at 1. f_equal.
    rewrite take_take. f_equal. lia. }
  destruct (str_eqb _ _) eqn:Es; cbn [negb].
  - apply str_eqb_eq in Es.
    assert (Hssh : take k data `prefix_of` lit "SSH-").
    { rewrite Es. eexists. symmetry. apply take_drop. }
    destruct (length (take k data) =? 4)%nat; [intros _; exists k; split; [lia|done]|].
    specialize (IH (fun q Hq => Hp q (list_elem_of_further _ _ _ Hq))).
    destruct (is_ssh_connection peeks) as [[]|]; try done. intros _. exists k. split; [lia|done].
  - intros Hbad. apply not_true_iff_false in Es. apply Es, str_eqb_eq.
    destruct (transitivity Hpre Hbad) as [t Ht]. by rewrite Ht, take_app_length.
Qed.

(** *** Packets *)

Definition packet_ok (p : list Z) : Prop := 1 ≤ len p ≤ MAX_UDP_PACKET_SIZE.

Lemma download_frame_length p : length (download_frame p) = (2 + length p)%nat.
Proof. unfold download_frame. by rewrite length_app, to_be_bytes_length. Qed.

Lemma upload_complete l fuel send n s :
  Forall packet_ok l → (∀ k, send k = true) → concat s = concat (download_frame <$> l) →
  (length (concat s) < fuel)%nat → upload_fuel fuel send n s = (l, Eof).
Proof.
  intros Hl Hsend. revert fuel n s. induction Hl as [|p l Hp Hl IH]; intros fuel n s Hs Hf.
  - destruct fuel as [|fuel]; [lia|]. cbn [upload_fuel]. unfold read_u16.
    pose proof (read_exact_spec 2 s) as H2. rewrite Hs in H2.
    by destruct (read_exact 2 s) as [[b s']|]; [destruct H2 as [H2 _]; cbn in H2; lia|].
  - destruct fuel as [|fuel]; [lia|]. cbn [fmap list_fmap concat] in Hs. unfold packet_ok, MAX_UDP_PACKET_SIZE, U16_MAX in Hp.
    unfold download_frame in Hs at 1. rewrite <- app_assoc in Hs. cbn [upload_fuel].
    destruct (read_u16_app _ _ s Hs (to_be_bytes_length _ _)) as (s1 & -> & H1).
    rewrite (wrap_small 16 (len p)) by (unfold in_width; change (2 ^ 16) with 65536; lia).
    rewrite from_to_be_bytes_small by (change (256 ^ Z.of_nat 2) with 65536; lia).
    rewrite (proj2 (Z.eqb_neq _ _)), Z.gtb_ltb, (proj2 (Z.ltb_ge _ _)) by (unfold MAX_UDP_PACKET_SIZE, U16_MAX; lia).
    cbn [orb]. destruct (read_exact_app _ _ s1 H1) as (s2 & E & H2). unfold len. rewrite Nat2Z.id, E, Hsend.
    rewrite IH; [done|done|]. rewrite Hs, !length_app, to_be_bytes_length in Hf. rewrite H2. lia.
Qed.

(** One packet as the upload loop reads it. *)
Lemma frame_read s l s1 p s2 :
  is_bytes (concat s) → read_u16 s = Ok (l, s1) → l ≠ 0 → l ≤ MAX_UDP_PACKET_SIZE → read_exact (Z.to_nat l) s1 = Ok (p, s2) →
  packet_ok p ∧ len p = l ∧ concat s = download_frame p ++ concat s2 ∧ is_bytes (concat s2).
Proof.
  intros Hb E16 H0 Hmax Ex. apply read_u16_Ok in E16 as (h & Hs & Hh & ->). rewrite Hs in Hb. apply Forall_app in Hb as [Hbh Hb1].
  pose proof (from_be_bytes_bound h Hbh) as Hbound. unfold len in Hbound. rewrite Hh in Hbound.
  change (256 ^ Z.of_nat 2) with 65536 in Hbound. apply read_exact_Ok in Ex as [Hs1 Hpl].
  assert (Hlen : len p = from_be_bytes h) by (unfold len; lia). rewrite Hs1 in Hb1. apply Forall_app in Hb1 as [_ Hb2].
  split_and!; [unfold packet_ok; lia|done| |done]. unfold download_frame.
  rewrite Hlen, wrap_small by (unfold in_width; change (2 ^ 16) with 65536; lia). rewrite Hs, Hs1, <- !app_assoc. f_equal.
  destruct h as [|h1 [|h2 [|]]]; try done. inversion_clear Hbh as [|? ? H1 Hbh']. inversion_clear Hbh' as [|? ? H2 _].
  rewrite u8_ok_iff in H1, H2. unfold from_be_bytes. cbn [fold_left].
  rewrite !be_push_eq by (rewrite u8_ok_iff; lia). rewrite !to_be_bytes_cons.
  change (2 ^ (8 * Z.of_nat 1)) with 256. change (2 ^ (8 * Z.of_nat 0)) with 1. cbn [to_be_bytes].
  rewrite Z.div_1_r. f_equal; [|f_equal].
  - symmetry. rewrite Z.mul_0_l, Z.add_0_l, Z.div_add_l, Z.div_small, Z.add_0_r, Z.mod_small by lia. done.
  - rewrite Z.mul_0_l, Z.add_0_l, Z.add_comm, Z.mod_add, Z.mod_small by lia. done.
Qed.

Lemma upload_sound fuel send n s :
  is_bytes (concat s) →
  let '(ps, e) := upload_fuel fuel send n s in
  Forall packet_ok ps ∧ concat (download_frame <$> ps) `prefix_of` concat s.
Proof.
  revert n s. induction fuel as [|fuel IH]; intros n s Hb; cbn [upload_fuel].
  { split; [constructor|apply prefix_nil]. }
  assert (Hnil : Forall packet_ok [] ∧ concat (download_frame <$> []) `prefix_of` concat s)
    by (split; [constructor|apply prefix_nil]).
  destruct (read_u16 s) as [[l s1]|] eqn:E16; [|done].
  destruct (Z.eqb_spec l 0) as [|H0]; [done|]. rewrite Z.gtb_ltb.
  destruct (Z.ltb_spec MAX_UDP_PACKET_SIZE l) as [|Hmax]; [done|]. cbn [orb].
  destruct (read_exact _ s1) as [[pl s2]|] eqn:Ex; [|done]. destruct (send n); [|done].
  destruct (frame_read s l s1 pl s2 Hb E16 H0 Hmax Ex) as (Hok & _ & -> & Hb2).
  specialize (IH (S n) s2 Hb2). destruct (upload_fuel fuel send (S n) s2) as [ps e]. destruct IH as [HF Ht].
  split; [by constructor|]. cbn [fmap list_fmap concat]. by apply prefix_app.
Qed.

(** Packets of 1 to 65535 bytes framed as the server frames them are
    read back by the server's upload loop, all of them, in order and wherever the
    stream is cut, up to the end of the stream; and of any other stream the loop
    sends a sequence of such packets whose frames are the start of the stream. *)
Theorem vless_udp_framing send s :
  is_bytes (concat s) →
  (∀ l, Forall packet_ok l → (∀ k, send k = true) → concat s = concat (download_frame <$> l) →
        upload send s = (l, Eof)) ∧
  Forall packet_ok (upload send s).1 ∧
  concat (download_frame <$> (upload send s).1) `prefix_of` concat s.
Proof.
  intros Hb. unfold upload. split.
  - intros l Hl Hsend Hs. apply upload_complete; try done. lia.
  - pose proof (upload_sound (S (length (concat s))) send 0 s Hb) as Hx.
    destruct (upload_fuel _ send 0 s) as [ps e]. done.
Qed.

Lemma vless_udp_framing_witness :
  upload (fun _ => true) [[0]; [2; 7]; [8; 0; 1]; [9]] = ([[7; 8]; [9]], Eof).
Proof.
  apply (vless_udp_framing (fun _ => true) [[0]; [2; 7]; [8; 0; 1]; [9]]).
  - repeat constructor; vm_compute; congruence.
  - repeat constructor; vm_compute; congruence.
  - done.
  - done.
Defined.

(** A stand-in for SHA-256, for the witness. *)
Definition example_digest (m : list Z) : list Z :=
  (fun i => (foldr Z.add 0 m + 31 * Z.of_nat i) mod 256) <$> seq 0 32.

Lemma example_digest_length m : length (example_digest m) = 32%nat.
Proof. unfold example_digest. by rewrite length_fmap, length_seq. Qed.

Lemma example_digest_bytes m : is_bytes (example_digest m).
Proof.
  apply Forall_fmap, Forall_true. intros i. apply u8_ok_iff. cbn. by apply Z.mod_pos_bound.
Qed.

Definition example_sha256 : Sha256 :=
  {| sha256 := example_digest; sha256_length := example_digest_length; sha256_bytes := example_digest_bytes |}.

Definition example_user : User := {| user_name := lit "poetry"; user_password := lit "secret" |}.

Definition example_vless : Stream :=
  [vless_request (@user_id example_sha256 (lit "poetry") (lit "secret")) COMMAND_TCP [1; 187] (AddrDomain (lit "a.b"));
   [1; 2]].

Lemma vless_handshake_witness :
  tcp_serve (@vless_users example_sha256 [example_user]) example_vless
    = Ok (ServeTcp (lit "poetry") (lit "a.b:443") [[]; [1; 2]]) ∧
  ∃ name r rest,
    @vless_users example_sha256 [example_user] !! @user_id example_sha256 (lit "poetry") (lit "secret") = Some name ∧
    tcp_serve (@vless_users example_sha256 [example_user]) example_vless = Ok r ∧
    served COMMAND_TCP name (show_destination [1; 187] (AddrDomain (lit "a.b"))) rest r ∧ concat rest = [1; 2].
Proof.
  split; [by vm_compute|].
  destruct (@vless_handshake example_sha256 [example_user] example_vless) as [_ H].
  - apply Forall_concat. repeat constructor; vm_compute; congruence.
  - apply (H example_user); [by left|done| |by left|by vm_compute].
    cbn. split; [|by vm_compute]. vm_compute. split; congruence.
Defined.
