(* ===== verification/VlessRelay.v ===== *)
(** * The VLESS data plane ([serve_tcp] and [serve_udp] of [src/src/vless_server.rs])

    What happens once the header of a VLESS stream is read: the TCP command copies both
    directions, the UDP command sends the client's packets and returns those that
    arrive.  The directions are futures joined by [try_join!]; a step is one of them
    up to its next await, and a write is accepted in pieces of any size, so that a
    direction may be dropped in the middle of one. *)

From stdpp Require Import base list strings.
From Stdlib Require Import ZArith Lia.
From S2P Require Import Prelude RustStr Stream Relay Vless.

Open Scope Z_scope.

(** ** One direction of [serve_tcp] *)

(** Where a direction waits: for a read; for the rest of a write of [count] bytes; for
    the shutdown of its writer; ended. *)
Inductive Stage :=
| Reading
| Writing (rest : list Z) (count : nat)
| Shutting
| Stopped (r : result IoError unit).

Record Direction := { buf : list Z; source : Reader; sink : Writer; counted : Z; stage : Stage }.

Definition direction (r : Reader) (w : Writer) (n : Z) : Direction :=
  {| buf := replicate RELAY_BUFFER_SIZE 0; source := r; sink := w; counted := n; stage := Reading |}.

(** A poll of a write: the writer takes at most [S k] bytes and what it has room for. *)
Definition write_some (k : nat) (w : Writer) (data : list Z) : option (Writer * list Z) :=
  let accept n rm := Some ({| written := written w ++ take n data; room := rm; closed := closed w;
                             close_fails := close_fails w |}, drop n data) in
  match room w with
  | None => accept (S k) None
  | Some O => None
  | Some r => accept (S k `min` r)%nat (Some (r - S k)%nat)
  end.

(** A step of the loop of [upload] or [download]. *)
Definition direction_step (k : nat) (c : Direction) : Direction :=
  let goto b s w n st := {| buf := b; source := s; sink := w; counted := n; stage := st |} in
  match stage c with
  | Reading =>
      match reader_read (length (buf c)) (source c) with
      | Err e => goto (buf c) (source c) (sink c) (counted c) (Stopped (Err e))
      | Ok (data, s) =>
          let count := length data in
          let b := data ++ drop count (buf c) in
          if (count =? 0)%nat then goto b s (sink c) (counted c) Shutting
          else goto b s (sink c) (counted c) (Writing (take count b) count)
      end
  | Writing rest count =>
      match write_some k (sink c) rest with
      | None => goto (buf c) (source c) (sink c) (counted c) (Stopped (Err WriteFailed))
      | Some (w, []) => goto (buf c) (source c) w (wrap 64 (counted c + Z.of_nat count)) Reading
      | Some (w, rest) => goto (buf c) (source c) w (counted c) (Writing rest count)
      end
  | Shutting => let '(w, r) := close (sink c) in goto (buf c) (source c) w (counted c) (Stopped r)
  | Stopped _ => c
  end.

(** [try_join!] of both directions: an error of one, or the end of both. *)
Definition directions_joined (up down : Direction) : option (result IoError unit) :=
  match stage up, stage down with
  | Stopped (Err e), _ => Some (Err e)
  | _, Stopped (Err e) => Some (Err e)
  | Stopped (Ok _), Stopped (Ok _) => Some (Ok tt)
  | _, _ => None
  end.

(** A schedule says which direction is polled next, [true] for [upload], and how much
    a write takes. *)
Fixpoint join_directions (schedule : list (bool * nat)) (up down : Direction)
    : Direction * Direction * option (result IoError unit) :=
  match directions_joined up down with
  | Some r => (up, down, Some r)
  | None =>
      match schedule with
      | [] => (up, down, None)
      | (true, k) :: schedule => join_directions schedule (direction_step k up) down
      | (false, k) :: schedule => join_directions schedule up (direction_step k down)
      end
  end.

(** ** [serve_tcp] *)

Inductive ServeError := ConnectFailed (message : str) | ServeIo (e : IoError).

(** What a connection leaves: the client's writer, the destination's, the counters, and
    the result, [None] while it runs. *)
Record Served_out := {
  client_out : Writer;
  upstream_out : option Writer;
  counters_out : Counters;
  result_out : option (result ServeError unit);
}.

Definition served_out (client : Writer) (upstream : option Writer) (n : Counters) (r : result ServeError unit) : Served_out :=
  {| client_out := client; upstream_out := upstream; counters_out := n; result_out := Some r |}.

Definition serve_tcp (connect : str → result str (Reader * Writer)) (schedule : list (bool * nat))
    (client_read : Reader) (client_write : Writer) (destination : str) (traffic : Counters) : Served_out :=
  match connect destination with
  | Err message => served_out client_write None traffic (Err (ConnectFailed message))
  | Ok (upstream_read, upstream_write) =>
      let '(client_write, accepted) := write_all client_write [VERSION; 0] in
      if negb accepted then served_out client_write (Some upstream_write) traffic (Err (ServeIo WriteFailed))
      else
        let up := direction client_read upstream_write (uploaded traffic) in
        let down := direction upstream_read client_write (downloaded traffic) in
        let '(up, down, r) := join_directions schedule up down in
        {| client_out := sink down; upstream_out := Some (sink up);
           counters_out := {| uploaded := counted up; downloaded := counted down |};
           result_out := rmap_err ServeIo <$> r |}
  end.

(** ** [serve_udp] *)

Inductive UdpServeError := OpenFailed | HeaderFailed | UploadFailed (e : VlessError) | DownloadFailed.

(** The client's frames still to read, and the two ends; [frame] is what is left of the
    packet of [packet_len] bytes that is being written to the client. *)
Record UdpServing := {
  frames : Stream;
  client : Writer;
  frame : list Z;
  packet_len : Z;
  sent : list (list Z);
  udp_counters : Counters;
}.

(** One packet of [upload]; [sends] says whether the socket takes it. *)
Definition upload_step (sends : bool) (s : UdpServing) : UdpServing + VlessError :=
  match read_u16 (frames s) with
  | Err _ => inr Eof
  | Ok (length, stream) =>
      if (length =? 0) || (length >? MAX_UDP_PACKET_SIZE) then inr PacketLength
      else
        match read_exact (Z.to_nat length) stream with
        | Err _ => inr Eof
        | Ok (payload, stream) =>
            if sends then
              inl {| frames := stream; client := client s; frame := frame s; packet_len := packet_len s;
                     sent := sent s ++ [payload];
                     udp_counters := {| uploaded := wrap 64 (uploaded (udp_counters s) + length);
                                        downloaded := downloaded (udp_counters s) |} |}
            else inr PacketSend
        end
  end.

(** A poll of [download]: a packet is received, [None] for a failure or the end of the
    time, or its frame is written on; the buffer holds 65535 bytes. *)
Definition download_step (received : option (list Z)) (k : nat) (s : UdpServing) : option UdpServing :=
  match frame s with
  | [] =>
      packet ← received;
      let payload := take (Z.to_nat U16_MAX) packet in
      Some {| frames := frames s; client := client s; frame := download_frame payload; packet_len := len payload;
              sent := sent s; udp_counters := udp_counters s |}
  | _ :: _ =>
      '(w, rest) ← write_some k (client s) (frame s);
      Some {| frames := frames s; client := w; frame := rest; packet_len := packet_len s; sent := sent s;
              udp_counters := if is_nil rest then {| uploaded := uploaded (udp_counters s);
                                downloaded := wrap 64 (downloaded (udp_counters s) + packet_len s) |}
                              else udp_counters s |}
  end.

Inductive UdpServeEvent := UploadTurn (sends : bool) | DownloadTurn (received : option (list Z)) (k : nat).

(** Both loops, joined; neither ends but by an error. *)
Fixpoint serve_udp_loop (events : list UdpServeEvent) (s : UdpServing) : UdpServing * option UdpServeError :=
  match events with
  | [] => (s, None)
  | UploadTurn sends :: events =>
      match upload_step sends s with
      | inl s => serve_udp_loop events s
      | inr e => (s, Some (UploadFailed e))
      end
  | DownloadTurn received k :: events =>
      match download_step received k s with
      | Some s => serve_udp_loop events s
      | None => (s, Some DownloadFailed)
      end
  end.

Definition serve_udp (opened : bool) (events : list UdpServeEvent) (stream : Stream) (client_write : Writer)
    (traffic : Counters) : UdpServing * option UdpServeError :=
  let s w := {| frames := stream; client := w; frame := []; packet_len := 0; sent := []; udp_counters := traffic |} in
  if opened then
    let '(w, accepted) := write_all client_write [VERSION; 0] in
    if accepted then serve_udp_loop events (s w) else (s w, Some HeaderFailed)
  else (s client_write, Some OpenFailed).

(** ** One direction *)

Section direction.
(** What the writer held and the count before, all the data of the reader, and
    whether neither end fails. *)
Context (base total : list Z) (count0 : Z).
Context (ok : bool).

(** [dn] is counted, [part] is delivered beyond it. *)
Record direction_inv_at (c : Direction) (dn part : list Z) : Prop := {
  di_buf : length (buf c) = RELAY_BUFFER_SIZE;
  di_sink : written (sink c) = base ++ dn ++ part;
  di_counted : wrap 64 (counted c) = wrap 64 (count0 + len dn);
  di_part : (length part ≤ RELAY_BUFFER_SIZE)%nat;
  di_reader : reliable_reader ok (source c);
  di_writer : reliable_writer ok (sink c);
  di_stage : match stage c with
             | Reading => part = [] ∧ dn ++ concat (pending (source c)) = total
             | Writing rest n => rest ≠ [] ∧ n = length (part ++ rest) ∧ (n ≤ RELAY_BUFFER_SIZE)%nat ∧
                                 dn ++ part ++ rest ++ concat (pending (source c)) = total
             | Shutting => part = [] ∧ dn = total
             | Stopped r => (ok = true → r = Ok tt) ∧ (dn ++ part) `prefix_of` total ∧
                            (r = Ok tt → closed (sink c) = true ∧ part = [] ∧ dn = total)
             end;
}.

Definition direction_inv (c : Direction) : Prop := ∃ dn part, direction_inv_at c dn part.

Lemma write_some_spec k w data :
  data ≠ [] →
  match write_some k w data with
  | Some (w', rest) => ∃ a, data = a ++ rest ∧ a ≠ [] ∧ written w' = written w ++ a ∧ closed w' = closed w ∧
                            (reliable_writer ok w → reliable_writer ok w')
  | None => reliable_writer ok w → ok = false
  end.
Proof.
  intros Hd. unfold write_some, reliable_writer. destruct (room w) as [[|r]|] eqn:Er.
  - intros Hw. destruct ok; [|done]. by destruct (Hw eq_refl).
  - exists (take (S k `min` S r) data). rewrite take_drop. destruct data as [|x data]; [done|].
    do 4 (split; [done|]). intros Hw Hok. by destruct (Hw Hok).
  - exists (take (S k) data). rewrite take_drop. destruct data as [|x data]; [done|].
    do 4 (split; [done|]). intros Hw Hok. by destruct (Hw Hok).
Qed.

Lemma direction_inv_start r w :
  written w = base → concat (pending r) = total → reliable_reader ok r → reliable_writer ok w →
  direction_inv (direction r w count0).
Proof.
  intros Hb Ht Hr Hw. exists [], []. split; cbn [buf source sink counted stage direction]; rewrite ?app_nil_r, ?Z.add_0_r;
    first [apply length_replicate|apply Nat.le_0_l|done].
Qed.

Lemma reading_inv c dn part :
  direction_inv_at c dn part → stage c = Reading → direction_inv (direction_step 0 c).
Proof.
  intros [H1 H2 H3 H4 H5 H6 H7] Es. rewrite Es in H7. destruct H7 as [-> Ht]. unfold direction_step. rewrite Es.
  pose proof (reader_read_spec ok (length (buf c)) (source c)) as Hrd. rewrite H1 in *.
  specialize (Hrd relay_buffer_size_pos). destruct (reader_read RELAY_BUFFER_SIZE (source c)) as [[data s]|e].
  2: { exists dn, []. split; cbn; try done. split_and!; [intros Hok; specialize (Hrd H5); congruence| |done].
       rewrite app_nil_r, <- Ht. by apply prefix_app_r. }
  destruct Hrd as (Hcat & Hlen & Hr' & Hend).
  assert (Hbuf : length (data ++ drop (length data) (buf c)) = RELAY_BUFFER_SIZE) by (rewrite length_app, length_drop; lia).
  destruct (Nat.eqb_spec (length data) 0) as [H0|H0].
  - apply nil_length_inv in H0 as ->. exists dn, []. split; cbn; try by auto. by rewrite (Hend eq_refl), app_nil_r in Ht.
  - exists dn, []. rewrite take_app_length. split; cbn; try by auto. split_and!; [by destruct data|done|lia|].
    by rewrite <- Hcat.
Qed.

Lemma writing_inv k c dn part rest n :
  direction_inv_at c dn part → stage c = Writing rest n → direction_inv (direction_step k c).
Proof.
  intros [H1 H2 H3 H4 H5 H6 H7] Es. rewrite Es in H7. destruct H7 as (Hne & Hn & Hmax & Ht). unfold direction_step. rewrite Es.
  pose proof (write_some_spec k (sink c) rest Hne) as Hw. destruct (write_some k (sink c) rest) as [[w rest']|].
  - destruct Hw as (a & -> & Ha & Hwr & Hcl & Hrel). rewrite !length_app in Hn. destruct rest' as [|x rest'].
    + exists (dn ++ part ++ a), []. cbn [length] in Hn. rewrite app_nil_r in *. split; cbn; try by auto.
      * by rewrite Hwr, H2, app_nil_r, <- !app_assoc.
      * unfold wrap in *. rewrite Z.mod_mod, <- Zplus_mod_idemp_l, H3, Zplus_mod_idemp_l, !len_app by done.
        f_equal. unfold len. lia.
      * lia.
      * split; [done|]. by rewrite <- !app_assoc.
    + exists dn, (part ++ a). split; cbn; try by auto.
      * by rewrite Hwr, H2, <- !app_assoc.
      * rewrite length_app. lia.
      * split_and!; [done| |done|by rewrite <- !app_assoc in *]. rewrite !length_app. cbn in *. lia.
  - exists dn, part. split; cbn; try done. split_and!; [intros Hok; specialize (Hw H6); congruence| |done].
    exists (rest ++ concat (pending (source c))). by rewrite <- Ht, <- app_assoc.
Qed.

Lemma direction_step_inv k c : direction_inv c → direction_inv (direction_step k c).
Proof.
  intros (dn & part & Hc). pose proof Hc as [H1 H2 H3 H4 H5 H6 H7]. destruct (stage c) as [|rest n| |r] eqn:Es.
  - replace (direction_step k c) with (direction_step 0 c) by (unfold direction_step; by rewrite Es).
    by eapply reading_inv.
  - by eapply writing_inv.
  - destruct H7 as [-> ->]. unfold direction_step. rewrite Es. unfold close.
    destruct (close_fails (sink c)) eqn:Ec; exists total, []; split; cbn; try done.
    + split_and!; [|by rewrite app_nil_r|done]. intros Hok. destruct (H6 Hok). congruence.
    + intros Hok. by destruct (H6 Hok).
    + split_and!; [done|by rewrite app_nil_r|done].
  - unfold direction_step. rewrite Es. by exists dn, part.
Qed.

(** The steps a direction has left, at most. *)
Definition left_to_do (c : Direction) : nat :=
  match stage c with
  | Reading => 2 + 2 * length (concat (pending (source c)))
  | Writing rest _ => 2 + 2 * length (concat (pending (source c))) + length rest
  | Shutting => 1
  | Stopped _ => 0
  end.

Lemma direction_step_left k c : direction_inv c → (left_to_do (direction_step k c) ≤ left_to_do c - 1)%nat.
Proof.
  intros (dn & part & [H1 H2 H3 H4 H5 H6 H7]). unfold direction_step, left_to_do.
  destruct (stage c) as [|rest n| |r] eqn:Es; [| | |rewrite Es; lia].
  - pose proof (reader_read_spec ok (length (buf c)) (source c)) as Hrd. rewrite H1 in *. specialize (Hrd relay_buffer_size_pos).
    destruct (reader_read RELAY_BUFFER_SIZE (source c)) as [[data s]|e]; cbn; [|lia].
    destruct Hrd as (-> & _). destruct (Nat.eqb_spec (length data) 0); cbn; rewrite length_app; [lia|].
    rewrite take_app_length. lia.
  - destruct H7 as (Hne & _). pose proof (write_some_spec k (sink c) rest Hne) as Hw.
    destruct (write_some k (sink c) rest) as [[w rest']|]; cbn; [|lia].
    destruct Hw as (a & -> & Ha & _). rewrite length_app. destruct a, rest'; cbn in *; try done; lia.
  - destruct (close (sink c)). cbn. lia.
Qed.
End direction.

(** ** Both directions *)

Section join.
Context (bu tu : list Z) (cu : Z) (bd td : list Z) (cd : Z) (ok : bool).

Abbreviation up_inv := (direction_inv bu tu cu ok).
Abbreviation down_inv := (direction_inv bd td cd ok).

Lemma stopped_ok base total count0 c e : direction_inv base total count0 ok c → stage c = Stopped (Err e) → ok = false.
Proof.
  intros (dn & part & [_ _ _ _ _ _ H]) Es. rewrite Es in H. destruct H as [H _]. destruct ok; [by specialize (H eq_refl)|done].
Qed.

Lemma directions_joined_spec up down :
  up_inv up → down_inv down →
  match directions_joined up down with
  | Some (Ok _) => stage up = Stopped (Ok tt) ∧ stage down = Stopped (Ok tt)
  | Some (Err _) => ok = false
  | None => (0 < left_to_do up + left_to_do down)%nat
  end.
Proof.
  intros Hu Hd. unfold directions_joined, left_to_do.
  destruct (stage up) as [|? ?| |[[]|eu]] eqn:Eu, (stage down) as [|? ?| |[[]|ed]] eqn:Ed; try done; try lia; try by split.
  all: first [exact (stopped_ok _ _ _ _ _ Hu Eu)|exact (stopped_ok _ _ _ _ _ Hd Ed)].
Qed.

Definition joined_outcome (schedule : list (bool * nat)) (up down : Direction)
    (out : Direction * Direction * option (result IoError unit)) : Prop :=
  let '(up', down', r) := out in
  let enough := (left_to_do up ≤ turns true schedule.*1)%nat ∧ (left_to_do down ≤ turns false schedule.*1)%nat in
  up_inv up' ∧ down_inv down' ∧
  (r = Some (Ok tt) → stage up' = Stopped (Ok tt) ∧ stage down' = Stopped (Ok tt)) ∧
  (enough → r ≠ None ∧ (ok = true → r = Some (Ok tt))).

Lemma join_directions_spec schedule up down :
  up_inv up → down_inv down → joined_outcome schedule up down (join_directions schedule up down).
Proof.
  revert up down. induction schedule as [|[d k] s IH]; intros up down Hu Hd; cbn [join_directions];
    pose proof (directions_joined_spec up down Hu Hd) as Hj; destruct (directions_joined up down) as [[[]|e]|].
  1, 2, 4, 5: (do 2 (split; [assumption|])); split; [intros; first [exact Hj|discriminate]|];
    intros _; (split; [done|]); first [done|congruence].
  - do 2 (split; [assumption|]). split; [done|]. intros [H1 H2]. exfalso. unfold turns in H1, H2. cbn [fmap list_fmap filter list_filter length] in H1, H2. lia.
  - destruct d.
    + pose proof (direction_step_left bu tu cu ok k up Hu) as Hw. apply (direction_step_inv _ _ _ _ k) in Hu.
      specialize (IH _ down Hu Hd). unfold joined_outcome in *. destruct (join_directions s _ down) as [[u w] r].
      cbn [fmap list_fmap fst]. rewrite !turns_cons. cbn [Bool.eqb]. destruct IH as (? & ? & ? & Hend).
      do 3 (split; [assumption|]). intros [? ?]. apply Hend. lia.
    + pose proof (direction_step_left bd td cd ok k down Hd) as Hw. apply (direction_step_inv _ _ _ _ k) in Hd.
      specialize (IH up _ Hu Hd). unfold joined_outcome in *. destruct (join_directions s up _) as [[u w] r].
      cbn [fmap list_fmap fst]. rewrite !turns_cons. cbn [Bool.eqb]. destruct IH as (? & ? & ? & Hend).
      do 3 (split; [assumption|]). intros [? ?]. apply Hend. lia.
Qed.
End join.

(** What a direction has delivered and counted. *)
Lemma direction_inv_outcome base total count0 ok c :
  direction_inv base total count0 ok c →
  ∃ dn part, written (sink c) = base ++ dn ++ part ∧ (dn ++ part) `prefix_of` total ∧
    wrap 64 (counted c) = wrap 64 (count0 + len dn) ∧ (length part ≤ RELAY_BUFFER_SIZE)%nat ∧
    (stage c = Stopped (Ok tt) → closed (sink c) = true ∧ part = [] ∧ dn = total).
Proof.
  intros (dn & part & [H1 H2 H3 H4 H5 H6 H7]). exists dn, part.
  assert (dn ++ part `prefix_of` total ∧ (stage c = Stopped (Ok tt) → closed (sink c) = true ∧ part = [] ∧ dn = total)) as [? ?];
    [|done]. destruct (stage c) as [|rest n| |r].
  - destruct H7 as [-> <-]. rewrite app_nil_r. split; [by apply prefix_app_r|done].
  - destruct H7 as (_ & _ & _ & <-). rewrite !app_assoc, <- (app_assoc _ rest). split; [by apply prefix_app_r|done].
  - destruct H7 as [-> ->]. by rewrite app_nil_r.
  - destruct H7 as (_ & ? & Hr). split; [done|]. intros [= ->]. by apply Hr.
Qed.

(** One side of a relay: [w] after it has received from [base], of all the data
    [total], what is counted from [n0] to [n]; [complete] when all of it is. *)
Definition delivered (base total : list Z) (n0 n : Z) (w : Writer) (complete : Prop) : Prop :=
  ∃ dn part, written w = base ++ dn ++ part ∧ (dn ++ part) `prefix_of` total ∧
    wrap 64 n = wrap 64 (n0 + len dn) ∧ (length part ≤ RELAY_BUFFER_SIZE)%nat ∧
    (complete → closed w = true ∧ part = [] ∧ dn = total).

(** The writer takes [n] more bytes. *)
Definition has_room (w : Writer) (n : nat) : Prop := match room w with None => True | Some r => (n ≤ r)%nat end.

(** A write of the whole data at once, by the room there is. *)
Lemma write_all_room w data :
  (has_room w (length data) ∧ ∃ w', write_all w data = (w', true) ∧ written w' = written w ++ data ∧
     (never_fails w → never_fails w')) ∨
  (¬ has_room w (length data) ∧ ∃ w' k, write_all w data = (w', false) ∧ written w' = written w ++ take k data ∧
     (k < length data)%nat).
Proof.
  unfold has_room, write_all, never_fails. destruct (room w) as [r|] eqn:Er.
  - destruct (Nat.leb_spec (length data) r).
    + left. split; [done|]. eexists. split; [done|]. cbn. rewrite take_ge by done. split; [done|]. by intros [? _].
    + right. split; [lia|]. eexists _, r. by split_and!.
  - left. split; [done|]. eexists. split; [done|]. done.
Qed.

(** Claim C25. A VLESS TCP connection to a destination that was reached, under any schedule of its two directions, with
    writes accepted in pieces of any size and any failure of an end, the client's
    included. If the client does not take the two bytes of the answer, the connection
    fails with nothing sent to the destination and nothing counted. Otherwise the
    client has received the two bytes of the answer and then a prefix of what the
    destination sent, and the destination a prefix of what the client sent; the bytes
    counted for the user are those delivered but for at most one buffer each way; when
    the connection ends well everything is delivered and counted and both writers are
    closed; and with enough turns it ends, well if no end fails. *)
Theorem vless_serve_tcp_spec connect schedule client_read client_write destination traffic upstream_read upstream_write :
  connect destination = Ok (upstream_read, upstream_write) →
  let out := serve_tcp connect schedule client_read client_write destination traffic in
  let up := concat (pending client_read) in
  let down := concat (pending upstream_read) in
  let good := result_out out = Some (Ok tt) in
  (¬ has_room client_write 2 →
   result_out out = Some (Err (ServeIo WriteFailed)) ∧ upstream_out out = Some upstream_write ∧ counters_out out = traffic ∧
   ∃ k, (k < 2)%nat ∧ written (client_out out) = written client_write ++ take k [VERSION; 0]) ∧
  (has_room client_write 2 →
   (∃ w, upstream_out out = Some w ∧
      delivered (written upstream_write) up (uploaded traffic) (uploaded (counters_out out)) w good) ∧
   delivered (written client_write ++ [VERSION; 0]) down (downloaded traffic) (downloaded (counters_out out)) (client_out out) good ∧
   ((2 + 2 * length up ≤ turns true schedule.*1)%nat → (2 + 2 * length down ≤ turns false schedule.*1)%nat →
    result_out out ≠ None ∧
    (never_fails upstream_write → never_fails client_write → broken client_read = false → broken upstream_read = false →
     good))).
Proof.
  intros Hconn out up down good. subst out good. unfold serve_tcp. rewrite Hconn.
  destruct (write_all_room client_write [VERSION; 0]) as [(Hroom & cw & -> & Hcw & Hnf)|(Hroom & cw & k & -> & Hcw & Hk)];
    cbn [negb]; (split; [intros Hno|intros Hyes]; try done).
  2: { split_and!; [done..|]. by exists k. }
  rewrite <- Hcw.
  assert (Hspec : ∀ ok, (ok = true → never_fails upstream_write ∧ never_fails client_write ∧
                         broken client_read = false ∧ broken upstream_read = false) →
    joined_outcome (written upstream_write) up (uploaded traffic) (written cw) down (downloaded traffic) ok schedule
      (direction client_read upstream_write (uploaded traffic)) (direction upstream_read cw (downloaded traffic))
      (join_directions schedule (direction client_read upstream_write (uploaded traffic))
         (direction upstream_read cw (downloaded traffic)))).
  { intros ok Hok. apply join_directions_spec; (apply direction_inv_start; [done|done| |]); unfold reliable_reader, reliable_writer;
      intros Ht; destruct (Hok Ht) as (? & ?%Hnf & ? & ?); done. }
  destruct (join_directions _ _ _) as [[u d] r]. cbn [client_out upstream_out counters_out result_out uploaded downloaded].
  pose proof (Hspec false ltac:(done)) as (Hu & Hd & Hdone & Hend).
  assert (Hgood : rmap_err ServeIo <$> r = Some (Ok tt) → r = Some (Ok tt)) by (destruct r as [[[]|]|]; done).
  split_and!.
  - exists (sink u). split; [done|]. destruct (direction_inv_outcome _ _ _ _ _ Hu) as (dn & part & ? & ? & ? & ? & Hc).
    exists dn, part. split_and!; try done. intros Hg%Hgood. by apply Hc, Hdone.
  - destruct (direction_inv_outcome _ _ _ _ _ Hd) as (dn & part & ? & ? & ? & ? & Hc).
    exists dn, part. split_and!; try done. intros Hg%Hgood. by apply Hc, Hdone.
  - intros H1 H2. assert (He : (left_to_do (direction client_read upstream_write (uploaded traffic)) ≤ turns true schedule.*1 ∧
      left_to_do (direction upstream_read cw (downloaded traffic)) ≤ turns false schedule.*1)%nat) by (unfold left_to_do; cbn [stage direction source]; fold up down; lia).
    split; [destruct (Hend He) as [Hn _]; by destruct r|]. intros ? ? ? ?.
    destruct (Hspec true ltac:(done)) as (_ & _ & _ & Hend'). destruct (Hend' He) as [_ Hok]. by rewrite Hok.
Qed.

(** ** Packets *)

Definition total_len (ps : list (list Z)) : Z := foldr (fun p n => len p + n) 0 ps.

Lemma total_len_snoc ps p : total_len (ps ++ [p]) = total_len ps + len p.
Proof. unfold total_len. induction ps as [|q ps IH]; cbn; lia. Qed.

(** The packets that arrived, cut to what the buffer holds. *)
Definition arrived (events : list UdpServeEvent) : list (list Z) :=
  omap (fun e => match e with DownloadTurn (Some p) _ => Some (take (Z.to_nat U16_MAX) p) | _ => None end) events.

Section packets.
Context (stream : Stream) (base : list Z) (traffic : Counters).

(** What was read of the stream is what was sent; [ps] are the packets returned, whole
    but for the one at hand. *)
Record udp_inv (s : UdpServing) (seen : list (list Z)) : Prop := {
  ui_sent : Forall packet_ok (sent s) ∧ concat stream = concat (download_frame <$> sent s) ++ concat (frames s);
  ui_bytes : is_bytes (concat (frames s));
  ui_up : wrap 64 (uploaded (udp_counters s)) = wrap 64 (uploaded traffic + total_len (sent s));
  ui_down : ∃ ps, ps `sublist_of` seen ∧ written (client s) ++ frame s = base ++ concat (download_frame <$> ps) ∧
      match frame s with
      | [] => wrap 64 (downloaded (udp_counters s)) = wrap 64 (downloaded traffic + total_len ps)
      | _ => ∃ qs p, ps = qs ++ [p] ∧ len p = packet_len s ∧
                     wrap 64 (downloaded (udp_counters s)) = wrap 64 (downloaded traffic + total_len qs)
      end;
}.

Lemma wrap_add a b c d : wrap 64 a = wrap 64 (c + d) → wrap 64 (wrap 64 (a + b)) = wrap 64 (c + (d + b)).
Proof. unfold wrap. intros E. rewrite Z.mod_mod, <- Zplus_mod_idemp_l, E, Zplus_mod_idemp_l by done. f_equal. lia. Qed.

Lemma upload_step_inv sends s seen :
  udp_inv s seen → match upload_step sends s with inl s' => udp_inv s' seen | inr _ => True end.
Proof.
  intros [[H1 H2] H3 H4 H5]. unfold upload_step. destruct (read_u16 (frames s)) as [[l s1]|] eqn:E16; [|done].
  destruct (Z.eqb_spec l 0) as [|H0]; [done|]. rewrite Z.gtb_ltb.
  destruct (Z.ltb_spec MAX_UDP_PACKET_SIZE l) as [|Hmax]; [done|]. cbn [orb].
  destruct (read_exact _ s1) as [[p s2]|] eqn:Ex; [|done]. destruct sends; [|done].
  destruct (frame_read _ _ _ _ _ H3 E16 H0 Hmax Ex) as (Hok & Hl & Hs & Hb2). split; cbn; [|done| |done].
  - split; [by apply Forall_app; split; [|apply Forall_singleton]|]. by rewrite H2, Hs, fmap_app, concat_app, <- app_assoc; cbn; rewrite app_nil_r.
  - rewrite <- Hl, total_len_snoc. by apply wrap_add.
Qed.

Lemma download_step_inv received k s seen :
  udp_inv s seen →
  match download_step received k s with
  | Some s' => udp_inv s' (seen ++ arrived [DownloadTurn received k])
  | None => True
  end.
Proof.
  intros [H1 H2 H3 (ps & Hps & Hw & Hd)]. unfold download_step. destruct (frame s) as [|x f] eqn:Ef.
  - destruct received as [p|]; [|done]. cbn [mbind option_bind]. split; cbn [sent frames udp_counters client frame packet_len]; try done.
    set (q := take (Z.to_nat U16_MAX) p). exists (ps ++ [q]). split_and!.
    + by apply sublist_app.
    + rewrite app_nil_r in Hw. by rewrite Hw, fmap_app, concat_app, <- app_assoc; cbn; rewrite app_nil_r.
    + destruct (download_frame q) as [|] eqn:E; [by pose proof (download_frame_length q) as Hl; rewrite E in Hl|]. eauto.
  - pose proof (write_some_spec false k (client s) (x :: f) ltac:(done)) as Hws.
    destruct (write_some k (client s) (x :: f)) as [[w rest]|]; [|done]. cbn [mbind option_bind].
    destruct Hws as (a & Ha & _ & Hwr & _). split; cbn [sent frames udp_counters client frame packet_len]; try done.
    { by destruct (is_nil rest). }
    exists ps. split_and!.
    + by apply sublist_inserts_r.
    + by rewrite Hwr, <- app_assoc, <- Ha.
    + destruct Hd as (qs & p & -> & Hl & Hd). destruct rest as [|y rest]; cbn [is_nil downloaded]; [|by exists qs, p].
      rewrite <- Hl, total_len_snoc. by apply wrap_add.
Qed.

Lemma serve_udp_loop_inv events s seen :
  udp_inv s seen → ∃ more, more `sublist_of` arrived events ∧ udp_inv (serve_udp_loop events s).1 (seen ++ more).
Proof.
  revert s seen. induction events as [|[sends|received k] events IH]; intros s seen Hs; cbn [serve_udp_loop].
  - exists []. by rewrite app_nil_r.
  - pose proof (upload_step_inv sends s seen Hs) as Hu. destruct (upload_step sends s); [by apply IH|].
    exists []. rewrite app_nil_r. split; [apply sublist_nil_l|done].
  - pose proof (download_step_inv received k s seen Hs) as Hd. destruct (download_step received k s) as [s'|].
    + destruct (IH s' _ Hd) as (more & Hm & Hinv). rewrite <- app_assoc in Hinv. eexists. split; [|exact Hinv].
      change (arrived (DownloadTurn received k :: events)) with (arrived ([DownloadTurn received k] ++ events)).
      unfold arrived. rewrite omap_app. by apply sublist_app.
    + exists []. rewrite app_nil_r. split; [apply sublist_nil_l|done].
Qed.
End packets.

(** Packets over VLESS, with the client's stream cut anywhere and any order of the two
    directions: the packets sent to the destination are the first ones of the client's
    stream, each whole; the client has received the answer and then the frames of some of the
    packets that arrived, in their order, the last one perhaps in part; and the bytes
    counted are those of the packets sent and of the packets returned whole. *)
Theorem vless_serve_udp_spec events stream client_write traffic :
  is_bytes (concat stream) →
  let s := (serve_udp true events stream client_write traffic).1 in
  Forall packet_ok (sent s) ∧ concat (download_frame <$> sent s) `prefix_of` concat stream ∧
  wrap 64 (uploaded (udp_counters s)) = wrap 64 (uploaded traffic + total_len (sent s)) ∧
  (room client_write = None →
   ∃ ps qs, ps `sublist_of` arrived events ∧ qs `prefix_of` ps ∧ (length ps ≤ S (length qs))%nat ∧
     written (client s) `prefix_of` written client_write ++ [VERSION; 0] ++ concat (download_frame <$> ps) ∧
     written client_write ++ [VERSION; 0] ++ concat (download_frame <$> qs) `prefix_of` written (client s) ++ frame s ∧
     wrap 64 (downloaded (udp_counters s)) = wrap 64 (downloaded traffic + total_len qs)).
Proof.
  intros Hb s. subst s. unfold serve_udp. destruct (write_all client_write [VERSION; 0]) as [w acc] eqn:Ew.
  set (s0 := {| frames := stream; client := w; frame := []; packet_len := 0; sent := []; udp_counters := traffic |}).
  assert (H0 : udp_inv stream (written w) traffic s0 []).
  { split; cbn; rewrite ?Z.add_0_r; try done. exists []. by rewrite !app_nil_r, Z.add_0_r. }
  assert (Hinv : ∃ more, more `sublist_of` arrived events ∧
    udp_inv stream (written w) traffic (if acc then serve_udp_loop events s0 else (s0, Some HeaderFailed)).1 ([] ++ more)).
  { destruct acc; [by apply serve_udp_loop_inv|]. exists []. split; [apply sublist_nil_l|done]. }
  destruct Hinv as (more & Hm & [[H1 H2] _ H4 (ps & Hps & Hw & Hd)]).
  destruct (if acc then _ else _) as [s e]. cbn [fst] in *. split_and!; [done|by rewrite H2; apply prefix_app_r|done|].
  intros Hr. unfold write_all in Ew. rewrite Hr in Ew. injection Ew as <- _. cbn [written] in Hw. rewrite <- app_assoc in Hw.
  assert (Hsub : ps `sublist_of` arrived events) by by etrans.
  destruct (frame s) as [|x f].
  - exists ps, ps. rewrite app_nil_r in *. split_and!; try done; [lia|by rewrite Hw|by rewrite Hw].
  - destruct Hd as (qs & p & -> & _ & Hd). exists (qs ++ [p]), qs. split_and!; try done.
    + by apply prefix_app_r.
    + rewrite length_app. cbn. lia.
    + rewrite <- Hw. by apply prefix_app_r.
    + rewrite Hw, fmap_app, concat_app, !app_assoc. by apply prefix_app_r.
Qed.

(** ** Examples *)

Definition example_vless_client : Reader := {| pending := [[1; 2]; [3]]; broken := false |}.

Definition example_turns : list (bool * nat) :=
  [(true, 0); (true, 0); (false, 7); (true, 0); (false, 0); (false, 0); (true, 5); (true, 5); (true, 5); (true, 5);
   (false, 1); (false, 1); (false, 1)]%nat.

Lemma vless_serve_tcp_spec_witness :
  let out := serve_tcp (fun _ => Ok (example_reader, example_writer)) example_turns example_vless_client example_writer
               (lit "a.b:443") {| uploaded := 10; downloaded := 0 |} in
  result_out out = Some (Ok tt) ∧
  delivered [VERSION; 0] [104; 105] 0 (downloaded (counters_out out)) (client_out out) (result_out out = Some (Ok tt)).
Proof.
  destruct (vless_serve_tcp_spec (fun _ => Ok (example_reader, example_writer)) example_turns example_vless_client example_writer
    (lit "a.b:443") {| uploaded := 10; downloaded := 0 |} example_reader example_writer) as (_ & Hok); [done|].
  destruct Hok as (_ & Hd & _); [done|]. split; [by vm_compute|exact Hd].
Defined.

Example serve_udp_cut :
  let s := (serve_udp true [UploadTurn true; DownloadTurn (Some [7; 8]) 0; DownloadTurn None 2; UploadTurn true; UploadTurn true]
    [[0; 1; 5; 0]; [2; 6; 6]] example_writer {| uploaded := 0; downloaded := 0 |}).1 in
  sent s = [[5]; [6; 6]] ∧ written (client s) = [0; 0; 0; 2; 7] ∧ udp_counters s = {| uploaded := 3; downloaded := 0 |}.
Proof. by vm_compute. Qed.
