(* ===== verification/ServerRun.v ===== *)
(** * The server with its connections ([run_until_with_traffic] of [src/src/server.rs])

    The set-up of a server, and a history of servers that are started and shut down one
    after the other over one registry of traffic, as the management service does.  A
    server leaves the tasks of its connections behind: each task has the users of the
    server that accepted it.  The parts are the accept loop (AcceptLoop), the
    authentication of QUIC clients (Auth) and of TCP clients (Vless), and the counters
    (Traffic); what their libraries answer comes with the events. *)

From stdpp Require Import base list gmap strings.
From Stdlib Require Import ZArith Lia.
From S2P Require Import Prelude RustStr Net Rules Files Config Traffic Auth Brutal AcceptLoop Stream Vless.

Open Scope Z_scope.

(** ** Sockets *)

(** The calls that make a socket, in their order; each may fail. *)
Inductive SocketCall :=
| NewSocket (v6 : bool)
| SetOnlyV6 (b : bool)
| SetReuseAddress
| BindSocket (a : SocketAddr)
| BindUdp (a : SocketAddr)
| Listen (backlog : Z)
| SetNonblocking
| WrapUdpSocket
| NewEndpoint (obfuscated : bool)
| NewListener.

(** [is_ipv6] and [ip().is_unspecified()]. *)
Definition unspecified_v6 (a : SocketAddr) : bool :=
  match ip a with V6 o => forallb (Z.eqb 0) o | V4 _ => false end.

(** [bind_server_socket] and [make_endpoint]. *)
Definition bind_server_socket (listen : SocketAddr) : list SocketCall :=
  if unspecified_v6 listen then [NewSocket true; SetOnlyV6 false; BindSocket listen] else [BindUdp listen].

Definition make_endpoint (c : Config) : list SocketCall :=
  bind_server_socket (listen c) ++ [SetNonblocking]
  ++ match obfs c with None => [NewEndpoint false] | Some _ => [WrapUdpSocket; NewEndpoint true] end.

(** [tcp_server::bind_listener]. *)
Definition bind_listener (listen : SocketAddr) : list SocketCall :=
  (if unspecified_v6 listen then [NewSocket true; SetOnlyV6 false] else [NewSocket (negb (is_ipv4 listen))])
  ++ [SetReuseAddress; BindSocket listen; Listen 1024; SetNonblocking; NewListener].

(** ** Set-up *)

Inductive StartError :=
| CertificateUnreadable | CertificateMalformed | NoCertificate | KeyUnreadable | CertificateRefused | QuicRefused
| UdpNotBound (call : SocketCall) | TcpNotBound (call : SocketCall).

(** What a reading of the certificate and the key finds, the certificates parsed or not,
    and whether TLS takes them; what the libraries and the host answer to the two
    readings and which calls fail. *)
Record TlsFiles := { certificates : option (list bool); key_readable : bool; tls_accepts : bool }.

Record Setup := {
  quic_files : TlsFiles;
  quic_accepts : bool;
  udp_fails : SocketCall → bool;
  tcp_fails : SocketCall → bool;
  tcp_files : TlsFiles;
}.

Definition run_calls (fails : SocketCall → bool) (e : SocketCall → StartError) (calls : list SocketCall)
    : result StartError unit :=
  match find_first fails calls with Some call => Err (e call) | None => Ok tt end.

(** [tcp_server::tls_acceptor], and [make_server_config], which begins in the same way. *)
Definition tls_acceptor (f : TlsFiles) : result StartError unit :=
  certs ← ok_or CertificateUnreadable (certificates f);
  ensure (forallb id certs) CertificateMalformed;;
  ensure (negb (is_nil certs)) NoCertificate;;
  ensure (key_readable f) KeyUnreadable;;
  ensure (tls_accepts f) CertificateRefused.

Definition make_server_config (s : Setup) : result StartError unit :=
  tls_acceptor (quic_files s);; ensure (quic_accepts s) QuicRefused.

(** [run_until_with_traffic] until its loop, once the registry has its users. *)
Definition set_up (c : Config) (s : Setup) : result StartError unit :=
  make_server_config s;;
  run_calls (udp_fails s) UdpNotBound (make_endpoint c);;
  run_calls (tcp_fails s) TcpNotBound (bind_listener (listen c));;
  tls_acceptor (tcp_files s).

(** ** Servers and their connections *)

Inductive Protocol := Hy2 | VlessTcp | VlessUdp.

#[export] Instance Protocol_eq_dec : EqDecision Protocol.
Proof. solve_decision. Defined.

(** The task of a connection, with the number of its server: a QUIC connection that is
    not authenticated, a TCP connection that is not, a counted one, one passed to SSH, a
    counted one that has ended, any other that has ended. *)
Inductive Session :=
| Handshaking (server conn : nat)
| Sniffing (server : nat)
| Serving (server : nat) (protocol : Protocol) (name : str) (loc : positive)
| SshRelay (server : nat)
| Left (server : nat) (protocol : Protocol) (name : str) (loc : positive)
| Over.

Record Servers := {
  servers : list (Config * Accepting);
  registry : TrafficRegistry;
  sessions : gmap nat Session;
}.

Definition servers_init : Servers := {| servers := []; registry := empty_registry; sessions := ∅ |}.

Definition is_closed (a : Accepting) : bool := match loop a with Closed => true | _ => false end.

(** No server runs. *)
Definition idle_servers (s : Servers) : bool := match last (servers s) with Some (_, a) => is_closed a | None => true end.

Definition set_session (n : nat) (t : Session) (s : Servers) : Servers :=
  {| servers := servers s; registry := registry s; sessions := <[n := t]> (sessions s) |}.

Definition set_registry (r : TrafficRegistry) (s : Servers) : Servers :=
  {| servers := servers s; registry := r; sessions := sessions s |}.

Definition set_server (i : nat) (a : Accepting) (s : Servers) : Servers :=
  {| servers := alter (fun ca => (ca.1, a)) i (servers s); registry := registry s; sessions := sessions s |}.

(** [traffic.user(name)] and [traffic.connection()]: the task is counted. *)
Definition enter (n i : nat) (protocol : Protocol) (name : str) (s : Servers) : Servers :=
  let '(loc, r) := user (registry s) name in
  set_session n (Serving i protocol name loc) (set_registry (connection loc r) s).

(** The user and the counters of a session that counts bytes: the streams of an HY2
    connection are tasks of their own, which hold the counters after it has ended. *)
Definition holder (t : Session) : option (str * positive) :=
  match t with Serving _ _ name loc | Left _ Hy2 name loc => Some (name, loc) | _ => None end.

Inductive ServersEvent :=
| Start (c : Config) (setup : Setup)
| Loop (e : AcceptEvent) (n : nat)
| AuthQuic (n : nat) (padding : option (list Z)) (sent : bool) (reqs : list HttpRequest)
| AuthTcp (n : nat) (peeks : list (result unit (list Z))) (upstream : bool) (tls : option Stream)
| Upload (n : nat) (bytes : Z)
| Download (n : nat) (bytes : Z)
| End (n : nat).

(** The task that an event of the accept loop spawns. *)
Definition spawned (i : nat) (a : Accepting) (e : AcceptEvent) : option Session :=
  match e, loop a with
  | TcpIncoming, _ => Some (Sniffing i)
  | TakeRate, Pairing conn _ => Some (Handshaking i conn)
  | _, _ => None
  end.

Section servers.
Context `{Sha256}.

(** A server begins: the registry is synchronised before anything that can fail. *)
Definition on_start (c : Config) (setup : Setup) (s : Servers) : Servers :=
  let s := set_registry (sync_users (registry s) (user_name <$> Config.users c)) s in
  match set_up c setup with
  | Err _ => s
  | Ok _ =>
      {| servers := servers s ++ [(c, accepting_init (sat_mul (up_mbps (bandwidth c)) 125000))];
         registry := registry s; sessions := sessions s |}
  end.

(** A step of the loop of the server that runs, which is the last one. *)
Definition on_loop (e : AcceptEvent) (n : nat) (s : Servers) : option Servers :=
  let i := (length (servers s) - 1)%nat in
  '(_, a) ← servers s !! i;
  a' ← accept_step a e;
  match e with
  | Negotiated _ _ => None
  | _ =>
      match spawned i a e with
      | Some t => if decide (sessions s !! n = None) then Some (set_session n t (set_server i a' s)) else None
      | None => Some (set_server i a' s)
      end
  end.

(** The task of a QUIC connection; [sent] says whether the response could be sent.  The
    answers of the masquerade are Auth's subject. *)
Definition on_auth_quic (n i conn : nat) (padding : option (list Z)) (sent : bool) (reqs : list HttpRequest) (s : Servers)
    : option Servers :=
  '(c, a) ← servers s !! i;
  match (authenticate_connection (fun _ _ => tt) padding (options_of c) reqs).2 with
  | Err _ => Some (set_session n Over s)
  | Ok (name, rate) =>
      loc ← find_conn conn (tasks a);
      let a := {| factory := set_cell loc rate (factory a); loop := loop a; controllers := controllers a; tasks := tasks a;
                  tcp_tasks := tcp_tasks a; agreed := (conn, rate) :: agreed a |} in
      let s := set_server i a s in
      Some (if sent : bool then enter n i Hy2 name s else set_session n Over s)
  end.

(** The user a TCP client names, when it sends a whole prefix of the protocol. *)
Definition presented_id (users : gmap (list Z) str) (stream : Stream) : option str :=
  match read_exact 17 stream with Ok (prefix, _) => users !! drop 1 prefix | Err _ => None end.

(** The task of a TCP connection ([tcp_server::serve], then [vless_server::serve]): to
    SSH if that is enabled and the connection shows it, and to VLESS when TLS is
    accepted.  A command that is not known is found after the user's counters are
    looked up. *)
Definition on_auth_tcp (n i : nat) (peeks : list (result unit (list Z))) (upstream : bool) (tls : option Stream) (s : Servers)
    : option Servers :=
  '(c, _) ← servers s !! i;
  let users := vless_users (Config.users c) in
  let vless :=
    match tls with
    | None => set_session n Over s
    | Some stream =>
        match tcp_serve users stream with
        | Ok (ServeTcp name _ _) => enter n i VlessTcp name s
        | Ok (ServeUdp name _ _) => enter n i VlessUdp name s
        | Err (UnsupportedCommand _) =>
            let r := match presented_id users stream with Some name => (user (registry s) name).2 | None => registry s end in
            set_session n Over (set_registry r s)
        | Err _ => set_session n Over s
        end
    end in
  Some (if ssh_enabled (ssh c) then
          match is_ssh_connection peeks with
          | Err _ => set_session n Over s
          | Ok true => set_session n (if upstream then SshRelay i else Over) s
          | Ok false => vless
          end
        else vless).

(** A task ends, and its counted connection is dropped. *)
Definition on_end (n : nat) (t : Session) (s : Servers) : option Servers :=
  match t with
  | Serving i protocol name loc =>
      Some (set_session n (Left i protocol name loc) (set_registry (drop_connection loc (registry s)) s))
  | Left _ _ _ _ | Over => None
  | _ => Some (set_session n Over s)
  end.

Definition servers_step (s : Servers) (e : ServersEvent) : option Servers :=
  match e with
  | Start c setup => if idle_servers s then Some (on_start c setup s) else None
  | Loop e n => on_loop e n s
  | AuthQuic n padding sent reqs =>
      match sessions s !! n with
      | Some (Handshaking i conn) => on_auth_quic n i conn padding sent reqs s
      | _ => None
      end
  | AuthTcp n peeks upstream tls =>
      match sessions s !! n with Some (Sniffing i) => on_auth_tcp n i peeks upstream tls s | _ => None end
  | Upload n bytes =>
      '(_, loc) ← sessions s !! n ≫= holder;
      Some (set_registry (record_upload bytes loc (registry s)) s)
  | Download n bytes =>
      '(_, loc) ← sessions s !! n ≫= holder;
      Some (set_registry (record_download bytes loc (registry s)) s)
  | End n => t ← sessions s !! n; on_end n t s
  end.

Fixpoint servers_run (s : Servers) (events : list ServersEvent) : option Servers :=
  match events with
  | [] => Some s
  | e :: events => s ← servers_step s e; servers_run s events
  end.
End servers.

(** ** The counted connections *)

Definition serving_loc (t : Session) : option positive := match t with Serving _ _ _ loc => Some loc | _ => None end.

Lemma spawned_holder i a e t : spawned i a e = Some t → holder t = None.
Proof. intros Ht. unfold spawned in Ht. repeat case_match; by simplify_eq. Qed.

Lemma holder_serving t : holder t = None → serving_loc t = None.
Proof. by destruct t. Qed.

Definition locs (m : gmap nat Session) : list positive := omap serving_loc (map_to_list m).*2.

Lemma locs_insert n t m : locs (<[n := t]> m) ≡ₚ option_list (serving_loc t) ++ locs (delete n m).
Proof.
  unfold locs. rewrite <- (insert_delete_eq m n t), map_to_list_insert by (apply lookup_delete_eq). cbn [fmap list_fmap snd].
  cbn [omap list_omap]. by destruct (serving_loc t).
Qed.

Lemma locs_at n t m : m !! n = Some t → locs m ≡ₚ option_list (serving_loc t) ++ locs (delete n m).
Proof. intros Hn. rewrite <- (insert_id m n t Hn) at 1. apply locs_insert. Qed.

Lemma locs_new n m : m !! n = None → locs (delete n m) = locs m.
Proof. intros Hn. by rewrite delete_id. Qed.

Lemma length_omap_le {A B} (f : A → option B) l : (length (omap f l) ≤ length l)%nat.
Proof. induction l as [|x l IH]; cbn [omap list_omap length]; [done|]. destruct (f x); cbn [length]; lia. Qed.

Lemma locs_size m : (length (locs m) ≤ size m)%nat.
Proof. unfold locs. etrans; [apply length_omap_le|]. by rewrite length_fmap, length_map_to_list. Qed.

(** The state of the registry is one of Traffic's, with these connections open, and the
    counters that tasks hold exist. *)
Definition held (r : TrafficRegistry) (m : gmap nat Session) : Prop :=
  ∀ n t v loc, m !! n = Some t → holder t = Some (v, loc) → loc ∈ dom (heap r).

Definition accounted (h : list TrafficOp) (s : Servers) : Prop :=
  held (registry s) (sessions s) ∧ ∃ live, traffic_reachable h (registry s, live) ∧ live ≡ₚ locs (sessions s).

Lemma counters_insert r m n t :
  held r m → (∀ v loc, holder t = Some (v, loc) → loc ∈ dom (heap r)) → held r (<[n := t]> m).
Proof. intros Hm Ht n' t' v loc [[_ <-]|[_ Hn]]%lookup_insert_Some; [apply Ht|by apply (Hm n')]. Qed.

Lemma counters_heap r r' m : held r m → dom (heap r) ⊆ dom (heap r') → held r' m.
Proof. intros Hm Hd n t v loc Hn Ht. by apply Hd, (Hm n t v). Qed.

(** What an event counts on a location. *)
Definition uploaded_on (loc : positive) (s : Servers) (e : ServersEvent) : Z :=
  match e with
  | Upload n b => if decide (snd <$> (sessions s !! n ≫= holder) = Some loc) then b else 0
  | _ => 0
  end.

Definition downloaded_on (loc : positive) (s : Servers) (e : ServersEvent) : Z :=
  match e with
  | Download n b => if decide (snd <$> (sessions s !! n ≫= holder) = Some loc) then b else 0
  | _ => 0
  end.

(** A step with the operations on the registry that it makes. *)
Definition accounts (h : list TrafficOp) (s : Servers) (e : ServersEvent) (s' : Servers) : Prop :=
  ∃ h', accounted h' s' ∧ ∀ loc, uploads loc h' = uploads loc h + uploaded_on loc s e ∧
                                 downloads loc h' = downloads loc h + downloaded_on loc s e.

Lemma accounted_session h s n t t' :
  accounted h s → sessions s !! n = t → t ≫= serving_loc = None → holder t' = None → accounted h (set_session n t' s).
Proof.
  intros (Hd & live & Hr & Hl) Ht Hn Hn'. split; [apply counters_insert; [done|by rewrite Hn']|].
  exists live. split; [done|]. rewrite Hl. cbn [sessions set_session].
  rewrite locs_insert, (holder_serving _ Hn'). cbn [option_list app]. destruct t as [t|]; [|by rewrite locs_new].
  rewrite (locs_at n t) by done. cbn in Hn. by rewrite Hn.
Qed.

Lemma accounted_server h i a s : accounted h s → accounted h (set_server i a s).
Proof. done. Qed.

(** A session that was not counted is counted. *)
Lemma accounted_enter h s n t i protocol name :
  accounted h s → sessions s !! n = Some t → serving_loc t = None → Z.of_nat (size (sessions s)) < 2 ^ 64 →
  accounted (TConnect (user (registry s) name).1 :: TUser name :: h) (enter n i protocol name s).
Proof.
  intros (Hd & live & Hr & Hl) Ht Hn Hsize. unfold enter. destruct (user (registry s) name) as [loc r] eqn:Eu. cbn [fst].
  assert (Hloc : loc ∈ dom (heap r)).
  { unfold user, entry_or_default in Eu. destruct (users (registry s) !! name) as [l|] eqn:El.
    - injection Eu as <- <-. by apply (inv_alloc _ _ _ (traffic_reachable_inv _ _ Hr) name).
    - injection Eu as <- <-. cbn. set_solver. }
  split.
  { cbn [registry sessions set_session set_registry]. apply counters_insert; [|intros v l [= _ <-]; cbn; by rewrite dom_alter_L].
    apply (counters_heap (registry s)); [done|]. cbn. rewrite dom_alter_L. pose proof (entry_heap (registry s) name) as He.
    unfold user in Eu. by rewrite Eu in He. }
  exists (loc :: live). split.
  - assert (Hr1 : traffic_reachable (TUser name :: h) (r, live)).
    { replace r with (user (registry s) name).2 by (by rewrite Eu). by apply (traffic_next h (registry s, live) (TUser name)). }
    apply (traffic_next _ (r, live) (TConnect loc)); [done|]. cbn [op_valid fst snd]. split.
    + done.
    + apply Permutation_length in Hl. pose proof (locs_size (delete n (sessions s))) as Hs.
      rewrite map_size_delete_Some in Hs by (by eexists). rewrite (locs_at n t) in Hl by done. rewrite Hn in Hl. cbn in Hl.
      assert (size (sessions s) ≠ O) by (intros E%map_size_empty_inv; by rewrite E in Ht). lia.
  - cbn [sessions set_session set_registry]. rewrite locs_insert. cbn [serving_loc option_list app]. constructor.
    rewrite Hl, (locs_at n t) by done. by rewrite Hn.
Qed.

(** A change of the registry alone. *)
Lemma accounted_op h s op r :
  accounted h s → (∀ live, traffic_step (registry s, live) op = (r, live)) → (∀ live, op_valid (registry s) live op) →
  accounted (op :: h) (set_registry r s).
Proof.
  intros (Hd & live & Hr & Hl) Hop Hv. pose proof (traffic_step_heap (registry s) live op) as Hh. rewrite Hop in Hh.
  split; [by apply (counters_heap (registry s))|]. exists live. split; [|done]. cbn [registry set_registry]. rewrite <- (Hop live).
  by apply traffic_next.
Qed.

Lemma accounted_loc h s n v loc :
  accounted h s → sessions s !! n ≫= holder = Some (v, loc) → loc ∈ dom (heap (registry s)).
Proof. intros [Hd _] (t & Hn & Ht)%bind_Some. by apply (Hd n t v). Qed.

Section accounting.
Context `{Sha256}.

(** An event that counts no bytes. *)
Definition silent (e : ServersEvent) : Prop := match e with Upload _ _ | Download _ _ => False | _ => True end.

Lemma accounts_silent h h' s e s' :
  silent e → accounted h' s' → (∀ loc, uploads loc h' = uploads loc h ∧ downloads loc h' = downloads loc h) →
  accounts h s e s'.
Proof. intros He Ha Hh. exists h'. split; [done|]. intros loc. destruct (Hh loc) as [-> ->]. destruct e; cbn; try done; lia. Qed.

Lemma accounts_over h s e n t t' s1 :
  silent e → accounted h s1 → sessions s1 !! n = Some t → serving_loc t = None → holder t' = None →
  accounts h s e (set_session n t' s1).
Proof. intros He Ha Ht Hn Hn'. apply (accounts_silent h h); [done| |done]. by apply (accounted_session _ _ n (Some t)). Qed.

Lemma accounts_enter h s e n t i protocol name s1 :
  silent e → accounted h s1 → sessions s1 !! n = Some t → serving_loc t = None → Z.of_nat (size (sessions s1)) < 2 ^ 64 →
  accounts h s e (enter n i protocol name s1).
Proof.
  intros He Ha Ht Hn Hsize. apply (accounts_silent h (TConnect (user (registry s1) name).1 :: TUser name :: h)); [done| |done].
  by eapply accounted_enter.
Qed.

Lemma on_loop_accounts h s e n s' : accounted h s → on_loop e n s = Some s' → accounts h s (Loop e n) s'.
Proof.
  intros Ha Hs. apply (accounts_silent h h); [done| |done]. unfold on_loop in Hs.
  apply bind_Some in Hs as ([c a] & _ & Hs). apply bind_Some in Hs as (a' & _ & Hs).
  pose proof (spawned_holder (length (servers s) - 1) a e) as Hspawn.
  destruct (spawned _ a e) as [t|]; [|by destruct e; simplify_eq].
  assert (Hs2 : sessions s !! n = None ∧ s' = set_session n t (set_server (length (servers s) - 1) a' s))
    by (destruct e; try done; case_decide; by simplify_eq).
  destruct Hs2 as [Hn ->]. apply (accounted_session _ _ n None); [done|done|done|by apply Hspawn].
Qed.

Lemma on_auth_quic_accounts h s n i conn padding sent reqs s' :
  accounted h s → sessions s !! n = Some (Handshaking i conn) → Z.of_nat (size (sessions s)) < 2 ^ 64 →
  on_auth_quic n i conn padding sent reqs s = Some s' → accounts h s (AuthQuic n padding sent reqs) s'.
Proof.
  intros Ha Hn Hsize Hs. unfold on_auth_quic in Hs. apply bind_Some in Hs as ([c a] & _ & Hs).
  destruct (authenticate_connection _ _ _ _).2 as [[name rate]|].
  - apply bind_Some in Hs as (loc & _ & [= <-]).
    destruct sent; [by eapply accounts_enter|by eapply accounts_over].
  - injection Hs as <-. by eapply accounts_over.
Qed.

Lemma on_auth_tcp_accounts h s n i peeks upstream tls s' :
  accounted h s → sessions s !! n = Some (Sniffing i) → Z.of_nat (size (sessions s)) < 2 ^ 64 →
  on_auth_tcp n i peeks upstream tls s = Some s' → accounts h s (AuthTcp n peeks upstream tls) s'.
Proof.
  intros Ha Hn Hsize Hs. unfold on_auth_tcp in Hs. apply bind_Some in Hs as ([c a] & _ & [= <-]).
  assert (Hover : ∀ t, holder t = None → accounts h s (AuthTcp n peeks upstream tls) (set_session n t s)).
  { intros t Ht. by eapply accounts_over. }
  assert (Hsame : accounts h s (AuthTcp n peeks upstream tls) (set_session n Over (set_registry (registry s) s))).
  { by eapply accounts_over. }
  assert (Hserve : ∀ protocol name, accounts h s (AuthTcp n peeks upstream tls) (enter n i protocol name s)).
  { intros protocol name. by eapply accounts_enter. }
  assert (Hlook : ∀ name, accounts h s (AuthTcp n peeks upstream tls)
                    (set_session n Over (set_registry (user (registry s) name).2 s))).
  { intros name. apply (accounts_silent h (TUser name :: h)); [done| |done].
    apply (accounted_session _ _ n (Some (Sniffing i))); try done. by apply accounted_op. }
  repeat case_match; simplify_eq; auto.
Qed.

Lemma on_end_accounts h s n t s' :
  accounted h s → sessions s !! n = Some t → on_end n t s = Some s' → accounts h s (End n) s'.
Proof.
  intros Ha Hn Hs. destruct t as [| |i protocol name loc| | |]; cbn in Hs; simplify_eq; try by eapply accounts_over.
  apply (accounts_silent h (TDisconnect loc :: h)); [done| |done]. destruct Ha as (Hd & live & Hr & Hl).
  pose proof (locs_at n _ _ Hn) as Hat. cbn [serving_loc] in Hat. change (locs (sessions s) ≡ₚ loc :: locs (delete n (sessions s))) in Hat.
  assert (Hin : loc ∈ live) by (rewrite Hl, Hat; by left).
  assert (Hheap : dom (heap (registry s)) ⊆ dom (heap (drop_connection loc (registry s)))) by (cbn; by rewrite dom_alter_L).
  split.
  { apply counters_insert; [by apply (counters_heap (registry s))|]. intros v l E.
    assert (l = loc) as -> by (by destruct protocol; cbn in E; simplify_eq). by apply Hheap, (Hd n _ name loc Hn). }
  exists (remove_one loc live). split.
  - by apply (traffic_next h (registry s, live) (TDisconnect loc)).
  - cbn [sessions set_session set_registry]. rewrite locs_insert. cbn [serving_loc].
    change (remove_one loc live ≡ₚ locs (delete n (sessions s))).
    apply (Permutation_cons_inv (a := loc)). by rewrite <- remove_one_perm, Hl, Hat.
Qed.

Lemma servers_step_accounts h s e s' :
  accounted h s → Z.of_nat (size (sessions s)) < 2 ^ 64 → servers_step s e = Some s' → accounts h s e s'.
Proof.
  intros Ha Hsize Hs. destruct e as [c setup|e n|n padding sent reqs|n peeks upstream tls|n b|n b|n]; cbn in Hs.
  - destruct (idle_servers s); [|done]. injection Hs as <-.
    apply (accounts_silent h (TSync (user_name <$> Config.users c) :: h)); [done| |done].
    unfold on_start. destruct (set_up c setup).
    + by apply (accounted_op h s (TSync (user_name <$> Config.users c))).
    + by apply (accounted_op h s (TSync (user_name <$> Config.users c))).
  - by apply on_loop_accounts.
  - repeat case_match; try done. by eapply on_auth_quic_accounts.
  - repeat case_match; try done. by eapply on_auth_tcp_accounts.
  - apply bind_Some in Hs as ([v loc] & En & [= <-]). exists (TUpload loc b :: h). split.
    + apply accounted_op; [done|done|]. intros live. by apply (accounted_loc h s n v).
    + intros l. cbn [uploads downloads uploaded_on downloaded_on]. rewrite En. cbn [fmap option_fmap option_map snd].
      repeat case_decide; simplify_eq; lia.
  - apply bind_Some in Hs as ([v loc] & En & [= <-]). exists (TDownload loc b :: h). split.
    + apply accounted_op; [done|done|]. intros live. by apply (accounted_loc h s n v).
    + intros l. cbn [uploads downloads uploaded_on downloaded_on]. rewrite En. cbn [fmap option_fmap option_map snd].
      repeat case_decide; simplify_eq; lia.
  - apply bind_Some in Hs as (t & Ht & Hs). by eapply on_end_accounts.
Qed.

(** Tasks are not forgotten. *)
Lemma servers_step_dom s e s' : servers_step s e = Some s' → dom (sessions s) ⊆ dom (sessions s').
Proof.
  assert (Hin : ∀ n t (m : gmap nat Session), dom m ⊆ dom (<[n := t]> m)) by (intros; rewrite dom_insert; set_solver).
  intros Hs. destruct e; cbn in Hs; unfold on_start, on_loop, on_auth_quic, on_auth_tcp, on_end, enter in Hs;
    repeat (case_match || (apply bind_Some in Hs as (? & ? & Hs))); simplify_eq; cbn; auto; try done.
Qed.

Lemma servers_step_size s e s' : servers_step s e = Some s' → (size (sessions s) ≤ size (sessions s'))%nat.
Proof. intros Hs%servers_step_dom. rewrite <- !size_dom. by apply subseteq_size. Qed.

Lemma servers_run_size s events s' : servers_run s events = Some s' → (size (sessions s) ≤ size (sessions s'))%nat.
Proof.
  revert s. induction events as [|e events IH]; intros s Hr; cbn in Hr; [by injection Hr as <-|].
  apply bind_Some in Hr as (s1 & Hs & Hr). apply servers_step_size in Hs. apply IH in Hr. lia.
Qed.

(** ** A user that stays *)

(** The user is in the configuration that an event brings. *)
Definition stays (u : str) (e : ServersEvent) : Prop := match e with Start c _ => u ∈ user_name <$> Config.users c | _ => True end.

(** The counters of a user, which its sessions and no others hold. *)
Record kept (u : str) (loc : positive) (s : Servers) : Prop := {
  kept_user : users (registry s) !! u = Some loc;
  kept_named : ∀ n t v l, sessions s !! n = Some t → holder t = Some (v, l) → v = u ↔ l = loc;
}.

Lemma kept_entry u loc r v : users r !! u = Some loc → users (user r v).2 !! u = Some loc.
Proof.
  intros Hu. unfold user, entry_or_default. destruct (users r !! v) eqn:Ev; [done|]. cbn. rewrite lookup_insert_ne; [done|congruence].
Qed.

Lemma kept_session u loc s n t :
  kept u loc s → (∀ v l, holder t = Some (v, l) → v = u ↔ l = loc) → kept u loc (set_session n t s).
Proof.
  intros [Hu Hn] Ht. split; [done|]. cbn [sessions set_session].
  intros m t' v l [[-> ->]|[_ Hm]]%lookup_insert_Some; [by apply Ht|by apply (Hn m)].
Qed.

Lemma kept_registry u loc s r : kept u loc s → users r !! u = Some loc → kept u loc (set_registry r s).
Proof. intros [Hu Hn] Hr. by split. Qed.

Lemma kept_server u loc s i a : kept u loc s → kept u loc (set_server i a s).
Proof. intros [Hu Hn]. by split. Qed.

Lemma kept_enter u loc h s n i protocol v : accounted h s → kept u loc s → kept u loc (enter n i protocol v s).
Proof.
  intros (_ & live & Hr%traffic_reachable_inv & _) Hk. cbn [fst snd] in Hr. unfold enter.
  pose proof (kept_entry u loc (registry s) v (kept_user _ _ _ Hk)) as Hu.
  destruct (user (registry s) v) as [l r] eqn:El. cbn [snd] in Hu. apply kept_session; [by apply kept_registry|].
  intros v' l' [= <- <-]. unfold user, entry_or_default in El. pose proof (kept_user _ _ _ Hk) as Hl.
  destruct (users (registry s) !! v) as [l1|] eqn:Ev.
  - injection El as <- <-. split; [congruence|]. intros ->. by apply (inv_distinct _ _ _ Hr v u loc).
  - injection El as <- <-. split; [congruence|]. intros E. apply (inv_alloc _ _ _ Hr) in Hl. rewrite <- E in Hl.
    by apply is_fresh in Hl.
Qed.

Hint Resolve kept_session kept_registry kept_server kept_entry kept_user : core.

Lemma servers_step_kept u loc h s e s' :
  accounted h s → kept u loc s → stays u e → servers_step s e = Some s' → kept u loc s'.
Proof.
  intros Ha Hk He Hs.
  assert (Hover : ∀ n t s, kept u loc s → holder t = None → kept u loc (set_session n t s)).
  { intros n t s1 Hk1 Ht. apply kept_session; [done|]. by rewrite Ht. }
  assert (Hupdate : ∀ f l, kept u loc (set_registry (update f l (registry s)) s)) by (intros; apply kept_registry; [done|apply Hk]).
  destruct e as [c setup|e n|n padding sent reqs|n peeks upstream tls|n b|n b|n]; cbn in Hs.
  - destruct (idle_servers s); [|done]. injection Hs as <-. unfold on_start.
    pose proof (proj2 (sync_users_spec (registry s) (user_name <$> Config.users c)) u loc He (kept_user _ _ _ Hk)) as Hu.
    destruct Hk as [_ Hn]. destruct (set_up c setup); by split.
  - unfold on_loop in Hs. apply bind_Some in Hs as ([c a] & _ & Hs). apply bind_Some in Hs as (a' & _ & Hs).
    pose proof (spawned_holder (length (servers s) - 1) a e) as Hspawn.
    destruct (spawned _ a e) as [t|]; destruct e; try case_decide; simplify_eq; auto.
  - destruct (sessions s !! n) as [[i conn| | | | |]|]; try done. unfold on_auth_quic in Hs.
    apply bind_Some in Hs as ([c a] & _ & Hs). destruct (authenticate_connection _ _ _ _).2 as [[name rate]|]; simplify_eq; auto.
    apply bind_Some in Hs as (l & _ & [= <-]). destruct sent; [|auto]. apply (kept_enter _ _ h); auto.
  - destruct (sessions s !! n) as [[|i| | | |]|]; try done. unfold on_auth_tcp in Hs.
    apply bind_Some in Hs as ([c a] & _ & [= <-]). pose proof (kept_enter u loc h s n i) as Hen.
    repeat case_match; simplify_eq; auto 6.
  - apply bind_Some in Hs as ([v l] & _ & [= <-]). apply Hupdate.
  - apply bind_Some in Hs as ([v l] & _ & [= <-]). apply Hupdate.
  - apply bind_Some in Hs as (t & Ht & Hs). destruct t as [| |i protocol v l| | |]; cbn in Hs; simplify_eq; auto.
    apply kept_session; [apply Hupdate|]. intros v' l' E. apply (kept_named _ _ _ Hk n _ v' l' Ht).
    by destruct protocol; cbn in E; simplify_eq.
Qed.

(** The sessions of a user, and those of its tasks that count; what they have counted in
    a run. *)
Definition named (u : str) (t : Session) : bool := match t with Serving _ _ v _ => str_eqb v u | _ => false end.

Definition counts_for (u : str) (t : Session) : bool :=
  match holder t with Some (v, _) => str_eqb v u | None => false end.

Definition event_bytes (up : bool) (u : str) (s : Servers) (e : ServersEvent) : Z :=
  match e, up with
  | Upload n b, true | Download n b, false =>
      match sessions s !! n with Some t => if counts_for u t then b else 0 | None => 0 end
  | _, _ => 0
  end.

Fixpoint run_bytes (up : bool) (u : str) (s : Servers) (events : list ServersEvent) : Z :=
  match events with
  | [] => 0
  | e :: events =>
      event_bytes up u s e + match servers_step s e with Some s => run_bytes up u s events | None => 0 end
  end.

Lemma named_iff u loc s n t : kept u loc s → sessions s !! n = Some t → named u t = bool_decide (serving_loc t = Some loc).
Proof.
  intros [_ Hn] Ht. destruct t as [| |i protocol v l| | |]; cbn; try done.
  specialize (Hn n _ v l Ht eq_refl). unfold str_eqb. apply bool_decide_ext. naive_solver.
Qed.

Lemma counts_iff u loc s n t :
  kept u loc s → sessions s !! n = Some t → counts_for u t = bool_decide (snd <$> holder t = Some loc).
Proof.
  intros [_ Hn] Ht. unfold counts_for. destruct (holder t) as [[v l]|] eqn:E; cbn; [|done].
  specialize (Hn n _ v l Ht E). unfold str_eqb. apply bool_decide_ext. naive_solver.
Qed.

Lemma event_bytes_on u loc s e :
  kept u loc s → event_bytes true u s e = uploaded_on loc s e ∧ event_bytes false u s e = downloaded_on loc s e.
Proof.
  intros Hk.
  assert (Hb : ∀ n b, match sessions s !! n with Some t => if counts_for u t then b else 0 | None => 0 end
                      = if decide (snd <$> (sessions s !! n ≫= holder) = Some loc) then b else 0).
  { intros n b. destruct (sessions s !! n) as [t|] eqn:En; cbn [mbind option_bind]; [|done].
    rewrite (counts_iff u loc s n t Hk En). case_bool_decide; by case_decide. }
  destruct e; cbn; rewrite ?Hb; done.
Qed.

(** A run in which the user stays. *)
Lemma servers_run_kept u loc h s events s' :
  accounted h s → kept u loc s → Forall (stays u) events → servers_run s events = Some s' →
  Z.of_nat (size (sessions s')) < 2 ^ 64 →
  ∃ h', accounted h' s' ∧ kept u loc s' ∧
    uploads loc h' = uploads loc h + run_bytes true u s events ∧
    downloads loc h' = downloads loc h + run_bytes false u s events.
Proof.
  intros Ha Hk Hall Hr Hsize. revert h s Ha Hk Hr. induction Hall as [|e events He _ IH]; intros h s Ha Hk Hr; cbn in Hr.
  { injection Hr as <-. exists h. cbn. split_and!; try done; lia. }
  apply bind_Some in Hr as (s1 & Hs & Hr). cbn [run_bytes]. rewrite Hs.
  pose proof (servers_run_size _ _ _ Hr). pose proof (servers_step_size _ _ _ Hs).
  destruct (servers_step_accounts h s e s1) as (h1 & Ha1 & Hb); [done|lia|done|].
  destruct (IH h1 s1) as (h' & ? & ? & Hu & Hd); [done|by apply (servers_step_kept u loc h s e)|done|].
  exists h'. destruct (Hb loc) as [Hu1 Hd1]. destruct (event_bytes_on u loc s e Hk) as [-> ->]. split_and!; try done; lia.
Qed.

Lemma servers_run_accounted h s events s' :
  accounted h s → servers_run s events = Some s' → Z.of_nat (size (sessions s')) < 2 ^ 64 → ∃ h', accounted h' s'.
Proof.
  intros Ha Hr Hsize. revert h s Ha Hr. induction events as [|e events IH]; intros h s Ha Hr; cbn in Hr.
  { injection Hr as <-. by exists h. }
  apply bind_Some in Hr as (s1 & Hs & Hr). pose proof (servers_run_size _ _ _ Hr). pose proof (servers_step_size _ _ _ Hs).
  destruct (servers_step_accounts h s e s1) as (h1 & Ha1 & _); [done|lia|done|]. by apply (IH h1 s1).
Qed.

(** How many sessions of a user are counted. *)
Definition open_sessions (u : str) (s : Servers) : Z :=
  Z.of_nat (length (filter (fun nt => named u nt.2 = true) (map_to_list (sessions s)))).

Lemma open_sessions_count u loc s : kept u loc s → open_sessions u s = open_count loc (locs (sessions s)).
Proof.
  intros Hk. unfold open_sessions, open_count, locs. f_equal.
  assert (Hall : Forall (fun nt => named u nt.2 = bool_decide (serving_loc nt.2 = Some loc)) (map_to_list (sessions s))).
  { apply Forall_forall. intros [n t] Hin%elem_of_map_to_list. by apply (named_iff u loc s n). }
  induction Hall as [|[n t] l Hnt _ IH]; [done|]. cbn [fmap list_fmap omap list_omap snd] in *.
  rewrite filter_cons. cbn [snd] in *. rewrite Hnt. destruct (serving_loc t) as [l0|]; cbn [option_list].
  - rewrite filter_cons. destruct (decide (l0 = loc)) as [->|Hne].
    + rewrite bool_decide_eq_true_2, decide_True by done. cbn [length]. by rewrite IH.
    + rewrite bool_decide_eq_false_2, decide_False by congruence. done.
  - by rewrite bool_decide_eq_false_2, decide_False by done.
Qed.
End accounting.

(** ** Who is served *)

Section served.
Context `{Sha256}.

(** What a client has shown: a password of the configuration in an authorized request,
    or a user's identifier after the version. *)
Definition authentic (events : list ServersEvent) (n : nat) (c : Config) (protocol : Protocol) (name : str) : Prop :=
  ∃ u, u ∈ Config.users c ∧ user_name u = name ∧
  match protocol with
  | Hy2 => ∃ padding sent reqs req, AuthQuic n padding sent reqs ∈ events ∧ req ∈ reqs ∧
             authorized (options_of c) req = true ∧ default [] (auth_header req) = user_password u
  | VlessTcp | VlessUdp =>
      ∃ peeks upstream stream rest, AuthTcp n peeks upstream (Some stream) ∈ events ∧
        read_exact 17 stream = Ok (0 :: user_id name (user_password u), rest)
  end.

Lemma authenticate_Ok c padding reqs name rate :
  (authenticate_connection (fun _ _ => tt) padding (options_of c) reqs).2 = Ok (name, rate) →
  ∃ req u, req ∈ reqs ∧ authorized (options_of c) req = true ∧ u ∈ Config.users c ∧ user_name u = name ∧
    default [] (auth_header req) = user_password u ∧
    rate = negotiated_rate (server_limit (options_of c)) (client_receive_bps req).
Proof.
  induction reqs as [|req reqs IH]; cbn [authenticate_connection]; [done|]. destruct (authorized _ req) eqn:Ea.
  - destruct (presented_user _ req) as [v|] eqn:Ev; [|done]. destruct padding; [|done]. intros [= <- <-].
    apply collect_map_Some in Ev as (u & Hu & Hp & Hn). exists req, u. split_and!; try done. by left.
  - destruct (read_body _ _); [|done]. destruct (authenticate_connection _ _ _ reqs) as [replies r]. cbn [snd] in *.
    intros Hr. destruct (IH Hr) as (q & u & Hq & Hrest). exists q, u. split; [by right|done].
Qed.

Lemma tcp_serve_Ok us stream r :
  tcp_serve (vless_users us) stream = Ok r →
  ∃ u rest, u ∈ us ∧ read_exact 17 stream = Ok (0 :: user_id (user_name u) (user_password u), rest) ∧
    match r with ServeTcp name _ _ | ServeUdp name _ _ => name = user_name u end.
Proof.
  unfold tcp_serve. intros Hr. destruct (read_exact 17 stream) as [[prefix rest]|] eqn:E; [|done].
  cbn [rmap_err mbind result_bind] in Hr. pose proof (read_exact_Ok _ _ _ _ E) as [_ Hl].
  destruct prefix as [|v id]; [done|]. cbn [safe_get nth drop] in Hr. rewrite drop_0 in Hr.
  destruct (Z.eqb_spec v 0) as [->|]; [|done]. cbn [negb] in Hr.
  destruct (vless_users us !! id) as [name|] eqn:Eu; [|done]. apply collect_map_Some in Eu as (u & Hu & <- & <-).
  cbn [ok_or mbind result_bind] in Hr. exists u, rest. split_and!; try done. unfold vless_serve in Hr.
  res_inv. repeat (case_match; res_inv); by simplify_eq.
Qed.

(** The server, the protocol and the user of a session that was authenticated. *)
Definition client (t : Session) : option (nat * Protocol * str) :=
  match t with
  | Serving i protocol name _ => Some (i, protocol, name)
  | Left i protocol name _ => Some (i, protocol, name)
  | _ => None
  end.

Lemma spawned_client i a e t : spawned i a e = Some t → client t = None.
Proof. intros Ht. unfold spawned in Ht. repeat case_match; by simplify_eq. Qed.

(** ** The servers *)

Lemma accept_run_snoc s0 events s e s' :
  accept_run s0 events = Some s → accept_step s e = Some s' → accept_run s0 (events ++ [e]) = Some s'.
Proof.
  revert s0. induction events as [|e0 events IH]; intros s0 Hr Hs; cbn in Hr |- *.
  - injection Hr as <-. by rewrite Hs.
  - apply bind_Some in Hr as (s1 & -> & Hr). cbn [mbind option_bind]. by apply IH.
Qed.

Lemma accept_step_limit s e s' : accept_step s e = Some s' → server_limit_bps (factory s') = server_limit_bps (factory s).
Proof.
  intros Hs. destruct e; cbn in Hs; destruct (loop s); try done; repeat case_match; simplify_eq; cbn; try done;
    apply bind_Some in Hs as (? & Hx & Hs); repeat case_match; simplify_eq; cbn; try done;
    unfold take_pending_rate in Hx; by repeat case_match; simplify_eq.
Qed.

Lemma accept_run_limit s events s' :
  accept_run s events = Some s' → server_limit_bps (factory s') = server_limit_bps (factory s).
Proof.
  revert s. induction events as [|e events IH]; intros s Hr; cbn in Hr; [by injection Hr as <-|].
  apply bind_Some in Hr as (s1 & Hs & Hr). rewrite (IH _ Hr). by apply (accept_step_limit s e).
Qed.

Record servers_ok (events : list ServersEvent) (s : Servers) : Prop := {
  so_closed : ∀ i ca, servers s !! i = Some ca → (S i < length (servers s))%nat → is_closed ca.2 = true;
  so_loop : ∀ i c a, servers s !! i = Some (c, a) →
    ∃ accepts, accept_run (accepting_init (server_limit (options_of c))) accepts = Some a;
  so_started : ∀ i c a, servers s !! i = Some (c, a) → ∃ setup, Start c setup ∈ events ∧ set_up c setup = Ok tt;
  so_client : ∀ n t i protocol name, sessions s !! n = Some t → client t = Some (i, protocol, name) →
    ∃ c a, servers s !! i = Some (c, a) ∧ authentic events n c protocol name;
}.

Lemma servers_ok_init : servers_ok [] servers_init.
Proof. by split. Qed.

Lemma authentic_app events events' n c protocol name :
  authentic events n c protocol name → authentic (events ++ events') n c protocol name.
Proof.
  intros (u & Hu & Hn & Hp). exists u. split_and!; [done|done|]. destruct protocol.
  - destruct Hp as (padding & sent & reqs & req & Hin & ?). exists padding, sent, reqs, req. split; [set_solver|done].
  - destruct Hp as (peeks & upstream & stream & rest & Hin & ?). exists peeks, upstream, stream, rest. split; [set_solver|done].
  - destruct Hp as (peeks & upstream & stream & rest & Hin & ?). exists peeks, upstream, stream, rest. split; [set_solver|done].
Qed.

Lemma servers_ok_app events events' s : servers_ok events s → servers_ok (events ++ events') s.
Proof.
  intros [H1 H2 H3 H4]. split; try done.
  - intros i c a Hi. destruct (H3 i c a Hi) as (setup & Hin & Hset). exists setup. split; [set_solver|done].
  - intros n t i protocol name Hn Ht. destruct (H4 n t i protocol name Hn Ht) as (c & a & Hc & Ha). exists c, a.
    split; [done|by apply authentic_app].
Qed.

Lemma servers_ok_session events s n t :
  servers_ok events s →
  (∀ i protocol name, client t = Some (i, protocol, name) →
     ∃ c a, servers s !! i = Some (c, a) ∧ authentic events n c protocol name) →
  servers_ok events (set_session n t s).
Proof.
  intros [H1 H2 H3 H4] Ht. split; try done. cbn [sessions set_session].
  intros m t' i protocol name [[<- <-]|[_ Hm]]%lookup_insert_Some; [by apply Ht|by apply (H4 m)].
Qed.

Lemma servers_ok_over events s n t : servers_ok events s → client t = None → servers_ok events (set_session n t s).
Proof. intros Hs Ht. apply servers_ok_session; [done|]. by rewrite Ht. Qed.

Lemma servers_ok_registry events s r : servers_ok events s → servers_ok events (set_registry r s).
Proof. intros [H1 H2 H3 H4]. by split. Qed.

(** A step of the loop of a server, which stays closed unless it is the last. *)
Lemma servers_ok_server events s i c a e a' :
  servers_ok events s → servers s !! i = Some (c, a) → accept_step a e = Some a' →
  ((S i < length (servers s))%nat → is_closed a' = is_closed a) → servers_ok events (set_server i a' s).
Proof.
  intros [H1 H2 H3 H4] Hi Hstep Hc.
  assert (Hl : ∀ j ca, alter (fun ca => (ca.1, a')) i (servers s) !! j = Some ca →
    ∃ b, servers s !! j = Some (ca.1, b) ∧ (ca.2 = b ∨ j = i ∧ b = a ∧ ca.2 = a')).
  { intros j ca Hj. destruct (decide (j = i)) as [->|Hne].
    - rewrite list_lookup_alter_eq, Hi in Hj. injection Hj as <-. exists a. split; [done|]. by right.
    - rewrite list_lookup_alter_ne in Hj by done. exists ca.2. split; [by destruct ca|by left]. }
  split; cbn [servers set_server sessions].
  - intros j ca Hj. rewrite length_alter. destruct (Hl j ca Hj) as (b & Hb & Hcase). intros Hlt.
    pose proof (H1 j _ Hb Hlt) as Hcl. cbn [snd] in Hcl. destruct Hcase as [->|(-> & -> & ->)]; [done|]. by rewrite Hc.
  - intros j c' b' Hj. destruct (Hl j _ Hj) as (b & Hb & Hcase). cbn [fst snd] in *.
    destruct (H2 j c' b Hb) as [accepts Hrun]. destruct Hcase as [->|(-> & -> & ->)]; [by exists accepts|].
    exists (accepts ++ [e]). by apply (accept_run_snoc _ _ a).
  - intros j c' b' Hj. destruct (Hl j _ Hj) as (b & Hb & _). by apply (H3 j c' b).
  - intros n t j protocol name Hn Ht. destruct (H4 n t j protocol name Hn Ht) as (c' & b & Hj & Hau).
    destruct (decide (j = i)) as [->|Hne].
    + rewrite list_lookup_alter_eq, Hj. exists c', a'. by split.
    + rewrite list_lookup_alter_ne by done. by exists c', b.
Qed.

Lemma servers_ok_enter events s n i c a protocol name :
  servers_ok events s → servers s !! i = Some (c, a) → authentic events n c protocol name →
  servers_ok events (enter n i protocol name s).
Proof.
  intros Hs Hi Ha. unfold enter. destruct (user (registry s) name) as [loc r].
  apply servers_ok_session; [by apply servers_ok_registry|]. intros i' p' name' [= <- <- <-]. by exists c, a.
Qed.

Hint Resolve servers_ok_over servers_ok_registry : core.

Lemma on_start_ok events s c setup :
  servers_ok events s → idle_servers s = true → servers_ok (events ++ [Start c setup]) (on_start c setup s).
Proof.
  intros Hok%(servers_ok_app _ [Start c setup]) Hidle. unfold on_start.
  destruct (set_up c setup) as [[]|] eqn:Hset; [|by apply servers_ok_registry].
  destruct Hok as [H1 H2 H3 H4]. split; cbn [servers sessions set_registry].
  - intros i ca Hi Hlt. rewrite length_app in Hlt. cbn [length] in Hlt.
    rewrite lookup_app_l in Hi by lia. destruct (decide (S i < length (servers s))%nat); [by apply (H1 i)|].
    unfold idle_servers in Hidle. rewrite last_lookup in Hidle. replace (pred (length (servers s))) with i in Hidle by lia.
    rewrite Hi in Hidle. by destruct ca.
  - intros i c' a [Hi|[_ Hi]]%lookup_app_Some; [by apply (H2 i)|]. apply list_lookup_singleton_Some in Hi as [_ [= <- <-]].
    by exists [].
  - intros i c' a [Hi|[_ Hi]]%lookup_app_Some; [by apply (H3 i c' a)|].
    apply list_lookup_singleton_Some in Hi as [_ [= <- <-]]. exists setup. split; [set_solver|done].
  - intros n t i protocol name Hn Ht. destruct (H4 n t i protocol name Hn Ht) as (c' & a & Hi & Ha). exists c', a.
    split; [by apply lookup_app_l_Some|done].
Qed.

Lemma on_loop_ok events s e n s' : servers_ok events s → on_loop e n s = Some s' → servers_ok events s'.
Proof.
  intros Hok Hs. unfold on_loop in Hs. set (i := (length (servers s) - 1)%nat) in *.
  apply bind_Some in Hs as ([c a] & Hi & Hs). apply bind_Some in Hs as (a' & Ha & Hs).
  assert (Hok' : servers_ok events (set_server i a' s)) by (apply (servers_ok_server _ _ _ c a e); [done|done|done|lia]).
  pose proof (spawned_client i a e) as Hspawn.
  destruct (spawned i a e) as [t|]; destruct e; try case_decide; simplify_eq; auto.
Qed.

Lemma on_auth_quic_ok events s n i conn padding sent reqs s' :
  servers_ok events s → on_auth_quic n i conn padding sent reqs s = Some s' →
  servers_ok (events ++ [AuthQuic n padding sent reqs]) s'.
Proof.
  intros Hok%(servers_ok_app _ [AuthQuic n padding sent reqs]) Hs. unfold on_auth_quic in Hs.
  apply bind_Some in Hs as ([c a] & Hi & Hs).
  destruct (authenticate_connection _ _ _ _).2 as [[name rate]|] eqn:Eauth; [|injection Hs as <-; auto].
  apply authenticate_Ok in Eauth as (req & u & Hreq & Hauth & Hu & Hname & Hpw & ->).
  apply bind_Some in Hs as (loc & Hloc & [= <-]).
  set (a' := {| factory := set_cell loc _ (factory a) |}). destruct (so_loop _ _ Hok i c a Hi) as [accepts Hrun].
  assert (Hstep : accept_step a (Negotiated conn (client_receive_bps req)) = Some a').
  { cbn. rewrite Hloc, (accept_run_limit _ _ _ Hrun). by destruct (loop a). }
  assert (Hok' : servers_ok (events ++ [AuthQuic n padding sent reqs]) (set_server i a' s))
    by (by apply (servers_ok_server _ _ _ c a (Negotiated conn (client_receive_bps req)))).
  destruct sent; [|by apply servers_ok_over].
  apply (servers_ok_enter _ _ _ _ c a'); [done| |].
  - cbn. by rewrite list_lookup_alter_eq, Hi.
  - exists u. split_and!; [done|done|]. exists padding, true, reqs, req. split; [set_solver|done].
Qed.

Lemma on_auth_tcp_ok events s n i peeks upstream tls s' :
  servers_ok events s → on_auth_tcp n i peeks upstream tls s = Some s' →
  servers_ok (events ++ [AuthTcp n peeks upstream tls]) s'.
Proof.
  intros Hok%(servers_ok_app _ [AuthTcp n peeks upstream tls]) Hs. unfold on_auth_tcp in Hs.
  apply bind_Some in Hs as ([c a] & Hi & [= <-]).
  assert (Hserve : ∀ stream r, tls = Some stream → tcp_serve (vless_users (Config.users c)) stream = Ok r →
    match r with
    | ServeTcp name _ _ => servers_ok (events ++ [AuthTcp n peeks upstream tls]) (enter n i VlessTcp name s)
    | ServeUdp name _ _ => servers_ok (events ++ [AuthTcp n peeks upstream tls]) (enter n i VlessUdp name s)
    end).
  { intros stream r -> (u & rest & Hu & Hread & Hname)%tcp_serve_Ok.
    destruct r as [name dest more|name dest more]; subst name; apply (servers_ok_enter _ _ _ _ c a); try done;
      exists u; (split_and!; [done|done|]); exists peeks, upstream, stream, rest; (split; [set_solver|done]). }
  repeat case_match; simplify_eq; auto 6;
    match goal with E : tcp_serve _ _ = Ok _ |- _ => exact (Hserve _ _ eq_refl E) end.
Qed.

Lemma servers_step_ok events s e s' :
  servers_ok events s → servers_step s e = Some s' → servers_ok (events ++ [e]) s'.
Proof.
  intros Hok Hs. destruct e as [c setup|e n|n padding sent reqs|n peeks upstream tls|n b|n b|n]; cbn in Hs.
  - destruct (idle_servers s) eqn:E; [|done]. injection Hs as <-. by apply on_start_ok.
  - by apply servers_ok_app, (on_loop_ok events s e n).
  - repeat case_match; try done. by eapply on_auth_quic_ok.
  - repeat case_match; try done. by eapply on_auth_tcp_ok.
  - apply bind_Some in Hs as ([v l] & _ & [= <-]). by apply servers_ok_registry, servers_ok_app.
  - apply bind_Some in Hs as ([v l] & _ & [= <-]). by apply servers_ok_registry, servers_ok_app.
  - apply bind_Some in Hs as (t & Ht & Hs). apply servers_ok_app.
    destruct t as [| |i protocol v l| | |]; cbn in Hs; simplify_eq; auto.
    apply servers_ok_session; [auto|]. intros i' p' v' E. cbn [servers set_registry].
    by apply (so_client _ _ Hok n _ i' p' v' Ht).
Qed.

Lemma servers_run_ok events s later s' :
  servers_ok events s → servers_run s later = Some s' → servers_ok (events ++ later) s'.
Proof.
  revert events s. induction later as [|e later IH]; intros events s Hok Hr; cbn in Hr.
  - injection Hr as <-. by rewrite app_nil_r.
  - apply bind_Some in Hr as (s1 & Hs & Hr). rewrite cons_middle, app_assoc. apply (IH _ s1); [|done].
    by apply (servers_step_ok _ s).
Qed.
End served.

Section runs.
Context `{Sha256} `{HashIter}.

Lemma servers_first e events s :
  servers_run servers_init (e :: events) = Some s → ∃ c setup, e = Start c setup.
Proof. intros Hr. destruct e; cbn in Hr; try done. by eexists _, _. Qed.

Lemma accounted_init : accounted [] servers_init.
Proof. split; [done|]. exists []. by split; [constructor|]. Qed.

Lemma kept_start c setup u :
  u ∈ user_name <$> Config.users c → ∃ loc, kept u loc (on_start c setup servers_init).
Proof.
  intros Hu. pose proof (proj1 (sync_users_spec empty_registry (user_name <$> Config.users c))) as Hd.
  assert (Hin : u ∈ dom (users (sync_users empty_registry (user_name <$> Config.users c)))) by (rewrite Hd; set_solver).
  apply elem_of_dom in Hin as [loc Hloc]. exists loc. unfold on_start. destruct (set_up c setup); by split.
Qed.

Lemma registry_counts h s u loc :
  accounted h s → users (registry s) !! u = Some loc →
  ∃ t, (u, t) ∈ snapshots (registry s) ∧ uploaded_bytes t = wrap 64 (uploads loc h) ∧
    downloaded_bytes t = wrap 64 (downloads loc h) ∧ active_connections t = open_count loc (locs (sessions s)).
Proof.
  intros (_ & live & Hr%traffic_reachable_inv & Hl) Hu. cbn [fst snd] in Hr.
  pose proof (inv_alloc _ _ _ Hr u loc Hu) as [t Ht]%elem_of_dom. exists t.
  destruct (inv_counts _ _ _ Hr loc t Ht) as (? & ? & Hc). rewrite <- (open_count_perm loc _ _ Hl). split_and!; try done.
  rewrite snapshots_perm. apply list_elem_of_fmap. exists (u, loc). cbn. rewrite Ht. split; [done|].
  by apply elem_of_map_to_list.
Qed.

(** What is listed for a user that every configuration has named. *)
Lemma listed_traffic u events s :
  servers_run servers_init events = Some s → Z.of_nat (size (sessions s)) < 2 ^ 64 →
  events ≠ [] → Forall (stays u) events →
  ∃ t, (u, t) ∈ snapshots (registry s) ∧ active_connections t = open_sessions u s ∧
    uploaded_bytes t = wrap 64 (run_bytes true u servers_init events) ∧
    downloaded_bytes t = wrap 64 (run_bytes false u servers_init events).
Proof.
  intros Hr Hsize Hne Hall. destruct events as [|e events]; [done|]. destruct (servers_first e events s Hr) as (c & setup & ->).
  apply Forall_cons in Hall as [Hu Hall]. cbn [servers_run servers_step mbind option_bind] in Hr.
  change (servers_run (on_start c setup servers_init) events = Some s) in Hr.
  destruct (kept_start c setup u Hu) as [loc Hk].
  assert (Hstart : servers_step servers_init (Start c setup) = Some (on_start c setup servers_init)) by done.
  destruct (servers_step_accounts [] _ _ _ accounted_init ltac:(done) Hstart) as (h1 & Ha1 & Hb1).
  destruct (servers_run_kept u loc h1 _ events s Ha1 Hk Hall Hr Hsize) as (h' & Ha' & Hk' & Hup & Hdown).
  destruct (registry_counts h' s u loc Ha' (kept_user _ _ _ Hk')) as (t & Ht & Hu1 & Hd1 & Hc1).
  exists t. cbn [run_bytes]. rewrite Hstart. destruct (Hb1 loc) as [Hz1 Hz2]. cbn in Hz1, Hz2.
  rewrite (open_sessions_count u loc s Hk'), Hu1, Hd1, Hup, Hdown, Hz1, Hz2. done.
Qed.

(** Claim C5. Whatever the history of servers that are started, accept connections and are
    shut down, over one registry of traffic: only the last server can be running, each
    one was set up in every part, and the state of its accept loop is one that the loop
    reaches; every connection that is served, or has left streams that still count, was
    authenticated, by a password or an identifier of a user of the configuration of the
    server that accepted it; a user
    that the registry lists has as many active connections as sessions hold its
    counters; and a user that every configuration has named is listed with exactly its
    sessions, of whichever server, and with all bytes that they and the streams they left have ever counted. *)
Theorem servers_run_spec events s :
  servers_run servers_init events = Some s → Z.of_nat (size (sessions s)) < 2 ^ 64 →
  (∀ i ca, servers s !! i = Some ca → (S i < length (servers s))%nat → is_closed ca.2 = true) ∧
  (∀ i c a, servers s !! i = Some (c, a) →
     (∃ setup, Start c setup ∈ events ∧ set_up c setup = Ok tt) ∧
     ∃ accepts, accept_run (accepting_init (server_limit (options_of c))) accepts = Some a) ∧
  (∀ n t i protocol name, sessions s !! n = Some t → client t = Some (i, protocol, name) →
     ∃ c a, servers s !! i = Some (c, a) ∧ authentic events n c protocol name) ∧
  (∀ u loc, users (registry s) !! u = Some loc →
     ∃ t, (u, t) ∈ snapshots (registry s) ∧ active_connections t = open_count loc (locs (sessions s))) ∧
  (∀ u, events ≠ [] → Forall (stays u) events →
     ∃ t, (u, t) ∈ snapshots (registry s) ∧ active_connections t = open_sessions u s ∧
       uploaded_bytes t = wrap 64 (run_bytes true u servers_init events) ∧
       downloaded_bytes t = wrap 64 (run_bytes false u servers_init events)).
Proof.
  intros Hr Hsize. pose proof (servers_run_ok [] _ _ _ servers_ok_init Hr) as Hok. cbn [app] in Hok.
  destruct (servers_run_accounted _ _ _ _ accounted_init Hr Hsize) as [h Hacc]. split_and!.
  - apply (so_closed _ _ Hok).
  - intros i c a Hi. split; [by apply (so_started _ _ Hok i c a)|by apply (so_loop _ _ Hok i)].
  - apply (so_client _ _ Hok).
  - intros u loc Hu. destruct (registry_counts h s u loc Hacc Hu) as (t & Ht & _ & _ & Ha). by exists t.
  - intros u Hne Hall. by apply listed_traffic.
Qed.
End runs.

(** ** A history *)

(** The names that the last server has. *)
Definition server_users (s : Servers) : option (list str) := (fun ca => user_name <$> Config.users ca.1) <$> last (servers s).

Section example_servers.
Let sha := example_sha256.
#[local] Existing Instance sha.

Definition example_setup : Setup := {|
  quic_files := {| certificates := Some [true]; key_readable := true; tls_accepts := true |}; quic_accepts := true;
  udp_fails _ := false; tcp_fails _ := false;
  tcp_files := {| certificates := Some [true]; key_readable := true; tls_accepts := true |} |}.

(** The configuration with another user. *)
Definition example_without : Config := {|
  listen := listen example_config; tls := tls example_config;
  Config.users := [{| user_name := lit "other"; user_password := lit "hidden" |}]; ssh := ssh example_config;
  bandwidth := bandwidth example_config; udp := udp example_config; outbound := outbound example_config; obfs := None;
  masquerade := None; share := None |}.

(** A VLESS request of the first user, to 10.0.0.1. *)
Definition example_vless : Stream := [[0] ++ user_id (lit "poetry") (lit "secret") ++ [0; 1; 0; 80; 1; 10; 0; 0; 1]].

(** A client of each protocol, one after the other; a stream of the first outlives it. *)
Definition example_history (c : Config) : list ServersEvent :=
  [Start example_config example_setup; Loop (QuicIncoming 1) 0; Loop (Built 1) 0; Loop TakeRate 7;
   AuthQuic 7 (Some (lit "pad")) true Auth.example_requests; Upload 7 1024; Loop TcpIncoming 8; Loop Shutdown 0; End 7;
   Upload 7 6; Start c example_setup; AuthTcp 8 [] false (Some example_vless); Download 8 70].

Definition example_after (c : Config) : Servers := default servers_init (servers_run servers_init (example_history c)).

Lemma servers_run_spec_witness :
  open_sessions (lit "poetry") (example_after example_config) = 1 ∧
  ∃ t, (lit "poetry", t) ∈ @snapshots hash_iter_sorted (registry (example_after example_config)) ∧
    active_connections t = 1 ∧ uploaded_bytes t = 1030 ∧ downloaded_bytes t = 70.
Proof.
  split; [vm_compute; reflexivity|].
  destruct (@servers_run_spec sha hash_iter_sorted (example_history example_config) (example_after example_config))
    as (_ & _ & _ & _ & Hstays); [vm_compute; reflexivity|vm_compute; reflexivity|].
  destruct (Hstays (lit "poetry")) as (t & Ht & Ha & Hu & Hd); [discriminate| |].
  - repeat apply Forall_cons_2; try exact I; try (vm_compute; left); apply Forall_nil_2.
  - exists t. split; [exact Ht|]. split; [rewrite Ha; vm_compute; reflexivity|].
    split; [rewrite Hu; vm_compute; reflexivity|rewrite Hd; vm_compute; reflexivity].
Defined.

(** A TCP connection that was accepted before the configuration changed is authenticated
    by the users it had: the removed user is served, and listed again. *)
Example removed_user_served :
  let s := example_after example_without in
  server_users s = Some [lit "other"] ∧ open_sessions (lit "poetry") s = 1 ∧
  is_Some (Traffic.users (registry s) !! lit "poetry").
Proof. vm_compute. split_and!; try reflexivity. by eexists. Qed.
End example_servers.
