(* ===== verification/DataPlane.v ===== *)
(** * The data plane: connections with all their streams and datagrams

    [serve_connection] of [src/src/server.rs] with what it runs: the loop that accepts
    streams and spawns a relay for each, and the loop over datagrams with its sessions.
    The relays of all connections of all users share one pool of buffers, and those of a
    user its counters, in the registry of ServerRun; here they run interleaved, with
    the servers' own steps between them.  A stream of Relay, a connection's datagrams of
    UdpSessions and the servers of ServerRun are composed as they are. *)

From stdpp Require Import base list gmap strings.
From Stdlib Require Import ZArith Lia.
From S2P Require Import Prelude RustStr Stream TcpCodec UdpCodec Reassembler Config Relay UdpSessions Traffic Auth AcceptLoop Vless ServerRun.

Open Scope Z_scope.

(** ** The state *)

(** The task of a stream: it reads the request; it copies both ways; it has returned.
    The counters are what this stream has added to its user's. *)
Inductive StreamTask :=
| Asking (send : Writer) (recv : Stream) (recv_broken : bool)
| Relaying (up down : Half)
| Returned (client : Writer) (upstream : option Writer) (n : Counters) (r : result RelayError unit).

Definition no_counters : Counters := {| uploaded := 0; downloaded := 0 |}.

Definition halves (up down : Half) : Counters := {| uploaded := half_counter up; downloaded := half_counter down |}.

Definition counted (t : StreamTask) : Counters :=
  match t with
  | Asking _ _ _ => no_counters
  | Relaying up down => halves up down
  | Returned _ _ n _ => n
  end.

(** Why [serve_connection] fails: a loop loses the connection, or the loop over
    datagrams fails. *)
Inductive ServeError := StreamsLost | DatagramsLost | DatagramsFailed (e : UdpError).

(** A connection in [serve_connection]: its streams; its datagrams, unless UDP is
    disabled; which of the two loops has returned; and its result, once it has one. *)
Record Connection := {
  streams : gmap nat StreamTask;
  datagrams : option UdpState;
  streams_over : bool;
  datagrams_over : bool;
  served : option (result ServeError unit);
}.

Record Plane := {
  net : Servers;
  pool : Pool;
  connections : gmap nat Connection;
}.

Definition plane_init : Plane := {| net := servers_init; pool := []; connections := ∅ |}.

Definition connection_init (udp_enabled : bool) : Connection :=
  {| streams := ∅; datagrams := if udp_enabled then Some UdpSessions.initial else None; streams_over := false;
     datagrams_over := false; served := None |}.

Definition set_stream (id : nat) (t : StreamTask) (c : Connection) : Connection :=
  {| streams := <[id := t]> (streams c); datagrams := datagrams c; streams_over := streams_over c;
     datagrams_over := datagrams_over c; served := served c |}.

Definition set_datagrams (st : UdpState) (c : Connection) : Connection :=
  {| streams := streams c; datagrams := Some st; streams_over := streams_over c; datagrams_over := datagrams_over c;
     served := served c |}.

Definition set_over (side : bool) (c : Connection) : Connection :=
  {| streams := streams c; datagrams := datagrams c; streams_over := streams_over c || side;
     datagrams_over := datagrams_over c || negb side; served := served c |}.

Definition set_served (r : result ServeError unit) (c : Connection) : Connection :=
  {| streams := streams c; datagrams := datagrams c; streams_over := streams_over c;
     datagrams_over := datagrams_over c; served := Some r |}.

(** ** The steps *)

(** A step of the servers that is not one of a connection's; [accept_bi] gives a stream;
    its relay comes to its copying, or ends before; one of its directions goes on;
    something happens to the datagrams; the QUIC connection is found closed by the loop
    over streams, or by the other, by either side ([clean]) or by a failure. *)
Inductive PlaneEvent :=
| Server (e : ServersEvent)
| AcceptBi (n id : nat) (send : Writer) (recv : Stream) (recv_broken : bool)
| Prepare (n id : nat) (answer : result str (Reader * Writer)) (rng : list Z)
| CopyStep (n id : nat) (d : bool)
| Udp (n : nat) (e : UdpEvent)
| Closing (n : nat) (of_streams clean : bool).

(** The task of a stream, up to its copying... *)
Definition stream_prepare (answer : result str (Reader * Writer)) (rng : list Z) (t : StreamTask) : option StreamTask :=
  match t with
  | Asking send recv recv_broken =>
      Some match prepare (fun _ => answer) rng send recv recv_broken no_counters with
           | Refused client upstream r => Returned client upstream no_counters r
           | Started up down => Relaying up down
           end
  | _ => None
  end.

(** ... and one turn of a direction, after which the other is dropped if this one has
    failed. *)
Definition stream_copy (d : bool) (pool : Pool) (t : StreamTask) : option (Pool * StreamTask) :=
  match t with
  | Relaying up down =>
      let '(pool, up, down, r) := try_join [d] pool up down in
      Some (pool, match r with
                  | None => Relaying up down
                  | Some r => Returned (half_writer down) (Some (half_writer up)) (halves up down) (rmap_err RelayIo r)
                  end)
  | _ => None
  end.

(** What a task of connection [n] adds to its user's counters. *)
Definition report (n : nat) (before after : Counters) : list ServersEvent :=
  let up := wrap 64 (uploaded after - uploaded before) in
  let down := wrap 64 (downloaded after - downloaded before) in
  (if up =? 0 then [] else [Upload n up]) ++ (if down =? 0 then [] else [Download n down]).

Definition udp_counters (st : UdpState) : Counters := {| uploaded := up_bytes st; downloaded := down_bytes st |}.

(** [try_join!] of the two loops, or the one loop where UDP is disabled. *)
Definition loops_joined (c : Connection) : bool :=
  streams_over c && (datagrams_over c || bool_decide (datagrams c = None)).

(** Whether an event of the datagrams is one of the loop, and not of a session's task. *)
Definition of_loop (e : UdpEvent) : bool := match e with Datagram _ _ _ _ _ | Expired => true | _ => false end.

Section plane.
Context `{Sha256} `{HashIter}.

Definition put_connection (n : nat) (c : Connection) (pool' : Pool) (calls : list ServersEvent) (p : Plane) : option Plane :=
  net' ← servers_run (net p) calls;
  Some {| net := net'; pool := pool'; connections := <[n := c]> (connections p) |}.

(** [serve_connection] returns: the connection is no longer counted. *)
Definition finish (n : nat) (r : result ServeError unit) (c : Connection) (calls : list ServersEvent) (p : Plane) : option Plane :=
  put_connection n (set_served r c) (pool p) (calls ++ [End n]) p.

(** A QUIC client is authenticated and its connection served.  The bytes and the end of
    such a connection are its own. *)
Definition on_server (e : ServersEvent) (p : Plane) : option Plane :=
  if match e with Upload n _ | Download n _ | End n => bool_decide (is_Some (connections p !! n)) | _ => false end then None
  else
    net' ← servers_step (net p) e;
    Some {| net := net'; pool := pool p;
            connections :=
              match e with
              | AuthQuic n _ _ _ =>
                  match ServerRun.sessions net' !! n with
                  | Some (Serving i Hy2 _ _) =>
                      let udp := match servers net' !! i with Some (c, _) => udp_enabled (udp c) | None => false end in
                      <[n := connection_init udp]> (connections p)
                  | _ => connections p
                  end
              | _ => connections p
              end |}.

Definition on_accept_bi (n id : nat) (t : StreamTask) (c : Connection) (p : Plane) : option Plane :=
  if bool_decide (served c = None ∧ streams_over c = false ∧ streams c !! id = None)
  then put_connection n (set_stream id t c) (pool p) [] p else None.

Definition on_stream (n id : nat) (t : StreamTask) (q : Pool * StreamTask) (c : Connection) (p : Plane) : option Plane :=
  put_connection n (set_stream id q.2 c) q.1 (report n (counted t) (counted q.2)) p.

(** The loop's part goes on while [serve_connection] does; its failure ends it. *)
Definition on_udp (n : nat) (e : UdpEvent) (c : Connection) (p : Plane) : option Plane :=
  st ← datagrams c;
  if of_loop e && negb (bool_decide (served c = None ∧ datagrams_over c = false)) then None
  else
    let '(st', r) := udp_step st e in
    let calls := report n (udp_counters st) (udp_counters st') in
    match r with
    | Ok _ => put_connection n (set_datagrams st' c) (pool p) calls p
    | Err e => finish n (Err (DatagramsFailed e)) (set_datagrams st' c) calls p
    end.

Definition on_closing (n : nat) (of_streams clean : bool) (c : Connection) (p : Plane) : option Plane :=
  let over := if of_streams then streams_over c else datagrams_over c || bool_decide (datagrams c = None) in
  if over || negb (bool_decide (served c = None)) then None
  else if clean then
    let c := set_over of_streams c in
    if loops_joined c then finish n (Ok tt) c [] p else put_connection n c (pool p) [] p
  else finish n (Err (if of_streams then StreamsLost else DatagramsLost)) c [] p.

Definition plane_step (p : Plane) (e : PlaneEvent) : option Plane :=
  match e with
  | Server e => on_server e p
  | AcceptBi n id send recv recv_broken => c ← connections p !! n; on_accept_bi n id (Asking send recv recv_broken) c p
  | Prepare n id answer rng =>
      c ← connections p !! n;
      t ← streams c !! id;
      t' ← stream_prepare answer rng t;
      on_stream n id t (pool p, t') c p
  | CopyStep n id d =>
      c ← connections p !! n;
      t ← streams c !! id;
      q ← stream_copy d (pool p) t;
      on_stream n id t q c p
  | Udp n e => c ← connections p !! n; on_udp n e c p
  | Closing n of_streams clean => c ← connections p !! n; on_closing n of_streams clean c p
  end.

Fixpoint plane_run (p : Plane) (events : list PlaneEvent) : option Plane :=
  match events with
  | [] => Some p
  | e :: events => p ← plane_step p e; plane_run p events
  end.
End plane.

(** ** A stream and the same stream alone *)

(** The same state of a direction, whatever its buffer holds. *)
Definition same_half (h h' : Half) : Prop :=
  match h, h' with
  | Copying c, Copying c' =>
      length (buffer c) = RELAY_BUFFER_SIZE ∧ length (buffer c') = RELAY_BUFFER_SIZE ∧ reader c = reader c' ∧
      writer c = writer c' ∧ copied c = copied c' ∧ counter c = counter c'
  | Copying _, _ => False
  | _, _ => h = h'
  end.

Lemma same_half_view h h' : same_half h h' → half_writer h = half_writer h' ∧ half_counter h = half_counter h'.
Proof. destruct h, h'; cbn; naive_solver. Qed.

Lemma same_half_joined up up' down down' : same_half up up' → same_half down down' → joined up down = joined up' down'.
Proof. destruct up, up', down, down'; cbn; intros Hu Hd; by simplify_eq. Qed.

Lemma same_half_cancel pool h h' : pool_ok pool → same_half h h' → pool_ok (cancel pool h) ∧ pool_ok (cancel pool h').
Proof. intros Hp Hs. destruct h, h'; cbn in *; try done. destruct Hs as (? & ? & _). split; by apply drop_buffer_ok. Qed.

(** A turn does not depend on what pool and buffers hold. *)
Lemma same_half_step pool pool' h h' :
  pool_ok pool → pool_ok pool' → same_half h h' →
  pool_ok (half_step pool h).1 ∧ pool_ok (half_step pool' h').1 ∧ same_half (half_step pool h).2 (half_step pool' h').2.
Proof.
  intros Hp Hp' Hs. destruct h as [r w n|c|w n res], h' as [r' w' n'|c'|w' n' res']; cbn in Hs; try done; cbn [half_step].
  - injection Hs as <- <- <-. destruct (take_buffer_ok pool Hp) as [Hl Hq], (take_buffer_ok pool' Hp') as [Hl' Hq'].
    destruct (take_buffer pool), (take_buffer pool'). done.
  - destruct Hs as (Hl & Hl' & Hr & Hw & Hc & Hn). unfold copy_step. rewrite Hl, Hl', <- Hr, <- Hw, <- Hc, <- Hn.
    pose proof (reader_read_spec true RELAY_BUFFER_SIZE (reader c) relay_buffer_size_pos) as Hrd.
    destruct (reader_read RELAY_BUFFER_SIZE (reader c)) as [[data r']|e]; cbn [fst snd buffer writer counter].
    2: { rewrite <- ?Hw, <- ?Hn. split_and!; [by apply drop_buffer_ok..|done]. }
    destruct Hrd as (_ & Hlen & _).
    assert (Hb : ∀ b, length b = RELAY_BUFFER_SIZE → length (data ++ drop (length data) b) = RELAY_BUFFER_SIZE).
    { intros b Hb. rewrite length_app, length_drop. lia. }
    destruct (length data =? 0)%nat; cbn [writer counter buffer].
    { destruct (close (writer c)). cbn [fst snd]. split_and!; [apply drop_buffer_ok; auto..|done]. }
    rewrite !take_app_length. destruct (write_all (writer c) data) as [w' []]; cbn [fst snd buffer writer counter same_half reader copied].
    + split_and!; auto.
    + split_and!; [apply drop_buffer_ok; auto..|done].
Qed.

(** So does one of the join. *)
Lemma same_join d pool pool' up up' down down' :
  pool_ok pool → pool_ok pool' → same_half up up' → same_half down down' →
  let '(q, u, w, r) := try_join [d] pool up down in
  let '(q', u', w', r') := try_join [d] pool' up' down' in
  pool_ok q ∧ pool_ok q' ∧ same_half u u' ∧ same_half w w' ∧ r = r'.
Proof.
  intros Hp Hp' Hu Hd. cbn [try_join]. rewrite <- (same_half_joined up up' down down') by done.
  assert (Hc : ∀ q q' u u' w w', pool_ok q → pool_ok q' → same_half u u' → same_half w w' →
    pool_ok (cancel (cancel q u) w) ∧ pool_ok (cancel (cancel q' u') w')).
  { intros q q' u u' w w' Hq Hq' Hs Ht. destruct (same_half_cancel q u u' Hq Hs), (same_half_cancel q' u u' Hq' Hs).
    split; by apply (same_half_cancel _ w w'). }
  destruct (joined up down) as [r|].
  { destruct (Hc pool pool' up up' down down') as [H1 H2]; done. }
  destruct d.
  - pose proof (same_half_step pool pool' up up' Hp Hp' Hu) as (Hq & Hq' & Hs).
    destruct (half_step pool up) as [q u], (half_step pool' up') as [q' u']. cbn [fst snd] in *.
    rewrite <- (same_half_joined u u' down down') by done. destruct (joined u down); [|done].
    destruct (Hc q q' u u' down down') as [H1 H2]; done.
  - pose proof (same_half_step pool pool' down down' Hp Hp' Hd) as (Hq & Hq' & Hs).
    destruct (half_step pool down) as [q w], (half_step pool' down') as [q' w']. cbn [fst snd] in *.
    rewrite <- (same_half_joined up up' w w') by done. destruct (joined up w); [|done].
    destruct (Hc q q' up up' w w') as [H1 H2]; done.
Qed.

(** A schedule with one more turn. *)
Lemma try_join_snoc schedule d pool up down :
  try_join (schedule ++ [d]) pool up down =
  match try_join schedule pool up down with
  | (q, u, w, None) => try_join [d] q u w
  | out => out
  end.
Proof.
  revert pool up down. induction schedule as [|b schedule IH]; intros pool up down.
  { cbn [app]. change (try_join [] pool up down) with (match joined up down with Some r => (cancel (cancel pool up) down, up, down, Some r) | None => (pool, up, down, None) end).
    destruct (joined up down) as [r|] eqn:E; [|done]. cbn [try_join]. by rewrite E. }
  cbn [app]. change (try_join (b :: schedule ++ [d]) pool up down) with
    (match joined up down with
     | Some r => (cancel (cancel pool up) down, up, down, Some r)
     | None => if b then let '(pool, up) := half_step pool up in try_join (schedule ++ [d]) pool up down
               else let '(pool, down) := half_step pool down in try_join (schedule ++ [d]) pool up down
     end).
  change (try_join (b :: schedule) pool up down) with
    (match joined up down with
     | Some r => (cancel (cancel pool up) down, up, down, Some r)
     | None => if b then let '(pool, up) := half_step pool up in try_join schedule pool up down
               else let '(pool, down) := half_step pool down in try_join schedule pool up down
     end).
  destruct (joined up down); [done|]. destruct b; [destruct (half_step pool up)|destruct (half_step pool down)]; apply IH.
Qed.

(** The turns of a stream in a run. *)
Definition copies (n id : nat) (e : PlaneEvent) : option bool :=
  match e with CopyStep n' id' d => if decide (n' = n ∧ id' = id) then Some d else None | _ => None end.

Definition schedule (n id : nat) (events : list PlaneEvent) : list bool := omap (copies n id) events.

(** What a stream has given and is at. *)
Definition look (t : StreamTask) : Writer * option Writer * Counters * option (result RelayError unit) :=
  match t with
  | Asking send _ _ => (send, None, no_counters, None)
  | Relaying up down => (half_writer down, Some (half_writer up), halves up down, None)
  | Returned client upstream n r => (client, upstream, n, Some r)
  end.

Definition outcome (out : RelayOutcome) : Writer * option Writer * Counters * option (result RelayError unit) :=
  (out_client out, out_upstream out, out_counters out, out_result out).

(** The stream alone, with no pooled buffer, under its own turns. *)
Definition alone (events : list PlaneEvent) (n id : nat) (send : Writer) (recv : Stream) (recv_broken : bool)
    (answer : result str (Reader * Writer)) (rng : list Z) : RelayOutcome :=
  relay_tcp_stream (fun _ => answer) rng (schedule n id events) [] send recv recv_broken no_counters.

(** A stream in a run is where it would be alone. *)
Definition follows (events : list PlaneEvent) (n id : nat) (t : StreamTask) : Prop :=
  ∃ send recv recv_broken, AcceptBi n id send recv recv_broken ∈ events ∧
    (t = Asking send recv recv_broken ∧ schedule n id events = [] ∨
     ∃ answer rng, Prepare n id answer rng ∈ events ∧
       match t, prepare (fun _ => answer) rng send recv recv_broken no_counters with
       | Returned client upstream n' r, Refused client' upstream' r' =>
           client = client' ∧ upstream = upstream' ∧ n' = no_counters ∧ r = r'
       | Relaying up down, Started up0 down0 =>
           let '(q, u, w, r) := try_join (schedule n id events) [] up0 down0 in
           r = None ∧ pool_ok q ∧ same_half up u ∧ same_half down w
       | Returned client upstream n' r, Started up0 down0 =>
           let '(_, u, w, r') := try_join (schedule n id events) [] up0 down0 in
           client = half_writer w ∧ upstream = Some (half_writer u) ∧ n' = halves u w ∧ rmap_err RelayIo <$> r' = Some r
       | _, _ => False
       end).

Lemma follows_alone events n id t :
  follows events n id t →
  ∃ send recv recv_broken, AcceptBi n id send recv recv_broken ∈ events ∧
    (t = Asking send recv recv_broken ∨
     ∃ answer rng, Prepare n id answer rng ∈ events ∧ look t = outcome (alone events n id send recv recv_broken answer rng)).
Proof.
  intros (send & recv & broken & Hin & Hcase). exists send, recv, broken. split; [done|].
  destruct Hcase as [[-> _]|(answer & rng & Hp & Hm)]; [by left|right]. exists answer, rng. split; [done|].
  unfold alone, relay_tcp_stream, outcome. destruct t as [|up down|client upstream n' r]; [done|..];
    destruct (prepare _ rng send recv broken no_counters) as [c0 u0 r0|up0 down0]; try done.
  - destruct (try_join _ [] up0 down0) as [[[q u] w] r]. destruct Hm as (-> & _ & Hu & Hw). cbn.
    apply same_half_view in Hu as [-> Hnu], Hw as [-> Hnw]. unfold halves. by rewrite Hnu, Hnw.
  - by destruct Hm as (-> & -> & -> & ->).
  - destruct (try_join _ [] up0 down0) as [[[q u] w] r']. cbn. by destruct Hm as (-> & -> & -> & ->).
Qed.

(** ** Sums over connections *)

Definition map_sum {A} (f : nat → A → Z) (m : gmap nat A) : Z := map_fold (fun n a z => f n a + z) 0 m.

Section map_sum.
Context {A : Type}.
Implicit Types (f g : nat → A → Z) (m : gmap nat A).

Lemma map_sum_empty f : map_sum f ∅ = 0.
Proof. apply map_fold_empty. Qed.

Lemma map_sum_new f m n a : m !! n = None → map_sum f (<[n := a]> m) = f n a + map_sum f m.
Proof. intros Hn. unfold map_sum. apply (map_fold_insert_L (fun n a z => f n a + z)); [intros; lia|done]. Qed.

Lemma map_sum_at f m n a : m !! n = Some a → map_sum f m = f n a + map_sum f (delete n m).
Proof. intros Hn. rewrite <- (insert_delete_id m n a Hn) at 1. apply map_sum_new, lookup_delete_eq. Qed.

Lemma map_sum_insert f m n a b : m !! n = Some a → map_sum f (<[n := b]> m) = map_sum f m - f n a + f n b.
Proof. intros Hn. rewrite <- insert_delete_eq, map_sum_new by apply lookup_delete_eq. rewrite (map_sum_at f m n a Hn). lia. Qed.

(** Two sums that agree modulo [2^64] term by term. *)
Lemma map_sum_wrap f g m :
  (∀ n a, m !! n = Some a → wrap 64 (f n a) = wrap 64 (g n a)) → wrap 64 (map_sum f m) = wrap 64 (map_sum g m).
Proof.
  induction m as [|n a m Hn IH] using map_ind; intros Hfg; [by rewrite !map_sum_empty|].
  rewrite !map_sum_new by done. unfold wrap in *.
  rewrite (Z.add_mod (f n a)), (Z.add_mod (g n a)) by done. rewrite (Hfg n a) by apply lookup_insert_eq. rewrite IH; [done|].
  intros k b Hk. apply Hfg. rewrite lookup_insert_ne; [done|]. intros ->. congruence.
Qed.

Lemma map_sum_ext f g m : (∀ n a, m !! n = Some a → f n a = g n a) → map_sum f m = map_sum g m.
Proof.
  induction m as [|n a m Hn IH] using map_ind; intros Hfg; [by rewrite !map_sum_empty|].
  rewrite !map_sum_new by done. rewrite (Hfg n a) by apply lookup_insert_eq. rewrite IH; [done|].
  intros k b Hk. apply Hfg. rewrite lookup_insert_ne; [done|]. intros ->. congruence.
Qed.

Lemma map_sum_zero f m : (∀ n a, m !! n = Some a → f n a = 0) → map_sum f m = 0.
Proof.
  intros Hf. rewrite (map_sum_ext f (fun _ _ => 0) m Hf). clear Hf.
  induction m as [|n a m Hn IH] using map_ind; [apply map_sum_empty|]. by rewrite map_sum_new, IH.
Qed.

(** One term that differs. *)
Lemma map_sum_add f g m n a :
  m !! n = Some a → (∀ k b, m !! k = Some b → k ≠ n → f k b = g k b) → map_sum f m = map_sum g m + (f n a - g n a).
Proof.
  intros Hn Hfg. rewrite (map_sum_at f m n a Hn), (map_sum_at g m n a Hn).
  rewrite (map_sum_ext f g (delete n m)); [lia|]. intros k b [Hk Hb]%lookup_delete_Some. by apply Hfg.
Qed.
End map_sum.

(** ** What the servers have counted of a connection *)

Definition side (up : bool) (c : Counters) : Z := if up then uploaded c else downloaded c.

Definition call_bytes (up : bool) (n : nat) (e : ServersEvent) : Z :=
  match e, up with
  | Upload n' b, true | Download n' b, false => if decide (n' = n) then b else 0
  | _, _ => 0
  end.

Definition bytes_of (up : bool) (n : nat) (log : list ServersEvent) : Z := foldr (fun e b => call_bytes up n e + b) 0 log.

Lemma bytes_of_app up n l l' : bytes_of up n (l ++ l') = bytes_of up n l + bytes_of up n l'.
Proof. induction l as [|e l IH]; cbn [bytes_of foldr app]; [done|]. unfold bytes_of in *. rewrite IH. lia. Qed.

Lemma bytes_of_report up n a b : wrap 64 (bytes_of up n (report n a b)) = wrap 64 (side up b - side up a).
Proof.
  unfold report. rewrite bytes_of_app. set (u := wrap 64 (uploaded b - uploaded a)). set (d := wrap 64 (downloaded b - downloaded a)).
  assert (Hu : bytes_of up n (if u =? 0 then [] else [Upload n u]) = if up then u else 0).
  { destruct (Z.eqb_spec u 0) as [->|]; [by destruct up|]. unfold bytes_of. cbn [foldr call_bytes].
    destruct up; [rewrite decide_True by done|]; lia. }
  assert (Hd : bytes_of up n (if d =? 0 then [] else [Download n d]) = if up then 0 else d).
  { destruct (Z.eqb_spec d 0) as [->|]; [by destruct up|]. unfold bytes_of. cbn [foldr call_bytes].
    destruct up; [|rewrite decide_True by done]; lia. }
  rewrite Hu, Hd. unfold u, d. destruct up; cbn [side]; unfold wrap; rewrite ?Z.add_0_r, ?Z.add_0_l; by rewrite Z.mod_mod.
Qed.

Lemma report_of n a b e : e ∈ report n a b → (∃ x, e = Upload n x) ∨ ∃ x, e = Download n x.
Proof. unfold report. rewrite elem_of_app. repeat case_match; set_solver. Qed.

Lemma bytes_of_others up n l : (∀ e, e ∈ l → call_bytes up n e = 0) → bytes_of up n l = 0.
Proof.
  induction l as [|e l IH]; intros He; [done|]. unfold bytes_of in *. cbn [foldr]. rewrite (He e) by by left.
  rewrite IH; [done|]. intros e' He'. apply He. by right.
Qed.

Lemma bytes_of_report_ne up n m a b : m ≠ n → bytes_of up m (report n a b) = 0.
Proof.
  intros Hm. apply bytes_of_others. intros e [[x ->]|[x ->]]%report_of; destruct up; cbn; by rewrite ?decide_False.
Qed.

Lemma bytes_of_end up n m l : bytes_of up m (l ++ [End n]) = bytes_of up m l.
Proof. rewrite bytes_of_app. cbn. lia. Qed.

Section servers.
Context `{Sha256}.

Lemma servers_run_app s l l' : servers_run s (l ++ l') = servers_run s l ≫= fun s => servers_run s l'.
Proof. revert s. induction l as [|e l IH]; intros s; [done|]. cbn [app servers_run]. destruct (servers_step s e); [apply IH|done]. Qed.

Lemma servers_run_one s e : servers_run s [e] = servers_step s e.
Proof. cbn [servers_run]. by destruct (servers_step s e). Qed.

(** Counting takes place whenever there are counters, and changes nothing else. *)
Lemma report_runs s n a b x :
  ServerRun.sessions s !! n ≫= holder = Some x →
  ∃ r, servers_run s (report n a b) = Some (set_registry r s).
Proof.
  intros Hx. unfold report. rewrite servers_run_app. destruct x as [v loc].
  assert (Hone : ∀ s' e, ServerRun.sessions s' = ServerRun.sessions s → (∃ y, e = Upload n y) ∨ (∃ y, e = Download n y) →
    ∃ r, servers_step s' e = Some (set_registry r s')).
  { intros s' e Hs [[y ->]|[y ->]]; cbn [servers_step]; rewrite Hs, Hx; by eexists. }
  assert (Hsame : set_registry (registry s) s = s) by by destruct s.
  destruct (wrap 64 (uploaded b - uploaded a) =? 0).
  - change (servers_run s []) with (Some s). cbn [mbind option_bind].
    destruct (_ =? 0); [by exists (registry s); rewrite Hsame|]. rewrite servers_run_one. apply Hone; [done|right; by eexists].
  - rewrite servers_run_one. destruct (Hone s (Upload n (wrap 64 (uploaded b - uploaded a))) eq_refl ltac:(left; by eexists)) as [r Hr].
    rewrite Hr. cbn [mbind option_bind]. destruct (_ =? 0); [by exists r|]. rewrite servers_run_one.
    destruct (Hone (set_registry r s) (Download n (wrap 64 (downloaded b - downloaded a))) eq_refl ltac:(right; by eexists)) as [r' Hr'].
    rewrite Hr'. by exists r'.
Qed.

(** Who a session serves stays so. *)
Lemma client_step s e s' n :
  servers_step s e = Some s' → is_Some (ServerRun.sessions s !! n ≫= client) →
  ServerRun.sessions s' !! n ≫= client = ServerRun.sessions s !! n ≫= client.
Proof.
  intros Hs Hn.
  assert (Hset : ∀ m t s1, ServerRun.sessions s1 = ServerRun.sessions s → (m = n → Some t ≫= client = ServerRun.sessions s !! n ≫= client) →
    ServerRun.sessions (set_session m t s1) !! n ≫= client = ServerRun.sessions s !! n ≫= client).
  { intros m t s1 Hs1 Ht. cbn [ServerRun.sessions set_session]. rewrite Hs1. destruct (decide (m = n)) as [->|Hm].
    - rewrite lookup_insert_eq. by apply Ht.
    - by rewrite lookup_insert_ne. }
  assert (Hno : ∀ m, ServerRun.sessions s !! m ≫= client = None → m ≠ n) by (intros m Hm ->; rewrite Hm in Hn; by destruct Hn).
  destruct e as [c setup|e m|m padding sent reqs|m peeks upstream tls|m b|m b|m]; cbn [servers_step] in Hs.
  - destruct (idle_servers s); [|done]. injection Hs as <-. unfold on_start. by destruct (set_up c setup).
  - unfold on_loop in Hs. apply bind_Some in Hs as ([c a] & _ & Hs). apply bind_Some in Hs as (a' & _ & Hs).
    destruct (spawned _ a e) as [t|].
    + assert (Hs2 : ServerRun.sessions s !! m = None ∧ s' = set_session m t (set_server (length (servers s) - 1) a' s))
        by (destruct e; try done; case_decide; by simplify_eq).
      destruct Hs2 as [Hm ->]. apply Hset; [done|]. intros E. exfalso. apply (Hno m); [by rewrite Hm|done].
    + by destruct e; simplify_eq.
  - destruct (ServerRun.sessions s !! m) as [[i conn| | | | |]|] eqn:Em; try done.
    assert (m ≠ n) as Hm by (apply Hno; by rewrite Em). unfold on_auth_quic in Hs.
    apply bind_Some in Hs as ([c a] & _ & Hs). destruct (authenticate_connection _ _ _ _).2 as [[name rate]|].
    + apply bind_Some in Hs as (loc & _ & [= <-]). unfold enter. destruct sent; [|by apply Hset].
      destruct (user _ name). by apply Hset.
    + injection Hs as <-. by apply Hset.
  - destruct (ServerRun.sessions s !! m) as [[|i| | | |]|] eqn:Em; try done.
    assert (m ≠ n) as Hm by (apply Hno; by rewrite Em). unfold on_auth_tcp in Hs.
    apply bind_Some in Hs as ([c a] & _ & [= <-]). unfold enter. repeat case_match; try done; by apply Hset.
  - apply bind_Some in Hs as ([v loc] & _ & [= <-]). done.
  - apply bind_Some in Hs as ([v loc] & _ & [= <-]). done.
  - apply bind_Some in Hs as (t & Ht & Hs). unfold on_end in Hs.
    destruct t as [i conn|i|i protocol v loc|i|i protocol v loc|]; simplify_eq; apply Hset; try done; intros ->; by rewrite Ht in *; destruct Hn.
Qed.

Lemma client_run s log s' n :
  servers_run s log = Some s' → is_Some (ServerRun.sessions s !! n ≫= client) →
  ServerRun.sessions s' !! n ≫= client = ServerRun.sessions s !! n ≫= client.
Proof.
  revert s. induction log as [|e log IH]; intros s Hr Hn; cbn [servers_run] in Hr; [by injection Hr as <-|].
  apply bind_Some in Hr as (s1 & Hs & Hr). pose proof (client_step s e s1 n Hs Hn) as He.
  rewrite (IH s1 Hr); [done|by rewrite He].
Qed.

Lemma holder_client t v loc : holder t = Some (v, loc) → ∃ i protocol, client t = Some (i, protocol, v).
Proof. destruct t as [| |i protocol w l| |i [] w l|]; cbn; intros E; simplify_eq; eauto. Qed.

(** A call that counts is one of a session that serves somebody. *)
Lemma call_bytes_client s e s' up n :
  servers_step s e = Some s' → call_bytes up n e ≠ 0 →
  ∃ v loc, ServerRun.sessions s !! n ≫= holder = Some (v, loc).
Proof.
  intros Hs Hb. destruct e, up; cbn in Hb; try done; destruct (decide (_ = n)) as [->|]; try done; cbn in Hs;
    apply bind_Some in Hs as ([v loc] & Hh & _); eauto.
Qed.

Lemma bytes_of_nobody up n s log s' :
  servers_run s log = Some s' → ServerRun.sessions s' !! n ≫= client = None → bytes_of up n log = 0.
Proof.
  revert s. induction log as [|e log IH]; intros s Hr Hn; [done|]. pose proof (IH) as IH'. cbn [servers_run] in Hr.
  apply bind_Some in Hr as (s1 & Hs & Hr). unfold bytes_of. cbn [foldr]. fold (bytes_of up n log). rewrite (IH s1 Hr Hn).
  destruct (decide (call_bytes up n e = 0)) as [->|Hne]; [done|]. exfalso.
  destruct (call_bytes_client s e s1 up n Hs Hne) as (v & loc & Hh). apply bind_Some in Hh as (t & Ht & Hh).
  destruct (holder_client t v loc Hh) as (i & protocol & Hc).
  assert (Hsome : is_Some (ServerRun.sessions s !! n ≫= client)) by (rewrite Ht; by eexists).
  assert (Hr' : servers_run s (e :: log) = Some s') by (cbn [servers_run]; by rewrite Hs).
  rewrite (client_run s (e :: log) s' n Hr' Hsome) in Hn. rewrite Hn in Hsome. by destruct Hsome.
Qed.

(** A call counts nothing of any session, or bytes of one. *)
Lemma call_cases up e :
  (∀ n, call_bytes up n e = 0) ∨
  ∃ m b, e = (if up then Upload m b else Download m b).
Proof. destruct e, up; try (by left); right; by eexists _, _. Qed.

Definition of_user (u : str) (t : Session) : bool :=
  match client t with Some (_, _, v) => str_eqb v u | None => false end.

(** What a user has counted is what its sessions have. *)
Lemma run_bytes_sessions up u s log s' :
  servers_run s log = Some s' →
  run_bytes up u s log = map_sum (fun n t => if of_user u t then bytes_of up n log else 0) (ServerRun.sessions s').
Proof.
  revert s. induction log as [|e log IH]; intros s Hr.
  { rewrite map_sum_zero; [done|]. intros n t _. by destruct (of_user u t). }
  assert (Hr' := Hr). cbn [servers_run] in Hr. apply bind_Some in Hr as (s1 & Hs & Hr).
  cbn [run_bytes]. rewrite Hs, (IH s1 Hr).
  destruct (call_cases up e) as [Hz|(m & b & He)].
  - assert (Hev : event_bytes up u s e = 0).
    { destruct e as [| | | |m b|m b|], up; try done; cbn [event_bytes]; specialize (Hz m); cbn in Hz; rewrite decide_True in Hz by done;
        subst b; by repeat case_match. }
    rewrite Hev. apply map_sum_ext. intros n t _. unfold bytes_of. cbn [foldr]. by rewrite (Hz n).
  - assert (Hh : ∃ t v loc, ServerRun.sessions s !! m = Some t ∧ holder t = Some (v, loc) ∧
                   event_bytes up u s e = if str_eqb v u then b else 0).
    { destruct up; subst e; cbn in Hs; apply bind_Some in Hs as ([v loc] & (t & Ht & Hh)%bind_Some & _); exists t, v, loc;
        (split_and!; [done|done|]); cbn [event_bytes]; rewrite Ht; unfold counts_for; by rewrite Hh. }
    destruct Hh as (t & v & loc & Ht & Hh & ->). destruct (holder_client t v loc Hh) as (i & protocol & Hc).
    pose proof (client_run s (e :: log) s' m Hr') as Hk. rewrite Ht in Hk. cbn [mbind option_bind] in Hk. rewrite Hc in Hk.
    specialize (Hk ltac:(by eexists)). apply bind_Some in Hk as (t' & Ht' & Hc').
    rewrite (map_sum_add (fun n t => if of_user u t then bytes_of up n (e :: log) else 0)
      (fun n t => if of_user u t then bytes_of up n log else 0) _ m t' Ht').
    + unfold of_user. rewrite Hc'. unfold bytes_of. cbn [foldr]. fold (bytes_of up m log). assert (Hcb : call_bytes up m e = b).
      { subst e. by destruct up; cbn; rewrite decide_True. }
      rewrite Hcb. destruct (str_eqb v u); lia.
    + intros k t'' _ Hk. unfold bytes_of. cbn [foldr]. replace (call_bytes up k e) with 0; [done|].
      subst e. by destruct up; cbn; rewrite decide_False.
Qed.
End servers.

(** ** The invariant *)

(** What the tasks of a connection have counted. *)
Definition connection_bytes (up : bool) (c : Connection) : Z :=
  map_sum (fun _ t => side up (counted t)) (streams c) +
  match datagrams c with Some st => side up (udp_counters st) | None => 0 end.

(** What a connection that is not HY2's is said to count. *)
Definition server_bytes (up : bool) (n : nat) (events : list PlaneEvent) : Z :=
  bytes_of up n (omap (fun e => match e with Server e => Some e | _ => None end) events).

Lemma server_bytes_snoc up n events e :
  server_bytes up n (events ++ [e]) = server_bytes up n events + match e with Server e => call_bytes up n e | _ => 0 end.
Proof.
  unfold server_bytes. rewrite omap_app, bytes_of_app. f_equal. destruct e; try done. cbn. lia.
Qed.

(** The session of a connection, which is counted until [serve_connection] returns. *)
Definition session_of (c : Connection) (t : Session) : Prop :=
  ∃ i v loc, t = match served c with None => Serving i Hy2 v loc | Some _ => Left i Hy2 v loc end.

Lemma session_of_holder c t : session_of c t → is_Some (holder t).
Proof. intros (i & v & loc & ->). destruct (served c); by eexists. Qed.

(** The datagrams of an event are bytes. *)
Definition plane_event_ok (e : PlaneEvent) : Prop := match e with Udp _ e => event_ok e | _ => True end.

Section invariant.
Context `{Sha256} `{HashIter}.

Record plane_inv (events : list PlaneEvent) (log : list ServersEvent) (p : Plane) : Prop := {
  pi_log : servers_run servers_init log = Some (net p);
  pi_first : log = [] → events = [] ∧ connections p = ∅;
  pi_starts : ∀ c setup, Start c setup ∈ log → Server (Start c setup) ∈ events;
  pi_pool : pool_ok (pool p);
  pi_session : ∀ n c, connections p !! n = Some c → ∃ t, ServerRun.sessions (net p) !! n = Some t ∧ session_of c t;
  pi_bytes : ∀ up n c, connections p !! n = Some c → wrap 64 (bytes_of up n log) = wrap 64 (connection_bytes up c);
  pi_others : ∀ up n, connections p !! n = None → bytes_of up n log = server_bytes up n events;
  pi_streams : ∀ n c id t, connections p !! n = Some c → streams c !! id = Some t → follows events n id t;
  pi_turns : ∀ n id, (∀ c, connections p !! n = Some c → streams c !! id = None) → schedule n id events = [];
  pi_datagrams : ∀ n c st, connections p !! n = Some c → datagrams c = Some st → udp_inv st;
}.

Lemma plane_inv_init : plane_inv [] [] plane_init.
Proof.
  split; try done; cbn; intros *; try by rewrite lookup_empty.
  - set_solver.
  - split; [cbn; lia|constructor].
Qed.

Lemma schedule_snoc n id events e :
  schedule n id (events ++ [e]) = schedule n id events ++ option_list (copies n id e).
Proof. unfold schedule. rewrite omap_app. cbn. by destruct (copies n id e). Qed.

(** The events of others say nothing of a stream. *)
Lemma follows_app events n id t e :
  follows events n id t → copies n id e = None → follows (events ++ [e]) n id t.
Proof.
  intros (send & recv & broken & Hin & Hcase) He.
  assert (Hs : schedule n id (events ++ [e]) = schedule n id events) by by rewrite schedule_snoc, He, app_nil_r.
  exists send, recv, broken. split; [set_solver|]. rewrite Hs. destruct Hcase as [?|(answer & rng & Hp & Hm)]; [by left|right].
  exists answer, rng. split; [set_solver|done].
Qed.

Lemma wrap_sub_add x y z : wrap 64 x = wrap 64 y → wrap 64 (x + z) = wrap 64 (y + z).
Proof. unfold wrap. intros E. rewrite <- (Zplus_mod_idemp_l x), E. by rewrite Zplus_mod_idemp_l. Qed.

(** A step of a connection, which makes calls of its own to the servers. *)
Lemma put_inv events log p n c c' pool' calls p' e :
  plane_inv events log p → connections p !! n = Some c → put_connection n c' pool' calls p = Some p' →
  (∀ c0 setup, Start c0 setup ∉ calls) → pool_ok pool' →
  (∃ t, ServerRun.sessions (net p') !! n = Some t ∧ session_of c' t) →
  (∀ m, m ≠ n → ServerRun.sessions (net p') !! m = ServerRun.sessions (net p) !! m) →
  (∀ up, wrap 64 (bytes_of up n calls) = wrap 64 (connection_bytes up c' - connection_bytes up c)) →
  (∀ up m, m ≠ n → bytes_of up m calls = 0) →
  match e with Server _ => False | _ => True end →
  (∀ m id, m ≠ n → copies m id e = None) →
  (∀ id t, streams c' !! id = Some t → follows (events ++ [e]) n id t) →
  (∀ id, streams c' !! id = None → streams c !! id = None ∧ copies n id e = None) →
  (∀ st, datagrams c' = Some st → udp_inv st) →
  plane_inv (events ++ [e]) (log ++ calls) p'.
Proof.
  intros [Hlog Hfirst Hst Hp Hse Hb Ho Hf Hsc Hd] Hc Hput Hcalls Hpool Hs Hs' Hbn Hbm He Hcopy Hfn Hsn Hdn.
  unfold put_connection in Hput. apply bind_Some in Hput as (net' & Hrun & [= <-]). cbn [net pool connections] in *.
  split; cbn [net pool connections].
  - by rewrite servers_run_app, Hlog.
  - intros [El _]%app_nil. destruct (Hfirst El) as [_ E]. by rewrite E, lookup_empty in Hc.
  - intros c0 setup [Hin|Hin]%elem_of_app; [apply elem_of_app; left; by apply Hst|by apply Hcalls in Hin].
  - done.
  - intros m c0 [[<- <-]|[Hm Hc0]]%lookup_insert_Some; [done|]. rewrite Hs' by done. by apply Hse.
  - intros up m c0 [[<- <-]|[Hm Hc0]]%lookup_insert_Some; rewrite bytes_of_app.
    + rewrite Z.add_comm. rewrite (wrap_sub_add _ _ _ (Hbn up)), Z.add_comm.
      rewrite (wrap_sub_add _ _ _ (Hb up n c Hc)). f_equal. lia.
    + rewrite Hbm by done. rewrite Z.add_0_r. by apply Hb.
  - intros up m [Hm Hne]%lookup_insert_None. rewrite bytes_of_app, Hbm, server_bytes_snoc, (Ho up m Hm) by done.
    by destruct e.
  - intros m c0 id t [[<- <-]|[Hm Hc0]]%lookup_insert_Some Ht; [by apply Hfn|]. apply follows_app; [by apply (Hf m c0)|].
    by apply Hcopy.
  - intros m id Hnone. rewrite schedule_snoc. destruct (decide (m = n)) as [->|Hm].
    + destruct (Hsn id) as [Hnone' ->]; [apply Hnone, lookup_insert_eq|]. rewrite app_nil_r. apply Hsc. intros c0 Hc0. congruence.
    + rewrite Hcopy, app_nil_r by done. apply Hsc. intros c0 Hc0. apply Hnone. by rewrite lookup_insert_ne.
  - intros m c0 st [[<- <-]|[Hm Hc0]]%lookup_insert_Some Ht; [by apply Hdn|by apply (Hd m c0)].
Qed.

(** A step that only reports what it has counted. *)
Lemma put_report_inv events log p n c c' pool' a b p' e :
  plane_inv events log p → connections p !! n = Some c → put_connection n c' pool' (report n a b) p = Some p' →
  pool_ok pool' → served c' = served c →
  (∀ up, connection_bytes up c' - connection_bytes up c = side up b - side up a) →
  match e with Server _ => False | _ => True end →
  (∀ m id, m ≠ n → copies m id e = None) →
  (∀ id t, streams c' !! id = Some t → follows (events ++ [e]) n id t) →
  (∀ id, streams c' !! id = None → streams c !! id = None ∧ copies n id e = None) →
  (∀ st, datagrams c' = Some st → udp_inv st) →
  plane_inv (events ++ [e]) (log ++ report n a b) p'.
Proof.
  intros Hi Hc Hput Hpool Hse Hb He Hcopy Hf Hid Hd. destruct (pi_session _ _ _ Hi n c Hc) as (t & Ht & Hst).
  destruct (session_of_holder c t Hst) as [x Hx].
  destruct (report_runs (net p) n a b x) as [r Hr]; [by rewrite Ht|].
  assert (Hnet : net p' = set_registry r (net p)).
  { unfold put_connection in Hput. rewrite Hr in Hput. cbn in Hput. by injection Hput as <-. }
  eapply put_inv; try done.
  - intros c0 setup [[y Hy]|[y Hy]]%report_of; done.
  - rewrite Hnet. exists t. split; [done|]. destruct Hst as (i & v & loc & ->). rewrite <- Hse. by exists i, v, loc.
  - intros m Hm. by rewrite Hnet.
  - intros up. by rewrite bytes_of_report, Hb.
  - intros up m Hm. by apply bytes_of_report_ne.
Qed.

(** [serve_connection] returns, after what it has counted last. *)
Lemma finish_inv events log p n r c c' a b p' e :
  plane_inv events log p → connections p !! n = Some c → served c = None → finish n r c' (report n a b) p = Some p' →
  (∀ up, connection_bytes up c' - connection_bytes up c = side up b - side up a) →
  match e with Server _ => False | _ => True end →
  (∀ m id, m ≠ n → copies m id e = None) →
  (∀ id t, streams c' !! id = Some t → follows (events ++ [e]) n id t) →
  (∀ id, streams c' !! id = None → streams c !! id = None ∧ copies n id e = None) →
  (∀ st, datagrams c' = Some st → udp_inv st) →
  plane_inv (events ++ [e]) (log ++ report n a b ++ [End n]) p'.
Proof.
  intros Hi Hc Hn Hput Hb He Hcopy Hf Hid Hd. destruct (pi_session _ _ _ Hi n c Hc) as (t & Ht & i & v & loc & ->). rewrite Hn in Ht.
  destruct (report_runs (net p) n a b (v, loc)) as [r' Hr']; [by rewrite Ht|].
  assert (Hnet : net p' = set_session n (Left i Hy2 v loc) (set_registry (drop_connection loc r') (set_registry r' (net p)))).
  { unfold finish, put_connection in Hput. rewrite servers_run_app, Hr' in Hput. cbn [mbind option_bind] in Hput.
    rewrite servers_run_one in Hput. cbn [servers_step ServerRun.sessions set_registry] in Hput. rewrite Ht in Hput.
    cbn in Hput. by injection Hput as <-. }
  apply (put_inv _ _ p n c (set_served r c') (pool p) _ p'); try done.
  - intros c0 setup [[[y Hy]|[y Hy]]%report_of|Hin]%elem_of_app; [done..|]. by apply list_elem_of_singleton in Hin.
  - apply Hi.
  - rewrite Hnet. eexists. split; [apply lookup_insert_eq|]. by exists i, v, loc.
  - intros m Hm. rewrite Hnet. cbn. by rewrite lookup_insert_ne.
  - intros up. rewrite bytes_of_end, bytes_of_report. f_equal. by rewrite <- Hb.
  - intros up m Hm. rewrite bytes_of_end. by apply bytes_of_report_ne.
Qed.

Lemma report_nothing n a : report n a a = [].
Proof. unfold report. by rewrite !Z.sub_diag. Qed.

(** ** Streams *)

Lemma set_stream_bytes up id t t' c :
  streams c !! id = Some t →
  connection_bytes up (set_stream id t' c) - connection_bytes up c = side up (counted t') - side up (counted t).
Proof. intros Ht. unfold connection_bytes. cbn [streams datagrams set_stream]. rewrite (map_sum_insert _ _ id t) by done. lia. Qed.

Lemma new_stream_bytes up id t c :
  streams c !! id = None →
  connection_bytes up (set_stream id t c) - connection_bytes up c = side up (counted t).
Proof. intros Ht. unfold connection_bytes. cbn [streams datagrams set_stream]. rewrite map_sum_new by done. lia. Qed.

(** The other streams of a connection do not notice. *)
Lemma streams_follow events log p n c id t' e :
  plane_inv events log p → connections p !! n = Some c →
  (∀ id', id' ≠ id → copies n id' e = None) → follows (events ++ [e]) n id t' →
  ∀ id' t, streams (set_stream id t' c) !! id' = Some t → follows (events ++ [e]) n id' t.
Proof.
  intros Hi Hc He Hf id' t. cbn [streams set_stream]. intros [[<- <-]|[Hne Ht]]%lookup_insert_Some; [done|].
  apply follows_app; [by apply (pi_streams _ _ _ Hi n c)|by apply He].
Qed.

Lemma prepare_follows events n id send recv broken answer rng t' :
  follows events n id (Asking send recv broken) → stream_prepare answer rng (Asking send recv broken) = Some t' →
  follows (events ++ [Prepare n id answer rng]) n id t'.
Proof.
  intros (s0 & r0 & b0 & Hin & Hcase) [= <-]. exists s0, r0, b0. split; [set_solver|]. right.
  destruct Hcase as [[[= -> -> ->] Hsch]|(a0 & g0 & _ & Hm)]; [|done]. exists answer, rng. split; [set_solver|].
  rewrite schedule_snoc, Hsch. cbn [copies option_list app].
  destruct (prepare _ rng s0 r0 b0 no_counters) as [c0 u0 r|up down] eqn:E; [done|].
  unfold prepare in E. assert (Hw : ∃ r w k r' w' k', up = Waiting r w k ∧ down = Waiting r' w' k').
  { repeat case_match; simplify_eq. by do 6 eexists. }
  destruct Hw as (r & w & k & r' & w' & k' & -> & ->). cbn. split_and!; [done|split; [cbn; lia|constructor]|done|done].
Qed.

Lemma copy_follows events n id d pool t pool' t' :
  pool_ok pool → follows events n id t → stream_copy d pool t = Some (pool', t') →
  pool_ok pool' ∧ follows (events ++ [CopyStep n id d]) n id t'.
Proof.
  intros Hp (s0 & r0 & b0 & Hin & Hcase) Hs. destruct t as [|up down|]; cbn [stream_copy] in Hs; try done.
  destruct Hcase as [[? _]|(answer & rng & Hprep & Hm)]; [done|].
  destruct (prepare _ rng s0 r0 b0 no_counters) as [c0 u0 r|up0 down0] eqn:Epr; [done|].
  assert (Hsch : schedule n id (events ++ [CopyStep n id d]) = schedule n id events ++ [d]).
  { rewrite schedule_snoc. cbn. by rewrite decide_True. }
  pose proof (try_join_snoc (schedule n id events) d [] up0 down0) as Hj.
  destruct (try_join (schedule n id events) [] up0 down0) as [[[q u] w] r] eqn:Ej. destruct Hm as (-> & Hq & Hu & Hw).
  pose proof (same_join d pool q up u down w Hp Hq Hu Hw) as Hsame. rewrite <- Hj, <- Hsch in Hsame. clear Hj.
  destruct (try_join [d] pool up down) as [[[pool1 up1] down1] r1].
  destruct (try_join (schedule n id (events ++ [CopyStep n id d])) [] up0 down0) as [[[q1 u1] w1] r1'] eqn:Ej1. destruct Hsame as (Hp1 & Hq1 & Hu1 & Hw1 & <-).
  injection Hs as <- <-. split; [done|]. exists s0, r0, b0. split; [set_solver|]. right. exists answer, rng. split; [set_solver|].
  rewrite Epr. destruct r1 as [r1|]; rewrite Ej1; [|done].
  apply same_half_view in Hu1 as [-> Hn1], Hw1 as [-> Hn2]. unfold halves. by rewrite Hn1, Hn2.
Qed.

Lemma accept_bi_inv events log p n id send recv broken c p' :
  plane_inv events log p → connections p !! n = Some c → on_accept_bi n id (Asking send recv broken) c p = Some p' →
  ∃ calls, plane_inv (events ++ [AcceptBi n id send recv broken]) (log ++ calls) p'.
Proof.
  intros Hi Hc Hs. unfold on_accept_bi in Hs. case_bool_decide as Hb; [|done]. destruct Hb as (Hse & _ & Hid).
  rewrite <- (report_nothing n no_counters) in Hs. eexists. eapply put_report_inv; try done.
  - apply Hi.
  - intros up. rewrite new_stream_bytes by done. by destruct up.
  - eapply streams_follow; [done..|]. exists send, recv, broken. split; [set_solver|]. left. split; [done|].
    rewrite schedule_snoc, (pi_turns _ _ _ Hi); [done|]. intros c0 Hc0. congruence.
  - intros id'. cbn. by intros [? _]%lookup_insert_None.
  - intros st. apply (pi_datagrams _ _ _ Hi n c st Hc).
Qed.

Lemma stream_inv events log p n id t q c p' e :
  plane_inv events log p → connections p !! n = Some c → streams c !! id = Some t → on_stream n id t q c p = Some p' →
  pool_ok q.1 → follows (events ++ [e]) n id q.2 → match e with Server _ => False | _ => True end →
  (∀ m id', (m, id') ≠ (n, id) → copies m id' e = None) →
  ∃ calls, plane_inv (events ++ [e]) (log ++ calls) p'.
Proof.
  intros Hi Hc Ht Hs Hq Hf He Hcopy. unfold on_stream in Hs. eexists. eapply put_report_inv; try done.
  - intros up. by apply set_stream_bytes.
  - intros m id' Hm. apply Hcopy. congruence.
  - eapply streams_follow; [done|done| |done]. intros id' Hid. apply Hcopy. congruence.
  - intros id'. cbn. intros [? Hid]%lookup_insert_None. split; [done|]. apply Hcopy. congruence.
  - intros st. apply (pi_datagrams _ _ _ Hi n c st Hc).
Qed.

(** ** Datagrams and ends *)

Lemma set_datagrams_bytes up st st' c :
  datagrams c = Some st →
  connection_bytes up (set_datagrams st' c) - connection_bytes up c = side up (udp_counters st') - side up (udp_counters st).
Proof. intros Ht. unfold connection_bytes. cbn [streams datagrams set_datagrams]. rewrite Ht. lia. Qed.

(** Only the loop can fail. *)
Lemma udp_step_fails st e st' x : udp_step st e = (st', Err x) → of_loop e = true.
Proof. by destruct e. Qed.

Lemma same_streams_follow events log p n c e :
  plane_inv events log p → connections p !! n = Some c → (∀ id, copies n id e = None) →
  ∀ id t, streams c !! id = Some t → follows (events ++ [e]) n id t.
Proof. intros Hi Hc He id t Ht. apply follows_app; [by apply (pi_streams _ _ _ Hi n c)|done]. Qed.

Lemma udp_inv_step events log p n e c p' :
  plane_inv events log p → connections p !! n = Some c → event_ok e → on_udp n e c p = Some p' →
  ∃ calls, plane_inv (events ++ [Udp n e]) (log ++ calls) p'.
Proof.
  intros Hi Hc Hok Hs. unfold on_udp in Hs. apply bind_Some in Hs as (st & Hst & Hs).
  destruct (of_loop e && _) eqn:Eg; [done|].
  pose proof (udp_step_inv st e (pi_datagrams _ _ _ Hi n c st Hc Hst)) as Hst'.
  destruct (udp_step st e) as [st' r] eqn:Eu. cbn [fst] in Hst'.
  assert (Hinv : ∀ st0, datagrams (set_datagrams st' c) = Some st0 → udp_inv st0).
  { intros st0 [= <-]. apply Hst'. by intros ? ? ? ? ? ->. }
  destruct r as [[]|x].
  - eexists. eapply put_report_inv; try done; [apply Hi|intros up; by apply set_datagrams_bytes| |done..].
    by apply (same_streams_follow events log p n c).
  - apply udp_step_fails in Eu. rewrite Eu in Eg. cbn [andb] in Eg. apply negb_false_iff, bool_decide_eq_true in Eg as [Hse _].
    eexists. eapply finish_inv; try done; [intros up; by apply set_datagrams_bytes|].
    by apply (same_streams_follow events log p n c).
Qed.

Lemma closing_inv events log p n of_streams clean c p' :
  plane_inv events log p → connections p !! n = Some c → on_closing n of_streams clean c p = Some p' →
  ∃ calls, plane_inv (events ++ [Closing n of_streams clean]) (log ++ calls) p'.
Proof.
  intros Hi Hc Hs. unfold on_closing in Hs. destruct (_ || negb _) eqn:Eg; [done|].
  apply orb_false_iff in Eg as [_ Hse%negb_false_iff%bool_decide_eq_true].
  assert (Hd : ∀ st, datagrams c = Some st → udp_inv st) by (intros st; by apply (pi_datagrams _ _ _ Hi n c)).
  assert (Hf : ∀ id t, streams c !! id = Some t → follows (events ++ [Closing n of_streams clean]) n id t)
    by by apply (same_streams_follow _ log p).
  assert (Hfin : ∀ r c1, streams c1 = streams c → datagrams c1 = datagrams c → finish n r c1 [] p = Some p' →
    ∃ calls, plane_inv (events ++ [Closing n of_streams clean]) (log ++ calls) p').
  { intros r c1 H1 H2 Hfin. rewrite <- (report_nothing n no_counters) in Hfin. eexists. eapply finish_inv; try done.
    - intros up. unfold connection_bytes. rewrite H1, H2. lia.
    - by rewrite H1.
    - intros id. by rewrite H1.
    - intros st. rewrite H2. apply Hd. }
  destruct clean; [|by eapply Hfin; [| |exact Hs]].
  destruct (loops_joined _); [by eapply Hfin; [| |exact Hs]|]. rewrite <- (report_nothing n no_counters) in Hs.
  eexists. eapply put_report_inv; try done; [apply Hi|]. intros up. unfold connection_bytes. cbn. lia.
Qed.

(** ** The servers *)

Lemma call_bytes_at up n e : call_bytes up n e ≠ 0 → (∃ b, e = Upload n b) ∨ ∃ b, e = Download n b.
Proof. destruct e, up; cbn; try done; intros Hb; destruct (decide (_ = n)) as [->|]; try done; [left|right]; by eexists. Qed.

(** Only a QUIC session that is not authenticated becomes a connection. *)
Lemma auth_quic_new s n padding sent reqs s' :
  servers_step s (AuthQuic n padding sent reqs) = Some s' → ServerRun.sessions s !! n ≫= client = None.
Proof. cbn. by destruct (ServerRun.sessions s !! n) as [[]|]. Qed.

(** The sessions of connections are left alone. *)
Lemma others_keep s e s' n t c :
  servers_step s e = Some s' → ServerRun.sessions s !! n = Some t → session_of c t → e ≠ End n →
  ServerRun.sessions s' !! n = Some t.
Proof.
  intros Hs Hn (i & v & loc & Ht) He.
  assert (Hk : ∃ l, client t = Some l ∧ ∀ m pr conn, t ≠ Handshaking m conn ∧ t ≠ Sniffing pr).
  { subst t. destruct (served c); eexists; split; done. }
  destruct Hk as (l & _ & Hk).
  assert (Hset : ∀ m x s1, ServerRun.sessions s1 = ServerRun.sessions s → m ≠ n →
    ServerRun.sessions (set_session m x s1) !! n = Some t).
  { intros m x s1 Hs1 Hm. cbn. by rewrite lookup_insert_ne, Hs1. }
  destruct e as [c0 setup|e m|m padding sent reqs|m peeks upstream tls|m b|m b|m]; cbn [servers_step] in Hs.
  - destruct (idle_servers s); [|done]. injection Hs as <-. unfold on_start. by destruct (set_up c0 setup).
  - unfold on_loop in Hs. apply bind_Some in Hs as ([c0 a] & _ & Hs). apply bind_Some in Hs as (a' & _ & Hs).
    destruct (spawned _ a e) as [x|]; [|by destruct e; simplify_eq].
    assert (Hs2 : ServerRun.sessions s !! m = None ∧ s' = set_session m x (set_server (length (servers s) - 1) a' s))
      by (destruct e; try done; case_decide; by simplify_eq).
    destruct Hs2 as [Hm ->]. apply Hset; [done|]. intros ->. congruence.
  - destruct (ServerRun.sessions s !! m) as [[j conn| | | | |]|] eqn:Em; try done.
    assert (m ≠ n) as Hm by (intros ->; destruct (Hk j 0%nat conn); congruence). unfold on_auth_quic in Hs.
    apply bind_Some in Hs as ([c0 a] & _ & Hs). destruct (authenticate_connection _ _ _ _).2 as [[name rate]|].
    + apply bind_Some in Hs as (loc' & _ & [= <-]). unfold enter. destruct sent; [|by apply Hset].
      destruct (user _ name). by apply Hset.
    + injection Hs as <-. by apply Hset.
  - destruct (ServerRun.sessions s !! m) as [[|j| | | |]|] eqn:Em; try done.
    assert (m ≠ n) as Hm by (intros ->; destruct (Hk 0%nat j 0%nat); congruence). unfold on_auth_tcp in Hs.
    apply bind_Some in Hs as ([c0 a] & _ & [= <-]). unfold enter. repeat case_match; try done; by apply Hset.
  - apply bind_Some in Hs as ([? ?] & _ & [= <-]). done.
  - apply bind_Some in Hs as ([? ?] & _ & [= <-]). done.
  - apply bind_Some in Hs as (x & Hx & Hs). unfold on_end in Hs.
    assert (m ≠ n) as Hm by congruence. destruct x; simplify_eq; by apply Hset.
Qed.

Lemma connection_init_bytes up udp : connection_bytes up (connection_init udp) = 0.
Proof. unfold connection_bytes. cbn. rewrite map_sum_empty. by destruct udp, up. Qed.

Lemma server_inv events log p e p' :
  plane_inv events log p → on_server e p = Some p' → plane_inv (events ++ [Server e]) (log ++ [e]) p'.
Proof.
  intros Hi Hs. unfold on_server in Hs.
  assert (Hg : ∀ n c, connections p !! n = Some c → e ≠ End n ∧ ∀ up, call_bytes up n e = 0).
  { intros n c Hc. split.
    - intros ->. rewrite bool_decide_eq_true_2 in Hs by by eexists. done.
    - intros up. destruct (decide (call_bytes up n e = 0)) as [|Hne]; [done|]. exfalso.
      destruct (call_bytes_at up n e Hne) as [[b ->]|[b ->]]; by rewrite bool_decide_eq_true_2 in Hs by by eexists. }
  destruct (match e with Upload _ _ => _ | _ => _ end); [done|]. apply bind_Some in Hs as (net' & Hstep & [= <-]).
  assert (Hlog : servers_run servers_init (log ++ [e]) = Some net').
  { rewrite servers_run_app, (pi_log _ _ _ Hi). cbn [mbind option_bind]. by rewrite servers_run_one. }
  set (conns := match e with AuthQuic n _ _ _ => _ | _ => _ end).
  assert (Hcase : conns = connections p ∨ ∃ n udp padding sent reqs i v loc, e = AuthQuic n padding sent reqs ∧
    conns = <[n := connection_init udp]> (connections p) ∧ ServerRun.sessions net' !! n = Some (Serving i Hy2 v loc)).
  { unfold conns. destruct e as [| |n padding sent reqs| | | |]; try by left.
    destruct (ServerRun.sessions net' !! n) as [[| |i [] v loc| | |]|] eqn:En; try by left.
    right. by eexists n, _, padding, sent, reqs, i, v, loc. }
  assert (Hnew : ∀ n padding sent reqs, e = AuthQuic n padding sent reqs →
    connections p !! n = None ∧ ∀ up, bytes_of up n log = 0).
  { intros n padding sent reqs ->. apply auth_quic_new in Hstep. split.
    - destruct (connections p !! n) as [c|] eqn:Ec; [|done]. destruct (pi_session _ _ _ Hi n c Ec) as (t & Ht & i & v & loc & Hv).
      rewrite Ht, Hv in Hstep. by destruct (served c).
    - intros up. by apply (bytes_of_nobody up n servers_init log (net p)); [apply Hi|]. }
  assert (Hone : ∀ up n, bytes_of up n [e] = call_bytes up n e) by (intros up n; unfold bytes_of; cbn [foldr]; lia).
  assert (Hold : ∀ n c, conns !! n = Some c → connections p !! n = Some c ∨
    connections p !! n = None ∧ (∃ udp, c = connection_init udp) ∧ (∀ up, bytes_of up n log = 0 ∧ call_bytes up n e = 0) ∧
    ∃ i v loc, ServerRun.sessions net' !! n = Some (Serving i Hy2 v loc)).
  { intros n c Hc. destruct Hcase as [->|(m & udp & padding & sent & reqs & i & v & loc & He & -> & Hm)]; [by left|].
    apply lookup_insert_Some in Hc as [[<- <-]|[_ Hc]]; [right|by left].
    destruct (Hnew m padding sent reqs He) as [H1 H2]. split_and!; [done|by exists udp| |by exists i, v, loc].
    intros up. split; [done|]. by rewrite He; destruct up. }
  split; cbn [net pool connections]; fold conns.
  - done.
  - by intros [_ ?]%app_nil.
  - intros c setup [Hin|Hin]%elem_of_app; apply elem_of_app; [left; by apply Hi|right].
    apply list_elem_of_singleton in Hin as <-. by left.
  - apply Hi.
  - intros n c [Hc|(_ & [udp ->] & _ & i & v & loc & Hn)]%Hold; [|exists (Serving i Hy2 v loc); split; [done|by exists i, v, loc]].
    destruct (pi_session _ _ _ Hi n c Hc) as (t & Ht & Hv). exists t. split; [|done].
    apply (others_keep _ _ _ n t c Hstep Ht Hv). by apply (Hg n c).
  - intros up n c [Hc|(_ & [udp ->] & Hz & _)]%Hold; rewrite bytes_of_app, Hone.
    + rewrite (proj2 (Hg n c Hc)), Z.add_0_r. by apply Hi.
    + destruct (Hz up) as [-> ->]. by rewrite connection_init_bytes.
  - intros up n Hc. rewrite bytes_of_app, Hone, server_bytes_snoc. f_equal. apply Hi.
    destruct Hcase as [->|(m & udp & padding & sent & reqs & i & v & loc & He & -> & Hm)]; [done|].
    by apply lookup_insert_None in Hc as [? _].
  - intros n c id t [Hc|(_ & [udp ->] & _)]%Hold Ht; [|done]. apply follows_app; [by apply (pi_streams _ _ _ Hi n c)|done].
  - intros n id Hnone. rewrite schedule_snoc. cbn [copies option_list]. rewrite app_nil_r. apply (pi_turns _ _ _ Hi).
    intros c Hc. apply Hnone. destruct Hcase as [->|(m & udp & padding & sent & reqs & i & v & loc & He & -> & Hm)]; [done|].
    rewrite lookup_insert_ne; [done|]. intros ->. destruct (Hnew n padding sent reqs He) as [? _]. congruence.
  - intros n c st [Hc|(_ & [udp ->] & _)]%Hold Hst; [by apply (pi_datagrams _ _ _ Hi n c)|].
    destruct udp; cbn in Hst; [|done]. injection Hst as <-. apply udp_inv_initial.
Qed.

(** ** Every step *)

Lemma plane_step_inv events log p e p' :
  plane_inv events log p → plane_event_ok e → plane_step p e = Some p' →
  ∃ calls, plane_inv (events ++ [e]) (log ++ calls) p'.
Proof.
  intros Hi Hok Hs. destruct e as [e|n id send recv broken|n id answer rng|n id d|n e|n of_streams clean]; cbn [plane_step] in Hs.
  - exists [e]. by apply (server_inv _ _ p).
  - apply bind_Some in Hs as (c & Hc & Hs). by eapply accept_bi_inv.
  - apply bind_Some in Hs as (c & Hc & Hs). apply bind_Some in Hs as (t & Ht & Hs). apply bind_Some in Hs as (t' & Ht' & Hs).
    destruct t as [send recv broken| |]; try done. eapply stream_inv; try done; [apply Hi|].
    eapply prepare_follows; [|done]. by apply (pi_streams _ _ _ Hi n c).
  - apply bind_Some in Hs as (c & Hc & Hs). apply bind_Some in Hs as (t & Ht & Hs). apply bind_Some in Hs as ([q t'] & Ht' & Hs).
    destruct (copy_follows events n id d (pool p) t q t') as [Hq Hf]; [apply Hi|by apply (pi_streams _ _ _ Hi n c)|done|].
    eapply stream_inv; try done. intros m id' Hne. cbn. apply decide_False. intros [-> ->]. done.
  - apply bind_Some in Hs as (c & Hc & Hs). by eapply udp_inv_step.
  - apply bind_Some in Hs as (c & Hc & Hs). by eapply closing_inv.
Qed.

Lemma plane_run_inv events log p later p' :
  plane_inv events log p → Forall plane_event_ok later → plane_run p later = Some p' →
  ∃ calls, plane_inv (events ++ later) (log ++ calls) p'.
Proof.
  revert events log p. induction later as [|e later IH]; intros events log p Hi Hok Hr; cbn [plane_run] in Hr.
  { injection Hr as <-. exists []. by rewrite !app_nil_r. }
  apply Forall_cons in Hok as [He Hok]. apply bind_Some in Hr as (p1 & Hs & Hr).
  destruct (plane_step_inv events log p e p1 Hi He Hs) as [calls Hi1].
  destruct (IH _ _ _ Hi1 Hok Hr) as [calls' Hi']. exists (calls ++ calls'). by rewrite (app_assoc log), cons_middle, (app_assoc events).
Qed.
End invariant.

(** ** The theorems *)

Section theorems.
Context `{Sha256} `{HashIter}.

(** Claim C6. Whatever connections are served, with whatever streams and datagrams, and
    however their steps, those of the servers and the ends of connections are interleaved:
    a stream that shares the pool of buffers and the counters with all others is at every
    moment exactly where [relay_tcp_stream] would be with it alone, with no pooled buffer
    and under the turns it has had: the same bytes for its client and its destination,
    the same count and the same result.  The pool keeps at most 16 buffers, all of the
    full size, and a stream that has not returned can always go on, also when its
    connection is no longer served. *)
Theorem streams_run_alone events p :
  Forall plane_event_ok events → plane_run plane_init events = Some p →
  pool_ok (pool p) ∧
  ∀ n c id t, connections p !! n = Some c → streams c !! id = Some t →
    (∃ send recv recv_broken, AcceptBi n id send recv recv_broken ∈ events ∧
       (t = Asking send recv recv_broken ∨
        ∃ answer rng, Prepare n id answer rng ∈ events ∧
          look t = outcome (alone events n id send recv recv_broken answer rng))) ∧
    match t with
    | Asking _ _ _ => ∀ answer rng, is_Some (plane_step p (Prepare n id answer rng))
    | Relaying _ _ => ∀ d, is_Some (plane_step p (CopyStep n id d))
    | Returned _ _ _ _ => True
    end.
Proof.
  intros Hok Hr. destruct (plane_run_inv [] [] _ _ _ plane_inv_init Hok Hr) as [log Hi]. cbn [app] in Hi.
  split; [apply Hi|]. intros n c id t Hc Ht. split; [by apply follows_alone, (pi_streams _ _ _ Hi n c)|].
  destruct (pi_session _ _ _ Hi n c Hc) as (x & Hx & Hs). destruct (session_of_holder c x Hs) as [y Hy].
  assert (Hput : ∀ q, is_Some (on_stream n id t q c p)).
  { intros q. destruct (report_runs (net p) n (counted t) (counted q.2) y) as [r Hr']; [by rewrite Hx|].
    unfold on_stream, put_connection. rewrite Hr'. by eexists. }
  destruct t as [send recv broken|up down|]; [| |done]; intros; cbn [plane_step]; rewrite Hc; cbn [mbind option_bind]; rewrite Ht;
    cbn [mbind option_bind stream_prepare stream_copy]; [|destruct (try_join _ _ _ _) as [[[? ?] ?] ?]]; apply Hput.
Qed.

(** What a connection has carried: what its streams have counted, and the payloads that
    were sent to destinations and the packets from them that were sent to the client
    whole. *)
Definition carried (up : bool) (c : Connection) : Z :=
  map_sum (fun _ t => side up (counted t)) (streams c) +
  match datagrams c with
  | Some st => if up then total_payload (upstream_sent st) else total_replies (client_sent st)
  | None => 0
  end.

Lemma connection_carried up c :
  (∀ st, datagrams c = Some st → udp_inv st) → wrap 64 (connection_bytes up c) = wrap 64 (carried up c).
Proof.
  intros Hc. unfold connection_bytes, carried. destruct (datagrams c) as [st|]; [|done].
  destruct (Hc st eq_refl). unfold udp_counters. rewrite inv_count, inv_down. unfold wrap.
  destruct up; cbn [side uploaded downloaded]; by rewrite Zplus_mod_idemp_r.
Qed.

(** Claim C7. After any such run, for a user that every configuration has named: the
    traffic listed for it is what its connections have carried, of whichever server and
    whether they are still open.  For an HY2 connection that is what each of its streams
    has counted, and for its datagrams the payloads that were sent to destinations and the
    packets received from them whose datagrams the client was sent in full, including
    what its tasks carried after it had ended; for another what it reported.  The
    connections listed as active are those of its sessions that have not ended. *)
Theorem traffic_of_user u events p :
  Forall plane_event_ok events → plane_run plane_init events = Some p →
  Z.of_nat (size (ServerRun.sessions (net p))) < 2 ^ 64 → events ≠ [] →
  (∀ c setup, Server (Start c setup) ∈ events → u ∈ user_name <$> Config.users c) →
  let of_session up n := match connections p !! n with Some c => carried up c | None => server_bytes up n events end in
  let total up := map_sum (fun n t => if of_user u t then of_session up n else 0) (ServerRun.sessions (net p)) in
  (∃ t, (u, t) ∈ snapshots (registry (net p)) ∧
    uploaded_bytes t = wrap 64 (total true) ∧ downloaded_bytes t = wrap 64 (total false) ∧
    active_connections t = open_sessions u (net p)) ∧
  ∀ n c st, connections p !! n = Some c → datagrams c = Some st → Forall reply_ok (client_sent st).
Proof.
  intros Hok Hr Hsize Hne Hu of_session total. destruct (plane_run_inv [] [] _ _ _ plane_inv_init Hok Hr) as [log Hi]. cbn [app] in Hi.
  assert (Hlog : log ≠ []) by (intros El; by destruct (pi_first _ _ _ Hi El)).
  assert (Hstays : Forall (stays u) log).
  { apply Forall_forall. intros e He. destruct e as [c setup| | | | | |]; try done. apply (Hu c setup). by apply Hi. }
  destruct (listed_traffic u log (net p) (pi_log _ _ _ Hi) Hsize Hlog Hstays) as (t & Ht & Ha & Hup & Hdown).
  assert (Hsum : ∀ up, wrap 64 (run_bytes up u servers_init log) = wrap 64 (total up)).
  { intros up. rewrite (run_bytes_sessions up u servers_init log (net p)) by apply Hi. apply map_sum_wrap.
    intros n x _. destruct (of_user u x); [|done]. unfold of_session. destruct (connections p !! n) as [c|] eqn:Ec.
    - rewrite <- (connection_carried up c) by (intros st; by apply (pi_datagrams _ _ _ Hi n c)). by apply Hi.
    - f_equal. by apply Hi. }
  split; [exists t; by rewrite Hup, Hdown, !Hsum|].
  intros n c st Hc Hst. apply inv_replies, (pi_datagrams _ _ _ Hi n c st Hc Hst).
Qed.
End theorems.

(** ** A connection with two streams and a UDP session *)

Section example_plane.
Let sha := example_sha256.
Let iter := hash_iter_sorted.
#[local] Existing Instances sha iter.

Definition example_served : list PlaneEvent :=
  Server <$> [Start example_config example_setup; Loop (QuicIncoming 1) 0; Loop (Built 1) 0; Loop TakeRate 7;
              AuthQuic 7 (Some (lit "pad")) true Auth.example_requests].

Definition example_stream (id : nat) : list PlaneEvent :=
  [AcceptBi 7 id example_writer example_recv false; Prepare 7 id (Ok (example_reader, example_writer)) example_rng].

(** Both streams take turns; the connection is closed; a stream and the task of the UDP
    session end after it. *)
Definition example_plane_events : list PlaneEvent :=
  example_served ++ example_stream 0 ++ example_stream 1 ++
  ([true; false; true; false; true; false] ≫= fun d => [CopyStep 7 0 d; CopyStep 7 1 d]) ++
  [Udp 7 (Datagram example_datagram 0 true None true); Server (Loop Shutdown 0); Closing 7 true true; CopyStep 7 0 true;
   Closing 7 false true; CopyStep 7 1 true; Udp 7 (Received 1 (lit "1.1.1.1:53") [1; 2] None)].

Definition example_plane : Plane := default plane_init (plane_run plane_init example_plane_events).

Lemma example_plane_ok : Forall plane_event_ok example_plane_events.
Proof. repeat constructor; vm_compute; congruence. Qed.

Lemma example_plane_run : plane_run plane_init example_plane_events = Some example_plane.
Proof.
  assert (Hr : bool_decide (is_Some (plane_run plane_init example_plane_events)) = true) by (vm_compute; reflexivity).
  apply bool_decide_eq_true in Hr as [p Hp]. unfold example_plane. by rewrite Hp.
Qed.

(** The second stream, as it is in the run and as it would be alone. *)
Lemma streams_run_alone_witness :
  ∃ c t, connections example_plane !! 7%nat = Some c ∧ served c = Some (Ok tt) ∧ streams c !! 1%nat = Some t ∧
    (look t).2 = Some (Ok tt) ∧ (look t).1.2 = {| uploaded := 5; downloaded := 2 |} ∧
    ∃ send recv recv_broken, AcceptBi 7 1 send recv recv_broken ∈ example_plane_events ∧
      (t = Asking send recv recv_broken ∨
       ∃ answer rng, Prepare 7 1 answer rng ∈ example_plane_events ∧
         look t = outcome (alone example_plane_events 7 1 send recv recv_broken answer rng)).
Proof.
  destruct (streams_run_alone example_plane_events example_plane example_plane_ok example_plane_run) as [_ Hall].
  eexists _, _. split; [vm_compute; reflexivity|]. split; [vm_compute; reflexivity|]. split; [vm_compute; reflexivity|].
  split; [vm_compute; reflexivity|]. split; [vm_compute; reflexivity|].
  refine (proj1 (Hall 7%nat _ 1%nat _ _ _)); vm_compute; reflexivity.
Defined.

Lemma traffic_of_user_witness :
  ∃ t, (lit "poetry", t) ∈ snapshots (registry (net example_plane)) ∧
    uploaded_bytes t = 11 ∧ downloaded_bytes t = 6 ∧ active_connections t = 0.
Proof.
  destruct (traffic_of_user (lit "poetry") example_plane_events example_plane example_plane_ok example_plane_run)
    as [(t & Ht & Hu & Hd & Ha) _].
  - vm_compute. reflexivity.
  - discriminate.
  - intros c setup Hin.
    assert (Hc : c = example_config).
    { unfold example_plane_events, example_served, example_stream in Hin. cbn in Hin. set_solver. }
    subst c. vm_compute. left.
  - exists t. split; [exact Ht|]. split; [rewrite Hu; vm_compute; reflexivity|].
    split; [rewrite Hd; vm_compute; reflexivity|rewrite Ha; vm_compute; reflexivity].
Defined.

(** One datagram that cannot be sent to its destination ends the whole connection: its
    streams included, since [serve_connection] then drops it. *)
Example one_datagram_ends_connection :
  let events := example_served ++ example_stream 0 ++ [Udp 7 (Datagram example_datagram 0 true None false)] in
  match plane_run plane_init events with
  | Some p =>
      (served <$> connections p !! 7%nat) = Some (Some (Err (DatagramsFailed SendFailed))) ∧
      open_sessions (lit "poetry") (net p) = 0 ∧
      plane_step p (AcceptBi 7 1 example_writer example_recv false) = None
  | None => False
  end.
Proof. vm_compute. done. Qed.
End example_plane.
