(* ===== verification/ShortStore.v ===== *)
(** * The short-link store ([ShortStore] of [src/src/sublink.rs])

    In-memory links that expire, and persisted links of which some expire.  The
    two clocks the code reads, [Instant::now()] and the Unix time, are arguments
    of the operations; the store's file is in a [filesystem] and writing it can
    fail half-way.  TOML is the library interface of the configuration file. *)

From stdpp Require Import base list gmap strings sorting.
From Stdlib Require Import ZArith Lia.
From S2P Require Import Prelude RustStr Files Rules Config.

Open Scope Z_scope.

Record ShortEntry := { entry_code : str; entry_query : str; expires_at : Z }.

Record PersistentShortLink := { link_code : str; link_query : str; expires_at_unix : option Z }.

#[export] Instance PersistentShortLink_eq_dec : EqDecision PersistentShortLink.
Proof. solve_decision. Defined.

Record ShortStore := {
  entries : list ShortEntry;
  permanent : list PersistentShortLink;
  persistence_path : option str;
  limit : nat;
  ttl : Z;
  disabled : bool;
}.

Inductive StoreError := Disabled | NotPersisted | BadStoreFile.

Definition NANOS : Z := 1000000000.

Definition with_entries (s : ShortStore) (l : list ShortEntry) : ShortStore :=
  {| entries := l; permanent := permanent s; persistence_path := persistence_path s; limit := limit s;
     ttl := ttl s; disabled := disabled s |}.

Definition with_permanent (s : ShortStore) (l : list PersistentShortLink) : ShortStore :=
  {| entries := entries s; permanent := l; persistence_path := persistence_path s; limit := limit s;
     ttl := ttl s; disabled := disabled s |}.

(** The first element that satisfies [p] is removed, or changed by [f]. *)
Fixpoint remove_first {A} (p : A → bool) (l : list A) : list A :=
  match l with
  | [] => []
  | x :: l => if p x then l else x :: remove_first p l
  end.

Fixpoint update_first {A} (p : A → bool) (f : A → A) (l : list A) : option (list A) :=
  match l with
  | [] => None
  | x :: l => if p x then Some (f x :: l) else cons x <$> update_first p f l
  end.

(** [prune] at an instant. *)
Definition prune (s : ShortStore) (now : Z) : ShortStore :=
  with_entries s (filter (fun e => now < expires_at e) (entries s)).

(** [put]; [now] is when it prunes, [later] when it computes the expiry. *)
Definition put (s : ShortStore) (code query : str) (now later : Z) : result StoreError ShortStore :=
  if disabled s then Err Disabled
  else
    let s := prune s now in
    let l := remove_first (fun e => str_eqb (entry_code e) code) (entries s) in
    let l := take (limit s - 1) l in
    Ok (with_entries s ({| entry_code := code; entry_query := query; expires_at := later + ttl s |} :: l)).

(** ** Persistence *)

(** How a write of the store's file can go wrong. *)
Inductive WriteFault := NoFault | CannotOpen | Interrupted (n : nat).

(** [options.mode(0o600)] applies to a file that is created. *)
Definition LINKS_MODE : Z := 384.

Definition write_links (fs : filesystem) (path : str) (data : list Z) : filesystem :=
  let m := match fs !! path with Some f => mode f | None => LINKS_MODE end in
  <[path := {| contents := data; mode := m |}]> fs.

Section store.
Context `{TomlLib (list PersistentShortLink)}.

(** [persist]. *)
Definition persist (s : ShortStore) (fs : filesystem) (fault : WriteFault)
    : result StoreError unit * filesystem :=
  match persistence_path s with
  | None => (Ok tt, fs)
  | Some path =>
      match toml_print (permanent s) with
      | None => (Err NotPersisted, fs)
      | Some text =>
          match fault with
          | NoFault => (Ok tt, write_links fs path text)
          | CannotOpen => (Err NotPersisted, fs)
          | Interrupted n => (Err NotPersisted, write_links fs path (take n text))
          end
      end
  end.

(** [put_permanent]: the store is changed also when it could not be written. *)
Definition put_permanent (s : ShortStore) (code query : str) (fs : filesystem) (fault : WriteFault)
    : result StoreError unit * ShortStore * filesystem :=
  if disabled s then (Err Disabled, s, fs)
  else
    let entry := {| link_code := code; link_query := query; expires_at_unix := None |} in
    let l := match update_first (fun e => str_eqb (link_code e) code) (fun _ => entry) (permanent s) with
             | Some l => l
             | None => permanent s ++ [entry]
             end in
    let s := with_permanent s l in
    let '(r, fs) := persist s fs fault in
    (r, s, fs).

Definition live (now : Z) (e : PersistentShortLink) : bool :=
  match expires_at_unix e with None => true | Some t => now <? t end.

Definition is_expiring (e : PersistentShortLink) : bool :=
  match expires_at_unix e with None => false | Some _ => true end.

(** The index and the expiry of the expiring links, from index [i]. *)
Fixpoint indexed_expiries (i : nat) (l : list PersistentShortLink) : list (nat * Z) :=
  match l with
  | [] => []
  | e :: l =>
      match expires_at_unix e with
      | Some t => (i, t) :: indexed_expiries (S i) l
      | None => indexed_expiries (S i) l
      end
  end.

Definition count_expiring (l : list PersistentShortLink) : nat := length (filter (fun e => is_expiring e = true) l).

(** The [while] loop: each turn removes a link, so the length is fuel enough. *)
Fixpoint evict_fuel (fuel lim : nat) (l : list PersistentShortLink) : list PersistentShortLink :=
  match fuel with
  | O => l
  | S fuel =>
      if (lim <=? count_expiring l)%nat then
        match min_by_key snd (indexed_expiries 0 l) with
        | None => l
        | Some (index, _) => evict_fuel fuel lim (delete index l)
        end
      else l
  end.

Definition evict (lim : nat) (l : list PersistentShortLink) : list PersistentShortLink :=
  evict_fuel (length l) lim l.

(** [put_persisted_expiring] at a Unix time. *)
Definition put_persisted_expiring (s : ShortStore) (code query : str) (now : Z) (fs : filesystem)
    (fault : WriteFault) : result StoreError unit * ShortStore * filesystem :=
  if disabled s then (Err Disabled, s, fs)
  else
    let l := filter (fun e => live now e = true) (permanent s) in
    let entry := {| link_code := code; link_query := query;
                    expires_at_unix := Some (sat_add now (ttl s / NANOS)) |} in
    let l := match update_first (fun e => str_eqb (link_code e) code) (fun _ => entry) l with
             | Some l => l
             | None => evict (limit s) l ++ [entry]
             end in
    let s := with_permanent s l in
    let '(r, fs) := persist s fs fault in
    (r, s, fs).

(** [get] at an instant and a Unix time. *)
Definition get (s : ShortStore) (code : str) (now now_unix : Z) : option str * ShortStore :=
  let s := prune s now in
  let found :=
    match find_first (fun e => str_eqb (link_code e) code && live now_unix e) (permanent s) with
    | Some e => Some (link_query e)
    | None => entry_query <$> find_first (fun e => str_eqb (entry_code e) code) (entries s)
    end in
  (found, s).

(** [from_env]; the three settings come from the environment. *)
Definition from_env (path : option str) (fs : filesystem) (lim : nat) (ttl_seconds : Z) (off : bool)
    : result StoreError ShortStore :=
  links ←
    match path with
    | None => Ok []
    | Some p =>
        match fs !! p with
        | None => Ok []
        | Some f => ok_or BadStoreFile (from_utf8 (contents f) ≫= toml_parse)
        end
    end;
  Ok {| entries := []; permanent := links; persistence_path := path; limit := lim;
        ttl := ttl_seconds * NANOS; disabled := off |}.
End store.

(** ** Searching and updating lists *)

Section search.
Context {A : Type}.
Implicit Types (p q : A → bool) (l : list A).

Lemma update_first_None p f l : update_first p f l = None → ∀ x, x ∈ l → p x = false.
Proof.
  induction l as [|y l IH]; cbn; [set_solver|]. destruct (p y) eqn:E; [done|].
  rewrite fmap_None. intros Hl x [->|Hx]%elem_of_cons; [done|]. by apply IH.
Qed.

Lemma update_first_Some p f l l' :
  update_first p f l = Some l' → ∃ a x b, l = a ++ x :: b ∧ l' = a ++ f x :: b ∧ p x = true ∧
                                          Forall (fun y => p y = false) a.
Proof.
  revert l'. induction l as [|y l IH]; intros l'; cbn; [done|]. destruct (p y) eqn:E.
  - intros [= <-]. exists [], y, l. by repeat constructor.
  - intros (l1 & H1 & ->)%fmap_Some. destruct (IH l1 H1) as (a & x & b & -> & -> & ? & ?).
    exists (y :: a), x, b. split_and!; try done. by constructor.
Qed.

Lemma remove_first_sublist p l : remove_first p l `sublist_of` l.
Proof.
  induction l as [|y l IH]; cbn; [done|]. destruct (p y); [by apply sublist_cons|by apply sublist_skip].
Qed.

Lemma find_remove_first p q l :
  (∀ x, p x = true → q x = true → False) → find_first q (remove_first p l) = find_first q l.
Proof.
  intros Hpq. induction l as [|y l IH]; cbn; [done|]. destruct (p y) eqn:E.
  - destruct (q y) eqn:Eq; [by destruct (Hpq y)|done].
  - cbn. by rewrite IH.
Qed.
End search.

(** ** The in-memory links *)

(** At most [limit] links, no two with the same code, the latest to expire first
    and none beyond the time to live at the instant [now]. *)
Record store_ok (s : ShortStore) (now : Z) : Prop := {
  ok_limit : (1 ≤ limit s)%nat;
  ok_ttl : 0 ≤ ttl s;
  ok_size : (length (entries s) ≤ limit s)%nat;
  ok_codes : NoDup (entry_code <$> entries s);
  ok_order : StronglySorted (fun a b => expires_at b ≤ expires_at a) (entries s);
  ok_expiry : Forall (fun e => expires_at e ≤ now + ttl s) (entries s);
}.

Lemma StronglySorted_sublist {A} (R : A → A → Prop) l k :
  l `sublist_of` k → StronglySorted R k → StronglySorted R l.
Proof.
  induction 1 as [|x l k Hs IH|x l k Hs IH]; [done| |]; inversion 1; subst.
  - constructor; [by apply IH|]. rewrite Forall_forall in *. intros y Hy.
    match goal with H : ∀ _, _ → R x _ |- _ => apply H end. by eapply elem_of_sublist.
  - by apply IH.
Qed.

Lemma filter_prop_sublist {A} (P : A → Prop) `{∀ x, Decision (P x)} (l : list A) : filter P l `sublist_of` l.
Proof.
  induction l as [|x l IH]; [done|]. rewrite filter_cons. case_decide; [by apply sublist_skip|by apply sublist_cons].
Qed.

Lemma store_ok_sublist s l now :
  store_ok s now → l `sublist_of` entries s → store_ok (with_entries s l) now.
Proof.
  intros [H1 H2 H3 H4 H5 H6] Hl. split; cbn; try done.
  - apply sublist_length in Hl. lia.
  - eapply sublist_NoDup; [exact H4|]. by apply fmap_sublist.
  - by eapply StronglySorted_sublist.
  - rewrite Forall_forall in *. intros e He. apply H6. by eapply elem_of_sublist.
Qed.

Lemma prune_ok s now t : store_ok s now → store_ok (prune s t) now.
Proof. intros Hs. apply store_ok_sublist; [done|]. apply filter_prop_sublist. Qed.

(** The entries that [put] keeps. *)
Definition kept (s : ShortStore) (code : str) (now : Z) : list ShortEntry :=
  remove_first (fun e => str_eqb (entry_code e) code) (entries (prune s now)).

Lemma kept_sublist s code now : kept s code now `sublist_of` entries s.
Proof. unfold kept. etrans; [apply remove_first_sublist|]. apply filter_prop_sublist. Qed.

Lemma kept_code s code now t :
  store_ok s t → ∀ e, e ∈ kept s code now → entry_code e ≠ code.
Proof.
  intros Hs. pose proof (ok_codes _ _ (prune_ok s t now Hs)) as Hnd. unfold kept.
  induction (entries (prune s now)) as [|x l IH]; cbn in *; [set_solver|].
  apply NoDup_cons in Hnd as [Hx Hnd]. destruct (str_eqb (entry_code x) code) eqn:E.
  - apply str_eqb_eq in E as <-. intros e He Heq. apply Hx. rewrite <- Heq. by apply list_elem_of_fmap_2.
  - intros e [->|He]%elem_of_cons; [|by apply IH]. intros Heq%str_eqb_eq. congruence.
Qed.

(** What [get] answers, and what the persisted links alone answer. *)
Definition answer (s : ShortStore) (code : str) (now now_unix : Z) : option str :=
  (get s code now now_unix).1.

Definition persisted_answer (l : list PersistentShortLink) (code : str) (now_unix : Z) : option str :=
  link_query <$> find_first (fun e => str_eqb (link_code e) code && live now_unix e) l.

Definition memory_answer (l : list ShortEntry) (code : str) (now : Z) : option str :=
  entry_query <$> find_first (fun e => str_eqb (entry_code e) code) (filter (fun e => now < expires_at e) l).

Lemma answer_spec s code now u :
  answer s code now u =
    match persisted_answer (permanent s) code u with
    | Some q => Some q
    | None => memory_answer (entries s) code now
    end.
Proof. unfold answer, get, persisted_answer, memory_answer. cbn. by destruct (find_first _ (permanent s)). Qed.

Lemma filter_filter_later (l : list ShortEntry) now t :
  now ≤ t → filter (fun e => t < expires_at e) (filter (fun e => now < expires_at e) l)
            = filter (fun e => t < expires_at e) l.
Proof.
  intros Ht. induction l as [|e l IH]; [done|]. rewrite !filter_cons.
  destruct (decide (now < expires_at e)); [rewrite filter_cons, IH; done|].
  rewrite decide_False by lia. done.
Qed.

Lemma memory_kept s code c now t t0 :
  now ≤ t → c ≠ code → store_ok s t0 →
  memory_answer (kept s code now) c t = memory_answer (entries s) c t.
Proof.
  intros Ht Hc Hs. unfold memory_answer, kept. f_equal.
  rewrite <- (filter_filter_later (entries s) now t) by done.
  unfold prune. cbn [entries with_entries]. generalize (filter (fun e => now < expires_at e) (entries s)) as l.
  intros l. induction l as [|e l IH]; [done|]. cbn [remove_first].
  destruct (str_eqb (entry_code e) code) eqn:E; rewrite !filter_cons.
  - apply str_eqb_eq in E. case_decide; [|done]. cbn [find_first].
    destruct (str_eqb (entry_code e) c) eqn:E'; [|done]. apply str_eqb_eq in E'. congruence.
  - case_decide; cbn [find_first]; by rewrite IH.
Qed.

Lemma memory_none l code t : (∀ e, e ∈ l → entry_code e ≠ code) → memory_answer l code t = None.
Proof.
  intros Hl. unfold memory_answer. rewrite find_first_None; [done|].
  intros e [_ He]%list_elem_of_filter. apply not_true_iff_false. rewrite str_eqb_eq. by apply Hl.
Qed.

(** The link just put is answered until it expires. *)
Lemma put_answer s code query now later s' t u :
  store_ok s now → put s code query now later = Ok s' →
  answer s' code t u = match persisted_answer (permanent s) code u with
                       | Some q => Some q
                       | None => if decide (t < later + ttl s) then Some query else None
                       end.
Proof.
  intros Hs Hput. unfold put in Hput. destruct (disabled s); [done|]. injection Hput as <-.
  fold (kept s code now). rewrite answer_spec. cbn [permanent with_entries prune entries].
  destruct (persisted_answer _ _ _); [done|]. unfold memory_answer. rewrite filter_cons. cbn [expires_at].
  change (ttl (prune s now)) with (ttl s). destruct (decide (t < later + ttl s)).
  - cbn [find_first entry_code]. by rewrite (proj2 (str_eqb_eq code code)).
  - apply (memory_none (take _ (kept s code now))). intros e He. apply (kept_code s code now now Hs).
    by eapply elem_of_sublist, sublist_take.
Qed.

(** A link put in memory can be fetched with its query until its time to
    live has passed, and not after, unless a live persisted link has its code.
    The store keeps its bound, the persisted links and every other link that is
    still live; only when [limit] others are live is one dropped, and then those
    dropped are among the first to expire. *)
Theorem short_store_put s code query now later s' :
  store_ok s now → now ≤ later → put s code query now later = Ok s' →
  store_ok s' later ∧ permanent s' = permanent s ∧
  ∀ t u, later ≤ t →
    answer s' code t u = match persisted_answer (permanent s) code u with
                         | Some q => Some q
                         | None => if decide (t < later + ttl s) then Some query else None
                         end ∧
    (∀ c, c ≠ code → (length (kept s code now) < limit s)%nat → answer s' c t u = answer s c t u) ∧
    (∀ e e', e ∈ kept s code now → e ∉ entries s' → e' ∈ entries s' → expires_at e ≤ expires_at e').
Proof.
  intros Hs Hlater Hput. pose proof (fun t u => put_answer s code query now later s' t u Hs Hput) as Hans.
  unfold put in Hput. destruct (disabled s); [done|]. injection Hput as <-.
  fold (kept s code now) in *. change (limit (prune s now)) with (limit s). change (ttl (prune s now)) with (ttl s).
  set (new := {| entry_code := code; entry_query := query; expires_at := later + ttl s |}).
  pose proof (store_ok_sublist s _ now Hs (kept_sublist s code now)) as Hk.
  pose proof (kept_code s code now now Hs) as Hcode.
  assert (Htake : ∀ e, e ∈ take (limit s - 1) (kept s code now) → e ∈ kept s code now)
    by (intros e He; by eapply elem_of_sublist, sublist_take).
  destruct Hk as [K1 K2 K3 K4 K5 K6]. cbn [entries with_entries limit ttl] in *.
  split; [|split; [done|]].
  - pose proof (store_ok_sublist _ _ now Hs (transitivity (sublist_take _ (limit s - 1)) (kept_sublist s code now)))
      as [L1 L2 L3 L4 L5 L6]. cbn [entries with_entries limit ttl] in *. split; cbn; try done.
    + rewrite length_take. lia.
    + apply NoDup_cons. split; [|done]. intros Hin. apply list_elem_of_fmap in Hin as (e & He & Hin).
      by apply (Hcode e); [apply Htake|].
    + constructor; [done|]. eapply Forall_impl; [exact L6|]. cbn. lia.
    + constructor; [cbn; lia|]. eapply Forall_impl; [exact L6|]. cbn. lia.
  - intros t u Ht. split_and!.
    + apply Hans.
    + intros c Hc Hroom. rewrite !answer_spec. cbn [permanent with_entries prune entries].
      destruct (persisted_answer _ _ _); [done|]. rewrite (take_ge (kept s code now)) by lia.
      rewrite <- (memory_kept s code c now t now) by (done || lia).
      unfold memory_answer. rewrite filter_cons. case_decide; [|done]. cbn [find_first].
      destruct (str_eqb (entry_code new) c) eqn:E; [|done]. apply str_eqb_eq in E. by subst c.
    + intros e e' He Hgone Hin. rewrite <- (take_drop (limit s - 1) (kept s code now)) in He, K5.
      apply elem_of_app in He as [He|He]; [destruct Hgone; by right|].
      apply elem_of_cons in Hin as [->|Hin].
      * rewrite Forall_forall in K6. cbn. specialize (K6 e).
        assert (e ∈ kept s code now) by (rewrite <- (take_drop (limit s - 1)); by apply elem_of_app; right).
        specialize (K6 H). lia.
      * apply StronglySorted_app in K5 as (K5 & _ & _). by apply K5.
Qed.

Definition example_store : ShortStore :=
  {| entries := [{| entry_code := lit "b"; entry_query := lit "?2"; expires_at := 900 |};
                 {| entry_code := lit "a"; entry_query := lit "?1"; expires_at := 500 |}];
     permanent := []; persistence_path := None; limit := 2; ttl := 1000; disabled := false |}.

Definition example_store_after : ShortStore :=
  with_entries example_store
    [{| entry_code := lit "c"; entry_query := lit "?3"; expires_at := 1101 |};
     {| entry_code := lit "b"; entry_query := lit "?2"; expires_at := 900 |}].

Lemma short_store_put_witness :
  ∃ s', put example_store (lit "c") (lit "?3") 100 101 = Ok s' ∧ store_ok s' 101 ∧
    answer s' (lit "c") 1100 0 = Some (lit "?3") ∧ answer s' (lit "c") 1101 0 = None ∧
    answer s' (lit "a") 200 0 = None ∧ answer s' (lit "b") 200 0 = Some (lit "?2").
Proof.
  exists example_store_after. split; [reflexivity|].
  destruct (short_store_put example_store (lit "c") (lit "?3") 100 101 example_store_after) as (Hok & _ & H);
    [|done|reflexivity|].
  { split; cbn; try lia.
    - by apply NoDup_cons; split; [set_solver|apply NoDup_singleton].
    - repeat constructor; cbn; lia.
    - repeat constructor; cbn; lia. }
  split; [exact Hok|]. split; [by destruct (H 1100 0 ltac:(done)) as [-> _]|].
  split; [by destruct (H 1101 0 ltac:(done)) as [-> _]|]. by vm_compute.
Defined.

(** ** The persisted links *)

Definition code_is (code : str) (e : PersistentShortLink) : bool := str_eqb (link_code e) code.

Lemma code_is_true code e : code_is code e = true ↔ link_code e = code.
Proof. apply str_eqb_eq. Qed.

(** Replacing the first link of a code by another of that code. *)
Lemma persisted_update code e l l' c u :
  update_first (code_is code) (fun _ => e) l = Some l' → link_code e = code → live u e = true →
  persisted_answer l' c u = if decide (c = code) then Some (link_query e) else persisted_answer l c u.
Proof.
  intros H Hcode Hlive. apply update_first_Some in H as (a & x & b & -> & -> & Hx & Ha).
  apply code_is_true in Hx. unfold persisted_answer. rewrite !find_first_app. cbn [find_first].
  rewrite Hcode, Hx, Hlive, andb_true_r. destruct (decide (c = code)) as [->|Hne].
  - rewrite find_first_None, (proj2 (str_eqb_eq code code)); [done..|].
    intros y Hy. rewrite Forall_forall in Ha. specialize (Ha y Hy). unfold code_is in Ha. by rewrite Ha.
  - destruct (str_eqb code c) eqn:E; [apply str_eqb_eq in E; congruence|]. done.
Qed.

(** Appending a link whose code is new. *)
Lemma persisted_append e l c u :
  (∀ x, x ∈ l → link_code x ≠ link_code e) → live u e = true →
  persisted_answer (l ++ [e]) c u = if decide (c = link_code e) then Some (link_query e) else persisted_answer l c u.
Proof.
  intros Hl Hlive. unfold persisted_answer. rewrite find_first_app. cbn [find_first]. rewrite Hlive, andb_true_r.
  destruct (decide (c = link_code e)) as [->|Hne].
  - rewrite find_first_None; [by rewrite (proj2 (str_eqb_eq (link_code e) (link_code e)) eq_refl)|].
    intros y Hy. apply andb_false_intro1, not_true_iff_false. rewrite str_eqb_eq. by apply Hl.
  - destruct (str_eqb (link_code e) c) eqn:E; [apply str_eqb_eq in E; congruence|].
    by destruct (find_first _ l).
Qed.

Definition insert_link (e : PersistentShortLink) (l : list PersistentShortLink) : list PersistentShortLink :=
  match update_first (code_is (link_code e)) (fun _ => e) l with
  | Some l => l
  | None => l ++ [e]
  end.

Lemma insert_link_answer e l c u :
  live u e = true →
  persisted_answer (insert_link e l) c u
    = if decide (c = link_code e) then Some (link_query e) else persisted_answer l c u.
Proof.
  intros Hlive. unfold insert_link. destruct (update_first _ _ l) as [l'|] eqn:E.
  - by apply (persisted_update (link_code e) e l).
  - apply persisted_append; [|done]. intros x Hx.
    apply (update_first_None _ _ _ E) in Hx. unfold code_is in Hx. intros Heq%str_eqb_eq. congruence.
Qed.

Lemma persist_reload `{TomlLib (list PersistentShortLink)} s fs path fs' :
  persistence_path s = Some path → persist s fs NoFault = (Ok tt, fs') →
  ∀ lim seconds off, ∃ s', from_env (Some path) fs' lim seconds off = Ok s' ∧
    permanent s' = permanent s ∧ entries s' = [] ∧ persistence_path s' = Some path.
Proof.
  intros Hpath Hp lim seconds off. unfold persist in Hp. rewrite Hpath in Hp.
  destruct (toml_print (permanent s)) as [text|] eqn:E; [|done]. injection Hp as <-.
  pose proof (toml_print_utf8 _ _ E) as Hu. apply toml_print_parse in E.
  unfold from_env, write_links. rewrite lookup_insert_eq. cbn [contents]. unfold from_utf8.
  rewrite Hu. cbn. rewrite E. cbn. eexists. by split.
Qed.

(** Storing a permanent link changes the persisted answers at its code only. *)
Lemma put_permanent_links `{TomlLib (list PersistentShortLink)} s code query fs fault r s' fs' :
  disabled s = false → put_permanent s code query fs fault = (r, s', fs') →
  let e := {| link_code := code; link_query := query; expires_at_unix := None |} in
  s' = with_permanent s (insert_link e (permanent s)) ∧ persist s' fs fault = (r, fs') ∧
  ∀ c u, persisted_answer (permanent s') c u
         = if decide (c = code) then Some query else persisted_answer (permanent s) c u.
Proof.
  intros Hd Hput e. unfold put_permanent in Hput. rewrite Hd in Hput. fold e in Hput.
  change (match update_first _ _ (permanent s) with Some l => l | None => permanent s ++ [e] end)
    with (insert_link e (permanent s)) in Hput.
  destruct (persist _ fs fault) as [r1 fs1] eqn:Ep. injection Hput as -> <- ->.
  split_and!; [done|done|]. intros. by apply insert_link_answer.
Qed.

Lemma put_permanent_enabled `{TomlLib (list PersistentShortLink)} s code query fs fault s' fs' :
  put_permanent s code query fs fault = (Ok tt, s', fs') → disabled s = false.
Proof. unfold put_permanent. by destruct (disabled s). Qed.

Lemma put_permanent_answers `{TomlLib (list PersistentShortLink)} s code query fs fault s' fs' :
  put_permanent s code query fs fault = (Ok tt, s', fs') →
  ∀ t u, answer s' code t u = Some query ∧ ∀ c, c ≠ code → answer s' c t u = answer s c t u.
Proof.
  intros Hput t u. pose proof (put_permanent_enabled _ _ _ _ _ _ _ Hput) as Hd.
  destruct (put_permanent_links _ _ _ _ _ _ _ _ Hd Hput) as (Hs' & _ & Hans).
  setoid_rewrite answer_spec. split; [by rewrite Hans, decide_True|].
  intros c Hc. rewrite Hans, decide_False by done. by rewrite Hs'.
Qed.

(** A store started from the file answers from the persisted links. *)
Lemma reload_answers `{TomlLib (list PersistentShortLink)} s path code query fs s' fs' :
  persistence_path s = Some path → put_permanent s code query fs NoFault = (Ok tt, s', fs') →
  ∀ lim seconds off, ∃ s'', from_env (Some path) fs' lim seconds off = Ok s'' ∧
    ∀ t u, answer s'' code t u = Some query ∧
           ∀ c, c ≠ code → answer s'' c t u = persisted_answer (permanent s) c u.
Proof.
  intros Hpath Hput lim seconds off. pose proof (put_permanent_enabled _ _ _ _ _ _ _ Hput) as Hd.
  destruct (put_permanent_links _ _ _ _ _ _ _ _ Hd Hput) as (Hs' & Hp & Hans).
  destruct (persist_reload s' fs path fs') with lim seconds off as (s'' & Hs'' & Hperm & Hent & _);
    [by rewrite Hs'|done|].
  exists s''. split; [done|]. intros t u. setoid_rewrite answer_spec. rewrite Hperm, Hent.
  split; [by rewrite Hans, decide_True|]. intros c Hc. rewrite Hans, decide_False by done.
  by destruct (persisted_answer _ _ _).
Qed.

(** A permanent link that was stored is answered under its code at any
    time, by the running store and by one started later from the file, whatever
    its settings; and every other link is answered as before. *)
Theorem put_permanent_survives `{TomlLib (list PersistentShortLink)} s path code query fs s' fs' :
  persistence_path s = Some path →
  put_permanent s code query fs NoFault = (Ok tt, s', fs') →
  (∀ t u, answer s' code t u = Some query ∧ ∀ c, c ≠ code → answer s' c t u = answer s c t u) ∧
  (∀ lim seconds off, ∃ s'', from_env (Some path) fs' lim seconds off = Ok s'' ∧
     ∀ t u, answer s'' code t u = Some query ∧
            ∀ c, c ≠ code → answer s'' c t u = persisted_answer (permanent s) c u).
Proof.
  intros Hpath Hput. split; [by eapply put_permanent_answers|by eapply reload_answers].
Qed.

(** *** Eviction *)

Lemma indexed_expiries_elem l k i t :
  (i, t) ∈ indexed_expiries k l ↔
  ∃ j e, i = (k + j)%nat ∧ l !! j = Some e ∧ expires_at_unix e = Some t.
Proof.
  revert k. induction l as [|x l IH]; intros k; cbn [indexed_expiries].
  - split; [set_solver|]. by intros (j & e & _ & H & _).
  - assert (Hshift : (∃ j e, i = (S k + j)%nat ∧ l !! j = Some e ∧ expires_at_unix e = Some t) ↔
      ∃ j e, i = (k + S j)%nat ∧ l !! j = Some e ∧ expires_at_unix e = Some t).
    { split; intros (j & e & -> & ?); exists j, e; (split; [lia|done]). }
    destruct (expires_at_unix x) as [tx|] eqn:E; rewrite ?elem_of_cons, IH, Hshift; split.
    + intros [[= -> ->]|(j & e & -> & ?)]; [exists 0%nat, x; split; [lia|done]|by exists (S j), e].
    + intros ([|j] & e & -> & Hl & He); cbn in Hl; [left|right; by exists j, e].
      simplify_eq. by rewrite Nat.add_0_r.
    + intros (j & e & -> & ?). by exists (S j), e.
    + intros ([|j] & e & -> & Hl & He); cbn in Hl; [simplify_eq|by exists j, e].
Qed.

Definition expiry (e : PersistentShortLink) : Z := default 0 (expires_at_unix e).

(** A link that is evicted expires, and no later than any expiring link kept. *)
Definition evicted_well (l l' : list PersistentShortLink) : Prop :=
  l' `sublist_of` l ∧
  ∀ e, e ∈ l → e ∉ l' → is_expiring e = true ∧ ∀ e', e' ∈ l' → is_expiring e' = true → expiry e ≤ expiry e'.

Lemma count_expiring_perm l k : l ≡ₚ k → count_expiring l = count_expiring k.
Proof. intros H. unfold count_expiring. by rewrite H. Qed.

Lemma evict_one l i t :
  min_by_key snd (indexed_expiries 0 l) = Some (i, t) →
  ∃ e, l !! i = Some e ∧ is_expiring e = true ∧ l ≡ₚ e :: delete i l ∧
       count_expiring l = S (count_expiring (delete i l)) ∧
       ∀ e', e' ∈ l → is_expiring e' = true → expiry e ≤ expiry e'.
Proof.
  intros Hm. apply min_by_key_Some in Hm as [Hin Hmin].
  apply indexed_expiries_elem in Hin as (j & e & -> & Hj & He). cbn in Hj. exists e.
  assert (Hexp : is_expiring e = true) by (unfold is_expiring; by rewrite He).
  assert (Hperm : l ≡ₚ e :: delete j l) by (by apply delete_Permutation). split_and!; [done|done|done| |].
  - rewrite (count_expiring_perm _ _ Hperm). unfold count_expiring. rewrite filter_cons_True by done. done.
  - intros e' [k Hk]%list_elem_of_lookup Hexp'. unfold is_expiring in Hexp'.
    destruct (expires_at_unix e') as [t'|] eqn:E'; [|done].
    specialize (Hmin (k, t')). rewrite indexed_expiries_elem in Hmin. cbn in Hmin.
    unfold expiry. rewrite He, E'. cbn. apply Hmin. by exists k, e'.
Qed.

Lemma evict_fuel_spec fuel lim l :
  (1 ≤ lim)%nat → (count_expiring l ≤ fuel)%nat →
  evicted_well l (evict_fuel fuel lim l) ∧ (count_expiring (evict_fuel fuel lim l) < lim)%nat ∧
  ((count_expiring l < lim)%nat → evict_fuel fuel lim l = l).
Proof.
  intros Hlim. revert l. induction fuel as [|fuel IH]; intros l Hf; cbn [evict_fuel].
  { split_and!; [by split|lia|done]. }
  destruct (Nat.leb_spec lim (count_expiring l)) as [Hge|Hlt]; [|by split_and!; [split| |]].
  destruct (min_by_key snd (indexed_expiries 0 l)) as [[i t]|] eqn:E.
  - destruct (evict_one l i t E) as (e & Hi & Hexp & Hperm & Hcount & Hmin).
    destruct (IH (delete i l)) as ([Hsub Hgone] & Hlt' & _); [lia|].
    split_and!; [split|done|lia].
    + etrans; [exact Hsub|apply sublist_delete].
    + intros x Hx Hnot. rewrite Hperm, elem_of_cons in Hx. destruct (decide (x ∈ delete i l)) as [Hd|Hd].
      * by apply Hgone.
      * destruct Hx as [->|]; [|done]. split; [done|]. intros e' He' Hexp'. apply Hmin; [|done].
        eapply elem_of_sublist; [exact He'|]. etrans; [exact Hsub|apply sublist_delete].
  - exfalso. apply min_by_key_None in E. unfold count_expiring in Hge.
    destruct (filter (fun e => is_expiring e = true) l) as [|e r] eqn:Ef; [cbn in Hge; lia|].
    assert (He : e ∈ filter (fun e => is_expiring e = true) l) by (rewrite Ef; by left).
    apply list_elem_of_filter in He as [He [j Hj]%list_elem_of_lookup]. unfold is_expiring in He.
    destruct (expires_at_unix e) as [t|] eqn:Et; [|done].
    assert (Hin : (j, t) ∈ indexed_expiries 0 l) by (apply indexed_expiries_elem; by exists j, e).
    rewrite E in Hin. by apply not_elem_of_nil in Hin.
Qed.

Lemma evict_spec lim l :
  (1 ≤ lim)%nat →
  evicted_well l (evict lim l) ∧ (count_expiring (evict lim l) < lim)%nat ∧
  ((count_expiring l < lim)%nat → evict lim l = l).
Proof.
  intros Hlim. apply evict_fuel_spec; [done|]. unfold count_expiring. apply length_filter.
Qed.

Lemma count_expiring_app l k : count_expiring (l ++ k) = (count_expiring l + count_expiring k)%nat.
Proof. unfold count_expiring. by rewrite filter_app, length_app. Qed.

Lemma count_expiring_sublist l k : l `sublist_of` k → (count_expiring l ≤ count_expiring k)%nat.
Proof.
  induction 1 as [|x l k _ IH|x l k _ IH]; unfold count_expiring in *; [done| |]; rewrite !filter_cons;
    case_decide; cbn; lia.
Qed.

(** Storing an expiring link leaves at most [limit] of them and no
    expired one.  It is answered until it expires.  A link that does not expire is
    never lost, and an expiring one is dropped only to make room, when it expires
    no later than every other one that is kept. *)
Theorem put_persisted_expiring_spec `{TomlLib (list PersistentShortLink)} s code query now fs fault r s' fs' :
  disabled s = false → (1 ≤ limit s)%nat → (count_expiring (permanent s) ≤ limit s)%nat →
  (∀ e, e ∈ permanent s → link_code e = code → is_expiring e = true) →
  put_persisted_expiring s code query now fs fault = (r, s', fs') →
  (count_expiring (permanent s') ≤ limit s)%nat ∧
  Forall (fun e => link_code e ≠ code → live now e = true) (permanent s') ∧
  (∀ t u, u < sat_add now (ttl s / NANOS) → answer s' code t u = Some query) ∧
  (∀ e, e ∈ permanent s → link_code e ≠ code → live now e = true → e ∉ permanent s' →
     is_expiring e = true ∧
     ∀ e', e' ∈ permanent s' → link_code e' ≠ code → is_expiring e' = true → expiry e ≤ expiry e').
Proof.
  intros Hdis Hlim Hcount Hcode Hput. unfold put_persisted_expiring in Hput. rewrite Hdis in Hput.
  set (l := filter (fun e => live now e = true) (permanent s)) in *.
  set (new := {| link_code := code; link_query := query; expires_at_unix := Some _ |}) in *.
  set (l' := match update_first _ _ l with Some _ => _ | None => _ end) in *.
  destruct (persist (with_permanent s l') fs fault) as [r1 fs1]. injection Hput as <- <- <-.
  cbn [permanent with_permanent].
  assert (Hl : l `sublist_of` permanent s) by apply filter_prop_sublist.
  pose proof (count_expiring_sublist _ _ Hl) as Hcl.
  assert (Hlive : ∀ e, e ∈ l → live now e = true) by (by intros e [? _]%list_elem_of_filter).
  unfold l'. destruct (update_first _ _ l) as [l1|] eqn:E.
  - pose proof E as E'. apply update_first_Some in E as (a & x & b & Hal & -> & Hx & Ha).
    apply str_eqb_eq in Hx. split_and!.
    + assert (Hx' : is_expiring x = true).
      { apply Hcode; [|done]. eapply elem_of_sublist; [|exact Hl]. rewrite Hal. set_solver. }
      rewrite Hal in Hcl. unfold count_expiring in *. rewrite filter_app, filter_cons_True in Hcl |- * by done.
      rewrite length_app in *. cbn in *. lia.
    + apply Forall_forall. intros e He Hne. apply Hlive. rewrite Hal. set_solver.
    + intros t u Hu. rewrite answer_spec. cbn [permanent with_permanent].
      rewrite (persisted_update code new l _ code u) by (done || by apply Z.ltb_lt). by rewrite decide_True.
    + intros e He Hne Hlv Hnot. exfalso. apply Hnot.
      assert (He' : e ∈ l) by (by apply list_elem_of_filter). rewrite Hal in He'.
      apply elem_of_app in He' as [|[->|]%elem_of_cons]; set_solver.
  - pose proof (evict_spec (limit s) l Hlim) as ([Hsub Hgone] & Hlt & _).
    assert (Hnone : ∀ x, x ∈ l → link_code x ≠ code).
    { intros x Hx Hc. apply (update_first_None _ _ _ E) in Hx. apply str_eqb_eq in Hc. congruence. }
    split_and!.
    + rewrite count_expiring_app. change (count_expiring [new]) with 1%nat. lia.
    + apply Forall_app_2; [|by repeat constructor]. apply Forall_forall. intros e He _.
      apply Hlive. by eapply elem_of_sublist.
    + intros t u Hu. rewrite answer_spec. cbn [permanent with_permanent].
      rewrite persisted_append; [by rewrite decide_True| |by apply Z.ltb_lt].
      intros x Hx. apply Hnone. by eapply elem_of_sublist.
    + intros e He Hne Hlv Hnot. destruct (Hgone e) as [Hexp Hmin].
      * by apply list_elem_of_filter.
      * set_solver.
      * split; [done|]. intros e' [He'| ->%list_elem_of_singleton]%elem_of_app Hne' Hexp'; [|done].
        by apply Hmin.
Qed.

(** A printer of one list of links. *)
Definition example_links : list PersistentShortLink :=
  [{| link_code := lit "k"; link_query := lit "?old"; expires_at_unix := None |};
   {| link_code := lit "e"; link_query := lit "?e"; expires_at_unix := Some 50 |}].
Definition example_links_after : list PersistentShortLink :=
  example_links ++ [{| link_code := lit "n"; link_query := lit "?new"; expires_at_unix := None |}].

Definition example_links_print (l : list PersistentShortLink) : option str :=
  if decide (l = example_links_after) then Some (lit "links") else None.
Definition example_links_parse (s : str) : option (list PersistentShortLink) :=
  if str_eqb s (lit "links") then Some example_links_after else None.

Lemma example_links_print_parse c s : example_links_print c = Some s → example_links_parse s = Some c.
Proof. unfold example_links_print. case_decide; [|done]. by intros [= <-]; subst. Qed.

Lemma example_links_print_utf8 c s : example_links_print c = Some s → utf8_valid s = true.
Proof. unfold example_links_print. case_decide; [|done]. by intros [= <-]. Qed.

Definition example_links_toml : TomlLib (list PersistentShortLink) :=
  {| toml_print := example_links_print; toml_parse := example_links_parse;
     toml_print_utf8 := example_links_print_utf8; toml_print_parse := example_links_print_parse |}.

Definition example_link_store (n : nat) : ShortStore :=
  {| entries := []; permanent := example_links; persistence_path := Some (lit "/l"); limit := n;
     ttl := 100 * NANOS; disabled := false |}.

Lemma put_permanent_survives_witness :
  ∃ s' fs', @put_permanent example_links_toml (example_link_store 5) (lit "n") (lit "?new") ∅ NoFault = (Ok tt, s', fs') ∧
    ∀ lim seconds off, ∃ s'', @from_env example_links_toml (Some (lit "/l")) fs' lim seconds off = Ok s'' ∧
      ∀ t u, answer s'' (lit "n") t u = Some (lit "?new") ∧
             ∀ c, c ≠ lit "n" → answer s'' c t u = persisted_answer example_links c u.
Proof.
  exists (with_permanent (example_link_store 5) example_links_after),
    {[lit "/l" := {| contents := lit "links"; mode := LINKS_MODE |}]}.
  split; [by vm_compute|].
  apply (@put_permanent_survives example_links_toml (example_link_store 5) (lit "/l") (lit "n") (lit "?new") ∅
    (with_permanent (example_link_store 5) example_links_after)
    {[lit "/l" := {| contents := lit "links"; mode := LINKS_MODE |}]}); [done|by vm_compute].
Defined.

Lemma put_persisted_expiring_spec_witness :
  let s' := (@put_persisted_expiring example_links_toml (example_link_store 1) (lit "n") (lit "?new") 20 ∅ NoFault).1.2 in
  (count_expiring (permanent s') ≤ 1)%nat ∧ answer s' (lit "n") 0 119 = Some (lit "?new") ∧
  answer s' (lit "k") 0 119 = Some (lit "?old").
Proof.
  intros s'.
  destruct (@put_persisted_expiring_spec example_links_toml (example_link_store 1) (lit "n") (lit "?new") 20 ∅ NoFault
    (Err NotPersisted) s' ∅) as (H1 & _ & H2 & _).
  - done.
  - done.
  - by apply Nat.leb_le; vm_compute.
  - intros e He Hn. set_solver.
  - by vm_compute.
  - split; [exact H1|]. split; [by apply H2|by vm_compute].
Defined.
