(* ===== verification/Base64.v ===== *)
(** * Standard Base64

    An executable Base64 (RFC 4648) with padding, and its round trip.  It stands
    in for the crate's engine where a theorem about subscriptions is applied to
    concrete text. *)

From stdpp Require Import base list strings.
From Stdlib Require Import ZArith Lia.
From S2P Require Import Prelude RustStr.

Open Scope Z_scope.

(** The characters of standard Base64. *)
Definition base64_char (b : Z) : bool :=
  in_range 65 b 90 || in_range 97 b 122 || in_range 48 b 57 || (b =? 43) || (b =? 47) || (b =? 61).

Definition sextet_char (v : Z) : Z :=
  if v <? 26 then 65 + v
  else if v <? 52 then 71 + v
  else if v <? 62 then v - 4
  else if v =? 62 then 43 else 47.

Definition char_sextet (c : Z) : option Z :=
  if in_range 65 c 90 then Some (c - 65)
  else if in_range 97 c 122 then Some (c - 71)
  else if in_range 48 c 57 then Some (c + 4)
  else if c =? 43 then Some 62
  else if c =? 47 then Some 63
  else None.

Fixpoint base64_encode (l : list Z) : str :=
  match l with
  | [] => []
  | [a] => [sextet_char (a / 4); sextet_char (a mod 4 * 16); 61; 61]
  | [a; b] => [sextet_char (a / 4); sextet_char (a mod 4 * 16 + b / 16); sextet_char (b mod 16 * 4); 61]
  | a :: b :: c :: l =>
      sextet_char (a / 4) :: sextet_char (a mod 4 * 16 + b / 16) :: sextet_char (b mod 16 * 4 + c / 64)
        :: sextet_char (c mod 64) :: base64_encode l
  end.

(** The three bytes of four sextets. *)
Definition three (x y z w : Z) : list Z := [x * 4 + y / 16; y mod 16 * 16 + z / 4; z mod 4 * 64 + w].

Definition decode_quad (a b c d : Z) (last : bool) : option (list Z) :=
  match char_sextet a, char_sextet b with
  | Some x, Some y =>
      if last && (c =? 61) && (d =? 61) then Some (take 1 (three x y 0 0))
      else match char_sextet c with
           | None => None
           | Some z =>
               if last && (d =? 61) then Some (take 2 (three x y z 0))
               else match char_sextet d with
                    | None => None
                    | Some w => Some (three x y z w)
                    end
           end
  | _, _ => None
  end.

Fixpoint base64_decode (s : str) : option (list Z) :=
  match s with
  | [] => Some []
  | a :: b :: c :: d :: s =>
      match decode_quad a b c d (is_nil s), base64_decode s with
      | Some l, Some k => Some (l ++ k)
      | _, _ => None
      end
  | _ => None
  end.

Lemma sextet_roundtrip v : 0 ≤ v < 64 → char_sextet (sextet_char v) = Some v ∧ sextet_char v ≠ 61 ∧
  base64_char (sextet_char v) = true.
Proof.
  intros Hv. unfold sextet_char, char_sextet, base64_char, in_range.
  destruct (Z.ltb_spec v 26); [|destruct (Z.ltb_spec v 52); [|destruct (Z.ltb_spec v 62);
    [|destruct (Z.eqb_spec v 62)]]];
    repeat match goal with
    | |- context [?x <=? ?y] => destruct (Z.leb_spec x y); try lia; cbn [andb orb]
    | |- context [?x =? ?y] => destruct (Z.eqb_spec x y); try lia; cbn [andb orb]
    end; split_and!; try done; try lia; f_equal; lia.
Qed.

(** Lists of bytes, three at a time. *)
Lemma triple_ind (P : list Z → Prop) :
  P [] → (∀ a, P [a]) → (∀ a b, P [a; b]) → (∀ a b c l, P l → P (a :: b :: c :: l)) → ∀ l, P l.
Proof.
  intros H0 H1 H2 H3. fix IH 1. intros [|a [|b [|c l]]]; [done|apply H1|apply H2|]. apply H3, IH.
Qed.

Ltac bytes_bounds :=
  repeat match goal with
  | H : is_bytes (_ :: _) |- _ => apply Forall_cons in H as [? H]
  | H : Forall u8_ok (_ :: _) |- _ => apply Forall_cons in H as [? H]
  | H : u8_ok _ |- _ => rewrite u8_ok_iff in H
  end.

Ltac sextet := match goal with
  | |- context [char_sextet (sextet_char ?v)] =>
      rewrite (proj1 (sextet_roundtrip v ltac:(Z.to_euclidean_division_equations; lia)))
  | |- context [sextet_char ?v =? 61] =>
      rewrite (proj2 (Z.eqb_neq (sextet_char v) 61))
        by (apply sextet_roundtrip; Z.to_euclidean_division_equations; lia)
  end.

Lemma base64_roundtrip l : is_bytes l → base64_decode (base64_encode l) = Some l.
Proof.
  revert l. apply (triple_ind (fun l => is_bytes l → base64_decode (base64_encode l) = Some l)).
  - done.
  - intros a Hl. bytes_bounds. cbn [base64_encode base64_decode is_nil]. unfold decode_quad. repeat sextet.
    cbn [andb Z.eqb Pos.eqb three take app]. do 2 f_equal. Z.to_euclidean_division_equations. lia.
  - intros a b Hl. bytes_bounds. cbn [base64_encode base64_decode is_nil]. unfold decode_quad. repeat sextet.
    cbn [andb Z.eqb Pos.eqb]. repeat sextet. cbn [andb Z.eqb Pos.eqb three take app].
    apply f_equal, (f_equal2 cons); [|apply (f_equal2 cons); [|done]]; Z.to_euclidean_division_equations; lia.
  - intros a b c l IH Hl. bytes_bounds. cbn [base64_encode base64_decode]. rewrite IH by done.
    unfold decode_quad. repeat sextet. rewrite !andb_false_r. cbn [andb three app].
    apply f_equal, (f_equal2 cons); [|apply (f_equal2 cons); [|apply (f_equal2 cons); [|done]]];
      Z.to_euclidean_division_equations; lia.
Qed.

Lemma base64_alphabet l : is_bytes l → Forall (fun b => base64_char b = true) (base64_encode l).
Proof.
  revert l. apply (triple_ind (fun l => is_bytes l → Forall (fun b => base64_char b = true) (base64_encode l))).
  - constructor.
  - intros a Hl. bytes_bounds. cbn [base64_encode].
    repeat constructor; apply sextet_roundtrip; Z.to_euclidean_division_equations; lia.
  - intros a b Hl. bytes_bounds. cbn [base64_encode].
    repeat constructor; apply sextet_roundtrip; Z.to_euclidean_division_equations; lia.
  - intros a b c l IH Hl. bytes_bounds. cbn [base64_encode].
    do 4 (constructor; [apply sextet_roundtrip; Z.to_euclidean_division_equations; lia|]). by apply IH.
Qed.

Lemma base64_length l : is_bytes l → len (base64_encode l) = 4 * div_ceil (len l) 3.
Proof.
  intros _. revert l. apply (triple_ind (fun l => len (base64_encode l) = 4 * div_ceil (len l) 3)); try done.
  intros a b c l IH. cbn [base64_encode]. rewrite !len_cons, IH. unfold div_ceil.
  replace (1 + (1 + (1 + len l)) + 3 - 1) with (len l + 3 - 1 + 1 * 3) by lia. rewrite Z.div_add by lia. lia.
Qed.
