(* ===== verification/SubNodes.v ===== *)
(** * Reading proxy nodes ([parse_input] of [src/src/sublink.rs] and what it calls)

    Proxy URIs, one per line, possibly wrapped in Base64 up to two levels deep.
    URLs, percent-encoding, Base64 and JSON are the crates' and are taken from the
    interface [SubLib]. *)

From stdpp Require Import base list gmap strings.
From Stdlib Require Import ZArith Lia.
From S2P Require Import Prelude RustStr Lines Rules Base64.

Open Scope Z_scope.

(** [serde_json::Value]; a number is an integer or another number. *)
Inductive json :=
| JNull
| JBool (b : bool)
| JInt (n : Z)
| JFloat
| JString (s : str)
| JArray (l : list json)
| JObject (fields : list (str * json)).

(** The Base64 engines the code tries. *)
Inductive Engine := STANDARD | STANDARD_NO_PAD | URL_SAFE | URL_SAFE_NO_PAD.

(** The crates: [url], [percent_encoding], [base64], [serde_json].  The laws are
    documented: a port fits 16 bits, a host that is there is not empty, lossy decoding gives UTF-8, and standard
    Base64 writes its alphabet and reads back what it wrote. *)
Class SubLib := {
  Url : Type;
  url_parse : str → option Url;
  url_host_str : Url → option str;
  url_port : Url → option Z;
  url_fragment : Url → option str;
  url_username : Url → str;
  url_password : Url → option str;
  url_query_pairs : Url → list (str * str);
  url_query : Url → option str;
  url_path : Url → str;
  url_origin : Url → str;
  url_set_host : Url → str → option Url;
  url_set_port : Url → Z → option Url;
  url_string : Url → str;
  percent_decode : str → str;
  b64_decode : Engine → str → option (list Z);
  b64_encode : list Z → str;
  json_parse : list Z → option json;
  form_urlencode : list (str * str) → str;
  url_port_range : ∀ u p, url_port u = Some p → 0 ≤ p ≤ U16_MAX;
  url_host_nonempty : ∀ u h, url_host_str u = Some h → h ≠ [];
  b64_roundtrip : ∀ l, is_bytes l → b64_decode STANDARD (b64_encode l) = Some l;
  b64_alphabet : ∀ l, is_bytes l → Forall (fun b => base64_char b = true) (b64_encode l);
  b64_length : ∀ l, is_bytes l → len (b64_encode l) = 4 * div_ceil (len l) 3;
}.

Record Node := {
  kind : str;
  node_name : str;
  server : str;
  port : Z;
  username : str;
  password : str;
  private_key : str;
  host_key : str;
  method : str;
  uuid : str;
  network : str;
  path : str;
  host : str;
  service_name : str;
  sni : str;
  obfs : str;
  obfs_password : str;
  flow : str;
  packet_encoding : str;
  udp : bool;
  original : str;
  tls : bool;
  insecure : bool;
}.

Definition MAX_INPUT_BYTES : Z := 32 * 1024.
Definition MAX_NODES : nat := 128.
Definition MAX_NESTING : nat := 2.

Definition is_str (a : str) (b : string) : bool := str_eqb a (lit b).

(** [s] when it is not empty, else [d]. *)
Definition or_else (s d : str) : str := if is_nil s then d else s.

(** The loop of a fallible function over a list. *)
Fixpoint rfold {E A B} (f : B → A → result E B) (acc : B) (l : list A) : result E B :=
  match l with
  | [] => Ok acc
  | x :: l => acc ← f acc x; rfold f acc l
  end.

(** Characters that are not white space. *)
Fixpoint remove_whitespace_fuel (fuel : nat) (s : str) : str :=
  match fuel with
  | O => []
  | S fuel =>
      match strip_any white_space s with
      | Some t => remove_whitespace_fuel fuel t
      | None => match s with [] => [] | b :: s => b :: remove_whitespace_fuel fuel s end
      end
  end.

Definition remove_whitespace (s : str) : str := remove_whitespace_fuel (length s) s.

(** The value of the first pair whose key is one of the names. *)
Definition pair_lookup (pairs : list (str * str)) (names : list string) : option str :=
  snd <$> find_first (fun kv => existsb (fun n => eq_ignore_ascii_case kv.1 (lit n)) names) pairs.

Section nodes.
Context `{SubLib}.

(** [query_value_optional] and [query_value]. *)
Definition query_value_optional (url : Url) (names : list string) : option str :=
  pair_lookup (url_query_pairs url) names.

Definition query_value (url : Url) (names : list string) : str := default [] (query_value_optional url names).

(** [query_bool]. *)
Definition query_bool (url : Url) (names : list string) : bool :=
  eq_ignore_ascii_case (trim (query_value url names)) (lit "true") || is_str (trim (query_value url names)) "1".

(** [decode_base64]. *)
Definition decode_base64 (value : str) : option (list Z) :=
  let compact := remove_whitespace value in
  match b64_decode STANDARD compact with
  | Some l => Some l
  | None =>
      match b64_decode STANDARD_NO_PAD compact with
      | Some l => Some l
      | None =>
          match b64_decode URL_SAFE compact with
          | Some l => Some l
          | None => b64_decode URL_SAFE_NO_PAD compact
          end
      end
  end.

(** [decoded_subscription]. *)
Definition decoded_subscription (input : str) : option str :=
  if contains (lit "://") input then None
  else
    match decode_base64 input ≫= from_utf8 with
    | Some decoded => if contains (lit "://") decoded then Some decoded else None
    | None => None
    end.

(** *** URI nodes *)

(** [matches!(value, names)]. *)
Definition matches_any (value : str) (names : list string) : bool := existsb (is_str value) names.

(** [split_server_port]. *)
Definition split_server_port (value : str) : result SubError (str * Z) :=
  url ← ok_or InvalidUri (url_parse (lit "tcp://" ++ value));
  h ← ok_or ServerMissing (url_host_str url);
  Ok (h, default 443 (url_port url)).

(** [parse_url_node]. *)
Definition parse_url_node (uri knd : str) : result SubError Node :=
  url ← ok_or InvalidUri (url_parse uri);
  server ← ok_or ServerMissing (url_host_str url);
  let name := or_else (default [] (percent_decode <$> url_fragment url)) server in
  let user := percent_decode (url_username url) in
  let url_pw := default [] (percent_decode <$> url_password url) in
  let pw := if is_str knd "tuic" || is_str knd "ssh" then url_pw
            else if is_str knd "hysteria2" then
              if is_nil url_pw then user else user ++ lit ":" ++ url_pw
            else [] in
  let key := if is_str knd "ssh" then query_value url ["private-key"; "privateKey"] else [] in
  let hkey := if is_str knd "ssh" then query_value url ["host-key"; "hostKey"] else [] in
  let id := if is_str knd "vless" || is_str knd "tuic" then user else [] in
  let host := query_value url ["host"] in
  let penc := query_value_optional url ["packetEncoding"; "packet-encoding"] in
  let security := query_value url ["security"] in
  let tls := if is_nil security then negb (matches_any knd ["vless"; "vmess"; "ssh"])
             else negb (matches_any (to_ascii_lowercase security) ["none"; "false"]) in
  let insec := query_value url ["allowInsecure"; "insecure"] in
  let sni0 := query_value url ["sni"] in
  let sni1 := if is_nil sni0 && negb (is_nil host) then host else sni0 in
  let sni2 := if is_nil sni1 && tls then server else sni1 in
  ensure (negb (matches_any knd ["vless"; "tuic"] && is_nil id
                || is_str knd "hysteria2" && is_nil pw
                || is_str knd "ssh" && (is_nil user || is_nil key))) CredentialsMissing;;
  Ok {| kind := knd; node_name := name; server := server; port := default 443 (url_port url);
        username := user; password := pw; private_key := key; host_key := hkey; method := [];
        uuid := id; network := or_else (query_value url ["type"]) (lit "tcp");
        path := query_value url ["path"]; host := host; service_name := query_value url ["serviceName"];
        sni := sni2; obfs := query_value url ["obfs"];
        obfs_password := query_value url ["obfs-password"; "obfsPassword"]; flow := query_value url ["flow"];
        packet_encoding := default [] penc; udp := match penc with Some _ => true | None => false end;
        original := uri; tls := tls; insecure := is_str insec "1" || eq_ignore_ascii_case insec (lit "true") |}.

(** *** Shadowsocks *)

(** What precedes the first [c], or all of it. *)
Definition before (c : Z) (s : str) : str := match split_once c s with Some (a, _) => a | None => s end.

(** The credentials and the server of the authority. *)
Definition shadowsocks_parts (authority : str) : result SubError (str * str) :=
  match rsplit_once 64 authority with
  | Some (credentials, server) =>
      let decoded := percent_decode credentials in
      if contains_char 58 decoded then Ok (decoded, server)
      else
        bytes ← ok_or InvalidShadowsocks (decode_base64 decoded);
        text ← ok_or InvalidShadowsocks (from_utf8 bytes);
        Ok (text, server)
  | None =>
      bytes ← ok_or InvalidShadowsocks (decode_base64 authority);
      text ← ok_or InvalidShadowsocks (from_utf8 bytes);
      ok_or InvalidShadowsocks (rsplit_once 64 text)
  end.

(** [parse_shadowsocks]. *)
Definition parse_shadowsocks (uri : str) : result SubError Node :=
  rest ← ok_or InvalidShadowsocks (strip_prefix (lit "ss://") uri);
  let fragment := (fun p => percent_decode p.2) <$> split_once 35 rest in
  let authority := before 63 (before 35 rest) in
  '(credentials, server_port) ← shadowsocks_parts authority;
  '(method, password) ← ok_or InvalidShadowsocks (split_once 58 credentials);
  '(server, port) ← split_server_port server_port;
  ensure (negb (is_nil method) && negb (is_nil password)) InvalidShadowsocks;;
  Ok {| kind := lit "shadowsocks"; node_name := or_else (default [] fragment) server; server := server;
        port := port; username := []; password := password; private_key := []; host_key := [];
        method := method; uuid := []; network := lit "tcp"; path := []; host := []; service_name := [];
        sni := []; obfs := []; obfs_password := []; flow := []; packet_encoding := []; udp := false;
        original := uri; tls := false; insecure := false |}.

(** *** VMess *)

(** [value.get(key)], [Value::as_str], [Value::as_u64]. *)
Definition json_get (key : string) (v : json) : option json :=
  match v with
  | JObject fields => snd <$> find_first (fun kv => is_str kv.1 key) fields
  | _ => None
  end.

Definition as_str (v : json) : option str := match v with JString s => Some s | _ => None end.
Definition as_u64 (v : json) : option Z :=
  match v with JInt n => if in_range 0 n U64_MAX then Some n else None | _ => None end.

(** [u16::try_from]. *)
Definition u16_try_from (n : Z) : option Z := if in_range 0 n U16_MAX then Some n else None.

(** [parse_vmess]. *)
Definition parse_vmess (uri : str) : result SubError Node :=
  encoded ← ok_or InvalidVmess (strip_prefix (lit "vmess://") uri);
  decoded ← ok_or InvalidVmess (decode_base64 (before 35 encoded));
  value ← ok_or InvalidVmess (json_parse decoded);
  let string key := default [] (json_get key value ≫= as_str) in
  let server := string "add"%string in
  let port :=
    match json_get "port" value with
    | None => None
    | Some p => match as_u64 p ≫= u16_try_from with
                | Some n => Some n
                | None => as_str p ≫= parse_u16
                end
    end in
  let fragment := default [] ((fun p => percent_decode p.2) <$> split_once 35 uri) in
  let name := or_else (or_else fragment (string "ps"%string)) server in
  let tls := negb (matches_any (to_ascii_lowercase (string "tls"%string)) [EmptyString; "none"%string]) in
  let sni := string "sni"%string in
  ensure (negb (is_nil server) && negb (is_nil (string "id"%string))) InvalidVmess;;
  Ok {| kind := lit "vmess"; node_name := name; server := server; port := default 443 port; username := [];
        password := []; private_key := []; host_key := []; method := []; uuid := string "id"%string;
        network := or_else (string "net"%string) (lit "tcp"); path := string "path"%string;
        host := string "host"%string; service_name := [];
        sni := if is_nil sni && tls then server else sni; obfs := []; obfs_password := []; flow := [];
        packet_encoding := []; udp := false; original := uri; tls := tls; insecure := false |}.

(** [parse_node]. *)
Definition parse_node (uri : str) : result SubError Node :=
  '(scheme, _) ← ok_or InvalidUri (split_once_str (lit "://") uri);
  let scheme := to_ascii_lowercase scheme in
  if is_str scheme "ss" then parse_shadowsocks uri
  else if is_str scheme "vmess" then parse_vmess uri
  else if matches_any scheme ["vless"; "hysteria2"; "tuic"; "ssh"]%string then parse_url_node uri scheme
  else if matches_any scheme ["hy2"; "hysteria"]%string then parse_url_node uri (lit "hysteria2")
  else Err UnsupportedUri.

(** *** Subscriptions *)

(** [parse_input_recursive]; [levels] is [MAX_NESTING + 1 - depth], the number of
    levels that may still be entered, so that it runs out exactly where the code
    refuses the depth. *)
Fixpoint parse_input_recursive (levels : nat) (input : str) (nodes : list Node) : result SubError (list Node) :=
  match levels with
  | O => Err NestingTooDeep
  | S levels =>
      if len input >? MAX_INPUT_BYTES then Err TooLarge
      else
        match decoded_subscription input with
        | Some decoded => parse_input_recursive levels decoded nodes
        | None =>
            rfold (fun nodes line =>
                     if is_nil line || starts_with (lit "#") line then Ok nodes
                     else if starts_with (lit "http://") line || starts_with (lit "https://") line
                     then Err RemoteSubscription
                     else if negb (contains (lit "://") line) then parse_input_recursive levels line nodes
                     else
                       ensure (length nodes <? MAX_NODES)%nat TooManyNodes;;
                       node ← parse_node line;
                       Ok (nodes ++ [node]))
                  nodes (trim <$> lines input)
        end
  end.

(** [parse_input]. *)
Definition parse_input (input : str) : result SubError (list Node) :=
  let trimmed := trim input in
  ensure (negb (is_nil trimmed)) NoNodes;;
  if starts_with (lit "{") trimmed || starts_with (lit "proxies:") (to_ascii_lowercase trimmed)
     || starts_with (lit "[proxy]") (to_ascii_lowercase trimmed)
  then Err UnsupportedInput
  else
    nodes ← parse_input_recursive (S MAX_NESTING) trimmed [];
    ensure (negb (is_nil nodes)) NoNodes;;
    Ok nodes.
End nodes.

(** ** What is accepted *)

Definition KINDS : list str :=
  [lit "shadowsocks"; lit "vmess"; lit "vless"; lit "hysteria2"; lit "tuic"; lit "ssh"].

(** A node of a known kind, with a server, a port and the credentials its kind needs. *)
Definition node_ok (n : Node) : Prop :=
  kind n ∈ KINDS ∧ server n ≠ [] ∧ 0 ≤ port n ≤ U16_MAX ∧
  (kind n = lit "shadowsocks" → method n ≠ [] ∧ password n ≠ []) ∧
  (kind n = lit "vmess" → uuid n ≠ []) ∧
  (kind n = lit "vless" ∨ kind n = lit "tuic" → uuid n ≠ []) ∧
  (kind n = lit "hysteria2" → password n ≠ []) ∧
  (kind n = lit "ssh" → username n ≠ [] ∧ private_key n ≠ []) ∧
  network n ≠ [] ∧ (tls n = true → sni n ≠ []).

Lemma is_str_true a b : is_str a b = true ↔ a = lit b.
Proof. apply str_eqb_eq. Qed.

Lemma matches_any_true v names : matches_any v names = true ↔ ∃ n, n ∈ names ∧ v = lit n.
Proof.
  unfold matches_any. rewrite existsb_exists. setoid_rewrite is_str_true. setoid_rewrite <- list_elem_of_In. done.
Qed.

Lemma or_else_nonempty s d : d ≠ [] → or_else s d ≠ [].
Proof. unfold or_else. destruct s; cbn; auto. Qed.

Section accepted.
Context `{SubLib}.

Lemma default_port u : 0 ≤ default 443 (url_port u) ≤ U16_MAX.
Proof. destruct (url_port u) eqn:E; cbn; [by eapply url_port_range|unfold U16_MAX; lia]. Qed.

Definition URL_KINDS : list str := [lit "vless"; lit "hysteria2"; lit "tuic"; lit "ssh"].

Lemma sni_fallback (s h v : str) (t : bool) :
  let sni1 := if is_nil s && negb (is_nil h) then h else s in
  v ≠ [] → t = true → (if is_nil sni1 && t then v else sni1) ≠ [].
Proof. intros sni1 Hv ->. rewrite andb_true_r. by destruct sni1. Qed.

Lemma parse_url_node_ok uri knd n :
  knd ∈ URL_KINDS → parse_url_node uri knd = Ok n → node_ok n ∧ original n = uri ∧ kind n = knd.
Proof.
  intros Hk Hp. unfold parse_url_node in Hp. res_inv. subst n. cbn [original kind]. split; [|done].
  match goal with H : negb _ = true |- _ => apply negb_true_iff in H; rename H into Hc end.
  apply orb_false_iff in Hc as [[Hc1 Hc2]%orb_false_iff Hc3].
  unfold node_ok. cbn [kind port method password server uuid username private_key network tls sni].
  match goal with Hh : url_host_str _ = Some ?v |- _ => assert (Hserver : v ≠ []) by exact (url_host_nonempty _ _ Hh) end.
  split; [unfold URL_KINDS, KINDS in *; set_solver|]. split; [done|]. split; [apply default_port|].
  rewrite !(assoc and). split; [split; [|by apply or_else_nonempty]|by apply sni_fallback].
  rewrite <- !(assoc and). unfold URL_KINDS in Hk.
  repeat (apply elem_of_cons in Hk as [->|Hk]; [cbn in Hc1, Hc2, Hc3 |- *; clear -Hc1 Hc2 Hc3|]);
    [..|by apply not_elem_of_nil in Hk].
  all: split_and!; intros Hkind; try discriminate; try (destruct Hkind; discriminate).
  all: try (by apply is_nil_false).
  apply orb_false_iff in Hc3 as [? ?]. by split; apply is_nil_false.
Qed.

Lemma split_server_port_range v srv p : split_server_port v = Ok (srv, p) → srv ≠ [] ∧ 0 ≤ p ≤ U16_MAX.
Proof.
  unfold split_server_port. intros Hs. res_inv. simplify_eq. split; [|apply default_port].
  eapply url_host_nonempty; eassumption.
Qed.

Lemma parse_shadowsocks_ok uri n :
  parse_shadowsocks uri = Ok n → node_ok n ∧ original n = uri ∧ kind n = lit "shadowsocks".
Proof.
  intros Hp. unfold parse_shadowsocks in Hp.
  apply rbind_Ok in Hp as (rest & _ & Hp). apply rbind_Ok in Hp as ([cred sp] & _ & Hp).
  apply rbind_Ok in Hp as ([m pw] & _ & Hp). apply rbind_Ok in Hp as ([srv prt] & Hsrv & Hp).
  apply split_server_port_range in Hsrv as [Hs0 Hsrv]. apply rbind_Ok in Hp as (u & Hc & Hp). injection Hp as <-.
  apply ensure_Ok, andb_true_iff in Hc as [Hm%negb_true_iff%is_nil_false Hpw%negb_true_iff%is_nil_false].
  split; [|done]. unfold node_ok. cbn [kind port method password server uuid username private_key network tls sni].
  split_and!; try done; try lia; try (intros Hk; discriminate Hk); try (intros [Hk|Hk]; discriminate Hk).
  unfold KINDS. set_solver.
Qed.

Lemma u16_try_from_range n m : u16_try_from n = Some m → 0 ≤ m ≤ U16_MAX.
Proof. unfold u16_try_from. case_match eqn:E; [|done]. apply in_range_true in E. by intros [= <-]. Qed.

Lemma parse_vmess_ok uri n :
  parse_vmess uri = Ok n → node_ok n ∧ original n = uri ∧ kind n = lit "vmess".
Proof.
  intros Hp. unfold parse_vmess in Hp.
  apply rbind_Ok in Hp as (enc & _ & Hp). apply rbind_Ok in Hp as (dcd & _ & Hp).
  apply rbind_Ok in Hp as (value & _ & Hp). apply rbind_Ok in Hp as (u & Hc & Hp). injection Hp as <-.
  apply ensure_Ok, andb_true_iff in Hc as [Hs%negb_true_iff%is_nil_false Hid%negb_true_iff%is_nil_false].
  split; [|done]. unfold node_ok. cbn [kind port method password server uuid username private_key network tls sni].
  assert (Hport : 0 ≤ default 443 match json_get "port" value with
      | None => None
      | Some p => match as_u64 p ≫= u16_try_from with Some n => Some n | None => as_str p ≫= parse_u16 end
      end ≤ U16_MAX).
  { destruct (json_get "port" value) as [p|]; cbn; [|unfold U16_MAX; lia].
    destruct (as_u64 p ≫= u16_try_from) as [m|] eqn:E; cbn.
    - apply bind_Some in E as (x & _ & E). by apply u16_try_from_range in E.
    - destruct (as_str p ≫= parse_u16) as [m|] eqn:E'; cbn; [|unfold U16_MAX; lia].
      apply bind_Some in E' as (x & _ & E'). by apply parse_uint_range in E'. }
  split; [unfold KINDS; set_solver|]. split; [done|]. split; [exact Hport|].
  split_and!; try (intros Hk; discriminate Hk); try (intros [Hk|Hk]; discriminate Hk).
  - done.
  - by apply or_else_nonempty.
  - intros ->. rewrite andb_true_r.
    match goal with |- context [is_nil ?x] => destruct (is_nil x) eqn:E end; [done|by apply is_nil_false in E].
Qed.

Lemma parse_node_ok uri n : parse_node uri = Ok n → node_ok n ∧ original n = uri.
Proof.
  unfold parse_node. intros Hp. apply rbind_Ok in Hp as ([scheme rest] & _ & Hp). cbv beta iota in Hp.
  set (sch := to_ascii_lowercase scheme) in *.
  destruct (is_str sch "ss"); [by apply parse_shadowsocks_ok in Hp as (? & ? & _)|].
  destruct (is_str sch "vmess"); [by apply parse_vmess_ok in Hp as (? & ? & _)|].
  destruct (matches_any sch ["vless"; "hysteria2"; "tuic"; "ssh"]) eqn:E.
  - apply parse_url_node_ok in Hp as (? & ? & _); [done|]. apply matches_any_true in E as (m & Hm & ->).
    unfold URL_KINDS. set_solver.
  - destruct (matches_any sch ["hy2"; "hysteria"]); [|done].
    apply parse_url_node_ok in Hp as (? & ? & _); [done|]. unfold URL_KINDS. set_solver.
Qed.

(** What a text has to say: its lines, trimmed, without the empty ones and the
    comments, a line that is no URI being a text of its own; and when the whole text is
    encoded, what the decoded one has to say. *)
Fixpoint uri_lines (levels : nat) (input : str) : list str :=
  match levels with
  | O => []
  | S levels =>
      match decoded_subscription input with
      | Some decoded => uri_lines levels decoded
      | None =>
          flat_map (fun line => if is_nil line || starts_with (lit "#") line then []
                                else if contains (lit "://") line then [line] else uri_lines levels line)
                   (trim <$> lines input)
      end
  end.

(** A line that [parse_input_recursive] hands to [parse_node]. *)
Definition uri_line (l : str) : Prop :=
  line_ok l ∧ contains (lit "://") l = true ∧ starts_with (lit "#") l = false ∧
  starts_with (lit "http://") l = false ∧ starts_with (lit "https://") l = false.

(** A node that came from such a line. *)
Definition parsed (n : Node) : Prop := node_ok n ∧ uri_line (original n) ∧ parse_node (original n) = Ok n.

Definition nodes_ok (l : list Node) : Prop := (length l ≤ MAX_NODES)%nat ∧ Forall parsed l.

Lemma rfold_inv {E A B} (P : B → Prop) (f : B → A → result E B) acc l r :
  (∀ b x b', x ∈ l → P b → f b x = Ok b' → P b') → P acc → rfold f acc l = Ok r → P r.
Proof.
  revert acc. induction l as [|x l IH]; intros acc Hf Hacc Hr; cbn in Hr; [by simplify_eq|].
  apply rbind_Ok in Hr as (b & Hb & Hr). apply IH in Hr; [done| |].
  - intros b1 y b2 Hy. apply Hf. by right.
  - eapply Hf; [by left|done|done].
Qed.

Lemma parse_input_recursive_ok levels input nodes r :
  nodes_ok nodes → parse_input_recursive levels input nodes = Ok r → nodes_ok r ∧ len input ≤ MAX_INPUT_BYTES.
Proof.
  revert input nodes r. induction levels as [|levels IH]; intros input nodes r Hn Hr; [done|].
  cbn [parse_input_recursive] in Hr. rewrite Z.gtb_ltb in Hr.
  destruct (Z.ltb_spec MAX_INPUT_BYTES (len input)) as [|Hlen]; [done|]. split; [|done].
  destruct (decoded_subscription input) as [d|]; [by apply IH in Hr as [? _]|].
  revert Hr. apply rfold_inv; [|done]. intros b line b' (l0 & -> & Hl0)%list_elem_of_fmap [Hb Hf] Hstep.
  destruct (is_nil (trim l0)) eqn:E1; [injection Hstep as <-; by split|].
  destruct (starts_with (lit "#") (trim l0)) eqn:E2; [injection Hstep as <-; by split|]. cbn [orb] in Hstep.
  destruct (starts_with (lit "http://") (trim l0)) eqn:E3; [done|].
  destruct (starts_with (lit "https://") (trim l0)) eqn:E4; [done|]. cbn [orb] in Hstep.
  destruct (contains (lit "://") (trim l0)) eqn:E5; cbn [negb] in Hstep.
  - apply rbind_Ok in Hstep as (u & Hu%ensure_Ok%Nat.ltb_lt & Hstep). apply rbind_Ok in Hstep as (n & Hpn & [= <-]).
    destruct (parse_node_ok _ _ Hpn) as [Hok Horig]. split; [rewrite length_app; cbn; lia|].
    apply Forall_app_2; [done|]. apply Forall_singleton. unfold parsed, uri_line, line_ok. rewrite Horig.
    split_and!; try done; try apply trim_trimmed; [by apply is_nil_false|].
    intros Hin. apply trim_elem in Hin. by apply lines_no_lf in Hl0.
  - by apply IH in Hstep as [? _].
Qed.

Lemma rfold_flat_map {E A B C} (g : B → list C) (h : A → list C) (f : B → A → result E B) acc l r :
  (∀ b x b', f b x = Ok b' → g b' = g b ++ h x) → rfold f acc l = Ok r → g r = g acc ++ flat_map h l.
Proof.
  intros Hf. revert acc. induction l as [|x l IH]; intros acc Hr; cbn in *; [simplify_eq; by rewrite app_nil_r|].
  apply rbind_Ok in Hr as (b & Hb%Hf & Hr%IH). by rewrite Hr, Hb, app_assoc.
Qed.

(** The nodes of a text are those of its URI lines. *)
Lemma parse_input_recursive_uris levels input nodes r :
  parse_input_recursive levels input nodes = Ok r → original <$> r = (original <$> nodes) ++ uri_lines levels input.
Proof.
  revert input nodes r. induction levels as [|levels IH]; intros input nodes r Hr; [done|].
  cbn [parse_input_recursive uri_lines] in *. destruct (len input >? MAX_INPUT_BYTES); [done|].
  destruct (decoded_subscription input) as [d|]; [by apply IH|].
  revert Hr. apply (rfold_flat_map (fmap original)). intros b line b' Hstep.
  destruct (is_nil line || starts_with (lit "#") line); [injection Hstep as <-; by rewrite app_nil_r|].
  destruct (starts_with (lit "http://") line || starts_with (lit "https://") line); [done|].
  destruct (contains (lit "://") line); cbn [negb] in Hstep; [|by apply IH].
  apply rbind_Ok in Hstep as (u & _ & Hstep). apply rbind_Ok in Hstep as (n & Hpn & [= <-]).
  destruct (parse_node_ok _ _ Hpn) as [_ Ho]. by rewrite fmap_app, <- Ho.
Qed.

Lemma parse_input_ok input nodes :
  parse_input input = Ok nodes →
  (1 ≤ length nodes ≤ MAX_NODES)%nat ∧ Forall parsed nodes ∧ len (trim input) ≤ MAX_INPUT_BYTES.
Proof.
  intros Hp. unfold parse_input in Hp. apply rbind_Ok in Hp as (u & _ & Hp). case_match; [done|].
  apply rbind_Ok in Hp as (l & Hl & Hp). apply rbind_Ok in Hp as (v & Hne%ensure_Ok%negb_true_iff%is_nil_false & [= ->]).
  apply parse_input_recursive_ok in Hl as [[Hlen Hf] Hsize]; [|by split; [cbn; lia|constructor]].
  split_and!; try done. destruct nodes; [done|cbn; lia].
Qed.

(** Claim C38. What [parse_input] accepts is 1 to 128 nodes of the six known kinds, each with a server, a 16-bit
    port, the credentials its kind needs, a transport and, with TLS, a server name.
    The nodes are those of the URI lines of the input, or of the text it encodes, all
    of them and in their order, and of nothing else: empty lines and comments give none, and each
    node is what its own line parses to. No text is accepted that is over 32 KiB
    without the white space around it. *)
Theorem parse_input_sound input nodes :
  parse_input input = Ok nodes →
  (1 ≤ length nodes ≤ 128)%nat ∧ Forall parsed nodes ∧ original <$> nodes = uri_lines 3 (trim input) ∧
  len (trim input) ≤ 32768.
Proof.
  intros Hp. destruct (parse_input_ok input nodes Hp) as (Hlen & Hf & Hsize). split_and!; try done; try apply Hlen.
  unfold parse_input in Hp. apply rbind_Ok in Hp as (u & _ & Hp). case_match; [done|].
  apply rbind_Ok in Hp as (l & Hl & Hp). apply rbind_Ok in Hp as (v & _ & [= ->]).
  by apply parse_input_recursive_uris in Hl.
Qed.
End accepted.

(** ** Reading an encoded subscription back *)

Lemma base64_graphic b : base64_char b = true → 33 ≤ b ≤ 126 ∧ b ≠ 58 ∧ b ≠ 123 ∧ b ≠ 91.
Proof.
  unfold base64_char. rewrite !orb_true_iff, !in_range_true, !Z.eqb_eq. lia.
Qed.

Lemma remove_whitespace_graphic s : Forall (fun b => 33 ≤ b ≤ 126) s → remove_whitespace s = s.
Proof.
  unfold remove_whitespace. assert (Hlen : (length s ≤ length s)%nat) by lia. revert Hlen.
  generalize (length s) at 2 3 as f. intros f. revert s. induction f as [|f IH]; intros s Hl Hs; cbn [remove_whitespace_fuel].
  - destruct s; [done|cbn in Hl; lia].
  - destruct (graphic_trimmed s Hs) as [-> _]. destruct s as [|b s]; [done|].
    inversion_clear Hs. cbn in Hl. rewrite IH by (done || lia). done.
Qed.

Lemma lowercase_not p s c :
  starts_with p (to_ascii_lowercase s) = true → c ∈ p → in_range 65 (c - 32) 90 = false → c ∈ s.
Proof.
  rewrite starts_with_iff. intros [t Ht] Hc Hr.
  assert (Hin : c ∈ to_ascii_lowercase s) by (rewrite Ht; set_solver).
  apply list_elem_of_fmap in Hin as (b & -> & Hb). unfold to_lower in *. case_match eqn:E; [|done].
  replace (b + 32 - 32) with b in Hr by lia. congruence.
Qed.

Section reread.
Context `{SubLib}.

Lemma encoded_chars l b : is_bytes l → b ∈ b64_encode l → base64_char b = true.
Proof. intros Hl. pose proof (b64_alphabet l Hl) as Ha. rewrite Forall_forall in Ha. apply Ha. Qed.

Lemma encoded_graphic l : is_bytes l → Forall (fun b => 33 ≤ b ≤ 126) (b64_encode l).
Proof. intros Hl. eapply Forall_impl; [by apply b64_alphabet|]. intros b Hb. by apply base64_graphic. Qed.

Lemma encoded_not l c : is_bytes l → base64_char c = false → c ∉ b64_encode l.
Proof. intros Hl Hc Hin. apply encoded_chars in Hin; [congruence|done]. Qed.

Lemma decoded_encoded text :
  is_bytes text → utf8_valid text = true → contains (lit "://") text = true →
  decoded_subscription (b64_encode text) = Some text.
Proof.
  intros Hb Hv Hc. unfold decoded_subscription.
  destruct (contains (lit "://") (b64_encode text)) eqn:E.
  { exfalso. apply (contains_elem _ _ 58) in E; [|set_solver]. by apply (encoded_not text 58). }
  unfold decode_base64. rewrite remove_whitespace_graphic by (by apply encoded_graphic).
  rewrite b64_roundtrip by done. cbn [mbind option_bind]. unfold from_utf8. by rewrite Hv, Hc.
Qed.

(** The body of the loop over the lines. *)
Definition on_line (levels : nat) : list Node → str → result SubError (list Node) :=
  (fun nodes line =>
    if is_nil line || starts_with (lit "#") line then Ok nodes
    else if starts_with (lit "http://") line || starts_with (lit "https://") line
    then Err RemoteSubscription
    else if negb (contains (lit "://") line) then parse_input_recursive levels line nodes
    else
      ensure (length nodes <? MAX_NODES)%nat TooManyNodes;;
      node ← parse_node line;
      Ok (nodes ++ [node])).

Lemma parse_input_recursive_S levels input nodes :
  parse_input_recursive (S levels) input nodes =
    if len input >? MAX_INPUT_BYTES then Err TooLarge
    else match decoded_subscription input with
         | Some decoded => parse_input_recursive levels decoded nodes
         | None => rfold (on_line levels) nodes (trim <$> lines input)
         end.
Proof. done. Qed.

Lemma on_line_parsed levels acc n :
  parsed n → (length acc < MAX_NODES)%nat → on_line levels acc (original n) = Ok (acc ++ [n]).
Proof.
  intros (_ & ((Hne & _ & _) & Hc & H1 & H2 & H3) & Hparse) Hlen. apply is_nil_false in Hne. unfold on_line.
  rewrite Hne, H1, H2, H3, Hc. cbn [orb negb]. rewrite (proj2 (Nat.ltb_lt _ _)) by lia. res_simpl.
  by rewrite Hparse.
Qed.

(** The lines of parsed nodes parse to the nodes. *)
Lemma rfold_uri_lines levels l acc :
  Forall parsed l → (length (acc ++ l) ≤ MAX_NODES)%nat →
  rfold (on_line levels) acc (original <$> l) = Ok (acc ++ l).
Proof.
  intros Hl. revert acc. induction Hl as [|n l Hn Hl IH]; intros acc Hlen; cbn [rfold fmap list_fmap].
  { by rewrite app_nil_r. }
  rewrite length_app in Hlen. cbn in Hlen. rewrite on_line_parsed by (done || lia). res_simpl.
  rewrite IH by (rewrite !length_app; cbn; lia). by rewrite <- app_assoc.
Qed.

Lemma contains_join sep p a l : contains p a = true → contains p (join sep (a :: l)) = true.
Proof. intros Ha. destruct l as [|b l]; [done|]. rewrite join_cons_cons. by apply contains_app_l. Qed.

Lemma len_div_ceil_le n : 0 ≤ n → n ≤ 4 * div_ceil n 3.
Proof.
  intros Hn. unfold div_ceil. pose proof (Z.mul_succ_div_gt (n + 3 - 1) 3 ltac:(lia)). lia.
Qed.

(** An encoded text is none of the formats that are refused, and has no white space. *)
Lemma parse_input_encoded text :
  is_bytes text → text ≠ [] →
  parse_input (b64_encode text)
  = (nodes ← parse_input_recursive (S MAX_NESTING) (b64_encode text) []; ensure (negb (is_nil nodes)) NoNodes;; Ok nodes).
Proof.
  intros Hb Hne.
  assert (Htext : 0 < len text).
  { destruct text; [done|]. rewrite len_cons. pose proof (len_nonneg text). lia. }
  pose proof (len_div_ceil_le (len text) ltac:(lia)) as Hexp. pose proof (b64_length text Hb) as Hlen.
  unfold parse_input. rewrite (trimmed_trim (b64_encode text)) by (by apply graphic_trimmed, encoded_graphic).
  rewrite (proj2 (is_nil_false (b64_encode text))) by (intros E; rewrite E, len_nil in Hlen; lia). res_simpl.
  destruct (starts_with (lit "{") (b64_encode text)) eqn:E1.
  { apply starts_with_iff in E1 as [t Ht]. exfalso. apply (encoded_not text 123); [done|done|]. rewrite Ht. set_solver. }
  destruct (starts_with (lit "proxies:") _) eqn:E2.
  { exfalso. apply (encoded_not text 58); [done|done|]. eapply lowercase_not; [exact E2|set_solver|done]. }
  destruct (starts_with (lit "[proxy]") _) eqn:E3.
  { exfalso. apply (encoded_not text 91); [done|done|]. eapply lowercase_not; [exact E3|set_solver|done]. }
  done.
Qed.

Lemma uri_text_contains nodes :
  nodes ≠ [] → Forall parsed nodes → contains (lit "://") (join [10] (original <$> nodes)) = true.
Proof.
  intros Hne Hnodes. destruct nodes as [|n nodes]; [done|]. cbn [fmap list_fmap]. apply contains_join.
  by inversion_clear Hnodes as [|? ? (_ & (_ & ? & _) & _)].
Qed.

Lemma parse_encoded nodes :
  nodes ≠ [] → (length nodes ≤ MAX_NODES)%nat → Forall parsed nodes →
  let text := join [10] (original <$> nodes) in
  is_bytes text → utf8_valid text = true → len (b64_encode text) ≤ MAX_INPUT_BYTES →
  parse_input (b64_encode text) = Ok nodes.
Proof.
  intros Hne Hmax Hnodes text Hb Hv Hsize.
  assert (Hlines : trim <$> lines text = original <$> nodes).
  { unfold text. rewrite lines_join.
    - rewrite <- (list_fmap_id (original <$> nodes)) at 2. apply Forall_fmap_ext_1. apply Forall_fmap.
      eapply Forall_impl; [exact Hnodes|]. intros n (_ & ((_ & _ & Ht) & _) & _). by apply trimmed_trim.
    - apply Forall_fmap. eapply Forall_impl; [exact Hnodes|]. by intros n (_ & (Hline & _) & _). }
  assert (Hc : contains (lit "://") text = true) by (by apply uri_text_contains).
  assert (Htext : text ≠ []) by (intros E; by rewrite E in Hc).
  pose proof (len_div_ceil_le (len text) (len_nonneg text)) as Hexp. pose proof (b64_length text Hb) as Hlen.
  rewrite parse_input_encoded by done.
  rewrite parse_input_recursive_S, Z.gtb_ltb, (proj2 (Z.ltb_ge _ _)) by lia. rewrite decoded_encoded by done.
  change MAX_NESTING with 2%nat. rewrite parse_input_recursive_S, Z.gtb_ltb, (proj2 (Z.ltb_ge _ _)) by lia.
  assert (decoded_subscription text = None) as -> by (unfold decoded_subscription; by rewrite Hc).
  rewrite Hlines. rewrite (rfold_uri_lines 1 nodes []) by done. res_simpl. cbn [app].
  by rewrite (proj2 (is_nil_false nodes)).
Qed.

(** What is over the limit when it is encoded is refused. *)
Lemma parse_encoded_large text :
  is_bytes text → text ≠ [] → MAX_INPUT_BYTES < len (b64_encode text) → parse_input (b64_encode text) = Err TooLarge.
Proof.
  intros Hb Hne Hl. rewrite parse_input_encoded by done. rewrite parse_input_recursive_S, Z.gtb_ltb.
  by rewrite (proj2 (Z.ltb_lt _ _)).
Qed.
End reread.

(** ** A concrete library *)

(** URLs of the form [scheme://user@host:port/path?query#fragment], without
    percent-encoding. *)
Record ExampleUrl := {
  ex_scheme : str; ex_user : str; ex_host : str; ex_port : option Z; ex_path : str;
  ex_query : option str; ex_fragment : option str;
}.

(** What precedes the first [c], and what follows it. *)
Definition cut (c : Z) (s : str) : str * option str :=
  match split_once c s with Some (a, b) => (a, Some b) | None => (s, None) end.

Definition example_url_parse (s : str) : option ExampleUrl :=
  match split_once_str (lit "://") s with
  | None => None
  | Some (scheme, rest) =>
      let '(rest, fragment) := cut 35 rest in
      let '(rest, query) := cut 63 rest in
      let '(authority, path) := cut 47 rest in
      let '(user, hostport) := match split_once 64 authority with
                               | Some (u, h) => (u, h)
                               | None => ([], authority)
                               end in
      let '(h, p) := cut 58 hostport in
      Some {| ex_scheme := scheme; ex_user := user; ex_host := h; ex_port := p ≫= parse_u16;
              ex_path := lit "/" ++ default [] path; ex_query := query; ex_fragment := fragment |}
  end.

Definition example_pairs (u : ExampleUrl) : list (str * str) :=
  match ex_query u with
  | None => []
  | Some q => (fun kv => match split_once 61 kv with Some (k, v) => (k, v) | None => (kv, []) end)
                <$> split_by (Z.eqb 38) q
  end.

Definition example_url_string (u : ExampleUrl) : str :=
  ex_scheme u ++ lit "://" ++ (if is_nil (ex_user u) then [] else ex_user u ++ lit "@") ++ ex_host u
  ++ match ex_port u with Some p => lit ":" ++ dec p | None => [] end ++ ex_path u
  ++ match ex_query u with Some q => lit "?" ++ q | None => [] end
  ++ match ex_fragment u with Some f => lit "#" ++ f | None => [] end.

Definition example_port (u : ExampleUrl) : option Z := ex_port u ≫= u16_try_from.

Lemma example_port_range u p : example_port u = Some p → 0 ≤ p ≤ U16_MAX.
Proof. unfold example_port. intros (x & _ & Hx)%bind_Some. by apply u16_try_from_range in Hx. Qed.

Definition example_host_str (u : ExampleUrl) : option str := if is_nil (ex_host u) then None else Some (ex_host u).

Lemma example_host_nonempty u h : example_host_str u = Some h → h ≠ [].
Proof. unfold example_host_str. destruct (is_nil (ex_host u)) eqn:E; [done|]. intros [= <-]. by apply is_nil_false. Qed.

Definition example_sublib : SubLib := {|
  Url := ExampleUrl;
  url_parse := example_url_parse;
  url_host_str := example_host_str;
  url_port := example_port;
  url_fragment := ex_fragment;
  url_username := ex_user;
  url_password _ := None;
  url_query_pairs := example_pairs;
  url_query := ex_query;
  url_path := ex_path;
  url_origin u := ex_scheme u ++ lit "://" ++ ex_host u;
  url_set_host u h := Some {| ex_scheme := ex_scheme u; ex_user := ex_user u; ex_host := h; ex_port := ex_port u;
                              ex_path := ex_path u; ex_query := ex_query u; ex_fragment := ex_fragment u |};
  url_set_port u p := Some {| ex_scheme := ex_scheme u; ex_user := ex_user u; ex_host := ex_host u; ex_port := Some p;
                              ex_path := ex_path u; ex_query := ex_query u; ex_fragment := ex_fragment u |};
  url_string := example_url_string;
  percent_decode s := s;
  b64_decode e s := match e with STANDARD => base64_decode s | _ => None end;
  b64_encode := base64_encode;
  json_parse _ := None;
  form_urlencode l := join (lit "&") ((fun kv => kv.1 ++ lit "=" ++ kv.2) <$> l);
  url_port_range := example_port_range;
  url_host_nonempty := example_host_nonempty;
  b64_roundtrip := base64_roundtrip;
  b64_alphabet := base64_alphabet;
  b64_length := base64_length;
|}.

(** A subscription of two nodes, one over TLS. *)
Definition example_lines : str :=
  join [10] [lit "vless://id@192.0.2.1:443?security=tls#A"; lit "# note"; lit "  hy2://pw@192.0.2.1:443#B "].

Lemma parse_input_sound_witness :
  ∃ nodes, @parse_input example_sublib (base64_encode example_lines) = Ok nodes ∧
    original <$> nodes = @uri_lines example_sublib 3 (trim (base64_encode example_lines)) ∧
    @uri_lines example_sublib 3 (trim (base64_encode example_lines))
    = [lit "vless://id@192.0.2.1:443?security=tls#A"; lit "hy2://pw@192.0.2.1:443#B"].
Proof.
  eexists. split; [vm_compute; reflexivity|]. split; [|by vm_compute].
  apply (@parse_input_sound example_sublib (base64_encode example_lines)). by vm_compute.
Defined.
