(* ===== verification/SubRender.v ===== *)
(** * Writing client configurations ([render_clash], [render_surge] and
    [render_singbox] of [src/src/sublink.rs])

    Clash configurations are YAML text, Surge configurations lines of
    comma-separated fields, sing-box configurations JSON, whose text is
    [serde_json]'s. *)

From stdpp Require Import base list gmap strings sets.
From Stdlib Require Import ZArith Lia.
From S2P Require Import Prelude RustStr Lines Rules SubNodes.

Open Scope Z_scope.

(** [writeln!]: a line and its line feed. *)
Definition ln (s : str) : str := s ++ [10].

(** A literal text, line by line. *)
Definition text (l : list string) : str := concat ((fun s => ln (lit s)) <$> l).

Definition SITE_RULE_BASE : str :=
  lit "https://gh-proxy.com/https://github.com/MetaCubeX/meta-rules-dat/raw/refs/heads/meta/geo/geosite/".
Definition IP_RULE_BASE : str :=
  lit "https://gh-proxy.com/https://github.com/MetaCubeX/meta-rules-dat/raw/refs/heads/meta/geo/geoip/".
Definition SINGBOX_SITE_RULE_BASE : str :=
  lit "https://gh-proxy.com/https://github.com/MetaCubeX/meta-rules-dat/raw/refs/heads/sing/geo/geosite/".
Definition SINGBOX_IP_RULE_BASE : str :=
  lit "https://gh-proxy.com/https://github.com/MetaCubeX/meta-rules-dat/raw/refs/heads/sing/geo/geoip/".
Definition SURGE_SITE_RULE_BASE : str :=
  lit "https://gh-proxy.com/https://github.com/NSZA156/surge-geox-rules/raw/refs/heads/release/geo/geosite/".
Definition SURGE_IP_RULE_BASE : str :=
  lit "https://gh-proxy.com/https://github.com/NSZA156/surge-geox-rules/raw/refs/heads/release/geo/geoip/".

(** ** Shared helpers *)

Definition rule_policy (a : RuleAction) : str :=
  match a with Proxy => lit "PROXY" | Direct => lit "DIRECT" | Reject => lit "REJECT" end.

Definition has_kind (k : string) (n : Node) : bool := is_str (kind n) k.

(** [proxy_node_names]: the members of the PROXY group, in order. *)
Definition shared_tcp_fallback (nodes : list Node) : bool :=
  (2 <=? length nodes)%nat && existsb (has_kind "hysteria2") nodes && existsb (has_kind "vless") nodes
  && match nodes with
     | [] => true
     | n0 :: _ => forallb (fun n => str_eqb (server n) (server n0) && (port n =? port n0)) nodes
     end.

Definition only (p : Node → bool) (nodes : list Node) : list Node := List.filter p nodes.

Definition proxy_nodes (nodes : list Node) : list Node :=
  if existsb (has_kind "ssh") nodes then
    only (has_kind "ssh") nodes ++ only (has_kind "vless") nodes
    ++ only (fun n => negb (matches_any (kind n) ["ssh"; "vless"]%string)) nodes
  else if negb (shared_tcp_fallback nodes) then nodes
  else only (has_kind "vless") nodes ++ only (has_kind "hysteria2") nodes.

Definition proxy_node_names (nodes : list Node) : list str := node_name <$> proxy_nodes nodes.

(** [write_clash_domain_rule]. *)
Definition write_clash_domain_rule (rule : DomainRule) (policy prefix : string) : str :=
  let '(k, domain) := match rule with Exact d => (lit "DOMAIN", d) | Suffix d => (lit "DOMAIN-SUFFIX", d) end in
  ln (lit prefix ++ k ++ lit "," ++ domain ++ lit "," ++ lit policy).

Definition clash_kind (n : Node) : str := if has_kind "shadowsocks" n then lit "ss" else kind n.

(** An empty packet encoding stands for "none". *)
Definition packet_encoding_value (n : Node) : str :=
  if eq_ignore_ascii_case (packet_encoding n) (lit "none") then [] else packet_encoding n.

(** ** Clash *)

Definition is_line_break (b : Z) : bool := (b =? 13) || (b =? 10).

(** [yaml_quote]. *)
Definition yaml_quote (value : str) : str :=
  lit "'" ++ replace_chars is_line_break (lit " ") (replace_char 39 (lit "''") value) ++ lit "'".

(** [yaml_field]. *)
Definition yaml_field (key : string) (value : str) : str :=
  ln (lit "    " ++ lit key ++ lit ": " ++ yaml_quote value).

(** [yaml_block_field]. *)
Definition yaml_block_field (key : string) (value : str) : str :=
  ln (lit "    " ++ lit key ++ lit ": |-")
  ++ concat ((fun l => ln (lit "      " ++ l)) <$> lines (replace_char 13 [] value)).

Definition bool_text (b : bool) : str := if b then lit "true" else lit "false".

Definition clash_credentials (n : Node) : str :=
  if has_kind "ssh" n then
    yaml_field "username" (username n) ++ yaml_block_field "private-key" (private_key n)
    ++ (if is_nil (trim (host_key n)) then []
        else text ["    host-key:"]
             ++ concat ((fun k => ln (lit "      - " ++ yaml_quote k))
                          <$> List.filter (fun l => negb (is_nil l)) (trim <$> lines (host_key n))))
    ++ text ["    udp: false"]
  else if has_kind "shadowsocks" n then yaml_field "cipher" (method n) ++ yaml_field "password" (password n)
  else if has_kind "vmess" n || has_kind "vless" n then
    yaml_field "uuid" (uuid n)
    ++ (if has_kind "vless" n then
          ln (lit "    udp: " ++ bool_text (udp n))
          ++ (if udp n then yaml_field "packet-encoding" (packet_encoding_value n) else [])
        else [])
  else if has_kind "tuic" n then yaml_field "uuid" (uuid n) ++ yaml_field "password" (password n)
  else yaml_field "password" (password n).

(** The options of the WebSocket and HTTP transports. *)
Definition clash_transport (n : Node) : str :=
  if matches_any (network n) ["ws"; "http"]%string then
    ln (lit "    " ++ network n ++ lit "-opts:")
    ++ (if is_nil (path n) then [] else ln (lit "      path: " ++ yaml_quote (path n)))
    ++ (if is_nil (host n) then []
        else text ["      headers:"] ++ ln (lit "        Host: " ++ yaml_quote (host n)))
  else [].

Definition clash_node (n : Node) : str :=
  ln (lit "  - name: " ++ yaml_quote (node_name n))
  ++ yaml_field "type" (clash_kind n) ++ yaml_field "server" (server n)
  ++ ln (lit "    port: " ++ dec (port n))
  ++ clash_credentials n
  ++ (if tls n then
        (if has_kind "hysteria2" n
         then yaml_field "sni" (sni n) ++ text ["    alpn:"; "      - h3"]
         else text ["    tls: true"] ++ yaml_field "servername" (sni n))
        ++ (if insecure n then text ["    skip-cert-verify: true"] else [])
      else [])
  ++ (if has_kind "hysteria2" n && is_str (obfs n) "salamander"
      then yaml_field "obfs" (obfs n) ++ yaml_field "obfs-password" (obfs_password n) else [])
  ++ (if negb (is_str (network n) "tcp") && negb (has_kind "shadowsocks" n) then
        yaml_field "network" (network n)
        ++ clash_transport n
      else []).

Definition clash_dns (custom : CustomRules) : str :=
  text ["dns:"; "  enable: true"; "  ipv6: true"; "  cache-algorithm: arc"; "  enhanced-mode: fake-ip";
        "  fake-ip-range: 198.18.0.1/16"; "  fake-ip-filter-mode: rule"; "  fake-ip-filter:";
        "    - RULE-SET,private,real-ip"; "    - RULE-SET,cn,real-ip"]
  ++ concat ((fun r => write_clash_domain_rule r "real-ip" "    - ") <$> whitelist custom)
  ++ text ["    - MATCH,fake-ip"; "  default-nameserver:"; "    - 223.5.5.5"; "    - 119.29.29.29";
           "  proxy-server-nameserver:"; "    - https://dns.alidns.com/dns-query"; "    - https://doh.pub/dns-query";
           "  direct-nameserver:"; "    - https://dns.alidns.com/dns-query"; "    - https://doh.pub/dns-query";
           "  direct-nameserver-follow-policy: true"; "  nameserver:"; "    - https://1.1.1.1/dns-query#PROXY";
           "    - https://8.8.8.8/dns-query#PROXY"; "  nameserver-policy:"; "    'rule-set:private':";
           "      - system"; "    'rule-set:apple-cn':"; "      - https://dns.alidns.com/dns-query";
           "      - https://doh.pub/dns-query"; "    'rule-set:microsoft@cn':";
           "      - https://dns.alidns.com/dns-query"; "      - https://doh.pub/dns-query";
           "    'rule-set:steam@cn':"; "      - https://dns.alidns.com/dns-query"; "      - https://doh.pub/dns-query";
           "    'rule-set:category-games@cn':"; "      - https://dns.alidns.com/dns-query";
           "      - https://doh.pub/dns-query"; "    'rule-set:bilibili':"; "      - https://dns.alidns.com/dns-query";
           "      - https://doh.pub/dns-query"; "    'rule-set:geolocation-cn':";
           "      - https://dns.alidns.com/dns-query"; "      - https://doh.pub/dns-query"; "    'rule-set:cn':";
           "      - https://dns.alidns.com/dns-query"; "      - https://doh.pub/dns-query";
           "    'rule-set:geolocation-!cn':"; "      - https://1.1.1.1/dns-query#PROXY";
           "      - https://8.8.8.8/dns-query#PROXY"].

(** One rule provider. *)
Definition clash_provider (tag behavior base file fmt : str) (china : bool) : str :=
  ln (lit "  " ++ tag ++ lit ":") ++ text ["    type: http"] ++ ln (lit "    behavior: " ++ behavior)
  ++ ln (lit "    format: " ++ fmt) ++ ln (lit "    url: " ++ yaml_quote (base ++ file ++ lit "." ++ fmt))
  ++ ln (lit "    path: " ++ yaml_quote (lit "./ruleset/" ++ tag ++ lit "." ++ fmt))
  ++ text ["    interval: 86400"] ++ (if china then text ["    proxy: DIRECT"] else []).

Definition clash_providers (rules : list RuleSpec) (fmt : str) (china : bool) : str :=
  concat ((fun r =>
    concat ((fun s => clash_provider s (lit "domain") SITE_RULE_BASE s fmt china) <$> sites r)
    ++ concat ((fun i => clash_provider (i ++ lit "-ip") (lit "ipcidr") IP_RULE_BASE i fmt china) <$> ips r)) <$> rules).

Definition clash_rules (r : RuleSpec) : str :=
  concat ((fun s => ln (lit "  - RULE-SET," ++ s ++ lit "," ++ rule_policy (action r))) <$> sites r)
  ++ concat ((fun i => ln (lit "  - RULE-SET," ++ i ++ lit "-ip," ++ rule_policy (action r) ++ lit ",no-resolve")) <$> ips r).

(** [render_clash]. *)
Definition render_clash (nodes : list Node) (rules : list RuleSpec) (custom : CustomRules) (use_mrs china : bool) : str :=
  text ["mixed-port: 7890"; "mode: rule"; "allow-lan: false"; "log-level: warning"; "proxies:"]
  ++ concat (clash_node <$> nodes)
  ++ text ["proxy-groups:"; "  - name: PROXY"; "    type: select"; "    proxies:"]
  ++ concat ((fun n => ln (lit "      - " ++ yaml_quote n)) <$> proxy_node_names nodes)
  ++ text ["      - DIRECT"]
  ++ (if china && use_mrs then clash_dns custom else [])
  ++ (if is_nil rules then []
      else text ["rule-providers:"]
           ++ clash_providers rules (if use_mrs then lit "mrs" else lit "yaml") china)
  ++ text ["rules:"]
  ++ concat ((fun r => write_clash_domain_rule r "REJECT" "  - ") <$> blacklist custom)
  ++ concat ((fun r => write_clash_domain_rule r "DIRECT" "  - ") <$> whitelist custom)
  ++ concat (clash_rules <$> rules)
  ++ text ["  - MATCH,PROXY"].

(** ** Surge *)

Definition surge_bad (b : Z) : bool := (b =? 13) || (b =? 10) || (b =? 44).

(** [surge_value]. *)
Definition surge_value (value : str) : str := replace_chars surge_bad (lit "_") value.

Definition surge_node (n : Node) : str :=
  surge_value (node_name n) ++ lit " = " ++ clash_kind n ++ lit "," ++ surge_value (server n) ++ lit "," ++ dec (port n)
  ++ (if has_kind "shadowsocks" n
      then lit ",encrypt-method=" ++ surge_value (method n) ++ lit ",password=" ++ surge_value (password n)
      else if has_kind "vmess" n || has_kind "vless" n then lit ",username=" ++ surge_value (uuid n)
      else lit ",password=" ++ surge_value (password n))
  ++ (if tls n then lit ",tls=true" else [])
  ++ (if is_nil (sni n) then [] else lit ",sni=" ++ surge_value (sni n)).

Definition surge_rules (r : RuleSpec) : str :=
  concat ((fun s => ln (lit "RULE-SET," ++ SURGE_SITE_RULE_BASE ++ s ++ lit ".conf," ++ rule_policy (action r))) <$> sites r)
  ++ concat ((fun i => ln (lit "RULE-SET," ++ SURGE_IP_RULE_BASE ++ i ++ lit ".txt," ++ rule_policy (action r)
                           ++ lit ",no-resolve")) <$> ips r).

(** [render_surge]. *)
Definition render_surge (nodes : list Node) (rules : list RuleSpec) (custom : CustomRules) (china : bool) : str :=
  text ["[General]"; "loglevel = notify"]
  ++ (if china then text ["dns-server = 223.5.5.5, 119.29.29.29"] else [])
  ++ text [EmptyString; "[Proxy]"]%string
  ++ concat ((fun n => ln (surge_node n)) <$> nodes)
  ++ text [EmptyString; "[Proxy Group]"]%string
  ++ ln (lit "PROXY = select," ++ join (lit ",") (surge_value <$> proxy_node_names nodes) ++ lit ",DIRECT")
  ++ text [EmptyString; "[Rule]"]%string
  ++ concat ((fun r => write_clash_domain_rule r "REJECT" EmptyString) <$> blacklist custom)
  ++ concat ((fun r => write_clash_domain_rule r "DIRECT" EmptyString) <$> whitelist custom)
  ++ concat (surge_rules <$> rules)
  ++ text ["FINAL,PROXY"].

(** ** sing-box *)

Definition js (s : string) : json := JString (lit s).
Definition field (k : string) (v : json) : str * json := (lit k, v).
Definition strings (l : list str) : json := JArray (JString <$> l).

(** [singbox_node]. *)
Definition singbox_node (n : Node) : json :=
  JObject
    ([field "type" (JString (kind n)); field "tag" (JString (node_name n)); field "server" (JString (server n));
      field "server_port" (JInt (port n))]
     ++ (if has_kind "shadowsocks" n then [field "method" (JString (method n)); field "password" (JString (password n))]
         else if has_kind "vmess" n then [field "uuid" (JString (uuid n))]
         else if has_kind "vless" n then
           [field "uuid" (JString (uuid n))]
           ++ (if is_nil (flow n) then [] else [field "flow" (JString (flow n))])
           ++ (if udp n then [field "packet_encoding" (JString (packet_encoding_value n))] else [])
         else if has_kind "tuic" n then [field "uuid" (JString (uuid n)); field "password" (JString (password n))]
         else [field "password" (JString (password n))])
     ++ (if tls n
         then [field "tls" (JObject [field "enabled" (JBool true); field "server_name" (JString (sni n));
                                     field "insecure" (JBool (insecure n))])]
         else [])
     ++ (if has_kind "hysteria2" n && is_str (obfs n) "salamander"
         then [field "obfs" (JObject [field "type" (js "salamander"); field "password" (JString (obfs_password n))])]
         else [])
     ++ (if negb (is_str (network n) "tcp") && negb (has_kind "shadowsocks" n)
         then [field "transport" (JObject
                 ([field "type" (JString (network n))]
                  ++ (if is_nil (path n) then [] else [field "path" (JString (path n))])
                  ++ (if is_nil (host n) then [] else [field "headers" (JObject [field "Host" (JString (host n))])])
                  ++ (if is_nil (service_name n) then [] else [field "service_name" (JString (service_name n))])))]
         else [])).

(** [domain_rule_fields]. *)
Definition domain_rule_fields (rules : list DomainRule) : list str * list str :=
  (omap (fun r => match r with Exact d => Some d | Suffix _ => None end) rules,
   omap (fun r => match r with Exact _ => None | Suffix d => Some d end) rules).

Definition domain_fields (rules : list DomainRule) : list (str * json) :=
  let '(exact, suffix) := domain_rule_fields rules in
  (if is_nil exact then [] else [field "domain" (strings exact)])
  ++ (if is_nil suffix then [] else [field "domain_suffix" (strings suffix)]).

(** The target of a rule: an outbound, or rejection. *)
Definition action_field (a : RuleAction) : str * json :=
  match a with
  | Proxy => field "outbound" (js "PROXY")
  | Direct => field "outbound" (js "DIRECT")
  | Reject => field "action" (js "reject")
  end.

(** [push_singbox_custom_rule] and [push_singbox_dns_rule]: what they append. *)
Definition singbox_custom_rule (rules : list DomainRule) (a : RuleAction) : list json :=
  if is_nil rules then [] else [JObject (domain_fields rules ++ [action_field a])].

Definition singbox_dns_rule (rules : list DomainRule) (action : string) (server : option string) : list json :=
  if is_nil rules then []
  else [JObject ([field "action" (js action)] ++ domain_fields rules
                 ++ match server with Some s => [field "server" (js s)] | None => [] end)].

Definition rule_set_tags (r : RuleSpec) : list str := sites r ++ ((fun i => i ++ lit "-ip") <$> ips r).

(** One remote rule set. *)
Definition remote_rule_set (tag base file : str) : json :=
  JObject [field "type" (js "remote"); field "tag" (JString tag); field "format" (js "binary");
           field "url" (JString (base ++ file ++ lit ".srs")); field "download_detour" (js "DIRECT")].

Definition rule_sets_of (r : RuleSpec) : list json :=
  ((fun s => remote_rule_set s SINGBOX_SITE_RULE_BASE s) <$> sites r)
  ++ ((fun i => remote_rule_set (i ++ lit "-ip") SINGBOX_IP_RULE_BASE i) <$> ips r).

Definition route_rule (r : RuleSpec) : json :=
  JObject [field "rule_set" (strings (rule_set_tags r)); action_field (action r)].

Definition china_dns_rules : list json :=
  [JObject [field "rule_set" (js "private"); field "action" (js "route"); field "server" (js "dns-local")];
   JObject [field "rule_set" (strings [lit "apple-cn"; lit "microsoft@cn"; lit "steam@cn"; lit "category-games@cn";
                                       lit "bilibili"]);
            field "action" (js "route"); field "server" (js "dns-cn-ali")];
   JObject [field "rule_set" (strings [lit "geolocation-cn"; lit "cn"]); field "action" (js "route");
            field "server" (js "dns-cn-tencent")]].

Definition https_server (tag server : string) : json :=
  JObject [field "type" (js "https"); field "tag" (js tag); field "server" (js server);
           field "domain_resolver" (js "dns-local")].

Definition singbox_dns (custom : CustomRules) (china : bool) : json :=
  if china then
    JObject [field "servers" (JArray
               [JObject [field "type" (js "local"); field "tag" (js "dns-local")];
                https_server "dns-cn-ali" "dns.alidns.com"; https_server "dns-cn-tencent" "doh.pub";
                JObject [field "type" (js "https"); field "tag" (js "dns-global"); field "server" (js "1.1.1.1");
                         field "tls" (JObject [field "enabled" (JBool true);
                                               field "server_name" (js "cloudflare-dns.com")]);
                         field "detour" (js "PROXY")]]);
             field "rules" (JArray (singbox_dns_rule (blacklist custom) "reject" None
                                    ++ singbox_dns_rule (whitelist custom) "route" (Some "dns-cn-ali"%string)
                                    ++ china_dns_rules));
             field "final" (js "dns-global")]
  else
    JObject [field "servers" (JArray [JObject [field "type" (js "udp"); field "tag" (js "dns");
                                               field "server" (js "223.5.5.5")]]);
             field "final" (js "dns")].

Definition singbox_outbounds (nodes : list Node) : list json :=
  (singbox_node <$> nodes)
  ++ [JObject [field "type" (js "selector"); field "tag" (js "PROXY");
               field "outbounds" (strings (proxy_node_names nodes))];
      JObject [field "type" (js "direct"); field "tag" (js "DIRECT")]].

Definition singbox_route (rules : list RuleSpec) (custom : CustomRules) (china : bool) : json :=
  JObject ([field "rules" (JArray (singbox_custom_rule (blacklist custom) Reject
                                   ++ singbox_custom_rule (whitelist custom) Direct ++ (route_rule <$> rules)));
            field "rule_set" (JArray (rules ≫= rule_sets_of)); field "final" (js "PROXY")]
           ++ (if china then [field "default_domain_resolver" (js "dns-local")] else [])).

(** [render_singbox], before it is written as text. *)
Definition render_singbox (nodes : list Node) (rules : list RuleSpec) (custom : CustomRules) (china : bool) : json :=
  JObject [field "log" (JObject [field "level" (js "warn")]); field "dns" (singbox_dns custom china);
           field "inbounds" (JArray []); field "outbounds" (JArray (singbox_outbounds nodes));
           field "route" (singbox_route rules custom china)].

(** ** The PROXY group *)

Lemma filter_app_perm {A} (f : A → bool) l :
  List.filter f l ++ List.filter (fun x => negb (f x)) l ≡ₚ l.
Proof.
  induction l as [|x l IH]; [done|]. cbn. destruct (f x); cbn.
  - by rewrite IH.
  - rewrite <- Permutation_middle. by rewrite IH.
Qed.

Lemma filter_filter {A} (f g : A → bool) l :
  List.filter f (List.filter g l) = List.filter (fun x => g x && f x) l.
Proof. induction l as [|x l IH]; [done|]. cbn. destruct (g x); cbn; [destruct (f x); cbn; by rewrite IH|done]. Qed.

Lemma filter_ext_bool {A} (f g : A → bool) l : (∀ x, f x = g x) → List.filter f l = List.filter g l.
Proof. intros Hfg. induction l as [|x l IH]; [done|]. cbn. by rewrite Hfg, IH. Qed.

(** The PROXY group of a configuration holds only nodes of it, and is
    not empty.  It is all of them, SSH first and VLESS next when there is an SSH
    node; only a subscription without SSH whose nodes share one server and port,
    with both HY2 and VLESS among them, is reduced to its VLESS and HY2 nodes. *)
Theorem proxy_group_spec nodes :
  nodes ≠ [] →
  proxy_nodes nodes ≠ [] ∧ (∀ n, n ∈ proxy_nodes nodes → n ∈ nodes) ∧
  (existsb (has_kind "ssh") nodes || negb (shared_tcp_fallback nodes) = true → proxy_nodes nodes ≡ₚ nodes) ∧
  (existsb (has_kind "ssh") nodes || negb (shared_tcp_fallback nodes) = false →
   proxy_nodes nodes = only (has_kind "vless") nodes ++ only (has_kind "hysteria2") nodes).
Proof.
  intros Hne. unfold proxy_nodes. destruct (existsb (has_kind "ssh") nodes) eqn:Essh; cbn [orb].
  - assert (Hperm : only (has_kind "ssh") nodes ++ only (has_kind "vless") nodes
      ++ only (fun n => negb (matches_any (kind n) ["ssh"; "vless"]%string)) nodes ≡ₚ nodes).
    { rewrite <- (filter_app_perm (has_kind "ssh") nodes) at 4. apply Permutation_app_head. unfold only.
      rewrite <- (filter_app_perm (has_kind "vless") (List.filter (fun n => negb (has_kind "ssh" n)) nodes)).
      rewrite !filter_filter. apply Permutation_app.
      - erewrite filter_ext_bool; [done|]. intros n. unfold has_kind, is_str.
        destruct (str_eqb (kind n) (lit "vless")) eqn:E; [|by rewrite andb_false_r].
        apply str_eqb_eq in E. by rewrite E.
      - erewrite filter_ext_bool; [done|]. intros n. unfold has_kind, matches_any, is_str. cbn [existsb].
        by rewrite orb_false_r, negb_orb. }
    split_and!; [|by intros n; rewrite Hperm|done|done].
    intros E. rewrite E in Hperm. by apply Permutation_nil_l in Hperm.
  - destruct (shared_tcp_fallback nodes) eqn:Es; cbn [negb orb]; [|by split_and!].
    split_and!; [|intros n; rewrite elem_of_app, !list_elem_of_In; unfold only; rewrite !filter_In; tauto|done|done].
    unfold shared_tcp_fallback in Es. rewrite !andb_true_iff in Es. destruct Es as (((_ & Hh) & _) & _).
    apply existsb_exists in Hh as (n & Hn & Hk). intros Enil. apply app_eq_nil in Enil as [_ Enil].
    assert (Hin : In n (only (has_kind "hysteria2") nodes)) by (by apply filter_In). by rewrite Enil in Hin.
Qed.

(** ** Quoted YAML scalars *)

(** What a YAML reader takes after an opening quote: two quotes are one, a single
    quote ends the scalar, a line break is not part of a one-line scalar. *)
Fixpoint yaml_scan (s : str) : option (str * str) :=
  match s with
  | [] => None
  | b :: t =>
      if b =? 39 then
        match t with
        | [] => Some ([], t)
        | c :: u => if c =? 39 then (fun r => (39 :: r.1, r.2)) <$> yaml_scan u else Some ([], t)
        end
      else if is_line_break b then None
      else (fun r => (b :: r.1, r.2)) <$> yaml_scan t
  end.

Definition yaml_read (s : str) : option (str * str) :=
  match s with
  | b :: t => if b =? 39 then yaml_scan t else None
  | [] => None
  end.

(** Line breaks become spaces. *)
Definition flatten (v : str) : str := replace_chars is_line_break (lit " ") v.

Lemma yaml_scan_quoted v rest :
  starts_with [39] rest = false →
  yaml_scan (replace_chars is_line_break (lit " ") (replace_char 39 (lit "''") v) ++ 39 :: rest)
    = Some (flatten v, rest).
Proof.
  intros Hr. induction v as [|b v IH].
  - cbn. destruct rest as [|c rest]; [done|]. unfold starts_with in Hr.
    cbn [strip_prefix] in Hr. rewrite (Z.eqb_sym c 39). by destruct (39 =? c).
  - unfold replace_char, flatten, replace_chars in *. cbn [flat_map]. rewrite flat_map_app, <- app_assoc.
    match type of IH with yaml_scan ?x = _ => set (tail := x) in * end.
    destruct (Z.eqb_spec 39 b) as [<-|Hb].
    + change (flat_map _ (lit "''")) with [39; 39]. cbn [app yaml_scan]. rewrite Z.eqb_refl, IH. done.
    + cbn [flat_map]. rewrite app_nil_r. destruct (is_line_break b) eqn:El.
      * change (lit " ") with [32]. cbn [app yaml_scan]. by rewrite IH.
      * cbn [app yaml_scan]. rewrite (proj2 (Z.eqb_neq b 39)), El by done. by rewrite IH.
Qed.

Lemma quoted_no_break v : Forall (fun b => is_line_break b = false) (yaml_quote v).
Proof.
  unfold yaml_quote. apply Forall_app_2; [by repeat constructor|]. apply Forall_app_2; [|by repeat constructor].
  apply replace_chars_Forall; [by repeat constructor|]. by apply Forall_true.
Qed.

Definition no_break (s : str) : Prop := Forall (fun b => is_line_break b = false) s.
Definition indent : str := lit "    ".

(** Lines indented by four spaces at least, without a break inside. *)
Definition block (s : str) : Prop :=
  ∃ ls, s = concat (ln <$> ls) ∧ Forall (fun l => starts_with indent l = true ∧ no_break l) ls.

Lemma block_nil : block [].
Proof. by exists []. Qed.

Lemma block_app a b : block a → block b → block (a ++ b).
Proof.
  intros (x & -> & Hx) (y & -> & Hy). exists (x ++ y). rewrite fmap_app, concat_app. split; [done|].
  by apply Forall_app_2.
Qed.

Lemma block_ln l : no_break l → block (ln (indent ++ l)).
Proof.
  intros Hl. exists [indent ++ l]. cbn [fmap list_fmap concat]. rewrite app_nil_r. split; [done|].
  apply Forall_singleton. split; [apply starts_with_iff; eauto|]. apply Forall_app_2; [by repeat constructor|done].
Qed.

Lemma block_concat {A} (f : A → str) l : (∀ x, x ∈ l → block (f x)) → block (concat (f <$> l)).
Proof.
  induction l as [|x l IH]; intros Hf; [apply block_nil|]. cbn. apply block_app; [apply Hf; by left|].
  apply IH. intros y Hy. apply Hf. by right.
Qed.

Lemma block_if (c : bool) a b : block a → block b → block (if c then a else b).
Proof. by destruct c. Qed.

Lemma no_break_app a b : no_break a → no_break b → no_break (a ++ b).
Proof. apply Forall_app_2. Qed.

Lemma no_break_digits l : Forall (fun b => 48 ≤ b ≤ 57) l → no_break l.
Proof.
  intros H. eapply Forall_impl; [exact H|]. intros b Hb. cbv beta in Hb. unfold is_line_break.
  rewrite (proj2 (Z.eqb_neq b 13)), (proj2 (Z.eqb_neq b 10)) by lia. done.
Qed.

Lemma no_break_lit s : forallb (fun b => negb (is_line_break b)) (lit s) = true → no_break (lit s).
Proof.
  rewrite forallb_forall. intros H. apply Forall_forall. intros b Hb. apply negb_true_iff, H.
  by apply list_elem_of_In.
Qed.

Lemma block_field key v : no_break (lit key) → block (yaml_field key v).
Proof.
  intros Hk. apply block_ln. apply no_break_app; [done|]. apply no_break_app; [by repeat constructor|].
  apply quoted_no_break.
Qed.

Lemma block_text l :
  forallb (fun s => starts_with indent (lit s) && forallb (fun b => negb (is_line_break b)) (lit s)) l = true →
  block (text l).
Proof.
  intros Hl. exists (lit <$> l). split; [by rewrite <- list_fmap_compose|]. apply Forall_fmap.
  rewrite forallb_forall in Hl. apply Forall_forall. intros s Hs. specialize (Hl s).
  rewrite andb_true_iff, <- list_elem_of_In in Hl. destruct (Hl Hs). split; [done|by apply no_break_lit].
Qed.

(** The key block: every line of the key, without carriage returns. *)
Lemma block_block_field key v : no_break (lit key) → block (yaml_block_field key v).
Proof.
  intros Hk. apply block_app.
  - apply block_ln. apply no_break_app; [done|by repeat constructor].
  - apply block_concat. intros l Hl. change (lit "      ") with (indent ++ lit "  "). rewrite <- app_assoc.
    apply block_ln. apply no_break_app; [by repeat constructor|]. pose proof (lines_no_lf _ _ Hl) as Hlf.
    apply Forall_forall. intros b Hb. unfold is_line_break.
    assert (H10 : b ≠ 10) by congruence. rewrite (proj2 (Z.eqb_neq b 10)), orb_false_r by done.
    apply Z.eqb_neq. intros ->. revert Hb. apply (lines_avoid 13) in Hl; [done|].
    intros Hin. apply list_elem_of_In, in_flat_map in Hin as (c & _ & Hc).
    destruct (Z.eqb_spec 13 c); cbn in Hc; [done|]. destruct Hc; [congruence|done].
Qed.

(** The parts of a node's entry. *)
Ltac blocks :=
  repeat first
    [ apply block_nil
    | apply block_field; by repeat constructor
    | apply block_block_field; by repeat constructor
    | apply block_text; by vm_compute
    | match goal with |- block (?a ++ ?b) => apply (block_app a b) end
    | match goal with |- block (if ?c then ?a else ?b) => apply (block_if c a b) end ].

Lemma block_quoted p v :
  no_break (lit p) → block (ln (indent ++ lit p ++ yaml_quote v)).
Proof. intros Hp. apply block_ln, no_break_app; [done|apply quoted_no_break]. Qed.

Lemma clash_credentials_block n : block (clash_credentials n).
Proof.
  unfold clash_credentials. blocks.
  - apply block_concat. intros k _.
    change (lit "      - " ++ yaml_quote k) with (indent ++ lit "  - " ++ yaml_quote k).
    apply block_quoted. by repeat constructor.
  - change (lit "    udp: " ++ bool_text (udp n)) with (indent ++ lit "udp: " ++ bool_text (udp n)).
    apply block_ln, no_break_app; [by repeat constructor|]. by destruct (udp n); repeat constructor.
Qed.

Lemma clash_transport_block n : block (clash_transport n).
Proof.
  unfold clash_transport. destruct (matches_any (network n) ["ws"; "http"]%string) eqn:E; [|apply block_nil].
  apply matches_any_true in E as (w & Hw & ->). blocks.
  - change (lit "    " ++ lit w ++ lit "-opts:") with (indent ++ lit w ++ lit "-opts:").
    apply block_ln. apply no_break_app; [|by repeat constructor].
    apply elem_of_cons in Hw as [->|Hw%list_elem_of_singleton]; [by repeat constructor|].
    subst w. by repeat constructor.
  - change (lit "      path: " ++ yaml_quote (path n)) with (indent ++ lit "  path: " ++ yaml_quote (path n)).
    apply block_quoted. by repeat constructor.
  - change (lit "        Host: " ++ yaml_quote (host n)) with (indent ++ lit "    Host: " ++ yaml_quote (host n)).
    apply block_quoted. by repeat constructor.
Qed.

(** Whatever the texts of a node, its entry in a Clash configuration is
    one list item: a line with its quoted name, then only lines indented under
    it, the lines of an SSH key included; no text breaks a line or closes its
    quotes, and a reader of the quoted text gets it back with its line breaks
    replaced by spaces. *)
Theorem clash_node_contained n :
  (∃ body, clash_node n = ln (lit "  - name: " ++ yaml_quote (node_name n)) ++ body ∧ block body) ∧
  no_break (yaml_quote (node_name n)) ∧
  ∀ v rest, yaml_read (yaml_quote v ++ 10 :: rest) = Some (flatten v, 10 :: rest).
Proof.
  split_and!.
  - eexists. split; [reflexivity|]. blocks.
    + change (lit "    port: " ++ dec (port n)) with (indent ++ lit "port: " ++ dec (port n)).
      apply block_ln, no_break_app; [by repeat constructor|]. apply no_break_digits, dec_ascii.
    + apply clash_credentials_block.
    + apply clash_transport_block.
  - apply quoted_no_break.
  - intros v rest. unfold yaml_read, yaml_quote. rewrite <- !app_assoc. cbn [lit app].
    apply (yaml_scan_quoted v (10 :: rest)). done.
Qed.

(** ** Surge fields *)

Definition is_comma (b : Z) : bool := b =? 44.
Definition plain (s : str) : Prop := Forall (fun b => surge_bad b = false) s.

Lemma surge_value_plain v : plain (surge_value v).
Proof. apply replace_chars_Forall; [by repeat constructor|]. by apply Forall_true. Qed.

Lemma plain_app a b : plain a → plain b → plain (a ++ b).
Proof. apply Forall_app_2. Qed.

Lemma plain_dec v : plain (dec v).
Proof.
  eapply Forall_impl; [apply dec_ascii|]. intros b Hb. cbv beta in Hb. unfold surge_bad.
  rewrite (proj2 (Z.eqb_neq b 13)), (proj2 (Z.eqb_neq b 10)), (proj2 (Z.eqb_neq b 44)) by lia. done.
Qed.

Lemma split_by_comma a s : plain a → split_by is_comma (a ++ 44 :: s) = a :: split_by is_comma s.
Proof.
  induction 1 as [|b a Hb _ IH]; [done|]. cbn [app split_by].
  assert (is_comma b = false) as -> by (unfold surge_bad in Hb; by apply orb_false_iff in Hb as [_ ?]).
  by rewrite IH.
Qed.

Lemma split_by_plain a : plain a → split_by is_comma a = [a].
Proof.
  induction 1 as [|b a Hb _ IH]; [done|]. cbn [split_by].
  assert (is_comma b = false) as -> by (unfold surge_bad in Hb; by apply orb_false_iff in Hb as [_ ?]).
  by rewrite IH.
Qed.

(** Fields joined by commas are read back. *)
Lemma split_by_join l : l ≠ [] → Forall plain l → split_by is_comma (join (lit ",") l) = l.
Proof.
  intros Hne. induction 1 as [|a l Ha Hl IH]; [done|]. destruct l as [|b l]; [by apply split_by_plain|].
  rewrite join_cons_cons. change (lit "," ++ join (lit ",") (b :: l)) with (44 :: join (lit ",") (b :: l)).
  rewrite split_by_comma, IH by done. done.
Qed.

(** The fields of a node's line. *)
Definition surge_fields (n : Node) : list str :=
  [surge_value (node_name n) ++ lit " = " ++ clash_kind n; surge_value (server n); dec (port n)]
  ++ (if has_kind "shadowsocks" n
      then [lit "encrypt-method=" ++ surge_value (method n); lit "password=" ++ surge_value (password n)]
      else if has_kind "vmess" n || has_kind "vless" n then [lit "username=" ++ surge_value (uuid n)]
      else [lit "password=" ++ surge_value (password n)])
  ++ (if tls n then [lit "tls=true"] else [])
  ++ (if is_nil (sni n) then [] else [lit "sni=" ++ surge_value (sni n)]).

Lemma join_app_comma l k : l ≠ [] →
  join (lit ",") (l ++ k) = join (lit ",") l ++ concat ((fun f => lit "," ++ f) <$> k).
Proof.
  intros Hne. induction l as [|a l IH]; [done|]. destruct l as [|b l].
  - clear. revert a. induction k as [|c k IH]; intros a; [cbn; by rewrite app_nil_r|]. cbn [app].
    rewrite join_cons_cons. cbn [fmap list_fmap concat]. cbn [app] in IH. rewrite IH. by rewrite <- app_assoc.
  - cbn [app] in *. rewrite !join_cons_cons, IH by done. by rewrite <- !app_assoc.
Qed.

Lemma surge_node_join n : surge_node n = join (lit ",") (surge_fields n).
Proof.
  unfold surge_fields. rewrite join_app_comma by done. unfold surge_node. rewrite !join_cons_cons. cbn [join].
  rewrite <- !app_assoc. do 7 f_equal. rewrite !fmap_app, !concat_app. f_equal; [|f_equal].
  - destruct (has_kind "shadowsocks" n); [cbn [fmap list_fmap concat]; by rewrite app_nil_r, <- app_assoc|].
    destruct (has_kind "vmess" n || has_kind "vless" n); cbn [fmap list_fmap concat]; by rewrite app_nil_r.
  - by destruct (tls n).
  - destruct (is_nil (sni n)); [done|]. cbn [fmap list_fmap concat]. by rewrite app_nil_r.
Qed.

Lemma kinds_plain k : k ∈ KINDS → plain k.
Proof. unfold KINDS. intros Hk. repeat (apply elem_of_cons in Hk as [->|Hk]; [by repeat constructor|]). set_solver. Qed.

Lemma surge_fields_plain n : node_ok n → Forall plain (surge_fields n).
Proof.
  intros (Hk & _). apply kinds_plain in Hk.
  assert (Hck : plain (clash_kind n)) by (unfold clash_kind; case_match; [by repeat constructor|done]).
  unfold surge_fields. repeat apply Forall_app_2.
  - repeat constructor; [|apply surge_value_plain|apply plain_dec].
    apply plain_app; [apply surge_value_plain|]. apply plain_app; [by repeat constructor|done].
  - destruct (has_kind "shadowsocks" n); [apply Forall_cons; split; [|apply Forall_singleton]|
      destruct (has_kind "vmess" n || has_kind "vless" n); apply Forall_singleton];
      (apply plain_app; [by repeat constructor|apply surge_value_plain]).
  - case_match; [|constructor]. apply Forall_singleton. by repeat constructor.
  - case_match; [constructor|]. apply Forall_singleton. apply plain_app; [by repeat constructor|apply surge_value_plain].
Qed.

(** A node's line of a Surge configuration splits at its commas into
    exactly the fields written, whatever the node's texts: no name, password or
    server can add a field, and none can start another line. *)
Theorem surge_node_fields n :
  node_ok n →
  split_by is_comma (surge_node n) = surge_fields n ∧ no_break (surge_node n).
Proof.
  intros Hn. pose proof (surge_fields_plain n Hn) as Hp. rewrite surge_node_join. split.
  - by apply split_by_join.
  - assert (Hj : Forall (fun b => is_line_break b = false) (join (lit ",") (surge_fields n))); [|exact Hj].
    induction Hp as [|a l Ha Hl IH]; [constructor|].
    assert (Ha' : no_break a).
    { eapply Forall_impl; [exact Ha|]. intros b Hb. unfold surge_bad in Hb. by apply orb_false_iff in Hb as [? _]. }
    destruct l as [|b l]; [done|]. rewrite join_cons_cons. apply no_break_app; [done|].
    apply no_break_app; [by repeat constructor|done].
Qed.

Definition example_node : Node :=
  {| kind := lit "vless"; node_name := lit "a,b"; server := lit "192.0.2.1"; port := 443; username := lit "id";
     password := []; private_key := []; host_key := []; method := []; uuid := lit "id"; network := lit "tcp";
     path := []; host := []; service_name := []; sni := lit "x,y"; obfs := []; obfs_password := []; flow := [];
     packet_encoding := []; udp := false; original := lit "vless://id@192.0.2.1"; tls := true; insecure := false |}.

Lemma surge_node_fields_witness :
  length (split_by is_comma (surge_node example_node)) = 6%nat ∧
  split_by is_comma (surge_node example_node) = surge_fields example_node ∧ no_break (surge_node example_node).
Proof.
  split; [by vm_compute|]. apply surge_node_fields. unfold node_ok. cbn.
  split_and!; try done; try (intros H; discriminate H).
  unfold KINDS. set_solver.
Defined.

Lemma proxy_group_spec_witness :
  proxy_nodes [example_node] ≠ [] ∧ (∀ n, n ∈ proxy_nodes [example_node] → n ∈ [example_node]) ∧
  proxy_nodes [example_node] ≡ₚ [example_node].
Proof.
  destruct (proxy_group_spec [example_node]) as (H1 & H2 & H3 & _); [done|].
  split; [exact H1|]. split; [exact H2|]. apply H3. by vm_compute.
Defined.

(** ** sing-box references *)

(** The tags that a list of outbounds or of rule sets declares. *)
Definition tags_of (l : list json) : list str := omap (fun o => json_get "tag" o ≫= as_str) l.

Definition as_strings (v : json) : list str :=
  match v with JArray l => omap as_str l | JString s => [s] | _ => [] end.

(** The texts under a key of some objects: one text, or a list of them. *)
Definition texts (key : string) (l : list json) : list str :=
  l ≫= fun o => default [] (as_strings <$> json_get key o).

Lemma as_strings_strings l : as_strings (strings l) = l.
Proof. unfold strings. cbn. induction l as [|s l IH]; cbn; [done|]. by f_equal. Qed.

Lemma tags_app l k : tags_of (l ++ k) = tags_of l ++ tags_of k.
Proof. apply omap_app. Qed.

Lemma tags_nodes nodes : tags_of (singbox_node <$> nodes) = node_name <$> nodes.
Proof. induction nodes as [|n nodes IH]; [done|]. cbn. f_equal. exact IH. Qed.

Lemma tags_rule_sets r : tags_of (rule_sets_of r) = rule_set_tags r.
Proof.
  unfold rule_sets_of, rule_set_tags. rewrite tags_app. f_equal.
  - induction (sites r) as [|s l IH]; [done|]. cbn. f_equal. exact IH.
  - induction (ips r) as [|s l IH]; [done|]. cbn. f_equal. exact IH.
Qed.

Lemma tags_bind rules : tags_of (rules ≫= rule_sets_of) = rules ≫= rule_set_tags.
Proof. induction rules as [|r rules IH]; [done|]. cbn [mbind list_bind]. by rewrite tags_app, tags_rule_sets, IH. Qed.

Lemma texts_app key l k : texts key (l ++ k) = texts key l ++ texts key k.
Proof. apply bind_app. Qed.

Lemma texts_none key l : (∀ o, o ∈ l → json_get key o = None) → texts key l = [].
Proof.
  induction l as [|o l IH]; intros Hl; [done|]. unfold texts in *. cbn [mbind list_bind].
  rewrite (Hl o) by set_solver. cbn. apply IH. intros x Hx. apply Hl. set_solver.
Qed.

Lemma node_no_outbounds n : json_get "outbounds" (singbox_node n) = None.
Proof. unfold singbox_node. by repeat case_match. Qed.

(** The fields of a domain rule: its domains, and its target. *)
Lemma domain_fields_get key rules rest :
  is_str (lit "domain") key = false → is_str (lit "domain_suffix") key = false →
  json_get key (JObject (domain_fields rules ++ rest)) = json_get key (JObject rest).
Proof.
  intros H1 H2. unfold domain_fields. destruct (domain_rule_fields rules) as [e s].
  destruct (is_nil e), (is_nil s); cbn [app json_get find_first field fst]; by rewrite ?H1, ?H2.
Qed.

Lemma custom_rule_texts rules a :
  texts "rule_set" (singbox_custom_rule rules a) = [] ∧
  (∀ t, t ∈ texts "outbound" (singbox_custom_rule rules a) → t = lit "PROXY" ∨ t = lit "DIRECT").
Proof.
  unfold singbox_custom_rule, texts. destruct (is_nil rules); [split; [done|set_solver]|].
  cbn [mbind list_bind]. rewrite !domain_fields_get by done. destruct a; cbn; set_solver.
Qed.

Lemma dns_rule_texts rules act srv :
  texts "rule_set" (singbox_dns_rule rules act srv) = [] ∧
  texts "server" (singbox_dns_rule rules act srv)
  = if is_nil rules then [] else match srv with Some s => [lit s] | None => [] end.
Proof.
  unfold singbox_dns_rule, texts. destruct (is_nil rules); [done|].
  assert (E : ∀ key rest, is_str (lit "action") key = false → is_str (lit "domain") key = false →
    is_str (lit "domain_suffix") key = false →
    json_get key (JObject ([field "action" (js act)] ++ domain_fields rules ++ rest)) = json_get key (JObject rest)).
  { intros key rest Ha H1 H2. rewrite <- (domain_fields_get key rules rest H1 H2). cbn [app json_get find_first field fst].
    by rewrite Ha. }
  cbn [mbind list_bind]. rewrite !E by done. by destruct srv.
Qed.

Lemma route_rules_texts rules :
  texts "rule_set" (route_rule <$> rules) = rules ≫= rule_set_tags ∧
  (∀ t, t ∈ texts "outbound" (route_rule <$> rules) → t = lit "PROXY" ∨ t = lit "DIRECT").
Proof.
  induction rules as [|r rules [IH1 IH2]]; [split; [done|set_solver]|]. cbn [fmap list_fmap]. split.
  - unfold texts in *. cbn [mbind list_bind]. rewrite IH1. f_equal. apply as_strings_strings.
  - intros t. unfold texts in *. cbn [mbind list_bind]. rewrite elem_of_app. intros [Ht|Ht]; [|by apply IH2].
    unfold route_rule in Ht. destruct (action r); cbn in Ht; set_solver.
Qed.

Lemma rule_sets_detour rules t : t ∈ texts "download_detour" (rules ≫= rule_sets_of) → t = lit "DIRECT".
Proof.
  intros (o & Ht & (r & Ho & _)%list_elem_of_bind)%list_elem_of_bind. unfold rule_sets_of in Ho.
  apply elem_of_app in Ho as [(x & -> & _)%list_elem_of_fmap|(x & -> & _)%list_elem_of_fmap]; cbn in Ht; set_solver.
Qed.

(** The parts of a rendered configuration. *)
Definition part (k1 k2 : string) (v : json) : list json :=
  match json_get k1 v ≫= json_get k2 with Some (JArray l) => l | _ => [] end.

Definition objects (key : string) (v : json) : list json :=
  match json_get key v with Some (JArray l) => l | Some o => [o] | None => [] end.

(** What a configuration refers to as an outbound, as a DNS server, as a rule set. *)
Definition outbound_references (v : json) : list str :=
  texts "outbounds" (objects "outbounds" v) ++ texts "outbound" (part "route" "rules" v) ++ texts "final" (objects "route" v)
  ++ texts "download_detour" (part "route" "rule_set" v) ++ texts "detour" (part "dns" "servers" v).

Definition dns_references (v : json) : list str :=
  texts "server" (part "dns" "rules" v) ++ texts "final" (objects "dns" v) ++ texts "domain_resolver" (part "dns" "servers" v)
  ++ texts "default_domain_resolver" (objects "route" v).

Definition rule_set_references (v : json) : list str :=
  texts "rule_set" (part "route" "rules" v) ++ texts "rule_set" (part "dns" "rules" v).

Lemma proxy_nodes_elem nodes n : n ∈ proxy_nodes nodes → n ∈ nodes.
Proof.
  destruct nodes as [|n0 nodes]; [done|]. unfold proxy_nodes. repeat case_match;
    rewrite ?elem_of_app, ?list_elem_of_In; unfold only; rewrite ?filter_In; tauto.
Qed.

Lemma selector_texts nodes : texts "outbounds" (singbox_outbounds nodes) = proxy_node_names nodes.
Proof.
  unfold singbox_outbounds. rewrite texts_app, texts_none.
  - change (as_strings (strings (proxy_node_names nodes)) ++ [] = proxy_node_names nodes).
    by rewrite as_strings_strings, app_nil_r.
  - intros o (n & -> & _)%list_elem_of_fmap. apply node_no_outbounds.
Qed.

(** Claim C39. A sing-box configuration rendered from selected rules refers only to what it declares, with the China
    preset too. As outbounds: every member of its selector, every target of a rule,
    the final one and every detour is a tag of its outbounds, and the selector has a
    member if there is a node. As DNS servers: those of the DNS rules, the final one
    and the resolvers are tags of its servers. And every rule set that a routing or a
    DNS rule names is declared under that tag. *)
Theorem singbox_references_closed nodes preset ad custom :
  let china := bool_decide (preset = Some China) in
  let config := render_singbox nodes (selected_rule_specs preset ad) custom china in
  outbound_references config ⊆ tags_of (objects "outbounds" config) ∧
  (nodes ≠ [] → texts "outbounds" (objects "outbounds" config) ≠ []) ∧
  dns_references config ⊆ tags_of (part "dns" "servers" config) ∧
  rule_set_references config ⊆ tags_of (part "route" "rule_set" config).
Proof.
  intros china config. set (rules := selected_rule_specs preset ad) in *.
  change (objects "outbounds" config) with (singbox_outbounds nodes).
  assert (Htags : tags_of (singbox_outbounds nodes) = (node_name <$> nodes) ++ [lit "PROXY"; lit "DIRECT"]).
  { unfold singbox_outbounds. by rewrite tags_app, tags_nodes. }
  assert (Hsets : tags_of (part "route" "rule_set" config) = rules ≫= rule_set_tags).
  { change (part "route" "rule_set" config) with (rules ≫= rule_sets_of). apply tags_bind. }
  assert (Hrules : part "route" "rules" config = singbox_custom_rule (blacklist custom) Reject
     ++ singbox_custom_rule (whitelist custom) Direct ++ (route_rule <$> rules)) by done.
  split_and!.
  - rewrite Htags. unfold outbound_references. change (objects "outbounds" config) with (singbox_outbounds nodes).
    rewrite selector_texts, Hrules, !texts_app. intros t.
    change (part "route" "rule_set" config) with (rules ≫= rule_sets_of). rewrite !elem_of_app.
    intros [(n & -> & Hn%proxy_nodes_elem)%list_elem_of_fmap|[Ht|[Ht|[->%rule_sets_detour|Ht]]]].
    + left. by apply list_elem_of_fmap_2.
    + right. destruct Ht as [[-> | ->]%custom_rule_texts|[[-> | ->]%custom_rule_texts|[-> | ->]%route_rules_texts]]; set_solver.
    + right. revert Ht. unfold config, china. destruct (bool_decide (preset = Some China)); cbn; set_solver.
    + right. set_solver.
    + right. revert Ht. unfold config, china. destruct (bool_decide (preset = Some China)); cbn; set_solver.
  - intros Hne. rewrite selector_texts. unfold proxy_node_names. intros E%fmap_nil_inv.
    by destruct (proxy_group_spec nodes Hne) as [? _].
  - unfold dns_references, config, china. destruct (bool_decide (preset = Some China)).
    + change (part "dns" "rules" _) with
        (singbox_dns_rule (blacklist custom) "reject" None
         ++ singbox_dns_rule (whitelist custom) "route" (Some "dns-cn-ali"%string) ++ china_dns_rules).
      rewrite !texts_app. rewrite (proj2 (dns_rule_texts _ _ _)), (proj2 (dns_rule_texts _ _ _)). intros t.
      destruct (is_nil (blacklist custom)), (is_nil (whitelist custom)); vm_compute; set_solver.
    + intros t. vm_compute. set_solver.
  - rewrite Hsets. unfold rule_set_references. rewrite Hrules, !texts_app.
    rewrite !(proj1 (custom_rule_texts _ _)), (proj1 (route_rules_texts _)). intros t. cbn [app]. rewrite elem_of_app.
    intros [Ht|Ht]; [done|]. revert Ht. unfold config, china. destruct (bool_decide_reflect (preset = Some China)) as [Hc|Hc].
    + change (part "dns" "rules" _) with
        (singbox_dns_rule (blacklist custom) "reject" None
         ++ singbox_dns_rule (whitelist custom) "route" (Some "dns-cn-ali"%string) ++ china_dns_rules).
      rewrite !texts_app, !(proj1 (dns_rule_texts _ _ _)). cbn [app]. intros Ht.
      assert (Hsub : Forall (fun x => x ∈ rules ≫= rule_set_tags) (texts "rule_set" china_dns_rules)).
      { unfold rules. rewrite Hc. destruct ad; vm_compute; repeat constructor; set_solver. }
      rewrite Forall_forall in Hsub. by apply Hsub.
    + set_solver.
Qed.
