(* ===== verification/Sublink.v ===== *)
(** * The subscription service ([SublinkService] of [src/src/sublink.rs])

    Conversion of proxy nodes into client configurations and the short links that
    stand for a conversion.  The service holds one store behind a mutex, so its
    operations run one at a time: each takes the store and returns the next one.
    Besides the crates of [SubLib], the digest of [blake2], the text of a JSON
    value and the host parser are parameters. *)

From stdpp Require Import base list gmap strings sets.
From Stdlib Require Import ZArith Lia.
From S2P Require Import Prelude RustStr Lines Files Rules Config Base64 ShortStore SubNodes SubRender.

Open Scope Z_scope.

Definition FORMATS : list string := ["singbox"; "clash"; "surge"; "xray"].

Record SublinkOutput := { content_type : str; body : str; profile_name : str; file_extension : str }.

Definition output (t : string) (b : str) (p : str) (e : string) : SublinkOutput :=
  {| content_type := lit t; body := b; profile_name := p; file_extension := lit e |}.

(** [format_for_prefix]. *)
Definition format_for_prefix (prefix : str) : option str :=
  if is_str prefix "b" then Some (lit "singbox")
  else if is_str prefix "c" then Some (lit "clash")
  else if is_str prefix "s" then Some (lit "surge")
  else if is_str prefix "x" then Some (lit "xray")
  else None.

Definition contains_any (names : list string) (s : str) : bool := existsb (fun n => contains (lit n) s) names.

(** [auto_format]. *)
Definition auto_format (user_agent accept : str) : str :=
  let user_agent := to_ascii_lowercase user_agent in
  let accept := to_ascii_lowercase accept in
  if contains_any ["clash"; "mihomo"; "verge"; "stash"; "flclash"; "nyanpasu"; "clashmi"; "sparkle"; "surfboard"]
       user_agent then lit "clash"
  else if contains (lit "surge") user_agent then lit "surge"
  else if contains_any ["sing-box"; "singbox"] user_agent || starts_with (lit "sfa/") user_agent
          || starts_with (lit "sfi/") user_agent || starts_with (lit "sfm/") user_agent then lit "singbox"
  else if contains_any ["yaml"; "yml"] accept then lit "clash"
  else if contains (lit "json") accept then lit "singbox"
  else lit "xray".

(** [normalize_format]. *)
Definition normalize_format (format : str) : result SubError str :=
  let f := to_ascii_lowercase (trim format) in
  if matches_any f ["singbox"; "sing-box"; "json"] then Ok (lit "singbox")
  else if matches_any f ["clash"; "mihomo"; "yaml"; "yml"] then Ok (lit "clash")
  else if is_str f "surge" then Ok (lit "surge")
  else if matches_any f ["xray"; "v2ray"; "base64"; "universal"] then Ok (lit "xray")
  else Err UnsupportedFormat.

(** [supports_mrs_format]. *)
Definition supports_mrs_format (user_agent : str) : bool :=
  let user_agent := to_ascii_lowercase user_agent in
  if contains_any ["mihomo"; "meta"; "clash-verge"; "verge"; "stash"; "flclash"; "nyanpasu"; "clashmi"; "sparkle"]
       user_agent then true
  else negb (contains (lit "merlin") user_agent) && negb (contains (lit "clashforwindows") user_agent)
       && negb (contains (lit "clashforandroid") user_agent) && negb (contains (lit "clash/") user_agent).

(** [valid_code]. *)
Definition valid_code (code : str) : bool :=
  negb (is_nil code) && (len code <=? 32)
  && forallb (fun b => is_ascii_alphanumeric b || (b =? 45) || (b =? 95)) code.

(** [split_short_path]: the prefix and the code of [/prefix/code]. *)
Definition split_short_path (path : str) : result SubError (str * str) :=
  match split_by (Z.eqb 47) (trim_start_matches 47 path) with
  | [prefix; code] =>
      if negb (is_nil prefix) && valid_code code then Ok (prefix, code) else Err InvalidShortUrl
  | _ => Err InvalidShortUrl
  end.

Definition CODE_ALPHABET : str := lit "ABCDEFGHIJKLMNOPQRSTUVWXYZabcdefghijklmnopqrstuvwxyz0123456789".

(** [random_code]; [random] is what the generator fills the 7 bytes with. *)
Definition random_code (random : option (list Z)) : result SubError str :=
  match random with
  | None => Err RandomFailed
  | Some bytes => Ok ((fun b => safe_get CODE_ALPHABET (Z.to_nat (b mod len CODE_ALPHABET))) <$> take 7 bytes)
  end.

(** [subscription_name]. *)
Definition subscription_name (nodes : list Node) : str :=
  let node := match find_first (has_kind "hysteria2") nodes with Some n => Some n | None => head nodes end in
  let name := or_else (default [] ((fun n => trim (node_name n)) <$> node)) (lit "subscription") in
  match strip_suffix (lit "-VLESS") name with
  | Some n => n
  | None => match strip_suffix (lit "-SSH") name with Some n => n | None => name end
  end.

(** BLAKE2s-256 and the text of a JSON value. *)
Class SubDigest := {
  blake2s : list Z → list Z;
  json_text : json → str;
  blake2s_bytes : ∀ m, is_bytes (blake2s m) ∧ length (blake2s m) = 32%nat;
}.

Section service.
Context `{SubLib} `{SubDigest} `{HostLib} `{TomlLib (list PersistentShortLink)}.

(** [stable_code]. *)
Definition stable_code (value : list Z) : str := hex (take 10 (blake2s value)).

(** [convert_with_rule_format]. *)
Definition convert_with_rule_format (format input : str) (selected_rules : option str) (ad_block : bool)
    (wl bl : option str) (clash_mrs : bool) : result SubError SublinkOutput :=
  nodes ← parse_input input;
  let compatible := if is_str format "clash" then nodes else only (fun n => negb (has_kind "ssh" n)) nodes in
  ensure (negb (is_nil compatible)) IncompatibleFormat;;
  preset ← match selected_rules with None => Ok None | Some s => rmap Some (parse_rule_preset s) end;
  let rules := selected_rule_specs preset ad_block in
  custom ← parse_custom_rules wl bl;
  let china := bool_decide (preset = Some China) in
  let name := subscription_name nodes in
  if is_str format "singbox" then
    Ok (output "application/json; charset=utf-8" (json_text (render_singbox compatible rules custom china)) name "json")
  else if is_str format "clash" then
    Ok (output "text/yaml; charset=utf-8" (render_clash compatible rules custom clash_mrs china) name "yaml")
  else if is_str format "surge" then
    Ok (output "text/plain; charset=utf-8" (render_surge compatible rules custom china) name "conf")
  else if is_str format "xray" then
    Ok (output "text/plain; charset=utf-8" (b64_encode (join [10] (original <$> compatible))) name "txt")
  else Err UnsupportedFormat.

(** [convert_with_custom_rules], [convert_with_rules] and [convert]. *)
Definition convert_with_custom_rules (format input : str) (selected_rules : option str) (ad_block : bool)
    (wl bl : option str) : result SubError SublinkOutput :=
  convert_with_rule_format format input selected_rules ad_block wl bl true.
Definition convert (format input : str) : result SubError SublinkOutput :=
  convert_with_custom_rules format input None false None None.

Definition is_format_path (p : str) : bool := existsb (fun f => str_eqb p (lit "/" ++ lit f)) FORMATS.

(** [url.query().filter(non-empty)]. *)
Definition nonempty_query (u : Url) : result SubError str :=
  match url_query u with Some (b :: q) => Ok (b :: q) | _ => Err InvalidUrlParameter end.

Definition store_error (e : StoreError) : SubError := match e with Disabled => StorageDisabled | _ => PersistFailed end.

(** [shorten]; [now] and [later] are the instants [put] reads. *)
Definition shorten (s : ShortStore) (raw_url : str) (requested : option str) (random : option (list Z)) (now later : Z)
    : result SubError (str * ShortStore) :=
  url ← ok_or InvalidUrlParameter (url_parse raw_url);
  ensure (is_format_path (url_path url)) InvalidUrlParameter;;
  query ← nonempty_query url;
  ensure (len query <=? MAX_INPUT_BYTES) TooLarge;;
  code ← match requested with
         | Some code => if valid_code code then Ok code else Err InvalidCode
         | None => random_code random
         end;
  s ← rmap_err store_error (put s code (lit "?" ++ query) now later);
  Ok (code, s).

(** The HY2 link that names a permanent short link. *)
Definition primary_hy2 (config : str) (identity : option str) : result SubError str :=
  match identity with
  | Some i =>
      nodes ← rmap_err (fun _ => InvalidUrlParameter) (parse_input i);
      match nodes with
      | [n] => if has_kind "hysteria2" n then Ok (trim i) else Err InvalidUrlParameter
      | _ => Err InvalidUrlParameter
      end
  | None => ok_or InvalidUrlParameter (find_first (starts_with (lit "hysteria2://")) (trim <$> lines config))
  end.

Definition given (key : string) (v : option str) : list (str * str) :=
  match v with Some v => if is_nil (trim v) then [] else [(lit key, v)] | None => [] end.

(** The query that [shorten_hy2] stores. *)
Definition link_pairs (config : str) (rules : option str) (ad_block : bool) (wl bl : option str) : list (str * str) :=
  [(lit "config", config)]
  ++ match rules with Some r => [(lit "selectedRules", r)] | None => [] end
  ++ (if ad_block then [(lit "adblock", lit "true")] else [])
  ++ given "whitelist" wl ++ given "blacklist" bl.

Definition hy2_pairs (url : Url) : list (str * str) :=
  link_pairs (query_value url ["config"]) (query_value_optional url ["selectedRules"]) (query_bool url ["adblock"])
    (query_value_optional url ["whitelist"]) (query_value_optional url ["blacklist"]).

Definition check_preset (v : option str) : result SubError unit :=
  match v with None => Ok tt | Some r => rmap (fun _ => tt) (parse_rule_preset r) end.

(** The checks of [shorten_hy2]: the code and the query. *)
Definition hy2_link (raw_url : str) : result SubError (str * str) :=
  url ← ok_or InvalidUrlParameter (url_parse raw_url);
  ensure (is_str (url_path url) "/xray") InvalidUrlParameter;;
  let config := query_value url ["config"] in
  nodes ← rmap_err (fun _ => InvalidUrlParameter) (parse_input config);
  ensure (negb (is_nil nodes) && forallb (fun n => matches_any (kind n) ["hysteria2"; "vless"; "ssh"]) nodes)
    InvalidUrlParameter;;
  ensure (len config <=? MAX_INPUT_BYTES) TooLarge;;
  primary ← primary_hy2 config (query_value_optional url ["identity"]);
  check_preset (query_value_optional url ["selectedRules"]);;
  _ ← parse_custom_rules (query_value_optional url ["whitelist"]) (query_value_optional url ["blacklist"]);
  Ok (stable_code primary, lit "?" ++ form_urlencode (hy2_pairs url)).

(** [shorten_hy2]. *)
Definition shorten_hy2 (s : ShortStore) (raw_url : str) (fs : filesystem) (fault : WriteFault)
    : result SubError str * ShortStore * filesystem :=
  match hy2_link raw_url with
  | Err e => (Err e, s, fs)
  | Ok (code, query) =>
      let '(r, s, fs) := put_permanent s code query fs fault in
      (rmap (fun _ => code) (rmap_err store_error r), s, fs)
  end.

(** [shorten_auto]. *)
Definition auto_link (raw_url : str) : result SubError (str * str) :=
  url ← ok_or InvalidUrlParameter (url_parse raw_url);
  ensure (is_format_path (url_path url)) InvalidUrlParameter;;
  let config := query_value url ["config"] in
  ensure (negb (is_nil config)) InvalidUrlParameter;;
  ensure (len config <=? MAX_INPUT_BYTES) TooLarge;;
  check_preset (query_value_optional url ["selectedRules"]);;
  _ ← parse_custom_rules (query_value_optional url ["whitelist"]) (query_value_optional url ["blacklist"]);
  query ← nonempty_query url;
  ensure (len query <=? MAX_INPUT_BYTES) TooLarge;;
  Ok (stable_code query, lit "?" ++ query).

Definition shorten_auto (s : ShortStore) (raw_url : str) (now_unix : Z) (fs : filesystem) (fault : WriteFault)
    : result SubError str * ShortStore * filesystem :=
  match auto_link raw_url with
  | Err e => (Err e, s, fs)
  | Ok (code, query) =>
      let '(r, s, fs) := put_persisted_expiring s code query now_unix fs fault in
      (rmap (fun _ => code) (rmap_err store_error r), s, fs)
  end.

(** [redirect]. *)
Definition redirect (s : ShortStore) (prefix code : str) (now now_unix : Z) : result SubError str * ShortStore :=
  match format_for_prefix prefix with
  | None => (Err InvalidShortUrl, s)
  | Some format =>
      if negb (valid_code code) then (Err InvalidShortUrl, s)
      else
        let '(found, s) := get s code now now_unix in
        (query ← ok_or ShortUrlNotFound found; Ok (lit "/" ++ format ++ query), s)
  end.

(** [rewrite_subscription_input]. *)
Definition rewrite_node (server_override : option str) (port_override : option Z) (tcp_only : bool) (n : Node)
    : result SubError (option str) :=
  if tcp_only && negb (matches_any (kind n) ["vless"; "ssh"]) then Ok None
  else
    url ← ok_or InvalidUri (url_parse (original n));
    match server_override, port_override with
    | Some server, Some port =>
        url ← ok_or InvalidOverride (url_set_host url server);
        url ← ok_or InvalidOverride (url_set_port url port);
        Ok (Some (url_string url))
    | _, _ => Ok (Some (url_string url))
    end.

Definition is_some {A} (o : option A) : bool := match o with Some _ => true | None => false end.

Definition rewrite_subscription_input (input : str) (server_override : option str) (port_override : option Z)
    (tcp_only : bool) : result SubError str :=
  ensure (Bool.eqb (is_some server_override) (is_some port_override)) InvalidOverride;;
  nodes ← parse_input input;
  rewritten ← rtraverse (rewrite_node server_override port_override tcp_only) nodes;
  let rewritten := omap id rewritten in
  ensure (negb (is_nil rewritten)) NoTcpNodes;;
  Ok (join [10] rewritten).

(** [auto_with_overrides]. *)
Definition auto_with_overrides (s : ShortStore) (code user_agent accept : str) (requested_format : option str)
    (server_override : option str) (port_override : option Z) (tcp_only : bool) (now now_unix : Z)
    : result SubError SublinkOutput * ShortStore :=
  if negb (valid_code code) then (Err InvalidShortUrl, s)
  else
    let '(found, s) := get s code now now_unix in
    (query ← ok_or ShortUrlNotFound found;
     url ← ok_or InvalidShortUrl (url_parse (lit "https://short.local/xray" ++ query));
     config ← (if is_some server_override || is_some port_override || tcp_only
               then rewrite_subscription_input (query_value url ["config"]) server_override port_override tcp_only
               else Ok (query_value url ["config"]));
     format ← match requested_format with
              | Some f => normalize_format f
              | None => Ok (auto_format user_agent accept)
              end;
     convert_with_rule_format format config (query_value_optional url ["selectedRules"]) (query_bool url ["adblock"])
       (query_value_optional url ["whitelist"]) (query_value_optional url ["blacklist"]) (supports_mrs_format user_agent), s).

(** [resolve], before it is written as JSON. *)
Definition resolve (s : ShortStore) (raw_url : str) (now now_unix : Z) : result SubError str * ShortStore :=
  match (url ← ok_or InvalidShortUrl (url_parse raw_url);
         '(prefix, code) ← split_short_path (url_path url);
         format ← ok_or InvalidShortUrl (format_for_prefix prefix);
         Ok (url, format, code)) with
  | Err e => (Err e, s)
  | Ok (url, format, code) =>
      let '(found, s) := get s code now now_unix in
      (query ← ok_or ShortUrlNotFound found; Ok (url_origin url ++ lit "/" ++ format ++ query), s)
  end.
End service.

(** ** Codes *)

Definition code_char (b : Z) : bool := is_ascii_alphanumeric b || (b =? 45) || (b =? 95).

Lemma valid_code_intro code :
  code ≠ [] → len code ≤ 32 → Forall (fun b => code_char b = true) code → valid_code code = true.
Proof.
  intros Hne Hl Hc. unfold valid_code. rewrite (proj2 (is_nil_false code) Hne), (proj2 (Z.leb_le _ _) Hl). cbn.
  apply forallb_forall. intros b Hb. rewrite Forall_forall in Hc. apply Hc. by apply list_elem_of_In.
Qed.

Lemma hex_code_chars l : is_bytes l → Forall (fun b => code_char b = true) (hex l).
Proof.
  induction 1 as [|b l Hb _ IH]; [constructor|]. rewrite u8_ok_iff in Hb. cbn.
  assert (Hd : ∀ v, 0 ≤ v < 16 → code_char (hex_digit v) = true).
  { intros v Hv. unfold code_char, hex_digit, is_ascii_alphanumeric, in_range. destruct (Z.ltb_spec v 10);
      repeat match goal with |- context [?x <=? ?y] => destruct (Z.leb_spec x y); try lia end; done. }
  pose proof (Z.mod_pos_bound b 16 ltac:(lia)).
  assert (0 ≤ b / 16 < 16) by (split; [apply Z.div_pos|apply Z.div_lt_upper_bound]; lia).
  repeat (apply Forall_cons; split; [by apply Hd|]). done.
Qed.

Lemma hex_length l : length (hex l) = (2 * length l)%nat.
Proof. unfold hex. induction l as [|b l IH]; [done|]. cbn. rewrite IH. lia. Qed.

Section codes.
Context `{SubDigest}.

Lemma stable_code_valid v : valid_code (stable_code v) = true.
Proof.
  destruct (blake2s_bytes v) as [Hb Hl].
  assert (Hlen : length (stable_code v) = 20%nat).
  { unfold stable_code. rewrite hex_length, length_take, Hl. done. }
  apply valid_code_intro.
  - intros E. by rewrite E in Hlen.
  - unfold len. lia.
  - apply hex_code_chars. by apply Forall_take.
Qed.
End codes.

Lemma random_code_valid r code :
  (∀ l, r = Some l → length l = 7%nat) → random_code r = Ok code → valid_code code = true.
Proof.
  intros Hr Hc. unfold random_code in Hc. destruct r as [l|]; [|done]. injection Hc as <-. specialize (Hr l eq_refl).
  apply valid_code_intro.
  - destruct l; [done|]. by cbn.
  - unfold len. rewrite length_fmap, length_take. lia.
  - apply Forall_fmap, Forall_true. intros b. cbn beta.
    assert (Hall : Forall (fun b => code_char b = true) CODE_ALPHABET) by (by repeat constructor).
    apply (safe_get_Forall _ CODE_ALPHABET _ Hall).
    pose proof (Z.mod_pos_bound b (len CODE_ALPHABET) ltac:(by vm_compute)). unfold len in *. lia.
Qed.

(** ** Properties *)

Section properties.
Context `{SubLib} `{SubDigest} `{HostLib} `{TomlLib (list PersistentShortLink)}.

Lemma xray_format :
  is_str (lit "xray") "singbox" = false ∧ is_str (lit "xray") "clash" = false ∧
  is_str (lit "xray") "surge" = false ∧ is_str (lit "xray") "xray" = true.
Proof. by vm_compute. Qed.

(** What [convert] makes of the xray format. *)
Lemma convert_xray input out :
  convert (lit "xray") input = Ok out →
  ∃ nodes, parse_input input = Ok nodes ∧
    let compatible := only (fun n => negb (has_kind "ssh" n)) nodes in
    compatible ≠ [] ∧ body out = b64_encode (join [10] (original <$> compatible)).
Proof.
  unfold convert, convert_with_custom_rules, convert_with_rule_format. intros Hc.
  destruct xray_format as (-> & -> & -> & ->) in Hc.
  apply rbind_Ok in Hc as (nodes & Hn & Hc). exists nodes. split; [done|].
  set (compatible := only (fun n => negb (has_kind "ssh" n)) nodes). cbv zeta.
  fold compatible in Hc.
  apply rbind_Ok in Hc as (u & Hne%ensure_Ok%negb_true_iff%is_nil_false & Hc).
  apply rbind_Ok in Hc as (preset & _ & Hc). apply rbind_Ok in Hc as (custom & _ & Hc).
  injection Hc as <-. done.
Qed.

(** Claim C32. The Base64 subscription made from an input, if it is of at most 32 KiB, parses to the nodes of that
    input, those that the format supports, in their order; so converting it again gives
    the same subscription. A larger one, which an accepted input can have since Base64
    is a third longer, is refused as too large. The lines of the nodes are taken to be
    UTF-8, as the program's strings are. *)
Theorem xray_roundtrip input out nodes :
  convert (lit "xray") input = Ok out → parse_input input = Ok nodes →
  let compatible := only (fun n => negb (has_kind "ssh" n)) nodes in
  is_bytes (join [10] (original <$> compatible)) → utf8_valid (join [10] (original <$> compatible)) = true →
  (len (body out) ≤ 32768 →
   parse_input (body out) = Ok compatible ∧
   ∃ out', convert (lit "xray") (body out) = Ok out' ∧ body out' = body out) ∧
  (32768 < len (body out) → convert (lit "xray") (body out) = Err TooLarge).
Proof.
  intros Hconv Hparse compatible Hb Hv.
  destruct (convert_xray input out Hconv) as (nodes' & Hn & Hne & Hbody).
  rewrite Hparse in Hn. injection Hn as <-. fold compatible in Hne, Hbody.
  destruct (parse_input_ok input nodes Hparse) as ([_ Hlen] & Hf & _).
  assert (Hfc : Forall parsed compatible).
  { apply Forall_forall. intros n Hin. rewrite Forall_forall in Hf. apply Hf.
    unfold compatible, only in Hin. rewrite list_elem_of_In, filter_In, <- list_elem_of_In in Hin. tauto. }
  split; intros Hsize.
  2: { unfold convert, convert_with_custom_rules, convert_with_rule_format. rewrite Hbody in *.
       rewrite parse_encoded_large; [done|done| |done].
       intros E. pose proof (uri_text_contains compatible Hne Hfc) as Hc. by rewrite E in Hc. }
  assert (Hre : parse_input (body out) = Ok compatible).
  { rewrite Hbody in *. apply parse_encoded; try done.
    unfold compatible, only. pose proof (filter_length_le (fun n => negb (has_kind "ssh" n)) nodes). lia. }
  split; [done|].
  unfold convert, convert_with_custom_rules, convert_with_rule_format. rewrite Hre. res_simpl.
  destruct xray_format as (-> & -> & -> & ->).
  assert (Hsame : only (fun n => negb (has_kind "ssh" n)) compatible = compatible).
  { unfold compatible, only. rewrite filter_filter. apply filter_ext_bool. intros n. apply andb_diag. }
  rewrite Hsame.
  rewrite (proj2 (is_nil_false compatible)) by done. res_simpl.
  assert (Hcustom : parse_custom_rules None None = Ok {| whitelist := []; blacklist := [] |}) by done.
  rewrite Hcustom. res_simpl. eexists. split; [reflexivity|]. cbn [body output]. by rewrite Hbody.
Qed.

(** A list that is given and not blank. *)
Definition nonblank (v : option str) : option str :=
  match v with Some v => if is_nil (trim v) then None else Some v | None => None end.

(** The pairs of a permanent link give back what it was made with. *)
Lemma link_pairs_lookup c r a w b :
  let ps := link_pairs c r a w b in
  pair_lookup ps ["config"] = Some c ∧ pair_lookup ps ["selectedRules"] = r ∧
  pair_lookup ps ["adblock"] = (if a then Some (lit "true") else None) ∧
  pair_lookup ps ["whitelist"] = nonblank w ∧ pair_lookup ps ["blacklist"] = nonblank b.
Proof.
  unfold link_pairs, given, nonblank.
  destruct w as [w|]; [destruct (is_nil (trim w))|]; (destruct b as [b|]; [destruct (is_nil (trim b))|]);
    destruct r, a; vm_compute; done.
Qed.

Lemma hy2_pairs_lookup url url' :
  url_query_pairs url' = hy2_pairs url →
  query_value url' ["config"] = query_value url ["config"] ∧
  query_value_optional url' ["selectedRules"] = query_value_optional url ["selectedRules"] ∧
  query_bool url' ["adblock"] = query_bool url ["adblock"] ∧
  query_value_optional url' ["whitelist"] = nonblank (query_value_optional url ["whitelist"]) ∧
  query_value_optional url' ["blacklist"] = nonblank (query_value_optional url ["blacklist"]).
Proof.
  intros Hp. destruct (link_pairs_lookup (query_value url ["config"]) (query_value_optional url ["selectedRules"])
    (query_bool url ["adblock"]) (query_value_optional url ["whitelist"]) (query_value_optional url ["blacklist"]))
    as (H1' & H2' & H3' & H4' & H5'). fold (hy2_pairs url) in *. rewrite <- Hp in *.
  split_and!; [unfold query_value at 1, query_value_optional; by rewrite H1'|done| |done|done].
  unfold query_bool at 1, query_value, query_value_optional at 1 2. rewrite H3'.
  by destruct (query_bool url ["adblock"]); vm_compute.
Qed.

(** Serving a stored link is converting what it was made with. *)
Lemma auto_stored s code user_agent accept t u query url' :
  valid_code code = true → answer s code t u = Some query →
  url_parse (lit "https://short.local/xray" ++ query) = Some url' →
  (auto_with_overrides s code user_agent accept None None None false t u).1
    = convert_with_rule_format (auto_format user_agent accept) (query_value url' ["config"])
        (query_value_optional url' ["selectedRules"]) (query_bool url' ["adblock"])
        (query_value_optional url' ["whitelist"]) (query_value_optional url' ["blacklist"])
        (supports_mrs_format user_agent).
Proof.
  intros Hv Ha Hu. unfold auto_with_overrides. rewrite Hv. cbn [negb].
  unfold answer in Ha. destruct (get s code t u) as [found s1]. cbn [fst] in *. rewrite Ha. res_simpl.
  rewrite Hu. by res_simpl.
Qed.

(** Claim C14. A permanent link made for a subscription serves, under its code and
    for any client, exactly the conversion of the configuration, the rules and
    the lists it was made with: at any time, from the running store and from one
    started later from the file.  The URL of the stored query is assumed to have
    the pairs that were written in it. *)
Theorem shorten_hy2_then_auto s raw url url' code fs s' fs' path :
  persistence_path s = Some path →
  url_parse raw = Some url →
  shorten_hy2 s raw fs NoFault = (Ok code, s', fs') →
  url_parse (lit "https://short.local/xray" ++ lit "?" ++ form_urlencode (hy2_pairs url)) = Some url' →
  url_query_pairs url' = hy2_pairs url →
  let serves st := ∀ user_agent accept t u,
    (auto_with_overrides st code user_agent accept None None None false t u).1
      = convert_with_rule_format (auto_format user_agent accept) (query_value url ["config"])
          (query_value_optional url ["selectedRules"]) (query_bool url ["adblock"])
          (nonblank (query_value_optional url ["whitelist"])) (nonblank (query_value_optional url ["blacklist"]))
          (supports_mrs_format user_agent) in
  valid_code code = true ∧ serves s' ∧
  ∀ lim seconds off, ∃ s'', from_env (Some path) fs' lim seconds off = Ok s'' ∧ serves s''.
Proof.
  intros Hpath Hurl Hshort Hurl' Hpairs serves.
  unfold shorten_hy2 in Hshort. destruct (hy2_link raw) as [[code0 query]|] eqn:El; [|done].
  destruct (put_permanent s code0 query fs NoFault) as [[r s1] fs1] eqn:Ep.
  injection Hshort as Hr -> ->. destruct r as [[]|]; [|done]. injection Hr as ->.
  assert (Hlink : valid_code code = true ∧ query = lit "?" ++ form_urlencode (hy2_pairs url)).
  { unfold hy2_link in El. rewrite Hurl in El. res_inv. simplify_eq. split; [apply stable_code_valid|done]. }
  destruct Hlink as [Hv ->]. split; [done|].
  destruct (hy2_pairs_lookup url url' Hpairs) as (L1 & L2 & L3 & L4 & L5).
  assert (Hserve : ∀ st, (∀ t u, answer st code t u = Some (lit "?" ++ form_urlencode (hy2_pairs url))) → serves st).
  { intros st Hst ua acc t u. rewrite (auto_stored st code ua acc t u _ url' Hv (Hst t u) Hurl').
    by rewrite L1, L2, L3, L4, L5. }
  split.
  - apply Hserve. intros t u. by eapply put_permanent_answers.
  - intros lim seconds off. destruct (reload_answers _ _ _ _ _ _ _ Hpath Ep lim seconds off) as (s'' & Hs'' & Hans).
    exists s''. split; [done|]. apply Hserve. intros t u. apply Hans.
Qed.
End properties.

(** ** Concrete libraries *)

Definition example_blake2s (m : list Z) : list Z := replicate 32 (foldr Z.add 0 m mod 256).

Lemma example_blake2s_bytes m : is_bytes (example_blake2s m) ∧ length (example_blake2s m) = 32%nat.
Proof.
  split; [|apply length_replicate]. apply Forall_replicate, u8_ok_iff. by apply Z.mod_pos_bound.
Qed.

Definition example_subdigest : SubDigest :=
  {| blake2s := example_blake2s; json_text _ := lit "{}"; blake2s_bytes := example_blake2s_bytes |}.

Abbreviation example_convert := (@convert example_sublib example_subdigest example_hostlib).

Definition example_xray : SublinkOutput :=
  output "text/plain; charset=utf-8"
    (base64_encode (join [10] [lit "vless://id@192.0.2.1:443?security=tls#A"; lit "hy2://pw@192.0.2.1:443#B"]))
    (lit "B") "txt".

Lemma xray_roundtrip_witness :
  example_convert (lit "xray") example_lines = Ok example_xray ∧
  ∃ out', example_convert (lit "xray") (body example_xray) = Ok out' ∧ body out' = body example_xray.
Proof.
  split; [by vm_compute|].
  destruct (@parse_input example_sublib example_lines) as [nodes|e] eqn:Hp; [|by vm_compute in Hp].
  assert (Hn : original <$> only (fun n => negb (has_kind "ssh" n)) nodes
    = [lit "vless://id@192.0.2.1:443?security=tls#A"; lit "hy2://pw@192.0.2.1:443#B"]).
  { vm_compute in Hp. injection Hp as <-. by vm_compute. }
  refine (proj2 (proj1 (@xray_roundtrip example_sublib example_subdigest example_hostlib example_lines example_xray nodes _ _ _ _) _)).
  - by vm_compute.
  - exact Hp.
  - rewrite Hn. by apply (bool_decide_eq_true_1 (Forall u8_ok _)); vm_compute.
  - rewrite Hn. by vm_compute.
  - by vm_compute.
Defined.

Definition example_raw : str := lit "https://h/xray?config=hysteria2://pw@192.0.2.1:443&adblock=true&whitelist=a.cn".
Definition example_empty_store : ShortStore :=
  {| entries := []; permanent := []; persistence_path := Some (lit "/l"); limit := 5; ttl := NANOS; disabled := false |}.

Abbreviation example_link := (@hy2_link example_sublib example_subdigest example_hostlib example_raw).

(** A printer of the one list of links that is stored. *)
Definition example_stored : list PersistentShortLink :=
  match example_link with
  | Ok (c, q) => [{| link_code := c; link_query := q; expires_at_unix := None |}]
  | Err _ => []
  end.
Definition stored_print (l : list PersistentShortLink) : option str :=
  if decide (l = example_stored) then Some (lit "links") else None.
Definition stored_parse (s : str) : option (list PersistentShortLink) :=
  if str_eqb s (lit "links") then Some example_stored else None.

Lemma stored_print_parse c s : stored_print c = Some s → stored_parse s = Some c.
Proof. unfold stored_print. case_decide; [|done]. by intros [= <-]; subst. Qed.

Lemma stored_print_utf8 c s : stored_print c = Some s → utf8_valid s = true.
Proof. unfold stored_print. case_decide; [|done]. by intros [= <-]. Qed.

Definition stored_toml : TomlLib (list PersistentShortLink) :=
  {| toml_print := stored_print; toml_parse := stored_parse; toml_print_utf8 := stored_print_utf8;
     toml_print_parse := stored_print_parse |}.

Abbreviation example_shorten :=
  (@shorten_hy2 example_sublib example_subdigest example_hostlib stored_toml example_empty_store example_raw ∅ NoFault).

Definition example_url (raw : str) : ExampleUrl :=
  default {| ex_scheme := []; ex_user := []; ex_host := []; ex_port := None; ex_path := []; ex_query := None;
             ex_fragment := None |} (example_url_parse raw).

Definition example_code : str := default [] (fst <$> rok example_link).

Lemma shorten_hy2_then_auto_witness :
  example_shorten.1.1 = Ok example_code ∧ valid_code example_code = true ∧
  ∀ user_agent accept t u,
    (@auto_with_overrides example_sublib example_subdigest example_hostlib example_shorten.1.2 example_code
       user_agent accept None None None false t u).1
    = @convert_with_rule_format example_sublib example_subdigest example_hostlib
        (auto_format user_agent accept) (lit "hysteria2://pw@192.0.2.1:443")
        None true (Some (lit "a.cn")) None (supports_mrs_format user_agent).
Proof.
  set (url := example_url example_raw).
  set (url' := example_url (lit "https://short.local/xray" ++ lit "?"
                 ++ @form_urlencode example_sublib (@hy2_pairs example_sublib url))).
  destruct (@shorten_hy2_then_auto example_sublib example_subdigest example_hostlib stored_toml
    example_empty_store example_raw url url' example_code ∅ example_shorten.1.2 example_shorten.2 (lit "/l"))
    as (Hv & Hs & _).
  - done.
  - by vm_compute.
  - by vm_compute.
  - by vm_compute.
  - by vm_compute.
  - split; [by vm_compute|]. split; [exact Hv|]. exact Hs.
Defined.
