(* ===== verification/SublinkHttp.v ===== *)
(** * The subscription routes ([src/src/admin.rs], [sublink_*])

    The HTTP side of the subscription service: the parameters of a request, the
    service's operation, and the response with its headers.  These routes need no
    authorization.  The store is behind a mutex in the service, so a handler takes it
    and returns the next one.

    The crates that parse a query, percent-encode a name and check header values are
    parameters.  An error's text is not modelled, but for the words its status
    depends on. *)

From stdpp Require Import base list gmap strings.
From Stdlib Require Import ZArith Lia.
From S2P Require Import Prelude RustStr Lines Files Rules Config Base64 ShortStore SubNodes SubRender Sublink.

Open Scope Z_scope.

(** The characters of a percent-encoded name. *)
Definition percent_char (b : Z) : bool := is_ascii_alphanumeric b || (b =? 37).

Definition visible (b : Z) : bool := in_range 32 b 126.

(** [form_urlencoded::parse], [utf8_percent_encode] of everything but letters and
    digits, and [http]'s header values: printable text is one, and reads as text. *)
Class RouteLib := {
  form_parse : str → list (str * str);
  percent_encode : str → str;
  header_value_valid : str → bool;
  header_to_str : str → bool;
  percent_encode_chars : ∀ s, Forall (fun b => percent_char b = true) (percent_encode s);
  header_visible : ∀ s, Forall (fun b => visible b = true) s → header_value_valid s = true ∧ header_to_str s = true;
}.

Inductive RouteBody := Plain (text : str) | ErrorText (e : SubError) | Refused (what : string).

Record Response := { status : Z; headers : list (str * str); response_body : RouteBody }.

(** [uri_parameter]; [query] is the part of the URI after the question mark. *)
Definition uri_parameter `{RouteLib} (query : option str) (name : string) : option str :=
  q ← query;
  snd <$> find_first (fun kv => eq_ignore_ascii_case kv.1 (lit name)) (form_parse q).

(** [sublink_status]: which of the two words the error's text has.  A text that quotes
    what the client sent can have them from there. *)
Definition sublink_status (e : SubError) : Z :=
  match e with
  | ShortUrlNotFound => 404
  | StorageDisabled => 501
  | InvalidDomain raw | OnlyDomains raw =>
      if contains (lit "not found") raw then 404 else if contains (lit "disabled") raw then 501 else 400
  | _ => 400
  end.

Definition TEXT_PLAIN : str := lit "text/plain; charset=utf-8".

(** [sublink_error]. *)
Definition sublink_error (code : Z) (b : RouteBody) : Response :=
  {| status := code; headers := [(lit "content-type", TEXT_PLAIN)]; response_body := b |}.

(** [ascii_profile_name]: a character is one byte that does not continue another. *)
Definition profile_char (b : Z) : str :=
  if is_cont b then [] else if is_ascii_alphanumeric b || (b =? 45) || (b =? 95) then [b] else [95].

Definition ascii_profile_name (name : str) : str :=
  let name := trim_matches 95 (flat_map profile_char name) in
  if is_nil name then lit "subscription" else name.

Section routes.
Context `{RouteLib} `{SubLib}.

Definition profile_title (o : SublinkOutput) : str := lit "base64:" ++ b64_encode (profile_name o).

(** A quotation mark. *)
Definition quote : str := [34].

Definition disposition (o : SublinkOutput) : str :=
  lit "attachment; filename=" ++ quote ++ ascii_profile_name (profile_name o) ++ lit "." ++ file_extension o ++ quote
  ++ lit "; filename*=UTF-8''" ++ percent_encode (profile_name o) ++ lit "." ++ file_extension o.

(** [sublink_output_response]; [None] is a panic, at a header value that is not one. *)
Definition sublink_output_response (o : SublinkOutput) : option Response :=
  if header_value_valid (content_type o) && header_value_valid (profile_title o) && header_value_valid (disposition o)
  then Some {| status := 200;
               headers := [(lit "content-type", content_type o); (lit "cache-control", lit "no-store");
                           (lit "x-content-type-options", lit "nosniff"); (lit "profile-title", profile_title o);
                           (lit "profile-update-interval", lit "24"); (lit "content-disposition", disposition o)];
               response_body := Plain (body o) |}
  else None.

Context `{SubDigest} `{HostLib} `{TomlLib (list PersistentShortLink)}.

(** [sublink_convert], of the four format routes. *)
Definition sublink_convert (format : str) (query : option str) : option Response :=
  match uri_parameter query "config" with
  | None => Some (sublink_error 400 (Refused "missing config parameter"))
  | Some input =>
      let ad_block := match uri_parameter query "adblock" with
                      | Some v => is_str v "1" || eq_ignore_ascii_case v (lit "true")
                      | None => false
                      end in
      match convert_with_custom_rules format input (uri_parameter query "selectedRules") ad_block
              (uri_parameter query "whitelist") (uri_parameter query "blacklist") with
      | Ok o => sublink_output_response o
      | Err e => Some (sublink_error 400 (ErrorText e))
      end
  end.

Definition code_response (r : result SubError str) : Response :=
  match r with
  | Ok code => {| status := 200; headers := [(lit "content-type", TEXT_PLAIN)]; response_body := Plain code |}
  | Err e => sublink_error (sublink_status e) (ErrorText e)
  end.

Definition missing_url : Response := sublink_error 400 (Refused "missing URL parameter").

(** [sublink_shorten]. *)
Definition sublink_shorten (s : ShortStore) (query : option str) (random : option (list Z)) (now later : Z)
    : Response * ShortStore :=
  match uri_parameter query "url" with
  | None => (missing_url, s)
  | Some url =>
      match shorten s url (uri_parameter query "shortCode") random now later with
      | Ok (code, s) => (code_response (Ok code), s)
      | Err e => (code_response (Err e), s)
      end
  end.

(** [sublink_shorten_hy2] and [sublink_shorten_auto]. *)
Definition sublink_shorten_hy2 (s : ShortStore) (query : option str) (fs : filesystem) (fault : WriteFault)
    : Response * ShortStore * filesystem :=
  match uri_parameter query "url" with
  | None => (missing_url, s, fs)
  | Some url => let '(r, s, fs) := shorten_hy2 s url fs fault in (code_response r, s, fs)
  end.

Definition sublink_shorten_auto (s : ShortStore) (query : option str) (now_unix : Z) (fs : filesystem) (fault : WriteFault)
    : Response * ShortStore * filesystem :=
  match uri_parameter query "url" with
  | None => (missing_url, s, fs)
  | Some url => let '(r, s, fs) := shorten_auto s url now_unix fs fault in (code_response r, s, fs)
  end.

(** A header's text, empty when it has none. *)
Definition header_or_empty (v : option str) : str := match v with Some v => if header_to_str v then v else [] | None => [] end.

(** The port parameter of [sublink_auto]. *)
Definition port_parameter (query : option str) : option (option Z) :=
  match uri_parameter query "port" with
  | None => Some None
  | Some p => match parse_u16 p with
              | Some p => if p >? 0 then Some (Some p) else None
              | None => None
              end
  end.

(** [sublink_auto]; [agent] and [acc] are the headers [User-Agent] and [Accept]. *)
Definition sublink_auto (s : ShortStore) (agent acc : option str) (code : str) (query : option str) (now now_unix : Z)
    : option Response * ShortStore :=
  let requested := match uri_parameter query "format" with Some f => Some f | None => uri_parameter query "target" end in
  match port_parameter query with
  | None => (Some (sublink_error 400 (Refused "invalid subscription port")), s)
  | Some port_override =>
      let tcp_only := match uri_parameter query "tcp_only" with
                      | Some v => is_str v "1" || is_str v "true"
                      | None => false
                      end in
      let '(r, s) := auto_with_overrides s code (header_or_empty agent) (header_or_empty acc) requested
                       (uri_parameter query "server") port_override tcp_only now now_unix in
      (match r with
       | Ok o => sublink_output_response o
       | Err e => Some (sublink_error (sublink_status e) (ErrorText e))
       end, s)
  end.

(** [sublink_redirect]: a location that is not a header value becomes an error of the
    web framework. *)
Definition sublink_redirect (s : ShortStore) (prefix code : str) (now now_unix : Z) : Response * ShortStore :=
  let '(r, s) := redirect s prefix code now now_unix in
  (match r with
   | Ok location =>
       if header_value_valid location
       then {| status := 302; headers := [(lit "location", location)]; response_body := Plain [] |}
       else {| status := 500; headers := []; response_body := Refused "invalid header value" |}
   | Err e => sublink_error (sublink_status e) (ErrorText e)
   end, s).

(** [sublink_resolve]; the body is the JSON document of the link. *)
Definition sublink_resolve (json_of : str → str) (s : ShortStore) (query : option str) (now now_unix : Z)
    : Response * ShortStore :=
  match uri_parameter query "url" with
  | None => (missing_url, s)
  | Some url =>
      let '(r, s) := Sublink.resolve s url now now_unix in
      (match r with
       | Ok link => {| status := 200; headers := [(lit "content-type", lit "application/json; charset=utf-8")];
                       response_body := Plain (json_of link) |}
       | Err e => sublink_error (sublink_status e) (ErrorText e)
       end, s)
  end.
End routes.

(** ** The headers of a subscription *)

(** A character a file name is made of. *)
Definition file_name_char (b : Z) : bool := is_ascii_alphanumeric b || (b =? 45) || (b =? 95) || (b =? 46).

Lemma alphanumeric_range b : is_ascii_alphanumeric b = true → 48 ≤ b ≤ 122.
Proof. unfold is_ascii_alphanumeric. rewrite !orb_true_iff, !in_range_true. lia. Qed.

Lemma file_name_visible b : file_name_char b = true → visible b = true ∧ b ≠ 34.
Proof.
  unfold file_name_char, visible. rewrite !orb_true_iff, !Z.eqb_eq, in_range_true.
  intros [[[?%alphanumeric_range|?]|?]|?]; lia.
Qed.

Lemma percent_visible b : percent_char b = true → visible b = true ∧ b ≠ 34.
Proof.
  unfold percent_char, visible. rewrite orb_true_iff, Z.eqb_eq, in_range_true.
  intros [?%alphanumeric_range|?]; lia.
Qed.

Lemma base64_visible b : base64_char b = true → visible b = true.
Proof. unfold base64_char, visible. rewrite !orb_true_iff, !in_range_true, !Z.eqb_eq. lia. Qed.

Lemma trim_matches_Forall (P : Z → Prop) c s : Forall P s → Forall P (trim_matches c s).
Proof.
  intros Hs. unfold trim_matches, trim_end_matches. apply Forall_reverse.
  assert (Ht : ∀ t, Forall P t → Forall P (trim_start_matches c t)).
  { induction 1 as [|b t Hb Ht IH]; cbn; [constructor|]. case_match; [done|by constructor]. }
  apply Ht, Forall_reverse, Ht, Hs.
Qed.

Lemma ascii_profile_name_spec name :
  ascii_profile_name name ≠ [] ∧ Forall (fun b => file_name_char b = true) (ascii_profile_name name).
Proof.
  unfold ascii_profile_name.
  assert (Hf : Forall (fun b => file_name_char b = true) (trim_matches 95 (flat_map profile_char name))).
  { apply trim_matches_Forall. induction name as [|b name IH]; [constructor|]. cbn. apply Forall_app_2; [|done].
    unfold profile_char. destruct (is_cont b); [constructor|].
    destruct (is_ascii_alphanumeric b || (b =? 45) || (b =? 95)) eqn:E; constructor; try constructor.
    unfold file_name_char. by rewrite E. }
  destruct (is_nil _) eqn:E; [|by apply is_nil_false in E]. split; [done|]. by repeat constructor.
Qed.

(** The pairs of content type and file extension. *)
Definition OUTPUT_KINDS : list (str * str) :=
  [(lit "application/json; charset=utf-8", lit "json"); (lit "text/yaml; charset=utf-8", lit "yaml");
   (TEXT_PLAIN, lit "conf"); (TEXT_PLAIN, lit "txt")].

Definition of_kind (o : SublinkOutput) : Prop := (content_type o, file_extension o) ∈ OUTPUT_KINDS.

Lemma of_kind_visible o :
  of_kind o → Forall (fun b => visible b = true) (content_type o) ∧
              Forall (fun b => file_name_char b = true) (file_extension o).
Proof.
  unfold of_kind, OUTPUT_KINDS. intros Hk.
  repeat (apply elem_of_cons in Hk as [[= -> ->]|Hk]; [split; by repeat constructor|]). by apply not_elem_of_nil in Hk.
Qed.

Section headers.
Context `{RouteLib} `{SubLib}.

Lemma disposition_shape o :
  of_kind o →
  ∃ file rest, disposition o = lit "attachment; filename=" ++ quote ++ file ++ quote ++ rest ∧
    file ≠ [] ∧ Forall (fun b => file_name_char b = true) file ∧
    Forall (fun b => visible b = true ∧ b ≠ 34) rest.
Proof.
  intros [_ He]%of_kind_visible. destruct (ascii_profile_name_spec (profile_name o)) as [Hn Hf].
  exists (ascii_profile_name (profile_name o) ++ lit "." ++ file_extension o),
    (lit "; filename*=UTF-8''" ++ percent_encode (profile_name o) ++ lit "." ++ file_extension o).
  assert (Hext : Forall (fun b => visible b = true ∧ b ≠ 34) (file_extension o)).
  { eapply Forall_impl; [exact He|]. apply file_name_visible. }
  split_and!.
  - unfold disposition. by rewrite <- !app_assoc.
  - by destruct (ascii_profile_name _).
  - apply Forall_app_2; [done|]. apply Forall_app_2; [by repeat constructor|done].
  - apply Forall_app_2; [by repeat constructor|]. apply Forall_app_2.
    + eapply Forall_impl; [apply percent_encode_chars|]. apply percent_visible.
    + apply Forall_app_2; [by repeat constructor|done].
Qed.

Lemma output_headers_visible o :
  of_kind o → is_bytes (profile_name o) →
  Forall (fun b => visible b = true) (content_type o) ∧ Forall (fun b => visible b = true) (profile_title o) ∧
  Forall (fun b => visible b = true) (disposition o).
Proof.
  intros Hk Hb. split_and!.
  - by apply of_kind_visible.
  - apply Forall_app_2; [by repeat constructor|]. eapply Forall_impl; [by apply b64_alphabet|]. apply base64_visible.
  - destruct (disposition_shape o Hk) as (file & rest & -> & _ & Hf & Hr).
    repeat apply Forall_app_2; try by repeat constructor.
    + eapply Forall_impl; [exact Hf|]. intros b ?. by apply file_name_visible.
    + eapply Forall_impl; [exact Hr|]. by intros b [? _].
Qed.

Lemma output_response_ok o :
  of_kind o → is_bytes (profile_name o) →
  sublink_output_response o = Some {| status := 200;
    headers := [(lit "content-type", content_type o); (lit "cache-control", lit "no-store");
                (lit "x-content-type-options", lit "nosniff"); (lit "profile-title", profile_title o);
                (lit "profile-update-interval", lit "24"); (lit "content-disposition", disposition o)];
    response_body := Plain (body o) |}.
Proof.
  intros Hk Hb. destruct (output_headers_visible o Hk Hb) as (Hc & Ht & Hd). unfold sublink_output_response.
  by rewrite (proj1 (header_visible _ Hc)), (proj1 (header_visible _ Ht)), (proj1 (header_visible _ Hd)).
Qed.

Context `{SubDigest} `{HostLib} `{TomlLib (list PersistentShortLink)}.

Lemma convert_of_kind format input rules adb wl bl mrs o :
  convert_with_rule_format format input rules adb wl bl mrs = Ok o → of_kind o.
Proof.
  unfold convert_with_rule_format. intros Hc. res_inv. unfold of_kind, OUTPUT_KINDS.
  repeat case_match; simplify_eq; cbn [content_type file_extension output]; set_solver.
Qed.
End headers.

Section route_theorems.
Context `{RouteLib} `{SubLib} `{SubDigest} `{HostLib} `{TomlLib (list PersistentShortLink)}.

(** Claim C28. Whatever the nodes of a subscription are called, its response is made, without a panic on a header: every
    header value is printable text, the title decodes to the name, and the file name
    is not empty, is made of letters, digits, dots, dashes and underscores, and
    cannot be ended by the name, since no other quotation mark follows it. *)
Theorem sublink_response_headers format input rules adb wl bl mrs o :
  convert_with_rule_format format input rules adb wl bl mrs = Ok o → is_bytes (profile_name o) →
  ∃ r, sublink_output_response o = Some r ∧ status r = 200 ∧ response_body r = Plain (body o) ∧
    Forall (fun h => Forall (fun b => visible b = true) h.2) (headers r) ∧ NoDup (fst <$> headers r) ∧
    (∃ t, (lit "profile-title", lit "base64:" ++ t) ∈ headers r ∧ b64_decode STANDARD t = Some (profile_name o)) ∧
    (∃ file rest, (lit "content-disposition", lit "attachment; filename=" ++ quote ++ file ++ quote ++ rest) ∈ headers r ∧
       file ≠ [] ∧ Forall (fun b => file_name_char b = true) file ∧ 34 ∉ rest).
Proof.
  intros Hk%convert_of_kind Hb. eexists. split; [by apply output_response_ok|]. cbn [status headers response_body].
  destruct (output_headers_visible o Hk Hb) as (Hc & Ht & Hd). split_and!; [done|done| | | |].
  - repeat (constructor; [first [done|cbn; by repeat constructor]|]). constructor.
  - apply (bool_decide_unpack _). by vm_compute.
  - exists (b64_encode (profile_name o)). split; [|by apply b64_roundtrip]. unfold profile_title. set_solver.
  - destruct (disposition_shape o Hk) as (file & rest & E & Hn & Hf & Hr). exists file, rest. rewrite <- E.
    split_and!; [set_solver|done|done|]. intros Hin. rewrite Forall_forall in Hr. by destruct (Hr 34 Hin).
Qed.

(** What [auto_with_overrides] answers for a code that stands for nothing. *)
Lemma auto_unknown s code ua acc req srv prt tcp t u :
  (valid_code code = false → auto_with_overrides s code ua acc req srv prt tcp t u = (Err InvalidShortUrl, s)) ∧
  (valid_code code = true → answer s code t u = None →
   (auto_with_overrides s code ua acc req srv prt tcp t u).1 = Err ShortUrlNotFound).
Proof.
  unfold auto_with_overrides, answer. split; [by intros ->|]. intros -> Ha. cbn [negb].
  destruct (get s code t u) as [found s1]. cbn [fst] in *. by rewrite Ha.
Qed.

Lemma auto_of_kind s code ua acc req srv prt tcp t u o :
  (auto_with_overrides s code ua acc req srv prt tcp t u).1 = Ok o → of_kind o.
Proof.
  unfold auto_with_overrides. destruct (negb (valid_code code)); [done|].
  destruct (get s code t u) as [found s1]. cbn [fst]. intros Ho.
  apply rbind_Ok in Ho as (? & _ & Ho). apply rbind_Ok in Ho as (? & _ & Ho).
  apply rbind_Ok in Ho as (? & _ & Ho). apply rbind_Ok in Ho as (? & _ & Ho). by eapply convert_of_kind.
Qed.

Lemma sublink_status_values e : sublink_status e ∈ [400; 404; 501].
Proof. unfold sublink_status. repeat case_match; set_solver. Qed.

Lemma port_parameter_None query :
  port_parameter query = None ↔
  ∃ p, uri_parameter query "port" = Some p ∧ ∀ n, parse_u16 p = Some n → n ≤ 0.
Proof.
  unfold port_parameter. destruct (uri_parameter query "port") as [p|]; [|naive_solver].
  destruct (parse_u16 p) as [n|] eqn:E.
  - destruct (Z.gtb_spec n 0) as [Hn|Hn].
    + split; [done|]. intros (p' & [= <-] & Hp). specialize (Hp n E). lia.
    + split; [|done]. intros _. exists p. split; [done|]. intros n' E'. rewrite E in E'. by injection E' as <-.
  - split; [|done]. intros _. exists p. split; [done|]. intros n E'. by rewrite E in E'.
Qed.

(** A request for a subscription is always answered, with status 200, 400, 404 or 501. A port parameter that is
    not a number from 1 to 65535 is refused with 400 and the store untouched; a code
    that cannot be one with 400, one that stands for no live link with 404; and 200 is
    answered exactly when the service made a subscription, with that as the body. *)
Theorem sublink_auto_answers s agent acc code query t u :
  let requested := match uri_parameter query "format" with Some f => Some f | None => uri_parameter query "target" end in
  let tcp_only := match uri_parameter query "tcp_only" with Some v => is_str v "1" || is_str v "true" | None => false end in
  let auto prt := auto_with_overrides s code (header_or_empty agent) (header_or_empty acc) requested
                    (uri_parameter query "server") prt tcp_only t u in
  (∀ prt o, (auto prt).1 = Ok o → is_bytes (profile_name o)) →
  ∃ r, (sublink_auto s agent acc code query t u).1 = Some r ∧ status r ∈ [200; 400; 404; 501] ∧
    ((∃ p, uri_parameter query "port" = Some p ∧ ∀ n, parse_u16 p = Some n → n ≤ 0) →
       status r = 400 ∧ (sublink_auto s agent acc code query t u).2 = s) ∧
    (∀ prt, port_parameter query = Some prt →
       (valid_code code = false → status r = 400) ∧
       (valid_code code = true → answer s code t u = None → status r = 404) ∧
       (status r = 200 ↔ ∃ o, (auto prt).1 = Ok o ∧ response_body r = Plain (body o)) ∧
       (∀ e, (auto prt).1 = Err e → status r = sublink_status e)).
Proof.
  intros requested tcp_only auto Hbytes. setoid_rewrite <- port_parameter_None. unfold sublink_auto.
  destruct (port_parameter query) as [prt|] eqn:Ep.
  2: { eexists. split; [reflexivity|]. cbn [status sublink_error snd]. split_and!; [set_solver|done|done]. }
  fold requested tcp_only. fold (auto prt). specialize (Hbytes prt).
  destruct (auto_unknown s code (header_or_empty agent) (header_or_empty acc) requested (uri_parameter query "server") prt
    tcp_only t u) as [Hinv Hunk]. fold (auto prt) in Hinv, Hunk.
  pose proof (auto_of_kind s code (header_or_empty agent) (header_or_empty acc) requested (uri_parameter query "server") prt
    tcp_only t u) as Hkind. fold (auto prt) in Hkind.
  destruct (auto prt) as [r0 s'] eqn:Ea. cbn [fst snd] in *. destruct r0 as [o|e].
  - eexists. split; [by apply output_response_ok; [apply Hkind|apply Hbytes]|]. cbn [status response_body].
    split_and!; [set_solver|done|]. intros prt' [= <-]. rewrite Ea. cbn [fst].
    split_and!; [by intros Hv; specialize (Hinv Hv)|by intros Hv Hn; specialize (Hunk Hv Hn)|naive_solver|done].
  - eexists. split; [reflexivity|]. cbn [status response_body sublink_error].
    pose proof (sublink_status_values e) as Hs. split_and!; [set_solver|done|]. intros prt' [= <-]. rewrite Ea. cbn [fst].
    split_and!.
    + intros Hv. by injection (Hinv Hv) as ->.
    + intros Hv Hn. by injection (Hunk Hv Hn) as ->.
    + split; [|naive_solver]. intros E. exfalso. rewrite E in Hs. set_solver.
    + by intros ? [= ->].
Qed.
End route_theorems.

(** ** Concrete libraries *)

(** A percent sign for every byte that is not a letter or a digit. *)
Definition example_percent (s : str) : str := (fun b => if is_ascii_alphanumeric b then b else 37) <$> s.

Lemma example_percent_chars s : Forall (fun b => percent_char b = true) (example_percent s).
Proof.
  apply Forall_fmap, Forall_true. intros b. unfold percent_char. cbn.
  destruct (is_ascii_alphanumeric b) eqn:E; [by rewrite E|done].
Qed.

Lemma example_visible s : Forall (fun b => visible b = true) s → forallb visible s = true ∧ forallb visible s = true.
Proof. by rewrite <- forallb_Forall. Qed.

Definition example_form (s : str) : list (str * str) :=
  omap (split_once 61) (split_by (Z.eqb 38) s).

Definition example_routes : RouteLib := {|
  form_parse := example_form; percent_encode := example_percent; header_value_valid := forallb visible;
  header_to_str := forallb visible; percent_encode_chars := example_percent_chars; header_visible := example_visible |}.

Section example_responses.
Let routes := example_routes.
Let sub := example_sublib.
Let digest := example_subdigest.
Let host := example_hostlib.
Let toml := stored_toml.
#[local] Existing Instances routes sub digest host toml.

Definition example_convert_output : result SubError SublinkOutput :=
  convert_with_rule_format (lit "xray") example_lines None false None None true.

Lemma sublink_response_headers_witness :
  example_convert_output = Ok example_xray ∧
  ∃ r, sublink_output_response example_xray = Some r ∧ status r = 200.
Proof.
  split; [vm_compute; reflexivity|].
  destruct (sublink_response_headers (lit "xray") example_lines None false None None true example_xray) as (r & Hr & Hs & _).
  - vm_compute. reflexivity.
  - apply (bool_decide_unpack _). vm_compute. exact I.
  - exists r. split; [exact Hr|exact Hs].
Defined.

(** A code the store does not have. *)
Lemma sublink_auto_answers_witness :
  ∃ r, (sublink_auto example_empty_store None None (lit "abc") None 0 0).1 = Some r ∧ status r = 404.
Proof.
  destruct (sublink_auto_answers example_empty_store None None (lit "abc") None 0 0) as (r & Hr & _ & _ & Hp).
  - intros prt o Ho. exfalso. revert Ho. vm_compute. discriminate.
  - exists r. split; [exact Hr|]. apply (Hp None); vm_compute; reflexivity.
Defined.
End example_responses.
