(* ===== verification/NatTunnel.v ===== *)
(** * The NAT tunnel ([src/src/nat_tunnel.rs])

    A client behind NAT keeps idle tunnels to a gateway, which hands one to each
    connection it accepts.  Modelled here: the challenge and response of the
    handshake, on both sides of a connection; the idle protocol of a tunnel, on
    both sides; the pool of idle tunnels; the tracker of connected nodes, with the
    node records that the connections share.

    BLAKE2b and URL parsing are parameters.  A connection is a [Duplex]: what it
    will deliver, cut anywhere, what was written to it, and how many more bytes it
    takes before writing fails. *)

From stdpp Require Import base list gmap strings.
From Stdlib Require Import ZArith Lia.
From S2P Require Import Prelude RustStr Net Rules Files Config Stream.

Open Scope Z_scope.

Definition MAGIC : list Z := lit "SBMNAT03".
Definition CHALLENGE_LENGTH : nat := 32.
Definition MAC_LENGTH : nat := 64.
Definition MAX_NODE_NAME_LENGTH : Z := 128.
Definition MAX_SUBSCRIPTION_URL_LENGTH : Z := 2048.
Definition START : Z := 1.
Definition READY : Z := 2.
Definition PING : Z := 3.
Definition PONG : Z := 4.
Definition AUTH_OK : Z := 0.
Definition AUTH_FAILED : Z := 1.
Definition MAX_ATTEMPTS : nat := 8.

Inductive TunnelError :=
| NoRandom
| Closed
| WriteFailed
| TimedOut
| NodeNameLength
| NodeNameUtf8
| InvalidNodeName
| UrlLength
| UrlUtf8
| InvalidUrl
| InvalidToken
| InvalidMagic
| BadResponse
| AuthenticationFailed
| InvalidCommand (command : Z)
| NotReady
| LocalUnreachable
| NoUsableTunnel
| TokenUnreadable
| TokenShort.

(** ** Connections *)

Record Duplex := { input : Stream; output : list Z; budget : option nat }.

(** Code that uses one connection: its result and the connection after it, also
    when it fails. *)
Definition io (A : Type) : Type := Duplex → result TunnelError A * Duplex.

#[export] Instance io_ret : MRet io := fun A a d => (Ok a, d).

#[export] Instance io_bind : MBind io := fun A B f m d =>
  match m d with
  | (Ok a, d) => f a d
  | (Err e, d) => (Err e, d)
  end.

(** A computation that does not touch the connection. *)
Definition lift {A} (r : result TunnelError A) : io A := fun d => (r, d).

(** [stream.read_exact], [read_u8], [read_u16]. *)
Definition io_read {A} (read : Stream → result StreamError (A * Stream)) : io A := fun d =>
  match read (input d) with
  | Ok (a, s) => (Ok a, {| input := s; output := output d; budget := budget d |})
  | Err _ => (Err Closed, {| input := []; output := output d; budget := budget d |})
  end.

(** [stream.write_all], and the [flush] after it: all the bytes, or those the
    connection still takes and an error. *)
Definition io_write (bytes : list Z) : io unit := fun d =>
  match budget d with
  | None => (Ok tt, {| input := input d; output := output d ++ bytes; budget := None |})
  | Some n =>
      if (length bytes <=? n)%nat
      then (Ok tt, {| input := input d; output := output d ++ bytes; budget := Some (n - length bytes)%nat |})
      else (Err WriteFailed, {| input := input d; output := output d ++ take n bytes; budget := Some 0%nat |})
  end.

(** ** The handshake *)

(** BLAKE2b with a key, of the [blake2] crate: keys of up to 64 bytes, codes of
    64 bytes; updating with several slices is updating with all of them. *)
Class Blake2bMac := {
  mac512 : list Z → list Z → list Z;
  mac512_length : ∀ k m, length (mac512 k m) = MAC_LENGTH;
  mac512_bytes : ∀ k m, is_bytes (mac512 k m);
}.

Definition MAC_KEY_MAX : Z := 64.

Record AuthenticatedNode := { name : str; subscription_url : str }.

Section handshake.
Context `{HttpLib} `{Blake2bMac}.

(** [validate_node_name]. *)
Definition validate_node_name (node_name : str) : result TunnelError unit :=
  ensure (negb (is_nil node_name) && (len node_name <=? MAX_NODE_NAME_LENGTH) && negb (has_control node_name))
    InvalidNodeName.

(** [validate_subscription_url]. *)
Definition validate_subscription_url (url : str) : result TunnelError unit :=
  if is_nil url then Ok tt
  else
    ensure ((len url <=? MAX_SUBSCRIPTION_URL_LENGTH) && negb (has_control url)) InvalidUrl;;
    scheme ← ok_or InvalidUrl (url_scheme url);
    ensure (str_eqb scheme (lit "http") || str_eqb scheme (lit "https")) InvalidUrl.

(** [read_token]. *)
Definition read_token (fs : filesystem) (path : str) : result TunnelError (list Z) :=
  token ← ok_or TokenUnreadable (read_to_string fs path);
  ensure (16 <=? len (trim token)) TokenShort;;
  Ok (trim token).

(** [system_device_name]; [hostname] is the environment variable. *)
Definition system_device_name (fs : filesystem) (hostname : option str) : str :=
  let node_name :=
    match read_to_string fs (lit "/etc/hostname") with
    | Some n => Some n
    | None => hostname
    end in
  match trim <$> node_name with
  | Some n => if is_ok (validate_node_name n) then n else lit "sing-box-ser-mini"
  | None => lit "sing-box-ser-mini"
  end.

(** [challenge_mac]. *)
Definition challenge_mac (token challenge node_name url : list Z) : result TunnelError (list Z) :=
  ensure (len token <=? MAC_KEY_MAX) InvalidToken;;
  Ok (mac512 token (MAGIC ++ challenge ++ node_name ++ url)).

(** [gateway_authenticate]; [random] is what [getrandom::fill] gives. *)
Definition gateway_authenticate (random : option (list Z)) (token : list Z) : io AuthenticatedNode :=
  challenge ← lift (ok_or NoRandom random);
  io_write MAGIC;;
  io_write challenge;;
  node_name_length ← io_read read_u16;
  lift (ensure (in_range 1 node_name_length MAX_NODE_NAME_LENGTH) NodeNameLength);;
  node_name ← io_read (read_exact (Z.to_nat node_name_length));
  node_name ← lift (ok_or NodeNameUtf8 (from_utf8 node_name));
  lift (validate_node_name node_name);;
  url_length ← io_read read_u16;
  lift (ensure (url_length <=? MAX_SUBSCRIPTION_URL_LENGTH) UrlLength);;
  url ← io_read (read_exact (Z.to_nat url_length));
  url ← lift (ok_or UrlUtf8 (from_utf8 url));
  lift (validate_subscription_url url);;
  provided ← io_read (read_exact MAC_LENGTH);
  expected ← lift (challenge_mac token challenge node_name url);
  if negb (str_eqb provided expected) then
    io_write [AUTH_FAILED];;
    lift (Err BadResponse)
  else
    io_write [AUTH_OK];;
    mret {| name := node_name; subscription_url := url |}.

(** [client_authenticate]. *)
Definition client_authenticate (token : list Z) (node_name url : str) : io unit :=
  magic ← io_read (read_exact (length MAGIC));
  lift (ensure (str_eqb magic MAGIC) InvalidMagic);;
  lift (validate_node_name node_name);;
  lift (validate_subscription_url url);;
  challenge ← io_read (read_exact CHALLENGE_LENGTH);
  io_write (to_be_bytes 2 (wrap 16 (len node_name)));;
  io_write node_name;;
  io_write (to_be_bytes 2 (wrap 16 (len url)));;
  io_write url;;
  mac ← lift (challenge_mac token challenge node_name url);
  io_write mac;;
  verdict ← io_read read_u8;
  lift (ensure (verdict =? AUTH_OK) AuthenticationFailed).
End handshake.

(** ** Reasoning about a connection

    [io_runs m r bs rest w]: on a connection that can be written and delivers
    [bs] and then [rest], cut anywhere, [m] takes [bs], writes [w] and its result
    is [r]. *)

Definition connection (d : Duplex) (out bs : list Z) : Prop :=
  budget d = None ∧ output d = out ∧ concat (input d) = bs.

Definition io_runs {A} (m : io A) (r : result TunnelError A) (bs rest w : list Z) : Prop :=
  ∀ d out, connection d out (bs ++ rest) →
  ∃ d', m d = (r, d') ∧ connection d' (out ++ w) rest.

Lemma io_runs_ret {A} (a : A) rest : io_runs (mret a) (Ok a) [] rest [].
Proof. intros d out Hd. exists d. by rewrite app_nil_r. Qed.

Lemma io_runs_lift {A} (r : result TunnelError A) rest : io_runs (lift r) r [] rest [].
Proof. intros d out Hd. exists d. by rewrite app_nil_r. Qed.

Lemma io_runs_write w rest : io_runs (io_write w) (Ok tt) [] rest w.
Proof. intros d out (Hb & Ho & Hi). unfold io_write. rewrite Hb. eexists. split; [done|]. by subst. Qed.

Lemma io_runs_bind {A B} (m : io A) (f : A → io B) a r bs bs' rest w w' :
  io_runs m (Ok a) bs (bs' ++ rest) w → io_runs (f a) r bs' rest w' →
  io_runs (m ≫= f) r (bs ++ bs') rest (w ++ w').
Proof.
  intros Hm Hf d out Hd. rewrite <- app_assoc in Hd. destruct (Hm d out Hd) as (d1 & E & Hd1).
  destruct (Hf d1 _ Hd1) as (d2 & E2 & Hd2). exists d2. rewrite app_assoc. split; [|done].
  unfold mbind, io_bind. by rewrite E.
Qed.

Lemma io_runs_bind_Err {A B} (m : io A) (f : A → io B) e bs rest w :
  io_runs m (Err e) bs rest w → io_runs (m ≫= f) (Err e) bs rest w.
Proof.
  intros Hm d out Hd. destruct (Hm d out Hd) as (d1 & E & Hd1). exists d1. split; [|done].
  unfold mbind, io_bind. by rewrite E.
Qed.

Lemma io_runs_eq {A} (m : io A) r bs bs' rest w w' :
  io_runs m r bs rest w → bs = bs' → w = w' → io_runs m r bs' rest w'.
Proof. by intros ? -> ->. Qed.

Lemma io_read_step {A} (read : Stream → result StreamError (A * Stream)) a bs rest :
  (∀ s, concat s = bs ++ rest → ∃ s', read s = Ok (a, s') ∧ concat s' = rest) →
  io_runs (io_read read) (Ok a) bs rest [].
Proof.
  intros Hr d out (Hb & Ho & Hi). destruct (Hr _ Hi) as (s' & E & Hs').
  unfold io_read. rewrite E. eexists. split; [done|]. by rewrite app_nil_r.
Qed.

Lemma io_runs_read_exact bs n rest : length bs = n → io_runs (io_read (read_exact n)) (Ok bs) bs rest [].
Proof. intros <-. apply io_read_step. intros s Hs. by apply read_exact_app. Qed.

Lemma io_runs_read_u8 b rest : io_runs (io_read read_u8) (Ok b) [b] rest [].
Proof. apply io_read_step. intros s Hs. by apply read_u8_app. Qed.

Lemma io_runs_read_u8_eof : io_runs (io_read read_u8) (Err Closed) [] [] [].
Proof.
  intros d out (Hb & Ho & Hi). unfold io_read. destruct (read_u8 (input d)) as [[b s]|e] eqn:E.
  { apply read_u8_Ok in E. by rewrite Hi in E. }
  eexists. split; [done|]. by rewrite app_nil_r.
Qed.

Lemma io_runs_read_u16 v rest :
  0 ≤ v < 65536 → io_runs (io_read read_u16) (Ok v) (to_be_bytes 2 v) rest [].
Proof.
  intros Hv. apply io_read_step. intros s Hs.
  destruct (read_u16_app _ _ _ Hs eq_refl) as (s' & E & Hs'). exists s'.
  rewrite E, from_to_be_bytes_small by done. done.
Qed.

(** Run the next step of a sequence, or the next read, which returns [v]. *)
Ltac io_next tac := eapply io_runs_bind; [tac ()|]; cbv beta.
Ltac io_step := io_next ltac:(fun _ => first [apply io_runs_write | apply io_runs_lift]).
Ltac io_get v :=
  io_next ltac:(fun _ => first [by apply (io_runs_read_u16 v) | by apply (io_runs_read_exact v) | apply (io_runs_read_u8 v)]).
Ltac io_bytes := cbn [app]; rewrite ?app_nil_r, <- ?app_assoc; reflexivity.

(** ** The handshake: what both sides accept *)

(** The gateway's greeting and the client's answer. *)
Definition hello (challenge : list Z) : list Z := MAGIC ++ challenge.

Definition answer (mac : list Z) (node_name url : str) : list Z :=
  to_be_bytes 2 (len node_name) ++ node_name ++ to_be_bytes 2 (len url) ++ url ++ mac.

Section handshake_lemmas.
Context `{HttpLib} `{Blake2bMac}.

Definition node_valid (node_name url : str) : Prop :=
  validate_node_name node_name = Ok tt ∧ validate_subscription_url url = Ok tt ∧
  utf8_valid node_name = true ∧ utf8_valid url = true.

Lemma validate_node_name_length n : validate_node_name n = Ok tt → 1 ≤ len n ≤ MAX_NODE_NAME_LENGTH.
Proof.
  unfold validate_node_name. rewrite ensure_Ok, !andb_true_iff, !negb_true_iff, Z.leb_le.
  intros [[Hn%is_nil_false ?] _]. destruct n; [done|]. unfold len in *. simpl length in *. lia.
Qed.

(** The name a device gets can always be used in the handshake. *)
Lemma system_device_name_ok fs hostname : validate_node_name (system_device_name fs hostname) = Ok tt.
Proof.
  unfold system_device_name. destruct (trim <$> _) as [n|]; [|done].
  destruct (is_ok (validate_node_name n)) eqn:E; [|done]. by apply is_ok_iff in E as [[] ?].
Qed.

Lemma validate_subscription_url_length u :
  validate_subscription_url u = Ok tt → len u ≤ MAX_SUBSCRIPTION_URL_LENGTH.
Proof.
  unfold validate_subscription_url. destruct (is_nil u) eqn:E.
  { apply is_nil_true in E as ->. intros _. by vm_compute. }
  intros Hv. apply rbind_Ok in Hv as ([] & Hc%ensure_Ok & _). apply andb_true_iff in Hc as [Hc _]. by apply Z.leb_le.
Qed.

Lemma node_valid_lengths n u :
  node_valid n u → 1 ≤ len n ≤ MAX_NODE_NAME_LENGTH ∧ 0 ≤ len u ≤ MAX_SUBSCRIPTION_URL_LENGTH.
Proof.
  intros (Hn & Hu & _). split; [by apply validate_node_name_length|].
  split; [apply len_nonneg|by apply validate_subscription_url_length].
Qed.

(** The gateway up to the code of the client: it goes on as [r] says, having taken
    the name and the address. *)
Lemma gateway_on_node {r} token challenge n u code w :
  node_valid n u →
  io_runs (provided ← io_read (read_exact MAC_LENGTH);
           expected ← lift (challenge_mac token challenge n u);
           if negb (str_eqb provided expected) then io_write [AUTH_FAILED];; lift (Err BadResponse)
           else io_write [AUTH_OK];; mret {| name := n; subscription_url := u |}) r code [] w →
  io_runs (gateway_authenticate (Some challenge) token) r (answer code n u) [] (hello challenge ++ w).
Proof.
  intros Hv Hrest. destruct (node_valid_lengths n u Hv) as [Hnl Hul]. destruct Hv as (Hn & Hu & Hn8 & Hu8).
  assert (Hn16 : 0 ≤ len n < 65536) by (unfold MAX_NODE_NAME_LENGTH in *; lia).
  assert (Hu16 : 0 ≤ len u < 65536) by (unfold MAX_SUBSCRIPTION_URL_LENGTH in *; lia).
  assert (Hn1 : in_range 1 (len n) MAX_NODE_NAME_LENGTH = true) by by apply in_range_true.
  assert (Hu1 : (len u <=? MAX_SUBSCRIPTION_URL_LENGTH) = true) by (apply Z.leb_le; lia).
  assert (Hnn : length n = Z.to_nat (len n)) by (unfold len; lia).
  assert (Hun : length u = Z.to_nat (len u)) by (unfold len; lia).
  eapply io_runs_eq.
  - unfold gateway_authenticate. do 3 io_step. io_get (len n). rewrite Hn1. io_step. io_get n.
    unfold from_utf8. rewrite Hn8. io_step. rewrite Hn. io_step. io_get (len u). rewrite Hu1. io_step. io_get u.
    rewrite Hu8. io_step. rewrite Hu. io_step. exact Hrest.
  - unfold answer. io_bytes.
  - unfold hello. io_bytes.
Qed.

(** What the gateway makes of a client that sent [mac]. *)
Lemma gateway_on_answer token challenge mac expected n u :
  node_valid n u → length mac = MAC_LENGTH → challenge_mac token challenge n u = Ok expected →
  io_runs (gateway_authenticate (Some challenge) token)
    (if str_eqb mac expected then Ok {| name := n; subscription_url := u |} else Err BadResponse)
    (answer mac n u) [] (hello challenge ++ [if str_eqb mac expected then AUTH_OK else AUTH_FAILED]).
Proof.
  intros Hv Hmac Hexp. apply gateway_on_node; [done|]. eapply io_runs_eq.
  - io_get mac. rewrite Hexp. io_step.
    apply (io_runs_eq _ _ [] [] _ [if str_eqb mac expected then AUTH_OK else AUTH_FAILED] _); [|done..].
    destruct (str_eqb mac expected); cbn [negb].
    + eapply io_runs_eq; [io_step; apply io_runs_ret|io_bytes..].
    + eapply io_runs_eq; [io_step; apply io_runs_lift|io_bytes..].
  - io_bytes.
  - io_bytes.
Qed.

(** A gateway whose token cannot be used stops at the code. *)
Lemma gateway_on_answer_long token challenge mac n u e :
  node_valid n u → length mac = MAC_LENGTH → challenge_mac token challenge n u = Err e →
  io_runs (gateway_authenticate (Some challenge) token) (Err e) (answer mac n u) [] (hello challenge ++ []).
Proof.
  intros Hv Hmac Hexp. apply gateway_on_node; [done|]. eapply io_runs_eq.
  - io_get mac. rewrite Hexp. apply io_runs_bind_Err, io_runs_lift.
  - io_bytes.
  - io_bytes.
Qed.

(** A client that stops before its code leaves the gateway with a closed connection. *)
Lemma gateway_on_cut token challenge n u :
  node_valid n u → io_runs (gateway_authenticate (Some challenge) token) (Err Closed) (answer [] n u) [] (hello challenge ++ []).
Proof.
  intros Hv. apply gateway_on_node; [done|]. apply io_runs_bind_Err. intros d out (Hb & Ho & Hi). unfold io_read.
  destruct (read_exact MAC_LENGTH (input d)) as [[b s]|e] eqn:E.
  { apply read_exact_Ok in E as [E Hl]. rewrite Hi in E. destruct b; [by vm_compute in Hl|done]. }
  eexists. split; [done|]. by rewrite app_nil_r.
Qed.

(** What a client makes of the greeting and what follows it. *)
Lemma client_on_hello token challenge mac n u w :
  node_valid n u → length challenge = CHALLENGE_LENGTH → challenge_mac token challenge n u = Ok mac →
  io_runs (client_authenticate token n u)
    (match w with
     | [] => Err Closed
     | v :: _ => if v =? AUTH_OK then Ok tt else Err AuthenticationFailed
     end) (hello challenge ++ take 1 w) (drop 1 w) (answer mac n u).
Proof.
  intros Hv Hc Hmac. destruct (node_valid_lengths n u Hv) as [Hnl Hul]. destruct Hv as (Hn & Hu & Hn8 & Hu8).
  assert (Hn16 : in_width 16 (len n)) by (unfold in_width, MAX_NODE_NAME_LENGTH in *; lia).
  assert (Hu16 : in_width 16 (len u)) by (unfold in_width, MAX_SUBSCRIPTION_URL_LENGTH in *; lia).
  eapply io_runs_eq.
  - unfold client_authenticate. io_get MAGIC. rewrite (proj2 (str_eqb_eq MAGIC MAGIC) eq_refl). io_step.
    rewrite Hn. io_step. rewrite Hu. io_step. io_get challenge. do 4 io_step. rewrite Hmac. do 2 io_step.
    apply (io_runs_eq _ _ (take 1 w) (take 1 w) _ [] []); [|done..].
    destruct w as [|v w]; cbn [take drop].
    + apply io_runs_bind_Err, io_runs_read_u8_eof.
    + rewrite drop_0, take_0. destruct (v =? AUTH_OK) eqn:E.
      * eapply io_runs_eq; [io_get v; rewrite E; apply io_runs_lift|io_bytes..].
      * eapply io_runs_eq; [io_get v; rewrite E; apply io_runs_lift|io_bytes..].
  - unfold hello. io_bytes.
  - unfold answer. rewrite !wrap_small by done. io_bytes.
Qed.
(** With a token the client cannot use, it stops before its code. *)
Lemma client_on_hello_long token challenge n u w e :
  node_valid n u → length challenge = CHALLENGE_LENGTH → challenge_mac token challenge n u = Err e →
  io_runs (client_authenticate token n u) (Err e) (hello challenge) w (answer [] n u).
Proof.
  intros Hv Hc Hmac. destruct (node_valid_lengths n u Hv) as [Hnl Hul]. destruct Hv as (Hn & Hu & Hn8 & Hu8).
  assert (Hn16 : in_width 16 (len n)) by (unfold in_width, MAX_NODE_NAME_LENGTH in *; lia).
  assert (Hu16 : in_width 16 (len u)) by (unfold in_width, MAX_SUBSCRIPTION_URL_LENGTH in *; lia).
  eapply io_runs_eq.
  - unfold client_authenticate. io_get MAGIC. rewrite (proj2 (str_eqb_eq MAGIC MAGIC) eq_refl). io_step.
    rewrite Hn. io_step. rewrite Hu. io_step. io_get challenge. do 4 io_step. rewrite Hmac.
    apply io_runs_bind_Err, io_runs_lift.
  - unfold hello. io_bytes.
  - unfold answer. rewrite !wrap_small by done. io_bytes.
Qed.

End handshake_lemmas.

(** Code only adds to what was written. *)
Definition grows {A} (m : io A) : Prop :=
  ∀ d, budget d = None → budget (m d).2 = None ∧ ∃ w, output (m d).2 = output d ++ w.

Lemma grows_lift {A} (r : result TunnelError A) : grows (lift r).
Proof. intros d Hd. split; [done|]. exists []. by rewrite app_nil_r. Qed.

Lemma grows_ret {A} (a : A) : grows (mret a).
Proof. intros d Hd. split; [done|]. exists []. by rewrite app_nil_r. Qed.

Lemma grows_write bytes : grows (io_write bytes).
Proof. intros d Hd. unfold io_write. rewrite Hd. split; [done|]. by exists bytes. Qed.

Lemma grows_read {A} (read : Stream → result StreamError (A * Stream)) : grows (io_read read).
Proof.
  intros d Hd. unfold io_read. destruct (read (input d)) as [[a s]|e]; (split; [done|]);
    exists []; by rewrite app_nil_r.
Qed.

Lemma grows_bind {A B} (m : io A) (f : A → io B) : grows m → (∀ a, grows (f a)) → grows (m ≫= f).
Proof.
  intros Hm Hf d Hd. unfold mbind, io_bind. destruct (Hm d Hd) as [Hb [w Hw]].
  destruct (m d) as [[a|e] d1]; cbn [snd] in *; [|eauto].
  destruct (Hf a d1 Hb) as [Hb' [w' Hw']]. split; [done|]. exists (w ++ w'). by rewrite Hw', Hw, app_assoc.
Qed.

#[export] Hint Resolve grows_lift grows_ret grows_write grows_read : hy2.

Ltac grow := repeat (cbv beta; first [apply grows_bind; [|intros ?] | case_match | solve [auto with hy2]]).

Section handshake_agreement.
Context `{HttpLib} `{Blake2bMac}.

(** The gateway greets before it reads. *)
Lemma gateway_greets challenge token d :
  budget d = None → output d = [] →
  ∃ w, output (gateway_authenticate (Some challenge) token d).2 = hello challenge ++ w.
Proof.
  intros Hb Ho. unfold gateway_authenticate.
  match goal with |- context [lift _ ≫= ?f] => set (k := f) end.
  change ((lift (ok_or NoRandom (Some challenge)) ≫= k) d) with (k challenge d). subst k. cbv beta.
  match goal with |- context [io_write MAGIC ≫= fun _ => io_write challenge ≫= ?f] => set (k := f) end.
  assert (Hk : grows (k tt)) by (subst k; grow).
  set (d1 := {| input := input d; output := hello challenge; budget := None |}).
  assert (E : (io_write MAGIC ≫= fun _ => io_write challenge ≫= k) d = k tt d1).
  { unfold mbind, io_bind, io_write. rewrite Hb. cbn [budget input output]. by rewrite Ho. }
  rewrite E. destruct (Hk d1 eq_refl) as [_ Hw]. exact Hw.
Qed.

(** Both sides of one connection: each receives what the other writes. *)
Definition joined (gateway client : Duplex) (challenge tg tc : list Z) (n u : str) : Prop :=
  budget gateway = None ∧ output gateway = [] ∧ budget client = None ∧ output client = [] ∧
  concat (input gateway) = output (client_authenticate tc n u client).2 ∧
  concat (input client) = output (gateway_authenticate (Some challenge) tg gateway).2.

(** If what the client sends after a greeting does not depend on the verdict, such
    connections exist and determine both results. *)
Lemma joined_results challenge tg tc n u cout v rg (rc : list Z → result TunnelError unit) :
  (∀ w d, connection d [] (hello challenge ++ w) →
     (client_authenticate tc n u d).1 = rc w ∧ output (client_authenticate tc n u d).2 = cout) →
  io_runs (gateway_authenticate (Some challenge) tg) rg cout [] (hello challenge ++ v) →
  (∃ gateway client, joined gateway client challenge tg tc n u) ∧
  ∀ gateway client, joined gateway client challenge tg tc n u →
    (gateway_authenticate (Some challenge) tg gateway).1 = rg ∧ (client_authenticate tc n u client).1 = rc v.
Proof.
  intros Hc Hg.
  assert (Hg' : ∀ d, connection d [] cout → (gateway_authenticate (Some challenge) tg d).1 = rg ∧
      output (gateway_authenticate (Some challenge) tg d).2 = hello challenge ++ v).
  { intros d Hd. destruct (Hg d []) as (d' & -> & (_ & Ho & _)); [by rewrite app_nil_r|]. done. }
  split.
  - set (g := {| input := [cout]; output := []; budget := None |}).
    set (c := {| input := [hello challenge ++ v]; output := []; budget := None |}). exists g, c.
    destruct (Hg' g) as [_ Hgo]; [by split_and!; cbn; rewrite ?app_nil_r|].
    destruct (Hc v c) as [_ Hco]; [by split_and!; cbn; rewrite ?app_nil_r|].
    split_and!; try done; [by rewrite Hco; cbn; rewrite app_nil_r|by rewrite Hgo; cbn; rewrite app_nil_r].
  - intros g c (Hbg & Hog & Hbc & Hoc & Hig & Hic).
    destruct (gateway_greets challenge tg g Hbg Hog) as [w Hw].
    destruct (Hc w c) as [_ Hco]; [split_and!; congruence|].
    destruct (Hg' g) as [Hgr Hgo]; [split_and!; congruence|]. split; [done|]. apply (Hc v c). split_and!; congruence.
Qed.
End handshake_agreement.

Lemma to_from_be_bytes2 p : is_bytes p → length p = 2%nat → to_be_bytes 2 (from_be_bytes p) = p.
Proof.
  intros Hp Hl. destruct p as [|a [|b [|]]]; try discriminate Hl.
  inversion_clear Hp as [|? ? Ha Hp']. inversion_clear Hp' as [|? ? Hb _].
  unfold from_be_bytes. cbn [fold_left]. rewrite !be_push_eq by done. rewrite u8_ok_iff in Ha, Hb.
  rewrite !to_be_bytes_cons. cbn [to_be_bytes Z.of_nat Z.mul Z.pow]. change (2 ^ (8 * 1)) with 256. change (2 ^ 0) with 1.
  change (2 ^ (8 * Z.of_nat 1)) with 256. change (2 ^ (8 * Z.of_nat 0)) with 1.
  rewrite Z.div_1_r. f_equal; [|f_equal].
  - rewrite Z.add_comm. rewrite (Z.div_add b (0 * 256 + a) 256) by lia. rewrite (Z.div_small b) by lia.
    rewrite Z.mod_small; lia.
  - rewrite Z.add_comm, Z.mod_add by lia. by apply Z.mod_small.
Qed.

(** A length and as many bytes. *)
Lemma read_counted s l s1 x s2 :
  is_bytes (concat s) → read_u16 s = Ok (l, s1) → read_exact (Z.to_nat l) s1 = Ok (x, s2) →
  concat s = to_be_bytes 2 (len x) ++ x ++ concat s2 ∧ is_bytes (concat s2).
Proof.
  intros Hb (p & Hp & Hl & ->)%read_u16_Ok [Hx Hlx]%read_exact_Ok. rewrite Hp, Hx in Hb |- *.
  apply Forall_app in Hb as [Hbp [Hbx Hb2]%Forall_app]. split; [|done]. f_equal.
  pose proof (from_be_bytes_bound p Hbp). unfold len. rewrite Hlx, Z2Nat.id by lia.
  by rewrite to_from_be_bytes2.
Qed.

Lemma io_bind_Ok {A B} (m : io A) (f : A → io B) d b d' :
  (m ≫= f) d = (Ok b, d') → ∃ a d1, m d = (Ok a, d1) ∧ f a d1 = (Ok b, d').
Proof. unfold mbind, io_bind. destruct (m d) as [[a|e] d1]; [eauto|done]. Qed.

Lemma lift_Ok {A} (r : result TunnelError A) d a d' : lift r d = (Ok a, d') → r = Ok a ∧ d' = d.
Proof. by intros [= -> ->]. Qed.

Lemma io_write_Ok w d u d' : io_write w d = (Ok u, d') → input d' = input d.
Proof. unfold io_write. repeat case_match; intros; by simplify_eq. Qed.

Lemma io_read_Ok {A} (read : Stream → result StreamError (A * Stream)) d a d' :
  io_read read d = (Ok a, d') → read (input d) = Ok (a, input d').
Proof. unfold io_read. destruct (read (input d)) as [[b s]|e]; by intros [= <- <-]. Qed.

(** Split a hypothesis that code succeeded along its steps. *)
Ltac io_inv :=
  repeat match goal with
  | H : (_ ≫= _) _ = (Ok _, _) |- _ => apply io_bind_Ok in H as (? & ? & ? & H); cbv beta in H
  | H : lift (ensure _ _) _ = (Ok _, _) |- _ => apply lift_Ok in H as [H%ensure_Ok ->]
  | H : lift (ok_or _ _) _ = (Ok _, _) |- _ => apply lift_Ok in H as [H%ok_or_Ok ->]
  | H : lift _ _ = (Ok _, _) |- _ => apply lift_Ok in H as [H ->]
  | H : io_write _ _ = (Ok _, _) |- _ => apply io_write_Ok in H
  | H : io_read _ _ = (Ok _, _) |- _ => apply io_read_Ok in H
  end.

Section handshake_theorems.
Context `{HttpLib} `{Blake2bMac}.

(** The code of a challenge has a length; it is refused only for the token's. *)
Lemma challenge_mac_cases token challenge n u :
  (len token ≤ 64 ∧ challenge_mac token challenge n u = Ok (mac512 token (MAGIC ++ challenge ++ n ++ u))) ∨
  (64 < len token ∧ challenge_mac token challenge n u = Err InvalidToken).
Proof. unfold challenge_mac, MAC_KEY_MAX. destruct (Z.leb_spec (len token) 64); [left|right]; done. Qed.

(** Claim C16. The NAT tunnel handshake agrees. Take a client whose node name and subscription address pass their
    validation, a challenge of 32 bytes, any two tokens, and a connection that delivers
    what is written, however it is cut: the gateway and the client complete. With
    tokens of at most 64 bytes, both accept when their codes for this challenge are
    equal (so when the tokens are equal), the gateway then knowing the client's own
    name and address, and otherwise both refuse. A longer token is never accepted,
    also when both sides have it, although the settings admit up to 256 bytes: a client
    with one stops before its code and the gateway sees a closed connection; a gateway
    with one stops without a verdict. *)
Theorem tunnel_handshake challenge tg tc n u :
  node_valid n u → length challenge = CHALLENGE_LENGTH →
  let code token := mac512 token (MAGIC ++ challenge ++ n ++ u) in
  (∃ gateway client, joined gateway client challenge tg tc n u) ∧
  ∀ gateway client, joined gateway client challenge tg tc n u →
  let rg := (gateway_authenticate (Some challenge) tg gateway).1 in
  let rc := (client_authenticate tc n u client).1 in
  (len tg ≤ 64 ∧ len tc ≤ 64 → code tc = code tg → rg = Ok {| name := n; subscription_url := u |} ∧ rc = Ok tt) ∧
  (len tg ≤ 64 ∧ len tc ≤ 64 → code tc ≠ code tg → rg = Err BadResponse ∧ rc = Err AuthenticationFailed) ∧
  (64 < len tc → rg = Err Closed ∧ rc = Err InvalidToken) ∧
  (64 < len tg ∧ len tc ≤ 64 → rg = Err InvalidToken ∧ rc = Err Closed).
Proof.
  intros Hv Hc code.
  destruct (challenge_mac_cases tc challenge n u) as [[Hltc Hmc]|[Hltc Hmc]].
  - pose proof (fun w d Hd => client_on_hello tc challenge _ n u w Hv Hc Hmc d [] Hd) as Hcl.
    assert (Hl : length (code tc) = MAC_LENGTH) by apply mac512_length.
    assert (Hrc : ∀ w d, connection d [] (hello challenge ++ w) →
      (client_authenticate tc n u d).1 =
        match w with [] => Err Closed | v :: _ => if v =? AUTH_OK then Ok tt else Err AuthenticationFailed end ∧
      output (client_authenticate tc n u d).2 = answer (code tc) n u).
    { intros w d Hd. destruct (Hcl w d) as (d' & -> & (_ & Ho & _)); [by rewrite <- app_assoc, take_drop|]. done. }
    destruct (challenge_mac_cases tg challenge n u) as [[Hltg Hmg]|[Hltg Hmg]].
    + destruct (joined_results _ _ _ _ _ _ _ _ _ Hrc (gateway_on_answer tg challenge _ _ n u Hv Hl Hmg)) as [He Hj].
      split; [done|]. intros g c [Eg Ec]%Hj rg rc. unfold rg, rc. rewrite Eg, Ec. fold (code tg). split_and!; [| |lia..].
      * intros _ E%str_eqb_eq. by rewrite E.
      * intros _ E. rewrite <- str_eqb_eq in E. apply not_true_iff_false in E. by rewrite E.
    + destruct (joined_results _ _ _ _ _ _ _ _ _ Hrc (gateway_on_answer_long tg challenge _ n u _ Hv Hl Hmg)) as [He Hj].
      split; [done|]. intros g c [Eg Ec]%Hj rg rc. unfold rg, rc. rewrite Eg, Ec. split_and!; [lia..|done].
  - assert (Hrc : ∀ w d, connection d [] (hello challenge ++ w) →
      (client_authenticate tc n u d).1 = Err InvalidToken ∧ output (client_authenticate tc n u d).2 = answer [] n u).
    { intros w d Hd. destruct (client_on_hello_long tc challenge n u w _ Hv Hc Hmc d [] Hd) as (d' & -> & (_ & Ho & _)). done. }
    destruct (joined_results _ _ _ _ _ _ _ _ _ Hrc (gateway_on_cut tg challenge n u Hv)) as [He Hj].
    split; [done|]. intros g c [Eg Ec]%Hj rg rc. unfold rg, rc. rewrite Eg, Ec. split_and!; [lia|lia|done|lia].
Qed.

(** A tunnel the gateway accepts, on any input and whatever it could write, has sent a well-formed
    name and subscription address, within their bounds, followed by the code of
    the challenge and both under the gateway's token; and the rest of the input is
    left for the tunnel. *)
Theorem gateway_accepts_sound random token d node d' :
  is_bytes (concat (input d)) → gateway_authenticate random token d = (Ok node, d') →
  ∃ challenge mac, random = Some challenge ∧ node_valid (name node) (subscription_url node) ∧
  challenge_mac token challenge (name node) (subscription_url node) = Ok mac ∧
  concat (input d) = answer mac (name node) (subscription_url node) ++ concat (input d').
Proof.
  intros Hb Hr. unfold gateway_authenticate in Hr. io_inv.
  destruct (str_eqb x25 x27) eqn:Emac; cbn [negb] in Hr; io_inv; [|done].
  apply str_eqb_eq in Emac as ->. injection Hr as <- <-. cbn [name subscription_url].
  unfold from_utf8 in *. case_match; [|done]. case_match; [|done]. simplify_eq.
  match goal with Hu : validate_node_name _ = Ok ?u, Hv : validate_subscription_url _ = Ok ?v |- _ =>
    destruct u, v end.
  repeat match goal with E : input ?a = input ?b |- _ => rewrite E in *; clear E end.
  exists x, x27. split_and!; [done..|].
  do 2 match goal with
  | Hb : is_bytes (concat ?s), Hl : read_u16 ?s = Ok (_, ?t), Hx : read_exact _ ?t = Ok _ |- _ =>
      destruct (read_counted _ _ _ _ _ Hb Hl Hx) as [-> ?]; clear Hb
  end.
  match goal with E : read_exact MAC_LENGTH _ = _ |- _ => apply read_exact_Ok in E as [-> _] end.
  unfold answer. by rewrite <- !app_assoc.
Qed.
End handshake_theorems.

Section handshake_limits.
Context `{HttpLib} `{Blake2bMac}.

(** With a token of more than 64 bytes no tunnel is ever accepted, and no client
    completes. *)
Lemma long_token_refused token :
  MAC_KEY_MAX < len token →
  (∀ random d node d', gateway_authenticate random token d ≠ (Ok node, d')) ∧
  (∀ n u d d', client_authenticate token n u d ≠ (Ok tt, d')).
Proof.
  intros Hl.
  assert (Hm : ∀ c n u m, challenge_mac token c n u ≠ Ok m).
  { intros c n u m Hm. unfold challenge_mac in Hm. apply rbind_Ok in Hm as (? & He%ensure_Ok & _).
    apply Z.leb_le in He. lia. }
  split.
  - intros random d node d' Hr. unfold gateway_authenticate in Hr. io_inv. naive_solver.
  - intros n u d d' Hr. unfold client_authenticate in Hr. io_inv. naive_solver.
Qed.

(** The code does not tell where the name ends and the address begins: an answer
    whose bytes are divided otherwise is accepted with the same code. *)
Lemma answer_split_otherwise token challenge n u n' u' mac :
  n ++ u = n' ++ u' → node_valid n' u' → length challenge = CHALLENGE_LENGTH →
  challenge_mac token challenge n u = Ok mac →
  io_runs (gateway_authenticate (Some challenge) token) (Ok {| name := n'; subscription_url := u' |})
    (answer mac n' u') [] (hello challenge ++ [AUTH_OK]).
Proof.
  intros Hs Hv Hc Hm. assert (Hm' : challenge_mac token challenge n' u' = Ok mac).
  { rewrite <- Hm. unfold challenge_mac. by rewrite <- Hs. }
  assert (Hl : length mac = MAC_LENGTH).
  { unfold challenge_mac in Hm. apply rbind_Ok in Hm as ([] & _ & [= <-]). apply mac512_length. }
  pose proof (gateway_on_answer token challenge mac mac n' u' Hv Hl Hm') as Hg.
  by rewrite (proj2 (str_eqb_eq mac mac) eq_refl) in Hg.
Qed.
End handshake_limits.

(** An instance to evaluate with. *)
Definition example_mac (k m : list Z) : list Z := replicate 63 0 ++ [foldr Z.add (len m) k mod 256].

Lemma example_mac_length k m : length (example_mac k m) = MAC_LENGTH.
Proof. unfold example_mac. by rewrite length_app, length_replicate. Qed.

Lemma example_mac_bytes k m : is_bytes (example_mac k m).
Proof.
  unfold example_mac. apply Forall_app_2; [by apply Forall_replicate, u8_ok_iff|].
  apply Forall_singleton, u8_ok_iff. by apply Z.mod_pos_bound.
Qed.

Definition example_blake2b : Blake2bMac :=
  {| mac512 := example_mac; mac512_length := example_mac_length; mac512_bytes := example_mac_bytes |}.

Definition example_token : list Z := lit "a-long-random-test-token".
Definition example_challenge : list Z := replicate 32 7.
Definition example_node : str := lit "test-exit".
Definition example_url : str := lit "https://exit.example/sub/code".
Definition example_answer : list Z :=
  answer (example_mac example_token (MAGIC ++ example_challenge ++ example_node ++ example_url)) example_node example_url.

Lemma tunnel_handshake_witness :
  let _ := example_http in let _ := example_blake2b in
  (∃ gateway client, joined gateway client example_challenge example_token example_token example_node example_url) ∧
  ∀ gateway client, joined gateway client example_challenge example_token example_token example_node example_url →
  (gateway_authenticate (Some example_challenge) example_token gateway).1
  = Ok {| name := example_node; subscription_url := example_url |}.
Proof.
  intros http mac.
  destruct (tunnel_handshake (H := http) (H0 := mac) example_challenge example_token example_token example_node example_url)
    as [He Hall]; [split_and!; by vm_compute|done|].
  split; [exact He|]. intros g c Hj. apply (proj1 (Hall g c Hj)); [split; by vm_compute|done].
Defined.

Lemma gateway_accepts_sound_witness :
  let _ := example_http in let _ := example_blake2b in
  let d := {| input := [take 5 example_answer; drop 5 example_answer]; output := []; budget := Some 100%nat |} in
  ∃ challenge mac, Some example_challenge = Some challenge ∧
  node_valid example_node example_url ∧ challenge_mac example_token challenge example_node example_url = Ok mac ∧
  concat (input d) = answer mac example_node example_url ++ [].
Proof.
  intros http mac d.
  apply (gateway_accepts_sound (H := http) (H0 := mac) (Some example_challenge) example_token d
    {| name := example_node; subscription_url := example_url |}
    {| input := [[]]; output := hello example_challenge ++ [AUTH_OK]; budget := Some 59%nat |});
    [|by vm_compute].
  apply (bool_decide_unpack _). by vm_compute.
Defined.
