(* ===== verification/NatGateway.v ===== *)
(** * The NAT tunnel's gateway state ([src/src/nat_tunnel.rs])

    What happens to a tunnel after its handshake: the idle protocol between the
    gateway's [manage_idle_tunnel] and the client's [client_session], the pool from
    which accepted connections take tunnels, and the tracker of connected nodes.

    Node records and tunnel handles are shared through [Arc]: they live in a heap
    and are referred to by number, so that a record dropped from the tracker's map
    is still the one its open connections count in. *)

From stdpp Require Import base list gmap strings sorting.
From Stdlib Require Import ZArith Lia.
From S2P Require Import Prelude RustStr Net Rules Files Config Stream NatTunnel.

Open Scope Z_scope.

(** ** The idle protocol *)

(** What wakes [manage_idle_tunnel]: an assignment, the end of the assignments,
    or the heartbeat.  [timely] says whether the reply comes before the timeout. *)
Inductive TunnelEvent :=
| Assignment (timely : bool)
| AssignmentsClosed
| Heartbeat (timely : bool).

(** How the task stands: still waiting, or ended, with what it answered to the
    assignment, if there was one.  The tunnel is alive while the task waits. *)
Inductive IdleState :=
| Waiting
| Handed (activation : result TunnelError unit)
| Dropped.

Definition idle_alive (s : IdleState) : bool := match s with Waiting => true | _ => false end.

(** Write a command and check the reply. *)
Definition command_reply (command reply : Z) (timely : bool) : io unit :=
  io_write [command];;
  answered ← (if timely then io_read read_u8 else lift (Err TimedOut));
  lift (ensure (answered =? reply) (InvalidCommand answered)).

(** [manage_idle_tunnel]. *)
Fixpoint manage_idle_tunnel (events : list TunnelEvent) (d : Duplex) : IdleState * Duplex :=
  match events with
  | [] => (Waiting, d)
  | AssignmentsClosed :: _ => (Dropped, d)
  | Assignment timely :: _ =>
      let '(activation, d) := command_reply START READY timely d in
      (Handed activation, d)
  | Heartbeat timely :: events =>
      match command_reply PING PONG timely d with
      | (Ok _, d) => manage_idle_tunnel events d
      | (Err _, d) => (Dropped, d)
      end
  end.

(** The command loop of [client_session].  Every turn takes a byte, so one turn
    more than there are bytes is enough: the last one finds the stream closed. *)
Fixpoint client_commands_fuel (fuel : nat) : io unit :=
  match fuel with
  | O => lift (Err Closed)
  | S fuel =>
      command ← io_read read_u8;
      if command =? PING then
        io_write [PONG];;
        client_commands_fuel fuel
      else if command =? START then mret tt
      else lift (Err (InvalidCommand command))
  end.

Definition client_commands : io unit := fun d => client_commands_fuel (S (length (concat (input d)))) d.

Section client.
Context `{HttpLib} `{Blake2bMac}.

(** [client_session] on a connection to the gateway, up to the relay;
    [local] says whether the local proxy can be reached. *)
Definition client_session (token : list Z) (node_name url : str) (local : bool) : io unit :=
  client_authenticate token node_name url;;
  client_commands;;
  lift (ensure local LocalUnreachable);;
  io_write [READY].
End client.

(** [serve_public_connection], up to the relay: [acquired i] is what the i-th
    attempt gives, [None] when waiting for a tunnel timed out, otherwise whether
    the tunnel could be activated.  The result is the attempt that succeeded. *)
Fixpoint serve_public_fuel (fuel attempts : nat) (acquired : nat → option bool) : result TunnelError nat :=
  match fuel with
  | O => Err NoUsableTunnel
  | S fuel =>
      let attempts := S attempts in
      usable ← ok_or TimedOut (acquired (attempts - 1)%nat);
      if (usable : bool) then Ok (attempts - 1)%nat
      else if (MAX_ATTEMPTS <=? attempts)%nat then Err NoUsableTunnel
      else serve_public_fuel fuel attempts acquired
  end.

Definition serve_public_connection : (nat → option bool) → result TunnelError nat :=
  serve_public_fuel MAX_ATTEMPTS 0.

(** ** The pool of idle tunnels *)

Record Pool := { idle : list nat; alive : gmap nat bool; capacity : nat }.

Definition pool_new (capacity : nat) : Pool := {| idle := []; alive := ∅; capacity := capacity |}.

Definition is_alive (p : Pool) (h : nat) : bool := default false (alive p !! h).

(** [idle.retain(|tunnel| tunnel.alive)]. *)
Definition retain (p : Pool) : list nat := filter (fun h => is_alive p h = true) (idle p).

Definition set_idle (p : Pool) (l : list nat) : Pool := {| idle := l; alive := alive p; capacity := capacity p |}.

(** The flag a tunnel's task sets when it ends, and the one it starts with. *)
Definition set_alive (h : nat) (b : bool) (p : Pool) : Pool :=
  {| idle := idle p; alive := <[h := b]> (alive p); capacity := capacity p |}.

(** [TunnelPool::register], of the handle made for the tunnel. *)
Definition register (h : nat) (p : Pool) : bool * Pool :=
  let p := set_alive h true p in
  let kept := retain p in
  if (capacity p <=? length kept)%nat then (false, set_idle p kept)
  else (true, set_idle p (kept ++ [h])).

(** One pass of the loop of [TunnelPool::acquire]: a tunnel, or [None] when it has
    to wait. *)
Definition acquire (p : Pool) : option nat * Pool :=
  match retain p with
  | [] => (None, set_idle p [])
  | h :: rest => (Some h, set_idle p rest)
  end.

(** ** The tracker of nodes *)

Record GatewayNodeRuntime := {
  tunnel_count : Z;
  connected_since : Z;
  last_seen : Z;
  node_url : str;
}.

Definition default_runtime : GatewayNodeRuntime :=
  {| tunnel_count := 0; connected_since := 0; last_seen := 0; node_url := [] |}.

(** The map and the heap of the records; [fresh] is the next number. *)
Record Tracker := { nodes : gmap str nat; heap : gmap nat GatewayNodeRuntime; fresh : nat }.

Definition tracker_default : Tracker := {| nodes := ∅; heap := ∅; fresh := 0 |}.

(** [nodes.entry(name).or_default()]. *)
Definition entry_or_default (node : str) (t : Tracker) : nat * Tracker :=
  match nodes t !! node with
  | Some id => (id, t)
  | None =>
      (fresh t, {| nodes := <[node := fresh t]> (nodes t); heap := <[fresh t := default_runtime]> (heap t);
                   fresh := S (fresh t) |})
  end.

Definition update (id : nat) (f : GatewayNodeRuntime → GatewayNodeRuntime) (t : Tracker) : Tracker :=
  {| nodes := nodes t; heap := alter f id (heap t); fresh := fresh t |}.

(** [GatewayTracker::connect]: the record the connection counts in. *)
Definition connect (node url : str) (now : Z) (t : Tracker) : nat * Tracker :=
  let '(id, t) := entry_or_default node t in
  (id, update id (fun r => {|
    tunnel_count := wrap 64 (tunnel_count r + 1);
    connected_since := if tunnel_count r =? 0 then now else connected_since r;
    last_seen := now;
    node_url := if is_nil url then node_url r else url |}) t).

(** [GatewayNodeConnection::drop]. *)
Definition disconnect (id : nat) (now : Z) : Tracker → Tracker :=
  update id (fun r => {|
    tunnel_count := wrap 64 (tunnel_count r - 1);
    connected_since := connected_since r;
    last_seen := now;
    node_url := node_url r |}).

(** [GatewayTracker::clear]. *)
Definition clear (t : Tracker) : Tracker := {| nodes := ∅; heap := heap t; fresh := fresh t |}.

(** [GatewayTracker::snapshot]. *)
Record GatewayNodeStatus := {
  status_name : str;
  online : bool;
  status_tunnels : Z;
  status_since : Z;
  status_seen : Z;
  status_url : str;
}.

Definition node_status (node : str) (r : GatewayNodeRuntime) : GatewayNodeStatus := {|
  status_name := node; online := tunnel_count r >? 0; status_tunnels := tunnel_count r;
  status_since := connected_since r; status_seen := last_seen r; status_url := node_url r |}.

(** Nodes that are online first, then by name. *)
Definition status_le (a b : GatewayNodeStatus) : Prop :=
  (if online a then if online b then str_leb (status_name a) (status_name b) else true
   else if online b then false else str_leb (status_name a) (status_name b)) = true.

#[export] Instance status_le_dec a b : Decision (status_le a b).
Proof. unfold status_le. apply _. Defined.

Definition snapshot `{HashIter} (t : Tracker) : list GatewayNodeStatus :=
  merge_sort status_le
    (omap (fun '(node, id) => node_status node <$> heap t !! id) (hash_iter (nodes t))).

(** ** Runs of the pool and of the tracker *)

(** What happens to a pool: tunnels registered, passes of [acquire], tasks that
    end.  The result is the tunnels handed out, in order. *)
Inductive PoolEvent := Register (h : nat) | Acquire | Ended (h : nat).

Fixpoint pool_run (events : list PoolEvent) (p : Pool) : list nat * Pool :=
  match events with
  | [] => ([], p)
  | Register h :: events => pool_run events (register h p).2
  | Ended h :: events => pool_run events (set_alive h false p)
  | Acquire :: events =>
      let '(taken, p) := acquire p in
      let '(handed, p) := pool_run events p in
      (option_list taken ++ handed, p)
  end.

Definition registered (events : list PoolEvent) : list nat :=
  omap (fun e => match e with Register h => Some h | _ => None end) events.

(** What happens to a tracker: connection [c] opens under a name, a connection is
    dropped, the tracker is cleared.  [conns] says in which record each open
    connection counts. *)
Inductive TrackerEvent :=
| Opened (c : nat) (node url : str) (now : Z)
| Shut (c : nat) (now : Z)
| Cleared.

Definition tracker_step (s : Tracker * gmap nat nat) (e : TrackerEvent) : Tracker * gmap nat nat :=
  let '(t, conns) := s in
  match e with
  | Opened c node url now =>
      let '(id, t) := connect node url now t in
      (t, <[c := id]> conns)
  | Shut c now =>
      match conns !! c with
      | Some id => (disconnect id now t, delete c conns)
      | None => s
      end
  | Cleared => (clear t, conns)
  end.

(** What the tracker stands for: the open connections of the nodes it knows, by
    name; clearing it forgets them. *)
Definition attached_step (a : gmap nat str) (e : TrackerEvent) : gmap nat str :=
  match e with
  | Opened c node _ _ => <[c := node]> a
  | Shut c _ => delete c a
  | Cleared => ∅
  end.

Definition opened (events : list TrackerEvent) : list nat :=
  omap (fun e => match e with Opened c _ _ _ => Some c | _ => None end) events.

(** How many entries of a map have a value. *)
Definition count {V} `{EqDecision V} (v : V) (m : gmap nat V) : Z := Z.of_nat (size (filter (fun p => p.2 = v) m)).

(** ** Properties *)

(** *** The idle protocol *)

Lemma command_reply_runs command reply rest :
  io_runs (command_reply command reply true) (Ok tt) [reply] rest [command].
Proof.
  unfold command_reply. eapply io_runs_eq; [io_step; io_get reply; rewrite Z.eqb_refl; apply io_runs_lift|io_bytes..].
Qed.

Lemma command_reply_Ok command reply timely d d' :
  budget d = None → command_reply command reply timely d = (Ok tt, d') →
  timely = true ∧ concat (input d) = reply :: concat (input d') ∧ output d' = output d ++ [command] ∧ budget d' = None.
Proof.
  intros Hb Hr. unfold command_reply in Hr. apply io_bind_Ok in Hr as ([] & d1 & Hw & Hr).
  unfold io_write in Hw. rewrite Hb in Hw. injection Hw as <-.
  apply io_bind_Ok in Hr as (b & d2 & Hread & Hr). apply lift_Ok in Hr as [E%ensure_Ok ->].
  apply Z.eqb_eq in E as ->. destruct timely; [|done]. split; [done|].
  unfold io_read in Hread. cbn [input output budget] in Hread.
  destruct (read_u8 (input d)) as [[b s]|] eqn:E; [|done]. injection Hread as <- <-.
  by apply read_u8_Ok in E.
Qed.

Lemma manage_heartbeats k events d out rest :
  connection d out (replicate k PONG ++ rest) →
  ∃ d', manage_idle_tunnel (replicate k (Heartbeat true) ++ events) d = manage_idle_tunnel events d' ∧
        connection d' (out ++ replicate k PING) rest.
Proof.
  revert d out. induction k as [|k IH]; intros d out Hd.
  { exists d. by rewrite app_nil_r. }
  destruct (command_reply_runs PING PONG (replicate k PONG ++ rest) d out Hd) as (d1 & E & Hd1).
  destruct (IH d1 _ Hd1) as (d2 & E2 & Hd2). exists d2. cbn [replicate app manage_idle_tunnel].
  rewrite E. split; [done|]. cbn [replicate]. by rewrite <- app_assoc in Hd2.
Qed.

Lemma client_commands_run k fuel rest :
  (k < fuel)%nat →
  io_runs (client_commands_fuel fuel) (Ok tt) (replicate k PING ++ [START]) rest (replicate k PONG).
Proof.
  revert fuel. induction k as [|k IH]; intros fuel Hf; (destruct fuel as [|fuel]; [lia|]); cbn [client_commands_fuel].
  - eapply io_runs_eq; [io_get START; cbn [Z.eqb Pos.eqb START PING]; apply io_runs_ret|io_bytes..].
  - eapply io_runs_eq; [io_get PING; cbn [Z.eqb Pos.eqb PING]; io_step; apply IH; lia|io_bytes..].
Qed.

Lemma client_commands_activate k rest :
  io_runs client_commands (Ok tt) (replicate k PING ++ [START]) rest (replicate k PONG).
Proof.
  intros d out Hd. unfold client_commands. apply client_commands_run; [|done].
  destruct Hd as (_ & _ & ->). rewrite !length_app, length_replicate. lia.
Qed.

(** Handing a tunnel over means that every heartbeat was answered and that the
    tunnel was clean: exactly the replies were taken from it. *)
Lemma manage_handed events d d' :
  budget d = None → manage_idle_tunnel events d = (Handed (Ok tt), d') →
  ∃ k later, events = replicate k (Heartbeat true) ++ Assignment true :: later ∧
  concat (input d) = replicate k PONG ++ READY :: concat (input d') ∧
  output d' = output d ++ replicate k PING ++ [START].
Proof.
  revert d. induction events as [|[t| |t] events IH]; intros d Hb Hm; cbn [manage_idle_tunnel] in Hm; [done| |done|].
  - destruct (command_reply START READY t d) as [act d1] eqn:E. injection Hm as -> <-.
    apply command_reply_Ok in E as (-> & Hi & Ho & _); [|done]. by exists 0%nat, events.
  - destruct (command_reply PING PONG t d) as [[[]|e] d1] eqn:E; [|done].
    apply command_reply_Ok in E as (-> & Hi & Ho & Hb1); [|done].
    destruct (IH d1 Hb1 Hm) as (k & later & -> & Hi1 & Ho1). exists (S k), later. cbn [replicate app].
    rewrite Hi, Hi1, Ho1, Ho, <- app_assoc. done.
Qed.

Section activation.
Context `{HttpLib} `{Blake2bMac}.

Lemma client_accepted token challenge mac n u rest :
  node_valid n u → length challenge = CHALLENGE_LENGTH → challenge_mac token challenge n u = Ok mac →
  io_runs (client_authenticate token n u) (Ok tt) (hello challenge ++ [AUTH_OK]) rest (answer mac n u).
Proof.
  intros Hv Hc Hm. pose proof (client_on_hello token challenge mac n u (AUTH_OK :: rest) Hv Hc Hm) as Hr.
  cbn [take drop Z.eqb AUTH_OK] in Hr. by rewrite take_0, drop_0 in Hr.
Qed.

(** Claim C36. The life of a tunnel, both sides. A client that authenticated and answered [k] heartbeats is
    activated by an assignment: it answers the greeting, each heartbeat and the
    assignment and nothing else, and the gateway's task, given those answers, hands
    the connection over with what the client sent after them still unread. And a
    connection is only ever handed over after every heartbeat was answered in time
    and the assignment acknowledged, with exactly those bytes taken from it. *)
Theorem idle_tunnel_protocol token challenge mac n u k :
  node_valid n u → length challenge = CHALLENGE_LENGTH → challenge_mac token challenge n u = Ok mac →
  (∀ rest, io_runs (client_session token n u true) (Ok tt)
             (hello challenge ++ [AUTH_OK] ++ replicate k PING ++ [START]) rest
             (answer mac n u ++ replicate k PONG ++ [READY])) ∧
  (∀ gateway out rest, connection gateway out (replicate k PONG ++ [READY] ++ rest) →
   ∃ gateway', manage_idle_tunnel (replicate k (Heartbeat true) ++ [Assignment true]) gateway
               = (Handed (Ok tt), gateway') ∧
               connection gateway' (out ++ replicate k PING ++ [START]) rest) ∧
  (∀ events gateway gateway', budget gateway = None →
   manage_idle_tunnel events gateway = (Handed (Ok tt), gateway') →
   ∃ j later, events = replicate j (Heartbeat true) ++ Assignment true :: later ∧
   concat (input gateway) = replicate j PONG ++ READY :: concat (input gateway') ∧
   output gateway' = output gateway ++ replicate j PING ++ [START]).
Proof.
  intros Hv Hc Hm. split_and!; [| |by apply manage_handed].
  - intros rest. eapply io_runs_eq.
    + unfold client_session. io_next ltac:(fun _ => by apply (client_accepted token challenge mac)).
      io_next ltac:(fun _ => apply (client_commands_activate k)). io_step. apply io_runs_write.
    + io_bytes.
    + io_bytes.
  - intros g out rest Hg.
    destruct (manage_heartbeats k [Assignment true] g out _ Hg) as (g1 & E & Hg1).
    destruct (command_reply_runs START READY rest g1 _ Hg1) as (g2 & E2 & Hg2).
    exists g2. cbn [manage_idle_tunnel] in E. rewrite E, E2, app_assoc. done.
Qed.
End activation.

Lemma idle_tunnel_protocol_witness :
  let _ := example_http in let _ := example_blake2b in
  io_runs (client_session example_token example_node example_url true) (Ok tt)
    (hello example_challenge ++ [AUTH_OK] ++ [PING; PING; START]) []
    (example_answer ++ [PONG; PONG; READY]).
Proof.
  intros http mac.
  exact (proj1 (idle_tunnel_protocol (H := http) (H0 := mac) example_token example_challenge
    (mac512 example_token (MAGIC ++ example_challenge ++ example_node ++ example_url)) example_node example_url 2
    ltac:(split_and!; by vm_compute) eq_refl ltac:(by vm_compute)) []).
Defined.

(** A public connection gets the first usable tunnel of at most eight. *)
Lemma serve_public_fuel_spec acquired fuel attempts i :
  (fuel + attempts = MAX_ATTEMPTS)%nat →
  serve_public_fuel fuel attempts acquired = Ok i ↔
  (attempts ≤ i < MAX_ATTEMPTS)%nat ∧ acquired i = Some true ∧
  ∀ j, (attempts ≤ j < i)%nat → acquired j = Some false.
Proof.
  revert attempts. induction fuel as [|fuel IH]; intros attempts Hf; cbn [serve_public_fuel].
  { split; [done|]. intros [? _]. lia. }
  replace (S attempts - 1)%nat with attempts by lia.
  destruct (acquired attempts) as [[]|] eqn:E; res_simpl.
  - split.
    + intros [= <-]. split_and!; [lia..|done|]. intros; lia.
    + intros (Hi & Ha & Hj). destruct (decide (i = attempts)) as [->|]; [done|].
      rewrite Hj in E by lia. done.
  - destruct (Nat.leb_spec MAX_ATTEMPTS (S attempts)).
    + split; [done|]. intros (Hi & Ha & _). assert (i = attempts) as -> by lia. congruence.
    + rewrite IH by lia. split; intros (Hi & Ha & Hj); (split_and!; [|lia|done|]); try lia.
      * intros j Hj'. destruct (decide (j = attempts)) as [->|]; [done|]. apply Hj. lia.
      * assert (i ≠ attempts) by (intros ->; congruence). lia.
      * intros j Hj'. apply Hj. lia.
  - split; [done|]. intros (Hi & Ha & Hj). destruct (decide (i = attempts)) as [->|]; [congruence|].
    rewrite Hj in E by lia. done.
Qed.

(** *** The pool *)

Lemma retain_sublist p : retain p `sublist_of` idle p.
Proof. apply sublist_filter. Qed.

Lemma retain_length p : (length (retain p) ≤ length (idle p))%nat.
Proof. apply sublist_length, retain_sublist. Qed.

Lemma retain_set_alive h b p : h ∉ idle p → retain (set_alive h b p) = retain p.
Proof.
  intros Hh. unfold retain. cbn [idle set_alive]. induction (idle p) as [|x l IH]; [done|].
  rewrite !filter_cons, IH by set_solver. unfold is_alive, set_alive. cbn [alive].
  rewrite lookup_insert_ne by set_solver. done.
Qed.

(** The bound, and the order in which tunnels leave. *)
Definition pool_ok (p : Pool) (handed reg : list nat) : Prop :=
  (length (idle p) ≤ capacity p)%nat ∧ handed ++ idle p `sublist_of` reg.

Lemma register_ok h p handed reg : pool_ok p handed reg → pool_ok (register h p).2 handed (reg ++ [h]).
Proof.
  intros [Hl Hs]. unfold register. set (p' := set_alive h true p).
  assert (Hk : handed ++ retain p' `sublist_of` reg).
  { etrans; [|exact Hs]. apply sublist_app; [done|apply (retain_sublist p')]. }
  destruct (Nat.leb_spec (capacity p') (length (retain p'))) as [Hc|Hc]; split; cbn [snd set_idle idle capacity].
  - pose proof (retain_length p' : (length (retain p') ≤ length (idle p))%nat). by etrans.
  - by apply sublist_inserts_r.
  - rewrite length_app. cbn [length]. lia.
  - rewrite app_assoc. by apply sublist_app.
Qed.

Lemma acquire_ok p handed reg :
  pool_ok p handed reg → pool_ok (acquire p).2 (handed ++ option_list (acquire p).1) reg.
Proof.
  intros [Hl Hs]. pose proof (retain_length p). pose proof (retain_sublist p) as Hr. unfold acquire.
  destruct (retain p) as [|h rest]; split; cbn [fst snd set_idle idle capacity option_list length] in *; [lia| |lia|].
  - etrans; [|exact Hs]. rewrite app_nil_r. by apply sublist_app.
  - etrans; [|exact Hs]. rewrite <- app_assoc. by apply sublist_app.
Qed.

Lemma register_capacity h p : capacity (register h p).2 = capacity p.
Proof. unfold register. by case_match. Qed.

Lemma acquire_capacity p : capacity (acquire p).2 = capacity p.
Proof. unfold acquire. by case_match. Qed.

Lemma pool_run_ok events p handed reg :
  pool_ok p handed reg →
  pool_ok (pool_run events p).2 (handed ++ (pool_run events p).1) (reg ++ registered events) ∧
  capacity (pool_run events p).2 = capacity p.
Proof.
  revert p handed reg. induction events as [|[h| |h] events IH]; intros p handed reg Hp; cbn [pool_run].
  - by rewrite !app_nil_r.
  - change (registered (Register h :: events)) with ([h] ++ registered events). rewrite app_assoc.
    destruct (IH _ _ _ (register_ok h p handed reg Hp)) as [Hok Hc]. split; [done|]. by rewrite Hc, register_capacity.
  - pose proof (acquire_ok p handed reg Hp) as Ha. pose proof (acquire_capacity p) as Hc.
    destruct (acquire p) as [taken p1]. specialize (IH p1 _ _ Ha). destruct (pool_run events p1) as [l p2].
    cbn [fst snd] in *. rewrite app_assoc. destruct IH as [? ->]. done.
  - by destruct (IH (set_alive h false p) handed reg Hp).
Qed.

(** A pass of [acquire] takes the first tunnel that is alive. *)
Lemma acquire_first p :
  match (acquire p).1 with
  | Some h => is_alive p h = true ∧ ∃ dead rest, idle p = dead ++ h :: rest ∧ Forall (fun x => is_alive p x = false) dead
  | None => Forall (fun x => is_alive p x = false) (idle p)
  end.
Proof.
  unfold acquire, retain. induction (idle p) as [|x l IH]; [constructor|].
  rewrite filter_cons. destruct (decide (is_alive p x = true)) as [Hx|Hx]; cbn [fst].
  - split; [done|]. by exists [], l.
  - apply not_true_iff_false in Hx. destruct (filter _ l) as [|h rest]; cbn [fst] in *; [by constructor|].
    destruct IH as (Hh & dead & rest' & -> & Hd). split; [done|]. exists (x :: dead), rest'. split; [done|by constructor].
Qed.

(** The pool of idle tunnels, over any sequence of registrations of distinct tunnels, passes of
    [acquire] and ends of tunnels: it never holds more than its capacity; a tunnel
    is handed out at most once and, once handed out, is no longer in the pool;
    tunnels leave in the order they came; the tunnel taken is alive and every
    tunnel before it is not, and a pass that finds none leaves no live tunnel
    waiting; and a new tunnel is refused exactly when the pool is full of live
    ones. *)
Theorem pool_spec cap events handed p :
  NoDup (registered events) → pool_run events (pool_new cap) = (handed, p) →
  (length (idle p) ≤ cap)%nat ∧ NoDup (handed ++ idle p) ∧ handed ++ idle p `sublist_of` registered events ∧
  match (acquire p).1 with
  | Some h => is_alive p h = true ∧ h ∉ handed ∧
      ∃ dead rest, idle p = dead ++ h :: rest ∧ Forall (fun x => is_alive p x = false) dead
  | None => Forall (fun x => is_alive p x = false) (idle p)
  end ∧
  ∀ h, h ∉ idle p → (register h p).1 = false ↔ length (filter (fun x => is_alive p x = true) (idle p)) = cap.
Proof.
  intros Hnd Hr. destruct (pool_run_ok events (pool_new cap) [] []) as [[Hl Hs] Hc].
  { by split; cbn; [lia|]. }
  rewrite Hr in Hl, Hs, Hc. cbn [fst snd app capacity pool_new] in *. rewrite Hc in Hl.
  assert (Hnd' : NoDup (handed ++ idle p)) by by eapply sublist_NoDup.
  split_and!; [done..| |].
  - pose proof (acquire_first p) as Ha. destruct (acquire p).1 as [h|]; [|done].
    destruct Ha as (Hh & dead & rest & Hi & Hd). split_and!; [done| |by exists dead, rest].
    apply NoDup_app in Hnd' as (_ & Hno & _). intros Hin. apply (Hno h Hin). rewrite Hi. set_solver.
  - intros h Hh. unfold register. pose proof (retain_length p). set (p' := set_alive h true p).
    assert (E : retain p' = retain p).
    { by apply retain_set_alive. }
    rewrite E. cbn [capacity p' set_alive]. fold (retain p). rewrite Hc.
    destruct (Nat.leb_spec cap (length (retain p))); cbn [fst]; split; intros; try done; lia.
Qed.

Lemma pool_spec_witness :
  let events := [Register 1; Register 2; Register 3; Ended 1; Acquire; Register 4]%nat in
  let p := (pool_run events (pool_new 2)).2 in
  (length (idle p) ≤ 2)%nat ∧ NoDup ([2] ++ idle p)%nat ∧ ([2] ++ idle p `sublist_of` [1; 2; 3; 4])%nat.
Proof.
  intros events p.
  destruct (pool_spec 2 events [2%nat] p) as (Hl & Hn & Hs & _);
    [apply (bool_decide_unpack _); by vm_compute|by vm_compute|].
  split_and!; [exact Hl|exact Hn|exact Hs].
Defined.

(** *** The tracker *)

Section count.
Context {V : Type} `{EqDecision V}.
Implicit Types (m : gmap nat V).

Lemma count_insert v c w m :
  m !! c = None → count v (<[c := w]> m) = count v m + (if decide (w = v) then 1 else 0).
Proof.
  intros Hc. unfold count. case_decide as Hw.
  - rewrite map_filter_insert_True by done. rewrite map_size_insert_None; [lia|].
    apply map_lookup_filter_None. by left.
  - rewrite map_filter_insert_False by done. rewrite delete_id by done. lia.
Qed.

Lemma count_delete v c w m :
  m !! c = Some w → count v (delete c m) = count v m - (if decide (w = v) then 1 else 0).
Proof.
  intros Hc. rewrite <- (insert_delete_id m c w Hc) at 2. rewrite count_insert by apply lookup_delete_eq. lia.
Qed.

Lemma count_le v m : 0 ≤ count v m ≤ Z.of_nat (size m).
Proof. unfold count. split; [lia|]. apply inj_le, map_size_filter. Qed.

Lemma count_pos v m : 0 < count v m ↔ ∃ c, m !! c = Some v.
Proof.
  unfold count. split.
  - intros Hp. destruct (decide (filter (fun p => p.2 = v) m = ∅)) as [E|E].
    { rewrite E, map_size_empty in Hp. lia. }
    apply map_choose in E as (c & w & (Hc & Hw)%map_lookup_filter_Some). cbn in Hw. subst. eauto.
  - intros [c Hc]. assert (H' : filter (fun p => p.2 = v) m !! c = Some v) by by apply map_lookup_filter_Some.
    assert (size (filter (fun p => p.2 = v) m) ≠ 0%nat); [|lia]. rewrite map_size_ne_0_lookup. by exists c.
Qed.
End count.

(** Two maps with the same keys at two values count the same. *)
Lemma count_same {V W} `{EqDecision V, EqDecision W} (v : V) (w : W) (m : gmap nat V) (m' : gmap nat W) :
  (∀ c, m !! c = Some v ↔ m' !! c = Some w) → count v m = count w m'.
Proof.
  intros Hc. unfold count. rewrite <- !(size_dom (D := gset nat)). f_equal. f_equal. apply set_eq. intros c.
  rewrite !elem_of_dom. unfold is_Some. setoid_rewrite map_lookup_filter_Some. cbn. naive_solver.
Qed.

(** The records, the names and the connections agree. *)
Record tracker_inv (t : Tracker) (conns : gmap nat nat) (attached : gmap nat str) : Prop := {
  inv_nodes : ∀ n id, nodes t !! n = Some id → (id < fresh t)%nat;
  inv_inj : ∀ n n' id, nodes t !! n = Some id → nodes t !! n' = Some id → n = n';
  inv_heap : ∀ id, is_Some (heap t !! id) ↔ (id < fresh t)%nat;
  inv_conns : ∀ c id, conns !! c = Some id → (id < fresh t)%nat;
  inv_count : ∀ id r, heap t !! id = Some r → tunnel_count r = count id conns;
  inv_attached : ∀ c n, attached !! c = Some n ↔ ∃ id, conns !! c = Some id ∧ nodes t !! n = Some id;
}.

Lemma tracker_inv_default : tracker_inv tracker_default ∅ ∅.
Proof.
  split; cbn; try (intros *; rewrite ?lookup_empty; naive_solver).
  intros id. rewrite lookup_empty. split; [by intros []|lia].
Qed.

(** A record for the name, new or not. *)
Lemma entry_inv node t conns attached :
  tracker_inv t conns attached →
  let '(id, t') := entry_or_default node t in
  tracker_inv t' conns attached ∧ nodes t' !! node = Some id.
Proof.
  intros Ht. unfold entry_or_default. destruct (nodes t !! node) as [id|] eqn:E; [done|].
  split; [|apply lookup_insert_eq].
  pose proof (inv_nodes _ _ _ Ht) as Hn. pose proof (inv_conns _ _ _ Ht) as Hcs.
  assert (Hfresh : heap t !! fresh t = None).
  { apply eq_None_not_Some. rewrite (inv_heap _ _ _ Ht). lia. }
  split; cbn [nodes heap fresh].
  - intros n id [[<- <-]|[_ ?%Hn]]%lookup_insert_Some; lia.
  - intros n n' id [[<- <-]|[? H1]]%lookup_insert_Some [[<- E']|[? H2]]%lookup_insert_Some; try done.
    + apply Hn in H2. lia.
    + subst. apply Hn in H1. lia.
    + by eapply (inv_inj _ _ _ Ht).
  - intros id. rewrite lookup_insert_is_Some', (inv_heap _ _ _ Ht). lia.
  - intros c id ?%Hcs. lia.
  - intros id r [[<- <-]|[_ H1]]%lookup_insert_Some; [|by apply (inv_count _ _ _ Ht)]. cbn.
    pose proof (count_le (fresh t) conns). destruct (Z.eq_dec (count (fresh t) conns) 0) as [->|Hne]; [done|].
    destruct (proj1 (count_pos (fresh t) conns)) as [c Hc]; [lia|]. apply Hcs in Hc. lia.
  - intros c n. rewrite (inv_attached _ _ _ Ht). split; intros (id & H1 & H2); exists id; (split; [done|]).
    + by rewrite lookup_insert_ne by (intros ->; congruence).
    + apply lookup_insert_Some in H2 as [[<- <-]|[_ ?]]; [|done]. apply Hcs in H1. lia.
Qed.

Lemma wrap_count {V} `{EqDecision V} (v : V) m : Z.of_nat (size m) < 2 ^ 64 → wrap 64 (count v m) = count v m.
Proof. intros Hs. apply wrap_small. pose proof (count_le v m). unfold in_width. lia. Qed.

Lemma size_delete_le {V} (c : nat) (m : gmap nat V) : (size (delete c m) ≤ size m)%nat.
Proof. rewrite map_size_delete. destruct (m !! c); cbn; lia. Qed.

Lemma connect_inv c node url now t conns attached :
  tracker_inv t conns attached → conns !! c = None → Z.of_nat (size conns) + 1 < 2 ^ 64 →
  let '(id, t') := connect node url now t in tracker_inv t' (<[c := id]> conns) (<[c := node]> attached).
Proof.
  intros Ht Hc Hs. unfold connect. pose proof (entry_inv node t conns attached Ht) as He.
  destruct (entry_or_default node t) as [id t1]. destruct He as [H1 Hid].
  assert (Hs' : Z.of_nat (size (<[c := id]> conns)) < 2 ^ 64) by (rewrite map_size_insert_None by done; lia).
  split; cbn [nodes heap fresh update].
  - apply (inv_nodes _ _ _ H1).
  - apply (inv_inj _ _ _ H1).
  - intros j. rewrite lookup_alter_is_Some. apply (inv_heap _ _ _ H1).
  - intros c' j [[<- <-]|[_ ?]]%lookup_insert_Some; [by apply (inv_nodes _ _ _ H1 node)|by apply (inv_conns _ _ _ H1 c')].
  - intros j r [[-> (r0 & Hr & ->)]|[Hj Hr]]%lookup_alter_Some; rewrite count_insert by done.
    + cbn [tunnel_count]. rewrite (inv_count _ _ _ H1 _ _ Hr). rewrite decide_True by done.
      pose proof (wrap_count j (<[c := j]> conns) Hs') as Hw. by rewrite count_insert, decide_True in Hw by done.
    + rewrite decide_False by done. rewrite (inv_count _ _ _ H1 _ _ Hr). lia.
  - intros c' n. destruct (decide (c = c')) as [<-|Hne].
    + rewrite !lookup_insert_eq. split.
      * intros [= <-]. eauto.
      * intros (j & [= <-] & Hn). f_equal. by eapply (inv_inj _ _ _ H1).
    + rewrite !lookup_insert_ne by done. apply (inv_attached _ _ _ H1).
Qed.

Lemma disconnect_inv c id now t conns attached :
  tracker_inv t conns attached → conns !! c = Some id → Z.of_nat (size conns) < 2 ^ 64 →
  tracker_inv (disconnect id now t) (delete c conns) (delete c attached).
Proof.
  intros Ht Hc Hs.
  assert (Hs' : Z.of_nat (size (delete c conns)) < 2 ^ 64) by (pose proof (size_delete_le c conns); lia).
  split; cbn [nodes heap fresh disconnect update].
  - apply (inv_nodes _ _ _ Ht).
  - apply (inv_inj _ _ _ Ht).
  - intros j. rewrite lookup_alter_is_Some. apply (inv_heap _ _ _ Ht).
  - intros c' j [_ ?]%lookup_delete_Some. by apply (inv_conns _ _ _ Ht c').
  - intros j r [[-> (r0 & Hr & ->)]|[Hj Hr]]%lookup_alter_Some; rewrite (count_delete _ _ _ _ Hc).
    + cbn [tunnel_count]. rewrite (inv_count _ _ _ Ht _ _ Hr). rewrite decide_True by done.
      pose proof (wrap_count j (delete c conns) Hs') as Hw. by rewrite (count_delete _ _ _ _ Hc), decide_True in Hw by done.
    + rewrite decide_False by done. rewrite (inv_count _ _ _ Ht _ _ Hr). lia.
  - intros c' n. rewrite lookup_delete_Some, (inv_attached _ _ _ Ht). setoid_rewrite lookup_delete_Some. naive_solver.
Qed.

Lemma clear_inv t conns attached : tracker_inv t conns attached → tracker_inv (clear t) conns ∅.
Proof.
  intros Ht. split; cbn [nodes heap fresh clear]; try by apply Ht.
  - intros n id. by rewrite lookup_empty.
  - intros n n' id. by rewrite lookup_empty.
  - intros c n. rewrite lookup_empty. split; [done|]. intros (id & _ & Hn). by rewrite lookup_empty in Hn.
Qed.

Lemma tracker_run_inv events t conns attached seen :
  tracker_inv t conns attached → (∀ c, is_Some (conns !! c) → c ∈ seen) → NoDup (seen ++ opened events) →
  Z.of_nat (size conns) + len events < 2 ^ 64 →
  let '(t', conns') := foldl tracker_step (t, conns) events in
  tracker_inv t' conns' (foldl attached_step attached events).
Proof.
  revert t conns attached seen. induction events as [|e events IH]; intros t conns attached seen Ht Hseen Hnd Hlen; [done|].
  rewrite len_cons in Hlen. pose proof (len_nonneg events). cbn [foldl tracker_step attached_step].
  destruct e as [c node url now|c now|].
  - change (opened (Opened c node url now :: events)) with ([c] ++ opened events) in Hnd.
    assert (Hc : conns !! c = None).
    { apply eq_None_not_Some. intros Hin%Hseen. apply NoDup_app in Hnd as (_ & Hno & _). apply (Hno c Hin). set_solver. }
    pose proof (connect_inv c node url now t conns attached Ht Hc ltac:(lia)) as Hi.
    destruct (connect node url now t) as [id t']. apply (IH _ _ _ (seen ++ [c])); [done| |by rewrite <- app_assoc|].
    + intros c' [->|[_ ?%Hseen]]%lookup_insert_is_Some; set_solver.
    + rewrite map_size_insert_None by done. lia.
  - destruct (conns !! c) as [id|] eqn:Hc.
    + apply (IH _ _ _ seen); [by apply disconnect_inv; [| |lia]| |done|].
      * intros c' [_ ?%Hseen]%lookup_delete_is_Some. done.
      * pose proof (size_delete_le c conns). lia.
    + cbn [attached_step]. rewrite (delete_id attached).
      * by apply (IH _ _ _ seen); [| | |lia].
      * apply eq_None_not_Some. intros [n Hn]. apply (inv_attached _ _ _ Ht) in Hn as (? & ? & _). congruence.
  - apply (IH _ _ _ seen); [by eapply clear_inv|done..|lia].
Qed.

#[export] Instance status_le_total : Total status_le.
Proof.
  intros a b. unfold status_le. destruct (online a), (online b); auto; apply str_leb_total.
Qed.

#[export] Instance status_le_trans : Transitive status_le.
Proof.
  intros a b c. unfold status_le. destruct (online a), (online b), (online c); try done; apply str_leb_trans.
Qed.

Section tracker_snapshot.
Context `{HashIter}.

Lemma elem_of_snapshot t st :
  st ∈ snapshot t ↔ ∃ node id r, nodes t !! node = Some id ∧ heap t !! id = Some r ∧ st = node_status node r.
Proof.
  unfold snapshot. rewrite merge_sort_Permutation, list_elem_of_omap. split.
  - intros ([node id] & Hin%elem_of_hash_iter & (r & Hr & ->)%fmap_Some). eauto 7.
  - intros (node & id & r & Hn & Hr & ->). exists (node, id). rewrite elem_of_hash_iter, Hr. done.
Qed.

Lemma snapshot_names_NoDup t : NoDup (status_name <$> snapshot t).
Proof.
  unfold snapshot. rewrite merge_sort_Permutation. pose proof (NoDup_hash_iter_keys (nodes t)) as Hnd.
  induction (hash_iter (nodes t)) as [|[node id] l IH]; [constructor|].
  cbn [fmap list_fmap] in Hnd. apply NoDup_cons in Hnd as [Hno Hnd]. cbn [omap list_omap].
  destruct (heap t !! id) as [r|]; cbn; [|by apply IH]. apply NoDup_cons. split; [|by apply IH].
  intros (st & Hst & ([n' id'] & Hin & (r' & _ & ->)%fmap_Some)%list_elem_of_omap)%list_elem_of_fmap.
  cbn in Hst. subst n'. apply Hno. apply list_elem_of_fmap. by exists (node, id').
Qed.

(** An entry of the list counts the connections of its name. *)
Lemma snapshot_counts t conns attached st :
  tracker_inv t conns attached → st ∈ snapshot t →
  status_tunnels st = count (status_name st) attached ∧ (online st = true ↔ ∃ c, attached !! c = Some (status_name st)).
Proof.
  intros Hinv (node & id & r & Hn & Hheap & ->)%elem_of_snapshot. cbn [node_status status_tunnels status_name online].
  assert (E : tunnel_count r = count node attached).
  { rewrite (inv_count _ _ _ Hinv _ _ Hheap). apply count_same. intros c. rewrite (inv_attached _ _ _ Hinv).
    split; [eauto|]. intros (id' & Hc & Hn'). congruence. }
  split; [done|]. rewrite E. rewrite <- count_pos. rewrite Z.gtb_ltb, Z.ltb_lt. done.
Qed.

(** The gateway's list of nodes, over any sequence of connections opened, dropped and clearings of the
    tracker, whatever connections outlive a clearing: the list is sorted, online
    nodes first and then by name, and has each name once; it has every node with an
    open connection; and each entry shows the number of connections open under its
    name since the tracker was last cleared and is online exactly when there is
    one. *)
Theorem tracker_snapshot_spec events t conns :
  NoDup (opened events) → len events < 2 ^ 64 →
  foldl tracker_step (tracker_default, ∅) events = (t, conns) →
  let attached := foldl attached_step ∅ events in
  StronglySorted status_le (snapshot t) ∧ NoDup (status_name <$> snapshot t) ∧
  (∀ c node, attached !! c = Some node → node ∈ status_name <$> snapshot t) ∧
  ∀ st, st ∈ snapshot t →
    status_tunnels st = count (status_name st) attached ∧
    (online st = true ↔ ∃ c, attached !! c = Some (status_name st)).
Proof.
  intros Hnd Hlen Hr attached.
  pose proof (tracker_run_inv events tracker_default ∅ ∅ [] tracker_inv_default) as Hinv.
  rewrite Hr in Hinv. specialize (Hinv ltac:(intros c; rewrite lookup_empty; by intros []) Hnd ltac:(rewrite map_size_empty; lia)).
  fold attached in Hinv. split_and!.
  - apply StronglySorted_merge_sort; apply _.
  - apply snapshot_names_NoDup.
  - intros c node (id & Hc & Hn)%(inv_attached _ _ _ Hinv).
    destruct (proj2 (inv_heap _ _ _ Hinv id) (inv_nodes _ _ _ Hinv _ _ Hn)) as [r Hheap].
    apply list_elem_of_fmap. exists (node_status node r). split; [done|]. apply elem_of_snapshot. eauto 7.
  - intros st Hst. by eapply snapshot_counts.
Qed.
End tracker_snapshot.

Definition example_tracking : list TrackerEvent :=
  [Opened 1 (lit "exit-b") [] 10; Opened 2 (lit "exit-a") example_url 11; Cleared;
   Opened 3 (lit "exit-b") [] 12; Opened 4 (lit "exit-a") [] 13; Shut 1 14; Shut 4 15].

Lemma tracker_snapshot_spec_witness :
  let _ := hash_iter_sorted in
  let t := (foldl tracker_step (tracker_default, ∅) example_tracking).1 in
  (status_name <$> snapshot t) = [lit "exit-b"; lit "exit-a"] ∧
  ∀ st, st ∈ snapshot t → status_tunnels st = count (status_name st) {[ 3%nat := lit "exit-b" ]}.
Proof.
  intros iter t. split; [by vm_compute|].
  destruct (tracker_snapshot_spec (H := iter) example_tracking t (foldl tracker_step (tracker_default, ∅) example_tracking).2)
    as (_ & _ & _ & Hst); [apply (bool_decide_unpack _); by vm_compute|by vm_compute|by vm_compute|].
  intros st Hin. destruct (Hst st Hin) as [-> _]. f_equal.
Defined.
