(* ===== verification/GatewayRun.v ===== *)
(** * A run of the NAT tunnel's gateway and client ([src/src/nat_tunnel.rs])

    [run_gateway] accepts tunnels and public connections in two loops and spawns a task
    for each; the tasks share the pool of idle tunnels, the tracker of nodes and the
    notification of new tunnels.  Here they run together: an event is a step of one
    task up to its next await.  The end of a tunnel's task, which has no await in it,
    is one step.

    [Notify] is as its documentation says: a permit is kept when nobody waits, at most
    one, and a waiter that was woken and is dropped before it runs wakes the next. *)

From stdpp Require Import base list gmap strings sorting.
From Stdlib Require Import ZArith Lia.
From S2P Require Import Prelude RustStr Net Rules Files Config Stream NatTunnel NatGateway.

Open Scope Z_scope.

(** ** The state *)

(** The task of a tunnel connection: in the handshake; counted in the record [id] of
    its node, and not yet offered to the pool; waiting in [manage_idle_tunnel], with
    what its channel of assignments holds; ended. *)
Inductive Tunnel :=
| Arriving
| Counted (id : nat) (d : Duplex)
| Idle (id : nat) (d : Duplex) (assigned : option nat)
| Over.

(** The task of a public connection, with the attempts it has begun: about to look
    into the pool; having found it empty; waiting to be notified; notified; with a
    tunnel it took; waiting for that tunnel's answer; relaying; ended. *)
Inductive Public :=
| Looking (attempts : nat)
| Unpolled (attempts : nat)
| Parked (attempts : nat)
| Woken (attempts : nat)
| Picked (attempts h : nat)
| Awaiting (attempts h : nat)
| Relaying (h : nat) (d : Duplex)
| Finished (r : result TunnelError unit).

Record GatewayState := {
  accepting : bool;
  tracker : Tracker;
  pool : Pool;
  tunnels : gmap nat Tunnel;
  publics : gmap nat Public;
  permit : bool;
  parked : list nat;
}.

(** [run_gateway] until its loops: the capacity is checked, then both listeners are
    bound. *)
Inductive GatewayError := CapacityZero | CapacityLarge | TunnelBind | PublicBind.

Definition run_gateway (queue_capacity : Z) (bind_tunnel bind_public : bool) (t : Tracker)
    : result GatewayError GatewayState :=
  ensure (queue_capacity >? 0) CapacityZero;;
  ensure (queue_capacity <=? 1024) CapacityLarge;;
  ensure bind_tunnel TunnelBind;;
  ensure bind_public PublicBind;;
  Ok {| accepting := true; tracker := t; pool := pool_new (Z.to_nat queue_capacity); tunnels := ∅; publics := ∅;
        permit := false; parked := [] |}.

Definition set_tunnel (h : nat) (t : Tunnel) (tr : Tracker) (p : Pool) (s : GatewayState) : GatewayState := {|
  accepting := accepting s; tracker := tr; pool := p; tunnels := <[h := t]> (tunnels s); publics := publics s;
  permit := permit s; parked := parked s |}.

Definition set_public (p : nat) (c : Public) (s : GatewayState) : GatewayState := {|
  accepting := accepting s; tracker := tracker s; pool := pool s; tunnels := tunnels s;
  publics := <[p := c]> (publics s); permit := permit s; parked := parked s |}.

Definition set_pool (po : Pool) (s : GatewayState) : GatewayState := {|
  accepting := accepting s; tracker := tracker s; pool := po; tunnels := tunnels s; publics := publics s;
  permit := permit s; parked := parked s |}.

Definition set_notify (b : bool) (l : list nat) (s : GatewayState) : GatewayState := {|
  accepting := accepting s; tracker := tracker s; pool := pool s; tunnels := tunnels s; publics := publics s;
  permit := b; parked := l |}.

(** [Notify::notify_one]. *)
Definition notify_one (s : GatewayState) : GatewayState :=
  match parked s with
  | [] => set_notify true [] s
  | p :: rest =>
      let s := set_notify (permit s) rest s in
      match publics s !! p with
      | Some (Parked n) => set_public p (Woken n) s
      | _ => s
      end
  end.

(** An attempt failed: the next one, unless it was the last. *)
Definition next_attempt (attempts : nat) : Public :=
  if (MAX_ATTEMPTS <=? attempts)%nat then Finished (Err NoUsableTunnel) else Looking (S attempts).

(** The response to an assignment, for a public connection that still waits for it. *)
Definition answer_assignment (p h : nat) (response : result TunnelError Duplex) (s : GatewayState) : GatewayState :=
  match publics s !! p with
  | Some (Awaiting n h') =>
      if decide (h' = h) then
        set_public p (match response with Ok d => Relaying h d | Err _ => next_attempt n end) s
      else s
  | _ => s
  end.

(** ** The steps *)

Inductive GatewayEvent :=
| TunnelAccepted (h : nat)
| PublicAccepted (p : nat)
| AcceptFailed
| Authenticated (h : nat) (random : option (list Z)) (d : Duplex) (now : Z)
| Offered (h : nat) (now : Z)
| Beat (h : nat) (timely : bool) (now : Z)
| Activated (h : nat) (timely : bool) (now : Z)
| Pass (p : nat)
| Poll (p : nat)
| Assign (p : nat)
| ResponseTimeout (p : nat)
| WaitTimeout (p : nat)
| RelayEnded (p : nat)
| TrackerCleared.

Section gateway.
Context `{HttpLib} `{Blake2bMac}.
Variable token : list Z.

(** A tunnel's task ends: it is not alive, its node no longer counts it, and an
    assignment it did not take is refused with its channel. *)
Definition end_tunnel (h id : nat) (now : Z) (s : GatewayState) : GatewayState :=
  set_tunnel h Over (disconnect id now (tracker s)) (set_alive h false (pool s)) s.

(** The closure that [run_gateway] spawns for an accepted tunnel, in its two parts. *)
Definition on_authenticated (h : nat) (random : option (list Z)) (d : Duplex) (now : Z) (s : GatewayState) : GatewayState :=
  match gateway_authenticate random token d with
  | (Err _, _) => set_tunnel h Over (tracker s) (pool s) s
  | (Ok node, d) =>
      let '(id, t) := connect (name node) (subscription_url node) now (tracker s) in
      set_tunnel h (Counted id d) t (pool s) s
  end.

Definition on_offered (h id : nat) (d : Duplex) (now : Z) (s : GatewayState) : GatewayState :=
  let '(kept, po) := register h (pool s) in
  if (kept : bool) then notify_one (set_tunnel h (Idle id d None) (tracker s) po s)
  else set_tunnel h Over (disconnect id now (tracker s)) po s.

(** The two branches of [manage_idle_tunnel]. *)
Definition on_beat (h id : nat) (d : Duplex) (assigned : option nat) (timely : bool) (now : Z) (s : GatewayState)
    : GatewayState :=
  match command_reply PING PONG timely d with
  | (Ok _, d) => set_tunnel h (Idle id d assigned) (tracker s) (pool s) s
  | (Err e, _) =>
      let s := end_tunnel h id now s in
      match assigned with Some p => answer_assignment p h (Err e) s | None => s end
  end.

Definition on_activated (h id : nat) (d : Duplex) (p : nat) (timely : bool) (now : Z) (s : GatewayState) : GatewayState :=
  let '(activation, d) := command_reply START READY timely d in
  answer_assignment p h (rmap (fun _ => d) activation) (end_tunnel h id now s).

(** A pass of the loop of [TunnelPool::acquire]. *)
Definition on_pass (p n : nat) (s : GatewayState) : GatewayState :=
  match acquire (pool s) with
  | (Some h, po) => set_public p (Picked n h) (set_pool po s)
  | (None, po) => set_public p (Unpolled n) (set_pool po s)
  end.

(** [notified.await], at its first poll. *)
Definition on_poll (p n : nat) (s : GatewayState) : GatewayState :=
  if permit s then set_public p (Looking n) (set_notify false (parked s) s)
  else set_public p (Parked n) (set_notify false (parked s ++ [p]) s).

(** The assignment is sent to the tunnel taken; its channel has room for one and is
    closed when its task has ended. *)
Definition on_assign (p n h : nat) (s : GatewayState) : option GatewayState :=
  match tunnels s !! h with
  | Some (Idle id d None) =>
      Some (set_public p (Awaiting n h) (set_tunnel h (Idle id d (Some p)) (tracker s) (pool s) s))
  | Some (Idle _ _ (Some _)) => None
  | _ => Some (set_public p (next_attempt n) s)
  end.

(** The wait for a tunnel takes too long, wherever it is. *)
Definition on_wait_timeout (p : nat) (c : Public) (s : GatewayState) : option GatewayState :=
  let ended := set_public p (Finished (Err TimedOut)) s in
  match c with
  | Looking _ | Unpolled _ => Some ended
  | Parked _ => Some (set_notify (permit s) (filter (fun q => q ≠ p) (parked s)) ended)
  | Woken _ => Some (notify_one ended)
  | _ => None
  end.

Definition gateway_step (s : GatewayState) (e : GatewayEvent) : option GatewayState :=
  match e with
  | TunnelAccepted h =>
      match accepting s, tunnels s !! h with
      | true, None => Some (set_tunnel h Arriving (tracker s) (pool s) s)
      | _, _ => None
      end
  | PublicAccepted p =>
      match accepting s, publics s !! p with
      | true, None => Some (set_public p (Looking 1) s)
      | _, _ => None
      end
  | AcceptFailed =>
      if accepting s then
        Some {| accepting := false; tracker := tracker s; pool := pool s; tunnels := tunnels s; publics := publics s;
                permit := permit s; parked := parked s |}
      else None
  | Authenticated h random d now =>
      match tunnels s !! h with Some Arriving => Some (on_authenticated h random d now s) | _ => None end
  | Offered h now =>
      match tunnels s !! h with Some (Counted id d) => Some (on_offered h id d now s) | _ => None end
  | Beat h timely now =>
      match tunnels s !! h with Some (Idle id d a) => Some (on_beat h id d a timely now s) | _ => None end
  | Activated h timely now =>
      match tunnels s !! h with Some (Idle id d (Some p)) => Some (on_activated h id d p timely now s) | _ => None end
  | Pass p => match publics s !! p with Some (Looking n) => Some (on_pass p n s) | _ => None end
  | Poll p =>
      match publics s !! p with
      | Some (Unpolled n) => Some (on_poll p n s)
      | Some (Woken n) => Some (set_public p (Looking n) s)
      | _ => None
      end
  | Assign p => match publics s !! p with Some (Picked n h) => on_assign p n h s | _ => None end
  | ResponseTimeout p =>
      match publics s !! p with Some (Awaiting n _) => Some (set_public p (next_attempt n) s) | _ => None end
  | WaitTimeout p => c ← publics s !! p; on_wait_timeout p c s
  | RelayEnded p =>
      match publics s !! p with Some (Relaying _ _) => Some (set_public p (Finished (Ok tt)) s) | _ => None end
  | TrackerCleared =>
      Some {| accepting := accepting s; tracker := clear (tracker s); pool := pool s; tunnels := tunnels s;
              publics := publics s; permit := permit s; parked := parked s |}
  end.

Fixpoint gateway_run (s : GatewayState) (events : list GatewayEvent) : option GatewayState :=
  match events with
  | [] => Some s
  | e :: events => s ← gateway_step s e; gateway_run s events
  end.
End gateway.

(** ** The client's workers *)

(** [client_worker] never returns: it is in a session, or pauses until the next. *)
Inductive Worker := InSession | Pausing (until : Z).

Inductive ClientError := PoolZero | PoolLarge | ClientNode (e : TunnelError) | ClientUrl (e : TunnelError).

(** [run_client] until it waits for its workers. *)
Definition run_client `{HttpLib} (pool_size : Z) (node_name url : str) : result ClientError (list Worker) :=
  ensure (pool_size >? 0) PoolZero;;
  ensure (pool_size <=? 64) PoolLarge;;
  rmap_err ClientNode (validate_node_name node_name);;
  rmap_err ClientUrl (validate_subscription_url url);;
  Ok (replicate (Z.to_nat pool_size) InSession).

(** A session of worker [i] ends, whatever its result, or its pause. *)
Inductive ClientEvent := SessionEnded (i : nat) (r : result TunnelError unit) (now : Z) | PauseOver (i : nat) (now : Z).

Definition RETRY_DELAY : Z := 2.

Definition client_step (ws : list Worker) (e : ClientEvent) : option (list Worker) :=
  match e with
  | SessionEnded i _ now =>
      match ws !! i with Some InSession => Some (<[i := Pausing (now + RETRY_DELAY)]> ws) | _ => None end
  | PauseOver i now =>
      match ws !! i with
      | Some (Pausing until) => if until <=? now then Some (<[i := InSession]> ws) else None
      | _ => None
      end
  end.

Fixpoint client_run (ws : list Worker) (events : list ClientEvent) : option (list Worker) :=
  match events with
  | [] => Some ws
  | e :: events => ws ← client_step ws e; client_run ws events
  end.

(** ** The pool and the public connections *)

Definition holds (c : Public) : option nat :=
  match c with Picked _ h | Awaiting _ h | Relaying h _ => Some h | _ => None end.

(** What the state of a public connection [p] says of the tunnel it holds. *)
Definition public_ok (po : Pool) (ts : gmap nat Tunnel) (p : nat) (c : Public) : Prop :=
  match c with
  | Looking n | Unpolled n | Parked n | Woken n => (n ≤ MAX_ATTEMPTS)%nat
  | Picked n h => (n ≤ MAX_ATTEMPTS)%nat ∧ h ∉ idle po ∧ (ts !! h = Some Over ∨ ∃ id d, ts !! h = Some (Idle id d None))
  | Awaiting n h => (n ≤ MAX_ATTEMPTS)%nat ∧ h ∉ idle po ∧ ∃ id d, ts !! h = Some (Idle id d (Some p))
  | Relaying h _ => h ∉ idle po ∧ ts !! h = Some Over
  | Finished _ => True
  end.

(** A tunnel of the pool waits for an assignment and is alive, or has ended. *)
Definition pooled_ok (po : Pool) (ts : gmap nat Tunnel) (h : nat) : Prop :=
  (is_alive po h = true ∧ ∃ id d, ts !! h = Some (Idle id d None)) ∨ (is_alive po h = false ∧ ts !! h = Some Over).

Record pool_inv (po : Pool) (ts : gmap nat Tunnel) (ps : gmap nat Public) : Prop := {
  pi_length : (length (idle po) ≤ capacity po)%nat;
  pi_nodup : NoDup (idle po);
  pi_pooled : ∀ h, h ∈ idle po → pooled_ok po ts h;
  pi_public : ∀ p c, ps !! p = Some c → public_ok po ts p c;
  pi_inj : ∀ p p' c c' h, ps !! p = Some c → ps !! p' = Some c' → holds c = Some h → holds c' = Some h → p = p';
}.

(** A tunnel that is not in the pool's hands yet. *)
Definition early (t : option Tunnel) : Prop := match t with Some (Idle _ _ _) | Some Over => False | _ => True end.

Lemma next_attempt_ok po ts p n : (n ≤ MAX_ATTEMPTS)%nat → public_ok po ts p (next_attempt n).
Proof. intros Hn. unfold next_attempt. destruct (Nat.leb_spec MAX_ATTEMPTS n); cbn; [done|lia]. Qed.

Lemma holds_next_attempt n : holds (next_attempt n) = None.
Proof. unfold next_attempt. by case_match. Qed.

(** A public connection goes on, with a tunnel that no other one holds. *)
Lemma public_inv po ts ps p c' :
  pool_inv po ts ps → public_ok po ts p c' →
  (∀ h q b, holds c' = Some h → ps !! q = Some b → holds b = Some h → q = p) → pool_inv po ts (<[p := c']> ps).
Proof.
  intros [H1 H2 H3 H4 H5] Hok Hh. split; try done.
  - intros q b [[<- <-]|[_ Hq]]%lookup_insert_Some; [done|by apply H4].
  - intros q q' b b' h [[<- <-]|[Hq Hb]]%lookup_insert_Some [[<- <-]|[Hq' Hb']]%lookup_insert_Some Hh1 Hh2; try done.
    + symmetry. by apply (Hh h q' b').
    + by apply (Hh h q b).
    + by apply (H5 q q' b b' h).
Qed.

Lemma release_inv po ts ps p c' :
  pool_inv po ts ps → public_ok po ts p c' → holds c' = None → pool_inv po ts (<[p := c']> ps).
Proof. intros Hinv Hok Hh. apply public_inv; [done..|]. congruence. Qed.

(** A tunnel that is held by none and not in the pool changes. *)
Lemma tunnel_inv po ts ps h t :
  pool_inv po ts ps → h ∉ idle po → (∀ p c, ps !! p = Some c → holds c ≠ Some h) → pool_inv po (<[h := t]> ts) ps.
Proof.
  intros [H1 H2 H3 H4 H5] Hi Hh. split; try done.
  - intros k Hk. unfold pooled_ok. rewrite lookup_insert_ne by (by intros <-). by apply H3.
  - intros p c Hc. specialize (Hh p c Hc). specialize (H4 p c Hc).
    destruct c; cbn in *; try done; rewrite lookup_insert_ne by congruence; done.
Qed.

Lemma early_free po ts ps h :
  pool_inv po ts ps → early (ts !! h) → h ∉ idle po ∧ ∀ p c, ps !! p = Some c → holds c ≠ Some h.
Proof.
  intros Hinv He. split.
  - intros Hi. destruct (pi_pooled _ _ _ Hinv h Hi) as [(_ & id & d & E)|[_ E]]; by rewrite E in He.
  - intros p c Hc E. pose proof (pi_public _ _ _ Hinv p c Hc) as Hok.
    destruct c; cbn in *; try done; injection E as ->.
    + destruct Hok as (_ & _ & [E|(id & d & E)]); by rewrite E in He.
    + destruct Hok as (_ & _ & id & d & E); by rewrite E in He.
    + destruct Hok as (_ & E); by rewrite E in He.
Qed.

(** The pool drops what is not alive. *)
Lemma retain_inv po ts ps : pool_inv po ts ps → pool_inv (set_idle po (retain po)) ts ps.
Proof.
  intros [H1 H2 H3 H4 H5]. pose proof (retain_sublist po) as Hs.
  assert (Hin : ∀ h, h ∈ retain po → h ∈ idle po) by (intros h Hh; by eapply elem_of_sublist).
  split; cbn [idle set_idle capacity]; try done.
  - pose proof (retain_length po). lia.
  - by eapply sublist_NoDup.
  - intros h Hh%Hin. by apply H3.
  - intros p c Hc. specialize (H4 p c Hc). destruct c; cbn in *; naive_solver.
Qed.

Lemma set_alive_inv po ts ps h b : pool_inv po ts ps → h ∉ idle po → pool_inv (set_alive h b po) ts ps.
Proof.
  intros [H1 H2 H3 H4 H5] Hi. split; cbn [idle set_alive capacity]; try done.
  intros k Hk. specialize (H3 k Hk). unfold pooled_ok, is_alive in *. cbn [alive set_alive].
  by rewrite lookup_insert_ne by (by intros <-).
Qed.

Lemma push_inv po ts ps h id d :
  pool_inv po ts ps → h ∉ idle po → (∀ p c, ps !! p = Some c → holds c ≠ Some h) → is_alive po h = true →
  (length (idle po) < capacity po)%nat → pool_inv (set_idle po (idle po ++ [h])) (<[h := Idle id d None]> ts) ps.
Proof.
  intros Hinv Hi Hh Ha Hl. pose proof (tunnel_inv po ts ps h (Idle id d None) Hinv Hi Hh) as [H1 H2 H3 H4 H5].
  split; cbn [idle set_idle capacity]; try done.
  - rewrite length_app. cbn. lia.
  - apply NoDup_app. split_and!; [done|set_solver|apply NoDup_singleton].
  - intros k [Hk| ->%list_elem_of_singleton]%elem_of_app; [by apply H3|]. left. split; [done|]. rewrite lookup_insert_eq. eauto.
  - intros p c Hc. specialize (H4 p c Hc). specialize (Hh p c Hc). destruct c; cbn in *; try done; set_solver.
Qed.

Lemma register_inv po ts ps h id d :
  pool_inv po ts ps → early (ts !! h) →
  let '(kept, po') := register h po in
  pool_inv po' (<[h := if (kept : bool) then Idle id d None else Over]> ts) ps.
Proof.
  intros Hinv He. destruct (early_free po ts ps h Hinv He) as [Hi Hh]. unfold register.
  set (po1 := set_alive h true po). set (po2 := set_idle po1 (retain po1)).
  assert (H2 : pool_inv po2 ts ps) by (apply retain_inv, set_alive_inv; done).
  assert (Hi2 : h ∉ idle po2) by (intros Hin; by apply Hi, (elem_of_sublist _ _ _ Hin (retain_sublist po1))).
  destruct (Nat.leb_spec (capacity po1) (length (retain po1))); [by apply tunnel_inv|].
  apply (push_inv po2); try done. unfold is_alive. cbn. by rewrite lookup_insert_eq.
Qed.

Lemma acquire_inv po ts ps p n :
  pool_inv po ts ps → ps !! p = Some (Looking n) →
  let '(taken, po') := acquire po in
  pool_inv po' ts (<[p := match taken with Some h => Picked n h | None => Unpolled n end]> ps).
Proof.
  intros Hinv Hp. pose proof (retain_inv po ts ps Hinv) as Hr. pose proof (pi_public _ _ _ Hinv p _ Hp) as Hn. cbn in Hn.
  unfold acquire. destruct (retain po) as [|h rest] eqn:E; [by apply release_inv|].
  assert (Hin : h ∈ h :: rest) by set_solver. pose proof (pi_pooled _ _ _ Hr h Hin) as Hh.
  pose proof (pi_nodup _ _ _ Hr) as [Hno Hnd]%NoDup_cons. apply public_inv.
  - destruct Hr as [H1 H2 H3 H4 H5]. cbn in H1. split; cbn [idle set_idle capacity]; [lia|done| | |done].
    + intros k Hk. apply H3. cbn. set_solver.
    + intros q c Hq. specialize (H4 q c Hq). destruct c; cbn in *; try done; set_solver.
  - cbn. split_and!; [done|done|]. destruct Hh as [(_ & Hh)|[_ Hh]]; auto.
  - intros k q c [= <-] Hc Eh. pose proof (pi_public _ _ _ Hr q c Hc) as Hok. destruct c; cbn in *; try done; set_solver.
Qed.

(** An idle tunnel ends. *)
Lemma end_inv po ts ps h id d a :
  pool_inv po ts ps → ts !! h = Some (Idle id d a) →
  (∀ p n, ps !! p = Some (Awaiting n h) → False) → pool_inv (set_alive h false po) (<[h := Over]> ts) ps.
Proof.
  intros [H1 H2 H3 H4 H5] Hh Hno. split; cbn [idle set_alive capacity]; try done.
  - intros k Hk. destruct (decide (k = h)) as [->|Hne].
    + right. unfold is_alive. cbn. by rewrite !lookup_insert_eq.
    + specialize (H3 k Hk). unfold pooled_ok, is_alive in *. cbn [alive set_alive]. by rewrite !lookup_insert_ne by done.
  - intros p c Hc. pose proof (H4 p c Hc) as Hok. destruct c as [| | | |n k|n k|k|]; cbn in *; try done.
    + destruct (decide (k = h)) as [->|Hne]; [rewrite lookup_insert_eq; naive_solver|].
      by rewrite !lookup_insert_ne by done.
    + destruct (decide (k = h)) as [->|Hne]; [by apply Hno in Hc|]. by rewrite !lookup_insert_ne by done.
    + destruct (decide (k = h)) as [->|Hne]; [naive_solver congruence|]. by rewrite !lookup_insert_ne by done.
Qed.

(** It ends with an answer to the connection it was assigned to. *)
Lemma answered_inv h id d a now response s :
  pool_inv (pool s) (tunnels s) (publics s) → tunnels s !! h = Some (Idle id d a) →
  let s1 := end_tunnel h id now s in
  let s2 := match a with Some p => answer_assignment p h response s1 | None => s1 end in
  pool_inv (pool s2) (tunnels s2) (publics s2).
Proof.
  intros Hinv Hh s1.
  assert (Hwait : ∀ p n, publics s !! p = Some (Awaiting n h) → a = Some p).
  { intros p n Hp. destruct (pi_public _ _ _ Hinv p _ Hp) as (_ & _ & id' & d' & E). congruence. }
  assert (Hquiet : (∀ p n, publics s !! p ≠ Some (Awaiting n h)) → pool_inv (pool s1) (tunnels s1) (publics s1)).
  { intros Hno. eapply end_inv; eauto. }
  destruct a as [p|]; cbn zeta; [|by apply Hquiet; intros p n Hp%Hwait].
  unfold answer_assignment. change (publics s1) with (publics s) in *.
  destruct (publics s !! p) as [c|] eqn:Ep; [|apply Hquiet; intros q n Hq; pose proof (Hwait q n Hq); congruence].
  assert (Hother : (∀ n, c ≠ Awaiting n h) → pool_inv (pool s1) (tunnels s1) (publics s)).
  { intros Hc. apply Hquiet. intros q n Hq. pose proof (Hwait q n Hq) as [= <-]. apply (Hc n). congruence. }
  destruct c as [| | | | |n k| |]; try by apply Hother.
  case_decide as E; [subst k|apply Hother; congruence].
  destruct (pi_public _ _ _ Hinv p _ Ep) as (Hn & Hi & _).
  assert (Hone : ∀ q b, publics s !! q = Some b → holds b = Some h → q = p).
  { intros q b Hq Hb. by apply (pi_inj _ _ _ Hinv q p b (Awaiting n h) h). }
  cbn [set_public pool tunnels publics].
  rewrite <- (insert_insert_eq (publics s) p _ (Finished (Ok tt))). apply public_inv.
  - eapply end_inv; [apply release_inv; [exact Hinv|done|done]|exact Hh|].
    intros q m Hq. apply lookup_insert_Some in Hq as [[_ ?]|[Hne Hq]]; [done|]. by apply Hne; symmetry; apply (Hone q _ Hq).
  - destruct response as [d'|]; [|by apply next_attempt_ok]. cbn. by rewrite lookup_insert_eq.
  - intros k q b Hk Hq Hb. apply lookup_insert_Some in Hq as [[<- <-]|[Hne Hq]]; [done|].
    destruct response; [|by rewrite holds_next_attempt in Hk]. injection Hk as <-. by apply (Hone q b).
Qed.

Lemma notify_inv s :
  pool_inv (pool s) (tunnels s) (publics s) →
  let s' := notify_one s in pool_inv (pool s') (tunnels s') (publics s').
Proof.
  intros Hinv. unfold notify_one. destruct (parked s) as [|p rest]; [done|]. cbn zeta. change (publics (set_notify _ _ s)) with (publics s).
  destruct (publics s !! p) as [[]|] eqn:E; try done. apply release_inv; [done| |done]. by apply (pi_public _ _ _ Hinv p _ E).
Qed.

Section run.
Context `{HttpLib} `{Blake2bMac}.
Variable token : list Z.

(** Unfold a step and rewrite with the state it was taken in. *)
Ltac step_cases Hstep :=
  cbn in Hstep; repeat match type of Hstep with
  | context [match ?x with _ => _ end] => destruct x eqn:?; try done
  end; try (injection Hstep as <-).

Lemma wait_timeout_inv p c s s' :
  pool_inv (pool s) (tunnels s) (publics s) → on_wait_timeout p c s = Some s' →
  pool_inv (pool s') (tunnels s') (publics s').
Proof.
  intros Hinv Hstep. destruct c; try done; injection Hstep as <-; try by apply release_inv.
  apply notify_inv. by apply release_inv.
Qed.

Lemma assign_inv p n h s s' :
  pool_inv (pool s) (tunnels s) (publics s) → publics s !! p = Some (Picked n h) → on_assign p n h s = Some s' →
  pool_inv (pool s') (tunnels s') (publics s').
Proof.
  intros Hinv Hp Hstep. destruct (pi_public _ _ _ Hinv p _ Hp) as (Hn & Hi & _). unfold on_assign in Hstep.
  destruct (tunnels s !! h) as [[| |id d [q|]|]|] eqn:E; try done; injection Hstep as <-; cbn;
    try (apply release_inv; [done|by apply next_attempt_ok|apply holds_next_attempt]).
  assert (Hone : ∀ q b, publics s !! q = Some b → holds b = Some h → q = p).
  { intros q b Hq Hb. by apply (pi_inj _ _ _ Hinv q p b (Picked n h) h). }
  rewrite <- (insert_insert_eq (publics s) p _ (Finished (Ok tt))). apply public_inv.
  - apply tunnel_inv; [by apply release_inv|done|].
    intros q b [[<- <-]|[Hne Hq]]%lookup_insert_Some Hb; [done|]. by apply Hne; symmetry; apply (Hone q b).
  - cbn. rewrite lookup_insert_eq. eauto.
  - intros k q b [= <-] [[<- <-]|[_ Hq]]%lookup_insert_Some Hb; [done|]. by apply (Hone q b).
Qed.

Lemma offered_inv h id d now s :
  pool_inv (pool s) (tunnels s) (publics s) → tunnels s !! h = Some (Counted id d) →
  let s' := on_offered h id d now s in pool_inv (pool s') (tunnels s') (publics s').
Proof.
  intros Hinv Hh. assert (He : early (tunnels s !! h)) by by rewrite Hh.
  pose proof (register_inv (pool s) (tunnels s) (publics s) h id d Hinv He) as Hr. unfold on_offered.
  destruct (register h (pool s)) as [[] po]; [|done]. by apply notify_inv.
Qed.

Lemma beat_inv h id d a timely now s :
  pool_inv (pool s) (tunnels s) (publics s) → tunnels s !! h = Some (Idle id d a) →
  let s' := on_beat h id d a timely now s in pool_inv (pool s') (tunnels s') (publics s').
Proof.
  intros Hinv Hh. unfold on_beat. destruct (command_reply _ _ _ _) as [[u|e] d']; [|by eapply answered_inv].
  destruct Hinv as [H1 H2 H3 H4 H5]. split; cbn; try done.
  - intros k Hk. specialize (H3 k Hk). unfold pooled_ok in *. destruct (decide (k = h)) as [->|]; [|by rewrite lookup_insert_ne].
    rewrite lookup_insert_eq. destruct H3 as [(? & id' & d'' & E)|[? E]]; rewrite Hh in E; [|done]. left. naive_solver.
  - intros p c Hc. specialize (H4 p c Hc). destruct c as [| | | |n k|n k|k|]; cbn in *; try done;
      (destruct (decide (k = h)) as [->|]; [|by rewrite lookup_insert_ne]); rewrite lookup_insert_eq; naive_solver.
Qed.

Lemma gateway_step_pool s e s' :
  gateway_step token s e = Some s' → pool_inv (pool s) (tunnels s) (publics s) →
  pool_inv (pool s') (tunnels s') (publics s').
Proof.
  intros Hstep Hinv. destruct e; step_cases Hstep; try done.
  - assert (He : early (tunnels s !! h)) by by rewrite Heqo. destruct (early_free _ _ _ h Hinv He). by apply tunnel_inv.
  - apply release_inv; [done|cbn; unfold MAX_ATTEMPTS; lia|done].
  - assert (He : early (tunnels s !! h)) by by rewrite Heqo. destruct (early_free _ _ _ h Hinv He) as [Hi Hf].
    unfold on_authenticated. destruct (gateway_authenticate _ _ _) as [[node|] d']; [|by apply tunnel_inv].
    destruct (connect _ _ _ _) as [id tr]. by apply tunnel_inv.
  - by apply offered_inv.
  - by apply beat_inv.
  - unfold on_activated. destruct (command_reply _ _ _ _) as [r d']. by apply (answered_inv h id d (Some n)).
  - pose proof (acquire_inv (pool s) (tunnels s) (publics s) p attempts Hinv Heqo) as Ha. unfold on_pass.
    by destruct (acquire (pool s)) as [[h|] po].
  - pose proof (pi_public _ _ _ Hinv p _ Heqo) as Hn. unfold on_poll. by destruct (permit s); apply release_inv.
  - apply release_inv; [done| |done]. by apply (pi_public _ _ _ Hinv p _ Heqo).
  - by eapply assign_inv.
  - apply release_inv; [done|apply next_attempt_ok; by apply (pi_public _ _ _ Hinv p _ Heqo)|apply holds_next_attempt].
  - apply bind_Some in Hstep as (c & _ & Hstep). by eapply wait_timeout_inv.
  - by apply release_inv.
Qed.

(** *** Attempts *)

(** How often the connection [p] has offered itself to a tunnel it took. *)
Definition attempt (p : nat) (e : GatewayEvent) : nat := match e with Assign q => if decide (q = p) then 1 else 0 | _ => 0 end.

Definition attempts_made (p : nat) (events : list GatewayEvent) : nat := sum_list (attempt p <$> events).

(** What the state of a connection says of the attempts it has made. *)
Definition attempts_ok (k : nat) (c : option Public) : Prop :=
  match c with
  | None => k = 0
  | Some (Looking n | Unpolled n | Parked n | Woken n | Picked n _) => S k = n ∧ n ≤ 8
  | Some (Awaiting n _) => k = n ∧ 1 ≤ n ≤ 8
  | Some (Relaying _ _) => 1 ≤ k ≤ 8
  | Some (Finished r) => k ≤ 8 ∧ (r = Ok tt → 1 ≤ k) ∧ (r = Err NoUsableTunnel → k = 8)
  end%nat.

Lemma attempts_next n : (1 ≤ n ≤ 8)%nat → attempts_ok n (Some (next_attempt n)).
Proof. intros Hn. unfold next_attempt, MAX_ATTEMPTS. destruct (Nat.leb_spec 8 n); cbn; naive_solver lia. Qed.

Lemma attempts_insert p q k c (ps : gmap nat Public) :
  attempts_ok k (ps !! p) → (q = p → attempts_ok k (Some c)) → attempts_ok k (<[q := c]> ps !! p).
Proof. intros Hp Hc. destruct (decide (q = p)) as [->|]; [rewrite lookup_insert_eq; auto|by rewrite lookup_insert_ne]. Qed.

Lemma notify_attempts p k s : attempts_ok k (publics s !! p) → attempts_ok k (publics (notify_one s) !! p).
Proof.
  intros Hp. unfold notify_one. destruct (parked s) as [|q rest]; [done|]. cbn zeta.
  change (publics (set_notify _ _ s)) with (publics s).
  destruct (publics s !! q) as [[]|] eqn:E; try done. apply attempts_insert; [done|]. intros <-. by rewrite E in Hp.
Qed.

Lemma answer_attempts p q h r k s :
  attempts_ok k (publics s !! p) → attempts_ok k (publics (answer_assignment q h r s) !! p).
Proof.
  intros Hp. unfold answer_assignment. destruct (publics s !! q) as [[]|] eqn:E; try done. case_decide; [subst|done].
  apply attempts_insert; [done|]. intros <-. rewrite E in Hp. cbn in Hp. destruct Hp as [-> H8].
  destruct r; [cbn; lia|by apply attempts_next].
Qed.

(** A step of the gateway makes the attempt it stands for, and no other. *)
Lemma gateway_step_attempts p k s e s' :
  gateway_step token s e = Some s' → attempts_ok k (publics s !! p) → attempts_ok (k + attempt p e) (publics s' !! p).
Proof.
  intros Hstep Hp. destruct e; cbn [attempt]; rewrite ?Nat.add_0_r; step_cases Hstep; try done.
  - apply attempts_insert; [done|]. intros <-. rewrite Heqo in Hp. cbn in *. lia.
  - unfold on_authenticated. destruct (gateway_authenticate _ _ _) as [[node|] d']; [|done]. by destruct (connect _ _ _ _).
  - unfold on_offered. destruct (register h (pool s)) as [[] po]; [by apply notify_attempts|done].
  - unfold on_beat. destruct (command_reply _ _ _ _) as [[u|er] d']; [done|].
    destruct assigned as [q|]; [by apply answer_attempts|done].
  - unfold on_activated. destruct (command_reply _ _ _ _) as [r d']. by apply answer_attempts.
  - unfold on_pass. destruct (acquire (pool s)) as [[h|] po]; apply attempts_insert; try done; intros <-; by rewrite Heqo in Hp.
  - unfold on_poll. destruct (permit s); apply attempts_insert; try done; intros <-; by rewrite Heqo in Hp.
  - apply attempts_insert; [done|]. intros <-. by rewrite Heqo in Hp.
  - unfold on_assign in Hstep. case_decide as E.
    + subst p0. rewrite Heqo in Hp. destruct Hp as [<- Hk]. rewrite Nat.add_1_r.
      step_cases Hstep; cbn; rewrite lookup_insert_eq; first [apply attempts_next; lia|cbn; lia].
    + rewrite Nat.add_0_r. step_cases Hstep; cbn; by rewrite lookup_insert_ne.
  - apply attempts_insert; [done|]. intros <-. rewrite Heqo in Hp. cbn in Hp. destruct Hp as [-> ?]. by apply attempts_next.
  - apply bind_Some in Hstep as (c & Ec & Hstep). unfold on_wait_timeout in Hstep.
    assert (Hout : attempts_ok k (publics s !! p0) → attempts_ok k (Some (Finished (Err TimedOut)))).
    { rewrite Ec. destruct c; try done; cbn; naive_solver lia. }
    step_cases Hstep; try apply notify_attempts; apply attempts_insert; try done; intros <-; by apply Hout.
  - apply attempts_insert; [done|]. intros <-. rewrite Heqo in Hp. cbn in *. naive_solver lia.
Qed.

(** *** The tracker and the tunnels *)

(** The record a tunnel's task counts in. *)
Definition tunnel_conn (t : Tunnel) : option nat := match t with Counted id _ | Idle id _ _ => Some id | _ => None end.

Definition conns (s : GatewayState) : gmap nat nat := omap tunnel_conn (tunnels s).

(** What a step does to the tracker. *)
Definition tracker_event (s : GatewayState) (e : GatewayEvent) : list TrackerEvent :=
  match e with
  | Authenticated h random d now =>
      match (gateway_authenticate random token d).1 with
      | Ok node => [Opened h (name node) (subscription_url node) now]
      | Err _ => []
      end
  | Offered h now => if (register h (pool s)).1 then [] else [Shut h now]
  | Beat h timely now =>
      match tunnels s !! h with
      | Some (Idle _ d _) => if is_ok (command_reply PING PONG timely d).1 then [] else [Shut h now]
      | _ => []
      end
  | Activated h _ now => [Shut h now]
  | TrackerCleared => [Cleared]
  | _ => []
  end.

Fixpoint tracker_events (s : GatewayState) (events : list GatewayEvent) : list TrackerEvent :=
  match events with
  | [] => []
  | e :: events =>
      tracker_event s e ++ match gateway_step token s e with Some s' => tracker_events s' events | None => [] end
  end.

Lemma conns_insert (h : nat) t (ts : gmap nat Tunnel) :
  omap tunnel_conn (<[h := t]> ts) =
  match tunnel_conn t with Some id => <[h := id]> (omap tunnel_conn ts) | None => delete h (omap tunnel_conn ts) end
  :> gmap nat nat.
Proof. rewrite omap_insert. destruct (tunnel_conn t); by rewrite ?omap_delete. Qed.

Lemma conns_lookup s h : conns s !! h = tunnels s !! h ≫= tunnel_conn.
Proof. apply lookup_omap. Qed.

Lemma notify_tunnels s :
  tracker (notify_one s) = tracker s ∧ tunnels (notify_one s) = tunnels s ∧ pool (notify_one s) = pool s.
Proof. unfold notify_one. destruct (parked s); [done|]. by repeat case_match. Qed.

Lemma answer_tunnels p h r s :
  tracker (answer_assignment p h r s) = tracker s ∧ tunnels (answer_assignment p h r s) = tunnels s ∧
  pool (answer_assignment p h r s) = pool s.
Proof. unfold answer_assignment. by repeat case_match. Qed.

(** A step of the gateway is the steps of the tracker it stands for. *)
Lemma gateway_step_tracker s e s' :
  gateway_step token s e = Some s' →
  (tracker s', conns s') = foldl tracker_step (tracker s, conns s) (tracker_event s e).
Proof.
  intros Hstep. destruct e; cbn [tracker_event]; step_cases Hstep; try done; unfold conns; cbn [foldl].
  - cbn. rewrite conns_insert. cbn. by rewrite delete_id by by rewrite lookup_omap, Heqo.
  - unfold on_authenticated. destruct (gateway_authenticate _ _ _) as [[node|] d']; cbn [fst].
    + cbn. destruct (connect _ _ _ _) as [id tr]. cbn. by rewrite conns_insert.
    + cbn. rewrite conns_insert. cbn. by rewrite delete_id by by rewrite lookup_omap, Heqo.
  - unfold on_offered. destruct (register h (pool s)) as [[] po]; cbn [fst].
    + match goal with |- context [notify_one ?x] => destruct (notify_tunnels x) as (-> & -> & _) end. cbn.
      rewrite conns_insert. cbn. by rewrite insert_id by by rewrite lookup_omap, Heqo.
    + cbn. rewrite conns_insert, lookup_omap, Heqo. done.
  - unfold on_beat. destruct (command_reply _ _ _ _) as [[u|er] d']; cbn [fst is_ok].
    + cbn. rewrite conns_insert. cbn. by rewrite insert_id by by rewrite lookup_omap, Heqo.
    + assert (E : ∀ x, x = end_tunnel h id now s →
        tracker (match assigned with Some p => answer_assignment p h (Err er) x | None => x end) = tracker x ∧
        tunnels (match assigned with Some p => answer_assignment p h (Err er) x | None => x end) = tunnels x).
      { intros x _. destruct assigned; [|done]. by edestruct answer_tunnels as (? & ? & _). }
      destruct (E _ eq_refl) as [-> ->]. cbn. rewrite conns_insert, lookup_omap, Heqo. done.
  - unfold on_activated. destruct (command_reply _ _ _ _) as [r d'].
    match goal with |- context [answer_assignment ?p ?h ?r ?x] => destruct (answer_tunnels p h r x) as (-> & -> & _) end.
    cbn. rewrite conns_insert, lookup_omap, Heqo. done.
  - unfold on_pass. by destruct (acquire (pool s)) as [[]].
  - unfold on_poll. by destruct (permit s).
  - unfold on_assign in Hstep. step_cases Hstep; try done. cbn. rewrite conns_insert. cbn.
    by rewrite insert_id by by rewrite lookup_omap, Heqo0.
  - apply bind_Some in Hstep as (c & _ & Hstep). unfold on_wait_timeout in Hstep. step_cases Hstep; try done.
    match goal with |- context [notify_one ?x] => destruct (notify_tunnels x) as (-> & -> & _) end. done.
Qed.

(** *** Where tunnels come from *)

Definition held (ps : gmap nat Public) (h : nat) : Prop := ∃ p c, ps !! p = Some c ∧ holds c = Some h.

(** A tunnel the gateway counts, keeps or uses. *)
Definition known (s : GatewayState) (h : nat) : Prop := is_Some (conns s !! h) ∨ h ∈ idle (pool s) ∨ held (publics s) h.

Lemma held_insert ps p c h : held (<[p := c]> ps) h → holds c = Some h ∨ held ps h.
Proof. intros (q & b & [[<- <-]|[_ Hq]]%lookup_insert_Some & Hb); [by left|right]. by exists q, b. Qed.

Lemma held_release ps p c h : holds c = None → held (<[p := c]> ps) h → held ps h.
Proof. intros Hc [?|?]%held_insert; [congruence|done]. Qed.

Lemma notify_known s h : known (notify_one s) h → known s h.
Proof.
  unfold notify_one. destruct (parked s) as [|p rest]; [done|]. cbn zeta. repeat case_match; try done.
  intros [?|[?|?%held_release]]; [by left|right; by left| |done]. right. by right.
Qed.

Lemma answer_known p k r s h : known (answer_assignment p k r s) h → known s h.
Proof.
  unfold answer_assignment. destruct (publics s !! p) as [[]|] eqn:E; try done. case_decide; [subst|done].
  intros [?|[?|Hh]]; [by left|right; by left|]. right. right. apply held_insert in Hh as [Hh|?]; [|done].
  destruct r; [|by rewrite holds_next_attempt in Hh]. injection Hh as <-. by exists p, (Awaiting attempts k).
Qed.

Lemma insert_known k t tr po s h :
  (∀ x, x ∈ idle po → x ∈ idle (pool s) ∨ x = k) → tunnel_conn t = None ∨ known s k →
  (k ∈ idle po → known s k) → known (set_tunnel k t tr po s) h → known s h.
Proof.
  intros Hi Ht Hk [Hc|[Hin|Hh]].
  - unfold conns in Hc. cbn in Hc. rewrite lookup_omap in Hc. destruct (decide (h = k)) as [->|Hne].
    + rewrite lookup_insert_eq in Hc. cbn in Hc. destruct Ht as [E|?]; [|done]. rewrite E in Hc. by destruct Hc.
    + rewrite lookup_insert_ne in Hc by done. left. unfold conns. by rewrite lookup_omap.
  - cbn in Hin. destruct (Hi h Hin) as [?| ->]; [right; by left|by apply Hk].
  - right. by right.
Qed.

Lemma end_known k id now s h : known s k → known (end_tunnel k id now s) h → known s h.
Proof. intros Hk. apply insert_known; [by left|by right|done]. Qed.

Lemma register_idle h po x : x ∈ idle (register h po).2 → x ∈ idle po ∨ x = h.
Proof.
  unfold register. set (po1 := set_alive h true po).
  assert (Hs : x ∈ retain po1 → x ∈ idle po) by (intros Hx; exact (elem_of_sublist _ _ _ Hx (retain_sublist po1))).
  case_match; cbn; [by left; apply Hs|]. intros [?| ->%list_elem_of_singleton]%elem_of_app; auto.
Qed.

Lemma tunnel_known s h t : tunnels s !! h = Some t → is_Some (tunnel_conn t) → known s h.
Proof. intros Ht Hc. left. by rewrite conns_lookup, Ht. Qed.

(** A tunnel becomes known by its handshake. *)
Lemma gateway_step_known s e s' h :
  gateway_step token s e = Some s' → known s' h →
  known s h ∨ ∃ random d now node d', e = Authenticated h random d now ∧ gateway_authenticate random token d = (Ok node, d').
Proof.
  intros Hstep Hk. destruct e; step_cases Hstep; try (by left).
  all: try (left; destruct Hk as [?|[?|Hh]]; [by left|right; by left|right; right];
    first [exact Hh | by apply held_release in Hh | by apply held_release in Hh; [|apply holds_next_attempt]]).
  - left. eapply insert_known; eauto; [naive_solver|]. by intros; right; left.
  - unfold on_authenticated in Hk. destruct (gateway_authenticate random token d) as [[node|] d'] eqn:Ea.
    + destruct (connect _ _ _ _) as [id tr]. destruct (decide (h0 = h)) as [->|Hne]; [right; naive_solver|left].
      destruct Hk as [Hc|[?|?]]; [|right; by left|right; by right]. left. unfold conns in *. cbn in Hc.
      by rewrite lookup_omap, lookup_insert_ne in Hc by done; rewrite lookup_omap.
    + left. eapply insert_known; eauto; [naive_solver|]. by intros; right; left.
  - left. assert (Hh : known s h0) by (eapply tunnel_known; eauto; by eexists). unfold on_offered in Hk.
    pose proof (fun x => register_idle h0 (pool s) x) as Hi. destruct (register h0 (pool s)) as [[] po].
    + apply notify_known in Hk. eapply insert_known; eauto.
    + eapply insert_known; eauto.
  - left. assert (Hh : known s h0) by (eapply tunnel_known; eauto; by eexists). unfold on_beat in Hk.
    destruct (command_reply _ _ _ _) as [[u|er] d']; [eapply insert_known; eauto; naive_solver|].
    destruct assigned as [p|]; [apply answer_known in Hk|]; by eapply end_known.
  - left. assert (Hh : known s h0) by (eapply tunnel_known; eauto; by eexists). unfold on_activated in Hk.
    destruct (command_reply _ _ _ _) as [r d']. apply answer_known in Hk. by eapply end_known.
  - left. unfold on_pass, acquire in Hk. assert (Hi : ∀ x, x ∈ retain (pool s) → x ∈ idle (pool s)) by (intros x Hx; exact (elem_of_sublist _ _ _ Hx (retain_sublist _))).
    destruct (retain (pool s)) as [|k rest]; cbn in Hk; destruct Hk as [?|[?|Hh]]; try (by left); try (by right; left; apply Hi; set_solver).
    + right. right. by apply held_release in Hh.
    + apply held_insert in Hh as [[= <-]|?]; [right; left; apply Hi; set_solver|right; by right].
  - left. unfold on_poll in Hk. destruct (permit s); destruct Hk as [?|[?|Hh%held_release]]; try done; first [by left|by right; left|by right; right].
  - left. unfold on_assign in Hstep. assert (Hh : held (publics s) h0) by by exists p, (Picked attempts h0).
    step_cases Hstep; try (destruct Hk as [?|[?|Hh']]; [by left|right; by left|right; right]; by apply held_release in Hh'; [|apply holds_next_attempt]).
    destruct Hk as [Hc|[?|Hh']]; [|right; by left|]; [|right; right; apply held_insert in Hh' as [[= <-]|?]; done].
    eapply (insert_known h0 (Idle id d (Some p)) (tracker s) (pool s)); [naive_solver|right; right; by right|intros _; right; by right|by left].
  - left. apply bind_Some in Hstep as (c & _ & Hstep). unfold on_wait_timeout in Hstep. step_cases Hstep.
    all: try apply notify_known in Hk; destruct Hk as [?|[?|Hh%held_release]]; try done; first [by left|by right; left|by right; right].
Qed.

(** *** Runs *)

(** The tunnel proved, in its handshake, that it has the token. *)
Definition authentic (events : list GatewayEvent) (h : nat) (node : AuthenticatedNode) : Prop :=
  ∃ random d now d', Authenticated h random d now ∈ events ∧ gateway_authenticate random token d = (Ok node, d').

Lemma gateway_run_snoc s events e :
  gateway_run token s (events ++ [e]) = gateway_run token s events ≫= fun s => gateway_step token s e.
Proof.
  revert s. induction events as [|e' events IH]; intros s; cbn [app gateway_run].
  - cbn. by destruct (gateway_step token s e).
  - destruct (gateway_step token s e'); cbn; [apply IH|done].
Qed.

Lemma tracker_events_snoc s events e s' :
  gateway_run token s events = Some s' → tracker_events s (events ++ [e]) = tracker_events s events ++ tracker_event s' e.
Proof.
  revert s. induction events as [|e' events IH]; cbn [app gateway_run tracker_events]; intros s Hr.
  - injection Hr as <-. destruct (gateway_step token s e); by rewrite app_nil_r.
  - apply bind_Some in Hr as (s1 & Hs1 & Hr). rewrite Hs1. by rewrite (IH s1 Hr), app_assoc.
Qed.

Variables (queue_capacity : Z) (s0 : GatewayState).
Hypothesis started : run_gateway queue_capacity true true tracker_default = Ok s0.

Abbreviation attached events := (foldl attached_step ∅ (tracker_events s0 events)).

Record gateway_inv (events : list GatewayEvent) (s : GatewayState) : Prop := {
  gi_pool : pool_inv (pool s) (tunnels s) (publics s);
  gi_capacity : capacity (pool s) = Z.to_nat queue_capacity;
  gi_tracker : tracker_inv (tracker s) (conns s) (attached events);
  gi_attempts : ∀ p, attempts_ok (attempts_made p events) (publics s !! p);
  gi_size : (size (tunnels s) ≤ length events)%nat;
  gi_known : ∀ h, known s h → ∃ node, authentic events h node;
  gi_attached : ∀ h n, attached events !! h = Some n → ∃ node, authentic events h node ∧ name node = n;
}.

Lemma started_inv : gateway_inv [] s0.
Proof.
  pose proof started as Hs. unfold run_gateway in Hs. res_inv.
  match goal with E : _ = s0 |- _ => rewrite <- E end. split; cbn; try done.
  - split; cbn; try done; first [lia|apply NoDup_nil_2|set_solver].
  - unfold conns. cbn. rewrite omap_empty. apply tracker_inv_default.
  - intros h [Hc|[Hi|(p & c & Hp & _)]]; [|by apply not_elem_of_nil in Hi|done].
    unfold conns in Hc. cbn in Hc. rewrite omap_empty, lookup_empty in Hc. by destruct Hc.
Qed.

Lemma conns_size s : (size (conns s) ≤ size (tunnels s))%nat.
Proof.
  rewrite <- !(size_dom (D := gset nat)). apply subseteq_size. intros h [id Hh]%elem_of_dom.
  rewrite conns_lookup in Hh. apply elem_of_dom. by apply bind_Some in Hh as (t & -> & _).
Qed.

(** The fields a step keeps or enlarges by one. *)
Lemma step_sizes s e s' :
  gateway_step token s e = Some s' → capacity (pool s') = capacity (pool s) ∧ (size (tunnels s') ≤ S (size (tunnels s)))%nat.
Proof.
  assert (Hins : ∀ h (t : Tunnel) (m : gmap nat Tunnel), (size (<[h := t]> m) ≤ S (size m))%nat).
  { intros h t m. rewrite map_size_insert. destruct (m !! h); cbn; lia. }
  intros Hstep. destruct e; step_cases Hstep; cbn; try (split; [done|]; first [lia|apply Hins]).
  - unfold on_authenticated. destruct (gateway_authenticate _ _ _) as [[node|] d']; [destruct (connect _ _ _ _)|]; (split; [done|apply Hins]).
  - unfold on_offered. pose proof (register_capacity h (pool s)) as Hc. destruct (register h (pool s)) as [[] po].
    + match goal with |- context [notify_one ?x] => destruct (notify_tunnels x) as (_ & -> & ->) end. split; [done|apply Hins].
    + split; [done|apply Hins].
  - unfold on_beat. destruct (command_reply _ _ _ _) as [[] d']; [split; [done|apply Hins]|]. cbn zeta.
    destruct assigned as [q|]; [|split; [done|apply Hins]].
    match goal with |- context [answer_assignment q h ?r ?x] => destruct (answer_tunnels q h r x) as (_ & -> & ->) end.
    split; [done|apply Hins].
  - unfold on_activated. destruct (command_reply _ _ _ _) as [r d'].
    match goal with |- context [answer_assignment ?q h ?r ?x] => destruct (answer_tunnels q h r x) as (_ & -> & ->) end.
    split; [done|apply Hins].
  - unfold on_pass, acquire. destruct (retain (pool s)); cbn; (split; [done|lia]).
  - unfold on_poll. destruct (permit s); cbn; (split; [done|lia]).
  - unfold on_assign in Hstep. step_cases Hstep; cbn; (split; [done|]; first [lia|apply Hins]).
  - apply bind_Some in Hstep as (c & _ & Hstep). unfold on_wait_timeout in Hstep. step_cases Hstep; cbn; try (split; [done|lia]).
    match goal with |- context [notify_one ?x] => destruct (notify_tunnels x) as (_ & -> & ->) end. cbn. split; [done|lia].
Qed.

(** Only a tunnel not known so far is opened in the tracker, by its handshake. *)
Lemma opened_event s e s' h n url now :
  gateway_step token s e = Some s' → Opened h n url now ∈ tracker_event s e →
  tracker_event s e = [Opened h n url now] ∧ conns s !! h = None ∧
  ∃ random d d' node, e = Authenticated h random d now ∧ gateway_authenticate random token d = (Ok node, d') ∧ name node = n.
Proof.
  intros Hstep Hin. destruct e; cbn [tracker_event] in *; try (repeat case_match; set_solver).
  cbn in Hstep. destruct (tunnels s !! h0) as [[]|] eqn:Et; try done.
  destruct (gateway_authenticate random token d) as [[node|] d'] eqn:Ea; cbn [fst] in *; [|set_solver].
  apply list_elem_of_singleton in Hin. injection Hin as -> -> -> ->. split_and!; [done|by rewrite conns_lookup, Et|].
  by exists random, d, d', node.
Qed.

Lemma gateway_step_tracker_inv s e s' m :
  gateway_step token s e = Some s' → tracker_inv (tracker s) (conns s) m → Z.of_nat (size (conns s)) + 1 < 2 ^ 64 →
  tracker_inv (tracker s') (conns s') (foldl attached_step m (tracker_event s e)).
Proof.
  intros Hstep Ht Hsize. pose proof (gateway_step_tracker s e s' Hstep) as Hp.
  assert (Hlen : (length (tracker_event s e) ≤ 1)%nat) by (destruct e; cbn; try lia; by repeat case_match; cbn; lia).
  assert (Hop : ∀ h n url now, Opened h n url now ∈ tracker_event s e → conns s !! h = None).
  { intros h n url now Hin. by apply (opened_event s e s' h n url now Hstep). }
  pose proof (tracker_run_inv (tracker_event s e) _ _ _ (elements (dom (conns s))) Ht) as Hr. rewrite <- Hp in Hr.
  apply Hr.
  - intros c Hc. by apply elem_of_elements, elem_of_dom.
  - destruct (tracker_event s e) as [|[c n url now|c now|] [|]]; cbn in *; try lia; rewrite ?app_nil_r; try apply NoDup_elements.
    apply NoDup_app. split_and!; [apply NoDup_elements| |apply NoDup_singleton].
    intros x Hx%elem_of_elements%elem_of_dom ->%list_elem_of_singleton. rewrite (Hop c n url now) in Hx by set_solver. by destruct Hx.
  - unfold len. lia.
Qed.

Lemma gateway_run_inv events s :
  gateway_run token s0 events = Some s → len events < 2 ^ 64 → gateway_inv events s.
Proof.
  revert s. induction events as [|e events IH] using rev_ind; intros s Hr Hlen.
  { injection Hr as <-. apply started_inv. }
  rewrite gateway_run_snoc in Hr. apply bind_Some in Hr as (s1 & Hr & Hstep).
  rewrite len_app in Hlen. change (len [e]) with 1 in Hlen.
  destruct (IH s1 Hr ltac:(lia)) as [H1 H2 H3 Hatt H4 H5 H6]. destruct (step_sizes s1 e s Hstep) as [Hcap Hsz].
  assert (Hmono : ∀ h node, authentic events h node → authentic (events ++ [e]) h node).
  { intros h node (r & d & now & d' & Hin & Ha). exists r, d, now, d'. split; [by apply elem_of_app; left|done]. }
  assert (Hnew : ∀ h r d now node d', e = Authenticated h r d now → gateway_authenticate r token d = (Ok node, d') →
    authentic (events ++ [e]) h node).
  { intros h r d now node d' -> Ha. exists r, d, now, d'. split; [|done]. apply elem_of_app. right. set_solver. }
  split.
  - by eapply gateway_step_pool.
  - by rewrite Hcap.
  - rewrite (tracker_events_snoc _ _ _ s1 Hr), foldl_app. eapply gateway_step_tracker_inv; eauto.
    pose proof (conns_size s1). unfold len in Hlen. lia.
  - intros p. unfold attempts_made. rewrite fmap_app, sum_list_with_app. cbn. rewrite Nat.add_0_r.
    exact (gateway_step_attempts p _ s1 e s Hstep (Hatt p)).
  - rewrite length_app. cbn. lia.
  - intros h Hk. destruct (gateway_step_known s1 e s h Hstep Hk) as [Hk1|(r & d & now & node & d' & -> & Ha)]; [|by eauto].
    destruct (H5 h Hk1) as [node ?]. eauto.
  - intros h n Hat. rewrite (tracker_events_snoc _ _ _ s1 Hr), foldl_app in Hat.
    assert (Hev : ∀ x m, (foldl attached_step m (tracker_event s1 e)) !! x = Some n → m !! x = Some n ∨
      ∃ url now, Opened x n url now ∈ tracker_event s1 e).
    { intros x m. generalize (tracker_event s1 e) as l. intros l. revert m. induction l as [|ev l IHl]; cbn; intros m Hm; [by left|].
      apply IHl in Hm as [Hm|(url & now & ?)]; [|right; set_solver]. destruct ev; cbn in Hm.
      - apply lookup_insert_Some in Hm as [[-> ->]|[_ ?]]; [right; set_solver|by left].
      - apply lookup_delete_Some in Hm as [_ ?]. by left.
      - by rewrite lookup_empty in Hm. }
    destruct (Hev h _ Hat) as [Hold|(url & now & Hin)]; [destruct (H6 h n Hold) as (node & ? & ?); eauto|].
    destruct (opened_event s1 e s h n url now Hstep Hin) as (_ & _ & r & d & d' & node & -> & Ha & <-). eauto.
Qed.

(** Claim C10. A gateway started with a capacity of 1 to 1024, over any interleaving of its tasks: the pool stays within
    the capacity and holds only tunnels that proved to have the token; a public
    connection relays over such a tunnel, which is out of the pool, whose task has
    ended and which no other public connection has; in any run a public connection is
    offered to at most eight tunnels, it relays only after it was offered to one, and
    it is refused for want of a usable tunnel only after eight offers; and in the list of nodes each entry counts exactly the
    tunnels that authenticated under its name and still wait for a connection, since
    the tracker was last cleared. *)
Theorem gateway_run_spec `{HashIter} events s :
  gateway_run token s0 events = Some s → len events < 2 ^ 64 →
  (length (idle (pool s)) ≤ Z.to_nat queue_capacity ≤ 1024)%nat ∧
  (∀ h, h ∈ idle (pool s) → ∃ node, authentic events h node) ∧
  (∀ p h d, publics s !! p = Some (Relaying h d) →
     (∃ node, authentic events h node) ∧ h ∉ idle (pool s) ∧ tunnels s !! h = Some Over ∧
     ∀ q c, publics s !! q = Some c → holds c = Some h → q = p) ∧
  (∀ p, (attempts_made p events ≤ 8)%nat ∧
     (∀ h d, publics s !! p = Some (Relaying h d) → (1 ≤ attempts_made p events)%nat) ∧
     (publics s !! p = Some (Finished (Err NoUsableTunnel)) → attempts_made p events = 8%nat)) ∧
  (∀ st, st ∈ snapshot (tracker s) → status_tunnels st = count (status_name st) (attached events)) ∧
  ∀ h n, attached events !! h = Some n →
    (∃ node, authentic events h node ∧ name node = n) ∧ ∃ t, tunnels s !! h = Some t ∧ is_Some (tunnel_conn t).
Proof.
  intros Hr Hlen. destruct (gateway_run_inv events s Hr Hlen) as [Hp Hc Ht Hat _ Hk Ha].
  assert (Hcap : (Z.to_nat queue_capacity ≤ 1024)%nat).
  { pose proof started as Hs. unfold run_gateway in Hs. res_inv. lia. }
  pose proof (pi_public _ _ _ Hp) as Hpub. split_and!.
  - rewrite <- Hc. apply Hp.
  - done.
  - intros h Hh. apply Hk. right. by left.
  - intros p h d Hpd. destruct (Hpub p _ Hpd) as [Hi Ho]. split_and!; [|done|done|].
    + apply Hk. right. right. by exists p, (Relaying h d).
    + intros q c Hq Hh. by apply (pi_inj _ _ _ Hp q p c (Relaying h d) h).
  - intros p. pose proof (Hat p) as Hm. split_and!.
    + destruct (publics s !! p) as [[]|]; cbn in Hm; lia.
    + intros h d E. rewrite E in Hm. apply Hm.
    + intros E. rewrite E in Hm. by apply Hm.
  - intros st Hst. by eapply snapshot_counts.
  - intros h n Hn. split; [by apply Ha|]. destruct (proj1 (inv_attached _ _ _ Ht h n) Hn) as (id & Hid & _).
    rewrite conns_lookup in Hid. apply bind_Some in Hid as (t & Et & Hid). exists t. split; [done|]. by exists id.
Qed.
End run.

(** The client is refused exactly when its pool is not of 1 to 64 tunnels or its name
    or address is not valid; otherwise, whatever ends its sessions, it keeps a worker
    for each tunnel, and every worker is in a session or has one to begin as soon as
    its pause, of two seconds, is over. *)
Lemma client_keeps_workers `{HttpLib} pool_size n u :
  match run_client pool_size n u with
  | Err _ => ¬ (1 ≤ pool_size ≤ 64 ∧ is_ok (validate_node_name n) = true ∧ is_ok (validate_subscription_url u) = true)
  | Ok ws => ∀ events ws', client_run ws events = Some ws' →
      length ws' = Z.to_nat pool_size ∧
      ∀ i, (i < Z.to_nat pool_size)%nat → ∃ w, ws' !! i = Some w ∧
        match w with
        | InSession => ∀ r now, client_step ws' (SessionEnded i r now) = Some (<[i := Pausing (now + 2)]> ws')
        | Pausing until => ∀ now, until ≤ now → client_step ws' (PauseOver i now) = Some (<[i := InSession]> ws')
        end
  end.
Proof.
  destruct (run_client pool_size n u) as [ws|e] eqn:Er; unfold run_client in Er.
  - res_inv. subst. intros events ws' Hr.
    assert (Hlen : length ws' = Z.to_nat pool_size).
    { rewrite <- (length_replicate (Z.to_nat pool_size) InSession). revert Hr. generalize (replicate (Z.to_nat pool_size) InSession).
      induction events as [|e events IH]; cbn; intros l Hr; [by injection Hr as <-|].
      apply bind_Some in Hr as (l1 & Hs & Hr). rewrite (IH l1 Hr). destruct e; cbn in Hs; repeat case_match; try done;
        injection Hs as <-; apply length_insert. }
    split; [done|]. intros i Hi. destruct (lookup_lt_is_Some_2 ws' i) as [w Hw]; [lia|]. exists w. split; [done|].
    destruct w as [|until]; cbn; rewrite Hw; [done|]. intros now Hn. by rewrite (proj2 (Z.leb_le _ _) Hn).
  - intros (Hp & Hn & Hu). apply is_ok_iff in Hn as ([] & Hn), Hu as ([] & Hu).
    rewrite Hn, Hu in Er. cbn in Er. destruct (Z.gtb_spec pool_size 0), (Z.leb_spec pool_size 64); try lia. done.
Qed.

(** ** Examples *)

Section examples.

Definition run_mac : Blake2bMac := example_blake2b.

(** A tunnel that answers the greeting, and then the bytes [replies]. *)
Definition example_tunnel (replies : list Z) : Duplex :=
  {| input := [example_answer; replies]; output := []; budget := None |}.

Definition arrive (h : nat) (replies : list Z) (now : Z) : list GatewayEvent :=
  [TunnelAccepted h; Authenticated h (Some example_challenge) (example_tunnel replies) now; Offered h now].

Definition example_run (capacity : Z) (events : list GatewayEvent) : option GatewayState :=
  match run_gateway capacity true true tracker_default with
  | Ok s => gateway_run (H := example_http) (H0 := run_mac) example_token s events
  | Err _ => None
  end.

(** Two tunnels; the second is used by a connection that first got the one whose
    heartbeat failed. *)
Definition example_gateway : list GatewayEvent :=
  arrive 1 [0] 10 ++ arrive 2 [PONG; READY] 11 ++
  [PublicAccepted 7; Pass 7; Assign 7; Beat 1 true 20; Pass 7; Beat 2 true 21; Assign 7; Activated 2 true 22]%nat.

(** Two connections find the pool empty, and two tunnels come before either waits: one
    notification is kept for both, and one connection waits beside an idle tunnel. *)
Definition example_lost : list GatewayEvent :=
  [PublicAccepted 7; PublicAccepted 8; Pass 7; Pass 8]%nat ++ arrive 1 [] 10 ++ arrive 2 [] 11 ++ [Poll 7; Pass 7; Poll 8]%nat.
End examples.

Example lost_wakeup :
  ∃ s, example_run 2 example_lost = Some s ∧ publics s !! 8%nat = Some (Parked 1) ∧ permit s = false ∧
    (acquire (pool s)).1 = Some 2%nat.
Proof. eexists. split_and!; by vm_compute. Qed.

(** A node whose tunnel carries a connection is listed as offline. *)
Example busy_node_offline :
  let _ := hash_iter_sorted in
  ∃ s d, example_run 2 example_gateway = Some s ∧ publics s !! 7%nat = Some (Relaying 2 d) ∧
    (fun st => (status_name st, online st, status_tunnels st)) <$> snapshot (tracker s) = [(example_node, false, 0)].
Proof. eexists _, _. split_and!; by vm_compute. Qed.

Lemma gateway_run_spec_witness :
  let _ := hash_iter_sorted in
  ∃ s, example_run 2 example_gateway = Some s ∧
    (∃ d, publics s !! 7%nat = Some (Relaying 2 d)) ∧
    ∀ q c, publics s !! q = Some c → holds c = Some 2%nat → q = 7%nat.
Proof.
  intros iter. set (s0 := {| accepting := true; tracker := tracker_default; pool := pool_new 2; tunnels := ∅; publics := ∅;
                             permit := false; parked := [] |}).
  destruct (gateway_run (H := example_http) (H0 := run_mac) example_token s0 example_gateway) as [s|] eqn:E;
    [|by vm_compute in E].
  assert (Hd : ∃ d, publics s !! 7%nat = Some (Relaying 2 d)).
  { vm_compute in E. injection E as <-. eexists. by vm_compute. }
  destruct Hd as [d Hd]. exists s. split_and!; [exact E|by exists d|].
  destruct (gateway_run_spec (H := example_http) (H0 := run_mac) example_token 2 s0 eq_refl (H1 := iter) example_gateway s E)
    as (_ & _ & Hrel & _); [by vm_compute|].
  by destruct (Hrel 7%nat 2%nat d Hd) as (_ & _ & _ & ?).
Defined.
