(* ===== verification/Masquerade.v ===== *)
(** * Masquerading ([src/src/masquerade.rs])

    What the server answers to HTTP/3 requests that are not the protocol's own: a
    fixed string, files of a directory, or what another server answers.

    The file system is what [is_dir] and [read] answer for a path; percent-decoding,
    header and status checks, MIME guessing, URLs and the HTTP client are
    parameters.  A [HeaderMap] is the list of its entries; [HeaderName]s are in
    lower case. *)

From stdpp Require Import base list gmap strings.
From Stdlib Require Import ZArith Lia.
From S2P Require Import Prelude RustStr Lines Net Rules Files Config.

Open Scope Z_scope.

Abbreviation HeaderMap := (list (str * str)).

Record Request := {
  req_method : str;
  req_path : str;
  req_query : option str;
  req_authority : option str;
  req_headers : HeaderMap;
}.

Record Response := { status : Z; resp_headers : HeaderMap; body : list Z }.

(** A request of the HTTP client: the URL it is built from, what [set_path] and
    [set_query] are given, and the rest. *)
Record Outbound := {
  out_method : str;
  out_base : str;
  out_path : str;
  out_query : option str;
  out_headers : HeaderMap;
  out_body : list Z;
}.

(** The crates [percent_encoding], [mime_guess], [reqwest]. *)
Class WebLib := {
  percent_decode_bytes : str → list Z;
  mime_guess : str → option str;
  base_path : str → option str;
}.

Record WebFs := { is_dir : str → bool; read_file : str → option (list Z) }.

Inductive MasqueradeError :=
| BadHeaderName
| BadHeaderValue
| BadStatus
| PathNotUtf8
| UnsafePath
| BadUrl
| ForwardFailed.

Definition empty_response (code : Z) : Response := {| status := code; resp_headers := []; body := [] |}.

(** ** Paths *)

(** [std::path::Component], of a Unix path. *)
Inductive Component := RootDir | CurDir | ParentDir | Normal (name : str).

(** The components after the first: empty parts and [.] are left out. *)
Definition component_of (part : str) : option Component :=
  if is_nil part || str_eqb part (lit ".") then None
  else if str_eqb part (lit "..") then Some ParentDir
  else Some (Normal part).

Definition is_absolute (path : str) : bool := starts_with (lit "/") path.

(** [Path::components]: a leading slash is the root, a leading [.] is kept. *)
Definition components (path : str) : list Component :=
  let parts := split_by (Z.eqb 47) path in
  if is_absolute path then RootDir :: omap component_of parts
  else
    match parts with
    | first :: rest =>
        (if str_eqb first (lit ".") then [CurDir] else option_list (component_of first)) ++ omap component_of rest
    | [] => []
    end.

Definition is_safe (c : Component) : bool := match c with Normal _ | CurDir => true | _ => false end.

(** [PathBuf::push]. *)
Definition path_push (base path : str) : str :=
  if is_absolute path then path
  else if is_nil base || contains_char 47 (option_list (last base)) then base ++ path
  else base ++ lit "/" ++ path.

Section masquerade.
Context `{HttpLib} `{WebLib}.

(** [is_hop_by_hop]. *)
Definition is_hop_by_hop (header : str) : bool :=
  str_eqb header (lit "connection") || str_eqb header (lit "transfer-encoding") || str_eqb header (lit "upgrade")
  || eq_ignore_ascii_case header (lit "keep-alive") || eq_ignore_ascii_case header (lit "proxy-connection").

(** The headers of a configured response, each value an entry. *)
Fixpoint append_values (header : str) (values : list str) (out : HeaderMap) : result MasqueradeError HeaderMap :=
  match values with
  | [] => Ok out
  | v :: values =>
      ensure (header_value_ok v) BadHeaderValue;;
      append_values header values (out ++ [(to_ascii_lowercase header, v)])
  end.

Fixpoint string_headers (headers : list (str * list str)) (out : HeaderMap) : result MasqueradeError HeaderMap :=
  match headers with
  | [] => Ok out
  | (header, values) :: headers =>
      ensure (header_name_ok header) BadHeaderName;;
      out ← append_values header values out;
      string_headers headers out
  end.

(** The path of the file for a request: what is below [directory]. *)
Definition request_file (fs : WebFs) (directory : str) (path : str) : result MasqueradeError str :=
  decoded ← ok_or PathNotUtf8 (from_utf8 (percent_decode_bytes path));
  let relative := trim_start_matches 47 decoded in
  if existsb (fun part => negb (is_safe part)) (components relative) then Err UnsafePath
  else
    let file := path_push directory relative in
    Ok (if is_dir fs file then path_push file (lit "index.html") else file).

(** [file_response]. *)
Definition file_response (fs : WebFs) (directory : str) (r : Request) : result MasqueradeError Response :=
  if negb (str_eqb (req_method r) (lit "GET")) && negb (str_eqb (req_method r) (lit "HEAD"))
  then Ok (empty_response 405)
  else
    file ← request_file fs directory (req_path r);
    match read_file fs file with
    | None => Ok (empty_response 404)
    | Some data =>
        headers ← match mime_guess file with
                  | Some mime => ensure (header_value_ok mime) BadHeaderValue;; Ok [(lit "content-type", mime)]
                  | None => Ok []
                  end;
        Ok {| status := 200; resp_headers := headers;
              body := if str_eqb (req_method r) (lit "HEAD") then [] else data |}
    end.

(** The request [proxy_response] sends. *)
Definition proxy_request (target : str) (rewrite_host : bool) (r : Request) (data : list Z)
    : result MasqueradeError Outbound :=
  base ← ok_or BadUrl (base_path target);
  let forwarded := filter (fun '(header, _) =>
    (negb (is_hop_by_hop header) && negb (str_eqb header (lit "host"))
     && negb (str_eqb header (lit "content-length"))) = true) (req_headers r) in
  let host := match rewrite_host, req_authority r with
              | false, Some authority => [(lit "host", authority)]
              | _, _ => []
              end in
  Ok {| out_method := req_method r; out_base := target;
        out_path := trim_end_matches 47 base ++ lit "/" ++ trim_start_matches 47 (req_path r);
        out_query := req_query r; out_headers := forwarded ++ host; out_body := data |}.

(** [proxy_response]; [send] is the HTTP client and the server it asks. *)
Definition proxy_response (send : Outbound → option Response) (target : str) (rewrite_host : bool)
    (r : Request) (data : list Z) : result MasqueradeError Response :=
  out ← proxy_request target rewrite_host r data;
  answer ← ok_or ForwardFailed (send out);
  Ok {| status := status answer;
        resp_headers := filter (fun '(header, _) => is_hop_by_hop header = false) (resp_headers answer);
        body := body answer |}.

(** [response]. *)
Definition response (fs : WebFs) (send : Outbound → option Response) (config : option MasqueradeConfig)
    (r : Request) (data : list Z) : result MasqueradeError Response :=
  match config with
  | None => Ok (empty_response 404)
  | Some (MString code headers content) =>
      out ← string_headers headers [];
      ensure (status_ok code) BadStatus;;
      Ok {| status := code; resp_headers := out; body := content |}
  | Some (MFile directory) => file_response fs directory r
  | Some (MProxy url rewrite_host) => proxy_response send url rewrite_host r data
  end.
End masquerade.

(** ** Properties *)

(** No part of a path is the parent directory. *)
Definition no_parent (path : str) : Prop := lit ".." ∉ split_by (Z.eqb 47) path.

#[export] Instance no_parent_dec path : Decision (no_parent path).
Proof. unfold no_parent. apply _. Defined.

Lemma component_of_safe part :
  part ≠ lit ".." ↔ Forall (fun c => is_safe c = true) (option_list (component_of part)).
Proof.
  unfold component_of. destruct (is_nil part) eqn:En; cbn [orb].
  { apply is_nil_true in En as ->. cbn. split; [constructor|done]. }
  destruct (str_eqb part (lit ".")) eqn:Ed; cbn [orb].
  { apply str_eqb_eq in Ed as ->. cbn. split; [constructor|done]. }
  destruct (str_eqb part (lit "..")) eqn:Ep; cbn.
  - apply str_eqb_eq in Ep as ->. split; [done|]. by inversion_clear 1.
  - split; [by repeat constructor|]. intros _ E%str_eqb_eq. exact (eq_true_false_abs _ E Ep).
Qed.

Lemma omap_component_safe parts :
  lit ".." ∉ parts ↔ Forall (fun c => is_safe c = true) (omap component_of parts).
Proof.
  induction parts as [|p parts IH]; [by split; [constructor|set_solver]|].
  assert (E : omap component_of (p :: parts) = option_list (component_of p) ++ omap component_of parts).
  { cbn. by destruct (component_of p). }
  rewrite E, Forall_app, not_elem_of_cons, IH, <- component_of_safe. naive_solver.
Qed.

(** A relative path whose components are safe has no parent part. *)
Lemma components_safe path :
  is_absolute path = false →
  existsb (fun part => negb (is_safe part)) (components path) = false ↔ no_parent path.
Proof.
  intros Ha. assert (E : Forall (fun c => is_safe c = true) (components path) ↔ no_parent path).
  { unfold no_parent, components. rewrite Ha.
    destruct (split_by (Z.eqb 47) path) as [|first rest]; [by split; [set_solver|constructor]|].
    rewrite Forall_app, not_elem_of_cons, <- omap_component_safe.
    destruct (str_eqb first (lit ".")) eqn:Ef; [|rewrite <- component_of_safe; naive_solver].
    apply str_eqb_eq in Ef as ->. split; [by intros [_ ?]|]. intros [_ ?]. by repeat constructor. }
  rewrite <- E. rewrite <- not_true_iff_false, existsb_exists. rewrite Forall_forall. split.
  - intros Hn c Hc. destruct (is_safe c) eqn:Es; [done|]. destruct Hn. exists c. rewrite Es. split; [by apply list_elem_of_In|done].
  - intros Hs (c & Hc & Hn). rewrite Hs in Hn by (by apply list_elem_of_In). done.
Qed.

(** What is below a directory: its path, a separator and a relative path with no
    parent part. *)
Definition below (directory file : str) : Prop :=
  ∃ sep rel, file = directory ++ sep ++ rel ∧
  (sep = lit "/" ∨ sep = [] ∧ (directory = [] ∨ last directory = Some 47)) ∧
  is_absolute rel = false ∧ no_parent rel.

Lemma path_push_relative base path :
  is_absolute path = false →
  ∃ sep, path_push base path = base ++ sep ++ path ∧
         (sep = lit "/" ∧ base ≠ [] ∧ last base ≠ Some 47 ∨ sep = [] ∧ (base = [] ∨ last base = Some 47)).
Proof.
  intros Ha. unfold path_push. rewrite Ha. destruct (is_nil base) eqn:En; cbn [orb].
  { apply is_nil_true in En as ->. exists []. auto. }
  apply is_nil_false in En. destruct (last base) as [c|] eqn:El.
  - change (contains_char 47 (option_list (Some c))) with ((47 =? c) || false).
    destruct (Z.eqb_spec 47 c) as [<-|Hc]; cbn [orb].
    + exists []. auto.
    + exists (lit "/"). split; [done|]. left. split_and!; [done..|congruence].
  - by apply last_None in El.
Qed.

Lemma is_absolute_cons b s : is_absolute (b :: s) = (b =? 47).
Proof.
  apply eq_true_iff_eq. unfold is_absolute. rewrite starts_with_iff, Z.eqb_eq. split.
  - intros [t Ht]. change (lit "/" ++ t) with (47 :: t) in Ht. congruence.
  - intros ->. by exists s.
Qed.

Lemma trim_start_matches_relative s : is_absolute (trim_start_matches 47 s) = false.
Proof.
  induction s as [|b s IH]; cbn [trim_start_matches]; [done|]. case_match eqn:E; [done|].
  by rewrite is_absolute_cons.
Qed.

(** A relative path below a relative path. *)
Lemma relative_below rel x :
  is_absolute rel = false → is_absolute x = false → no_parent rel → no_parent x → x ≠ [] →
  ∃ sep, path_push rel x = rel ++ sep ++ x ∧ is_absolute (rel ++ sep ++ x) = false ∧ no_parent (rel ++ sep ++ x).
Proof.
  intros Hr Hx Hnr Hnx Hne. destruct (path_push_relative rel x Hx) as (sep & Hp & Hs). exists sep. split; [done|].
  assert (Hab : is_absolute (rel ++ sep ++ x) = false).
  { destruct rel as [|b rel]; [|cbn [app]; by rewrite is_absolute_cons in *]. destruct Hs as [(_ & ? & _)|[-> _]]; done. }
  split; [done|]. unfold no_parent in *. destruct Hs as [(-> & _ & _)|[-> [->|El]]]; [|done|].
  - change (rel ++ lit "/" ++ x) with (rel ++ 47 :: x). rewrite split_by_app_sep by done. set_solver.
  - apply last_Some in El as [a ->]. cbn [app]. rewrite <- app_assoc. cbn [app].
    change (a ++ [47]) with (a ++ 47 :: []) in Hnr. rewrite split_by_app_sep in Hnr |- * by done. set_solver.
Qed.

(** A file of a directory below. *)
Lemma below_push directory file x :
  below directory file → is_absolute x = false → no_parent x → x ≠ [] → below directory (path_push file x).
Proof.
  intros (sep & rel & -> & Hsep & Ha & Hn) Hx Hnx Hne. destruct rel as [|b rel].
  - destruct (path_push_relative (directory ++ sep ++ []) x Hx) as (sep2 & -> & Hs2). rewrite app_nil_r in *.
    assert (sep2 = []) as ->.
    { destruct Hs2 as [(_ & Hne1 & Hne2)|[-> _]]; [|done]. destruct Hsep as [->|[-> [->|Hl]]].
      - change (lit "/") with [47] in Hne2. by rewrite last_snoc in Hne2.
      - done.
      - by rewrite app_nil_r in Hne2. }
    exists sep, x. cbn [app]. by rewrite <- app_assoc.
  - destruct (relative_below (b :: rel) x Ha Hx Hn Hnx Hne) as (sep2 & Hp & Ha2 & Hn2).
    exists sep, ((b :: rel) ++ sep2 ++ x). split_and!; [|done..]. rewrite <- Hp. unfold path_push. rewrite Hx.
    assert (Hl : last (directory ++ sep ++ b :: rel) = last (b :: rel)) by by rewrite app_assoc, last_app_cons.
    assert (Hnil : is_nil (directory ++ sep ++ b :: rel) = false) by (apply is_nil_false; by destruct directory, sep).
    rewrite Hl, Hnil. cbn [is_nil]. case_match; by rewrite <- !app_assoc.
Qed.

Section masquerade_theorems.
Context `{HttpLib} `{WebLib}.

(** The path of a request before directories are looked up: it does not depend on
    the files, and is below the directory. *)
Lemma request_file_base directory path :
  ∃ base : result MasqueradeError str,
    (∀ fs, request_file fs directory path
           = rmap (fun file => if is_dir fs file then path_push file (lit "index.html") else file) base) ∧
    ∀ file, base = Ok file → below directory file ∧ below directory (path_push file (lit "index.html")).
Proof.
  unfold request_file. destruct (from_utf8 (percent_decode_bytes path)) as [decoded|];
    [|by exists (Err PathNotUtf8)]. res_simpl. set (rel := trim_start_matches 47 decoded).
  pose proof (trim_start_matches_relative decoded : is_absolute rel = false) as Ha.
  destruct (existsb _ (components rel)) eqn:Es; [by exists (Err UnsafePath)|]. apply components_safe in Es; [|done].
  exists (Ok (path_push directory rel)). split; [done|]. intros file [= <-].
  destruct (path_push_relative directory rel Ha) as (sep & Hp & Hs).
  assert (Hb : below directory (path_push directory rel)).
  { exists sep, rel. split_and!; [done| |done|done]. destruct Hs as [(-> & _ & _)|[-> ?]]; auto. }
  split; [done|]. apply below_push; [done|done| |done]. apply (bool_decide_unpack _). by vm_compute.
Qed.

(** Claim C37. The files a masqueraded request can see: whatever the path of the request decodes to, the answer
    depends only on what is below the configured directory, where no part of a
    path is the parent directory; and a decoded path with such a part is refused,
    or, for a method other than [GET] and [HEAD], is answered without looking. *)
Theorem masquerade_files_contained fs fs' directory r :
  (∀ file, below directory file → is_dir fs file = is_dir fs' file ∧ read_file fs file = read_file fs' file) →
  file_response fs directory r = file_response fs' directory r ∧
  ∀ decoded, from_utf8 (percent_decode_bytes (req_path r)) = Some decoded →
    ¬ no_parent (trim_start_matches 47 decoded) →
    file_response fs directory r =
      if str_eqb (req_method r) (lit "GET") || str_eqb (req_method r) (lit "HEAD") then Err UnsafePath
      else Ok (empty_response 405).
Proof.
  intros Hfs. split.
  - unfold file_response. destruct (negb _ && negb _); [done|].
    destruct (request_file_base directory (req_path r)) as (base & E & Hbase). rewrite !E.
    destruct base as [file|e]; [|done]. destruct (Hbase file eq_refl) as [Hb Hb']. res_simpl.
    destruct (Hfs file Hb) as [-> Hr], (Hfs _ Hb') as [_ Hr']. destruct (is_dir fs' file); by rewrite ?Hr, ?Hr'.
  - intros decoded Hd Hn. unfold file_response, request_file. rewrite Hd. res_simpl.
    rewrite <- negb_orb. destruct (str_eqb _ _ || str_eqb _ _); cbn [negb]; [|done].
    destruct (existsb _ _) eqn:Es; [done|]. apply components_safe in Es; [done|apply trim_start_matches_relative].
Qed.

(** What is forwarded: every header of the request but the hop-by-hop ones, the
    host and the length, in order, and the host only where it is not rewritten. *)
Lemma proxy_request_headers target rewrite_host r data out :
  proxy_request target rewrite_host r data = Ok out →
  out_method out = req_method r ∧ out_body out = data ∧
  (∀ h v, (h, v) ∈ out_headers out ↔
     (h, v) ∈ req_headers r ∧ is_hop_by_hop h = false ∧ h ≠ lit "host" ∧ h ≠ lit "content-length" ∨
     rewrite_host = false ∧ h = lit "host" ∧ req_authority r = Some v).
Proof.
  unfold proxy_request. intros Hr. apply rbind_Ok in Hr as (base & _ & [= <-]). cbn. split_and!; [done..|].
  intros h v. rewrite elem_of_app, list_elem_of_filter, !andb_true_iff, !negb_true_iff.
  rewrite <- !not_true_iff_false, !str_eqb_eq.
  destruct rewrite_host, (req_authority r); set_solver.
Qed.
End masquerade_theorems.

(** An instance to evaluate with: percent-decoding of [%2e] and a file system of
    two files. *)
Fixpoint example_percent_decode (s : str) : list Z :=
  match s with
  | 37 :: 50 :: 101 :: s => 46 :: example_percent_decode s
  | b :: s => b :: example_percent_decode s
  | [] => []
  end.

Definition example_web : WebLib := {|
  percent_decode_bytes := example_percent_decode; mime_guess := fun _ => None; base_path := fun _ => None |}.

Definition example_webfs (secret : str) : WebFs := {|
  is_dir := fun p => str_eqb p (lit "/www/");
  read_file := fun p => if str_eqb p (lit "/www/index.html") then Some (lit "hello")
                        else if str_eqb p (lit "/secret") then Some secret else None |}.

Definition example_get (p : string) : Request := {|
  req_method := lit "GET"; req_path := lit p; req_query := None; req_authority := None; req_headers := [] |}.

Lemma example_below file : below (lit "/www") file → file ≠ lit "/secret".
Proof. intros (sep & rel & -> & _). done. Qed.

Lemma masquerade_files_contained_witness :
  let _ := example_http in let _ := example_web in
  file_response (example_webfs (lit "a")) (lit "/www") (example_get "/")
  = file_response (example_webfs (lit "b")) (lit "/www") (example_get "/") ∧
  file_response (example_webfs (lit "a")) (lit "/www") (example_get "/%2e%2e/secret") = Err UnsafePath.
Proof.
  intros http web.
  assert (Hfs : ∀ file, below (lit "/www") file →
    is_dir (example_webfs (lit "a")) file = is_dir (example_webfs (lit "b")) file ∧
    read_file (example_webfs (lit "a")) file = read_file (example_webfs (lit "b")) file).
  { intros file Hb%example_below. split; [done|]. cbn [read_file example_webfs].
    destruct (str_eqb file (lit "/secret")) eqn:E; [by apply str_eqb_eq in E|done]. }
  split.
  - apply (masquerade_files_contained (H := http) (H0 := web)). exact Hfs.
  - apply (proj2 (masquerade_files_contained (H := http) (H0 := web) _ _ (lit "/www") (example_get "/%2e%2e/secret") Hfs)
      (lit "/../secret")); [by vm_compute|].
    intros Hn. apply Hn. apply (bool_decide_unpack _). by vm_compute.
Defined.
