(* ===== verification/AdminUsers.v ===== *)
(** * The administrators ([src/src/admin.rs], credentials)

    The credentials file: its two layouts, the checks, and the operations that
    change it: creating it, resetting a password from the command line, and adding,
    changing and deleting administrators from the WebUI.  The handlers hold
    [credentials_lock], so they run one after the other.

    TOML and the random generator are parameters. *)

From stdpp Require Import base list gmap strings.
From Stdlib Require Import ZArith Lia.
From S2P Require Import Prelude RustStr Lines Files PrivateFile.

Open Scope Z_scope.

Record AdminCredentials := { username : str; password : str }.

#[export] Instance AdminCredentials_eq_dec : EqDecision AdminCredentials.
Proof. solve_decision. Defined.

Record AdminCredentialsFile := { admins : list AdminCredentials }.

(** The untagged document: several users, or one user as earlier versions wrote
    it. *)
Inductive AdminCredentialsDocument :=
| Multiple (credentials : AdminCredentialsFile)
| Legacy (user : AdminCredentials).

(** TOML, for the credentials: a document it prints is UTF-8 text, and is parsed
    back as several users. *)
Class CredentialsToml := {
  credentials_print : AdminCredentialsFile → option str;
  credentials_parse : str → option AdminCredentialsDocument;
  credentials_print_utf8 : ∀ c s, credentials_print c = Some s → utf8_valid s = true;
  credentials_print_parse : ∀ c s, credentials_print c = Some s → credentials_parse s = Some (Multiple c);
}.

Inductive CredentialsError :=
| CredentialsNotFound
| CredentialsUnreadable
| CredentialsUnparsable
| BadUsername
| BadPassword
| NoAdmin
| DuplicateAdmin (name : str)
| EmptyUsername
| NoRandomness
| NotSerialized
| NotReplaced (e : ReplaceError).

(** [ensure_admin_user]. *)
Definition ensure_admin_user (user : AdminCredentials) : result CredentialsError unit :=
  if is_nil (trim (username user)) || (len (username user) >? 64) || contains_char 58 (username user)
     || has_control (username user)
  then Err BadUsername
  else if is_nil (password user) || (len (password user) >? 256) then Err BadPassword
  else Ok tt.

(** The loop of [ensure_credentials] over the users already seen. *)
Fixpoint ensure_distinct (seen users : list AdminCredentials) : result CredentialsError unit :=
  match users with
  | [] => Ok tt
  | user :: users =>
      if existsb (fun existing => str_eqb (username existing) (username user)) seen
      then Err (DuplicateAdmin (username user))
      else ensure_distinct (seen ++ [user]) users
  end.

(** [ensure_credentials]. *)
Definition ensure_credentials (c : AdminCredentialsFile) : result CredentialsError unit :=
  ensure (negb (is_nil (admins c))) NoAdmin;;
  rtraverse ensure_admin_user (admins c);;
  ensure_distinct [] (admins c).

Section credentials.
Context `{CredentialsToml}.

(** [parse_credentials]. *)
Definition parse_credentials (s : str) : result CredentialsError AdminCredentialsFile :=
  document ← ok_or CredentialsUnparsable (credentials_parse s);
  let c := match document with Multiple c => c | Legacy user => {| admins := [user] |} end in
  ensure_credentials c;;
  Ok c.

(** [load_credentials]. *)
Definition read_credentials (f : option file) : result CredentialsError AdminCredentialsFile :=
  f ← ok_or CredentialsNotFound f;
  s ← ok_or CredentialsUnreadable (from_utf8 (contents f));
  parse_credentials s.

Definition load_credentials (fs : filesystem) (path : str) : result CredentialsError AdminCredentialsFile :=
  read_credentials (fs !! path).

(** [write_credentials]: the outcome and the states on the way. *)
Definition write_credentials (c : AdminCredentialsFile) (fs : filesystem) (path : str) (faults : ReplaceFaults)
    : result CredentialsError unit * list filesystem :=
  match ensure_credentials c with
  | Err e => (Err e, [fs])
  | Ok _ => save_private NotSerialized NotReplaced (credentials_print c) fs path faults
  end.

(** [is_not_found]. *)
Definition is_not_found (e : CredentialsError) : bool := match e with CredentialsNotFound => true | _ => false end.

(** [generated_credentials]; [random] is what [getrandom::fill] gives. *)
Definition generated_credentials (name : str) (random : option (list Z)) : result CredentialsError AdminCredentials :=
  let name := trim name in
  ensure (negb (is_nil name)) EmptyUsername;;
  random ← ok_or NoRandomness random;
  Ok {| username := name; password := hex random |}.

(** [load_or_create_credentials]: the first user, and whether it was created. *)
Definition load_or_create_credentials (fs : filesystem) (path name : str) (random : option (list Z))
    (faults : ReplaceFaults) : result CredentialsError (AdminCredentials * bool) * list filesystem :=
  match load_credentials fs path with
  | Ok c => (match admins c with user :: _ => Ok (user, false) | [] => Err NoAdmin end, [fs])
  | Err e =>
      if is_not_found e then
        match generated_credentials name random with
        | Err e => (Err e, [fs])
        | Ok user =>
            let '(r, trace) := write_credentials {| admins := [user] |} fs path faults in
            (rmap (fun _ => (user, true)) r, trace)
        end
      else (Err e, [fs])
  end.

(** [iter_mut().find(p)] and an assignment: the first user with the name. *)
Fixpoint set_password (name new : str) (users : list AdminCredentials) : option (list AdminCredentials) :=
  match users with
  | [] => None
  | user :: users =>
      if str_eqb (username user) name then Some ({| username := username user; password := new |} :: users)
      else cons user <$> set_password name new users
  end.

(** [reset_credentials]. *)
Definition reset_credentials (fs : filesystem) (path name : str) (random : option (list Z)) (faults : ReplaceFaults)
    : result CredentialsError AdminCredentials * list filesystem :=
  match generated_credentials name random with
  | Err e => (Err e, [fs])
  | Ok user =>
      let file :=
        match load_credentials fs path with
        | Ok c => Ok (admins c)
        | Err e => if is_not_found e then Ok [] else Err e
        end in
      match file with
      | Err e => (Err e, [fs])
      | Ok users =>
          let users :=
            match set_password (username user) (password user) users with
            | Some users => users
            | None => users ++ [user]
            end in
          let '(r, trace) := write_credentials {| admins := users |} fs path faults in
          (rmap (fun _ => user) r, trace)
      end
  end.
End credentials.

(** ** The API's errors *)

(** [ApiError]: the constructors stand for the status codes. *)
Inductive ApiError :=
| Unauthorized
| Conflict
| NotFound
| BadRequest
| Internal.

Definition api_status (e : ApiError) : Z :=
  match e with Unauthorized => 401 | Conflict => 409 | NotFound => 404 | BadRequest => 400 | Internal => 500 end.

Section handlers.
Context `{CredentialsToml}.

(** The end of every handler that changes the file. *)
Definition store_users (users : list AdminCredentials) (fs : filesystem) (path : str) (faults : ReplaceFaults)
    : result ApiError unit * list filesystem :=
  let '(r, trace) := write_credentials {| admins := users |} fs path faults in
  (rmap_err (fun _ => Internal) r, trace).

(** [add_admin_user], once the request is authorized. *)
Definition add_admin_user (fs : filesystem) (path name new : str) (faults : ReplaceFaults)
    : result ApiError unit * list filesystem :=
  let user := {| username := trim name; password := new |} in
  match ensure_admin_user user with
  | Err _ => (Err BadRequest, [fs])
  | Ok _ =>
      match load_credentials fs path with
      | Err _ => (Err Internal, [fs])
      | Ok c =>
          if existsb (fun existing => str_eqb (username existing) (username user)) (admins c)
          then (Err Conflict, [fs])
          else store_users (admins c ++ [user]) fs path faults
      end
  end.

(** [change_admin_password], once the request is authorized. *)
Definition change_admin_password (fs : filesystem) (path name new : str) (faults : ReplaceFaults)
    : result ApiError unit * list filesystem :=
  match load_credentials fs path with
  | Err _ => (Err Internal, [fs])
  | Ok c =>
      match set_password name new (admins c) with
      | None => (Err NotFound, [fs])
      | Some users =>
          match ensure_admin_user {| username := name; password := new |} with
          | Err _ => (Err BadRequest, [fs])
          | Ok _ => store_users users fs path faults
          end
      end
  end.

(** [delete_admin_user], once the request is authorized. *)
Definition delete_admin_user (fs : filesystem) (path name : str) (faults : ReplaceFaults)
    : result ApiError unit * list filesystem :=
  match load_credentials fs path with
  | Err _ => (Err Internal, [fs])
  | Ok c =>
      if (length (admins c) <=? 1)%nat then (Err BadRequest, [fs])
      else
        let kept := filter (fun user => username user ≠ name) (admins c) in
        if (length kept =? length (admins c))%nat then (Err NotFound, [fs])
        else store_users kept fs path faults
  end.

(** [list_admin_users], once the request is authorized. *)
Definition list_admin_users (fs : filesystem) (path : str) : result ApiError (list str) :=
  match load_credentials fs path with
  | Err _ => Err Internal
  | Ok c => Ok (username <$> admins c)
  end.
End handlers.

(** ** What the checks mean *)

Definition user_ok (u : AdminCredentials) : Prop :=
  trim (username u) ≠ [] ∧ len (username u) ≤ 64 ∧ 58 ∉ username u ∧ has_control (username u) = false ∧
  password u ≠ [] ∧ len (password u) ≤ 256.

Definition users_ok (users : list AdminCredentials) : Prop :=
  users ≠ [] ∧ Forall user_ok users ∧ NoDup (username <$> users).

Lemma ensure_admin_user_Ok u : ensure_admin_user u = Ok tt ↔ user_ok u.
Proof.
  unfold ensure_admin_user, user_ok. rewrite <- !is_nil_false, <- contains_char_false.
  destruct (is_nil (trim (username u))); cbn [orb]; [naive_solver|].
  rewrite !Z.gtb_ltb. destruct (Z.ltb_spec 64 (len (username u))); cbn [orb]; [naive_solver lia|].
  destruct (contains_char 58 (username u)); cbn [orb]; [naive_solver|].
  destruct (has_control (username u)); cbn [orb]; [naive_solver|].
  destruct (is_nil (password u)); cbn [orb]; [naive_solver|].
  destruct (Z.ltb_spec 256 (len (password u))); naive_solver lia.
Qed.

Lemma name_taken name users :
  existsb (fun existing => str_eqb (username existing) name) users = true ↔ name ∈ username <$> users.
Proof.
  rewrite existsb_exists, list_elem_of_fmap. setoid_rewrite str_eqb_eq. setoid_rewrite <- list_elem_of_In. naive_solver.
Qed.

Lemma name_free name users :
  existsb (fun existing => str_eqb (username existing) name) users = false ↔ name ∉ username <$> users.
Proof. by rewrite <- not_true_iff_false, name_taken. Qed.

Lemma ensure_distinct_Ok seen users :
  NoDup (username <$> seen) → ensure_distinct seen users = Ok tt ↔ NoDup (username <$> seen ++ users).
Proof.
  revert seen. induction users as [|u users IH]; intros seen Hs; cbn [ensure_distinct]; [by rewrite app_nil_r|].
  destruct (existsb _ seen) eqn:E.
  - apply name_taken in E. split; [done|]. rewrite fmap_app. cbn. intros (_ & Hno & _)%NoDup_app.
    destruct (Hno _ E). by left.
  - apply name_free in E. rewrite IH, <- app_assoc; [done|]. rewrite fmap_app. apply NoDup_app.
    split_and!; [done| |apply NoDup_singleton]. intros x Hx ->%list_elem_of_singleton. done.
Qed.

Lemma ensure_credentials_Ok c : ensure_credentials c = Ok tt ↔ users_ok (admins c).
Proof.
  assert (Ht : (∃ l, rtraverse ensure_admin_user (admins c) = Ok l) ↔ Forall user_ok (admins c)).
  { setoid_rewrite rtraverse_Ok. split.
    - intros [l Hl]. induction Hl as [|x [] l ys Hx Hl IH]; constructor; [by apply ensure_admin_user_Ok|done].
    - intros Hl. exists (replicate (length (admins c)) tt).
      induction Hl as [|x l Hx Hl IH]; cbn; constructor; [by apply ensure_admin_user_Ok|done]. }
  pose proof (ensure_distinct_Ok [] (admins c) ltac:(constructor)) as Hd. cbn [app] in Hd.
  unfold ensure_credentials, users_ok. rewrite <- Ht, <- Hd, <- is_nil_false. destruct (is_nil (admins c)); res_simpl.
  { naive_solver. }
  destruct (rtraverse ensure_admin_user (admins c)); res_simpl; naive_solver.
Qed.

(** ** The operations on the list of users

    What each operation means for the list of administrators alone. *)
Inductive AdminOp :=
| AddUser (name new : str)
| ChangePassword (name new : str)
| DeleteUser (name : str)
| ResetPassword (name : str) (random : option (list Z)).

Definition apply_op (op : AdminOp) (users : list AdminCredentials) : result ApiError (list AdminCredentials) :=
  match op with
  | AddUser name new =>
      let user := {| username := trim name; password := new |} in
      ensure (is_ok (ensure_admin_user user)) BadRequest;;
      ensure (negb (bool_decide (trim name ∈ username <$> users))) Conflict;;
      Ok (users ++ [user])
  | ChangePassword name new =>
      ensure (bool_decide (name ∈ username <$> users)) NotFound;;
      ensure (is_ok (ensure_admin_user {| username := name; password := new |})) BadRequest;;
      Ok ((fun u => if decide (username u = name) then {| username := name; password := new |} else u) <$> users)
  | DeleteUser name =>
      ensure (1 <? len users) BadRequest;;
      ensure (bool_decide (name ∈ username <$> users)) NotFound;;
      Ok (filter (fun u => username u ≠ name) users)
  | ResetPassword name random =>
      user ← rmap_err (fun _ => Internal) (generated_credentials name random);
      let users' :=
        if decide (username user ∈ username <$> users)
        then (fun u => if decide (username u = username user) then user else u) <$> users
        else users ++ [user] in
      ensure (is_ok (ensure_credentials {| admins := users' |})) Internal;;
      Ok users'
  end.

(** An operation as the program runs it. *)
Definition run_op `{CredentialsToml} (fs : filesystem) (path : str) (op : AdminOp) (faults : ReplaceFaults)
    : result ApiError unit * list filesystem :=
  match op with
  | AddUser name new => add_admin_user fs path name new faults
  | ChangePassword name new => change_admin_password fs path name new faults
  | DeleteUser name => delete_admin_user fs path name faults
  | ResetPassword name random =>
      let '(r, trace) := reset_credentials fs path name random faults in
      (rmap_err (fun _ => Internal) (rmap (fun _ => tt) r), trace)
  end.

Lemma NoDup_username_inj users u v :
  NoDup (username <$> users) → u ∈ users → v ∈ users → username u = username v → u = v.
Proof.
  induction users as [|w users IH]; cbn; [set_solver|]. intros [Hno Hnd]%NoDup_cons Hu Hv E.
  apply elem_of_cons in Hu as [->|Hu], Hv as [->|Hv]; [done| | |by apply IH].
  - destruct Hno. rewrite E. apply list_elem_of_fmap. eauto.
  - destruct Hno. rewrite <- E. apply list_elem_of_fmap. eauto.
Qed.

(** Assigning through the first user found is changing the user of that name. *)
Lemma set_password_spec name new users :
  NoDup (username <$> users) →
  set_password name new users =
    if decide (name ∈ username <$> users)
    then Some ((fun u => if decide (username u = name) then {| username := name; password := new |} else u) <$> users)
    else None.
Proof.
  induction users as [|u users IH]; intros Hnd; cbn [set_password]; [by rewrite decide_False by set_solver|].
  cbn in Hnd. apply NoDup_cons in Hnd as [Hno Hnd]. destruct (str_eqb (username u) name) eqn:E.
  - apply str_eqb_eq in E as <-. rewrite decide_True by (cbn; set_solver). cbn. rewrite decide_True by done.
    do 2 f_equal. rewrite <- (list_fmap_id users) at 1. apply list_fmap_ext. intros i v Hv. cbn.
    rewrite decide_False; [done|]. intros Ev. apply Hno. rewrite <- Ev. apply list_elem_of_fmap.
    exists v. split; [done|]. by eapply list_elem_of_lookup_2.
  - assert (Hne : username u ≠ name) by (intros Hx%str_eqb_eq; congruence).
    rewrite IH by done. destruct (decide (name ∈ username <$> users)) as [Hin|Hin].
    + rewrite decide_True by (cbn; set_solver). cbn. by rewrite decide_False.
    + rewrite decide_False by (cbn; set_solver). done.
Qed.

Lemma changed_names name new (users : list AdminCredentials) :
  username <$> ((fun u => if decide (username u = name) then {| username := name; password := new |} else u) <$> users)
  = username <$> users.
Proof.
  rewrite <- list_fmap_compose. apply list_fmap_ext. intros i u _. cbn. by case_decide.
Qed.

Lemma NoDup_kept (name : str) users :
  NoDup (username <$> users) → NoDup (username <$> filter (fun u => username u ≠ name) users).
Proof.
  induction users as [|u users IH]; [done|]. rewrite fmap_cons. intros [Hno Hnd]%NoDup_cons. rewrite filter_cons. case_decide; [|auto].
  rewrite fmap_cons. apply NoDup_cons. split; [|auto]. intros (v & E & [_ Hv]%list_elem_of_filter)%list_elem_of_fmap.
  apply Hno, list_elem_of_fmap. eauto.
Qed.

Lemma kept_all (name : str) (users : list AdminCredentials) :
  name ∉ username <$> users → filter (fun u => username u ≠ name) users = users.
Proof.
  induction users as [|u users IH]; [done|]. rewrite fmap_cons. intros Hno. rewrite filter_cons, decide_True, IH by set_solver. done.
Qed.

Lemma apply_op_ok op users users' : users_ok users → apply_op op users = Ok users' → users_ok users'.
Proof.
  intros (Hne & Hall & Hnd) Ha. destruct op as [name new|name new|name|name random]; cbn [apply_op] in Ha; res_inv.
  - rewrite is_ok_iff in E. destruct E as [[] E%ensure_admin_user_Ok]. apply negb_true_iff, bool_decide_eq_false in E0.
    subst users'. split_and!; [by destruct users|apply Forall_app_2; [done|by constructor]|].
    rewrite fmap_app. apply NoDup_app. split_and!; [done| |apply NoDup_singleton]. cbn. set_solver.
  - rewrite is_ok_iff in E0. destruct E0 as [[] E0%ensure_admin_user_Ok]. subst users'. split_and!.
    + intros Hn%fmap_nil_inv. done.
    + apply Forall_fmap. eapply Forall_impl; [exact Hall|]. intros u Hu. unfold compose. by destruct (decide (username u = name)).
    + by rewrite changed_names.
  - apply Z.ltb_lt in E. apply bool_decide_eq_true in E0. subst users'. split_and!.
    + intros Hf. destruct users as [|a [|b users]]; [done|unfold len in E; simpl length in E; lia|].
      assert (Ha : username a = name ∧ username b = name).
      { split; apply dec_stable; intros Hn; [assert (Hin : a ∈ filter (fun u => username u ≠ name) (a :: b :: users))
          |assert (Hin : b ∈ filter (fun u => username u ≠ name) (a :: b :: users))];
          try (apply list_elem_of_filter; set_solver); rewrite Hf in Hin; set_solver. }
      destruct Ha as [Ha Hb]. cbn in Hnd. rewrite Ha, Hb in Hnd. apply NoDup_cons in Hnd as [Hno _]. set_solver.
    + rewrite Forall_forall in Hall |- *. intros u [_ Hu]%list_elem_of_filter. by apply Hall.
    + by apply NoDup_kept.
  - destruct (generated_credentials name random); res_inv; [|done]. rewrite is_ok_iff in E0.
    destruct E0 as [[] E0%ensure_credentials_Ok]. by subst users'.
Qed.

Section admin_users.
Context `{CredentialsToml}.

Lemma load_credentials_ok fs path c : load_credentials fs path = Ok c → users_ok (admins c).
Proof.
  unfold load_credentials, read_credentials, parse_credentials. intros Hl. res_inv. destruct r2. subst.
  by apply ensure_credentials_Ok.
Qed.

(** A file written from valid users loads as them. *)
Lemma read_written c data m :
  users_ok (admins c) → credentials_print c = Some data →
  read_credentials (Some {| contents := data; mode := m |}) = Ok c.
Proof.
  intros Hok Hp. unfold read_credentials, parse_credentials. res_simpl. cbn [contents].
  unfold from_utf8. rewrite (credentials_print_utf8 c data Hp). res_simpl.
  rewrite (credentials_print_parse c data Hp). res_simpl.
  rewrite (proj2 (ensure_credentials_Ok c) Hok). done.
Qed.

(** Every state of an operation shows the old users or the new ones, the last one
    the new ones when it succeeds, and the old ones when it fails, which it does
    only when something goes wrong or the users cannot be printed. *)
Definition op_outcome (fs : filesystem) (path : str) (old new : AdminCredentialsFile) (faults : ReplaceFaults)
    (out : result ApiError unit * list filesystem) : Prop :=
  (∀ fs', fs' ∈ out.2 → load_credentials fs' path = Ok old ∨ load_credentials fs' path = Ok new) ∧
  (∀ fs' p, fs' ∈ out.2 → p ≠ path → p ≠ private_temporary path → fs' !! p = fs !! p) ∧
  ∃ fs_end, last out.2 = Some fs_end ∧
    match out.1 with
    | Ok _ => load_credentials fs_end path = Ok new
    | Err e => e = Internal ∧ load_credentials fs_end path = Ok old ∧
               (faults = no_replace_faults → credentials_print new = None)
    end.

Lemma write_outcome fs path old new faults :
  private_temporary path ≠ path → load_credentials fs path = Ok old → users_ok (admins new) →
  let '(r, trace) := write_credentials new fs path faults in
  op_outcome fs path old new faults (rmap_err (fun _ => Internal) r, trace).
Proof.
  intros Hne Hl Hok. unfold write_credentials. rewrite (proj2 (ensure_credentials_Ok new) Hok). unfold load_credentials in *.
  destruct (save_private_saved read_credentials (Ok new) NotSerialized NotReplaced (credentials_print new) fs path faults Hne)
    as (Hall & Hframe & fs_end & Hlast & Hend); [intros data m; by apply read_written|].
  destruct (save_private _ _ _ _ _ _) as [r trace]. cbn [fst snd] in *. rewrite Hl in Hall.
  split_and!; cbn [fst snd]; [done|done|]. exists fs_end. split; [done|]. unfold load_credentials.
  destruct r as [[]|e]; res_simpl; [done|]. destruct Hend as [-> Hf]. done.
Qed.

Lemma store_outcome fs path old users faults :
  private_temporary path ≠ path → load_credentials fs path = Ok old → users_ok users →
  op_outcome fs path old {| admins := users |} faults (store_users users fs path faults).
Proof.
  intros Hne Hl Hok. unfold store_users. pose proof (write_outcome fs path old {| admins := users |} faults Hne Hl Hok) as Ho.
  by destruct (write_credentials _ _ _ _) as [r trace].
Qed.

(** An operation of the program does to the file what it means for the list. *)
Lemma run_op_refines fs path c op faults :
  private_temporary path ≠ path → load_credentials fs path = Ok c →
  match apply_op op (admins c) with
  | Ok users => op_outcome fs path c {| admins := users |} faults (run_op fs path op faults)
  | Err e => run_op fs path op faults = (Err e, [fs])
  end.
Proof.
  intros Hne Hl. pose proof (load_credentials_ok fs path c Hl) as Hok.
  pose proof (fun users => apply_op_ok op (admins c) users Hok) as Happly.
  destruct Hok as (Hnil & Hall & Hnd).
  destruct op as [name new|name new|name|name random]; cbn [apply_op run_op] in *.
  - unfold add_admin_user. cbn [username]. destruct (ensure_admin_user _) as [[]|e]; res_simpl; [|done].
    rewrite Hl. cbn [is_ok ensure mbind result_bind] in Happly |- *.
    case_bool_decide as Hin; cbn [negb ensure] in *; res_simpl.
    + rewrite (proj2 (name_taken _ _) Hin). done.
    + rewrite (proj2 (name_free _ _) Hin). apply store_outcome; [done|done|by apply Happly].
  - unfold change_admin_password. rewrite Hl, set_password_spec by done.
    destruct (decide (name ∈ username <$> admins c)) as [Hin|Hin].
    + rewrite bool_decide_eq_true_2 in Happly |- * by done. res_simpl.
      destruct (ensure_admin_user _) as [[]|e]; res_simpl; [|done].
      apply store_outcome; [done|done|by apply Happly].
    + rewrite bool_decide_eq_false_2 by done. done.
  - unfold delete_admin_user. rewrite Hl. unfold len in *.
    destruct (Nat.leb_spec (length (admins c)) 1) as [Hle|Hgt].
    + rewrite (proj2 (Z.ltb_ge _ _)) by lia. done.
    + rewrite (proj2 (Z.ltb_lt _ _)) in Happly |- * by lia. res_simpl. res_simpl in Happly.
      case_bool_decide as Hin; cbn [ensure] in *; res_simpl.
      * destruct (Nat.eqb_spec (length (filter (fun u => username u ≠ name) (admins c))) (length (admins c))) as [E|E].
        { exfalso. apply list_elem_of_fmap in Hin as (u & -> & Hu).
          pose proof (length_filter_lt (fun v => username v ≠ username u) (admins c) u Hu ltac:(naive_solver)). lia. }
        apply store_outcome; [done|done|by apply Happly].
      * rewrite kept_all by done. by rewrite Nat.eqb_refl.
  - unfold reset_credentials. rewrite Hl. destruct (generated_credentials name random) as [user|e]; res_simpl; [|done].
    rewrite set_password_spec by done. res_simpl in Happly. destruct user as [un up]. cbn [username password] in *.
    set (users' := match (if decide (un ∈ username <$> admins c) then _ else None) with Some users => users | None => _ end).
    assert (E : (if decide (un ∈ username <$> admins c)
      then (fun u => if decide (username u = un) then {| username := un; password := up |} else u) <$> admins c
      else admins c ++ [{| username := un; password := up |}]) = users') by (unfold users'; by case_decide).
    rewrite E in *. destruct (ensure_credentials {| admins := users' |}) as [[]|e] eqn:Ev; cbn [is_ok ensure] in *; res_simpl.
    + pose proof (write_outcome fs path c {| admins := users' |} faults Hne Hl ltac:(by apply Happly)) as Hw.
      destruct (write_credentials _ _ _ _) as [[[]|e] trace]; exact Hw.
    + unfold write_credentials. rewrite Ev. done.
Qed.

(** A state that an operation, complete, failed or interrupted, can leave. *)
Definition admin_step (path : str) (fs fs' : filesystem) : Prop :=
  ∃ op faults, fs' ∈ (run_op fs path op faults).2.

Lemma admin_step_ok path fs fs' c :
  private_temporary path ≠ path → load_credentials fs path = Ok c → admin_step path fs fs' →
  ∃ c', load_credentials fs' path = Ok c'.
Proof.
  intros Hne Hl (op & faults & Hin). pose proof (run_op_refines fs path c op faults Hne Hl) as Hr.
  destruct (apply_op op (admins c)) as [users|e].
  - destruct Hr as (Hall & _). destruct (Hall fs' Hin); eauto.
  - rewrite Hr in Hin. apply list_elem_of_singleton in Hin as ->. eauto.
Qed.

(** Claim C15. The administrators are never lost: from a file that loads, after any operations of the WebUI and
    of the command line, one after another, each complete, failed at any point or interrupted there,
    the file loads again, with at least one administrator, all valid and with
    distinct names. And each operation does to the file what it means for the list
    of administrators, an error included: it is refused with nothing touched, or
    every state on its way shows the old list or the new one, the last one the new
    list on success and the old one on failure, and it fails only when the file
    system does or the list cannot be printed. *)
Theorem admin_users_safe path fs c fs' :
  private_temporary path ≠ path → load_credentials fs path = Ok c → rtc (admin_step path) fs fs' →
  ∃ c', load_credentials fs' path = Ok c' ∧ users_ok (admins c') ∧
  ∀ op faults, match apply_op op (admins c') with
               | Ok users => users_ok users ∧ op_outcome fs' path c' {| admins := users |} faults (run_op fs' path op faults)
               | Err e => run_op fs' path op faults = (Err e, [fs'])
               end.
Proof.
  intros Hne Hl Hsteps. assert (Hload : ∃ c', load_credentials fs' path = Ok c').
  { revert c Hl. induction Hsteps as [fs|fs fs1 fs2 Hstep _ IH]; intros c Hl; [eauto|].
    destruct (admin_step_ok path fs fs1 c Hne Hl Hstep) as [c1 Hc1]. by apply (IH c1). }
  destruct Hload as [c' Hc']. pose proof (load_credentials_ok fs' path c' Hc') as Hok.
  exists c'. split_and!; [done|done|]. intros op faults.
  pose proof (run_op_refines fs' path c' op faults Hne Hc') as Hr.
  destruct (apply_op op (admins c')) as [users|e] eqn:E; [|done]. split; [by apply (apply_op_ok op (admins c'))|done].
Qed.
End admin_users.

(** An instance to evaluate with, of two documents. *)
Definition example_admin : AdminCredentials := {| username := lit "admin"; password := lit "secret" |}.
Definition example_second : AdminCredentials := {| username := lit "second"; password := lit "hidden" |}.

Definition example_cred_print (c : AdminCredentialsFile) : option str :=
  if decide (admins c = [example_admin]) then Some (lit "one")
  else if decide (admins c = [example_admin; example_second]) then Some (lit "two") else None.

Definition example_cred_parse (s : str) : option AdminCredentialsDocument :=
  if decide (s = lit "one") then Some (Multiple {| admins := [example_admin] |})
  else if decide (s = lit "two") then Some (Multiple {| admins := [example_admin; example_second] |}) else None.

Lemma example_cred_utf8 c s : example_cred_print c = Some s → utf8_valid s = true.
Proof. unfold example_cred_print. repeat case_decide; intros E; by simplify_eq. Qed.

Lemma example_cred_roundtrip c s : example_cred_print c = Some s → example_cred_parse s = Some (Multiple c).
Proof. unfold example_cred_print. destruct c. cbn. repeat case_decide; intros E; by simplify_eq. Qed.

Definition example_cred_toml : CredentialsToml := {|
  credentials_print := example_cred_print; credentials_parse := example_cred_parse;
  credentials_print_utf8 := example_cred_utf8; credentials_print_parse := example_cred_roundtrip |}.

Definition example_cred_path : str := lit ".admin-credentials.toml".
Definition example_cred_fs : filesystem := {[ example_cred_path := {| contents := lit "one"; mode := PRIVATE_MODE |} ]}.

Lemma admin_users_safe_witness :
  let _ := example_cred_toml in
  let out := run_op example_cred_fs example_cred_path (AddUser (lit " second ") (lit "hidden")) no_replace_faults in
  out.1 = Ok tt ∧
  ∃ c', load_credentials example_cred_fs example_cred_path = Ok c' ∧ users_ok (admins c') ∧
  ∀ op faults, match apply_op op (admins c') with
               | Ok users => users_ok users ∧
                   op_outcome example_cred_fs example_cred_path c' {| admins := users |} faults
                     (run_op example_cred_fs example_cred_path op faults)
               | Err e => run_op example_cred_fs example_cred_path op faults = (Err e, [example_cred_fs])
               end.
Proof.
  intros toml out. split; [by vm_compute|].
  apply (admin_users_safe (H := toml) example_cred_path example_cred_fs {| admins := [example_admin] |});
    [by vm_compute|by vm_compute|apply rtc_refl].
Defined.
