(* ===== verification/AdminAuth.v ===== *)
(** * Who may use the WebUI ([src/src/admin.rs], sessions and authorization)

    A request is authorized by a bearer token, by a session cookie, or by basic
    credentials.  A session is stateless: the cookie holds the claims and a code of
    them under the user's password.

    BLAKE2b, JSON, Base64 and the header crate are parameters.  Names of headers
    are in lower case; the comparisons in constant time are comparisons. *)

From stdpp Require Import base list gmap strings.
From Stdlib Require Import ZArith Lia.
From S2P Require Import Prelude RustStr Lines Net Rules Files PrivateFile Config Stream NatTunnel AdminUsers.

Open Scope Z_scope.

Definition ADMIN_SESSION_COOKIE : str := lit "sing_box_ser_mini_session".
Definition ADMIN_SESSION_TTL_SECS : Z := 24 * 60 * 60.

Record SessionClaims := { claims_user : str; claims_expire : Z }.

(** The alphabet of URL-safe Base64. *)
Definition url_safe (b : Z) : bool := is_ascii_alphanumeric b || (b =? 45) || (b =? 95).

Definition printable (b : Z) : bool := in_range 32 b 126.

(** The crates: [blake2] (a digest of 64 bytes), [serde_json] on the claims,
    [base64], and [http]'s header values, which may be any printable text and read
    as text when they are. *)
Class SessionLib := {
  blake2b512 : list Z → list Z;
  claims_print : SessionClaims → option (list Z);
  claims_parse : list Z → option SessionClaims;
  b64url_encode : list Z → str;
  b64url_decode : str → option (list Z);
  b64std_decode : str → option (list Z);
  header_valid : str → bool;
  header_text : str → bool;
  blake2b512_length : ∀ m, length (blake2b512 m) = 64%nat;
  claims_roundtrip : ∀ c j, claims_print c = Some j → is_bytes j ∧ claims_parse j = Some c;
  b64url_roundtrip : ∀ l, is_bytes l → b64url_decode (b64url_encode l) = Some l;
  b64url_alphabet : ∀ l, is_bytes l → Forall (fun b => url_safe b = true) (b64url_encode l);
  header_printable : ∀ s, Forall (fun b => printable b = true) s → header_valid s = true ∧ header_text s = true;
}.

Abbreviation Headers := (list (str * str)).

(** [headers.get(name)] and [headers.get_all(name)]. *)
Definition get_all (header : string) (h : Headers) : list str :=
  snd <$> filter (fun kv => kv.1 = lit header) h.

(** The part of [AdminState] that does not change. *)
Record AdminState := {
  config_path : str;
  admin_token : option (list Z);
  credentials_path : str;
  webui_listen : str;
  startup_token_file : option str;
  worker_threads : Z;
}.

Section sessions.
Context `{SessionLib} `{Blake2bMac} `{CredentialsToml}.

(** [session_signature]. *)
Definition session_signature (pass : str) (claims : list Z) : option (list Z) :=
  let key := blake2b512 pass in
  if len key <=? MAC_KEY_MAX then Some (mac512 key claims) else None.

(** [issue_session_token]. *)
Definition issue_session_token (user : AdminCredentials) (expires_at : Z) : option str :=
  claims ← claims_print {| claims_user := username user; claims_expire := expires_at |};
  signature ← session_signature (password user) claims;
  Some (b64url_encode claims ++ lit "." ++ b64url_encode signature).

(** [validate_session_token]. *)
Definition validate_session_token (token : str) (credentials : AdminCredentialsFile) (now : Z) : option str :=
  '(claims, signature) ← split_once 46 token;
  claims ← b64url_decode claims;
  signature ← b64url_decode signature;
  document ← claims_parse claims;
  if claims_expire document <=? now then None
  else
    user ← find_first (fun user => str_eqb (username user) (claims_user document)) (admins credentials);
    expected ← session_signature (password user) claims;
    if str_eqb signature expected then Some (claims_user document) else None.

(** [session_cookie]. *)
Definition cookie_parts (h : Headers) : list (str * str) :=
  omap (fun part => split_once 61 (trim part))
    (flat_map (split_by (Z.eqb 59)) (filter (fun v => header_text v = true) (get_all "cookie" h))).

Definition session_cookie (h : Headers) : option str :=
  snd <$> find_first (fun kv => str_eqb kv.1 ADMIN_SESSION_COOKIE) (cookie_parts h).

(** [decode_basic_credentials]. *)
Definition decode_basic_credentials (authorization : str) : option (list Z * list Z) :=
  encoded ← strip_prefix (lit "Basic ") authorization;
  decoded ← b64std_decode encoded;
  split_once 58 decoded.

Definition authorization (h : Headers) : str :=
  match get_all "authorization" h with
  | v :: _ => if header_text v then v else []
  | [] => []
  end.

(** [authorize] at the Unix time [now]. *)
Definition authorize (fs : filesystem) (state : AdminState) (h : Headers) (now : Z) : result ApiError unit :=
  let auth := authorization h in
  let valid_token :=
    match admin_token state, strip_prefix (lit "Bearer ") auth with
    | Some expected, Some provided => str_eqb provided expected
    | _, _ => false
    end in
  if valid_token then Ok tt
  else
    credentials ← rmap_err (fun _ => Internal) (load_credentials fs (credentials_path state));
    if match session_cookie h with
       | Some token => bool_decide (is_Some (validate_session_token token credentials now))
       | None => false
       end
    then Ok tt
    else
      match decode_basic_credentials auth with
      | Some (name, pass) =>
          if existsb (fun user => str_eqb name (username user) && str_eqb pass (password user)) (admins credentials)
          then Ok tt else Err Unauthorized
      | None => Err Unauthorized
      end.

(** The cookie of a session. *)
Definition session_set_cookie (token : str) : str :=
  ADMIN_SESSION_COOKIE ++ lit "=" ++ token ++ lit "; Max-Age=" ++ dec ADMIN_SESSION_TTL_SECS
  ++ lit "; Path=/; HttpOnly; SameSite=Strict".

(** [login]: the header set, and the body. *)
Definition login (fs : filesystem) (state : AdminState) (name pass : str) (now : Z)
    : result ApiError (str * (str * Z)) :=
  credentials ← rmap_err (fun _ => Internal) (load_credentials fs (credentials_path state));
  user ← ok_or Unauthorized (find_first (fun user =>
    str_eqb name (username user) && str_eqb pass (password user)) (admins credentials));
  let expires_at := sat_add now ADMIN_SESSION_TTL_SECS in
  token ← ok_or Internal (issue_session_token user expires_at);
  ensure (header_valid (session_set_cookie token)) Internal;;
  Ok (session_set_cookie token, (username user, expires_at)).

(** [logout]. *)
Definition logout : str := ADMIN_SESSION_COOKIE ++ lit "=; Max-Age=0; Path=/; HttpOnly; SameSite=Strict".
End sessions.

(** ** What authorizes a request *)

Section authorization.
Context `{SessionLib} `{Blake2bMac} `{CredentialsToml}.

Lemma session_signature_eq pass claims : session_signature pass claims = Some (mac512 (blake2b512 pass) claims).
Proof. unfold session_signature, len. by rewrite blake2b512_length. Qed.

(** A session of a user: claims with the user's name that have not expired, and
    their code under the user's password. *)
Definition session_of (token : str) (u : AdminCredentials) (now : Z) : Prop :=
  ∃ c s claims document,
    token = c ++ 46 :: s ∧ 46 ∉ c ∧ b64url_decode c = Some claims ∧ claims_parse claims = Some document ∧
    claims_user document = username u ∧ now < claims_expire document ∧
    b64url_decode s = Some (mac512 (blake2b512 (password u)) claims).

Lemma find_user (users : list AdminCredentials) name u :
  NoDup (username <$> users) →
  find_first (fun user => str_eqb (username user) name) users = Some u ↔ u ∈ users ∧ username u = name.
Proof.
  intros Hnd. split.
  - intros [Hin E]%find_first_Some. by apply str_eqb_eq in E.
  - intros [Hin <-]. destruct (find_first _ users) as [v|] eqn:E.
    + apply find_first_Some in E as [Hv Ev]. apply str_eqb_eq in Ev. f_equal. by apply (NoDup_username_inj users).
    + exfalso. assert (Hall : ∀ x, x ∈ users → str_eqb (username x) (username u) = false).
      { clear Hnd. induction users as [|y users IH]; [set_solver|]. cbn in E.
        destruct (str_eqb (username y) (username u)) eqn:Ey; [done|].
        intros x [->|Hx]%elem_of_cons; [done|]. destruct (decide (u ∈ users)) as [Hu|Hu]; [by apply IH|].
        apply elem_of_cons in Hin as [<-|?]; [|done].
        by rewrite (proj2 (str_eqb_eq _ _) eq_refl) in Ey. }
      specialize (Hall u Hin). by rewrite (proj2 (str_eqb_eq _ _) eq_refl) in Hall.
Qed.

Lemma validate_session_token_spec token c now :
  users_ok (admins c) →
  is_Some (validate_session_token token c now) ↔ ∃ u, u ∈ admins c ∧ session_of token u now.
Proof.
  intros (_ & _ & Hnd). unfold validate_session_token, session_of. split.
  - intros [name Hv]. apply bind_Some in Hv as ([a b] & [-> Ha]%split_once_Some & Hv).
    apply bind_Some in Hv as (claims & Hc & Hv). apply bind_Some in Hv as (sig & Hs & Hv).
    apply bind_Some in Hv as (doc & Hd & Hv). destruct (Z.leb_spec (claims_expire doc) now); [done|].
    apply bind_Some in Hv as (u & Hf & Hv). apply find_user in Hf as [Hu Hn]; [|done]. rewrite session_signature_eq in Hv. cbn in Hv.
    destruct (str_eqb sig _) eqn:E; [|done]. apply str_eqb_eq in E as ->.
    exists u. split; [done|]. by exists a, b, claims, doc.
  - intros (u & Hu & a & b & claims & doc & -> & Ha & Hc & Hd & Hn & Hnow & Hs).
    rewrite (proj2 (split_once_Some _ _ a b)) by done. cbn. rewrite Hc. cbn. rewrite Hs. cbn. rewrite Hd. cbn.
    rewrite (proj2 (Z.leb_gt _ _)) by done. rewrite (proj2 (find_user (admins c) _ u Hnd)) by done. cbn.
    rewrite session_signature_eq. cbn. rewrite (proj2 (str_eqb_eq _ _) eq_refl). eauto.
Qed.

(** Basic credentials name a user by name and password. *)
Lemma basic_spec auth c :
  users_ok (admins c) →
  match decode_basic_credentials auth with
  | Some (name, pass) => existsb (fun user => str_eqb name (username user) && str_eqb pass (password user)) (admins c)
  | None => false
  end = true ↔
  ∃ u encoded, u ∈ admins c ∧ auth = lit "Basic " ++ encoded ∧
               b64std_decode encoded = Some (username u ++ 58 :: password u).
Proof.
  intros (_ & Hall & _). rewrite Forall_forall in Hall. unfold decode_basic_credentials. split.
  - destruct (strip_prefix (lit "Basic ") auth) as [enc|] eqn:Ep; cbn; [|done].
    apply strip_prefix_Some in Ep as ->. destruct (b64std_decode enc) as [d|] eqn:Ed; cbn; [|done].
    destruct (split_once 58 d) as [[n p]|] eqn:Es; [|done]. apply split_once_Some in Es as [-> _].
    rewrite existsb_exists. intros (u & Hu%list_elem_of_In & [En Ep]%andb_true_iff).
    apply str_eqb_eq in En as ->, Ep as ->. eauto.
  - intros (u & enc & Hu & -> & Hd). rewrite (proj2 (strip_prefix_Some _ _ enc) eq_refl). cbn. rewrite Hd. cbn.
    rewrite (proj2 (split_once_Some _ _ (username u) (password u))) by (split; [done|by apply (Hall u Hu)]).
    apply existsb_exists. exists u. rewrite !(proj2 (str_eqb_eq _ _) eq_refl). split; [by apply list_elem_of_In|done].
Qed.

Lemma authorize_cases fs state h now :
  (authorize fs state h now = Ok tt ↔
     (∃ token, admin_token state = Some token ∧ authorization h = lit "Bearer " ++ token) ∨
     (∃ c, load_credentials fs (credentials_path state) = Ok c ∧
        ((∃ token u, session_cookie h = Some token ∧ u ∈ admins c ∧ session_of token u now) ∨
         (∃ u encoded, u ∈ admins c ∧ authorization h = lit "Basic " ++ encoded ∧
            b64std_decode encoded = Some (username u ++ 58 :: password u))))) ∧
  (∀ e, authorize fs state h now = Err e →
     match load_credentials fs (credentials_path state) with Ok _ => e = Unauthorized | Err _ => e = Internal end).
Proof.
  assert (Ht : match admin_token state, strip_prefix (lit "Bearer ") (authorization h) with
               | Some expected, Some provided => str_eqb provided expected
               | _, _ => false
               end = true ↔ ∃ token, admin_token state = Some token ∧ authorization h = lit "Bearer " ++ token).
  { destruct (admin_token state) as [t|]; [|naive_solver].
    destruct (strip_prefix _ _) as [p|] eqn:Ep.
    - apply strip_prefix_Some in Ep as ->. rewrite str_eqb_eq. split; [naive_solver|].
      intros (t' & [= <-] & E). by apply (inj (app (lit "Bearer "))) in E.
    - split; [done|]. intros (t' & _ & E). rewrite (proj2 (strip_prefix_Some _ _ t') E) in Ep. done. }
  unfold authorize. destruct (match admin_token state with Some _ => _ | None => _ end); [naive_solver|].
  destruct (load_credentials fs (credentials_path state)) as [c|e] eqn:Hl; res_simpl; [|naive_solver].
  pose proof (load_credentials_ok _ _ _ Hl) as Hok. pose proof (basic_spec (authorization h) c Hok) as Hb.
  assert (Hs : match session_cookie h with
               | Some token => bool_decide (is_Some (validate_session_token token c now))
               | None => false
               end = true ↔ ∃ token u, session_cookie h = Some token ∧ u ∈ admins c ∧ session_of token u now).
  { destruct (session_cookie h) as [token|]; [|naive_solver].
    rewrite bool_decide_eq_true, validate_session_token_spec by done. naive_solver. }
  assert (Hc : ∀ P : AdminCredentialsFile → Prop, (∃ c', @Ok CredentialsError _ c = Ok c' ∧ P c') ↔ P c) by naive_solver.
  rewrite Hc, <- Ht, <- Hs, <- Hb. clear Hc Hs Hb Hok Ht.
  destruct (match session_cookie h with Some _ => _ | None => _ end); [naive_solver|].
  destruct (decode_basic_credentials (authorization h)) as [[n p]|]; [destruct (existsb _ _)|]; naive_solver.
Qed.

(** Claim C3. A request is authorized exactly when it has the administration token as its bearer token, or the
    credentials load and it has the session cookie of a current administrator (the
    claims unexpired, with that administrator's name and the code of the claims
    under the current password) or an administrator's name and password as basic
    credentials. It is otherwise refused as unauthorized, and as an internal error
    only when the credentials do not load. *)
Theorem authorize_spec fs state h now :
  (authorize fs state h now = Ok tt ↔
     (∃ token, admin_token state = Some token ∧ authorization h = lit "Bearer " ++ token) ∨
     (∃ c, load_credentials fs (credentials_path state) = Ok c ∧
        ((∃ token u, session_cookie h = Some token ∧ u ∈ admins c ∧ session_of token u now) ∨
         (∃ u encoded, u ∈ admins c ∧ authorization h = lit "Basic " ++ encoded ∧
            b64std_decode encoded = Some (username u ++ 58 :: password u))))) ∧
  (∀ e, authorize fs state h now = Err e →
     match load_credentials fs (credentials_path state) with Ok _ => e = Unauthorized | Err _ => e = Internal end).
Proof. apply authorize_cases. Qed.
End authorization.

(** ** Cookies *)

Lemma trim_cons_space s : trim (32 :: s) = trim s.
Proof. done. Qed.

Lemma split_cookies (p o : str) (l : list str) :
  59 ∉ p → Forall (fun x => 59 ∉ x) (o :: l) →
  split_by (Z.eqb 59) (p ++ join (lit "; ") (o :: l)) = (p ++ o) :: (cons 32 <$> l).
Proof.
  assert (Hno : ∀ x : str, 59 ∉ x → Forall (fun b => (59 =? b) = false) x).
  { intros x Hx. apply Forall_forall. intros b Hb. apply Z.eqb_neq. intros <-. done. }
  revert p o. induction l as [|o' l IH]; intros p o Hp Hl.
  - apply Forall_cons in Hl as [Hl _]. cbn [join fmap list_fmap]. apply split_by_none. apply Forall_app_2; [by apply Hno|apply Hno; exact Hl].
  - apply Forall_cons in Hl as [Ho Hl]. rewrite join_cons_cons.
    change (lit "; " ++ ?x) with (59 :: [32] ++ x). rewrite app_assoc, split_by_app_sep by done.
    rewrite IH by (done || set_solver). rewrite split_by_none by (apply Forall_app_2; [by apply Hno|apply Hno; exact Ho]). done.
Qed.

(** The cookies of a header, whatever white space is between them. *)
Lemma cookie_pairs (ps : list str) :
  ps ≠ [] → Forall (fun x => 59 ∉ x) ps →
  omap (fun part => split_once 61 (trim part)) (split_by (Z.eqb 59) (join (lit "; ") ps))
  = omap (fun part => split_once 61 (trim part)) ps.
Proof.
  intros Hne Hps. destruct ps as [|o l]; [done|].
  pose proof (split_cookies [] o l ltac:(set_solver) Hps) as E. cbn [app] in E. rewrite E.
  change (o :: l) with ([o] ++ l). change (o :: (cons 32 <$> l)) with ([o] ++ (cons 32 <$> l)).
  rewrite !omap_app. f_equal. clear. induction l as [|x l IH]; [done|]. rewrite fmap_cons.
  cbn [omap list_omap]. rewrite trim_cons_space. by rewrite IH.
Qed.

Section login.
Context `{SessionLib} `{Blake2bMac} `{CredentialsToml}.

(** A cookie of another name. *)
Definition other_cookie (o : str) : Prop :=
  59 ∉ o ∧ Forall (fun b => printable b = true) o ∧ ∀ v, split_once 61 (trim o) ≠ Some (ADMIN_SESSION_COOKIE, v).

Definition token_char (b : Z) : Prop := url_safe b = true ∨ b = 46.

Lemma token_char_range b : token_char b → 45 ≤ b ≤ 122 ∧ b ≠ 59 ∧ b ≠ 61.
Proof.
  unfold token_char, url_safe, is_ascii_alphanumeric. rewrite !orb_true_iff, !in_range_true, !Z.eqb_eq. lia.
Qed.

Lemma issued_token_chars u exp token : issue_session_token u exp = Some token → Forall token_char token.
Proof.
  unfold issue_session_token. intros (claims & Hc & Ht)%bind_Some. rewrite session_signature_eq in Ht. cbn in Ht.
  injection Ht as <-. apply claims_roundtrip in Hc as [Hb _].
  apply Forall_app_2; [eapply Forall_impl; [by apply b64url_alphabet|by left]|].
  change (lit "." ++ ?x) with (46 :: x). constructor; [by right|].
  eapply Forall_impl; [apply b64url_alphabet, mac512_bytes|by left].
Qed.

Lemma session_cookie_found others token :
  Forall other_cookie others → Forall token_char token →
  session_cookie [(lit "cookie", join (lit "; ") (others ++ [ADMIN_SESSION_COOKIE ++ lit "=" ++ token]))] = Some token.
Proof.
  intros Ho Ht. set (own := ADMIN_SESSION_COOKIE ++ lit "=" ++ token).
  assert (Hown : Forall (fun b => 33 ≤ b ≤ 126 ∧ b ≠ 59) own).
  { unfold own. apply Forall_app_2; [apply (bool_decide_unpack _); by vm_compute|].
    apply Forall_app_2; [apply (bool_decide_unpack _); by vm_compute|].
    eapply Forall_impl; [exact Ht|]. intros b Hb%token_char_range. lia. }
  assert (Htrim : trim own = own).
  { apply trimmed_trim, graphic_trimmed. eapply Forall_impl; [exact Hown|]. by intros b []. }
  assert (Hsplit : split_once 61 own = Some (ADMIN_SESSION_COOKIE, token)).
  { apply split_once_Some. split; [done|]. apply (bool_decide_unpack _). by vm_compute. }
  assert (Hprint : Forall (fun b => printable b = true) (join (lit "; ") (others ++ [own]))).
  { apply join_Forall; [apply (bool_decide_unpack _); by vm_compute|]. apply Forall_app_2.
    - eapply Forall_impl; [exact Ho|]. by intros o (_ & ? & _).
    - apply Forall_singleton. eapply Forall_impl; [exact Hown|]. intros b [? _]. apply in_range_true. lia. }
  unfold session_cookie, cookie_parts.
  change (get_all "cookie" [(lit "cookie", ?v)]) with [v]. rewrite filter_cons_True by by apply header_printable.
  change (flat_map ?f (?x :: filter _ [])) with (f x ++ []). rewrite app_nil_r, cookie_pairs; [|by destruct others|].
  - rewrite omap_app. cbn [omap list_omap]. rewrite Htrim, Hsplit, find_first_app.
    rewrite find_first_None; [by vm_compute|]. intros [n v] (o & Hin & Hs)%list_elem_of_omap.
    rewrite Forall_forall in Ho. destruct (Ho o Hin) as (_ & _ & Hother). apply not_true_iff_false.
    cbn [fst]. intros E%str_eqb_eq. subst n. by destruct (Hother v).
  - apply Forall_app_2; [eapply Forall_impl; [exact Ho|by intros o []]|]. constructor; [|done].
    intros Hin. rewrite Forall_forall in Hown. by destruct (Hown 59 Hin).
Qed.

(** Whose session an issued token is. *)
Lemma session_of_issued u exp token :
  issue_session_token u exp = Some token →
  ∃ claims, ∀ v now, session_of token v now ↔
    username v = username u ∧ now < exp ∧
    mac512 (blake2b512 (password v)) claims = mac512 (blake2b512 (password u)) claims.
Proof.
  unfold issue_session_token. intros (claims & Hc & Ht)%bind_Some. rewrite session_signature_eq in Ht. cbn in Ht.
  apply claims_roundtrip in Hc as [Hb Hparse]. exists claims. intros v now.
  set (sig := mac512 (blake2b512 (password u)) claims) in *.
  assert (Hsig : b64url_decode (b64url_encode sig) = Some sig) by (apply b64url_roundtrip, mac512_bytes).
  assert (Hno : 46 ∉ b64url_encode claims).
  { intros Hin. pose proof (b64url_alphabet claims Hb) as Ha. rewrite Forall_forall in Ha. by specialize (Ha 46 Hin). }
  assert (Hsplit : split_once 46 token = Some (b64url_encode claims, b64url_encode sig)).
  { injection Ht as <-. by apply split_once_Some. }
  split.
  - intros (a & b & claims' & doc & -> & Ha & Hda & Hdoc & Hn & Hnow & Hdb).
    rewrite (proj2 (split_once_Some _ _ a b)) in Hsplit by done. injection Hsplit as -> ->.
    rewrite (b64url_roundtrip claims Hb) in Hda. injection Hda as <-. rewrite Hparse in Hdoc. injection Hdoc as <-.
    rewrite Hsig in Hdb. injection Hdb as <-. done.
  - intros (Hn & Hnow & Hm). apply split_once_Some in Hsplit as [-> _].
    exists (b64url_encode claims), (b64url_encode sig), claims, {| claims_user := username u; claims_expire := exp |}.
    rewrite Hm. split_and!; try done. by apply b64url_roundtrip.
Qed.

(** Claim C24. Logging in gives a session of the user whose name and password were given. The cookie, sent back
    alone or after other cookies, authorizes until it expires a day later, as long
    as the user keeps the password and whatever happens to the others; and it is
    never accepted later, nor for credentials in which no user of that name has a
    password that gives the claims the same code. *)
Theorem login_session fs state n pass now cookie body :
  login fs state n pass now = Ok (cookie, body) →
  ∃ c u token claims,
    load_credentials fs (credentials_path state) = Ok c ∧ u ∈ admins c ∧ username u = n ∧ password u = pass ∧
    cookie = session_set_cookie token ∧ body = (n, sat_add now ADMIN_SESSION_TTL_SECS) ∧
    (∀ others, Forall other_cookie others →
       session_cookie [(lit "cookie", join (lit "; ") (others ++ [ADMIN_SESSION_COOKIE ++ lit "=" ++ token]))] = Some token) ∧
    (∀ fs' state' h now' c', session_cookie h = Some token →
       load_credentials fs' (credentials_path state') = Ok c' → u ∈ admins c' →
       now' < sat_add now ADMIN_SESSION_TTL_SECS → authorize fs' state' h now' = Ok tt) ∧
    (∀ c' now', users_ok (admins c') → is_Some (validate_session_token token c' now') →
       now' < sat_add now ADMIN_SESSION_TTL_SECS ∧
       ∃ v, v ∈ admins c' ∧ username v = n ∧ mac512 (blake2b512 (password v)) claims = mac512 (blake2b512 pass) claims).
Proof.
  unfold login. intros Hl.
  destruct (load_credentials fs (credentials_path state)) as [c|] eqn:Hc; res_simpl in Hl; [|done].
  apply rbind_Ok in Hl as (u & Hu%ok_or_Ok & Hl). apply find_first_Some in Hu as [Hu [Hn Hp]%andb_true_iff].
  apply str_eqb_eq in Hn as ->, Hp as ->. apply rbind_Ok in Hl as (token & Ht%ok_or_Ok & Hl).
  apply rbind_Ok in Hl as ([] & _ & [= <- <-]).
  pose proof (issued_token_chars _ _ _ Ht) as Hchars.
  destruct (session_of_issued _ _ _ Ht) as [claims Hsession]. exists c, u, token, claims. split_and!; try done.
  - intros others Ho. by apply session_cookie_found.
  - intros fs' state' h now' c' Hcookie Hc' Hu' Hnow. apply authorize_cases. right. exists c'. split; [done|]. left.
    exists token, u. by rewrite Hsession.
  - intros c' now' Hok (v & Hv & Hs)%validate_session_token_spec; [|done]. apply Hsession in Hs. naive_solver.
Qed.
End login.

(** An instance to evaluate with: hexadecimal for Base64, the claims as eight bytes
    and the name. *)
Definition unhex_digit (c : Z) : Z := if c <? 58 then c - 48 else c - 87.

Fixpoint unhex (s : str) : option (list Z) :=
  match s with
  | [] => Some []
  | a :: b :: s => cons (unhex_digit a * 16 + unhex_digit b) <$> unhex s
  | [_] => None
  end.

Lemma hex_digit_inverse v : 0 ≤ v < 16 → unhex_digit (hex_digit v) = v ∧ url_safe (hex_digit v) = true.
Proof.
  intros Hv. assert (Hall : Forall (fun v => unhex_digit (hex_digit v) = v ∧ url_safe (hex_digit v) = true) (seqZ 0 16))
    by (apply (bool_decide_unpack _); by vm_compute).
  rewrite Forall_forall in Hall. apply Hall, elem_of_seqZ. lia.
Qed.

Lemma hex_halves b : u8_ok b → 0 ≤ b / 16 < 16 ∧ 0 ≤ b mod 16 < 16.
Proof.
  intros Hb. rewrite u8_ok_iff in Hb. pose proof (Z.mod_pos_bound b 16 ltac:(lia)).
  split; [|lia]. split; [apply Z.div_pos|apply Z.div_lt_upper_bound]; lia.
Qed.

Lemma unhex_hex l : is_bytes l → unhex (hex l) = Some l.
Proof.
  induction 1 as [|b l Hb _ IH]; [done|]. destruct (hex_halves b Hb) as [H1 H2].
  change (hex (b :: l)) with (hex_digit (b / 16) :: hex_digit (b mod 16) :: hex l). cbn [unhex]. rewrite IH.
  destruct (hex_digit_inverse _ H1) as [-> _], (hex_digit_inverse _ H2) as [-> _]. cbn. do 2 f_equal.
  rewrite (Z.div_mod b 16) at 3 by lia. lia.
Qed.

Lemma hex_url_safe l : is_bytes l → Forall (fun b => url_safe b = true) (hex l).
Proof.
  induction 1 as [|b l Hb _ IH]; [constructor|]. destruct (hex_halves b Hb) as [H1 H2].
  change (hex (b :: l)) with (hex_digit (b / 16) :: hex_digit (b mod 16) :: hex l).
  by repeat constructor; [apply hex_digit_inverse..|].
Qed.

Definition example_claims_print (c : SessionClaims) : option (list Z) :=
  if decide (is_bytes (claims_user c) ∧ u64_ok (claims_expire c))
  then Some (to_be_bytes 8 (claims_expire c) ++ claims_user c) else None.

Definition example_claims_parse (l : list Z) : option SessionClaims :=
  Some {| claims_user := drop 8 l; claims_expire := from_be_bytes (take 8 l) |}.

Lemma example_claims_roundtrip c j :
  example_claims_print c = Some j → is_bytes j ∧ example_claims_parse j = Some c.
Proof.
  unfold example_claims_print, example_claims_parse. case_decide as Hc; [|done]. destruct Hc as [Hu He].
  intros Hj. assert (j = to_be_bytes 8 (claims_expire c) ++ claims_user c) as -> by congruence. clear Hj.
  split; [apply Forall_app_2; [apply to_be_bytes_is_bytes|done]|].
  rewrite take_app_length', drop_app_length' by (by rewrite to_be_bytes_length).
  rewrite from_to_be_bytes_small by exact He. by destruct c.
Qed.

Lemma example_printable s : Forall (fun b => printable b = true) s → forallb printable s = true ∧ forallb printable s = true.
Proof.
  intros Hs. assert (E : forallb printable s = true); [|done]. induction Hs as [|b s Hb _ IH]; [done|]. cbn.
  by rewrite Hb, IH.
Qed.

Definition example_session_lib : SessionLib := {|
  blake2b512 := fun m => replicate 63 0 ++ [foldr Z.add 0 m mod 256];
  claims_print := example_claims_print; claims_parse := example_claims_parse;
  b64url_encode := hex; b64url_decode := unhex; b64std_decode := unhex;
  header_valid := forallb printable; header_text := forallb printable;
  blake2b512_length := fun m => eq_refl;
  claims_roundtrip := example_claims_roundtrip; b64url_roundtrip := unhex_hex;
  b64url_alphabet := hex_url_safe; header_printable := example_printable |}.

Definition example_admin_state : AdminState := {|
  config_path := lit "config.toml"; admin_token := None; credentials_path := example_cred_path;
  webui_listen := lit "127.0.0.1:9080"; startup_token_file := None; worker_threads := 4 |}.

(** The token of the session that [example_admin] gets at time 1000. *)
Definition example_session : str :=
  let _ := example_session_lib in let _ := example_blake2b in
  default [] (issue_session_token example_admin 87400).

Lemma authorize_spec_witness :
  let _ := example_session_lib in let _ := example_blake2b in let _ := example_cred_toml in
  let h := [(lit "authorization", lit "Basic " ++ hex (lit "admin:secret"))] in
  authorize example_cred_fs example_admin_state h 0 = Ok tt.
Proof.
  intros lib mac toml h.
  apply (authorize_spec (H := lib) (H0 := mac) (H1 := toml) example_cred_fs example_admin_state h 0). right.
  exists {| admins := [example_admin] |}. split; [by vm_compute|]. right.
  exists example_admin, (hex (lit "admin:secret")). split_and!; [by left|by vm_compute..].
Defined.

Lemma login_session_witness :
  let _ := example_session_lib in let _ := example_blake2b in let _ := example_cred_toml in
  let h := [(lit "cookie", join (lit "; ") ([lit "theme=dark"] ++ [ADMIN_SESSION_COOKIE ++ lit "=" ++ example_session]))] in
  login example_cred_fs example_admin_state (lit "admin") (lit "secret") 1000
  = Ok (session_set_cookie example_session, (lit "admin", 87400)) ∧
  authorize example_cred_fs example_admin_state h 87399 = Ok tt.
Proof.
  intros lib mac toml h. split; [by vm_compute|].
  destruct (login_session (H := lib) (H0 := mac) (H1 := toml) example_cred_fs example_admin_state (lit "admin") (lit "secret") 1000
    (session_set_cookie example_session) (lit "admin", 87400)) as (c & u & token & claims & Hc & Hu & _ & _ & Ht & _ & Hcookie & Hok & _);
    [by vm_compute|].
  assert (token = example_session) as ->.
  { unfold session_set_cookie in Ht. do 2 apply (inj (app _)) in Ht. by apply (inj (fun x => x ++ _)) in Ht. }
  apply (Hok _ _ _ _ c); [|exact Hc|exact Hu|by vm_compute].
  apply Hcookie. constructor; [|done]. split_and!; [apply (bool_decide_unpack _); by vm_compute..|].
  intros v Hv. vm_compute in Hv. discriminate Hv.
Defined.
