(* ===== verification/ReverseProxy.v ===== *)
(** * The reverse proxy's settings and controller ([src/src/reverse_proxy.rs])

    The settings of the NAT tunnel, their checks and their file, and the controller
    that runs a gateway or a client from them and restarts it when they change.

    TOML, URL parsing and the random generator are parameters; the tunnel task is
    known by its number and ends when it likes.  [toml_parse] is a function, so a
    file that leaves out its token, which the program replaces by a new random one
    at every read, is not among those it describes. *)

From stdpp Require Import base list gmap strings.
From Stdlib Require Import ZArith Lia.
From S2P Require Import Prelude RustStr Lines Net Rules Files PrivateFile Config Stream NatTunnel NatGateway.

Open Scope Z_scope.

Inductive ReverseProxyRole := Gateway | Client.

#[export] Instance ReverseProxyRole_eq_dec : EqDecision ReverseProxyRole.
Proof. solve_decision. Defined.

Record ReverseProxySettings := {
  enabled : bool;
  role : ReverseProxyRole;
  gateway : str;
  tunnel_port : Z;
  public_port : Z;
  local_port : Z;
  pool_size : Z;
  queue_capacity : Z;
  token : str;
  subscription : str;
}.

#[export] Instance ReverseProxySettings_eq_dec : EqDecision ReverseProxySettings.
Proof. solve_decision. Defined.

Inductive ProxyError :=
| BadToken
| BadPoolSize
| BadQueueCapacity
| BadSubscriptionUrl
| SamePorts
| BadEndpoint
| ProxyUnreadable
| ProxyUnparsable
| ProxyNotSerialized
| ProxyNotReplaced (e : ReplaceError).

(** [generate_token]; [random] is what [getrandom::fill] gives. *)
Definition generate_token (random : option (list Z)) : option str := hex <$> random.

(** [ReverseProxySettings::default]. *)
Definition default_settings (random : option (list Z)) : ReverseProxySettings := {|
  enabled := false; role := Client; gateway := []; tunnel_port := 7000; public_port := 51400; local_port := 51400;
  pool_size := 4; queue_capacity := 64; token := default [] (generate_token random); subscription := [] |}.

(** [validate_endpoint]. *)
Definition validate_endpoint (endpoint : str) : result ProxyError unit :=
  let endpoint := trim endpoint in
  '(host, port) ←
    match strip_prefix (lit "[") endpoint with
    | Some rest => ok_or BadEndpoint (split_once_str (lit "]:") rest)
    | None =>
        '(host, port) ← ok_or BadEndpoint (rsplit_once 58 endpoint);
        ensure (negb (contains_char 58 host)) BadEndpoint;;
        Ok (host, port)
    end;
  ensure (negb (is_nil (trim host))) BadEndpoint;;
  port ← ok_or BadEndpoint (parse_u16 port);
  ensure (port >? 0) BadEndpoint.

Section settings.
Context `{HttpLib}.

(** [ReverseProxySettings::validate]. *)
Definition settings_validate (s : ReverseProxySettings) : result ProxyError unit :=
  ensure (in_range 16 (len (token s)) 256 && negb (has_control (token s))) BadToken;;
  ensure (in_range 1 (pool_size s) 64) BadPoolSize;;
  ensure (in_range 1 (queue_capacity s) 1024) BadQueueCapacity;;
  (if is_nil (subscription s) then Ok tt
   else
     scheme ← ok_or BadSubscriptionUrl (url_scheme (subscription s));
     ensure (str_eqb scheme (lit "http") || str_eqb scheme (lit "https")) BadSubscriptionUrl;;
     ensure ((len (subscription s) <=? 2048) && negb (has_control (subscription s))) BadSubscriptionUrl);;
  if negb (enabled s) then Ok tt
  else
    match role s with
    | Gateway => ensure (negb (tunnel_port s =? public_port s)) SamePorts
    | Client => validate_endpoint (gateway s)
    end.

Context `{TomlLib ReverseProxySettings}.

(** [save]: the outcome and the states on the way. *)
Definition proxy_save (s : ReverseProxySettings) (fs : filesystem) (path : str) (faults : ReplaceFaults)
    : result ProxyError unit * list filesystem :=
  match settings_validate s with
  | Err e => (Err e, [fs])
  | Ok _ => save_private ProxyNotSerialized ProxyNotReplaced (toml_print s) fs path faults
  end.

(** The first branch of [load_or_create]. *)
Definition load_settings (text : str) : result ProxyError ReverseProxySettings :=
  s ← ok_or ProxyUnparsable (toml_parse text);
  settings_validate s;;
  Ok s.

(** [load_or_create]. *)
Definition load_or_create (fs : filesystem) (path : str) (random : option (list Z)) (faults : ReplaceFaults)
    : result ProxyError ReverseProxySettings * list filesystem :=
  match fs !! path with
  | Some f =>
      ((text ← ok_or ProxyUnreadable (from_utf8 (contents f)); load_settings text), [fs])
  | None =>
      let s := default_settings random in
      let '(r, trace) := proxy_save s fs path faults in
      (rmap (fun _ => s) r, trace)
  end.
End settings.

(** ** The controller *)

Record ProxyRuntime := { proxy_running : bool; proxy_started : option Z; proxy_error : option str }.

Definition default_proxy_runtime : ProxyRuntime :=
  {| proxy_running := false; proxy_started := None; proxy_error := None |}.

(** [ControllerInner]; the task is known by its number, [next_task] is fresh. *)
Record Controller := {
  proxy_path : str;
  settings : ReverseProxySettings;
  runtime : ProxyRuntime;
  node_tracker : Tracker;
  task : option nat;
  next_task : nat;
}.

(** [restart] at the instant [now]: the old task is gone when its slot is emptied. *)
Definition restart (now : Z) (c : Controller) : Controller :=
  let tracker := clear (node_tracker c) in
  if negb (enabled (settings c)) then
    {| proxy_path := proxy_path c; settings := settings c; runtime := default_proxy_runtime;
       node_tracker := tracker; task := None; next_task := next_task c |}
  else
    {| proxy_path := proxy_path c; settings := settings c;
       runtime := {| proxy_running := true; proxy_started := Some now; proxy_error := None |};
       node_tracker := tracker; task := Some (next_task c); next_task := S (next_task c) |}.

(** The end of a tunnel task; its handle stays in the slot.  A task that is not in
    the slot was aborted and awaited, so it does not get here. *)
Definition task_end (id : nat) (error : option str) (c : Controller) : Controller :=
  if bool_decide (task c = Some id) then
    {| proxy_path := proxy_path c; settings := settings c;
       runtime := {| proxy_running := false; proxy_started := None; proxy_error := error |};
       node_tracker := node_tracker c; task := task c; next_task := next_task c |}
  else c.

Section controller.
Context `{HttpLib} `{TomlLib ReverseProxySettings}.

(** [ReverseProxyController::new]. *)
Definition controller_new (fs : filesystem) (path : str) (random : option (list Z)) (faults : ReplaceFaults) (now : Z)
    : result ProxyError Controller * list filesystem :=
  let '(r, trace) := load_or_create fs path random faults in
  (rmap (fun s => restart now {| proxy_path := path; settings := s; runtime := default_proxy_runtime;
                                 node_tracker := tracker_default; task := None; next_task := 0 |}) r, trace).

(** [update]. *)
Definition controller_update (new : ReverseProxySettings) (fs : filesystem) (faults : ReplaceFaults) (now : Z)
    (c : Controller) : result ProxyError unit * list filesystem * Controller :=
  match settings_validate new with
  | Err e => (Err e, [fs], c)
  | Ok _ =>
      let '(r, trace) := proxy_save new fs (proxy_path c) faults in
      match r with
      | Err e => (Err e, trace, c)
      | Ok _ =>
          if bool_decide (settings c = new) then (Ok tt, trace, c)
          else
            (Ok tt, trace, restart now {| proxy_path := proxy_path c; settings := new; runtime := runtime c;
                                          node_tracker := node_tracker c; task := task c; next_task := next_task c |})
      end
  end.
End controller.

(** [status], the part that is not copied: the seconds since the start. *)
Definition uptime_secs (now : Z) (c : Controller) : Z :=
  match proxy_started (runtime c) with
  | Some started => if proxy_running (runtime c) then now - started else 0
  | None => 0
  end.

(** ** What the task is started with *)

Record GatewayOptions := {
  tunnel_listen : str; public_listen : str; gateway_token : list Z; gateway_queue : Z;
}.
Record ClientOptions := {
  client_gateway : str; client_local : str; client_token : list Z; client_pool : Z;
  client_name : str; client_url : str;
}.

Inductive TunnelTask := RunGateway (o : GatewayOptions) | RunClient (o : ClientOptions).

Definition tunnel_task (s : ReverseProxySettings) (device : str) : TunnelTask :=
  match role s with
  | Gateway => RunGateway {| tunnel_listen := lit "0.0.0.0:" ++ dec (tunnel_port s);
                             public_listen := lit "0.0.0.0:" ++ dec (public_port s);
                             gateway_token := token s; gateway_queue := queue_capacity s |}
  | Client => RunClient {| client_gateway := gateway s; client_local := lit "127.0.0.1:" ++ dec (local_port s);
                           client_token := token s; client_pool := pool_size s;
                           client_name := device; client_url := subscription s |}
  end.

(** The checks at the start of [run_gateway] and [run_client]. *)
Definition run_checks `{HttpLib} (t : TunnelTask) : result TunnelError unit :=
  match t with
  | RunGateway o =>
      ensure (gateway_queue o >? 0) NoUsableTunnel;;
      ensure (gateway_queue o <=? 1024) NoUsableTunnel
  | RunClient o =>
      ensure (client_pool o >? 0) NoUsableTunnel;;
      ensure (client_pool o <=? 64) NoUsableTunnel;;
      validate_node_name (client_name o);;
      validate_subscription_url (client_url o)
  end.

(** ** What the checks mean *)

Lemma settings_validate_Ok `{HttpLib} s :
  settings_validate s = Ok tt →
  (16 ≤ len (token s) ≤ 256 ∧ has_control (token s) = false) ∧ 1 ≤ pool_size s ≤ 64 ∧ 1 ≤ queue_capacity s ≤ 1024 ∧
  validate_subscription_url (subscription s) = Ok tt ∧
  (enabled s = true → match role s with
                      | Gateway => tunnel_port s ≠ public_port s
                      | Client => validate_endpoint (gateway s) = Ok tt
                      end).
Proof.
  unfold settings_validate. intros Hv.
  apply rbind_Ok in Hv as (? & [Ht Hc]%ensure_Ok%andb_true_iff & Hv). apply in_range_true in Ht. apply negb_true_iff in Hc.
  apply rbind_Ok in Hv as (? & Hp%ensure_Ok%in_range_true & Hv).
  apply rbind_Ok in Hv as (? & Hq%ensure_Ok%in_range_true & Hv). apply rbind_Ok in Hv as ([] & Hu & Hv).
  split_and!; try done; try lia.
  - unfold validate_subscription_url. destruct (is_nil (subscription s)); [done|]. res_inv.
    unfold MAX_SUBSCRIPTION_URL_LENGTH. rewrite Hu. res_simpl. rewrite E. res_simpl. by rewrite E0.
  - intros He. rewrite He in Hv. cbn [negb] in Hv. destruct (role s); [|done].
    apply ensure_Ok, negb_true_iff in Hv. by apply Z.eqb_neq.
Qed.

(** Settings that pass the checks, with the name a device has, pass those of the
    task they start. *)
Lemma validated_task_starts `{HttpLib} s fs hostname :
  settings_validate s = Ok tt → run_checks (tunnel_task s (system_device_name fs hostname)) = Ok tt.
Proof.
  intros (_ & Hp & Hq & Hu & _)%settings_validate_Ok. unfold run_checks, tunnel_task.
  destruct (role s); cbn [gateway_queue client_pool client_name client_url].
  - rewrite Z.gtb_ltb, (proj2 (Z.ltb_lt _ _)) by lia. by rewrite (proj2 (Z.leb_le _ _)) by lia.
  - rewrite Z.gtb_ltb, (proj2 (Z.ltb_lt _ _)) by lia. rewrite (proj2 (Z.leb_le _ _)) by lia. res_simpl.
    by rewrite system_device_name_ok.
Qed.

(** ** The controller *)

Section controller_theorems.
Context `{HttpLib} `{TomlLib ReverseProxySettings}.

(** What a file holds. *)
Definition read_settings (f : option file) : result ProxyError ReverseProxySettings :=
  f ← ok_or ProxyUnreadable f;
  text ← ok_or ProxyUnreadable (from_utf8 (contents f));
  load_settings text.

(** What happens to a controller: an update, the end of a task. *)
Inductive ProxyEvent :=
| UpdateSettings (new : ReverseProxySettings) (faults : ReplaceFaults) (now : Z)
| TaskEnd (id : nat) (error : option str).

Definition proxy_step (s : filesystem * Controller) (e : ProxyEvent) : filesystem * Controller :=
  let '(fs, c) := s in
  match e with
  | UpdateSettings new faults now =>
      let '(_, trace, c) := controller_update new fs faults now c in
      (default fs (last trace), c)
  | TaskEnd id error => (fs, task_end id error c)
  end.

(** The file and the settings agree, and the runtime is that of the settings. *)
Record controller_inv (fs : filesystem) (c : Controller) : Prop := {
  inv_file : read_settings (fs !! proxy_path c) = Ok (settings c);
  inv_valid : settings_validate (settings c) = Ok tt;
  inv_running : proxy_running (runtime c) = true →
    enabled (settings c) = true ∧ is_Some (proxy_started (runtime c)) ∧ proxy_error (runtime c) = None ∧ is_Some (task c);
  inv_stopped : proxy_running (runtime c) = false → proxy_started (runtime c) = None;
  inv_disabled : enabled (settings c) = false → task c = None ∧ runtime c = default_proxy_runtime;
  inv_task : ∀ id, task c = Some id → (id < next_task c)%nat;
}.

(** What an update does. *)
Definition update_outcome (new : ReverseProxySettings) (fs : filesystem) (now : Z) (c : Controller)
    (out : result ProxyError unit * list filesystem * Controller) : Prop :=
  let '(r, trace, c') := out in
  (∀ fs', fs' ∈ trace → read_settings (fs' !! proxy_path c) = Ok (settings c) ∨
                        read_settings (fs' !! proxy_path c) = Ok new) ∧
  match r with
  | Ok _ =>
      settings c' = new ∧ (settings c = new → c' = c) ∧
      (settings c ≠ new → proxy_running (runtime c') = enabled new ∧
         task c' = (if enabled new then Some (next_task c) else None) ∧ nodes (node_tracker c') = ∅)
  | Err _ => c' = c
  end ∧
  ∃ fs_end, last trace = Some fs_end ∧ read_settings (fs_end !! proxy_path c) = Ok (settings c').

Lemma load_settings_Ok text s : load_settings text = Ok s → settings_validate s = Ok tt.
Proof.
  intros (s' & _ & ([] & Hv & [= <-])%rbind_Ok)%rbind_Ok. done.
Qed.

Lemma read_saved s data m :
  settings_validate s = Ok tt → toml_print s = Some data → read_settings (Some {| contents := data; mode := m |}) = Ok s.
Proof.
  intros Hv Hp. unfold read_settings, load_settings. res_simpl. cbn [contents]. unfold from_utf8.
  rewrite (toml_print_utf8 s data Hp). res_simpl. rewrite (toml_print_parse s data Hp). res_simpl. by rewrite Hv.
Qed.

Lemma restart_runtime now c :
  proxy_running (runtime (restart now c)) = enabled (settings c) ∧ settings (restart now c) = settings c ∧
  proxy_path (restart now c) = proxy_path c ∧ nodes (node_tracker (restart now c)) = ∅ ∧
  task (restart now c) = (if enabled (settings c) then Some (next_task c) else None).
Proof. unfold restart. by destruct (enabled (settings c)) eqn:E; cbn; rewrite ?E. Qed.

Lemma restart_path now c : proxy_path (restart now c) = proxy_path c.
Proof. apply (restart_runtime now c). Qed.

Lemma restart_settings now c : settings (restart now c) = settings c.
Proof. apply (restart_runtime now c). Qed.

Lemma restart_inv now fs c :
  read_settings (fs !! proxy_path c) = Ok (settings c) → settings_validate (settings c) = Ok tt →
  controller_inv fs (restart now c).
Proof.
  intros Hf Hv. unfold restart. destruct (enabled (settings c)) eqn:E; cbn [negb]; split; cbn; try done; try congruence.
  intros id [= <-]. lia.
Qed.

Lemma update_spec new fs faults now c :
  private_temporary (proxy_path c) ≠ proxy_path c → controller_inv fs c →
  update_outcome new fs now c (controller_update new fs faults now c).
Proof.
  intros Hne Hc. pose proof (inv_file _ _ Hc) as Hfile. unfold controller_update, proxy_save.
  destruct (settings_validate new) as [[]|e] eqn:Hv.
  2: { split_and!; [|done|by exists fs]. intros fs' ->%list_elem_of_singleton. by left. }
  destruct (save_private_saved read_settings (Ok new) ProxyNotSerialized ProxyNotReplaced (toml_print new) fs
    (proxy_path c) faults Hne) as (Hall & _ & fs_end & Hlast & Hend); [intros data m; by apply read_saved|].
  rewrite Hfile in Hall. destruct (save_private _ _ _ _ _ _) as [[[]|e] trace]; cbn [fst snd] in *.
  - case_bool_decide as Hs.
    + split; [done|]. split; [by split_and!|]. exists fs_end. by rewrite Hs.
    + split; [done|]. split; [|exists fs_end].
      * destruct (restart_runtime now {| proxy_path := proxy_path c; settings := new; runtime := runtime c;
          node_tracker := node_tracker c; task := task c; next_task := next_task c |}) as (? & ? & ? & ? & ?).
        by split_and!.
      * rewrite restart_settings. done.
  - split; [done|]. split; [done|]. exists fs_end. destruct Hend as [-> _]. done.
Qed.

Lemma proxy_step_inv fs c e :
  private_temporary (proxy_path c) ≠ proxy_path c → controller_inv fs c →
  controller_inv (proxy_step (fs, c) e).1 (proxy_step (fs, c) e).2 ∧
  proxy_path (proxy_step (fs, c) e).2 = proxy_path c.
Proof.
  intros Hne Hc. destruct e as [new faults now|id error]; cbn [proxy_step].
  - pose proof (update_spec new fs faults now c Hne Hc) as Hu. revert Hu. unfold controller_update.
    destruct (settings_validate new) as [[]|e] eqn:Hv; [|done].
    destruct (proxy_save new fs (proxy_path c) faults) as [[[]|e] trace].
    + case_bool_decide as Hs; intros (_ & _ & fs_end & Hlast & Hend); rewrite Hlast; cbn [fst snd default].
      * split; [|done]. destruct Hc. by split.
      * split; [|by rewrite restart_path]. apply restart_inv; [|done]. cbn [proxy_path settings].
        by rewrite restart_settings in Hend.
    + intros (_ & _ & fs_end & Hlast & Hend). rewrite Hlast. cbn. split; [|done]. destruct Hc. by split.
  - unfold task_end. case_bool_decide as Ht; [|done]. cbn [fst snd]. split; [|done]. destruct Hc as [Hf Hv Hr Hs Hd Hi].
    split; cbn; try done. intros He. destruct (Hd He) as [E _]. congruence.
Qed.

(** Claim C22. The controller, from its start and after any updates that come one after
    another, each saved completely or failing at any point, and ends of its tasks: the settings in memory are those the file holds
    and are valid; it runs only when they are enabled, with a task and a start
    time, and when disabled has no task and no error. An update that fails changes
    neither the controller nor the file; one that succeeds leaves the file and the
    controller with the new settings, and restarts it, with no node left in the
    tracker, exactly when they differ; a reader of the file sees the old or the new
    settings at every point. And the task they start passes the tunnel's own checks. The
    file is one that names its token, as every file the controller has written does: for
    one without, each read gives another token. *)
Theorem controller_spec fs path random faults now c trace fs0 events :
  private_temporary path ≠ path → controller_new fs path random faults now = (Ok c, trace) → last trace = Some fs0 →
  let '(fs', c') := foldl proxy_step (fs0, c) events in
  controller_inv fs' c' ∧
  (∀ new faults' now', update_outcome new fs' now' c' (controller_update new fs' faults' now' c')) ∧
  (∀ device hostname, run_checks (tunnel_task (settings c') (system_device_name device hostname)) = Ok tt).
Proof.
  intros Hne Hnew Hlast.
  assert (Hinit : controller_inv fs0 c ∧ proxy_path c = path).
  { unfold controller_new in Hnew. destruct (load_or_create fs path random faults) as [r tr] eqn:El.
    injection Hnew as Hr ->. apply rmap_Ok in Hr as (s & -> & ->).
    split; [|by rewrite restart_path]. unfold load_or_create in El.
    assert (Hs : read_settings (fs0 !! path) = Ok s ∧ settings_validate s = Ok tt); [|destruct Hs; by apply restart_inv].
    destruct (fs !! path) as [f|] eqn:Hf.
    - injection El as Hl <-. cbn in Hlast. injection Hlast as <-. unfold read_settings. rewrite Hf. res_simpl.
      rewrite Hl. split; [done|]. apply rbind_Ok in Hl as (text & _ & Hl). by apply (load_settings_Ok text).
    - unfold proxy_save in El. destruct (settings_validate (default_settings random)) as [[]|] eqn:Hv; [|done].
      destruct (save_private_saved read_settings (Ok (default_settings random)) ProxyNotSerialized ProxyNotReplaced
        (toml_print (default_settings random)) fs path faults Hne) as (_ & _ & fs_end & Hl & Hend);
        [intros data m; by apply read_saved|].
      destruct (save_private _ _ _ _ _ _) as [r tr]. injection El as Hr ->. apply rmap_Ok in Hr as ([] & -> & ->).
      cbn [fst snd] in *. rewrite Hlast in Hl. injection Hl as <-. done. }
  destruct Hinit as [Hinv Hpath]. clear Hnew Hlast. revert fs0 c Hinv Hpath.
  induction events as [|e events IH]; intros fs0 c Hinv Hpath; cbn [foldl].
  - split_and!; [done| |intros; apply validated_task_starts, Hinv].
    intros new faults' now'. apply update_spec; [by rewrite Hpath|done].
  - destruct (proxy_step_inv fs0 c e) as [Hi Hp]; [by rewrite Hpath|done|].
    destruct (proxy_step (fs0, c) e) as [fs1 c1]. apply IH; [done|]. cbn [fst snd] in Hp. by rewrite Hp.
Qed.
End controller_theorems.

(** ** Limits of the checks *)

(** A token the checks take and no handshake works with: the tunnel keys a MAC with
    it whose key has at most 64 bytes, so such a proxy runs and never connects. *)
Lemma valid_token_refused `{HttpLib} `{Blake2bMac} s :
  settings_validate s = Ok tt → MAC_KEY_MAX < len (token s) →
  match tunnel_task s (lit "device") with
  | RunGateway o => ∀ random d node d', gateway_authenticate random (gateway_token o) d ≠ (Ok node, d')
  | RunClient o => ∀ d d', client_authenticate (client_token o) (client_name o) (client_url o) d ≠ (Ok tt, d')
  end.
Proof.
  intros _ [Hg Hc]%long_token_refused. unfold tunnel_task. destruct (role s); [apply Hg|intros; apply Hc].
Qed.

(** ** A concrete instance *)

Definition example_proxy : ReverseProxySettings := {|
  enabled := true; role := Client; gateway := lit "gateway.example.com:7000"; tunnel_port := 7000;
  public_port := 51400; local_port := 51400; pool_size := 4; queue_capacity := 64;
  token := lit "0123456789abcdef"; subscription := lit "https://example.com/sub" |}.

Definition example_default : ReverseProxySettings := default_settings (Some (repeat 7 32)).

(** The shortest possible serializer: it knows two settings. *)
Definition example_proxy_print (s : ReverseProxySettings) : option str :=
  if decide (s = example_proxy) then Some (lit "client")
  else if decide (s = example_default) then Some (lit "default") else None.

Definition example_proxy_parse (text : str) : option ReverseProxySettings :=
  if str_eqb text (lit "client") then Some example_proxy else if str_eqb text (lit "default") then Some example_default else None.

Lemma example_proxy_utf8 s text : example_proxy_print s = Some text → utf8_valid text = true.
Proof. unfold example_proxy_print. repeat case_decide; naive_solver. Qed.

Lemma example_proxy_roundtrip s text : example_proxy_print s = Some text → example_proxy_parse text = Some s.
Proof. unfold example_proxy_print. repeat case_decide; naive_solver. Qed.

Definition example_proxy_toml : TomlLib ReverseProxySettings := {|
  toml_print := example_proxy_print; toml_parse := example_proxy_parse; toml_print_utf8 := example_proxy_utf8;
  toml_print_parse := example_proxy_roundtrip |}.

Definition example_proxy_path : str := lit "reverse-proxy.toml".

Definition example_created : filesystem :=
  default ∅ (last (controller_new (H := example_http) (H0 := example_proxy_toml) ∅ example_proxy_path
    (Some (repeat 7 32)) no_replace_faults 0).2).

Definition example_controller : Controller := restart 0 {|
  proxy_path := example_proxy_path; settings := example_default; runtime := default_proxy_runtime;
  node_tracker := tracker_default; task := None; next_task := 0 |}.

Definition example_proxy_events : list ProxyEvent :=
  [UpdateSettings example_proxy no_replace_faults 5; TaskEnd 0 (Some (lit "refused"))].

Lemma example_created_last :
  last (controller_new (H := example_http) (H0 := example_proxy_toml) ∅ example_proxy_path (Some (repeat 7 32)) no_replace_faults 0).2
  = Some example_created.
Proof.
  unfold example_created. set (trace := (controller_new _ _ _ _ _).2).
  assert (Hok : negb (bool_decide (last trace = None)) = true) by (vm_compute; reflexivity).
  apply negb_true_iff, bool_decide_eq_false in Hok. by destruct (last trace).
Qed.

Lemma example_controller_new :
  (controller_new (H := example_http) (H0 := example_proxy_toml) ∅ example_proxy_path (Some (repeat 7 32)) no_replace_faults 0).1
  = Ok example_controller.
Proof. vm_compute. reflexivity. Qed.

Lemma controller_spec_witness :
  let h := example_http in let t := example_proxy_toml in
  settings (foldl proxy_step (example_created, example_controller) example_proxy_events).2 = example_proxy ∧
  proxy_running (runtime (foldl proxy_step (example_created, example_controller) example_proxy_events).2) = false ∧
  let '(fs', c') := foldl proxy_step (example_created, example_controller) example_proxy_events in
  controller_inv fs' c' ∧
  (∀ new faults' now', update_outcome new fs' now' c' (controller_update new fs' faults' now' c')) ∧
  (∀ device hostname, run_checks (tunnel_task (settings c') (system_device_name device hostname)) = Ok tt).
Proof.
  intros h t. split; [by vm_compute|]. split; [by vm_compute|].
  refine (controller_spec (H := h) (H0 := t) ∅ example_proxy_path (Some (repeat 7 32)) no_replace_faults 0
    example_controller
    (controller_new (H := h) (H0 := t) ∅ example_proxy_path (Some (repeat 7 32)) no_replace_faults 0).2
    example_created example_proxy_events _ _ _).
  - by vm_compute.
  - apply injective_projections; [exact example_controller_new|reflexivity].
  - exact example_created_last.
Defined.
