(* ===== verification/ProxyRun.v ===== *)
(** * The reverse proxy's controller with updates that overlap

    [update] and [restart] of [src/src/reverse_proxy.rs] for several requests at once:
    each is at the next of its awaits, and the tunnel tasks end among them.  The save at
    the start of an update has no await and no lock, and requests run on several
    threads, so its calls too are steps of their own, on the disk of Inodes.  A request
    whose client goes away is dropped at one of its awaits. *)

From stdpp Require Import base list gmap strings.
From Stdlib Require Import ZArith Lia.
From S2P Require Import Prelude RustStr Net Rules Files PrivateFile Config Inodes Stream NatTunnel NatGateway ReverseProxy.

Open Scope Z_scope.

(** ** The state *)

(** An update, at a call of its save or before an await: for the settings in memory; for
    the slot of the task; for the task it has aborted; and, with the slot, for the
    tracker, the settings, the runtime, and the runtime again. *)
Inductive Update :=
| Saving (new : ReverseProxySettings) (data : list Z) (p : SavePhase)
| Storing (new : ReverseProxySettings)
| Locking
| Joining (old : nat)
| Clearing
| Reading
| Resetting (s : ReverseProxySettings)
| Launching (s : ReverseProxySettings)
| Done (r : result ProxyError unit)
| Dropped.

(** [alive] are the tunnel tasks that run, with the settings they were started with;
    [slot_lock] is the update that holds the mutex of the slot. *)
Record ProxyRun := {
  controller : Controller;
  disk : Disk;
  alive : gmap nat ReverseProxySettings;
  slot_lock : option nat;
  updates : gmap nat Update;
}.

(** In progress; waiting for the slot; with the slot. *)
Definition pending (u : Update) : bool := match u with Done _ | Dropped => false | _ => true end.
Definition locking (u : Update) : bool := match u with Locking => true | _ => false end.
Definition holding (u : Update) : bool :=
  match u with Joining _ | Clearing | Reading | Resetting _ | Launching _ => true | _ => false end.

Definition with_settings (s : ReverseProxySettings) (c : Controller) : Controller :=
  {| proxy_path := proxy_path c; settings := s; runtime := runtime c; node_tracker := node_tracker c; task := task c;
     next_task := next_task c |}.

Definition with_runtime (r : ProxyRuntime) (c : Controller) : Controller :=
  {| proxy_path := proxy_path c; settings := settings c; runtime := r; node_tracker := node_tracker c; task := task c;
     next_task := next_task c |}.

Definition with_slot (t : option nat) (n : nat) (c : Controller) : Controller :=
  {| proxy_path := proxy_path c; settings := settings c; runtime := runtime c; node_tracker := node_tracker c; task := t;
     next_task := n |}.

Definition with_tracker (t : Tracker) (c : Controller) : Controller :=
  {| proxy_path := proxy_path c; settings := settings c; runtime := runtime c; node_tracker := t; task := task c;
     next_task := next_task c |}.

Definition stopped (error : option str) : ProxyRuntime :=
  {| proxy_running := false; proxy_started := None; proxy_error := error |}.

Definition started (now : Z) : ProxyRuntime :=
  {| proxy_running := true; proxy_started := Some now; proxy_error := None |}.

Definition set_update (id : nat) (u : Update) (s : ProxyRun) : ProxyRun :=
  {| controller := controller s; disk := disk s; alive := alive s; slot_lock := slot_lock s;
     updates := <[id := u]> (updates s) |}.

Definition set_controller (c : Controller) (s : ProxyRun) : ProxyRun :=
  {| controller := c; disk := disk s; alive := alive s; slot_lock := slot_lock s; updates := updates s |}.

Definition set_alive (l : gmap nat ReverseProxySettings) (s : ProxyRun) : ProxyRun :=
  {| controller := controller s; disk := disk s; alive := l; slot_lock := slot_lock s; updates := updates s |}.

Definition set_lock (l : option nat) (s : ProxyRun) : ProxyRun :=
  {| controller := controller s; disk := disk s; alive := alive s; slot_lock := l; updates := updates s |}.

(** ** The steps *)

(** A request arrives, and the directory can or cannot be created; its save makes a call;
    it goes past its next await, at the instant [now]; it is dropped there.  A task that
    was aborted is gone; a task ends by itself. *)
Inductive RunEvent :=
| Request (id : nat) (new : ReverseProxySettings) (directory : bool)
| SaveCall (id : nat) (o : Outcome)
| Go (id : nat) (now : Z)
| Drop (id : nat)
| Killed (n : nat)
| Ended (n : nat) (error : option str).

(** The start of [update]: the checks, and what comes before the first call of [save]. *)
Definition update_begin `{HttpLib} `{TomlLib ReverseProxySettings} (new : ReverseProxySettings) (directory : bool) : Update :=
  match settings_validate new with
  | Err e => Done (Err e)
  | Ok _ =>
      if directory then
        match toml_print new with
        | Some data => Saving new data Opening
        | None => Done (Err ProxyNotSerialized)
        end
      else Done (Err (ProxyNotReplaced DirectoryNotCreated))
  end.

(** [update] once the file is written: the settings in memory are replaced if they
    differ, and then the tunnel is restarted. *)
Definition update_store (id : nat) (new : ReverseProxySettings) (s : ProxyRun) : ProxyRun :=
  if bool_decide (settings (controller s) = new) then set_update id (Done (Ok tt)) s
  else set_update id Locking (set_controller (with_settings new (controller s)) s).

(** [restart], one step for each await. *)
Definition restart_lock (id : nat) (s : ProxyRun) : option ProxyRun :=
  match slot_lock s with
  | Some _ => None
  | None =>
      let c := controller s in
      Some (set_lock (Some id)
        match task c with
        | Some old => set_update id (Joining old) (set_controller (with_slot None (next_task c) c) s)
        | None => set_update id Clearing s
        end)
  end.

Definition restart_reset (id : nat) (new : ReverseProxySettings) (s : ProxyRun) : ProxyRun :=
  let s := set_controller (with_runtime default_proxy_runtime (controller s)) s in
  if negb (enabled new) then set_lock None (set_update id (Done (Ok tt)) s) else set_update id (Launching new) s.

Definition restart_launch (id : nat) (new : ReverseProxySettings) (now : Z) (s : ProxyRun) : ProxyRun :=
  let c := controller s in
  let n := next_task c in
  set_lock None (set_update id (Done (Ok tt))
    (set_alive (<[n := new]> (alive s)) (set_controller (with_slot (Some n) (S n) (with_runtime (started now) c)) s))).

Definition update_go (id : nat) (u : Update) (now : Z) (s : ProxyRun) : option ProxyRun :=
  match u with
  | Storing new => Some (update_store id new s)
  | Locking => restart_lock id s
  | Joining old =>
      match alive s !! old with
      | Some _ => None
      | None => Some (set_update id Clearing s)
      end
  | Clearing =>
      Some (set_update id Reading (set_controller (with_tracker (clear (node_tracker (controller s))) (controller s)) s))
  | Reading => Some (set_update id (Resetting (settings (controller s))) s)
  | Resetting new => Some (restart_reset id new s)
  | Launching new => Some (restart_launch id new now s)
  | _ => None
  end.

(** Once its file is saved an update goes on; one whose save failed is over. *)
Definition after_call (new : ReverseProxySettings) (data : list Z) (p : SavePhase) : Update :=
  match p with
  | Saved (Ok _) => Storing new
  | Saved (Err e) => Done (Err (ProxyNotReplaced (replace_error e)))
  | _ => Saving new data p
  end.

Definition save_call (id : nat) (o : Outcome) (s : ProxyRun) : option ProxyRun :=
  match updates s !! id with
  | Some (Saving new data p) =>
      let '(p', d') := save_step Private (proxy_path (controller s)) data o p (disk s) in
      Some {| controller := controller s; disk := d'; alive := alive s; slot_lock := slot_lock s;
              updates := <[id := after_call new data p']> (updates s) |}
  | _ => None
  end.

(** A request is dropped at an await; the mutex is given back. *)
Definition update_drop (id : nat) (u : Update) (s : ProxyRun) : option ProxyRun :=
  match u with
  | Saving _ _ _ | Done _ | Dropped => None
  | _ => Some (set_update id Dropped (if holding u then set_lock None s else s))
  end.

Section proxy_run.
Context `{HttpLib} `{TomlLib ReverseProxySettings}.

Definition run_step (s : ProxyRun) (e : RunEvent) : option ProxyRun :=
  match e with
  | Request id new directory =>
      match updates s !! id with
      | Some _ => None
      | None => Some (set_update id (update_begin new directory) s)
      end
  | SaveCall id o => save_call id o s
  | Go id now => u ← updates s !! id; update_go id u now s
  | Drop id => u ← updates s !! id; update_drop id u s
  | Killed n =>
      (* Only the task of a handle that was taken from the slot is aborted. *)
      match alive s !! n with
      | Some _ => if bool_decide (task (controller s) = Some n) then None else Some (set_alive (delete n (alive s)) s)
      | None => None
      end
  | Ended n error =>
      match alive s !! n with
      | Some _ => Some (set_alive (delete n (alive s)) (set_controller (with_runtime (stopped error) (controller s)) s))
      | None => None
      end
  end.

Fixpoint proxy_run (s : ProxyRun) (events : list RunEvent) : option ProxyRun :=
  match events with
  | [] => Some s
  | e :: events => s ← run_step s e; proxy_run s events
  end.
End proxy_run.

Definition is_drop (e : RunEvent) : bool := match e with Drop _ => true | _ => false end.

(** The controller as [ReverseProxyController::new] leaves it, before any request. *)
Definition run_init (c : Controller) (d : Disk) : ProxyRun :=
  {| controller := c; disk := d; alive := match task c with Some n => {[n := settings c]} | None => ∅ end;
     slot_lock := None; updates := ∅ |}.

(** ** What holds among updates *)

Section invariant.
Context `{HttpLib} `{TomlLib ReverseProxySettings}.

(** The slot, the tasks and the runtime are those of the settings [a]: disabled, nothing
    runs; enabled, the task in the slot was started with them and runs, or has ended. *)
Definition reflects (a : ReverseProxySettings) (s : ProxyRun) : Prop :=
  let c := controller s in
  match task c with
  | Some n => enabled a = true ∧
      (alive s = {[n := a]} ∧ (∃ now, runtime c = started now) ∨ alive s = ∅ ∧ ∃ error, runtime c = stopped error)
  | None => enabled a = false ∧ alive s = ∅ ∧ runtime c = default_proxy_runtime
  end.

(** Settings that are not those in memory are about to be replaced. *)
Definition current (a : ReverseProxySettings) (s : ProxyRun) : Prop :=
  a = settings (controller s) ∨ ∃ id, updates s !! id = Some Locking.

Definition slot_inv (s : ProxyRun) : Prop :=
  match slot_lock s with
  | None => ∃ a, reflects a s ∧ current a s
  | Some id =>
      task (controller s) = None ∧
      match updates s !! id with
      | Some (Joining old) => alive s = ∅ ∨ ∃ a, alive s = {[old := a]}
      | Some (Resetting a) => alive s = ∅ ∧ current a s
      | Some (Launching a) =>
          alive s = ∅ ∧ current a s ∧ enabled a = true ∧ runtime (controller s) = default_proxy_runtime
      | Some u => alive s = ∅
      | None => True
      end
  end.

Definition update_valid (u : Update) : Prop :=
  match u with Saving new _ _ | Storing new => settings_validate new = Ok tt | _ => True end.

(** The mutex is held by the update that is past it, and by no other. *)
Record lock_inv (l : option nat) (us : gmap nat Update) : Prop := {
  li_lock : ∀ id u, us !! id = Some u → holding u = true → l = Some id;
  li_holder : ∀ id, l = Some id → ∃ u, us !! id = Some u ∧ holding u = true;
}.

Record run_inv (s : ProxyRun) : Prop := {
  ri_valid : settings_validate (settings (controller s)) = Ok tt;
  ri_updates : map_Forall (fun _ u => update_valid u) (updates s);
  ri_lock : lock_inv (slot_lock s) (updates s);
  ri_slot : slot_inv s;
}.

Lemma lock_inv_other l us id u :
  lock_inv l us → l ≠ Some id → holding u = false → lock_inv l (<[id := u]> us).
Proof.
  intros [Hl Hh] Hne Hu. split.
  - intros j w [[<- <-]|[_ Hj]]%lookup_insert_Some Hw; [congruence|by apply (Hl j w)].
  - intros j Hj. rewrite lookup_insert_ne by congruence. by apply Hh.
Qed.

Lemma lock_inv_take us id u : lock_inv None us → holding u = true → lock_inv (Some id) (<[id := u]> us).
Proof.
  intros [Hl Hh] Hu. split.
  - intros j w [[<- <-]|[_ Hj]]%lookup_insert_Some Hw; [done|]. by specialize (Hl j w Hj Hw).
  - intros j [= <-]. exists u. by rewrite lookup_insert_eq.
Qed.

Lemma lock_inv_hold us id u : lock_inv (Some id) us → holding u = true → lock_inv (Some id) (<[id := u]> us).
Proof.
  intros [Hl Hh] Hu. split.
  - intros j w [[<- <-]|[_ Hj]]%lookup_insert_Some Hw; [done|by apply (Hl j w)].
  - intros j [= <-]. exists u. by rewrite lookup_insert_eq.
Qed.

Lemma lock_inv_free us id u : lock_inv (Some id) us → holding u = false → lock_inv None (<[id := u]> us).
Proof.
  intros [Hl Hh] Hu. split; [|done].
  intros j w [[<- <-]|[Hne Hj]]%lookup_insert_Some Hw; [congruence|]. specialize (Hl j w Hj Hw). congruence.
Qed.

Lemma not_holding l us id u : lock_inv l us → us !! id = Some u → holding u = false → l ≠ Some id.
Proof. intros [_ Hh] Hu Hf ->. destruct (Hh id eq_refl) as (w & Hw & Hhw). congruence. Qed.

Lemma holder_holds l us id u : lock_inv l us → us !! id = Some u → holding u = true → l = Some id.
Proof. intros [Hl _]. apply Hl. Qed.

(** A change of an update that neither waits for the slot nor holds it. *)
Lemma current_set a id u s :
  updates s !! id ≠ Some Locking → current a s → current a (set_update id u s).
Proof.
  intros Hu [->|[j Hj]]; [by left|]. right. exists j. cbn. rewrite lookup_insert_ne; [done|]. intros ->. done.
Qed.

Lemma slot_set id u s :
  updates s !! id ≠ Some Locking → slot_lock s ≠ Some id → slot_inv s → slot_inv (set_update id u s).
Proof.
  unfold slot_inv. intros Hu Hl. cbn [slot_lock set_update controller alive updates].
  destruct (slot_lock s) as [j|].
  - intros [Ht Hs]. split; [done|]. rewrite lookup_insert_ne by congruence.
    destruct (updates s !! j) as [[]|]; try done; naive_solver eauto using current_set.
  - intros (a & Hr & Hc). exists a. split; [done|]. by apply current_set.
Qed.

Lemma run_inv_set id u s :
  run_inv s → updates s !! id ≠ Some Locking → slot_lock s ≠ Some id → update_valid u → holding u = false →
  run_inv (set_update id u s).
Proof.
  intros [Hv Hu Hl Hs] Hn Hne Hvu Hhu. split; cbn [controller updates slot_lock set_update]; [done| | |by apply slot_set].
  - by apply map_Forall_insert_2.
  - by apply lock_inv_other.
Qed.

(** ** Every step keeps it *)

Lemma request_inv s id new directory s' :
  run_inv s → run_step s (Request id new directory) = Some s' → run_inv s'.
Proof.
  intros Hi. cbn [run_step]. destruct (updates s !! id) eqn:E; [done|]. intros [= <-].
  apply run_inv_set; [done|congruence| | |].
  - intros Hl. destruct (li_holder _ _ (ri_lock s Hi) id Hl) as (u & Hu & _). congruence.
  - unfold update_begin. destruct (settings_validate new) as [[]|] eqn:Ev; [|done]. destruct directory; [|done].
    by destruct (toml_print new).
  - unfold update_begin. destruct (settings_validate new); [|done]. destruct directory; [|done]. by destruct (toml_print new).
Qed.

Lemma save_call_inv s id o s' : run_inv s → save_call id o s = Some s' → run_inv s'.
Proof.
  intros Hi. unfold save_call. destruct (updates s !! id) as [[new data p| | | | | | | | |]|] eqn:E; try done.
  destruct (save_step _ _ _ _ _ _) as [p' d']. intros [= <-].
  set (u := after_call new data p').
  change (run_inv (set_update id u {| controller := controller s; disk := d'; alive := alive s; slot_lock := slot_lock s;
                                      updates := updates s |})).
  pose proof (ri_updates s Hi id _ E) as Hv. cbn [update_valid] in Hv.
  apply run_inv_set; cbn [updates slot_lock].
  - destruct Hi as [? ? ? ?]. by split.
  - congruence.
  - by apply (not_holding _ _ id _ (ri_lock s Hi) E).
  - unfold u. by destruct p' as [| | | | | |[]].
  - unfold u. by destruct p' as [| | | | | |[]].
Qed.

Lemma update_store_inv s id new : run_inv s → updates s !! id = Some (Storing new) → run_inv (update_store id new s).
Proof.
  intros Hi E. pose proof (not_holding _ _ id _ (ri_lock s Hi) E eq_refl) as Hne.
  pose proof (ri_updates s Hi id _ E) as Hv. cbn [update_valid] in Hv.
  unfold update_store. case_bool_decide; [apply run_inv_set; try done; congruence|].
  destruct Hi as [_ Hu Hl Hs]. split; cbn [controller updates slot_lock set_update set_controller with_settings settings].
  - done.
  - by apply map_Forall_insert_2.
  - by apply lock_inv_other.
  - unfold slot_inv in *. cbn [controller updates slot_lock alive set_update set_controller with_settings task].
    assert (Hc : ∀ a s', updates s' = <[id := Locking]> (updates s) → current a s').
    { intros a s' Hup. right. exists id. by rewrite Hup, lookup_insert_eq. }
    destruct (slot_lock s) as [j|].
    + rewrite lookup_insert_ne by congruence. destruct Hs as [Ht Hs]. split; [done|].
      destruct (updates s !! j) as [[]|]; try done; naive_solver.
    + destruct Hs as (a & Hr & _). exists a. split; [done|]. by apply Hc.
Qed.

(** Settings that differ from those in memory were replaced by an update that waits for
    the slot; one that takes the slot looks at the settings again. *)
Lemma current_other a id u s s' :
  current a s → settings (controller s') = settings (controller s) → updates s' = <[id := u]> (updates s) →
  updates s !! id ≠ Some Locking → current a s'.
Proof.
  intros Hc Hs Hu Hn. destruct (current_set a id u s Hn Hc) as [Ha|[j Hj]]; [left; by rewrite Hs|].
  right. exists j. by rewrite Hu.
Qed.

Lemma restart_lock_inv s id s' : run_inv s → updates s !! id = Some Locking → restart_lock id s = Some s' → run_inv s'.
Proof.
  intros [Hv Hu Hl Hs] E. unfold restart_lock, slot_inv in *. destruct (slot_lock s) as [|]; [done|]. intros [= <-].
  destruct Hs as (a & Hr & _). unfold reflects in Hr.
  destruct (task (controller s)) as [old|] eqn:Et; split;
    cbn [controller updates slot_lock alive set_update set_controller set_lock with_slot settings task];
    try done; try (by apply map_Forall_insert_2); try (by apply lock_inv_take).
  - unfold slot_inv. cbn. rewrite lookup_insert_eq. split; [done|]. destruct Hr as [_ [[-> _]|[-> _]]]; eauto.
  - unfold slot_inv. cbn. rewrite lookup_insert_eq. by split; [|apply Hr].
Qed.

(** An update that holds the slot takes its next step. *)
Lemma held_go_inv s id u now s' :
  run_inv s → updates s !! id = Some u → holding u = true → update_go id u now s = Some s' → run_inv s'.
Proof.
  intros [Hv Hu Hl Hs] E Hh Hgo. pose proof (holder_holds _ _ id u Hl E Hh) as Hlock.
  unfold slot_inv in Hs. rewrite Hlock, E in Hs. rewrite Hlock in Hl. destruct Hs as [Ht Hs].
  assert (Hn : updates s !! id ≠ Some Locking) by (intros E'; rewrite E in E'; injection E' as ->; done).
  destruct u as [| | |old| | |a|a| |]; try done; cbn [update_go] in Hgo.
  - destruct (alive s !! old) eqn:Eo; [done|]. injection Hgo as <-. split; cbn; try done;
      [by apply map_Forall_insert_2|rewrite Hlock; by apply lock_inv_hold|].
    unfold slot_inv. cbn. rewrite Hlock, lookup_insert_eq. split; [done|].
    destruct Hs as [Hs|[a Hs]]; [done|]. rewrite Hs, lookup_singleton_eq in Eo. done.
  - injection Hgo as <-. split; cbn; try done; [by apply map_Forall_insert_2|rewrite Hlock; by apply lock_inv_hold|].
    unfold slot_inv. cbn. by rewrite Hlock, lookup_insert_eq.
  - injection Hgo as <-. split; cbn; try done; [by apply map_Forall_insert_2|rewrite Hlock; by apply lock_inv_hold|].
    unfold slot_inv. cbn. rewrite Hlock, lookup_insert_eq. split_and!; [done..|by left].
  - injection Hgo as <-. destruct Hs as [Ha Hc]. unfold restart_reset. destruct (enabled a) eqn:Ee; cbn [negb]; split; cbn;
      try done; try (by apply map_Forall_insert_2); [rewrite Hlock; by apply lock_inv_hold| |by eapply lock_inv_free|].
    + unfold slot_inv. cbn. rewrite Hlock, lookup_insert_eq. split_and!; try done. by eapply current_other.
    + unfold slot_inv. cbn. exists a. split; [|by eapply current_other]. unfold reflects. cbn. by rewrite Ht.
  - injection Hgo as <-. destruct Hs as (Ha & Hc & Ee & _). split; cbn; try done;
      [by apply map_Forall_insert_2|by eapply lock_inv_free|].
    unfold slot_inv. cbn. exists a. split; [|by eapply current_other]. unfold reflects. cbn.
    split; [done|]. left. rewrite Ha. split; [apply insert_empty|by eexists].
Qed.

Lemma killed_inv s n s' : run_inv s → run_step s (Killed n) = Some s' → run_inv s'.
Proof.
  intros [Hv Hu Hl Hs]. cbn [run_step]. destruct (alive s !! n) as [b|] eqn:En; [|done].
  case_bool_decide as Ht; [done|]. intros [= <-]. split; cbn; try done. unfold slot_inv in *. cbn.
  destruct (slot_lock s) as [id|].
  - destruct Hs as [Ht' Hs]. split; [done|].
    destruct (updates s !! id) as [[| | |old| | | | | |]|]; cbn in *;
      try (by rewrite Hs in En); try (by destruct Hs as [Hs _]; rewrite Hs in En); [|done].
    destruct Hs as [Hs|[a Hs]]; [by rewrite Hs in En|]. left. rewrite Hs in *.
    apply lookup_singleton_Some in En as [<- _]. by rewrite delete_singleton_eq.
  - destruct Hs as (a & Hr & _). exfalso. unfold reflects in Hr. destruct (task (controller s)) as [m|].
    + destruct Hr as [_ [[Ha _]|[Ha _]]]; rewrite Ha in En; [|done]. apply lookup_singleton_Some in En as [<- _]. done.
    + destruct Hr as (_ & Ha & _). by rewrite Ha in En.
Qed.

Lemma ended_inv s n error s' : run_inv s → run_step s (Ended n error) = Some s' → run_inv s'.
Proof.
  intros [Hv Hu Hl Hs]. cbn [run_step]. destruct (alive s !! n) as [b|] eqn:En; [|done].
  intros [= <-]. split; cbn; try done. unfold slot_inv in *. cbn.
  destruct (slot_lock s) as [id|].
  - destruct Hs as [Ht' Hs]. split; [done|].
    destruct (updates s !! id) as [[| | |old| | | | | |]|]; cbn in *;
      try (by rewrite Hs in En); try (by destruct Hs as [Hs _]; rewrite Hs in En); [|done].
    destruct Hs as [Hs|[a Hs]]; [by rewrite Hs in En|]. left. rewrite Hs in *.
    apply lookup_singleton_Some in En as [<- _]. by rewrite delete_singleton_eq.
  - destruct Hs as (a & Hr & Hc). exists a. split; [|exact Hc]. unfold reflects in *. cbn.
    destruct (task (controller s)) as [m|].
    + destruct Hr as [He [[Ha _]|[Ha _]]]; rewrite Ha in En; [|done]. apply lookup_singleton_Some in En as [<- _].
      split; [done|]. right. rewrite Ha, delete_singleton_eq. eauto.
    + destruct Hr as (_ & Ha & _). by rewrite Ha in En.
Qed.

Lemma run_step_inv s e s' : run_inv s → is_drop e = false → run_step s e = Some s' → run_inv s'.
Proof.
  intros Hi Hd. destruct e as [id new directory|id o|id now|id|n|n error]; try done.
  - by apply request_inv.
  - by apply save_call_inv.
  - cbn [run_step]. intros (u & Hu & Hgo)%bind_Some. destruct (holding u) eqn:Hh; [by eapply held_go_inv|].
    destruct u; try done; cbn [update_go] in Hgo.
    + injection Hgo as <-. by apply update_store_inv.
    + by eapply restart_lock_inv.
  - by apply killed_inv.
  - by apply ended_inv.
Qed.

Lemma proxy_run_inv s events s' :
  run_inv s → Forall (fun e => is_drop e = false) events → proxy_run s events = Some s' → run_inv s'.
Proof.
  revert s. induction events as [|e events IH]; intros s Hi Hd; cbn [proxy_run]; [by intros [= <-]|].
  apply Forall_cons in Hd as [He Hd]. intros (s1 & Hs1 & Hr)%bind_Some.
  apply (IH s1); [by eapply run_step_inv|done|done].
Qed.

(** The controller when it was just started. *)
Definition fresh_controller (c : Controller) : Prop :=
  ∃ now c0, settings_validate (settings c0) = Ok tt ∧ c = restart now c0.

Lemma run_init_inv c d : fresh_controller c → run_inv (run_init c d).
Proof.
  intros (now & c0 & Hv & ->). split; cbn [run_init controller updates slot_lock].
  - by rewrite restart_settings.
  - done.
  - by split.
  - unfold slot_inv, reflects, current, restart. cbn [run_init slot_lock controller alive].
    exists (settings c0). destruct (enabled (settings c0)) eqn:E; cbn; split; try by left.
    + split; [done|]. left. split; [done|by exists now].
    + done.
Qed.
End invariant.

(** ** Updates come to an end *)

(** The calls and awaits an update has before it at most; the task it starts counts as
    one, since it may end. *)
Definition steps_left (u : Update) : nat :=
  match u with
  | Saving _ data p => calls_left data p + 9
  | Storing _ => 8
  | Locking => 7
  | Joining _ => 6
  | Clearing => 5
  | Reading => 4
  | Resetting _ => 3
  | Launching _ => 2
  | Done _ | Dropped => 0
  end.

Definition total_left (us : gmap nat Update) : nat := map_fold (fun _ u n => (steps_left u + n)%nat) 0%nat us.

Definition work_left (s : ProxyRun) : nat := (total_left (updates s) + size (alive s))%nat.

Lemma total_left_delete us id u : us !! id = Some u → total_left us = (steps_left u + total_left (delete id us))%nat.
Proof. intros Hu. apply (map_fold_delete_L (fun (_ : nat) u n => (steps_left u + n)%nat)); [|done]. intros. lia. Qed.

Lemma total_left_insert us id u u' :
  us !! id = Some u → (total_left (<[id := u']> us) + steps_left u = total_left us + steps_left u')%nat.
Proof.
  intros Hu. rewrite (total_left_delete us id u Hu).
  rewrite (total_left_delete (<[id := u']> us) id u'), delete_insert_eq by apply lookup_insert_eq. lia.
Qed.

(** Neither a new request nor the end of a client. *)
Definition inner_event (e : RunEvent) : bool := match e with Request _ _ _ | Drop _ => false | _ => true end.

Section progress.
Context `{HttpLib} `{TomlLib ReverseProxySettings}.

Lemma save_call_work s id o s' : save_call id o s = Some s' → (work_left s' < work_left s)%nat.
Proof.
  unfold save_call. destruct (updates s !! id) as [[new data p| | | | | | | | |]|] eqn:E; try done.
  pose proof (save_step_calls Private (proxy_path (controller s)) data o p (disk s)) as Hc.
  destruct (save_step _ _ _ _ _ _) as [p' d'] eqn:Es. intros [= <-]. unfold work_left. cbn [updates alive].
  set (u := after_call new data p').
  pose proof (total_left_insert (updates s) id _ u E) as Ht. cbn [fst steps_left] in *.
  assert (Hu : (steps_left u < calls_left data p + 9)%nat); [|lia].
  destruct (decide (calls_left data p = 0%nat)) as [Hz|Hz].
  - destruct p; cbn in Hz; try lia. injection Es as <- <-. unfold u. destruct r; cbn; lia.
  - specialize (Hc Hz). unfold u. destruct p' as [| | | | | |[]]; cbn [after_call steps_left calls_left] in *; lia.
Qed.

Lemma update_go_work s id u now s' :
  updates s !! id = Some u → update_go id u now s = Some s' → (work_left s' < work_left s)%nat.
Proof.
  intros Hu Hgo. pose proof (fun u' => total_left_insert (updates s) id u u' Hu) as Ht. unfold work_left.
  destruct u as [| | |old| | |a|a| |]; try done; cbn [update_go] in Hgo.
  - injection Hgo as <-. unfold update_store. case_bool_decide; cbn.
    + specialize (Ht (Done (Ok tt))). cbn in Ht. lia.
    + specialize (Ht Locking). cbn in Ht. lia.
  - unfold restart_lock in Hgo. destruct (slot_lock s); [done|]. injection Hgo as <-. destruct (task _) as [old|]; cbn.
    + specialize (Ht (Joining old)). cbn in Ht. lia.
    + specialize (Ht Clearing). cbn in Ht. lia.
  - destruct (alive s !! old); [done|]. injection Hgo as <-. specialize (Ht Clearing). cbn in *. lia.
  - injection Hgo as <-. specialize (Ht Reading). cbn in *. lia.
  - injection Hgo as <-. specialize (Ht (Resetting (settings (controller s)))). cbn in *. lia.
  - injection Hgo as <-. unfold restart_reset. destruct (negb _); cbn.
    + specialize (Ht (Done (Ok tt))). cbn in *. lia.
    + specialize (Ht (Launching a)). cbn in *. lia.
  - injection Hgo as <-. specialize (Ht (Done (Ok tt))). cbn in *.
    pose proof (map_size_insert (next_task (controller s)) a (alive s)) as Hsz. rewrite Hsz. destruct (alive s !! _); cbn; lia.
Qed.

Lemma run_step_work s e s' : inner_event e = true → run_step s e = Some s' → (work_left s' < work_left s)%nat.
Proof.
  intros He. destruct e as [| id o|id now| |n|n error]; try done; cbn [run_step].
  - apply save_call_work.
  - intros (u & Hu & Hgo)%bind_Some. by eapply update_go_work.
  - destruct (alive s !! n) eqn:En; [|done]. case_bool_decide; [done|]. intros [= <-]. unfold work_left. cbn.
    rewrite map_size_delete_Some by done. assert (size (alive s) ≠ 0)%nat; [|lia].
    apply map_size_ne_0_lookup. exists n. by rewrite En.
  - destruct (alive s !! n) eqn:En; [|done]. intros [= <-]. unfold work_left. cbn.
    rewrite map_size_delete_Some by done. assert (size (alive s) ≠ 0)%nat; [|lia].
    apply map_size_ne_0_lookup. exists n. by rewrite En.
Qed.

Lemma proxy_run_work s events s' :
  Forall (fun e => inner_event e = true) events → proxy_run s events = Some s' →
  (length events + work_left s' ≤ work_left s)%nat.
Proof.
  revert s. induction events as [|e events IH]; intros s Hd; cbn [proxy_run length]; [intros [= <-]; lia|].
  apply Forall_cons in Hd as [He Hd]. intros (s1 & Hs1 & Hr)%bind_Some.
  apply run_step_work in Hs1; [|done]. specialize (IH s1 Hd Hr). lia.
Qed.

(** The update that holds the slot is never blocked. *)
Lemma holder_goes s id : run_inv s → slot_lock s = Some id → ∃ e, inner_event e = true ∧ is_Some (run_step s e).
Proof.
  intros Hi Hl. destruct (li_holder _ _ (ri_lock s Hi) id Hl) as (u & Hu & Hh).
  pose proof (ri_slot s Hi) as Hs. unfold slot_inv in Hs. rewrite Hl, Hu in Hs. destruct Hs as [Ht _].
  assert (Hgo : is_Some (update_go id u 0 s) → ∃ e, inner_event e = true ∧ is_Some (run_step s e)).
  { intros Hg. exists (Go id 0). cbn. by rewrite Hu. }
  destruct u as [| | |old| | |a|a| |]; try done; try (by apply Hgo; eexists).
  destruct (alive s !! old) as [b|] eqn:Eo.
  - exists (Killed old). cbn. rewrite Eo, Ht. by rewrite bool_decide_eq_false_2.
  - apply Hgo. cbn. rewrite Eo. by eexists.
Qed.

Lemma pending_goes s id u :
  run_inv s → updates s !! id = Some u → pending u = true → ∃ e, inner_event e = true ∧ is_Some (run_step s e).
Proof.
  intros Hi Hu Hp. destruct (slot_lock s) as [j|] eqn:Hl; [by apply (holder_goes s j)|].
  destruct u as [new data p|new| |old| | |a|a| |]; try done;
    try (by pose proof (holder_holds _ _ id _ (ri_lock s Hi) Hu eq_refl) as Hc; rewrite Hl in Hc).
  - exists (SaveCall id Fails). split; [done|]. cbn. unfold save_call. rewrite Hu.
    destruct (save_step _ _ _ _ _ _) as [p' d']. by eexists.
  - exists (Go id 0). split; [done|]. cbn. rewrite Hu. by eexists.
  - exists (Go id 0). split; [done|]. cbn. rewrite Hu. cbn. unfold restart_lock. rewrite Hl. by eexists.
Qed.
End progress.

(** ** An update that is alone *)

Section alone.
Context `{HttpLib} `{TomlLib ReverseProxySettings}.

Lemma proxy_run_app s events more : proxy_run s (events ++ more) = proxy_run s events ≫= fun s => proxy_run s more.
Proof.
  revert s. induction events as [|e events IH]; intros s; cbn [app proxy_run]; [done|].
  destruct (run_step s e) as [s1|]; cbn; [apply IH|done].
Qed.

(** The events take [s] to [s'], which has the same disk. *)
Definition inner_run (s s' : ProxyRun) (events : list RunEvent) : Prop :=
  Forall (fun e => inner_event e = true) events ∧ proxy_run s events = Some s'.

Lemma inner_run_cons s s1 s' e events :
  inner_event e = true → run_step s e = Some s1 → inner_run s1 s' events → inner_run s s' (e :: events).
Proof. intros He Hs [Hf Hr]. split; [by constructor|]. cbn [proxy_run]. by rewrite Hs. Qed.

Lemma inner_run_app s s1 s' events more : inner_run s s1 events → inner_run s1 s' more → inner_run s s' (events ++ more).
Proof. intros [Hf Hr] [Hf' Hr']. split; [by apply Forall_app_2|]. by rewrite proxy_run_app, Hr. Qed.

Lemma restart_from_clearing s id now :
  updates s !! id = Some Clearing → task (controller s) = None →
  ∃ events s', inner_run s s' events ∧ updates s' !! id = Some (Done (Ok tt)) ∧ disk s' = disk s ∧
    controller s' = restart now (controller s).
Proof.
  intros Hu Ht.
  set (c1 := with_tracker (clear (node_tracker (controller s))) (controller s)).
  set (s1 := set_update id Reading (set_controller c1 s)).
  set (s2 := set_update id (Resetting (settings (controller s))) s1).
  set (s3 := restart_reset id (settings (controller s)) s2).
  assert (H12 : ∀ s' events, inner_run s3 s' events → inner_run s s' (Go id now :: Go id now :: Go id now :: events)).
  { intros s' events Hr. apply (inner_run_cons _ s1); [done|by cbn; rewrite Hu|].
    apply (inner_run_cons _ s2); [done|by cbn; rewrite lookup_insert_eq|].
    apply (inner_run_cons _ s3); [done|by cbn; rewrite lookup_insert_eq|done]. }
  destruct (enabled (settings (controller s))) eqn:E.
  - exists [Go id now; Go id now; Go id now; Go id now], (restart_launch id (settings (controller s)) now s3).
    split; [apply H12; apply (inner_run_cons _ (restart_launch id (settings (controller s)) now s3)); [done| |by split]|].
    + unfold s3, restart_reset. rewrite E. cbn. by rewrite lookup_insert_eq.
    + unfold restart_launch, s3, restart_reset, restart. rewrite E. cbn. by rewrite lookup_insert_eq.
  - exists [Go id now; Go id now; Go id now], s3. split; [by apply H12|].
    unfold s3, restart_reset, restart. rewrite E. cbn. rewrite lookup_insert_eq, <- Ht. done.
Qed.

Lemma restart_alone s id now :
  updates s !! id = Some Locking → slot_lock s = None →
  ∃ events s', inner_run s s' events ∧ updates s' !! id = Some (Done (Ok tt)) ∧ disk s' = disk s ∧
    controller s' = restart now (controller s).
Proof.
  intros Hu Hl. destruct (task (controller s)) as [old|] eqn:Et.
  - set (c1 := with_slot None (next_task (controller s)) (controller s)).
    set (s1 := set_lock (Some id) (set_update id (Joining old) (set_controller c1 s))).
    assert (Hs1 : run_step s (Go id now) = Some s1) by (cbn; rewrite Hu; cbn; unfold restart_lock; by rewrite Hl, Et).
    assert (Htail : ∀ s0, updates s0 !! id = Some (Joining old) → alive s0 !! old = None → controller s0 = c1 → disk s0 = disk s →
      ∃ events s', inner_run s0 s' events ∧ updates s' !! id = Some (Done (Ok tt)) ∧ disk s' = disk s ∧
        controller s' = restart now (controller s)).
    { intros s0 Hu0 Ha0 Hc0 Hd0. destruct (restart_from_clearing (set_update id Clearing s0) id now) as (ev & s' & Hr & Hd & Hdisk & Hc);
        [by cbn; rewrite lookup_insert_eq|by cbn; rewrite Hc0|].
      exists (Go id now :: ev), s'. split; [|split; [done|split; [by rewrite Hdisk|by rewrite Hc; cbn; rewrite Hc0]]].
      apply (inner_run_cons _ (set_update id Clearing s0)); [done| |done]. cbn. rewrite Hu0. cbn. by rewrite Ha0. }
    destruct (alive s !! old) as [b|] eqn:Ea.
    + destruct (Htail (set_alive (delete old (alive s)) s1)) as (ev & s' & Hr & Hrest);
        [by cbn; rewrite lookup_insert_eq|by cbn; rewrite lookup_delete_eq|done|done|].
      exists (Go id now :: Killed old :: ev), s'. split; [|done].
      apply (inner_run_cons _ s1); [done|done|]. apply (inner_run_cons _ (set_alive (delete old (alive s)) s1)); [done| |done].
      cbn. by rewrite Ea.
    + destruct (Htail s1) as (ev & s' & Hr & Hrest); [by cbn; rewrite lookup_insert_eq|done..|].
      exists (Go id now :: ev), s'. split; [|done]. by apply (inner_run_cons _ s1).
  - set (s1 := set_lock (Some id) (set_update id Clearing s)).
    destruct (restart_from_clearing s1 id now) as (ev & s' & Hr & Hrest); [by cbn; rewrite lookup_insert_eq|done|].
    exists (Go id now :: ev), s'. split; [|done]. apply (inner_run_cons _ s1); [done| |done].
    cbn. rewrite Hu. cbn. unfold restart_lock. by rewrite Hl, Et.
Qed.

Lemma store_alone s id new now :
  updates s !! id = Some (Storing new) → slot_lock s = None →
  ∃ events s', inner_run s s' events ∧ updates s' !! id = Some (Done (Ok tt)) ∧ disk s' = disk s ∧
    controller s' = if bool_decide (settings (controller s) = new) then controller s
                    else restart now (with_settings new (controller s)).
Proof.
  intros Hu Hl.
  assert (Hs1 : run_step s (Go id now) = Some (update_store id new s)) by (cbn; by rewrite Hu).
  unfold update_store in Hs1. case_bool_decide.
  - exists [Go id now]. eexists. split; [eapply inner_run_cons; [|exact Hs1|by split]; done|]. cbn. by rewrite lookup_insert_eq.
  - destruct (restart_alone (set_update id Locking (set_controller (with_settings new (controller s)) s)) id now)
      as (ev & s' & Hr & Hrest); [by cbn; rewrite lookup_insert_eq|done|].
    exists (Go id now :: ev), s'. split; [|done]. eapply inner_run_cons; [|exact Hs1|done]. done.
Qed.

(** The save of an update makes the calls of a saver that is alone. *)
Lemma save_calls_alone s id new data p outcomes r ds :
  updates s !! id = Some (Saving new data p) →
  save_run Private (proxy_path (controller s)) data outcomes p (disk s) = (ds, Saved r) → saved_phase p = false →
  ∃ n s', inner_run s s' (SaveCall id <$> take n outcomes) ∧ last ds = Some (disk s') ∧
    updates s' !! id = Some (after_call new data (Saved r)) ∧ controller s' = controller s ∧ slot_lock s' = slot_lock s.
Proof.
  revert s p ds. induction outcomes as [|o outcomes IH]; intros s p ds Hu; cbn [save_run]; [by intros [= <- ->]|].
  destruct (save_step Private (proxy_path (controller s)) data o p (disk s)) as [p' d'] eqn:Es.
  destruct (save_run Private (proxy_path (controller s)) data outcomes p' d') as [ds' q] eqn:Er. intros [= <- ->] Hp.
  set (s1 := {| controller := controller s; disk := d'; alive := alive s; slot_lock := slot_lock s;
                updates := <[id := after_call new data p']> (updates s) |}).
  assert (Hs1 : run_step s (SaveCall id o) = Some s1) by (cbn; unfold save_call; by rewrite Hu, Es).
  destruct (saved_phase p') eqn:Ep'.
  - destruct p' as [| | | | | |r']; try done. pose proof (save_run_saved Private (proxy_path (controller s)) data outcomes r' d') as [H1 H2].
    rewrite Er in H1, H2. cbn [fst snd] in H1, H2. injection H1 as ->.
    exists 1%nat, s1. split; [|by cbn; rewrite last_cons, H2, lookup_insert_eq].
    eapply inner_run_cons; [|exact Hs1|by split]. done.
  - destruct (IH s1 p' ds') as (n & s' & Hr & Hl & Hrest); [|done|done|].
    { cbn. rewrite lookup_insert_eq. by destruct p'. }
    exists (S n), s'. split; [|by rewrite last_cons, Hl]. cbn [take fmap list_fmap].
    eapply inner_run_cons; [|exact Hs1|exact Hr]. done.
Qed.

(** An update among which no other comes does what [controller_update] says, for some of
    its faults, whatever its calls do. *)
Lemma update_alone s id new outcomes now :
  disk_ok (disk s) → private_temporary (proxy_path (controller s)) ≠ proxy_path (controller s) →
  slot_lock s = None → updates s !! id = None →
  (∀ data, toml_print new = Some data → (length data + 5 ≤ length outcomes)%nat) →
  ∃ n more s' faults,
    Forall (fun e => inner_event e = true) more ∧
    proxy_run s (Request id new true :: (SaveCall id <$> take n outcomes) ++ more) = Some s' ∧
    let '(r, trace, c') := controller_update new (view (disk s)) faults now (controller s) in
    updates s' !! id = Some (Done r) ∧ controller s' = c' ∧ last trace = Some (view (disk s')).
Proof.
  intros Hd Hne Hl Hu Hlen. set (s0 := set_update id (update_begin new true) s).
  assert (Hs0 : run_step s (Request id new true) = Some s0) by (cbn; by rewrite Hu).
  unfold update_begin in s0. unfold controller_update, proxy_save.
  destruct (settings_validate new) as [[]|e] eqn:Hv.
  2: { exists 0%nat, [], s0, no_replace_faults. split; [done|]. cbn [proxy_run take fmap list_fmap app]. rewrite Hs0.
       split; [done|]. cbn. by rewrite lookup_insert_eq. }
  destruct (toml_print new) as [data|] eqn:Hp.
  2: { exists 0%nat, [], s0, no_replace_faults. split; [done|]. cbn [proxy_run take fmap list_fmap app]. rewrite Hs0.
       split; [done|]. cbn. by rewrite lookup_insert_eq. }
  assert (Hu0 : updates s0 !! id = Some (Saving new data Opening)) by apply lookup_insert_eq.
  pose proof (save_run_ends Private (proxy_path (controller s)) data outcomes Opening (disk s) (Hlen data eq_refl)) as [r Hr].
  pose proof (lone_account Private (proxy_path (controller s)) data (view (disk s)) Hne outcomes (disk s) Hd eq_refl) as Ha.
  destruct (save_run Private (proxy_path (controller s)) data outcomes Opening (disk s)) as [ds q] eqn:Er.
  cbn [snd] in Hr. subst q. destruct Ha as (fault & _ & Hmode & _ & Hend). destruct (Hend r eq_refl) as [-> Hlast].
  destruct (flat_private (proxy_path (controller s)) data (view (disk s))
    (reads_metadata Private (proxy_path (controller s)) data outcomes Opening (disk s)) fault) as (faults & Hdir & Hf);
    [intros k Hk; by destruct (Hmode k Hk)|].
  destruct (save_calls_alone s0 id new data Opening outcomes _ ds Hu0 Er eq_refl) as (n & s1 & Hr1 & Hl1 & Hu1 & Hc1 & Hk1).
  rewrite Hl1 in Hlast. cbn [fmap option_fmap option_map] in Hlast.
  unfold save_private. destruct (flat Private _ data _ _ fault) as [[[]|e] trace]; cbn [fst snd after_call rmap_err] in *.
  - destruct (store_alone s1 id new now Hu1 ltac:(by rewrite Hk1)) as (more & s' & Hr' & Hu' & Hd' & Hc').
    exists n, more, s', faults. split; [by apply Hr'|]. cbn [proxy_run]. rewrite Hs0. cbn [mbind option_bind].
    split; [by apply (inner_run_app s0 s1)|]. rewrite Hdir, Hf. cbn [rmap_err]. rewrite Hc1 in Hc'.
    change (controller s0) with (controller s) in Hc'. rewrite Hd'. by case_bool_decide.
  - exists n, [], s1, faults. split; [done|]. cbn [proxy_run]. rewrite Hs0, app_nil_r. cbn [mbind option_bind].
    split; [by apply Hr1|]. rewrite Hdir, Hf. cbn [rmap_err]. done.
Qed.
End alone.

(** ** Overlapping updates *)

Section theorems.
Context `{HttpLib} `{TomlLib ReverseProxySettings}.

Lemma slot_inv_alive s : run_inv s → (size (alive s) ≤ 1)%nat.
Proof.
  intros Hi. pose proof (ri_slot s Hi) as Hs. unfold slot_inv, reflects in Hs.
  assert (He : ∀ l : gmap nat ReverseProxySettings, l = ∅ → (size l ≤ 1)%nat) by (intros l ->; rewrite map_size_empty; lia).
  assert (H1 : ∀ (l : gmap nat ReverseProxySettings) n a, l = {[n := a]} → (size l ≤ 1)%nat).
  { intros l n a ->. by rewrite map_size_singleton. }
  destruct (slot_lock s) as [id|] eqn:Hl.
  - destruct (li_holder _ _ (ri_lock s Hi) id Hl) as (u & Hu & Hh). rewrite Hu in Hs. destruct Hs as [_ Hs].
    destruct u; try done; naive_solver.
  - destruct Hs as (a & Hr & _). destruct (task (controller s)); naive_solver.
Qed.

(** Claim C23. Whatever updates of the tunnel's settings overlap, however their saves fail
    and whenever tunnel tasks end, as long as no client goes away: at every moment at most
    one tunnel task runs and the settings in memory are valid; once no update is under
    way, the slot, the task and the reported runtime are those of the settings in memory,
    whichever update came last: nothing runs if they are disabled, and otherwise the task
    in the slot was started with exactly them, and is reported as running until it ends.
    And the updates do come to an end: one that is under way always leaves a step to
    take, and without new requests there are only as many steps as the calls and awaits
    that are left. *)
Theorem overlapping_updates_settle c d events s :
  fresh_controller c → Forall (fun e => is_drop e = false) events → proxy_run (run_init c d) events = Some s →
  (size (alive s) ≤ 1)%nat ∧ settings_validate (settings (controller s)) = Ok tt ∧
  (map_Forall (fun _ u => pending u = false) (updates s) → reflects (settings (controller s)) s) ∧
  (∀ id u, updates s !! id = Some u → pending u = true → ∃ e, inner_event e = true ∧ is_Some (run_step s e)) ∧
  (∀ more s', Forall (fun e => inner_event e = true) more → proxy_run s more = Some s' → (length more ≤ work_left s)%nat).
Proof.
  intros Hc Hd Hrun. pose proof (proxy_run_inv _ _ _ (run_init_inv c d Hc) Hd Hrun) as Hi.
  split_and!; [by apply slot_inv_alive|apply Hi| |intros id u; by apply pending_goes|].
  - intros Hp. pose proof (ri_slot s Hi) as Hs. unfold slot_inv in Hs. destruct (slot_lock s) as [id|] eqn:Hl.
    + destruct (li_holder _ _ (ri_lock s Hi) id Hl) as (u & Hu & Hh). specialize (Hp id u Hu). by destruct u.
    + destruct Hs as (a & Hr & [->|[id Hid]]); [done|]. by specialize (Hp id _ Hid).
  - intros more s' Hm Hr. apply proxy_run_work in Hr; [lia|done].
Qed.

(** An update with which no other overlaps is what the sequential controller
    says: with any way in which its calls are accepted in pieces or fail, there are
    faults for which [controller_update], on the file system the disk shows, gives its
    result, the controller it leaves and the file system it leaves. *)
Theorem update_alone_refines s id new outcomes now :
  disk_ok (disk s) → private_temporary (proxy_path (controller s)) ≠ proxy_path (controller s) →
  slot_lock s = None → updates s !! id = None →
  (∀ data, toml_print new = Some data → (length data + 5 ≤ length outcomes)%nat) →
  ∃ n more s' faults,
    Forall (fun e => inner_event e = true) more ∧
    proxy_run s (Request id new true :: (SaveCall id <$> take n outcomes) ++ more) = Some s' ∧
    let '(r, trace, c') := controller_update new (view (disk s)) faults now (controller s) in
    updates s' !! id = Some (Done r) ∧ controller s' = c' ∧ last trace = Some (view (disk s')).
Proof. apply update_alone. Qed.
End theorems.

(** ** Concrete runs *)

Definition example_enabled : ReverseProxySettings := example_proxy.

Definition example_proxy_disk : Disk :=
  {| names := {[ example_proxy_path := 0%nat ]};
     inodes := {[ 0%nat := {| contents := lit "default"; mode := PRIVATE_MODE |} ]}; next_inode := 1 |}.

(** The calls of a save that goes well, and the awaits of an update. *)
Definition save_calls (id : nat) : list RunEvent := replicate 4 (SaveCall id (Works 20)).

Section example_runs.
Let http := example_http.
Let toml := example_proxy_toml.
#[local] Existing Instances http toml.

Definition example_run (events : list RunEvent) : option ProxyRun :=
  proxy_run (run_init example_controller example_proxy_disk) events.

(** Two updates, one of which waits for the other's restart. *)
Definition example_overlap : list RunEvent :=
  [Request 1 example_proxy true; Request 2 example_default true] ++ save_calls 1 ++ save_calls 2 ++
  [Go 1 5; Go 2 6; Go 1 7; Go 1 8; Go 1 9; Go 1 10; Go 2 11; Go 2 12; Go 2 13; Go 2 14].

Definition example_settled : ProxyRun :=
  default (run_init example_controller example_proxy_disk) (example_run example_overlap).

Lemma example_controller_fresh : fresh_controller example_controller.
Proof. exists 0, {| proxy_path := example_proxy_path; settings := example_default; runtime := default_proxy_runtime;
  node_tracker := tracker_default; task := None; next_task := 0 |}. split; [by vm_compute|done]. Qed.

Lemma overlapping_updates_settle_witness :
  updates example_settled !! 1%nat = Some (Done (Ok tt)) ∧ updates example_settled !! 2%nat = Some (Done (Ok tt)) ∧
  reflects (settings (controller example_settled)) example_settled.
Proof.
  split; [by vm_compute|]. split; [by vm_compute|].
  refine (proj1 (proj2 (proj2 (overlapping_updates_settle example_controller example_proxy_disk example_overlap
    example_settled example_controller_fresh _ _))) _); [repeat constructor|by vm_compute|].
  apply (bool_decide_unpack (map_Forall (fun _ u => pending u = false) (updates example_settled))). by vm_compute.
Defined.

Lemma update_alone_refines_witness :
  toml_print example_proxy = Some (lit "client") ∧
  ∃ n more s' faults,
    Forall (fun e => inner_event e = true) more ∧
    proxy_run (run_init example_controller example_proxy_disk)
      (Request 1 example_proxy true :: (SaveCall 1 <$> take n (replicate 20 (Works 2))) ++ more) = Some s' ∧
    let '(r, trace, c') := controller_update example_proxy (view example_proxy_disk) faults 5 example_controller in
    updates s' !! 1%nat = Some (Done r) ∧ controller s' = c' ∧ last trace = Some (view (disk s')).
Proof.
  split; [by vm_compute|].
  refine (update_alone_refines (run_init example_controller example_proxy_disk) 1 example_proxy (replicate 20 (Works 2)) 5 _ _ _ _ _);
    [|by vm_compute..|].
  - split; cbn [names inodes next_inode run_init disk example_proxy_disk].
    + intros p q i. rewrite !lookup_singleton_Some. naive_solver.
    + intros p i. rewrite lookup_singleton_Some. intros [_ <-]. by rewrite lookup_singleton_eq.
    + intros i [f Hf]. apply lookup_singleton_Some in Hf as [<- _]. lia.
  - intros data Hp. assert (data = lit "client") as -> by (vm_compute in Hp; by injection Hp as <-). vm_compute. lia.
Defined.

(** Two updates that both succeed: the file is the second's, the memory the first's. *)
Example overlapping_updates_disagree :
  let events := [Request 1 example_proxy true; Request 2 example_default true] ++ save_calls 1 ++ save_calls 2 ++
                [Go 2 5; Go 1 6; Go 1 7; Go 1 8; Go 1 9; Go 1 10; Go 1 11] in
  match example_run events with
  | Some s => updates s !! 1%nat = Some (Done (Ok tt)) ∧ updates s !! 2%nat = Some (Done (Ok tt)) ∧
              settings (controller s) = example_proxy ∧
              read_settings (view (disk s) !! example_proxy_path) = Ok example_default
  | None => False
  end.
Proof. by vm_compute. Qed.

(** Two saves at once on one temporary: the file is empty when the first has ended well. *)
Example overlapping_saves_damage_file :
  let events := [Request 1 example_proxy true; Request 2 example_default true;
                 SaveCall 1 (Works 0); SaveCall 1 (Works 20); SaveCall 1 (Works 0); SaveCall 2 (Works 0);
                 SaveCall 1 (Works 0); Go 1 5] in
  match example_run events with
  | Some s => updates s !! 1%nat = Some Locking ∧ contents <$> view (disk s) !! example_proxy_path = Some []
  | None => False
  end.
Proof. by vm_compute. Qed.

(** A client goes away while its update waits for the task it has aborted: nothing runs,
    the status says that the tunnel is running, and the same settings sent again restart
    nothing. *)
Example dropped_restart_reports_running :
  let events := [Request 1 example_proxy true] ++ save_calls 1 ++ replicate 6 (Go 1 5) ++
                [Request 2 example_default true] ++ save_calls 2 ++ [Go 2 6; Go 2 7; Drop 2; Killed 0] ++
                [Request 3 example_default true] ++ save_calls 3 ++ [Go 3 8] in
  match example_run events with
  | Some s => alive s = ∅ ∧ task (controller s) = None ∧ enabled (settings (controller s)) = false ∧
              proxy_running (runtime (controller s)) = true ∧ updates s !! 3%nat = Some (Done (Ok tt))
  | None => False
  end.
Proof. by vm_compute. Qed.
End example_runs.
