(* ===== verification/ShareAddress.v ===== *)
(** * The addresses the server is shared under ([src/src/admin.rs])

    The scope of an address, the detection of the host's own addresses, and how
    they fill the blank addresses of a configuration's share section.  The routes
    are probed by connecting a UDP socket, which sends nothing: what the two
    sockets answer is an argument. *)

From stdpp Require Import base list strings.
From Stdlib Require Import ZArith Lia.
From S2P Require Import Prelude RustStr Rules Net Files Config.

Open Scope Z_scope.

(** ** Scopes *)

Inductive Scope := Private | Local | Public.

(** The classes of [std::net::Ipv4Addr]. *)
Definition ipv4_is_private (o : list Z) : bool :=
  (octet o 0 =? 10) || ((octet o 0 =? 172) && in_range 16 (octet o 1) 31)
  || ((octet o 0 =? 192) && (octet o 1 =? 168)).

Definition ipv4_is_link_local (o : list Z) : bool := (octet o 0 =? 169) && (octet o 1 =? 254).

(** [ipv4_scope]. *)
Definition ipv4_scope (o : list Z) : Scope :=
  let carrier_nat := (octet o 0 =? 100) && in_range 64 (octet o 1) 127 in
  let documentation :=
    ((octet o 0 =? 192) && (octet o 1 =? 0) && (octet o 2 =? 2))
    || ((octet o 0 =? 198) && (octet o 1 =? 51) && (octet o 2 =? 100))
    || ((octet o 0 =? 203) && (octet o 1 =? 0) && (octet o 2 =? 113)) in
  if ipv4_is_private o || ipv4_is_link_local o || carrier_nat || documentation then Private
  else if is_loopback (V4 o) || is_unspecified (V4 o) then Local
  else Public.

Definition segment (o : list Z) (i : nat) : Z := safe_get (segments o) i.

(** [Ipv6Addr::is_multicast]. *)
Definition ipv6_is_multicast (o : list Z) : bool := octet o 0 =? 255.

(** [is_public_ipv6]. *)
Definition is_public_ipv6 (o : list Z) : bool :=
  negb (is_unspecified (V6 o) || is_loopback (V6 o) || ipv6_is_multicast o
        || (Z.land (segment o 0) 65024 =? 64512)
        || (Z.land (segment o 0) 65472 =? 65152)
        || ((segment o 0 =? 8193) && (segment o 1 =? 3512))).

(** [ipv6_scope]. *)
Definition ipv6_scope (o : list Z) : Scope :=
  if is_public_ipv6 o then Public
  else if (Z.land (segment o 0) 65024 =? 64512) || (Z.land (segment o 0) 65472 =? 65152) then Private
  else Local.

(** ** Detection *)

(** What the probing sockets answer: the local address, when binding, connecting
    and asking for it succeed. *)
Record Probes := { probe4 : option IpAddr; probe6 : option IpAddr }.

(** [probe_ipv4_route] and [probe_ipv6_route]. *)
Definition probe_ipv4_route (p : Probes) : option (list Z) :=
  match probe4 p with
  | Some (V4 o) => if is_unspecified (V4 o) then None else Some o
  | _ => None
  end.

Definition probe_ipv6_route (p : Probes) : option (list Z) :=
  match probe6 p with
  | Some (V6 o) => if is_unspecified (V6 o) then None else Some o
  | _ => None
  end.

Record NetworkAddresses := { detected4 : option (list Z); detected6 : option (list Z) }.

(** [detect_network_addresses]. *)
Definition detect_network_addresses (p : Probes) (listen : SocketAddr) : NetworkAddresses :=
  match ip listen with
  | V4 o => {| detected4 := if is_unspecified (V4 o) then probe_ipv4_route p else Some o; detected6 := None |}
  | V6 o => if is_unspecified (V6 o) then {| detected4 := probe_ipv4_route p; detected6 := probe_ipv6_route p |}
            else {| detected4 := None; detected6 := Some o |}
  end.

(** [merge_auto_ipv4_address] and [merge_auto_ipv6_address]. *)
Definition merge_auto_ipv4_address (existing : str) (detected : option (list Z)) : str :=
  if negb (blank existing) then existing else match detected with Some o => show_ipv4 o | None => [] end.

Definition merge_auto_ipv6_address (existing : str) (detected : option (list Z)) : str :=
  if negb (blank existing) then existing
  else match detected with
       | Some o => if is_public_ipv6 o then show_ipv6 o else []
       | None => []
       end.

Definition with_share_addresses (server server6 : str) (s : ShareConfig) : ShareConfig := {|
  share_server := server; ipv6_server := server6; share_port := share_port s; share_sni := share_sni s;
  share_insecure := share_insecure s; rule_preset := rule_preset s; ad_block := ad_block s;
  share_whitelist := share_whitelist s; share_blacklist := share_blacklist s |}.

Definition with_share (s : option ShareConfig) (c : Config) : Config := {|
  listen := listen c; tls := tls c; users := users c; ssh := ssh c; bandwidth := bandwidth c; udp := udp c;
  outbound := outbound c; obfs := obfs c; masquerade := masquerade c; share := s |}.

(** [apply_auto_share_addresses]. *)
Definition apply_auto_share_addresses (p : Probes) (c : Config) : Config :=
  match share c with
  | None => c
  | Some s =>
      let a := detect_network_addresses p (listen c) in
      match detected4 a, detected6 a with
      | None, None => c
      | _, _ => with_share (Some (with_share_addresses (merge_auto_ipv4_address (share_server s) (detected4 a))
                                    (merge_auto_ipv6_address (ipv6_server s) (detected6 a)) s)) c
      end
  end.

(** ** The scopes as networks *)

(** A network: its whole octets, and the first bits of the next one. *)
Definition in_network (o : list Z) (network : list Z * (Z * Z)) : bool :=
  let '(whole, (next, bits)) := network in
  str_eqb (take (length whole) o) whole
  && (octet o (length whole) / 2 ^ (8 - bits) =? next / 2 ^ (8 - bits)).

(** 10/8, 172.16/12, 192.168/16, 169.254/16, 100.64/10, 192.0.2/24, 198.51.100/24
    and 203.0.113/24; 127/8 and 0.0.0.0. *)
Definition PRIVATE_V4 : list (list Z * (Z * Z)) :=
  [([10], (0, 0)); ([172], (16, 4)); ([192; 168], (0, 0)); ([169; 254], (0, 0)); ([100], (64, 2));
   ([192; 0; 2], (0, 0)); ([198; 51; 100], (0, 0)); ([203; 0; 113], (0, 0))].
Definition LOCAL_V4 : list (list Z * (Z * Z)) := [([127], (0, 0)); ([0; 0; 0; 0], (0, 0))].

(** fc00::/7 and fe80::/10; ::, ::1, ff00::/8 and 2001:db8::/32. *)
Definition PRIVATE_V6 : list (list Z * (Z * Z)) := [([], (252, 7)); ([254], (128, 2))].
Definition LOCAL_V6 : list (list Z * (Z * Z)) :=
  [(replicate 16 0, (0, 0)); (replicate 15 0 ++ [1], (0, 0)); ([255], (0, 0)); ([32; 1; 13; 184], (0, 0))].

Definition network_scope (private local : list (list Z * (Z * Z))) (o : list Z) : Scope :=
  if existsb (in_network o) private then Private else if existsb (in_network o) local then Local else Public.

Lemma bool_iff (a b : bool) : (a = true ↔ b = true) → a = b.
Proof. destruct a, b; naive_solver. Qed.

Lemma str_eqb_cons x s y t : str_eqb (x :: s) (y :: t) = (x =? y) && str_eqb s t.
Proof. apply bool_iff. rewrite andb_true_iff, !str_eqb_eq, Z.eqb_eq. naive_solver. Qed.

(** The two masks, and two bytes of a segment. *)
Lemma land_masks a b :
  u8_ok a → u8_ok b →
  (Z.land (be_push a b) 65024 =? 64512) = (a / 2 =? 126) ∧
  (Z.land (be_push a b) 65472 =? 65152) = (a =? 254) && (b / 64 =? 2).
Proof.
  rewrite !u8_ok_iff. intros Ha Hb.
  assert (Hall : forallb (fun i => forallb (fun j =>
      let a := Z.of_nat i in let b := Z.of_nat j in
      eqb (Z.land (be_push a b) 65024 =? 64512) (a / 2 =? 126)
      && eqb (Z.land (be_push a b) 65472 =? 65152) ((a =? 254) && (b / 64 =? 2)))
    (seq 0 256)) (seq 0 256) = true) by by vm_compute.
  rewrite forallb_forall in Hall. specialize (Hall (Z.to_nat a) ltac:(apply in_seq; lia)).
  rewrite forallb_forall in Hall. specialize (Hall (Z.to_nat b) ltac:(apply in_seq; lia)). cbn zeta in Hall.
  rewrite !Z2Nat.id in Hall by lia. by apply andb_true_iff in Hall as [?%eqb_prop ?%eqb_prop].
Qed.

(** The first bits of a byte. *)
Lemma byte_whole x : u8_ok x → (x / 2 ^ (8 - 0) =? 0 / 2 ^ (8 - 0)) = true.
Proof. rewrite u8_ok_iff. intros Hx. apply Z.eqb_eq, Z.div_small. done. Qed.

Lemma byte_bits x v m : 0 < m → (x / m =? v) = in_range (v * m) x (v * m + m - 1).
Proof.
  intros Hm. apply bool_iff. rewrite in_range_true, Z.eqb_eq.
  pose proof (Z.div_mod x m ltac:(lia)). pose proof (Z.mod_pos_bound x m ltac:(lia)). nia.
Qed.

(** Decides an equality of boolean conditions on bytes. *)
Ltac network_solver :=
  cbn -[Z.div Z.pow str_eqb Z.eqb in_range]; rewrite ?str_eqb_cons, ?byte_whole by done;
  change (str_eqb [] []) with true;
  change (2 ^ (8 - 4)) with 16; change (2 ^ (8 - 2)) with 64; change (2 ^ (8 - 7)) with 2;
  change (16 / 16) with 1; change (64 / 64) with 1; change (252 / 2) with 126; change (128 / 64) with 2;
  rewrite ?byte_bits by lia; rewrite ?andb_true_r, ?orb_false_r, ?andb_assoc, ?orb_assoc; try reflexivity.

Lemma network_ipv4 o : ip_ok (V4 o) → ipv4_scope o = network_scope PRIVATE_V4 LOCAL_V4 o.
Proof.
  intros [Hl Hb]. destruct o as [|a [|b [|c [|d [|]]]]]; try done. unfold is_bytes in Hb.
  rewrite !Forall_cons in Hb.
  destruct Hb as (? & ? & ? & ? & _).
  unfold ipv4_scope, network_scope.
  match goal with |- (if ?x then _ else _) = _ => assert (Hp : x = existsb (in_network [a; b; c; d]) PRIVATE_V4) end.
  { unfold ipv4_is_private, ipv4_is_link_local, PRIVATE_V4, in_network, octet, safe_get. network_solver. }
  rewrite Hp. destruct (existsb _ PRIVATE_V4); [done|].
  match goal with |- (if ?x then _ else _) = _ => assert (Hq : x = existsb (in_network [a; b; c; d]) LOCAL_V4) end.
  { unfold is_loopback, is_unspecified, all_zero, LOCAL_V4, in_network, octet, safe_get. network_solver. }
  by rewrite Hq.
Qed.

Lemma all_zero_eqb o : all_zero o = str_eqb o (replicate (length o) 0).
Proof.
  induction o as [|x o IH]; [done|]. cbn -[str_eqb Z.eqb]. rewrite str_eqb_cons, Z.eqb_sym. f_equal. apply IH.
Qed.

(** Bytes as the networks of one address. *)
Lemma in_network_address o whole :
  length o = length whole → in_network o (whole, (0, 0)) = str_eqb o whole.
Proof.
  intros Hl. unfold in_network. rewrite <- Hl, firstn_all. unfold octet, safe_get.
  rewrite nth_overflow by lia. by rewrite andb_true_r.
Qed.

Lemma str_eqb_app a b c d : length a = length c → str_eqb (a ++ b) (c ++ d) = str_eqb a c && str_eqb b d.
Proof.
  intros Hl. apply bool_iff. rewrite andb_true_iff, !str_eqb_eq. split; [by apply app_inj_1|]. by intros [-> ->].
Qed.

Lemma in_network_prefix a b c d r :
  Forall u8_ok r → in_network (a :: b :: c :: d :: r) ([32; 1; 13; 184], (0, 0))
    = (a =? 32) && (b =? 1) && (c =? 13) && (d =? 184).
Proof.
  intros Hr. unfold in_network. cbn [take length]. rewrite !str_eqb_cons. change (str_eqb [] []) with true.
  unfold octet, safe_get. cbn [nth]. rewrite byte_whole by (destruct Hr; [done|done]).
  by rewrite !andb_true_r, !andb_assoc.
Qed.

Lemma network_ipv6 o : ip_ok (V6 o) → ipv6_scope o = network_scope PRIVATE_V6 LOCAL_V6 o.
Proof.
  intros [Hl Hb].
  assert (Hu : is_unspecified (V6 o) = in_network o (replicate 16 0, (0, 0))).
  { rewrite in_network_address by done. cbn [is_unspecified]. rewrite all_zero_eqb. by rewrite Hl. }
  assert (Hloop : is_loopback (V6 o) = in_network o (replicate 15 0 ++ [1], (0, 0))).
  { rewrite in_network_address by done. cbn [is_loopback]. unfold octet, safe_get.
    do 16 (destruct o as [|? o]; [done|]). destruct o; [|done]. cbn [take nth].
    change (?a0 :: ?a1 :: ?a2 :: ?a3 :: ?a4 :: ?a5 :: ?a6 :: ?a7 :: ?a8 :: ?a9 :: ?a10 :: ?a11 :: ?a12 :: ?a13 :: ?a14 :: [?a15])
      with ([a0; a1; a2; a3; a4; a5; a6; a7; a8; a9; a10; a11; a12; a13; a14] ++ [a15]).
    rewrite str_eqb_app by done. rewrite all_zero_eqb, str_eqb_cons. by rewrite andb_true_r. }
  unfold is_bytes in Hb. unfold ipv6_scope, is_public_ipv6, network_scope, LOCAL_V6. cbn [existsb].
  rewrite Hu, Hloop. destruct o as [|a [|b [|c [|d o]]]]; try done. rewrite !Forall_cons in Hb.
  destruct Hb as (Ha & Hb & Hc & Hd & Ho). rewrite in_network_prefix by done.
  unfold segment, safe_get. cbn [segments nth]. destruct (land_masks a b) as [-> ->]; [done|done|].
  rewrite !be_push_eq by done.
  assert (Hp : (a / 2 =? 126) || (a =? 254) && (b / 64 =? 2) = existsb (in_network (a :: b :: c :: d :: o)) PRIVATE_V6).
  { unfold PRIVATE_V6, in_network, octet, safe_get. network_solver. }
  assert (Hdoc : (a * 256 + b =? 8193) && (c * 256 + d =? 3512) = (a =? 32) && (b =? 1) && (c =? 13) && (d =? 184)).
  { rewrite !u8_ok_iff in *. lia. }
  assert (Hmul : ipv6_is_multicast (a :: b :: c :: d :: o) = in_network (a :: b :: c :: d :: o) ([255], (0, 0))).
  { unfold ipv6_is_multicast, in_network, octet, safe_get. network_solver. }
  rewrite <- Hp, Hdoc, Hmul, orb_false_r, <- !orb_assoc.
  destruct (in_network _ (replicate 16 0, _)), (in_network _ (replicate 15 0 ++ [1], _)),
    (in_network _ ([255], _)), (a / 2 =? 126), ((a =? 254) && _), (_ && (d =? 184)); reflexivity.
Qed.

Lemma is_public_ipv6_scope o : is_public_ipv6 o = true ↔ ipv6_scope o = Public.
Proof. unfold ipv6_scope. destruct (is_public_ipv6 o); [done|]. by destruct (_ || _). Qed.

(** ** The share addresses *)

(** Merging keeps an address that is there, and otherwise takes a detected one. *)
Lemma merge_ipv4_spec existing d :
  (not_blank existing → merge_auto_ipv4_address existing d = existing) ∧
  (¬ not_blank existing → merge_auto_ipv4_address existing d = default [] (show_ipv4 <$> d)).
Proof.
  rewrite <- not_blank_true. unfold merge_auto_ipv4_address. destruct (blank existing); cbn [negb]; [|naive_solver].
  by destruct d.
Qed.

Lemma merge_ipv6_spec existing d :
  (not_blank existing → merge_auto_ipv6_address existing d = existing) ∧
  (¬ not_blank existing → merge_auto_ipv6_address existing d
     = default [] (show_ipv6 <$> (d ≫= fun o => if is_public_ipv6 o then Some o else None))).
Proof.
  rewrite <- not_blank_true. unfold merge_auto_ipv6_address. destruct (blank existing); cbn [negb]; [|naive_solver].
  destruct d as [o|]; [|done]. split; [done|]. intros _. cbn. by destruct (is_public_ipv6 o).
Qed.

(** What the share section becomes. *)
Record share_merged (p : Probes) (c : Config) (s s' : ShareConfig) : Prop := {
  merged_rest : with_share_addresses (share_server s) (ipv6_server s) s' = s;
  merged_explicit4 : not_blank (share_server s) → share_server s' = share_server s;
  merged_explicit6 : not_blank (ipv6_server s) → ipv6_server s' = ipv6_server s;
  merged_blank4 : ¬ not_blank (share_server s) → not_blank (share_server s') →
    ∃ o, share_server s' = show_ipv4 o ∧ (ip (listen c) = V4 o ∨ is_unspecified (ip (listen c)) = true ∧ probe4 p = Some (V4 o));
  merged_blank6 : ¬ not_blank (ipv6_server s) → not_blank (ipv6_server s') →
    ∃ o, ipv6_server s' = show_ipv6 o ∧ is_public_ipv6 o = true ∧
      (ip (listen c) = V6 o ∨ is_unspecified (ip (listen c)) = true ∧ probe6 p = Some (V6 o));
}.

Lemma detected_from p listen :
  (∀ o, detected4 (detect_network_addresses p listen) = Some o →
     ip listen = V4 o ∨ is_unspecified (ip listen) = true ∧ probe4 p = Some (V4 o)) ∧
  (∀ o, detected6 (detect_network_addresses p listen) = Some o →
     ip listen = V6 o ∨ is_unspecified (ip listen) = true ∧ probe6 p = Some (V6 o)).
Proof.
  unfold detect_network_addresses, probe_ipv4_route, probe_ipv6_route.
  destruct (ip listen) as [l|l]; destruct (is_unspecified _) eqn:E; cbn [detected4 detected6]; split; try done;
    repeat case_match; naive_solver.
Qed.

Lemma share_merged_refl p c s : share_merged p c s s.
Proof. split; try done. by destruct s. Qed.

Lemma auto_share_merged p c s :
  share c = Some s → ∃ s', apply_auto_share_addresses p c = with_share (Some s') c ∧ share_merged p c s s'.
Proof.
  intros Hs. unfold apply_auto_share_addresses. rewrite Hs.
  set (a := detect_network_addresses p (listen c)). destruct (detected_from p (listen c)) as [H4 H6]. fold a in H4, H6.
  assert (Hm : share_merged p c s (with_share_addresses (merge_auto_ipv4_address (share_server s) (detected4 a))
                 (merge_auto_ipv6_address (ipv6_server s) (detected6 a)) s)).
  { destruct (merge_ipv4_spec (share_server s) (detected4 a)) as [E4 B4].
    destruct (merge_ipv6_spec (ipv6_server s) (detected6 a)) as [E6 B6].
    split; cbn; [by destruct s|done|done| |].
    - intros Hb Hn. rewrite B4 in Hn |- * by done. destruct (detected4 a) as [o|]; [|by destruct Hn].
      exists o. split; [done|]. by apply H4.
    - intros Hb Hn. rewrite B6 in Hn |- * by done. destruct (detected6 a) as [o|]; [cbn in *|by destruct Hn].
      destruct (is_public_ipv6 o) eqn:Ep; [|by destruct Hn]. exists o. split_and!; [done|done|]. by apply H6. }
  destruct (detected4 a), (detected6 a); [by eexists|by eexists|by eexists|].
  exists s. split; [|apply share_merged_refl]. destruct c. cbn in Hs. by subst.
Qed.

(** Applying it again changes nothing. *)
Lemma merge_ipv4_idem existing d : merge_auto_ipv4_address (merge_auto_ipv4_address existing d) d = merge_auto_ipv4_address existing d.
Proof.
  unfold merge_auto_ipv4_address. destruct (blank existing) eqn:E; cbn [negb]; [|by rewrite E]. by case_match.
Qed.

Lemma merge_ipv6_idem existing d : merge_auto_ipv6_address (merge_auto_ipv6_address existing d) d = merge_auto_ipv6_address existing d.
Proof.
  unfold merge_auto_ipv6_address. destruct (blank existing) eqn:E; cbn [negb]; [|by rewrite E]. by case_match.
Qed.

Lemma auto_share_idem p c :
  apply_auto_share_addresses p (apply_auto_share_addresses p c) = apply_auto_share_addresses p c.
Proof.
  unfold apply_auto_share_addresses at 2 3. destruct (share c) as [s|] eqn:Hs; [|unfold apply_auto_share_addresses; by rewrite Hs].
  set (a := detect_network_addresses p (listen c)).
  destruct (detected4 a) eqn:E4, (detected6 a) eqn:E6;
    unfold apply_auto_share_addresses; cbn [share with_share listen]; fold a; rewrite ?Hs, ?E4, ?E6;
    cbn [share_server ipv6_server with_share_addresses]; rewrite ?merge_ipv4_idem, ?merge_ipv6_idem; done.
Qed.

Lemma auto_share_config_ok `{HostLib} `{HttpLib} p c : config_ok c → config_ok (apply_auto_share_addresses p c).
Proof.
  intros (Hu & Hus & Hc & Hk & Ht & Hssh & Hobfs & Hm & Hshare).
  destruct (share c) as [s|] eqn:Hs.
  - destruct (auto_share_merged p c s Hs) as (s' & -> & Hmerge). destruct Hmerge as [Hrest He4 He6 _ _].
    specialize (Hshare s eq_refl). split_and!; try done. cbn. intros ? [= <-].
    destruct Hshare as (Hsrv & Hrest'). split; [|by rewrite <- Hrest in Hrest'].
    destruct Hsrv as [H4|H6]; [left; by rewrite He4|right; by rewrite He6].
  - unfold apply_auto_share_addresses. rewrite Hs. split_and!; try done. by rewrite Hs.
Qed.

(** Filling in the share addresses changes nothing but the blank addresses of the share section: an address
    that was given is kept, a blank one becomes the address the server listens on,
    or, when it listens on all, the one of the route that was probed, in IPv6 only
    if it is public, that is outside the local, multicast, private and documentation
    networks. A configuration that is valid stays valid, and doing it twice is the
    same as doing it once. *)
Theorem auto_share_addresses_spec `{HostLib} `{HttpLib} p c :
  match share c with
  | None => apply_auto_share_addresses p c = c
  | Some s => ∃ s', apply_auto_share_addresses p c = with_share (Some s') c ∧ share_merged p c s s'
  end ∧
  (config_ok c → config_ok (apply_auto_share_addresses p c)) ∧
  apply_auto_share_addresses p (apply_auto_share_addresses p c) = apply_auto_share_addresses p c ∧
  (∀ o, ip_ok (V6 o) → is_public_ipv6 o = true ↔ network_scope PRIVATE_V6 LOCAL_V6 o = Public) ∧
  (∀ o, ip_ok (V4 o) → ipv4_scope o = network_scope PRIVATE_V4 LOCAL_V4 o).
Proof.
  split_and!.
  - destruct (share c) as [s|] eqn:Hs; [by apply auto_share_merged|]. unfold apply_auto_share_addresses. by rewrite Hs.
  - apply auto_share_config_ok.
  - apply auto_share_idem.
  - intros o Ho. by rewrite is_public_ipv6_scope, network_ipv6.
  - apply network_ipv4.
Qed.

Example network_tests :
  let doc6 := [32; 1; 13; 184; 0; 0; 0; 0; 0; 0; 0; 0; 0; 0; 0; 32] in
  let ula := 253 :: replicate 14 0 ++ [32] in
  ipv4_scope [192; 168; 1; 20] = Private ∧ ipv4_scope [100; 64; 1; 20] = Private ∧ ipv4_scope [8; 8; 8; 8] = Public ∧
  ipv6_scope ula = Private ∧ is_public_ipv6 doc6 = false ∧
  merge_auto_ipv4_address (lit "ph1.deeprush.ai") (Some [10; 91; 0; 36]) = lit "ph1.deeprush.ai" ∧
  merge_auto_ipv4_address [] (Some [10; 0; 160; 2]) = lit "10.0.160.2" ∧
  merge_auto_ipv6_address [] (Some ula) = [].
Proof. by vm_compute. Qed.
