(* ===== verification/AdminService.v ===== *)
(** * The management service ([src/src/admin.rs], [run] and its handlers)

    The loop that runs the proxy from the configuration file, and the handlers that
    change the file and tell the loop.  The two sides run concurrently: they share
    the file, the runtime state and a channel of four commands, and a handler that
    writes holds a lock.  Every await at which the other side can act is an event of
    its own.

    The proxy server is a task that ends when it likes.  The loop's own state holds a
    sender of the channel, so receiving waits and never finds it closed; the files of
    the other components are not written here; a handler runs to its end, its client
    staying connected. *)

From stdpp Require Import base list gmap strings.
From Stdlib Require Import ZArith Lia.
From S2P Require Import Prelude RustStr Rules Net Files Traffic Config Outbound Stream NatTunnel Vless PrivateFile AdminUsers AdminAuth.
From S2P Require Import ReverseProxy ShareAddress.

Open Scope Z_scope.

(** ** The runtime state *)

(** The text of an error, by where it comes from. *)
Inductive RuntimeError := LoadError (e : SaveError) | ServerError (message : str).

Record RuntimeState := {
  running : bool;
  generation : Z;
  started_at : option Z;
  listening : option str;
  service_address : option str;
  user_count : Z;
  udp_on : bool;
  tcp_on : bool;
  obfs_on : bool;
  up_rate : Z;
  down_rate : Z;
  last_error : option RuntimeError;
}.

Definition default_runtime : RuntimeState := {|
  running := false; generation := 0; started_at := None; listening := None; service_address := None; user_count := 0;
  udp_on := false; tcp_on := false; obfs_on := false; up_rate := 0; down_rate := 0; last_error := None |}.

Definition stopped_with (error : option RuntimeError) (r : RuntimeState) : RuntimeState := {|
  running := false; generation := generation r; started_at := started_at r; listening := listening r;
  service_address := service_address r; user_count := user_count r; udp_on := udp_on r; tcp_on := tcp_on r;
  obfs_on := obfs_on r; up_rate := up_rate r; down_rate := down_rate r; last_error := error |}.

(** The address clients are given. *)
Definition shared_address (c : Config) : str :=
  match share c with
  | Some s => if blank (share_server s) then lit "[" ++ ipv6_server s ++ lit "]:" ++ dec (share_port s)
              else share_server s ++ lit ":" ++ dec (share_port s)
  | None => show_addr (listen c)
  end.

(** What the loop sets before it starts a server. *)
Definition serving_runtime (gen now : Z) (c : Config) : RuntimeState := {|
  running := true; generation := gen; started_at := Some now; listening := Some (show_addr (listen c));
  service_address := Some (shared_address c); user_count := len (Config.users c); udp_on := udp_enabled (udp c);
  tcp_on := true; obfs_on := match obfs c with Some _ => true | None => false end;
  up_rate := up_mbps (bandwidth c); down_rate := down_mbps (bandwidth c); last_error := None |}.

(** How a server task ends: its own result, or a panic or cancellation. *)
Inductive ServerResult := Returned (r : result str unit) | JoinFailed (message : str).

Definition server_error (r : ServerResult) : option RuntimeError :=
  match r with
  | Returned (Ok _) => None
  | Returned (Err m) => Some (ServerError m)
  | JoinFailed m => Some (ServerError m)
  end.

(** [record_server_result]. *)
Definition record_server_result (r : ServerResult) (rt : RuntimeState) : RuntimeState := stopped_with (server_error r) rt.

(** ** The loop and the handlers *)

(** Where the loop is: about to load the file; waiting as it did not load; with a
    server of a configuration; waiting for that server to end, before loading again
    or before leaving; waiting after it ended by itself; returned. *)
Inductive Phase :=
| Starting
| Broken
| Serving (c : Config)
| Draining (c : Config) (leave : bool)
| Ended
| Left.

(** The holder of the write lock: the states its save has still to go through and
    how it ends, or the send it waits for.  The save of a request that was dropped goes
    on; what it and a save that starts meanwhile do to each other is in Saves, and here
    the next one starts after it. *)
Inductive PutPhase :=
| PutIdle
| PutSaving (c : Config) (rest : list filesystem) (outcome : result SaveError unit)
| PutAbandoned (rest : list filesystem)
| PutSending (c : Config).

Record Service := {
  files : filesystem;
  phase : Phase;
  loads : Z;
  runtime : RuntimeState;
  commands : nat;
  waiting : list Config;
  put : PutPhase;
  reloading : nat;
}.

Definition CHANNEL_CAPACITY : nat := 4.

Definition service_init (fs : filesystem) : Service := {|
  files := fs; phase := Starting; loads := 0; runtime := default_runtime; commands := 0; waiting := []; put := PutIdle;
  reloading := 0 |}.

Definition set_loop (ph : Phase) (rt : RuntimeState) (n : nat) (s : Service) : Service := {|
  files := files s; phase := ph; loads := loads s; runtime := rt; commands := n; waiting := waiting s; put := put s;
  reloading := reloading s |}.

Definition set_put (fs : filesystem) (n : nat) (w : list Config) (p : PutPhase) (s : Service) : Service := {|
  files := fs; phase := phase s; loads := loads s; runtime := runtime s; commands := n; waiting := w; put := p;
  reloading := reloading s |}.

Definition set_reloading (n r : nat) (s : Service) : Service := {|
  files := files s; phase := phase s; loads := loads s; runtime := runtime s; commands := n; waiting := waiting s;
  put := put s; reloading := r |}.

Section service.
Context `{HostLib} `{HttpLib} `{TomlLib Config}.
Context `{SessionLib} `{Blake2bMac} `{CredentialsToml}.
Variable state : AdminState.

Abbreviation path := (config_path state).

(** The top of the loop: the file is loaded, and a server started from it. *)
Definition loop_load (p : Probes) (now : Z) (s : Service) : Service :=
  match load (files s) path with
  | Err e => set_loop Broken (stopped_with (Some (LoadError e)) (runtime s)) (commands s) s
  | Ok c =>
      let c := apply_auto_share_addresses p c in
      let gen := sat_add (loads s) 1 in
      {| files := files s; phase := Serving c; loads := gen; runtime := serving_runtime gen now c;
         commands := commands s; waiting := waiting s; put := put s; reloading := reloading s |}
  end.

(** A command is received: the loop starts over, once a running server has ended. *)
Definition loop_receive (s : Service) : option Service :=
  match commands s with
  | O => None
  | S n =>
      match phase s with
      | Broken | Ended => Some (set_loop Starting (runtime s) n s)
      | Serving c => Some (set_loop (Draining c false) (runtime s) n s)
      | _ => None
      end
  end.

(** The server ends. *)
Definition loop_server_end (r : ServerResult) (s : Service) : option Service :=
  let rt := record_server_result r (runtime s) in
  match phase s with
  | Serving _ => Some (set_loop Ended rt (commands s) s)
  | Draining _ leave => Some (set_loop (if leave then Left else Starting) rt (commands s) s)
  | _ => None
  end.

(** The process is interrupted. *)
Definition loop_ctrl_c (s : Service) : option Service :=
  match phase s with
  | Broken | Ended => Some (set_loop Left (runtime s) (commands s) s)
  | Serving c => Some (set_loop (Draining c true) (runtime s) (commands s) s)
  | _ => None
  end.

Definition is_route (o : option (list Z)) : bool := match o with Some _ => true | None => false end.

(** [put_config] until it asks for the lock: the configuration it will save; [p] and
    [p'] are what the probes answer when the addresses are filled in and when the
    outbound mode is checked. *)
Definition put_config_checks (fs : filesystem) (h : Headers) (now : Z) (p p' : Probes) (body : Config)
    : result ApiError Config :=
  authorize fs state h now;;
  let c := apply_auto_share_addresses p body in
  rmap_err (fun _ => BadRequest) (validate c);;
  match outbound c with
  | Ipv4Only => ensure (is_route (probe_ipv4_route p')) BadRequest
  | Ipv6Only => ensure (is_route (probe_ipv6_route p')) BadRequest
  | PreferIpv4 => Ok tt
  end;;
  Ok c.

(** With the lock: the save begins. *)
Definition put_lock (faults : SaveFaults) (s : Service) : option Service :=
  match put s, waiting s with
  | PutIdle, c :: w =>
      let '(r, trace) := save_atomic c (files s) path faults in
      Some (set_put (files s) (commands s) w (PutSaving c trace r) s)
  | _, _ => None
  end.

(** The save goes on to its next state, and then the handler answers an error and
    gives the lock back, or goes on to send. *)
Definition put_write (s : Service) : option Service :=
  match put s with
  | PutSaving c (fs :: rest) r => Some (set_put fs (commands s) (waiting s) (PutSaving c rest r) s)
  | PutSaving c [] (Ok _) => Some (set_put (files s) (commands s) (waiting s) (PutSending c) s)
  | PutSaving c [] (Err _) => Some (set_put (files s) (commands s) (waiting s) PutIdle s)
  | PutAbandoned (fs :: rest) => Some (set_put fs (commands s) (waiting s) (PutAbandoned rest) s)
  | PutAbandoned [] => Some (set_put (files s) (commands s) (waiting s) PutIdle s)
  | _ => None
  end.

(** The command is sent, when the channel has room; the request is accepted. *)
Definition put_send (s : Service) : option Service :=
  match put s with
  | PutSending _ =>
      if (commands s <? CHANNEL_CAPACITY)%nat
      then Some (set_put (files s) (S (commands s)) (waiting s) PutIdle s) else None
  | _ => None
  end.

(** The client of [put_config] goes away, and the request is dropped where it waits: for
    the lock, the [n]-th in turn, for its save, or to send. *)
Definition put_drop_waiting (n : nat) (s : Service) : option Service :=
  if (n <? length (waiting s))%nat
  then Some (set_put (files s) (commands s) (delete n (waiting s)) (put s) s) else None.

Definition put_drop (s : Service) : option Service :=
  match put s with
  | PutSaving c rest r => Some (set_put (files s) (commands s) (waiting s) (PutAbandoned rest) s)
  | PutSending c => Some (set_put (files s) (commands s) (waiting s) PutIdle s)
  | _ => None
  end.

(** [reload] until it sends. *)
Definition reload_checks (fs : filesystem) (h : Headers) (now : Z) : result ApiError unit :=
  authorize fs state h now;;
  rmap_err (fun _ => BadRequest) (load fs path);;
  Ok tt.

Definition reload_send (s : Service) : option Service :=
  match reloading s with
  | O => None
  | S n => if (commands s <? CHANNEL_CAPACITY)%nat then Some (set_reloading (S (commands s)) n s) else None
  end.

Definition reload_drop (s : Service) : option Service :=
  match reloading s with
  | O => None
  | S n => Some (set_reloading (commands s) n s)
  end.

Inductive Event :=
| Load (p : Probes) (now : Z)
| Receive
| ServerEnd (r : ServerResult)
| CtrlC
| Put (h : Headers) (now : Z) (p p' : Probes) (body : Config)
| PutLock (faults : SaveFaults)
| PutWrite
| PutSend
| PutDropWaiting (n : nat)
| PutDrop
| Reload (h : Headers) (now : Z)
| ReloadSend
| ReloadDrop.

(** An event, in a state in which it can happen. *)
Definition service_step (s : Service) (e : Event) : option Service :=
  match e with
  | Load p now => match phase s with Starting => Some (loop_load p now s) | _ => None end
  | Receive => loop_receive s
  | ServerEnd r => loop_server_end r s
  | CtrlC => loop_ctrl_c s
  | Put h now p p' body =>
      Some match put_config_checks (files s) h now p p' body with
           | Ok c => set_put (files s) (commands s) (waiting s ++ [c]) (put s) s
           | Err _ => s
           end
  | PutLock faults => put_lock faults s
  | PutWrite => put_write s
  | PutSend => put_send s
  | PutDropWaiting n => put_drop_waiting n s
  | PutDrop => put_drop s
  | Reload h now =>
      Some match reload_checks (files s) h now with
           | Ok _ => set_reloading (commands s) (S (reloading s)) s
           | Err _ => s
           end
  | ReloadSend => reload_send s
  | ReloadDrop => reload_drop s
  end.

Fixpoint service_run (s : Service) (events : list Event) : option Service :=
  match events with
  | [] => Some s
  | e :: events => s ← service_step s e; service_run s events
  end.

(** ** The invariant *)

Lemma load_config_ok fs c : load fs path = Ok c → config_ok c.
Proof.
  unfold load, from_toml. intros Hl. res_inv. subst. destruct (validate c) as [[]|] eqn:Hv; [|done].
  by apply (validate_Ok c tt).
Qed.

(** The file loads, in every state where it did at first. *)
Variable fs0 : filesystem.

Definition loadable (fs : filesystem) : Prop := is_ok (load fs0 path) = true → is_ok (load fs path) = true.

(** A save under way: the file stays loadable, and is the new configuration in the
    end if the save succeeds. *)
Definition saving_ok (fs : filesystem) (c : Config) (rest : list filesystem) (r : result SaveError unit) : Prop :=
  Forall loadable rest ∧ (r = Ok tt → ∃ fs_end, last (fs :: rest) = Some fs_end ∧ load fs_end path = Ok c).

Definition put_ok (fs : filesystem) (p : PutPhase) : Prop :=
  match p with
  | PutIdle => True
  | PutSaving c rest r => config_ok c ∧ saving_ok fs c rest r
  | PutAbandoned rest => Forall loadable rest
  | PutSending c => config_ok c ∧ load fs path = Ok c
  end.

Record service_inv (s : Service) : Prop := {
  inv_file : loadable (files s);
  inv_phase : match phase s with
              | Serving c | Draining c _ => config_ok c ∧ ∃ now, runtime s = serving_runtime (loads s) now c
              | Broken => is_ok (load fs0 path) = false ∧ running (runtime s) = false ∧
                          ∃ e, last_error (runtime s) = Some (LoadError e)
              | Starting | Ended | Left => running (runtime s) = false
              end;
  inv_generation : generation (runtime s) = loads s;
  inv_commands : (commands s ≤ CHANNEL_CAPACITY)%nat;
  inv_waiting : Forall config_ok (waiting s);
  inv_put : put_ok (files s) (put s);
}.

Lemma service_init_inv : service_inv (service_init fs0).
Proof. split; cbn; first [by intros ?|lia|by constructor]. Qed.

Lemma saving_ok_start c fs faults :
  loadable fs → saving_ok fs c (save_atomic c fs path faults).2 (save_atomic c fs path faults).1.
Proof.
  intros Hl. destruct (save_atomic_outcome c fs path faults) as (Hall & _ & fs_end & Hlast & Hend). split.
  - apply Forall_forall. intros fs' Hin Hok. destruct (Hall fs' Hin) as [-> | ->]; [by apply Hl|done].
  - intros Hr. rewrite Hr in Hend. exists fs_end. split; [|by apply Hend].
    destruct (save_atomic _ _ _ _).2; [done|]. by rewrite last_cons_cons.
Qed.

Lemma put_config_checks_Ok fs h now p p' body c :
  put_config_checks fs h now p p' body = Ok c → authorize fs state h now = Ok tt ∧ config_ok c ∧
  c = apply_auto_share_addresses p body ∧
  (outbound c = Ipv4Only → is_Some (probe_ipv4_route p')) ∧ (outbound c = Ipv6Only → is_Some (probe_ipv6_route p')).
Proof.
  unfold put_config_checks. intros Hc. apply rbind_Ok in Hc as ([] & Ha & Hc). apply rbind_Ok in Hc as ([] & Hv & Hc).
  destruct (validate _) as [[]|] eqn:Ev in Hv; [|done]. apply rbind_Ok in Hc as ([] & Ho & [= <-]).
  apply validate_Ok in Ev. split_and!; try done; intros E; rewrite E in Ho; apply ensure_Ok in Ho.
  - by destruct (probe_ipv4_route p').
  - by destruct (probe_ipv6_route p').
Qed.

(** The loop's own steps. *)
Lemma loop_step_inv s s' e :
  match e with Load _ _ | Receive | ServerEnd _ | CtrlC => True | _ => False end →
  service_step s e = Some s' → service_inv s → service_inv s'.
Proof.
  intros He Hstep [Hf Hp Hg Hc Hw Hput]. destruct e; try done; cbn in Hstep.
  - destruct (phase s) eqn:Ep; [|done..]. injection Hstep as <-. unfold loop_load.
    destruct (load (files s) path) as [c|err] eqn:El; split; cbn; try first [exact Hput|done].
    + split; [|by eexists]. by eapply auto_share_config_ok, load_config_ok.
    + split_and!; [|done|by eexists]. destruct (is_ok (load fs0 path)) eqn:E0; [|done].
      specialize (Hf E0). by rewrite El in Hf.
  - unfold loop_receive in Hstep. destruct (commands s) as [|n] eqn:En; [done|].
    destruct (phase s) eqn:Ep; try done; injection Hstep as <-; split; cbn; try first [exact Hput|done|lia]. by destruct Hp as (_ & ? & _).
  - unfold loop_server_end in Hstep. destruct (phase s) eqn:Ep; try done; injection Hstep as <-; split; cbn; try first [exact Hput|done].
    by destruct leave.
  - unfold loop_ctrl_c in Hstep. destruct (phase s) eqn:Ep; try done; injection Hstep as <-; split; cbn; try first [exact Hput|done].
    by destruct Hp as (_ & ? & _).
Qed.

(** The handlers' steps. *)
Lemma handler_step_inv s s' e :
  match e with Load _ _ | Receive | ServerEnd _ | CtrlC => False | _ => True end →
  service_step s e = Some s' → service_inv s → service_inv s'.
Proof.
  intros He Hstep [Hf Hp Hg Hc Hw Hput]. destruct e; try done; cbn in Hstep.
  - injection Hstep as <-. destruct (put_config_checks _ _ _ _ _ _) as [c|] eqn:Ec; [|by split].
    apply put_config_checks_Ok in Ec as (_ & Hok & _). split; cbn; try first [exact Hput|done]. apply Forall_app_2; [done|]. by constructor.
  - unfold put_lock in Hstep. destruct (put s) eqn:Eput; try done. destruct (waiting s) as [|c w] eqn:Ew; [done|].
    pose proof (saving_ok_start c (files s) faults Hf) as Hs. apply Forall_cons in Hw as [Hok Hw].
    destruct (save_atomic _ _ _ _) as [r trace]. injection Hstep as <-. by split.
  - unfold put_write in Hstep. destruct (put s) as [|c rest r|rest|] eqn:Eput; try done.
    2: { destruct rest as [|fs rest]; injection Hstep as <-; [by split|].
         apply Forall_cons in Hput as [Hfs Hall]. by split. }
    destruct Hput as (Hok & Hall & Hend). destruct rest as [|fs rest].
    + destruct r as [[]|]; injection Hstep as <-; split; cbn; try first [exact Hput|done]. split; [done|].
      by destruct (Hend eq_refl) as (? & [= <-] & ?).
    + injection Hstep as <-. apply Forall_cons in Hall as [Hfs Hall]. split; cbn; try first [exact Hput|done].
  - unfold put_send in Hstep. destruct (put s) as [| | |c]; try done.
    destruct (Nat.ltb_spec (commands s) CHANNEL_CAPACITY); [|done]. injection Hstep as <-. split; cbn; try first [exact Hput|done].
  - unfold put_drop_waiting in Hstep. destruct (Nat.ltb _ _); [|done]. injection Hstep as <-. split; cbn; try first [exact Hput|done].
    by apply Forall_delete.
  - unfold put_drop in Hstep. destruct (put s) as [|c rest r|rest|c]; try done; injection Hstep as <-; [|by split].
    destruct Hput as (_ & Hall & _). by split.
  - injection Hstep as <-. by destruct (reload_checks _ _ _); split.
  - unfold reload_send in Hstep. destruct (reloading s); [done|].
    destruct (Nat.ltb_spec (commands s) CHANNEL_CAPACITY); [|done]. injection Hstep as <-. split; cbn; try first [exact Hput|done].
  - unfold reload_drop in Hstep. destruct (reloading s); [done|]. by injection Hstep as <-.
Qed.

Lemma service_step_inv s e s' : service_step s e = Some s' → service_inv s → service_inv s'.
Proof. destruct e; first [by apply loop_step_inv|by apply handler_step_inv]. Qed.

Lemma service_run_inv s events s' : service_run s events = Some s' → service_inv s → service_inv s'.
Proof.
  revert s. induction events as [|e events IH]; cbn; intros s Hr Hs; [by injection Hr as <-|].
  apply bind_Some in Hr as (s1 & Hs1 & Hr). apply (IH s1); [done|]. by apply (service_step_inv s e).
Qed.

(** What the invariant says: a server runs exactly when the status says so, and then the
    status is that of the valid configuration it runs; without one it is reported as
    stopped, with the error if the file did not load; and a file that loads at the start
    loads at every moment, also halfway through a save. *)
Lemma service_inv_facts s :
  service_inv s →
  (running (runtime s) = true ↔ ∃ c, phase s = Serving c ∨ ∃ leave, phase s = Draining c leave) ∧
  (∀ c, (phase s = Serving c ∨ ∃ leave, phase s = Draining c leave) → config_ok c ∧ ∃ now, runtime s = serving_runtime (loads s) now c) ∧
  (phase s = Broken → ∃ e, last_error (runtime s) = Some (LoadError e)) ∧
  generation (runtime s) = loads s ∧ (commands s ≤ CHANNEL_CAPACITY)%nat ∧
  (is_ok (load fs0 path) = true → is_ok (load (files s) path) = true ∧ phase s ≠ Broken).
Proof.
  intros [Hf Hp Hg Hc Hw Hput].
  split_and!; [|intros c [E|[leave E]]; by rewrite E in Hp| |done|done|].
  - destruct (phase s) as [| |c|c leave| |]; try (rewrite Hp; naive_solver).
    + destruct Hp as (_ & -> & _). naive_solver.
    + destruct Hp as (_ & now & ->). split; [by eauto|done].
    + destruct Hp as (_ & now & ->). split; [by eauto|done].
  - intros E. rewrite E in Hp. by destruct Hp as (_ & _ & ?).
  - intros H0'. split; [by apply Hf|]. intros E. rewrite E in Hp. destruct Hp as [Hp _]. congruence.
Qed.

(** In every state the service can reach, whatever requests come and however their saves
    fail, the invariant says so. *)
Theorem service_invariant events s :
  service_run (service_init fs0) events = Some s →
  (running (runtime s) = true ↔ ∃ c, phase s = Serving c ∨ ∃ leave, phase s = Draining c leave) ∧
  (∀ c, (phase s = Serving c ∨ ∃ leave, phase s = Draining c leave) → config_ok c ∧ ∃ now, runtime s = serving_runtime (loads s) now c) ∧
  (phase s = Broken → ∃ e, last_error (runtime s) = Some (LoadError e)) ∧
  generation (runtime s) = loads s ∧ (commands s ≤ CHANNEL_CAPACITY)%nat ∧
  (is_ok (load fs0 path) = true → is_ok (load (files s) path) = true ∧ phase s ≠ Broken).
Proof. intros Hr. by apply service_inv_facts, (service_run_inv _ _ _ Hr), service_init_inv. Qed.

(** ** Progress *)

(** The steps of the loop itself. *)
Definition loop_event (e : Event) : bool :=
  match e with Load _ _ | Receive | ServerEnd _ => true | _ => false end.

Definition phase_weight (p : Phase) : nat :=
  match p with Starting => 2 | Serving _ => 1 | Draining _ _ => 3 | Broken | Ended | Left => 0 end.

(** How much the loop can still do by itself. *)
Definition work (s : Service) : nat := (3 * commands s + phase_weight (phase s))%nat.

Lemma loop_step_work s e s' :
  loop_event e = true → service_step s e = Some s' → (work s' < work s)%nat ∧ files s' = files s.
Proof.
  intros He Hstep. destruct e; try done; cbn in Hstep.
  - destruct (phase s) eqn:Ep; try done. injection Hstep as <-. unfold loop_load, work. rewrite Ep.
    destruct (load (files s) path); cbn; split; try done; lia.
  - unfold loop_receive in Hstep. destruct (commands s) as [|n] eqn:En; [done|].
    destruct (phase s) eqn:Ep; try done; injection Hstep as <-; unfold work; rewrite Ep, En; cbn; split; try done; lia.
  - unfold loop_server_end in Hstep. unfold work.
    destruct (phase s) eqn:Ep; try done; injection Hstep as <-; cbn; split; try done; [lia|destruct leave; cbn; lia].
Qed.

(** Claim C30. The loop comes to rest: by itself, without a new request, it takes at most three steps for every
    command in the channel and three more; and when it can neither load nor receive
    a command then the channel is empty, or it has left, or it waits for the server
    it told to stop. *)
Theorem loop_settles s events s' :
  forallb loop_event events = true → service_run s events = Some s' →
  (length events ≤ 3 * commands s + 3)%nat ∧
  ((∀ p now, service_step s' (Load p now) = None) → service_step s' Receive = None →
     match phase s' with Broken | Ended | Serving _ => commands s' = O | Draining _ _ | Left => True | Starting => False end).
Proof.
  intros He Hr. split.
  - assert (Hw : (length events + work s' ≤ work s)%nat).
    { revert s He Hr. induction events as [|e events IH]; cbn [length forallb service_run]; intros s He Hr;
        [by injection Hr as <-|].
      apply andb_true_iff in He as [He Hes].
      apply bind_Some in Hr as (s1 & Hs1 & Hr). apply loop_step_work in Hs1 as [Hlt _]; [|done].
      specialize (IH s1 Hes Hr). lia. }
    unfold work in Hw. assert (phase_weight (phase s) ≤ 3)%nat by (destruct (phase s); cbn; lia). lia.
  - intros Hl Hrecv. unfold service_step, loop_receive in Hl, Hrecv. destruct (phase s'); try done.
    all: try by destruct (commands s').
    by specialize (Hl {| probe4 := None; probe6 := None |} 0).
Qed.

(** The configuration [c] is saved and the loop has still to load it. *)
Definition due (c : Config) (s : Service) : Prop :=
  load (files s) path = Ok c ∧ put s = PutIdle ∧
  match phase s with
  | Starting | Draining _ false => True
  | Broken | Ended | Serving _ => (0 < commands s)%nat
  | Draining _ true | Left => False
  end.

(** The loop's steps before it does. *)
Definition todo (s : Service) : nat :=
  match phase s with Starting | Left => 0 | Broken | Ended | Draining _ _ => 1 | Serving _ => 2 end.

(** Neither an interrupt nor the save of another configuration. *)
Definition undisturbed (e : Event) : bool := match e with CtrlC | PutLock _ => false | _ => true end.

Definition serves (c : Config) (e : Event) (s : Service) : Prop :=
  ∃ p now, e = Load p now ∧ phase s = Serving (apply_auto_share_addresses p c).

Lemma due_step c s e s' :
  undisturbed e = true → service_step s e = Some s' → due c s →
  serves c e s' ∨ due c s' ∧ (todo s' + (if loop_event e then 1 else 0) ≤ todo s)%nat.
Proof.
  intros He Hstep (Hl & Hput & Hp). destruct e; try done; cbn in Hstep.
  - left. exists p, now. split; [done|]. destruct (phase s); try done. injection Hstep as <-. unfold loop_load.
    by rewrite Hl.
  - right. unfold loop_receive in Hstep. destruct (commands s) as [|n]; [done|]. unfold due, todo.
    destruct (phase s); try done; injection Hstep as <-; cbn; split_and!; try done; lia.
  - right. unfold loop_server_end in Hstep. unfold due, todo.
    destruct (phase s) as [| |c'|c' []| |]; try done; injection Hstep as <-; cbn; split_and!; try done; lia.
  - right. injection Hstep as <-. destruct (put_config_checks _ _ _ _ _ _); unfold due, todo; cbn; split_and!; try done; lia.
  - unfold put_write in Hstep. by rewrite Hput in Hstep.
  - unfold put_send in Hstep. by rewrite Hput in Hstep.
  - right. unfold put_drop_waiting in Hstep. destruct (Nat.ltb _ _); [|done]. injection Hstep as <-.
    unfold due, todo; cbn; split_and!; try done; lia.
  - unfold put_drop in Hstep. by rewrite Hput in Hstep.
  - right. injection Hstep as <-. destruct (reload_checks _ _ _); unfold due, todo; cbn; split_and!; try done; lia.
  - right. unfold reload_send in Hstep. destruct (reloading s); [done|]. destruct (Nat.ltb _ _); [|done].
    injection Hstep as <-. unfold due, todo; cbn; split_and!; try done; [|lia]. destruct (phase s) as [| | |? []| |]; try done; lia.
  - right. unfold reload_drop in Hstep. destruct (reloading s); [done|]. injection Hstep as <-.
    unfold due, todo; cbn; split_and!; try done; lia.
Qed.

Lemma due_enabled c s : due c s → ∃ e s', loop_event e = true ∧ service_step s e = Some s'.
Proof.
  intros (_ & _ & Hp). destruct (phase s) as [| |c'|c' []| |] eqn:Ep; try done.
  - exists (Load {| probe4 := None; probe6 := None |} 0). cbn. rewrite Ep. eauto.
  - exists Receive. cbn. unfold loop_receive. rewrite Ep. destruct (commands s); [lia|eauto].
  - exists Receive. cbn. unfold loop_receive. rewrite Ep. destruct (commands s); [lia|eauto].
  - exists (ServerEnd (Returned (Ok tt))). cbn. unfold loop_server_end. rewrite Ep. eauto.
  - exists Receive. cbn. unfold loop_receive. rewrite Ep. destruct (commands s); [lia|eauto].
Qed.

Lemma due_run c s events s' :
  due c s → forallb undisturbed events = true → service_run s events = Some s' →
  (∃ before e after s1, events = before ++ e :: after ∧ service_run s (before ++ [e]) = Some s1 ∧ serves c e s1) ∨
  due c s' ∧ (length (filter (fun e => loop_event e = true) events) + todo s' ≤ todo s)%nat.
Proof.
  revert s. induction events as [|e events IH]; cbn [forallb service_run]; intros s Hd He Hr.
  { injection Hr as <-. by right. }
  apply andb_true_iff in He as [He Hes]. apply bind_Some in Hr as (s1 & Hs1 & Hr).
  destruct (due_step c s e s1 He Hs1 Hd) as [Hs|[Hd1 Ht]].
  - left. exists [], e, events, s1. split_and!; [done| |done]. cbn [app service_run]. by rewrite Hs1.
  - destruct (IH s1 Hd1 Hes Hr) as [(b & e' & a & s2 & -> & Hr2 & Hs2)|[Hd' Ht']].
    + left. exists (e :: b), e', a, s2. split_and!; [done| |done]. cbn [app service_run]. by rewrite Hs1.
    + right. split; [done|]. rewrite filter_cons. destruct (loop_event e); case_decide; try done; cbn [length]; lia.
Qed.

End service.

(** ** The other handlers *)

Section handlers.
Context `{HostLib} `{HttpLib} `{TomlLib Config} `{TomlLib ReverseProxySettings}.
Context `{SessionLib} `{Blake2bMac} `{CredentialsToml} `{Sha256} `{HashIter}.
Variable state : AdminState.

(** [get_config]. *)
Definition get_config (fs : filesystem) (h : Headers) (now : Z) (p : Probes) : result ApiError Config :=
  authorize fs state h now;;
  rmap (apply_auto_share_addresses p) (rmap_err (fun _ => BadRequest) (load fs (config_path state))).

(** [get_vless_users]: names and UUIDs. *)
Definition get_vless_users (fs : filesystem) (h : Headers) (now : Z) : result ApiError (list (str * str)) :=
  authorize fs state h now;;
  c ← rmap_err (fun _ => BadRequest) (load fs (config_path state));
  Ok ((fun u => (user_name u, user_id_string (user_name u) (user_password u))) <$> Config.users c).

(** [StatusResponse], its fields that are not copied from the runtime state; the
    version is a constant of the build. *)
Record StatusResponse := { status_runtime : RuntimeState; uptime_secs : Z; status_listen : str; traffic : list (str * UserTraffic) }.

(** [status], at the instant [instant]. *)
Definition status (fs : filesystem) (h : Headers) (now : Z) (rt : RuntimeState) (t : TrafficRegistry) (instant : Z)
    : result ApiError StatusResponse :=
  authorize fs state h now;;
  Ok {| status_runtime := rt;
        uptime_secs := match started_at rt with Some started => instant - started | None => 0 end;
        status_listen := webui_listen state; traffic := snapshots t |}.

(** [put_reverse_proxy]. *)
Definition put_reverse_proxy (fs : filesystem) (h : Headers) (now : Z) (s : ReverseProxySettings) (faults : ReplaceFaults)
    (instant : Z) (c : Controller) : result ApiError unit * list filesystem * Controller :=
  match (authorize fs state h now;; rmap_err (fun _ => BadRequest) (settings_validate s)) with
  | Err e => (Err e, [fs], c)
  | Ok _ =>
      let '(r, trace, c) := controller_update s fs faults instant c in
      (rmap_err (fun _ => Internal) r, trace, c)
  end.

(** [probe_tcp_connectivity]; [connect] says which connections succeed in time. *)
Definition probe_tcp_connectivity (connect : SocketAddr → bool) (addresses : list SocketAddr) : bool :=
  existsb connect addresses.

Definition ipv4_probes : list SocketAddr :=
  [{| ip := V4 [1; 1; 1; 1]; port := 443 |}; {| ip := V4 [8; 8; 8; 8]; port := 443 |}].

Definition ipv6_probes : list SocketAddr :=
  [{| ip := V6 ([38; 6; 71; 0; 71; 0] ++ replicate 8 0 ++ [17; 17]); port := 443 |};
   {| ip := V6 ([32; 1; 72; 96; 72; 96] ++ replicate 8 0 ++ [136; 136]); port := 443 |}].

(** The message, by what it says. *)
Inductive NetworkMessage := Ipv6ToIpv4 | BothOutbound | OnlyIpv4Outbound | OnlyIpv6Outbound | NoOutbound.

Record NetworkCapabilities := {
  ipv4_address : option (list Z);
  ipv6_address : option (list Z);
  scope4 : option Scope;
  scope6 : option Scope;
  ipv4_outbound : bool;
  ipv6_outbound : bool;
  public_ipv6 : bool;
  ipv6_to_ipv4_available : bool;
  message : NetworkMessage;
}.

(** [network_capabilities]; no scope stands for ["unavailable"]. *)
Definition network_capabilities (fs : filesystem) (h : Headers) (now : Z) (p : Probes) (connect : SocketAddr → bool)
    : result ApiError NetworkCapabilities :=
  authorize fs state h now;;
  rmap_err (fun _ => BadRequest) (load fs (config_path state));;
  let out4 := probe_tcp_connectivity connect ipv4_probes in
  let out6 := probe_tcp_connectivity connect ipv6_probes in
  let public := match probe_ipv6_route p with Some o => is_public_ipv6 o | None => false end in
  Ok {| ipv4_address := probe_ipv4_route p; ipv6_address := probe_ipv6_route p;
        scope4 := ipv4_scope <$> probe_ipv4_route p; scope6 := ipv6_scope <$> probe_ipv6_route p;
        ipv4_outbound := out4; ipv6_outbound := out6; public_ipv6 := public; ipv6_to_ipv4_available := public && out4;
        message := if public && out4 then Ipv6ToIpv4 else if out4 && out6 then BothOutbound
                   else if out4 then OnlyIpv4Outbound else if out6 then OnlyIpv6Outbound else NoOutbound |}.

End handlers.

(** ** Concrete runs *)

Definition example_service_fs : filesystem :=
  <[lit "config.toml" := {| contents := lit "example"; mode := DEFAULT_MODE |}]> example_cred_fs.

Definition example_probes : Probes := {| probe4 := Some (V4 [10; 0; 0; 2]); probe6 := None |}.

Definition example_basic : Headers := [(lit "authorization", lit "Basic " ++ hex (lit "admin:secret"))].

(** The service runs, and a request saves its configuration up to the point where it
    tells the loop. *)
Definition example_putting : list Event :=
  [Load example_probes 5; Put example_basic 1000 example_probes example_probes example_config; PutLock no_faults]
  ++ replicate 12 PutWrite.

Section example_runs.
Let host := example_hostlib.
Let http := example_http.
Let toml := example_toml.
Let lib := example_session_lib.
Let mac := example_blake2b.
Let cred := example_cred_toml.
#[local] Existing Instances host http toml lib mac cred.

Definition example_service : Service :=
  default (service_init ∅) (service_run example_admin_state (service_init example_service_fs) example_putting).

Lemma service_invariant_witness :
  running (runtime example_service) = true ∧ put example_service = PutSending example_config ∧
  (is_ok (load example_service_fs (config_path example_admin_state)) = true →
   is_ok (load (files example_service) (config_path example_admin_state)) = true ∧ phase example_service ≠ Broken).
Proof.
  split; [vm_compute; reflexivity|]. split; [vm_compute; reflexivity|].
  refine (proj2 (proj2 (proj2 (proj2 (proj2 (service_invariant example_admin_state example_service_fs example_putting
    example_service _)))))).
  vm_compute. reflexivity.
Defined.

Definition example_pending : Service := {|
  files := example_service_fs; phase := Starting; loads := 0; runtime := default_runtime; commands := 1; waiting := [];
  put := PutIdle; reloading := 0 |}.

Definition example_loop : list Event :=
  [Load example_probes 5; Receive; ServerEnd (Returned (Ok tt)); Load example_probes 6].

Lemma loop_settles_witness : (length example_loop ≤ 3 * commands example_pending + 3)%nat.
Proof.
  refine (proj1 (loop_settles example_admin_state example_pending example_loop
    (default example_pending (service_run example_admin_state example_pending example_loop)) _ _)); vm_compute; reflexivity.
Defined.

Definition example_sent : Service :=
  default example_service (service_step example_admin_state example_service PutSend).

Definition example_later : list Event :=
  [Reload example_basic 1001; Receive; ServerEnd (Returned (Ok tt)); Load example_probes 9].

Definition example_later_state : Service :=
  default example_sent (service_run example_admin_state example_sent example_later).


(** The client goes away while its save is under way: the new configuration is saved, the
    lock is free again and the loop is never told. *)
Example dropped_request_not_reloaded :
  match service_run example_admin_state (service_init example_service_fs)
          (firstn 4 example_putting ++ PutDrop :: replicate 11 PutWrite) with
  | Some s => put s = PutIdle ∧ commands s = 0%nat ∧ loads s = 1 ∧
              files s !! lit "config.toml" = files example_service !! lit "config.toml"
  | None => False
  end.
Proof. by vm_compute. Qed.
End example_runs.
