(* ===== verification/ServiceUnit.v ===== *)
(** * The service files ([src/src/startup.rs], rendering)

    The OpenRC script and the systemd unit that start the program, their quoting, and
    readers for the two syntaxes against which the quoting is proved: what POSIX says
    of a shell's words, and systemd.syntax(7) of a command line.  Both readers refuse
    what would be expanded. *)

From stdpp Require Import base list strings.
From Stdlib Require Import ZArith Lia.
From S2P Require Import Prelude RustStr.

Open Scope Z_scope.

Definition SERVICE_NAME : str := lit "sing-box-ser-mini".

(** The newline, the single and the double quote and the backslash. *)
Definition NL : Z := 10.
Definition SQ : Z := 39.
Definition DQ : Z := 34.
Definition BS : Z := 92.

(** [shell_quote], [systemd_quote] and [systemd_value]. *)
Definition shell_quote (value : str) : str := [SQ] ++ replace_char SQ [SQ; BS; SQ; SQ] value ++ [SQ].

Definition systemd_quote (value : str) : str :=
  [DQ] ++ replace_char DQ [BS; DQ] (replace_char BS [BS; BS] value) ++ [DQ].

Definition systemd_value (value : str) : str :=
  replace_char 9 (BS :: lit "t") (replace_char 32 (BS :: lit "x20") (replace_char BS [BS; BS] value)).

(** What a service is started with. *)
Record StartupInputs := {
  input_config : str;
  input_credentials : str;
  input_token_file : option str;
  input_listen : str;
  input_threads : Z;
}.

(** [service_arguments]. *)
Definition service_arguments (inputs : StartupInputs) (config_path credentials_path : str) (token_file : option str)
    : list str :=
  [lit "--config"; config_path; lit "--admin-listen"; input_listen inputs; lit "--admin-credentials-file";
   credentials_path; lit "--worker-threads"; dec (input_threads inputs)]
  ++ match token_file with Some f => [lit "--admin-token-file"; f] | None => [] end.

Definition line (s : string) : str := lit s ++ [NL].

(** A variable of a script. *)
Definition assignment (name : string) (value : str) : str := lit name ++ lit "=" ++ shell_quote value ++ [NL].

Definition openrc_header : str :=
  line "#!/sbin/openrc-run" ++ [NL]
  ++ lit "description=" ++ [DQ] ++ lit "Rust Hysteria 2 server and management UI" ++ [DQ] ++ [NL]
  ++ line "export RUST_LOG=sing_box_ser_mini=info".

Definition openrc_footer (log_file : option str) : str :=
  lit "supervisor=" ++ [DQ] ++ lit "supervise-daemon" ++ [DQ] ++ [NL]
  ++ line "respawn_delay=5" ++ line "respawn_max=0" ++ [NL]
  ++ match log_file with
     | Some path => assignment "output_log" path ++ assignment "error_log" path
     | None => []
     end
  ++ line "depend() {" ++ line "    need net" ++ line "    after firewall" ++ line "}".

(** [render_openrc]. *)
Definition render_openrc (executable working_directory user group : str) (arguments : list str) (log_file : option str)
    : str :=
  let command_arguments := join (lit " ") (shell_quote <$> arguments) in
  openrc_header ++ assignment "command" executable ++ assignment "command_args" command_arguments
  ++ assignment "command_user" (user ++ lit ":" ++ group) ++ assignment "directory" working_directory
  ++ openrc_footer log_file.

Definition systemd_header : str :=
  line "[Unit]" ++ line "Description=Rust Hysteria 2 server and management UI"
  ++ line "After=network-online.target" ++ line "Wants=network-online.target" ++ [NL]
  ++ line "[Service]" ++ line "Type=simple".

Definition systemd_footer : str :=
  line "Restart=on-failure" ++ line "RestartSec=5s" ++ line "NoNewPrivileges=true" ++ [NL]
  ++ line "[Install]" ++ line "WantedBy=multi-user.target".

(** [render_systemd]. *)
Definition render_systemd (executable working_directory user : str) (arguments : list str) : str :=
  let command := join (lit " ") (systemd_quote <$> (executable :: arguments)) in
  systemd_header ++ lit "User=" ++ systemd_value user ++ [NL]
  ++ lit "WorkingDirectory=" ++ systemd_value working_directory ++ [NL]
  ++ line "Environment=RUST_LOG=sing_box_ser_mini=info" ++ lit "ExecStart=" ++ command ++ [NL]
  ++ systemd_footer.

(** ** Reading a shell's words *)

Definition is_blank (b : Z) : bool := (b =? 32) || (b =? 9) || (b =? NL).

(** A character that stands for itself outside of quotes. *)
Definition is_plain (b : Z) : bool :=
  is_ascii_alphanumeric b || existsb (Z.eqb b) (lit "-_./:=,@+%").

(** The next word, and what follows: between single quotes every character stands for
    itself, elsewhere a backslash quotes the next one. *)
Fixpoint shell_word (quoted : bool) (word : str) (s : str) : option (str * str) :=
  match s with
  | [] => if quoted then None else Some (word, [])
  | b :: s' =>
      if quoted then
        if b =? SQ then shell_word false word s' else shell_word true (word ++ [b]) s'
      else if b =? SQ then shell_word true word s'
      else if b =? BS then
        match s' with
        | c :: s'' => if c =? NL then shell_word false word s'' else shell_word false (word ++ [c]) s''
        | [] => None
        end
      else if is_blank b then Some (word, s)
      else if is_plain b then shell_word false (word ++ [b]) s'
      else None
  end.

Fixpoint skip_blanks (s : str) : str :=
  match s with b :: s' => if is_blank b then skip_blanks s' else s | [] => [] end.

(** The words of a command, with a reader of one word. *)
Fixpoint words (next : str → option (str * str)) (fuel : nat) (s : str) : option (list str) :=
  match skip_blanks s with
  | [] => Some []
  | s =>
      match fuel with
      | O => None
      | S fuel => '(w, rest) ← next s; cons w <$> words next fuel rest
      end
  end.

Definition shell_words (s : str) : option (list str) := words (shell_word false []) (length s) s.

(** The value of an assignment: one word, or text between double quotes in which
    nothing is expanded or escaped. *)
Fixpoint double_quoted (word s : str) : option (str * str) :=
  match s with
  | [] => None
  | b :: s' =>
      if b =? DQ then Some (word, s')
      else if (b =? BS) || (b =? 36) || (b =? 96) then None
      else double_quoted (word ++ [b]) s'
  end.

Definition script_value (s : str) : option (str * str) :=
  match s with b :: s' => if b =? DQ then double_quoted [] s' else shell_word false [] s | [] => Some ([], []) end.

(** The name of an assignment, which can be exported, and what follows the sign. *)
Definition name_char (b : Z) : bool := is_ascii_alphanumeric b || (b =? 95).

Definition script_name (s : str) : option (str * str) :=
  '(n, s) ← split_once 61 (default s (strip_prefix (lit "export ") s));
  if negb (is_nil n) && forallb name_char n then Some (n, s) else None.

Fixpoint after_line (s : str) : str :=
  match s with [] => [] | b :: s' => if b =? NL then s' else after_line s' end.

Definition FUNCTION : str := lit "depend() {" ++ [NL].

(** A statement: an empty line or a comment, or an assignment on a line of its own. *)
Definition statement (s : str) : option (list (str * str) * str) :=
  match s with
  | [] => None
  | b :: s' =>
      if b =? NL then Some ([], s')
      else if b =? 35 then Some ([], after_line s')
      else
        '(n, s) ← script_name s;
        '(v, s) ← script_value s;
        s ← strip_prefix [NL] s;
        Some ([(n, v)], s)
  end.

(** The variables a script sets up to its function, in order, and the function. *)
Fixpoint read_script (fuel : nat) (s : str) : option (list (str * str) * str) :=
  match fuel with
  | O => None
  | S fuel =>
      if starts_with FUNCTION s then Some ([], s)
      else
        '(v, s) ← statement s;
        '(vs, s) ← read_script fuel s;
        Some (v ++ vs, s)
  end.

Definition script_variables (s : str) : option (list (str * str) * str) := read_script (length s) s.

(** ** Reading systemd's words *)

(** In double quotes, with the two escapes the program writes; [%%] and [$$] stand for
    one of them, and a specifier or a variable is not read. *)
Fixpoint systemd_word (quoted : bool) (word : str) (s : str) : option (str * str) :=
  match s with
  | [] => if quoted then None else Some (word, [])
  | b :: s' =>
      if b =? NL then None
      else if b =? DQ then systemd_word (negb quoted) word s'
      else if b =? BS then
        match s' with
        | c :: s'' => if (c =? BS) || (c =? DQ) then systemd_word quoted (word ++ [c]) s'' else None
        | [] => None
        end
      else if (b =? 37) || (b =? 36) then
        match s' with
        | c :: s'' => if c =? b then systemd_word quoted (word ++ [b]) s'' else None
        | [] => None
        end
      else if negb quoted && is_blank b then Some (word, s)
      else systemd_word quoted (word ++ [b]) s'
  end.

Definition systemd_words (s : str) : option (list str) := words (systemd_word false []) (length s) s.

(** ** Quoting is undone by reading *)

Lemma shell_word_body v t word :
  shell_word true word (replace_char SQ [SQ; BS; SQ; SQ] v ++ [SQ] ++ t) = shell_word false (word ++ v) t.
Proof.
  revert word. induction v as [|b v IH]; intros word; [by rewrite app_nil_r|].
  unfold replace_char, replace_chars. cbn [flat_map]. fold (replace_chars (Z.eqb SQ) [SQ; BS; SQ; SQ] v).
  fold (replace_char SQ [SQ; BS; SQ; SQ] v). destruct (Z.eqb_spec SQ b) as [<-|Hb].
  - cbn [app]. cbn [shell_word]. cbn. rewrite IH. by rewrite <- app_assoc.
  - cbn [app]. cbn [shell_word]. destruct (Z.eqb_spec b SQ); [congruence|]. rewrite IH. by rewrite <- app_assoc.
Qed.

Lemma shell_word_quote v t : shell_word false [] (shell_quote v ++ t) = shell_word false v t.
Proof.
  unfold shell_quote. rewrite <- !app_assoc. cbn [app]. cbn [shell_word]. cbn [Z.eqb SQ Pos.eqb].
  apply (shell_word_body v t []).
Qed.

(** The end of a word. *)
Definition word_end (t : str) : Prop := t = [] ∨ ∃ b t', t = b :: t' ∧ is_blank b = true ∧ b ≠ NL.

Lemma shell_word_end word t : word_end t → shell_word false word t = Some (word, t).
Proof.
  intros [->|(b & t' & -> & Hb & _)]; [done|]. cbn [shell_word].
  destruct (Z.eqb_spec b SQ) as [->|]; [done|]. destruct (Z.eqb_spec b BS) as [->|]; [done|]. by rewrite Hb.
Qed.

(** A quoting function and a reader of words that undoes it, for the values [ok]. *)
Record reads (ok : str → Prop) (quote : str → str) (next : str → option (str * str)) : Prop := {
  reads_quote : ∀ v t, ok v → word_end t → next (quote v ++ t) = Some (v, t);
  reads_start : ∀ v, ∃ b r, quote v = b :: r ∧ is_blank b = false;
}.

Lemma length_join_quoted (quote : str → str) args :
  (∀ v, quote v ≠ []) → (length args ≤ length (join (lit " ") (quote <$> args)))%nat.
Proof.
  intros Hq. induction args as [|v args IH]; [done|].
  assert (0 < length (quote v))%nat by (specialize (Hq v); destruct (quote v); [done|cbn; lia]).
  destruct args as [|w args]; [cbn; lia|].
  change (join (lit " ") (quote <$> (v :: w :: args))) with (quote v ++ lit " " ++ join (lit " ") (quote <$> (w :: args))).
  rewrite !length_app. change (length (lit " ")) with 1%nat. change (length (v :: w :: args)) with (S (length (w :: args))). lia.
Qed.

(** A command written with the one is read with the other. *)
Lemma words_join ok quote next args :
  reads ok quote next → Forall ok args →
  words next (length (join (lit " ") (quote <$> args))) (join (lit " ") (quote <$> args)) = Some args.
Proof.
  intros [Hr Hs] Hok.
  assert (Hne : ∀ v, quote v ≠ []) by (intros v E; destruct (Hs v) as (b & r & E' & _); congruence).
  pose proof (length_join_quoted quote args Hne) as Hl. revert Hl. generalize (length (join (lit " ") (quote <$> args))).
  induction Hok as [|v args Hv Hargs IH]; intros fuel Hl; [by destruct fuel|].
  destruct fuel as [|fuel]; [cbn in Hl; lia|]. cbn [length] in Hl.
  destruct (Hs v) as (b & r & Eq & Hb).
  assert (Hw : ∀ t, word_end t → words next (S fuel) (quote v ++ t) = cons v <$> words next fuel t).
  { intros t Ht. cbn [words]. rewrite Eq. cbn [app skip_blanks]. rewrite Hb.
    change (b :: r ++ t) with ((b :: r) ++ t). rewrite <- Eq, Hr by done. done. }
  destruct args as [|w args].
  - change (join (lit " ") (quote <$> [v])) with (quote v). rewrite <- (app_nil_r (quote v)), Hw by by left.
    by destruct fuel.
  - change (join (lit " ") (quote <$> (v :: w :: args))) with (quote v ++ lit " " ++ join (lit " ") (quote <$> (w :: args))).
    rewrite Hw by (right; by exists 32, (join (lit " ") (quote <$> (w :: args)))).
    assert (Hskip : words next fuel (lit " " ++ join (lit " ") (quote <$> (w :: args)))
                    = words next fuel (join (lit " ") (quote <$> (w :: args)))) by by destruct fuel.
    rewrite Hskip, IH by lia. done.
Qed.

Lemma shell_reads : reads (fun _ => True) shell_quote (shell_word false []).
Proof.
  split.
  - intros v t _ Ht. by rewrite shell_word_quote, shell_word_end.
  - intros v. eexists _, _. split; [done|done].
Qed.

(** Values a unit can name: on one line, without what systemd expands. *)
Definition systemd_ok (v : str) : Prop := 10 ∉ v ∧ 37 ∉ v ∧ 36 ∉ v.

Lemma systemd_word_body v t word :
  systemd_ok v →
  systemd_word true word (replace_char DQ [BS; DQ] (replace_char BS [BS; BS] v) ++ [DQ] ++ t)
  = systemd_word false (word ++ v) t.
Proof.
  revert word. induction v as [|b v IH]; intros word (Hn & Hp & Hd); [by rewrite app_nil_r|].
  rewrite !not_elem_of_cons in Hn, Hp, Hd. destruct Hn as [Hn Hn'], Hp as [Hp Hp'], Hd as [Hd Hd'].
  unfold replace_char, replace_chars in *. cbn [flat_map]. rewrite flat_map_app, <- app_assoc.
  assert (IH' := fun w => IH w (conj Hn' (conj Hp' Hd'))).
  destruct (Z.eqb_spec BS b) as [<-|HB].
  - cbn. cbn in IH'. rewrite IH'. by rewrite <- app_assoc.
  - cbn [flat_map app]. destruct (Z.eqb_spec DQ b) as [<-|HQ].
    + cbn. cbn in IH'. rewrite IH'. by rewrite <- app_assoc.
    + cbn [app systemd_word]. unfold NL.
      rewrite (proj2 (Z.eqb_neq b 10)), (proj2 (Z.eqb_neq b DQ)), (proj2 (Z.eqb_neq b BS)), (proj2 (Z.eqb_neq b 37)),
        (proj2 (Z.eqb_neq b 36)) by congruence.
      cbn [orb negb andb]. rewrite IH'. by rewrite <- app_assoc.
Qed.

Lemma systemd_word_end word t : word_end t → systemd_word false word t = Some (word, t).
Proof.
  intros [->|(b & t' & -> & Hb & Hn)]; [done|]. cbn [systemd_word].
  unfold is_blank in Hb. rewrite !orb_true_iff, !Z.eqb_eq in Hb. destruct Hb as [[->| ->]|]; done.
Qed.

Lemma systemd_reads : reads systemd_ok systemd_quote (systemd_word false []).
Proof.
  split.
  - intros v t Hv Ht. unfold systemd_quote. rewrite <- !app_assoc. cbn [app systemd_word]. cbn [Z.eqb DQ NL Pos.eqb negb].
    change (DQ :: t) with ([DQ] ++ t). by rewrite systemd_word_body, systemd_word_end.
  - intros v. eexists _, _. split; [done|done].
Qed.

(** ** The rendered services *)

Lemma strip_prefix_app p s : strip_prefix p (p ++ s) = Some s.
Proof. by apply strip_prefix_Some. Qed.

Lemma shell_word_newline v t : shell_word false [] (shell_quote v ++ [NL] ++ t) = Some (v, [NL] ++ t).
Proof. by rewrite shell_word_quote. Qed.

(** The reader goes on after a line [t] that sets [vs]. *)
Definition sets (t : str) (vs : list (str * str)) (lines : nat) : Prop :=
  ∀ fuel s, read_script (lines + fuel) (t ++ s) = '(ws, s) ← read_script fuel s; Some (vs ++ ws, s).

Lemma sets_app t u vs ws n m : sets t vs n → sets u ws m → sets (t ++ u) (vs ++ ws) (n + m).
Proof.
  intros Ht Hu fuel s. rewrite <- app_assoc, <- Nat.add_assoc, Ht, Hu.
  destruct (read_script fuel s) as [[xs r]|]; cbn; [|done]. by rewrite app_assoc.
Qed.

Lemma sets_nil : sets [] [] 0.
Proof. intros fuel s. cbn. by destruct (read_script fuel s) as [[]|]. Qed.

Lemma sets_statement t vs :
  (∀ s, starts_with FUNCTION (t ++ s) = false) → (∀ s, statement (t ++ s) = Some (vs, s)) → sets t vs 1.
Proof. intros Hf Hs fuel s. cbn [Nat.add read_script]. by rewrite Hf, Hs. Qed.

(** An assignment of a quoted value, for a name that is one. *)
Lemma sets_assignment n v :
  (∀ t, starts_with FUNCTION (lit n ++ t) = false) → (∀ t, script_name (lit n ++ lit "=" ++ t) = Some (lit n, t)) →
  (∃ b r, lit n = b :: r ∧ (b =? NL) = false ∧ (b =? 35) = false) → sets (assignment n v) [(lit n, v)] 1.
Proof.
  intros Hf Hn (b & r & Eb & H1 & H2). apply sets_statement; intros s; unfold assignment; rewrite <- !app_assoc; [apply Hf|].
  assert (Hv : script_value (shell_quote v ++ [NL] ++ s) = Some (v, [NL] ++ s)) by apply shell_word_newline.
  unfold statement. rewrite Hn. rewrite Eb. cbn [app]. rewrite H1, H2. cbn [mbind option_bind]. cbn [app] in Hv. rewrite Hv. done.
Qed.

Ltac assigns := apply sets_assignment; [reflexivity|reflexivity|by eexists _, _].

Lemma sets_header :
  sets openrc_header ([] ++ [] ++ [(lit "description", lit "Rust Hysteria 2 server and management UI")] ++
                      [(lit "RUST_LOG", lit "sing_box_ser_mini=info")]) (1 + (1 + (1 + 1))).
Proof.
  unfold openrc_header. change (?a ++ ?b ++ lit "description=" ++ ?c ++ ?d ++ ?e ++ ?f ++ ?g) with (a ++ b ++ (lit "description=" ++ c ++ d ++ e ++ f) ++ g).
  repeat apply sets_app; apply sets_statement; reflexivity.
Qed.

Definition openrc_settings : str :=
  (lit "supervisor=" ++ [DQ] ++ lit "supervise-daemon" ++ [DQ] ++ [NL]) ++ line "respawn_delay=5" ++ line "respawn_max=0" ++ [NL].

Lemma sets_settings :
  sets openrc_settings
    ([(lit "supervisor", lit "supervise-daemon")] ++ [(lit "respawn_delay", lit "5")] ++ [(lit "respawn_max", lit "0")] ++ [])
    (1 + (1 + (1 + 1))).
Proof. repeat apply sets_app; apply sets_statement; reflexivity. Qed.

(** The variables of a log file. *)
Definition log_variables (log_file : option str) : list (str * str) :=
  match log_file with Some path => [(lit "output_log", path); (lit "error_log", path)] | None => [] end.

Definition depend_function : str := FUNCTION ++ line "    need net" ++ line "    after firewall" ++ line "}".

(** The script is the lines that set its variables, and its function. *)
Lemma render_openrc_sets executable directory user group arguments log_file :
  ∃ lines t, render_openrc executable directory user group arguments log_file = t ++ depend_function ∧
    (lines ≤ length t)%nat ∧
    sets t ([(lit "description", lit "Rust Hysteria 2 server and management UI"); (lit "RUST_LOG", lit "sing_box_ser_mini=info")]
      ++ [(lit "command", executable)] ++ [(lit "command_args", join (lit " ") (shell_quote <$> arguments))]
      ++ [(lit "command_user", user ++ lit ":" ++ group)] ++ [(lit "directory", directory)]
      ++ [(lit "supervisor", lit "supervise-daemon"); (lit "respawn_delay", lit "5"); (lit "respawn_max", lit "0")]
      ++ log_variables log_file) lines.
Proof.
  set (logging := match log_file with Some path => assignment "output_log" path ++ assignment "error_log" path | None => [] end).
  assert (Hlog : sets logging (log_variables log_file) match log_file with Some _ => 2 | None => 0 end).
  { unfold logging. destruct log_file as [path|]; [|apply sets_nil]. apply (sets_app _ _ [_] [_] 1 1); assigns. }
  exists (4 + (1 + (1 + (1 + (1 + (4 + match log_file with Some _ => 2 | None => 0 end))))))%nat,
    (openrc_header ++ assignment "command" executable
     ++ assignment "command_args" (join (lit " ") (shell_quote <$> arguments))
     ++ assignment "command_user" (user ++ lit ":" ++ group) ++ assignment "directory" directory ++ openrc_settings ++ logging).
  split_and!.
  - unfold render_openrc, openrc_footer, openrc_settings, depend_function, FUNCTION. by rewrite <- !app_assoc.
  - rewrite length_app. change (length openrc_header) with 114%nat. destruct log_file; lia.
  - apply sets_app; [apply sets_header|]. do 4 (apply sets_app; [assigns|]). apply sets_app; [apply sets_settings|exact Hlog].
Qed.

(** Claim C27. Both service files start the program with the arguments meant, whatever characters the paths have. The
    OpenRC script, read as a shell reads it up to its only function, consists of
    assignments and sets exactly these variables: the executable, the argument string,
    the user and group and the directory, each to exactly that value, the fixed
    settings, and with a log file both of the log variables to its path. The words of
    the argument string are the arguments, one by one. The unit's command line, read
    as systemd reads it, is the executable and the arguments, if none of them has a
    line break, a percent or a dollar sign. *)
Theorem service_files_start_program executable directory user group arguments log_file :
  script_variables (render_openrc executable directory user group arguments log_file)
  = Some ([(lit "description", lit "Rust Hysteria 2 server and management UI"); (lit "RUST_LOG", lit "sing_box_ser_mini=info");
           (lit "command", executable); (lit "command_args", join (lit " ") (shell_quote <$> arguments));
           (lit "command_user", user ++ lit ":" ++ group); (lit "directory", directory);
           (lit "supervisor", lit "supervise-daemon"); (lit "respawn_delay", lit "5"); (lit "respawn_max", lit "0")]
          ++ match log_file with Some path => [(lit "output_log", path); (lit "error_log", path)] | None => [] end,
          depend_function) ∧
  shell_words (join (lit " ") (shell_quote <$> arguments)) = Some arguments ∧
  ∃ before command after, render_systemd executable directory user arguments
      = before ++ [NL] ++ lit "ExecStart=" ++ command ++ [NL] ++ after ∧
    (Forall systemd_ok (executable :: arguments) → systemd_words command = Some (executable :: arguments)).
Proof.
  split_and!.
  - destruct (render_openrc_sets executable directory user group arguments log_file) as (lines & t & E & Hl & Hs).
    unfold script_variables. rewrite E. rewrite length_app.
    replace (length t + length depend_function)%nat with (lines + (S (length t - lines) + pred (length depend_function)))%nat
      by (change (length depend_function) with 45%nat; lia).
    rewrite Hs. cbn [Nat.add read_script]. replace (starts_with FUNCTION depend_function) with true by done. cbn [mbind option_bind].
    by rewrite app_nil_r.
  - apply (words_join _ _ _ _ shell_reads). by apply Forall_true.
  - exists (systemd_header ++ lit "User=" ++ systemd_value user ++ [NL] ++ lit "WorkingDirectory=" ++ systemd_value directory
            ++ [NL] ++ lit "Environment=RUST_LOG=sing_box_ser_mini=info"),
      (join (lit " ") (systemd_quote <$> (executable :: arguments))), systemd_footer.
    split; [unfold render_systemd, line; by rewrite <- !app_assoc|]. intros Hok. by apply (words_join systemd_ok), Hok; apply systemd_reads.
Qed.

(** A percent sign is not quoted: the unit then names a specifier. *)
Lemma systemd_percent_lost :
  systemd_quote (lit "/opt/100%d/server") = [DQ] ++ lit "/opt/100%d/server" ++ [DQ] ∧
  systemd_words (systemd_quote (lit "/opt/100%d/server")) = None.
Proof. by vm_compute. Qed.

Example shell_quote_test : shell_quote (lit "a'b") = lit "'a'\''b'".
Proof. by vm_compute. Qed.
