(* ===== verification/Startup.v ===== *)
(** * Installing the service ([src/src/startup.rs])

    The detection of the init system, the service file for this process, and its
    installation and removal with the host's own commands, run as administrator.

    The host is a parameter: what its files are and what its commands do.  A program
    here is a computation over the host that can fail; it also keeps a log of what was
    done, in which a command run as administrator appears as a request of its own. *)

From stdpp Require Import base list strings.
From Stdlib Require Import ZArith Lia.
From S2P Require Import Prelude RustStr ServiceUnit.

Open Scope Z_scope.

Record Output := { success : bool; stdout : list Z }.

(** The host: its files, and its commands, of which one can also fail to start.  A
    write tells whether it succeeded; one that failed can have left anything at its
    path. *)
Class HostOs := {
  Os : Type;
  is_file : Os → str → bool;
  is_dir : Os → str → bool;
  path_exists : Os → str → bool;
  read_text : Os → str → option str;
  write_text : Os → str → str → bool * Os;
  remove_file : Os → str → Os;
  exec : Os → str → list str → option Output * Os;
}.

(** The process: the directories of [PATH], the executable with its links resolved, the
    working directory, the directory for temporary files, the process number. *)
Record Process := {
  search_path : list str;
  executable : option str;
  current_dir : option str;
  temp_dir : str;
  pid : Z;
}.

Inductive StartupError :=
| UnsupportedInit
| NoProgram (name : string)
| CommandFailed (program : str)
| BadOutput (program : str)
| NoExecutable
| NoWorkingDirectory
| NoTemporary
| PermissionRequired.

Inductive ServiceManager := OpenRc | Systemd.

#[export] Instance ServiceManager_eq_dec : EqDecision ServiceManager.
Proof. solve_decision. Defined.

Inductive Action :=
| Ran (program : str) (args : list str) (ok : bool)
| Wrote (path : str) (ok : bool)
| Removed (path : str)
| Requested (program : str) (args : list str) (granted : bool).

Section startup.
Context `{HostOs}.
Variable process : Process.

Record Host := { os : Os; log : list Action }.

Definition Prog (A : Type) : Type := Host → result StartupError A * Host.

#[local] Instance prog_ret : MRet Prog := fun A a h => (Ok a, h).
#[local] Instance prog_bind : MBind Prog := fun A B f m h =>
  match m h with
  | (Ok a, h) => f a h
  | (Err e, h) => (Err e, h)
  end.

Definition fail {A} (e : StartupError) : Prog A := fun h => (Err e, h).
Definition lift {A} (r : result StartupError A) : Prog A := fun h => (r, h).
Definition ask {A} (f : Os → A) : Prog A := fun h => (Ok (f (os h)), h).
Definition record_action (a : Action) : Prog unit := fun h => (Ok tt, {| os := os h; log := log h ++ [a] |}).

(** A program, and then another whatever its result. *)
Definition finally {A} (m : Prog A) (cleanup : Prog unit) : Prog A := fun h =>
  let '(r, h) := m h in (r, (cleanup h).2).

(** [Command::output]. *)
Definition run_command (program : str) (args : list str) : Prog (option Output) := fun h =>
  let '(out, w) := exec (os h) program args in
  (Ok out, {| os := w; log := log h ++ [Ran program args match out with Some o => success o | None => false end] |}).

(** ** Programs and paths *)

Definition is_absolute (p : str) : bool := starts_with (lit "/") p.

(** [directory.join(path)]. *)
Definition path_join (directory p : str) : str :=
  if is_absolute p then p
  else if is_nil directory then p
  else if bool_decide (last directory = Some 47) then directory ++ p
  else directory ++ lit "/" ++ p.

(** [find_program]: the first candidate that is a file, a plain name looked up in the
    directories of [PATH]. *)
Definition candidate_paths (candidate : str) : list str :=
  if is_absolute candidate then [candidate] else (fun d => path_join d candidate) <$> search_path process.

Definition find_program (candidates : list string) (w : Os) : option str :=
  find_first (is_file w) (flat_map (fun c => candidate_paths (lit c)) candidates).

Definition ID : list string := ["/usr/bin/id"; "/bin/id"; "id"].
Definition INSTALL : list string := ["/usr/bin/install"; "/bin/install"; "install"].
Definition RC_UPDATE : list string := ["/sbin/rc-update"; "/usr/sbin/rc-update"; "rc-update"].
Definition SYSTEMCTL : list string := ["/usr/bin/systemctl"; "/bin/systemctl"; "/usr/sbin/systemctl"; "systemctl"].
Definition RM : list string := ["/bin/rm"; "/usr/bin/rm"; "rm"].
Definition DOAS : list string := ["/usr/bin/doas"; "/bin/doas"; "doas"].
Definition SUDO : list string := ["/usr/bin/sudo"; "/bin/sudo"; "sudo"].

Definition need (name : string) (candidates : list string) : Prog str :=
  found ← ask (find_program candidates);
  lift (ok_or (NoProgram name) found).

(** [detect_manager]. *)
Definition detect_manager (w : Os) : option ServiceManager :=
  if path_exists w (lit "/sbin/openrc-run") && is_dir w (lit "/etc/init.d") then Some OpenRc
  else if is_dir w (lit "/run/systemd/system") && match find_program SYSTEMCTL w with Some _ => true | None => false end
  then Some Systemd else None.

(** [absolute_path]. *)
Definition absolute_path (p : str) : result StartupError str :=
  if is_absolute p then Ok p else rmap (fun d => path_join d p) (ok_or NoWorkingDirectory (current_dir process)).

(** [Path::parent] of a path without links, dots or a final slash. *)
Definition parent (p : str) : option str :=
  match rsplit_once 47 p with
  | Some ([], []) => None
  | Some ([], _) => Some (lit "/")
  | Some (d, _) => Some d
  | None => None
  end.

(** ** Commands *)

(** [command_text]. *)
Definition command_text (program : str) (args : list str) : Prog str :=
  out ← run_command program args;
  match out with
  | None => fail (CommandFailed program)
  | Some out =>
      if negb (success out) then fail (CommandFailed program)
      else match from_utf8 (stdout out) with
           | None => fail (BadOutput program)
           | Some text => if is_nil (trim text) then fail (BadOutput program) else mret (trim text)
           end
  end.

(** [ensure_success] of a command. *)
Definition ensure_success (program : str) (args : list str) : Prog unit :=
  out ← run_command program args;
  match out with
  | Some out => if success out then mret tt else fail (CommandFailed program)
  | None => fail (CommandFailed program)
  end.

(** The helpers in turn, until one succeeds. *)
Fixpoint try_helpers (helpers : list (option str * list str)) (program : str) (args : list str) : Prog unit :=
  match helpers with
  | [] => fail PermissionRequired
  | (None, _) :: helpers => try_helpers helpers program args
  | (Some helper, extra) :: helpers =>
      out ← run_command helper (extra ++ program :: args);
      match out with
      | Some out => if success out then mret tt else try_helpers helpers program args
      | None => try_helpers helpers program args
      end
  end.

Definition run_as_administrator (program : str) (args : list str) : Prog unit :=
  id ← need "id" ID;
  uid ← command_text id [lit "-u"];
  if str_eqb uid (lit "0") then ensure_success program args
  else
    doas ← ask (find_program DOAS);
    sudo ← ask (find_program SUDO);
    try_helpers [(doas, []); (sudo, [lit "-n"])] program args.

(** [run_privileged], with the request logged. *)
Definition run_privileged (program : str) (args : list str) : Prog unit := fun h =>
  let '(r, h) := run_as_administrator program args h in
  (r, {| os := os h; log := log h ++ [Requested program args (is_ok r)] |}).

(** ** The service of this process *)

Record InstallSpec := {
  spec_manager : ServiceManager;
  service_path : str;
  spec_contents : str;
  spec_executable : str;
  spec_config : str;
}.

Definition service_file (m : ServiceManager) : str :=
  match m with
  | OpenRc => lit "/etc/init.d/" ++ SERVICE_NAME
  | Systemd => lit "/etc/systemd/system/" ++ SERVICE_NAME ++ lit ".service"
  end.

(** The log file beside the executable's directory, when its own directory exists. *)
Definition log_file_of (w : Os) (exe : str) : option str :=
  root ← parent exe ≫= parent;
  let path := path_join root (lit "log/server.log") in
  d ← parent path;
  if is_dir w d then Some path else None.

(** [build_spec]. *)
Definition build_spec (m : ServiceManager) (inputs : StartupInputs) : Prog InstallSpec :=
  exe ← lift (ok_or NoExecutable (executable process));
  config ← lift (absolute_path (input_config inputs));
  credentials ← lift (absolute_path (input_credentials inputs));
  token ← lift match input_token_file inputs with Some t => rmap Some (absolute_path t) | None => Ok None end;
  directory ← lift (ok_or NoWorkingDirectory (current_dir process));
  log_file ← ask (fun w => log_file_of w exe);
  id ← need "id" ID;
  user ← command_text id [lit "-un"];
  id' ← need "id" ID;
  group ← command_text id' [lit "-gn"];
  let arguments := service_arguments inputs config credentials token in
  mret {| spec_manager := m; service_path := service_file m;
          spec_contents := match m with
                           | OpenRc => render_openrc exe directory user group arguments log_file
                           | Systemd => render_systemd exe directory user arguments
                           end;
          spec_executable := exe; spec_config := config |}.

Record StartupStatus := {
  supported : bool;
  manager : option ServiceManager;
  installed : bool;
  enabled : bool;
  current : bool;
  status_path : str;
  status_executable : str;
  status_config : str;
}.

(** Whether the init system starts the service. *)
Definition service_enabled (m : ServiceManager) : Prog bool :=
  match m with
  | OpenRc => ask (fun w => path_exists w (lit "/etc/runlevels/default/" ++ SERVICE_NAME))
  | Systemd =>
      program ← ask (find_program SYSTEMCTL);
      match program with
      | None => mret false
      | Some program =>
          out ← run_command program [lit "is-enabled"; lit "--quiet"; SERVICE_NAME];
          mret match out with Some out => success out | None => false end
      end
  end.

(** [status_for_spec]. *)
Definition status_for_spec (spec : InstallSpec) : Prog StartupStatus :=
  text ← ask (fun w => read_text w (service_path spec));
  on ← service_enabled (spec_manager spec);
  mret {| supported := true; manager := Some (spec_manager spec);
          installed := match text with Some _ => true | None => false end; enabled := on;
          current := match text with Some t => str_eqb t (spec_contents spec) | None => false end;
          status_path := service_path spec; status_executable := spec_executable spec; status_config := spec_config spec |}.

(** [unsupported_status]. *)
Definition unsupported_status (inputs : StartupInputs) : StartupStatus :=
  {| supported := false; manager := None; installed := false; enabled := false; current := false; status_path := [];
     status_executable := default [] (executable process);
     status_config := match absolute_path (input_config inputs) with Ok p => p | Err _ => input_config inputs end |}.

(** [inspect]. *)
Definition inspect (inputs : StartupInputs) : Prog StartupStatus :=
  m ← ask detect_manager;
  match m with
  | None => mret (unsupported_status inputs)
  | Some m => spec ← build_spec m inputs; status_for_spec spec
  end.

(** ** Installation and removal *)

Definition temporary_file : str :=
  path_join (temp_dir process) (lit "." ++ SERVICE_NAME ++ lit "-startup-" ++ dec (pid process)).

Definition write_temporary (path text : str) : Prog unit := fun h =>
  let '(ok, w) := write_text (os h) path text in
  ((if (ok : bool) then Ok tt else Err NoTemporary), {| os := w; log := log h ++ [Wrote path ok] |}).

Definition remove (path : str) : Prog unit := fun h =>
  (Ok tt, {| os := remove_file (os h) path; log := log h ++ [Removed path] |}).

Definition service_mode (m : ServiceManager) : str := match m with OpenRc => lit "0755" | Systemd => lit "0644" end.

Definition SERVICE_UNIT : str := SERVICE_NAME ++ lit ".service".

(** The part of [install] whose result is kept until the temporary is removed. *)
Definition install_steps (m : ServiceManager) (spec : InstallSpec) : Prog StartupStatus :=
  install_program ← need "install" INSTALL;
  run_privileged install_program [lit "-m"; service_mode m; temporary_file; service_path spec];;
  match m with
  | OpenRc =>
      rc_update ← need "rc-update" RC_UPDATE;
      run_privileged rc_update [lit "add"; SERVICE_NAME; lit "default"]
  | Systemd =>
      systemctl ← need "systemctl" SYSTEMCTL;
      run_privileged systemctl [lit "daemon-reload"];;
      run_privileged systemctl [lit "enable"; SERVICE_UNIT]
  end;;
  status_for_spec spec.

(** [install]. *)
Definition install (inputs : StartupInputs) : Prog StartupStatus :=
  m ← ask detect_manager;
  m ← lift (ok_or UnsupportedInit m);
  spec ← build_spec m inputs;
  write_temporary temporary_file (spec_contents spec);;
  finally (install_steps m spec) (remove temporary_file).

(** What [uninstall] does after it has asked for the status. *)
Definition uninstall_steps (m : ServiceManager) (spec : InstallSpec) (on there : bool) : Prog StartupStatus :=
  match m with
  | OpenRc =>
      if on then
        rc_update ← need "rc-update" RC_UPDATE;
        run_privileged rc_update [lit "del"; SERVICE_NAME; lit "default"]
      else mret tt
  | Systemd =>
      systemctl ← need "systemctl" SYSTEMCTL;
      if on then run_privileged systemctl [lit "disable"; SERVICE_UNIT] else mret tt
  end;;
  (if there then
     rm ← need "rm" RM;
     run_privileged rm [lit "-f"; service_path spec]
   else mret tt);;
  match m with
  | OpenRc => mret tt
  | Systemd => systemctl ← need "systemctl" SYSTEMCTL; run_privileged systemctl [lit "daemon-reload"]
  end;;
  status_for_spec spec.

(** [uninstall]. *)
Definition uninstall (inputs : StartupInputs) : Prog StartupStatus :=
  m ← ask detect_manager;
  m ← lift (ok_or UnsupportedInit m);
  spec ← build_spec m inputs;
  status ← status_for_spec spec;
  uninstall_steps m spec (enabled status) (installed status).

(** ** What is asked of the administrator *)

(** A request is a program and its arguments; the requests of a log, in order. *)
Definition requests (l : list Action) : list (str * list str * bool) :=
  omap (fun a => match a with Requested program args granted => Some (program, args, granted) | _ => None end) l.

(** A step of a plan: a program by its candidates, and the arguments. *)
Definition Item : Type := list string * list str.

Definition fulfils (item : Item) (program : str) (args : list str) : Prop :=
  program ∈ flat_map (fun c => candidate_paths (lit c)) item.1 ∧ args = item.2.

(** [l] carries out the plan, in its order: all of it for a success; a failure stops,
    with the request that is refused, or because a program of what is left of the plan is
    not found. *)
Inductive carries_out : list Item → option StartupError → list (str * list str * bool) → Prop :=
| carried_all : carries_out [] None []
| carried_missing item plan w name :
    item ∈ plan → find_program item.1 w = None → carries_out plan (Some (NoProgram name)) []
| carried_refused item plan program args e :
    fulfils item program args → carries_out (item :: plan) (Some e) [(program, args, false)]
| carried_granted item plan e program args l :
    fulfils item program args → carries_out plan e l → carries_out (item :: plan) e ((program, args, true) :: l).

Definition failure {A} (r : result StartupError A) : option StartupError :=
  match r with Ok _ => None | Err e => Some e end.

(** The action is a run of the program, alone or by a helper, that succeeded. *)
Definition runs_program (program : str) (args : list str) (a : Action) : Prop :=
  match a with
  | Ran p l true => (p = program ∧ l = args) ∨ l = program :: args ∨ l = lit "-n" :: program :: args
  | _ => False
  end.

(** A request is granted by a run of its program, just before. *)
Definition honest (l : list Action) : Prop :=
  ∀ i program args, l !! i = Some (Requested program args true) →
  ∃ j a, i = S j ∧ l !! j = Some a ∧ runs_program program args a.

Definition performs {A} (plan : list Item) (m : Prog A) : Prop :=
  ∀ h, ∃ l, log (m h).2 = log h ++ l ∧ honest l ∧ carries_out plan (failure (m h).1) (requests l).

(** A program that asks for nothing, and writes and removes nothing. *)
Definition is_run (a : Action) : Prop := match a with Ran _ _ _ => True | _ => False end.

Definition quiet {A} (m : Prog A) : Prop := ∀ h, ∃ l, log (m h).2 = log h ++ l ∧ Forall is_run l.

Lemma quiet_ret {A} (a : A) : quiet (mret a).
Proof. intros h. exists []. by rewrite app_nil_r. Qed.

Lemma quiet_lift {A} (r : result StartupError A) : quiet (lift r).
Proof. intros h. exists []. by rewrite app_nil_r. Qed.

Lemma quiet_ask {A} (f : Os → A) : quiet (ask f).
Proof. intros h. exists []. by rewrite app_nil_r. Qed.

Lemma quiet_fail {A} e : quiet (@fail A e).
Proof. intros h. exists []. by rewrite app_nil_r. Qed.

Lemma quiet_run program args : quiet (run_command program args).
Proof.
  intros h. unfold run_command. destruct (exec _ _ _) as [out w]. eexists. split; [done|]. by constructor.
Qed.

Lemma quiet_bind {A B} (m : Prog A) (f : A → Prog B) : quiet m → (∀ a, quiet (f a)) → quiet (m ≫= f).
Proof.
  intros Hm Hf h. destruct (Hm h) as (l & Hl & Hall). unfold mbind, prog_bind.
  destruct (m h) as [[a|e] h1]; cbn [fst snd] in *; [|by exists l].
  destruct (Hf a h1) as (l' & Hl' & Hall'). exists (l ++ l'). rewrite Hl', Hl, app_assoc. split; [done|by apply Forall_app].
Qed.

#[local] Hint Resolve quiet_ret quiet_lift quiet_ask quiet_fail quiet_run quiet_bind : core.

Ltac quiet_tac := repeat first [progress intros | apply quiet_bind | case_match; auto | auto].

Lemma quiet_need name candidates : quiet (need name candidates).
Proof. unfold need. by quiet_tac. Qed.

Lemma quiet_command_text program args : quiet (command_text program args).
Proof. unfold command_text. by quiet_tac. Qed.

Lemma quiet_ensure_success program args : quiet (ensure_success program args).
Proof. unfold ensure_success. by quiet_tac. Qed.

Lemma quiet_try_helpers helpers program args : quiet (try_helpers helpers program args).
Proof. induction helpers as [|[[helper|] extra] helpers IH]; cbn [try_helpers]; by quiet_tac. Qed.

#[local] Hint Resolve quiet_need quiet_command_text quiet_ensure_success quiet_try_helpers : core.

Lemma quiet_run_as_administrator program args : quiet (run_as_administrator program args).
Proof. unfold run_as_administrator. by quiet_tac. Qed.

Lemma quiet_build_spec m inputs : quiet (build_spec m inputs).
Proof. unfold build_spec. by quiet_tac. Qed.

Lemma quiet_status_for_spec spec : quiet (status_for_spec spec).
Proof. unfold status_for_spec, service_enabled. by quiet_tac. Qed.

Lemma quiet_requests l : Forall is_run l → requests l = [].
Proof. induction 1 as [|[] l ? _ IH]; done. Qed.

Lemma requests_app l l' : requests (l ++ l') = requests l ++ requests l'.
Proof. apply omap_app. Qed.

Lemma honest_quiet l : Forall is_run l → honest l.
Proof. intros Hl i program args Hi. by apply (Forall_lookup_1 _ _ _ _ Hl) in Hi. Qed.

Lemma honest_app l l' : honest l → honest l' → honest (l ++ l').
Proof.
  intros Hl Hl' i program args [Hi|[Hge Hi]]%lookup_app_Some.
  - destruct (Hl i program args Hi) as (j & a & -> & Hj & Ha). exists j, a. by rewrite (lookup_app_l_Some _ _ _ _ Hj).
  - destruct (Hl' _ program args Hi) as (j & a & Ei & Hj & Ha). exists (length l + j)%nat, a. split_and!; [lia| |done].
    rewrite lookup_app_r by lia. by replace (length l + j - length l)%nat with j by lia.
Qed.

Lemma performs_quiet {A} (m : Prog A) : quiet m → (∀ h, ∃ a, (m h).1 = Ok a) → performs [] m.
Proof.
  intros Hq Hok h. destruct (Hq h) as (l & Hl & Hall). exists l. split_and!; [done|by apply honest_quiet|].
  rewrite quiet_requests by done. destruct (Hok h) as [a ->]. constructor.
Qed.

Lemma status_for_spec_Ok spec h : ∃ st, (status_for_spec spec h).1 = Ok st.
Proof.
  unfold status_for_spec, service_enabled, mbind, prog_bind, ask, run_command, mret, prog_ret.
  repeat case_match; simplify_eq; eauto.
Qed.

Lemma performs_status spec : performs [] (status_for_spec spec).
Proof. apply performs_quiet; [apply quiet_status_for_spec|apply status_for_spec_Ok]. Qed.

Lemma performs_ret {A} (a : A) : performs [] (mret a).
Proof. apply performs_quiet; [apply quiet_ret|]. intros h. by exists a. Qed.

(** Whoever runs it, a program that the administrator ran was the last command. *)
Definition ends_in_run {A} (program : str) (args : list str) (m : Prog A) : Prop :=
  ∀ h, ∃ l, log (m h).2 = log h ++ l ∧ Forall is_run l ∧
    (is_ok (m h).1 = true → ∃ l0 a, l = l0 ++ [a] ∧ runs_program program args a).

Lemma ends_bind {A B} program args (m : Prog A) (f : A → Prog B) :
  quiet m → (∀ a, ends_in_run program args (f a)) → ends_in_run program args (m ≫= f).
Proof.
  intros Hm Hf h. destruct (Hm h) as (l & Hl & Hall). unfold mbind, prog_bind.
  destruct (m h) as [[a|e] h1]; cbn [fst snd] in *; [|by exists l].
  destruct (Hf a h1) as (l' & Hl' & Hall' & Hok). exists (l ++ l'). split_and!; [by rewrite Hl', Hl, app_assoc|by apply Forall_app|].
  intros (l0 & x & -> & Hx)%Hok. exists (l ++ l0), x. by rewrite app_assoc.
Qed.

Lemma ends_fail {A} program args e : ends_in_run program args (@fail A e).
Proof. intros h. exists []. rewrite app_nil_r. by split_and!. Qed.

(** A command, and the rest if it did not do it. *)
Lemma ends_run program args p l (k : Prog unit) :
  runs_program program args (Ran p l true) → ends_in_run program args k →
  ends_in_run program args (out ← run_command p l;
                            match out with Some out => if success out then mret tt else k | None => k end).
Proof.
  intros Hp Hk h. unfold mbind, prog_bind, run_command. destruct (exec (os h) p l) as [[out|] w]; [destruct (success out) eqn:Es|].
  { exists [Ran p l true]. cbn. split_and!; [done|by constructor|]. intros _. by exists [], (Ran p l true). }
  all: destruct (Hk {| os := w; log := log h ++ [Ran p l false] |}) as (l' & Hl' & Hall & Hok).
  all: exists (Ran p l false :: l'); split_and!; [by rewrite Hl'; cbn [log]; rewrite <- app_assoc|by constructor|].
  all: intros (l0 & a & -> & Ha)%Hok; by exists (Ran p l false :: l0), a.
Qed.

Lemma run_as_administrator_ends program args : ends_in_run program args (run_as_administrator program args).
Proof.
  unfold run_as_administrator. apply ends_bind; [by auto|]. intros id. apply ends_bind; [by auto|]. intros uid.
  destruct (str_eqb uid _).
  - unfold ensure_success. apply ends_run; [by left|apply ends_fail].
  - apply ends_bind; [by auto|]. intros doas. apply ends_bind; [by auto|]. intros sudo. cbn [try_helpers].
    destruct doas as [doas|], sudo as [sudo|]; repeat (apply ends_run; [cbn; by auto|]); apply ends_fail.
Qed.

Lemma performs_run_privileged candidates program args :
  program ∈ flat_map (fun c => candidate_paths (lit c)) candidates →
  performs [(candidates, args)] (run_privileged program args).
Proof.
  intros Hp h. unfold run_privileged. destruct (run_as_administrator_ends program args h) as (l & Hl & Hall & Hok).
  destruct (run_as_administrator program args h) as [r h1]. cbn [fst snd log] in *. exists (l ++ [Requested program args (is_ok r)]).
  split_and!.
  - by rewrite Hl, app_assoc.
  - intros i p' a' [Hi|[Hge Hi]]%lookup_app_Some; [by apply (Forall_lookup_1 _ _ _ _ Hall) in Hi|].
    apply list_lookup_singleton_Some in Hi as [Hi [= <- <- Er]]. destruct (Hok Er) as (l0 & a & -> & Ha).
    rewrite length_app in *. cbn in *. exists (length l0), a. split_and!; [lia| |done].
    rewrite <- app_assoc. by apply list_lookup_middle.
  - rewrite requests_app, (quiet_requests l Hall). destruct r; cbn; [apply carried_granted; [done|constructor]|by apply carried_refused].
Qed.

Lemma carries_out_err plan plan' e l : carries_out plan (Some e) l → carries_out (plan ++ plan') (Some e) l.
Proof.
  remember (Some e) as r eqn:E. induction 1; cbn; try done; [|by constructor|constructor; auto].
  eapply carried_missing; [|done]. apply elem_of_app. by left.
Qed.

Lemma carries_out_app plan plan' e l l' :
  carries_out plan None l → carries_out plan' e l' → carries_out (plan ++ plan') e (l ++ l').
Proof. remember None as t eqn:E. induction 1; cbn; try done. intros. constructor; auto. Qed.

Lemma performs_bind {A B} plan plan' (m : Prog A) (f : A → Prog B) :
  performs plan m → (∀ a, performs plan' (f a)) → performs (plan ++ plan') (m ≫= f).
Proof.
  intros Hm Hf h. destruct (Hm h) as (l & Hl & Hh & Hc). unfold mbind, prog_bind.
  destruct (m h) as [[a|e] h1]; cbn [fst snd failure] in *.
  - destruct (Hf a h1) as (l' & Hl' & Hh' & Hc'). exists (l ++ l'). rewrite Hl', Hl, app_assoc. split_and!; [done|by apply honest_app|].
    rewrite requests_app. by apply carries_out_app.
  - exists l. split_and!; [done..|]. by apply carries_out_err.
Qed.

(** A program is looked up before all that comes after it. *)
Lemma performs_assoc {A B C} plan (m : Prog A) (f : A → Prog B) (g : B → Prog C) :
  performs plan (m ≫= fun a => f a ≫= g) → performs plan ((m ≫= f) ≫= g).
Proof. intros Hp h. specialize (Hp h). unfold mbind, prog_bind in *. by destruct (m h) as [[a|e] h1]. Qed.

(** What is found is one of its candidates. *)
Lemma find_program_candidate candidates w p :
  find_program candidates w = Some p → p ∈ flat_map (fun c => candidate_paths (lit c)) candidates.
Proof. unfold find_program. intros (Hin & _)%find_first_Some. done. Qed.

Lemma performs_need {B} plan name candidates args (f : str → Prog B) :
  (candidates, args) ∈ plan →
  (∀ p, p ∈ flat_map (fun c => candidate_paths (lit c)) candidates → performs plan (f p)) →
  performs plan (need name candidates ≫= f).
Proof.
  intros Hin Hf h. unfold need, mbind, prog_bind, ask, lift. cbn [fst snd].
  destruct (find_program candidates (os h)) as [p|] eqn:E; cbn [ok_or]; [by apply Hf, (find_program_candidate _ (os h))|].
  exists []. rewrite app_nil_r. split_and!; [done|by intros ?|]. by apply (carried_missing (candidates, args) plan (os h)).
Qed.

(** The plans. *)
Definition install_plan (m : ServiceManager) (spec : InstallSpec) : list Item :=
  (INSTALL, [lit "-m"; service_mode m; temporary_file; service_path spec]) ::
  match m with
  | OpenRc => [(RC_UPDATE, [lit "add"; SERVICE_NAME; lit "default"])]
  | Systemd => [(SYSTEMCTL, [lit "daemon-reload"]); (SYSTEMCTL, [lit "enable"; SERVICE_UNIT])]
  end.

Definition uninstall_plan (m : ServiceManager) (spec : InstallSpec) (on there : bool) : list Item :=
  (if on then [match m with
               | OpenRc => (RC_UPDATE, [lit "del"; SERVICE_NAME; lit "default"])
               | Systemd => (SYSTEMCTL, [lit "disable"; SERVICE_UNIT])
               end]
   else [])
  ++ (if there then [(RM, [lit "-f"; service_path spec])] else [])
  ++ match m with OpenRc => [] | Systemd => [(SYSTEMCTL, [lit "daemon-reload"])] end.

#[local] Hint Resolve performs_run_privileged performs_ret performs_status : core.

Ltac in_plan := rewrite ?elem_of_app, ?list_elem_of_singleton, ?elem_of_cons; by eauto.

Lemma install_steps_perform m spec : performs (install_plan m spec) (install_steps m spec).
Proof.
  unfold install_steps, install_plan. eapply performs_need; [by left|]. intros p Hp.
  apply (performs_bind [_]); [by auto|]. intros _. rewrite <- (app_nil_r (match m with OpenRc => _ | _ => _ end)).
  apply performs_bind; [|by auto].
  destruct m; (eapply performs_need; [by left|]); intros q Hq; [by auto|].
  apply (performs_bind [_] [_]); by auto.
Qed.

Lemma uninstall_steps_perform m spec on there : performs (uninstall_plan m spec on there) (uninstall_steps m spec on there).
Proof.
  assert (Hrm : performs (if there then [(RM, [lit "-f"; service_path spec])] else [])
    (if there then rm ← need "rm" RM; run_privileged rm [lit "-f"; service_path spec] else mret tt)).
  { destruct there; [|by auto]. eapply performs_need; [by left|]. by auto. }
  unfold uninstall_steps, uninstall_plan. destruct m.
  - apply performs_bind; [|intros _; apply performs_bind; [by auto|intros _; by apply (performs_bind [] []); auto]].
    destruct on; [|by auto]. eapply performs_need; [by left|]. by auto.
  - apply performs_assoc. eapply (performs_need _ _ _ [lit "daemon-reload"]); [in_plan|]. intros p Hp.
    apply performs_bind; [destruct on; by auto|]. intros _. apply performs_bind; [done|]. intros _.
    apply performs_assoc. eapply performs_need; [by left|]. intros q Hq. apply (performs_bind [_] []); by auto.
Qed.

(** Claim C26. Installing: without a known init system, or when the service file cannot be made, nothing is asked of
    the administrator and nothing is written. If the write of the temporary fails,
    nothing is asked either, and it ends there: what the failed write left stays.
    Otherwise the requests made are those of the plan, in its order, each for the
    program the plan names and with its arguments; it succeeds exactly if all are made and
    granted; it fails at the first refusal, making none of the later ones, or because a
    program that is left of the plan is not found; a request is
    granted only by a run of that program, alone or by a helper, that succeeded; and
    either way the temporary file, which was written before the first request, is
    removed last. *)
Theorem install_spec inputs h :
  let '(r, h') := install inputs h in
  match detect_manager (os h) with
  | None => r = Err UnsupportedInit ∧ h' = h
  | Some m =>
      match build_spec m inputs h with
      | (Err e, h1) => r = Err e ∧ h' = h1 ∧ ∃ runs, log h' = log h ++ runs ∧ Forall is_run runs
      | (Ok spec, h1) =>
          (∃ runs, log h1 = log h ++ runs ∧ Forall is_run runs) ∧
          match write_text (os h1) temporary_file (spec_contents spec) with
          | (false, w) => r = Err NoTemporary ∧ h' = {| os := w; log := log h1 ++ [Wrote temporary_file false] |}
          | (true, w) =>
              ∃ steps, log h' = log h1 ++ [Wrote temporary_file true] ++ steps ++ [Removed temporary_file] ∧
                carries_out (install_plan m spec) (failure r) (requests steps) ∧ honest steps ∧
                (∃ w', os h' = remove_file w' temporary_file)
          end
      end
  end.
Proof.
  unfold install. unfold mbind at 1, prog_bind at 1. cbn [ask]. destruct (detect_manager (os h)) as [m|]; [|done].
  unfold mbind at 1, prog_bind at 1. cbn [lift ok_or]. unfold mbind at 1, prog_bind at 1.
  pose proof (quiet_build_spec m inputs h) as Hq.
  destruct (build_spec m inputs h) as [[spec|e] h1]; cbn [fst snd] in *; [|done].
  unfold mbind, prog_bind, write_temporary. destruct (write_text _ _ _) as [[] w]; [|done].
  set (h2 := {| os := w; log := log h1 ++ [Wrote temporary_file true] |}). unfold finally.
  destruct (install_steps_perform m spec h2) as (steps & Hl & Hh & Hc).
  destruct (install_steps m spec h2) as [r h3]. cbn [fst snd remove log os] in *. split; [done|]. exists steps. split_and!.
  - rewrite Hl. unfold h2. cbn [log]. by rewrite <- !app_assoc.
  - done.
  - done.
  - by eexists.
Qed.

(** Removing the service asks, in this order and only as far as each request is granted, to disable it if it is
    enabled, to delete its file if it is there, and to tell systemd: the file is never
    deleted from under a service that could not be disabled. *)
Theorem uninstall_spec inputs h :
  let '(r, h') := uninstall inputs h in
  match detect_manager (os h) with
  | None => r = Err UnsupportedInit ∧ h' = h
  | Some m =>
      match build_spec m inputs h with
      | (Err e, h1) => r = Err e ∧ h' = h1 ∧ requests (log h') = requests (log h)
      | (Ok spec, h1) =>
          ∃ st h2 steps, status_for_spec spec h1 = (Ok st, h2) ∧ log h' = log h2 ++ steps ∧
            requests (log h2) = requests (log h) ∧
            carries_out (uninstall_plan m spec (enabled st) (installed st)) (failure r) (requests steps) ∧ honest steps
      end
  end.
Proof.
  unfold uninstall. unfold mbind at 1, prog_bind at 1. cbn [ask]. destruct (detect_manager (os h)) as [m|]; [|done].
  unfold mbind at 1, prog_bind at 1. cbn [lift ok_or]. unfold mbind at 1, prog_bind at 1.
  destruct (quiet_build_spec m inputs h) as (l & Hl & Hq%quiet_requests).
  assert (Hreq : requests (log (build_spec m inputs h).2) = requests (log h)) by by rewrite Hl, requests_app, Hq, app_nil_r.
  destruct (build_spec m inputs h) as [[spec|e] h1]; cbn [fst snd] in *; [|done].
  unfold mbind, prog_bind. destruct (quiet_status_for_spec spec h1) as (l2 & Hl2 & Hq2%quiet_requests).
  destruct (status_for_spec_Ok spec h1) as (st & Hst). destruct (status_for_spec spec h1) as [r2 h2] eqn:Est.
  cbn [fst snd] in *. subst r2.
  destruct (uninstall_steps_perform m spec (enabled st) (installed st) h2) as (steps & Hl' & Hh & Hc).
  destruct (uninstall_steps m spec (enabled st) (installed st) h2) as [r h3]. cbn [fst snd] in *.
  exists st, h2, steps. split_and!; try done. by rewrite Hl2, requests_app, Hq2, app_nil_r.
Qed.
End startup.

(** ** A host with OpenRC, on which the process is the administrator *)

Section example_host.
(** Its files, by name. *)
Definition example_install (files : list (str * str)) (args : list str) : list (str * str) :=
  match args with
  | [_; _; src; dst] =>
      match find_first (fun f => str_eqb f.1 src) files with Some f => (dst, f.2) :: files | None => files end
  | [_; _; _] => (lit "/etc/runlevels/default/" ++ SERVICE_NAME, []) :: files
  | _ => files
  end.

Definition example_os : HostOs := {|
  Os := list (str * str);
  is_file w p := existsb (fun f => str_eqb f.1 p) w;
  is_dir w p := str_eqb p (lit "/etc/init.d");
  path_exists w p := existsb (fun f => str_eqb f.1 p) w;
  read_text w p := snd <$> find_first (fun f => str_eqb f.1 p) w;
  write_text w p t := (true, (p, t) :: w);
  remove_file w p := List.filter (fun f => negb (str_eqb f.1 p)) w;
  exec w p args :=
    if str_eqb p (lit "/bin/id")
    then (Some {| success := true; stdout := if str_eqb (default [] (head args)) (lit "-u") then lit "0" else lit "root" |}, w)
    else (Some {| success := true; stdout := [] |}, example_install w args) |}.

Definition example_process : Process := {|
  search_path := [lit "/bin"]; executable := Some (lit "/opt/server/bin/sing box"); current_dir := Some (lit "/opt/server");
  temp_dir := lit "/tmp"; pid := 42 |}.

Definition example_inputs : StartupInputs := {|
  input_config := lit "etc/config.toml"; input_credentials := lit "/etc/credentials.toml"; input_token_file := None;
  input_listen := lit "127.0.0.1:9080"; input_threads := 4 |}.

Definition example_host : @Host example_os :=
  @Build_Host example_os [(lit "/sbin/openrc-run", []); (lit "/bin/id", []); (lit "/bin/install", []);
                          (lit "/sbin/rc-update", [])] [].

(** The service is there, current and enabled, and the temporary is gone. *)
Example example_installed :
  let out := @install example_os example_process example_inputs example_host in
  match out.1 with
  | Ok st => installed st = true ∧ current st = true ∧ enabled st = true
  | Err _ => False
  end ∧
  @path_exists example_os (@os example_os out.2) (@temporary_file example_process) = false.
Proof. by vm_compute. Qed.
End example_host.
