(* ===== verification/AdminRouter.v ===== *)
(** * The management API ([router] of [src/src/admin.rs] and its handlers together)

    A request is routed by its path and method, its parts are extracted, and its handler
    runs.  Routing and extraction are the web framework's, a parameter; the table of
    routes is the code's.  A request is handled in one step, on the state it finds; a
    handler that has to wait for the lock or for the channel leaves its request in the
    service, whose steps are those of AdminService.  The files of the start-up service
    are the host's, apart from those of the program. *)

From stdpp Require Import base list gmap strings.
From Stdlib Require Import ZArith Lia.
From S2P Require Import Prelude RustStr Rules Net Files Traffic Config Outbound Stream NatTunnel NatGateway Vless PrivateFile.
From S2P Require Import ShortStore Base64 SubNodes SubRender Sublink SublinkHttp AdminUsers AdminAuth ReverseProxy ShareAddress.
From S2P Require Import ServiceUnit Startup AdminService.

Open Scope Z_scope.

(** ** Routes *)

Inductive Method := GET | HEAD | POST | PUT | DELETE | OtherMethod.

#[export] Instance Method_eq_dec : EqDecision Method.
Proof. solve_decision. Defined.

Inductive Handler :=
| Index | Styles | Script | Health | Login | Logout | Status | NetworkCapabilities
| GetReverseProxy | PutReverseProxy | GetConfig | PutConfig | GetVlessUsers | ReloadService
| GetStartup | InstallStartup | UninstallStartup
| ListAdminUsers | AddAdminUser | ChangeAdminPassword | DeleteAdminUser
| SublinkConvert (format : string) | SublinkShorten | SublinkShortenAuto | SublinkShortenHy2
| SublinkAuto | SublinkResolve | SublinkSubconverter | SublinkRedirect.

#[export] Instance Handler_eq_dec : EqDecision Handler.
Proof. solve_decision. Defined.

(** [router]: the pattern of each route and its methods. *)
Definition router : list (string * list (Method * Handler)) := [
  ("/", [(GET, Index)]);
  ("/app.css", [(GET, Styles)]);
  ("/app.js", [(GET, Script)]);
  ("/api/v1/health", [(GET, Health)]);
  ("/api/v1/login", [(POST, Login)]);
  ("/api/v1/logout", [(POST, Logout)]);
  ("/api/v1/status", [(GET, Status)]);
  ("/api/v1/network-capabilities", [(GET, NetworkCapabilities)]);
  ("/api/v1/reverse-proxy", [(GET, GetReverseProxy); (PUT, PutReverseProxy)]);
  ("/api/v1/config", [(GET, GetConfig); (PUT, PutConfig)]);
  ("/api/v1/vless-users", [(GET, GetVlessUsers)]);
  ("/api/v1/reload", [(POST, ReloadService)]);
  ("/api/v1/startup", [(GET, GetStartup); (POST, InstallStartup); (DELETE, UninstallStartup)]);
  ("/api/v1/admin-users", [(GET, ListAdminUsers); (POST, AddAdminUser)]);
  ("/api/v1/admin-users/{username}", [(PUT, ChangeAdminPassword); (DELETE, DeleteAdminUser)]);
  ("/singbox", [(GET, SublinkConvert "singbox")]);
  ("/clash", [(GET, SublinkConvert "clash")]);
  ("/surge", [(GET, SublinkConvert "surge")]);
  ("/xray", [(GET, SublinkConvert "xray")]);
  ("/shorten-v2", [(GET, SublinkShorten)]);
  ("/shorten-auto", [(GET, SublinkShortenAuto)]);
  ("/shorten-hy2", [(GET, SublinkShortenHy2)]);
  ("/sub/{code}", [(GET, SublinkAuto)]);
  ("/resolve", [(GET, SublinkResolve)]);
  ("/subconverter", [(GET, SublinkSubconverter)]);
  ("/{prefix}/{code}", [(GET, SublinkRedirect)])]%string.

(** The segments of a pattern: a word, or a capture in braces. *)
Inductive Segment := Word (w : str) | Capture.

Definition segments (path : str) : list str := split_by (Z.eqb 47) (default path (strip_prefix (lit "/") path)).

Definition segment_of (s : str) : Segment := if starts_with (lit "{") s then Capture else Word s.

Definition pattern (p : string) : list Segment := segment_of <$> segments (lit p).

(** The captured segments of a path that a pattern matches. *)
Fixpoint captures (p : list Segment) (path : list str) : option (list str) :=
  match p, path with
  | [], [] => Some []
  | Word w :: p, s :: path => if str_eqb w s then captures p path else None
  | Capture :: p, s :: path => if is_nil s then None else l ← captures p path; Some (s :: l)
  | _, _ => None
  end.

(** A pattern has a word where the other, equal until there, has a capture. *)
Fixpoint more_specific (p q : list Segment) : bool :=
  match p, q with
  | Word _ :: p, Word _ :: q | Capture :: p, Capture :: q => more_specific p q
  | Word _ :: _, Capture :: _ => true
  | _, _ => false
  end.

(** The web framework: which pattern a path is served by, decoding of segments, and the
    extraction of bodies. *)
Class RouterLib := {
  route_of : list (list Segment) → list str → option nat;
  decode_segment : str → option str;
  json_content : Headers → bool;
  json_login : list Z → option (str * str);
  json_admin : list Z → option (str * str);
  json_password : list Z → option str;
  json_config : list Z → option Config;
  json_settings : list Z → option ReverseProxySettings;
  route_sound : ∀ ps path i, route_of ps path = Some i → ∃ p l, ps !! i = Some p ∧ captures p path = Some l;
  route_complete : ∀ ps path p, p ∈ ps → is_Some (captures p path) → is_Some (route_of ps path);
  route_specific : ∀ ps path i p q, route_of ps path = Some i → ps !! i = Some p → q ∈ ps →
    is_Some (captures q path) → more_specific q p = false;
}.

(** ** Requests and answers *)

Record Request := {
  method : Method;
  req_path : str;
  req_query : option str;
  req_headers : Headers;
  req_body : list Z;
}.

(** What the environment gives while a request is handled. *)
Record Environment := {
  unix_now : Z;
  instant_now : Z;
  instant_later : Z;
  random_bytes : option (list Z);
  probes1 : Probes;
  probes2 : Probes;
  reachable : SocketAddr → bool;
  replace_faults : ReplaceFaults;
  write_fault : WriteFault;
}.

(** The documents of the API. *)
Inductive Document :=
| DHealth | DMutation
| DLogin (cookie : str) (user : str) (expires_at : Z)
| DLogout (cookie : str)
| DStatus (s : StatusResponse)
| DNetwork (n : AdminService.NetworkCapabilities)
| DReverseProxy (c : Controller) (uptime : Z)
| DConfig (c : Config)
| DVlessUsers (l : list (str * str))
| DStartup (s : StartupStatus)
| DAdminUsers (l : list str).

Inductive Rejection := NoRoute | MethodNotAllowed | BadSegment | NotJson | BadBody.

(** [Waits]: the request waits in the service; [Panics]: the handler panics. *)
Inductive Answer :=
| Page (headers : list (str * str)) (file : string)
| Doc (d : Document)
| Refuses (e : ApiError)
| Rejects (r : Rejection)
| Routes (r : SublinkHttp.Response)
| Waits
| Panics.

(** ** The pages *)

Definition CONTENT_SECURITY_POLICY : str :=
  lit "default-src 'self'; script-src 'self'; style-src 'self'; connect-src 'self'; img-src 'self'; base-uri 'none'; frame-ancestors 'none'; form-action 'self'".

(** [index], [styles] and [script]. *)
Definition index : Answer :=
  Page [(lit "content-type", lit "text/html; charset=utf-8"); (lit "content-security-policy", CONTENT_SECURITY_POLICY);
        (lit "x-content-type-options", lit "nosniff"); (lit "referrer-policy", lit "no-referrer");
        (lit "cache-control", lit "no-store")] "web/index.html".

Definition styles : Answer :=
  Page [(lit "content-type", lit "text/css; charset=utf-8"); (lit "cache-control", lit "no-store");
        (lit "x-content-type-options", lit "nosniff")] "web/app.css".

Definition script : Answer :=
  Page [(lit "content-type", lit "text/javascript; charset=utf-8"); (lit "cache-control", lit "no-store");
        (lit "x-content-type-options", lit "nosniff")] "web/app.js".

(** [sublink_subconverter]. *)
Definition sublink_subconverter : SublinkHttp.Response := {|
  SublinkHttp.status := 200; headers := [(lit "content-type", TEXT_PLAIN)];
  response_body := Plain (lit "[common]" ++ [10] ++ lit "; Rust core keeps this endpoint local and dependency-free." ++ [10]) |}.

(** ** The handlers *)

Section router.
Context `{HostLib} `{HttpLib} `{TomlLib Config} `{TomlLib ReverseProxySettings} `{TomlLib (list PersistentShortLink)}.
Context `{SessionLib} `{Blake2bMac} `{CredentialsToml} `{Sha256} `{HashIter} `{RouteLib} `{SubLib} `{SubDigest} `{HostOs}.
Context `{RouterLib}.
Variables (state : AdminState) (process : Process) (json_of : str → str).

(** The mutable part of [AdminState], and the host of the start-up service. *)
Record World := {
  service : Service;
  proxy : Controller;
  links : ShortStore;
  registry : TrafficRegistry;
  machine : Host;
}.

Definition with_files (fs : filesystem) (w : World) : World := {|
  service := set_put fs (commands (service w)) (waiting (service w)) (put (service w)) (service w);
  proxy := proxy w; links := links w; registry := registry w; machine := machine w |}.

Definition with_service (s : Service) (w : World) : World :=
  {| service := s; proxy := proxy w; links := links w; registry := registry w; machine := machine w |}.
Definition with_proxy (c : Controller) (w : World) : World :=
  {| service := service w; proxy := c; links := links w; registry := registry w; machine := machine w |}.
Definition with_links (l : ShortStore) (w : World) : World :=
  {| service := service w; proxy := proxy w; links := l; registry := registry w; machine := machine w |}.
Definition with_machine (m : Host) (w : World) : World :=
  {| service := service w; proxy := proxy w; links := links w; registry := registry w; machine := m |}.

Definition world_files (w : World) : filesystem := files (service w).

Definition answered (r : result ApiError Document) : Answer := match r with Ok d => Doc d | Err e => Refuses e end.

Definition routed (r : option SublinkHttp.Response) : Answer := match r with Some r => Routes r | None => Panics end.

(** The end of a handler that replaces a file: its last state stays. *)
Definition written (r : result ApiError unit) (trace : list filesystem) (w : World) : Answer * World :=
  (answered (rmap (fun _ => DMutation) r), with_files (default (world_files w) (last trace)) w).

(** [startup_inputs]. *)
Definition startup_inputs : StartupInputs := {|
  input_config := config_path state; input_credentials := credentials_path state;
  input_token_file := startup_token_file state; input_listen := webui_listen state; input_threads := worker_threads state |}.

(** [get_startup], [install_startup] and [uninstall_startup], once authorized. *)
Definition startup_handler (program : Prog StartupStatus) (w : World) : Answer * World :=
  let '(r, m) := program (machine w) in
  (answered (rmap DStartup (rmap_err (fun _ => Internal) r)), with_machine m w).

(** A handler whose first line is [authorize(&state, &headers).await?]. *)
Definition authorized_then (q : Request) (env : Environment) (w : World) (k : Answer * World) : Answer * World :=
  match authorize (world_files w) state (req_headers q) (unix_now env) with
  | Err e => (Refuses e, w)
  | Ok _ => k
  end.

(** [get_reverse_proxy] and [health]. *)
Definition get_reverse_proxy (q : Request) (env : Environment) (w : World) : Answer * World :=
  authorized_then q env w (Doc (DReverseProxy (proxy w) (ReverseProxy.uptime_secs (instant_now env) (proxy w))), w).

Definition health : Answer := Doc DHealth.

(** [sublink_singbox], [sublink_clash], [sublink_surge] and [sublink_xray]. *)
Definition sublink_format (format : string) (q : Request) : Answer := routed (sublink_convert (lit format) (req_query q)).

(** The extraction of a JSON body, which is the last of a handler's arguments. *)
Definition with_json {A} (parse : list Z → option A) (q : Request) (w : World) (k : A → Answer * World) : Answer * World :=
  if json_content (req_headers q) then
    match parse (req_body q) with Some a => k a | None => (Rejects BadBody, w) end
  else (Rejects NotJson, w).

(** The argument of a handler that is captured from the path. *)
Definition with_segments (params : list str) (w : World) (k : list str → Answer * World) : Answer * World :=
  match rtraverse (fun s => ok_or tt (decode_segment s)) params with
  | Ok l => k l
  | Err _ => (Rejects BadSegment, w)
  end.

Definition header_value (name : string) (q : Request) : option str := head (get_all name (req_headers q)).

(** Each handler with its arguments. *)
Definition handle (h : Handler) (params : list str) (q : Request) (env : Environment) (w : World) : Answer * World :=
  let fs := world_files w in
  let hs := req_headers q in
  let now := unix_now env in
  match h with
  | Index => (index, w)
  | Styles => (styles, w)
  | Script => (script, w)
  | Health => (health, w)
  | Login =>
      with_json json_login q w (fun '(name, pass) =>
        (answered ('(cookie, (user, expires)) ← login fs state name pass now; Ok (DLogin cookie user expires)), w))
  | Logout => (Doc (DLogout logout), w)
  | Status =>
      (answered (rmap DStatus (AdminService.status state fs hs now (runtime (service w)) (registry w) (instant_now env))), w)
  | NetworkCapabilities =>
      (answered (rmap DNetwork (network_capabilities state fs hs now (probes1 env) (reachable env))), w)
  | GetReverseProxy => get_reverse_proxy q env w
  | PutReverseProxy =>
      with_json json_settings q w (fun s =>
        let '(r, trace, c) := put_reverse_proxy state fs hs now s (replace_faults env) (instant_now env) (proxy w) in
        let w' := with_files (default fs (last trace)) (with_proxy c w) in
        (answered (rmap (fun _ => DReverseProxy c (ReverseProxy.uptime_secs (instant_now env) c)) r), w'))
  | GetConfig => (answered (rmap DConfig (get_config state fs hs now (probes1 env))), w)
  | PutConfig =>
      with_json json_config q w (fun c =>
        match put_config_checks state fs hs now (probes1 env) (probes2 env) c with
        | Err e => (Refuses e, w)
        | Ok c =>
            (Waits, with_service (set_put fs (commands (service w)) (waiting (service w) ++ [c]) (put (service w)) (service w)) w)
        end)
  | GetVlessUsers => (answered (rmap DVlessUsers (get_vless_users state fs hs now)), w)
  | ReloadService =>
      match reload_checks state fs hs now with
      | Err e => (Refuses e, w)
      | Ok _ => (Waits, with_service (set_reloading (commands (service w)) (S (reloading (service w))) (service w)) w)
      end
  | GetStartup => authorized_then q env w (startup_handler (inspect process startup_inputs) w)
  | InstallStartup => authorized_then q env w (startup_handler (install process startup_inputs) w)
  | UninstallStartup => authorized_then q env w (startup_handler (uninstall process startup_inputs) w)
  | ListAdminUsers =>
      authorized_then q env w (answered (rmap DAdminUsers (list_admin_users fs (credentials_path state))), w)
  | AddAdminUser =>
      with_json json_admin q w (fun '(name, pass) =>
        authorized_then q env w
          (let '(r, trace) := add_admin_user fs (credentials_path state) name pass (replace_faults env) in written r trace w))
  | ChangeAdminPassword =>
      with_segments params w (fun l =>
        with_json json_password q w (fun pass =>
          authorized_then q env w
            (let '(r, trace) := change_admin_password fs (credentials_path state) (default [] (head l)) pass (replace_faults env)
             in written r trace w)))
  | DeleteAdminUser =>
      with_segments params w (fun l =>
        authorized_then q env w
          (let '(r, trace) := delete_admin_user fs (credentials_path state) (default [] (head l)) (replace_faults env)
           in written r trace w))
  | SublinkConvert format => (sublink_format format q, w)
  | SublinkShorten =>
      let '(r, l) := sublink_shorten (links w) (req_query q) (random_bytes env) (instant_now env) (instant_later env) in
      (Routes r, with_links l w)
  | SublinkShortenAuto =>
      let '(r, l, fs) := sublink_shorten_auto (links w) (req_query q) now fs (write_fault env) in
      (Routes r, with_files fs (with_links l w))
  | SublinkShortenHy2 =>
      let '(r, l, fs) := sublink_shorten_hy2 (links w) (req_query q) fs (write_fault env) in
      (Routes r, with_files fs (with_links l w))
  | SublinkAuto =>
      with_segments params w (fun l =>
        let '(r, s) := sublink_auto (links w) (header_value "user-agent" q) (header_value "accept" q) (default [] (head l))
                         (req_query q) (instant_now env) now in
        (routed r, with_links s w))
  | SublinkResolve =>
      let '(r, s) := sublink_resolve json_of (links w) (req_query q) (instant_now env) now in
      (Routes r, with_links s w)
  | SublinkSubconverter => (Routes sublink_subconverter, w)
  | SublinkRedirect =>
      with_segments params w (fun l =>
        let '(r, s) := sublink_redirect (links w) (default [] (head l)) (default [] (l !! 1%nat)) (instant_now env) now in
        (Routes r, with_links s w))
  end.

(** The route of a request: its methods, and what its pattern captures. *)
Definition find_route (q : Request) : option (list (Method * Handler) * list str) :=
  let path := segments (req_path q) in
  i ← route_of (pattern <$> router.*1) path;
  '(p, methods) ← router !! i;
  l ← captures (pattern p) path;
  Some (methods, l).

(** The handler of a method; HEAD is served by GET. *)
Definition find_handler (m : Method) (methods : list (Method * Handler)) : option Handler :=
  let handler_for m := snd <$> find_first (fun mh => bool_decide (mh.1 = m)) methods in
  match handler_for m with
  | Some h => Some h
  | None => if decide (m = HEAD) then handler_for GET else None
  end.

Definition respond (q : Request) (env : Environment) (w : World) : Answer * World :=
  match find_route q with
  | None => (Rejects NoRoute, w)
  | Some (methods, params) =>
      match find_handler (method q) methods with
      | None => (Rejects MethodNotAllowed, w)
      | Some h => handle h params q env w
      end
  end.
End router.

(** ** Which handler answers *)

(** The methods of a row without captures. *)
Definition static_row (path : list str) : option (list (Method * Handler)) :=
  snd <$> find_first (fun row => bool_decide (segments (lit row.1) = path)) router.

(** Which methods a path has, by its segments. *)
Definition dispatch (path : list str) : option (list (Method * Handler) * list str) :=
  match path with
  | [_] | [_; _; _] => (fun ms => (ms, [])) <$> static_row path
  | [a; b] =>
      if is_nil a || is_nil b then None
      else if decide (a = lit "sub") then Some ([(GET, SublinkAuto)], [b])
      else Some ([(GET, SublinkRedirect)], [a; b])
  | [a; b; c; u] =>
      if decide ([a; b; c] = [lit "api"; lit "v1"; lit "admin-users"]) then
        if is_nil u then None else Some ([(PUT, ChangeAdminPassword); (DELETE, DeleteAdminUser)], [u])
      else None
  | _ => None
  end.

Lemma captures_cons s p path l :
  captures (s :: p) path = Some l →
  ∃ x path' l', path = x :: path' ∧ captures p path' = Some l' ∧
    match s with Word w => x = w ∧ l = l' | Capture => x ≠ [] ∧ l = x :: l' end.
Proof.
  destruct s as [w|], path as [|x path]; cbn; try done.
  - destruct (str_eqb w x) eqn:E; [|done]. apply str_eqb_eq in E as ->. intros Hc. by exists x, path, l.
  - destruct x as [|b x]; [done|]. cbn. intros (l' & Hc & [= <-])%bind_Some. by exists (b :: x), path, l'.
Qed.

Lemma captures_nil path l : captures [] path = Some l → path = [] ∧ l = [].
Proof. destruct path; by intros [= <-]. Qed.

(** The segments that a pattern matches, one by one. *)
Ltac match_segments H :=
  lazymatch type of H with
  | captures (_ :: _) _ = Some _ =>
      let Hx := fresh "Hx" in
      apply captures_cons in H as (? & ? & ? & -> & H & Hx); cbn beta iota in Hx; destruct Hx as [? ->]; match_segments H
  | captures [] _ = Some _ => apply captures_nil in H as [-> ->]
  end.

Ltac evaluate_pattern H :=
  match type of H with captures ?p _ = _ => let v := eval vm_compute in p in change p with v in H end.

Lemma rows_match : forallb (fun row => bool_decide (is_Some (captures (pattern row.1) (segments (lit row.1))))) router = true.
Proof. vm_compute. reflexivity. Qed.

Section routing.
Context `{RouterLib}.

Lemma no_row path row :
  route_of (pattern <$> router.*1) path = None → row ∈ router → captures (pattern row.1) path = None.
Proof.
  intros Hr Hrow. destruct (captures (pattern row.1) path) as [l|] eqn:E; [|done].
  destruct (route_complete (pattern <$> router.*1) path (pattern row.1)) as [i Hi]; [|done|congruence].
  apply list_elem_of_fmap_2. by apply list_elem_of_fmap_2.
Qed.

Lemma no_static_row path : route_of (pattern <$> router.*1) path = None → static_row path = None.
Proof.
  intros Hr. unfold static_row. destruct (find_first _ router) as [row|] eqn:E; [|done]. exfalso.
  apply find_first_Some in E as [Hin Hp%bool_decide_eq_true]. pose proof (no_row path row Hr Hin) as Hn.
  pose proof rows_match as Hm. rewrite forallb_forall in Hm. specialize (Hm row). rewrite bool_decide_eq_true in Hm.
  destruct Hm as [l Hl]; [by apply list_elem_of_In|]. rewrite Hp in Hl. congruence.
Qed.

(** A path that no pattern matches. *)
Lemma dispatch_none path : route_of (pattern <$> router.*1) path = None → dispatch path = None.
Proof.
  intros Hr. pose proof (no_static_row path Hr) as Hs. pose proof (no_row path) as Hrow.
  destruct path as [|a [|b [|c [|u [|]]]]]; cbn [dispatch]; try done; try by rewrite Hs.
  - destruct (is_nil a) eqn:Ea; [done|]. destruct (is_nil b) eqn:Eb; [done|].
    specialize (Hrow ("/{prefix}/{code}"%string, [(GET, SublinkRedirect)]) Hr).
    cbn [fst] in Hrow. change (pattern "/{prefix}/{code}") with [Capture; Capture] in Hrow.
    cbn [captures] in Hrow. rewrite Ea, Eb in Hrow. cbn in Hrow.
    by specialize (Hrow (list_elem_of_lookup_2 router 25 _ eq_refl)).
  - case_decide as E; [|done]. injection E as -> -> ->. destruct (is_nil u) eqn:Eu; [done|].
    specialize (Hrow ("/api/v1/admin-users/{username}"%string, [(PUT, ChangeAdminPassword); (DELETE, DeleteAdminUser)]) Hr).
    cbn [fst] in Hrow.
    change (pattern "/api/v1/admin-users/{username}")
      with [Word (lit "api"); Word (lit "v1"); Word (lit "admin-users"); Capture] in Hrow.
    cbn [captures] in Hrow. rewrite !(proj2 (str_eqb_eq _ _) eq_refl), Eu in Hrow. cbn in Hrow.
    by specialize (Hrow (list_elem_of_lookup_2 router 14 _ eq_refl)).
Qed.

(** Whatever the matcher of the web framework, as long as it finds a pattern
    that matches when there is one and prefers the more specific of two, the table of
    routes is the dispatch by segments: the pages, the sixteen paths of the management
    API and the formats by their words, [/sub/code] to the subscription and never to the
    redirect, every other pair of segments to the redirect, and nothing else. *)
Theorem find_route_spec q : find_route q = dispatch (segments (req_path q)).
Proof.
  unfold find_route. set (path := segments (req_path q)).
  destruct (route_of (pattern <$> router.*1) path) as [i|] eqn:Ei; [|by rewrite dispatch_none].
  destruct (route_sound _ _ _ Ei) as (p & l & Hp & Hl). pose proof (route_specific _ _ _ _ (pattern "/sub/{code}") Ei Hp) as Hsub.
  cbn [mbind option_bind]. apply list_lookup_fmap_Some in Hp as (s & -> & Hs).
  apply list_lookup_fmap_Some in Hs as ([p ms] & -> & Hrow). cbn [fst] in *. rewrite Hrow. cbn [mbind option_bind].
  rewrite Hl. cbn [mbind option_bind]. clearbody path. clear Ei.
  repeat (destruct i as [|i]; [injection Hrow as <- <-; evaluate_pattern Hl; match_segments Hl; subst|]);
    [..|by apply lookup_lt_Some in Hrow; cbn in Hrow; lia];
  lazymatch goal with x : str |- _ => idtac | _ => try (vm_compute; reflexivity) end.
  - destruct x3; [done|]. reflexivity.
  - destruct x2; [done|]. reflexivity.
  - destruct x as [|b x]; [done|]. destruct x2 as [|b2 x2]; [done|]. cbn [dispatch is_nil orb].
    case_decide as E; [|done]. rewrite E in Hsub. cut (true = false); [done|]. apply Hsub; [|by eexists].
    by apply (list_elem_of_lookup_2 _ 22).
Qed.
End routing.

(** ** What a request without authorization gets *)

(** The handlers that ask for authorization. *)
Definition protected (h : Handler) : bool :=
  match h with
  | Index | Styles | Script | Health | Login | Logout | SublinkConvert _ | SublinkShorten | SublinkShortenAuto
  | SublinkShortenHy2 | SublinkAuto | SublinkResolve | SublinkSubconverter | SublinkRedirect => false
  | _ => true
  end.

(** An answer without a document of the management API. *)
Definition public_answer (a : Answer) : Prop :=
  match a with
  | Doc (DHealth | DLogin _ _ _ | DLogout _) | Page _ _ | Routes _ | Refuses _ | Rejects _ | Panics => True
  | _ => False
  end.

Section store_frames.
Context `{TomlLib (list PersistentShortLink)}.

Lemma persist_frame s fs fault r fs' p :
  persist s fs fault = (r, fs') → persistence_path s ≠ Some p → fs' !! p = fs !! p.
Proof.
  unfold persist, write_links. intros Hp Hne.
  repeat case_match; simplify_eq; try done; rewrite lookup_insert_ne; congruence.
Qed.

Lemma put_permanent_frame s code query fs fault r s' fs' :
  put_permanent s code query fs fault = (r, s', fs') →
  persistence_path s' = persistence_path s ∧ ∀ p, persistence_path s ≠ Some p → fs' !! p = fs !! p.
Proof.
  unfold put_permanent. destruct (disabled s); [by intros [= _ <- <-]|].
  destruct (persist _ fs fault) as [r1 fs1] eqn:E. intros [= <- <- <-]. split; [done|]. intros p. by apply (persist_frame _ _ _ _ _ _ E).
Qed.

Lemma put_persisted_expiring_frame s code query now fs fault r s' fs' :
  put_persisted_expiring s code query now fs fault = (r, s', fs') →
  persistence_path s' = persistence_path s ∧ ∀ p, persistence_path s ≠ Some p → fs' !! p = fs !! p.
Proof.
  unfold put_persisted_expiring. destruct (disabled s); [by intros [= _ <- <-]|].
  destruct (persist _ fs fault) as [r1 fs1] eqn:E. intros [= <- <- <-]. split; [done|]. intros p. by apply (persist_frame _ _ _ _ _ _ E).
Qed.

Lemma get_frame s code now now_unix found s' :
  ShortStore.get s code now now_unix = (found, s') → persistence_path s' = persistence_path s.
Proof. by intros [= _ <-]. Qed.

Lemma put_frame s code query now later s' :
  ShortStore.put s code query now later = Ok s' → persistence_path s' = persistence_path s.
Proof. unfold ShortStore.put. destruct (disabled s); [done|]. by intros [= <-]. Qed.
End store_frames.

Section gate.
Context `{HostLib} `{HttpLib} `{TomlLib Config} `{TomlLib ReverseProxySettings} `{TomlLib (list PersistentShortLink)}.
Context `{SessionLib} `{Blake2bMac} `{CredentialsToml} `{Sha256} `{HashIter} `{RouteLib} `{SubLib} `{SubDigest} `{HostOs}.
Context `{RouterLib}.
Variables (state : AdminState) (process : Process) (json_of : str → str).

(** Only the store of short links and its file are other. *)
Definition links_only (w w' : World) : Prop :=
  ∃ l fs, w' = with_files fs (with_links l w) ∧ persistence_path l = persistence_path (links w) ∧
    ∀ p, persistence_path (links w) ≠ Some p → fs !! p = world_files w !! p.

Lemma with_files_same w : with_files (world_files w) w = w.
Proof. by destruct w as [[] ? ? ? ?]. Qed.

Lemma links_only_refl w : links_only w w.
Proof. exists (links w), (world_files w). split; [|done]. by destruct w as [[] ? ? ? ?]. Qed.

Lemma links_only_store l w : persistence_path l = persistence_path (links w) → links_only w (with_links l w).
Proof. intros Hl. exists l, (world_files w). split; [|done]. by destruct w as [[] ? ? ? ?]. Qed.

(** The answer to a refused request, which changes nothing. *)
Definition refused (e : ApiError) (w : World) (out : Answer * World) : Prop :=
  (out.1 = Refuses e ∨ ∃ r, out.1 = Rejects r) ∧ out.2 = w.

(** The answer of a public handler. *)
Definition public_outcome (w : World) (out : Answer * World) : Prop := public_answer out.1 ∧ links_only w out.2.

Section extraction.
Variables (P : Answer * World → Prop) (w : World).
Hypothesis Hreject : ∀ r, P (Rejects r, w).

Lemma with_json_cases {A} parse q (k : A → Answer * World) : (∀ x, P (k x)) → P (with_json parse q w k).
Proof using Hreject. intros Hk. unfold with_json. by repeat case_match. Qed.

Lemma with_segments_cases params k : (∀ x, P (k x)) → P (with_segments params w k).
Proof using Hreject. intros Hk. unfold with_segments. by case_match. Qed.
End extraction.

Lemma refused_reject e w r : refused e w (Rejects r, w).
Proof. split; [right; by eexists|done]. Qed.

Lemma refused_refuse e w : refused e w (Refuses e, w).
Proof. split; [by left|done]. Qed.

Lemma public_reject w r : public_outcome w (Rejects r, w).
Proof. split; [done|apply links_only_refl]. Qed.

Hint Extern 1 => apply with_json_cases : core.
Hint Extern 1 => apply with_segments_cases : core.
Hint Resolve refused_reject refused_refuse public_reject : core.

(** A handler that asks for authorization, without it. *)
Lemma protected_refused h params q env w e :
  authorize (world_files w) state (req_headers q) (unix_now env) = Err e → protected h = true →
  refused e w (handle state process json_of h params q env w).
Proof.
  intros He Hp. assert (Ha : ∀ k, refused e w (authorized_then state q env w k)).
  { intros k. unfold authorized_then. by rewrite He. }
  destruct h; try discriminate Hp; cbn [handle];
    unfold get_reverse_proxy, status, network_capabilities, get_config, get_vless_users, reload_checks, put_config_checks, put_reverse_proxy;
    rewrite ?He; cbn [mbind result_bind rmap rmap_err answered]; auto.
  - apply with_json_cases; [auto|]. intros s. split; [by left|]. cbn. by destruct w as [[] ? ? ? ?].
  - apply with_json_cases; [auto|]. by intros [name pass].
Qed.

(** Any other handler, with or without it. *)
Lemma public_handler h params q env w :
  protected h = false → public_outcome w (handle state process json_of h params q env w).
Proof.
  intros Hp. pose proof (links_only_refl w) as Hw.
  assert (Hr : ∀ o, public_outcome w (routed o, w)) by (by intros []).
  destruct h; try discriminate Hp; cbn [handle]; try by split.
  - apply with_json_cases; [auto|]. intros [name pass]. destruct (login _ _ _ _ _) as [[? []]|]; by split.
  - apply Hr.
  - destruct (sublink_shorten _ _ _ _ _) as [r l] eqn:E. split; [done|]. apply links_only_store.
    unfold sublink_shorten in E. destruct (uri_parameter _ _) as [url|]; [|by injection E as _ <-].
    destruct (shorten _ _ _ _ _ _) as [[code s]|] eqn:Es; [|by injection E as _ <-]. injection E as _ <-.
    unfold shorten in Es. res_inv. destruct (ShortStore.put _ _ _ _ _) eqn:Ep; [|done]. simplify_eq/=. by apply put_frame in Ep.
  - destruct (sublink_shorten_auto _ _ _ _ _) as [[r l] fs] eqn:E. split; [done|]. exists l, fs. split; [done|].
    unfold sublink_shorten_auto, shorten_auto in E. repeat case_match; simplify_eq; try done.
    by eapply put_persisted_expiring_frame.
  - destruct (sublink_shorten_hy2 _ _ _ _) as [[r l] fs] eqn:E. split; [done|]. exists l, fs. split; [done|].
    unfold sublink_shorten_hy2, shorten_hy2 in E. repeat case_match; simplify_eq; try done.
    by eapply put_permanent_frame.
  - apply with_segments_cases; [auto|]. intros l. destruct (sublink_auto _ _ _ _ _ _ _) as [r s] eqn:E.
    split; [by destruct r|]. apply links_only_store. unfold sublink_auto, auto_with_overrides in E.
    repeat case_match; simplify_eq; try done; by eapply get_frame.
  - destruct (sublink_resolve _ _ _ _ _) as [r l] eqn:E. split; [done|]. apply links_only_store.
    unfold sublink_resolve, Sublink.resolve in E. repeat case_match; simplify_eq; try done; by eapply get_frame.
  - apply with_segments_cases; [auto|]. intros l. destruct (sublink_redirect _ _ _ _ _) as [r s] eqn:E.
    split; [done|]. apply links_only_store.
    unfold sublink_redirect, redirect in E. repeat case_match; simplify_eq; try done; by eapply get_frame.
Qed.

(** The handler a request is routed to. *)
Definition routed_to (q : Request) : option Handler := r ← find_route q; find_handler (method q) r.1.

(** A login that succeeds names an administrator of the credentials file. *)
Lemma login_answer q env w params cookie user expires w' :
  handle state process json_of Login params q env w = (Doc (DLogin cookie user expires), w') →
  ∃ c u, load_credentials (world_files w) (credentials_path state) = Ok c ∧ u ∈ admins c ∧
    json_login (req_body q) = Some (username u, password u) ∧ user = username u.
Proof.
  cbn [handle]. unfold with_json. destruct (json_content _); [|done]. destruct (json_login _) as [[name pass]|]; [|done].
  unfold login. destruct (load_credentials _ _) as [c|]; [|done]. cbn [rmap_err mbind result_bind]. intros Hl.
  destruct (find_first _ (admins c)) as [u|] eqn:Eu; [|done]. cbn [ok_or mbind result_bind] in Hl.
  exists c, u. apply find_first_Some in Eu as [Hu [->%str_eqb_eq ->%str_eqb_eq]%andb_true_iff].
  destruct (issue_session_token _ _); [|done]. cbn [ok_or mbind result_bind] in Hl. unfold ensure in Hl.
  destruct (header_valid _); [|done]. cbn [mbind result_bind answered] in Hl. injection Hl as _ <- _ _. done.
Qed.

(** Claim C8. Whatever a request is, its path, method, headers and body, when its headers
    do not authorize it: if it is routed to a handler that asks for authorization, the
    answer is that refusal or the rejection of its arguments, and nothing is changed;
    if it is routed to any other, no document of the management API is answered but the
    health, a logout or a login whose body names an administrator of the credentials file
    with the password, and nothing is changed but the short links and their file; and
    otherwise it is rejected.  The management service, the configuration and the
    credentials, the reverse proxy, the accounting and the start-up service of the host
    are as they were. *)
Theorem admin_gate q env w e :
  authorize (world_files w) state (req_headers q) (unix_now env) = Err e →
  let '(a, w') := respond state process json_of q env w in
  match routed_to q with
  | None => ∃ r, a = Rejects r ∧ w' = w
  | Some h =>
      if protected h then (a = Refuses e ∨ ∃ r, a = Rejects r) ∧ w' = w
      else public_answer a ∧ links_only w w' ∧
        ∀ cookie user expires, a = Doc (DLogin cookie user expires) →
          ∃ c u, load_credentials (world_files w) (credentials_path state) = Ok c ∧ u ∈ admins c ∧
            json_login (req_body q) = Some (username u, password u) ∧ user = username u
  end.
Proof.
  intros He. unfold respond, routed_to. destruct (find_route q) as [[ms params]|]; [|by eexists]. cbn [mbind option_bind fst].
  destruct (find_handler (method q) ms) as [h|]; [|by eexists].
  pose proof (λ params, protected_refused h params q env w e He) as Hp.
  pose proof (λ params, public_handler h params q env w) as Hf.
  specialize (Hp params). specialize (Hf params). destruct (handle _ _ _ h _ _ _ _) as [a w'] eqn:Eh.
  destruct (protected h) eqn:Eprot; [by apply Hp|]. destruct (Hf eq_refl) as [Ha Hw]. split_and!; [done|done|].
  intros cookie user expires ->. destruct h; try discriminate Eprot; try discriminate Eh.
  1: by apply (login_answer q env w params cookie user expires w').
  all: cbn [handle] in Eh; unfold with_segments, sublink_format, routed in Eh; repeat case_match; by simplify_eq.
Qed.
End gate.

(** ** A matcher, and concrete requests *)

(** A pattern as a number, its segments the digits: a capture counts more than a word. *)
Fixpoint generality (p : list Segment) : Z :=
  match p with
  | [] => 0
  | Word _ :: p => generality p
  | Capture :: p => 2 ^ len p + generality p
  end.

Lemma generality_bound p : 0 ≤ generality p < 2 ^ len p.
Proof.
  induction p as [|[w|] p IH]; [done| |]; cbn [generality]; rewrite len_cons, Z.pow_add_r by (pose proof (len_nonneg p); lia); lia.
Qed.

Lemma more_specific_generality p q : length p = length q → more_specific p q = true → generality p < generality q.
Proof.
  revert q. induction p as [|s p IH]; intros q Hlen Hm; [by destruct q|]. destruct q as [|t q]; [by destruct s|].
  injection Hlen as Hlen. assert (Hl : len p = len q) by (unfold len; by rewrite Hlen).
  destruct s, t; cbn [more_specific generality] in *; rewrite ?Hl; try done.
  - by apply IH.
  - pose proof (generality_bound p). pose proof (generality_bound q). rewrite Hl in *. lia.
  - specialize (IH q Hlen Hm). lia.
Qed.

Lemma captures_length p path l : captures p path = Some l → length p = length path.
Proof.
  revert path l. induction p as [|s p IH]; intros path l Hc.
  - by apply captures_nil in Hc as [-> _].
  - apply captures_cons in Hc as (x & path' & l' & -> & Hc & _). cbn. f_equal. by eapply IH.
Qed.

(** The least general of the patterns that match, and its index. *)
Definition least_general (ps : list (list Segment)) (path : list str) : option nat :=
  fst <$> min_by_key (fun ip => generality ip.2)
            (filter (fun ip => is_some (captures ip.2 path) = true) (zip (seq 0 (length ps)) ps)).

Lemma elem_of_indexed {A} (l : list A) i x : (i, x) ∈ zip (seq 0 (length l)) l ↔ l !! i = Some x.
Proof.
  rewrite list_elem_of_lookup. split.
  - intros [j Hj]. apply lookup_zip_Some in Hj as [Hi Hx]. apply lookup_seq in Hi as [-> _]. done.
  - intros Hi. exists i. apply lookup_zip_Some. split; [|done]. apply lookup_seq. split; [done|]. by eapply lookup_lt_Some.
Qed.

Lemma least_general_Some ps path i :
  least_general ps path = Some i →
  ∃ p, ps !! i = Some p ∧ is_Some (captures p path) ∧
    ∀ q, q ∈ ps → is_Some (captures q path) → generality p ≤ generality q.
Proof.
  unfold least_general. intros ([i' p] & [Hp Hmin]%min_by_key_Some & ->)%fmap_Some.
  apply list_elem_of_filter in Hp as [Hc Hp]. apply elem_of_indexed in Hp. cbn [fst snd] in *.
  exists p. split_and!; [done|by destruct (captures p path)|]. intros q [j Hq]%list_elem_of_lookup Hcq.
  apply (Hmin (j, q)). apply list_elem_of_filter. split; [|by apply elem_of_indexed]. cbn. by destruct Hcq as [? ->].
Qed.

Lemma least_general_sound ps path i : least_general ps path = Some i → ∃ p l, ps !! i = Some p ∧ captures p path = Some l.
Proof. intros (p & Hp & [l Hl] & _)%least_general_Some. by exists p, l. Qed.

Lemma least_general_complete ps path p : p ∈ ps → is_Some (captures p path) → is_Some (least_general ps path).
Proof.
  intros [i Hi]%list_elem_of_lookup Hc. unfold least_general. destruct (min_by_key _ _) eqn:E; [done|].
  apply min_by_key_None in E. exfalso. eapply (not_elem_of_nil (i, p)). rewrite <- E. apply list_elem_of_filter.
  split; [cbn; by destruct Hc as [? ->]|by apply elem_of_indexed].
Qed.

Lemma least_general_specific ps path i p q :
  least_general ps path = Some i → ps !! i = Some p → q ∈ ps → is_Some (captures q path) → more_specific q p = false.
Proof.
  intros (p' & Hp' & [l Hl] & Hmin)%least_general_Some Hp Hq Hc. assert (p' = p) as -> by congruence.
  destruct (more_specific q p) eqn:E; [|done]. pose proof (Hmin q Hq Hc). destruct Hc as [k Hk].
  apply more_specific_generality in E; [lia|]. apply captures_length in Hl, Hk. congruence.
Qed.

(** Bodies that are JSON documents of one value each. *)
Definition example_router : RouterLib := {|
  route_of := least_general;
  decode_segment := Some;
  json_content h := negb (is_nil (get_all "content-type" h));
  json_login b := split_once 58 b;
  json_admin b := split_once 58 b;
  json_password b := Some b;
  json_config b := if str_eqb b (lit "example") then Some example_config else None;
  json_settings _ := None;
  route_sound := least_general_sound; route_complete := least_general_complete; route_specific := least_general_specific |}.

Section example_requests.
Let host := example_hostlib.
Let http := example_http.
Let toml := example_toml.
Let proxy_toml := example_proxy_toml.
Let links_toml := example_links_toml.
Let lib := example_session_lib.
Let mac := example_blake2b.
Let cred := example_cred_toml.
Let sha := example_sha256.
Let iter := hash_iter_sorted.
Let routes := example_routes.
Let sub := example_sublib.
Let digest := example_subdigest.
Let operating := example_os.
Let web := example_router.
#[local] Existing Instances host http toml proxy_toml links_toml lib mac cred sha iter routes sub digest operating web.

Definition example_world : World := {|
  service := service_init example_service_fs; proxy := example_controller; links := example_empty_store;
  registry := empty_registry; machine := example_host |}.

Definition example_environment : Environment := {|
  unix_now := 1000; instant_now := 5; instant_later := 6; random_bytes := None; probes1 := example_probes;
  probes2 := example_probes; reachable _ := false; replace_faults := no_replace_faults; write_fault := NoFault |}.

Definition example_request (m : Method) (path : string) (h : Headers) (b : str) : Request :=
  {| method := m; req_path := lit path; req_query := None; req_headers := h; req_body := b |}.

Definition example_respond (q : Request) : Answer * World :=
  respond example_admin_state example_process id q example_environment example_world.

(** The second administrator is added when the request is authorized; another method is
    not allowed, and HEAD is served by GET. *)
Example example_answers :
  let add := example_respond (example_request POST "/api/v1/admin-users"
               ((lit "content-type", lit "application/json") :: example_basic) (lit "second:hidden")) in
  add.1 = Doc DMutation ∧ world_files add.2 !! example_cred_path ≠ world_files example_world !! example_cred_path ∧
  (example_respond (example_request PUT "/api/v1/admin-users" example_basic [])).1 = Rejects MethodNotAllowed ∧
  (example_respond (example_request HEAD "/api/v1/health" [] [])).1 = Doc DHealth.
Proof. vm_compute. split_and!; try reflexivity. intros [=]. Qed.

Lemma admin_gate_witness :
  let q := example_request DELETE "/api/v1/admin-users/admin" [] [] in
  routed_to q = Some DeleteAdminUser ∧
  let '(a, w') := example_respond q in (a = Refuses Unauthorized ∨ ∃ r, a = Rejects r) ∧ w' = example_world.
Proof.
  split; [vm_compute; reflexivity|].
  refine (admin_gate example_admin_state example_process id (example_request DELETE "/api/v1/admin-users/admin" [] [])
    example_environment example_world Unauthorized _).
  vm_compute. reflexivity.
Defined.
End example_requests.
