(* ===== verification/Main.v ===== *)
(** * The command line ([src/src/main.rs])

    What the program does for its arguments: a tunnel of the command line, a new
    administrator password, a check of the configuration, the server alone, or the
    server with the management service.  Parsing the arguments is the library's; what is
    launched is the value of the run, the running of it being other files' subject. *)

From stdpp Require Import base list gmap strings.
From Stdlib Require Import ZArith Lia.
From S2P Require Import Prelude RustStr Lines Net Rules Files PrivateFile Config Stream NatTunnel NatGateway AdminUsers AdminAuth.
From S2P Require Import ReverseProxy.

Open Scope Z_scope.

(** [Command] and [Args]. *)
Inductive Command :=
| NatGateway (tunnel_listen public_listen token_file : str) (queue_capacity : Z)
| NatClient (gateway local token_file : str) (pool_size : Z).

Record Args := {
  command : option Command;
  config_file : str;
  check : bool;
  admin_listen : SocketAddr;
  admin_token_file : option str;
  admin_credentials_file : str;
  admin_username : str;
  reset_admin_password : bool;
  no_admin : bool;
  arg_worker_threads : option Z;
}.

Inductive MainError :=
| TunnelFailed (e : TunnelError)
| CredentialsFailed (e : CredentialsError)
| ConfigFailed (e : SaveError)
| AdminTokenUnreadable.

(** What is started, and what is printed before. *)
Inductive Launch :=
| LaunchTunnel (t : TunnelTask)
| PrintReset (user : AdminCredentials)
| PrintValid (listen : SocketAddr) (users : Z)
| LaunchServer (c : Config)
| LaunchAdmin (state : AdminState) (created : option AdminCredentials).

(** The worker threads of [main]; [available] is what the host says it has. *)
Definition main_threads (args : Args) (available : option Z) : option Z :=
  let n := match arg_worker_threads args with
           | Some n => n
           | None => Z.min (match available with Some n => n | None => 1 end) 4
           end in
  if n >? 0 then Some n else None.

Section main.
Context `{HostLib} `{HttpLib} `{TomlLib Config} `{CredentialsToml}.

(** The tunnel of a command. *)
Definition tunnel_command (fs : filesystem) (hostname : option str) (c : Command) : result MainError TunnelTask :=
  match c with
  | NatGateway tl pl token_file queue =>
      token ← rmap_err TunnelFailed (read_token fs token_file);
      Ok (RunGateway {| tunnel_listen := tl; public_listen := pl; gateway_token := token; gateway_queue := queue |})
  | NatClient gw local token_file size =>
      token ← rmap_err TunnelFailed (read_token fs token_file);
      Ok (RunClient {| client_gateway := gw; client_local := local; client_token := token; client_pool := size;
                       client_name := system_device_name fs hostname; client_url := [] |})
  end.

(** The administration token: the file's text, or the variable's. *)
Definition admin_token_of (fs : filesystem) (variable : option str) (args : Args) : result MainError (option str) :=
  match admin_token_file args with
  | Some path => rmap (fun t => Some (trim t)) (ok_or AdminTokenUnreadable (read_to_string fs path))
  | None => Ok variable
  end.

(** [run]; [hostname] and [variable] are environment variables, [random] what the
    generator gives. *)
Definition main_run (fs : filesystem) (args : Args) (threads : Z) (hostname variable : option str) (random : option (list Z))
    (faults : ReplaceFaults) : result MainError Launch * list filesystem :=
  match command args with
  | Some c => (rmap LaunchTunnel (tunnel_command fs hostname c), [fs])
  | None =>
      if reset_admin_password args then
        let '(r, trace) := reset_credentials fs (admin_credentials_file args) (admin_username args) random faults in
        (rmap PrintReset (rmap_err CredentialsFailed r), trace)
      else
        match load fs (config_file args) with
        | Err e => (Err (ConfigFailed e), [fs])
        | Ok c =>
            if check args then (Ok (PrintValid (listen c) (len (users c))), [fs])
            else if no_admin args then (Ok (LaunchServer c), [fs])
            else
              match admin_token_of fs variable args with
              | Err e => (Err e, [fs])
              | Ok token =>
                  let '(r, trace) := load_or_create_credentials fs (admin_credentials_file args) (admin_username args)
                                       random faults in
                  (rmap (fun '(user, created) =>
                     LaunchAdmin {| config_path := config_file args; admin_token := token;
                                    credentials_path := admin_credentials_file args;
                                    webui_listen := show_addr (admin_listen args);
                                    startup_token_file := admin_token_file args; worker_threads := threads |}
                       (if created : bool then Some user else None))
                     (rmap_err CredentialsFailed r), trace)
              end
        end
  end.
End main.

(** ** What a run starts with *)

Section main_theorems.
Context `{HostLib} `{HttpLib} `{TomlLib Config} `{CredentialsToml} `{SessionLib} `{Blake2bMac}.

(** A created credentials file loads, with the one user that was printed. *)
Lemma created_credentials fs path name random faults user trace fs' :
  private_temporary path ≠ path →
  load_or_create_credentials fs path name random faults = (Ok (user, true), trace) → last trace = Some fs' →
  load_credentials fs' path = Ok {| admins := [user] |}.
Proof.
  intros Hne Hr Hlast. unfold load_or_create_credentials in Hr.
  destruct (load_credentials fs path) as [c|e]; [by destruct (admins c)|]. destruct (is_not_found e); [|done].
  destruct (generated_credentials name random) as [u|]; [|done]. unfold write_credentials in Hr.
  destruct (ensure_credentials {| admins := [u] |}) as [[]|] eqn:He; [|done].
  destruct (save_private_saved read_credentials (Ok {| admins := [u] |}) NotSerialized NotReplaced
    (credentials_print {| admins := [u] |}) fs path faults Hne) as (_ & _ & fs_end & Hl & Hend).
  { intros data m. apply read_written. by apply (ensure_credentials_Ok {| admins := [u] |}). }
  destruct (save_private _ _ _ _ _ _) as [r tr]. injection Hr as Hr ->. apply rmap_Ok in Hr as ([] & -> & [= ->]).
  cbn [fst snd] in *. rewrite Hlast in Hl. by injection Hl as <-.
Qed.

(** The credentials of the management service load when it starts. *)
Lemma launched_credentials fs path name random faults user (created : bool) trace fs' :
  private_temporary path ≠ path →
  load_or_create_credentials fs path name random faults = (Ok (user, created), trace) → last trace = Some fs' →
  ∃ c, load_credentials fs' path = Ok c ∧ user ∈ admins c.
Proof.
  intros Hne Hr Hlast. destruct created.
  - eexists. split; [by eapply created_credentials|]. by left.
  - unfold load_or_create_credentials in Hr. destruct (load_credentials fs path) as [c|e] eqn:Hl.
    + destruct (admins c) as [|u l] eqn:Ha; [done|]. injection Hr as <- <-. injection Hlast as <-.
      exists c. rewrite Ha. split; [done|by left].
    + destruct (is_not_found e); [|done]. destruct (generated_credentials name random); [|done].
      by destruct (write_credentials _ _ _ _) as [[[]|] tr].
Qed.

(** Claim C29. The program starts a server only with a configuration that loads and is valid, alone exactly when it is
    asked to be and not to check. With the check asked for, whatever the other flags
    but a tunnel's command or a new password, it starts and writes nothing and tells
    whether the configuration loads; and a configuration that does not load starts and
    writes nothing. When the management service starts, its credentials file loads,
    with valid administrators; and if the credentials were created and printed, who
    sends the printed name and password is authorized. *)
Theorem main_run_spec fs args threads hostname variable random faults r trace :
  private_temporary (admin_credentials_file args) ≠ admin_credentials_file args →
  main_run fs args threads hostname variable random faults = (r, trace) →
  (∀ c, r = Ok (LaunchServer c) → load fs (config_file args) = Ok c ∧ config_ok c ∧ trace = [fs]) ∧
  (command args = None → reset_admin_password args = false → check args = true →
     trace = [fs] ∧
     r = match load fs (config_file args) with
         | Ok c => Ok (PrintValid (listen c) (len (users c)))
         | Err e => Err (ConfigFailed e)
         end) ∧
  (∀ c, command args = None → reset_admin_password args = false → check args = false → load fs (config_file args) = Ok c →
     if no_admin args then r = Ok (LaunchServer c)
     else (∃ e, r = Err e) ∨ ∃ state created, r = Ok (LaunchAdmin state created)) ∧
  (∀ e, command args = None → reset_admin_password args = false → load fs (config_file args) = Err e →
     r = Err (ConfigFailed e) ∧ trace = [fs]) ∧
  (∀ state created fs', r = Ok (LaunchAdmin state created) → last trace = Some fs' →
     (∃ c, load fs (config_file args) = Ok c ∧ config_ok c) ∧
     ∃ c, load_credentials fs' (credentials_path state) = Ok c ∧ users_ok (admins c) ∧
       ∀ user h now encoded, created = Some user → authorization h = lit "Basic " ++ encoded →
         b64std_decode encoded = Some (username user ++ 58 :: password user) →
         authorize fs' state h now = Ok tt).
Proof.
  intros Hne Hr. unfold main_run in Hr. destruct (command args) as [cmd|].
  { injection Hr as <- <-. destruct (tunnel_command fs hostname cmd); split_and!; naive_solver. }
  destruct (reset_admin_password args).
  { destruct (reset_credentials _ _ _ _ _) as [rr tr]. injection Hr as <- <-. destruct rr; split_and!; naive_solver. }
  destruct (load fs (config_file args)) as [c|e] eqn:Hl; [|injection Hr as <- <-; split_and!; naive_solver].
  assert (Hok : config_ok c).
  { unfold load, from_toml in Hl. res_inv. subst. destruct (validate c) as [[]|] eqn:Hv; [|done]. by apply (validate_Ok c tt). }
  destruct (check args); [injection Hr as <- <-; split_and!; naive_solver|].
  destruct (no_admin args) eqn:Ena; [injection Hr as <- <-; split_and!; naive_solver|].
  destruct (admin_token_of fs variable args) as [token|e]; [|injection Hr as <- <-; split_and!; naive_solver].
  destruct (load_or_create_credentials _ _ _ _ _) as [rr tr] eqn:Ec. injection Hr as <- <-.
  destruct rr as [[user created]|e]; cbn [rmap rmap_err]; [|split_and!; naive_solver].
  split_and!; [done|done|intros; right; by eexists _, _|done|]. intros state created' fs' [= <- <-] Hlast. cbn [credentials_path]. split; [by eauto|].
  destruct (launched_credentials _ _ _ _ _ _ _ _ _ Hne Ec Hlast) as (cr & Hcr & Hin).
  exists cr. split; [done|]. split; [by eapply load_credentials_ok|].
  intros u h now encoded Hu Hauth Hdec. apply authorize_cases. right. exists cr. split; [done|]. right. exists u, encoded.
  destruct created; [|done]. by injection Hu as <-.
Qed.
End main_theorems.

(** ** A first start *)

Section example_start.
Let host := example_hostlib.
Let http := example_http.
Let toml := example_toml.
Let lib := example_session_lib.
Let mac := example_blake2b.
Let cred := example_cred_toml.
#[local] Existing Instances host http toml lib mac cred.

Definition example_args : Args := {|
  command := None; config_file := lit "config.toml"; check := false;
  admin_listen := {| ip := V4 [127; 0; 0; 1]; port := 9080 |}; admin_token_file := None;
  admin_credentials_file := example_cred_path; admin_username := lit "admin"; reset_admin_password := false;
  no_admin := false; arg_worker_threads := None |}.

Definition example_start_fs : filesystem :=
  <[lit "config.toml" := {| contents := lit "example"; mode := DEFAULT_MODE |}]> example_cred_fs.

Lemma main_run_spec_witness :
  let out := main_run example_start_fs example_args 4 None None None no_replace_faults in
  is_ok out.1 = true ∧
  (∀ state created fs', out.1 = Ok (LaunchAdmin state created) → last out.2 = Some fs' →
     ∃ c, load_credentials fs' (credentials_path state) = Ok c ∧ users_ok (admins c)).
Proof.
  intros out. split; [vm_compute; reflexivity|]. intros state created fs' Hr Hl.
  destruct (main_run_spec example_start_fs example_args 4 None None None no_replace_faults out.1 out.2) as (_ & _ & _ & _ & Ha).
  - apply (bool_decide_unpack _). vm_compute. exact I.
  - vm_compute. reflexivity.
  - destruct (Ha state created fs' Hr Hl) as (_ & c & Hc & Hu & _). exists c. split; [exact Hc|exact Hu].
Defined.
End example_start.
