(* ===== verification/AdminRun.v ===== *)
(** * The management service as a whole ([run] of [src/src/admin.rs])

    How the service starts, and its runs: requests, in any number and order, among the
    steps of the loop and of the handlers that wait, and the ends of the tunnel's task.
    A save that is in progress changes the configuration and its temporary file only, so
    that a handler that replaces another file meanwhile is not undone. *)

From stdpp Require Import base list gmap strings.
From Stdlib Require Import ZArith Lia.
From S2P Require Import Prelude RustStr Rules Net Files Traffic Config Outbound Stream NatTunnel NatGateway Vless PrivateFile.
From S2P Require Import ShortStore Base64 SubNodes SubRender Sublink SublinkHttp AdminUsers AdminAuth ReverseProxy ShareAddress.
From S2P Require Import ServiceUnit Startup AdminService AdminRouter.

Open Scope Z_scope.

(** [Path::with_file_name]. *)
Definition with_file_name (path name : str) : str := (split_path path).1 ++ name.

Inductive AdminStartError :=
| StartCredentials (e : CredentialsError)
| StartProxy (e : ProxyError)
| StartLinks (e : StoreError)
| StartBind.

(** The state after a step of the service, in which other files may have changed since
    its save began. *)
Definition overlay (paths : list str) (new old : filesystem) : filesystem :=
  foldr (fun p fs => match new !! p with Some f => <[p := f]> fs | None => delete p fs end) old paths.

Lemma overlay_lookup paths new old p : overlay paths new old !! p = if decide (p ∈ paths) then new !! p else old !! p.
Proof.
  induction paths as [|q paths IH]; cbn; [done|].
  destruct (new !! q) as [f|] eqn:Eq, (decide (p = q)) as [->|Hne];
    rewrite ?lookup_insert_eq, ?lookup_delete_eq, ?lookup_insert_ne, ?lookup_delete_ne by congruence;
    rewrite ?IH; repeat case_decide; set_solver.
Qed.

Lemma overlay_same paths fs : overlay paths fs fs = fs.
Proof. apply map_eq. intros p. rewrite overlay_lookup. by case_decide. Qed.

(** ** What a replacement changes *)

(** The last state of a replacement of a file differs in it and in its temporary only. *)
Definition frames (path : str) (fs : filesystem) (trace : list filesystem) : Prop :=
  ∀ p, p ≠ path → p ≠ private_temporary path → default fs (last trace) !! p = fs !! p.

Lemma frames_same path fs : frames path fs [fs].
Proof. by intros p _ _. Qed.

Lemma frames_written path fs trace data :
  last trace = Some (PrivateFile.written fs (private_temporary path) data) → frames path fs trace.
Proof. intros Hl p _ Ht. rewrite Hl. cbn. unfold PrivateFile.written. by rewrite lookup_insert_ne. Qed.

Lemma replace_private_frames data fs path faults : frames path fs (replace_private data fs path faults).2.
Proof.
  unfold replace_private. destruct (directory_fault faults); [apply frames_same|].
  destruct (open_fault faults); [apply frames_same|]. destruct (short_write faults) as [n|]; cbn [snd].
  - rewrite seq_S, fmap_app. apply (frames_written _ _ _ (take n data)). rewrite app_comm_cons. apply last_snoc.
  - destruct (sync_fault faults); [by eapply frames_written, last_snoc|].
    destruct (move_fault faults); [by eapply frames_written, last_snoc|]. cbn [snd]. intros p Hp Ht. rewrite last_snoc. cbn.
    unfold rename, PrivateFile.written. rewrite lookup_insert_eq.
    by rewrite lookup_insert_ne, lookup_delete_ne, lookup_insert_ne.
Qed.

Lemma save_private_frames {E} (e : E) failed text fs path faults : frames path fs (save_private e failed text fs path faults).2.
Proof.
  unfold save_private. destruct (directory_fault faults); [apply frames_same|]. destruct text as [data|]; [|apply frames_same].
  pose proof (replace_private_frames data fs path faults) as Hf. by destruct (replace_private _ _ _ _).
Qed.

Section replacements.
Context `{HttpLib} `{TomlLib ReverseProxySettings} `{CredentialsToml}.

Lemma proxy_save_frames new fs path faults : frames path fs (proxy_save new fs path faults).2.
Proof. unfold proxy_save. destruct (settings_validate new); [apply save_private_frames|apply frames_same]. Qed.

Lemma store_users_frames users fs path faults : frames path fs (store_users users fs path faults).2.
Proof.
  unfold store_users, write_credentials. destruct (ensure_credentials _); [|apply frames_same].
  pose proof (save_private_frames NotSerialized NotReplaced (credentials_print {| admins := users |}) fs path faults) as Hf.
  by destruct (save_private _ _ _ _ _ _).
Qed.

Hint Resolve frames_same store_users_frames : core.

Lemma add_admin_user_frames fs path name new faults : frames path fs (add_admin_user fs path name new faults).2.
Proof. unfold add_admin_user. repeat case_match; auto. Qed.

Lemma change_admin_password_frames fs path name new faults : frames path fs (change_admin_password fs path name new faults).2.
Proof. unfold change_admin_password. repeat case_match; auto. Qed.

Lemma delete_admin_user_frames fs path name faults : frames path fs (delete_admin_user fs path name faults).2.
Proof. unfold delete_admin_user. repeat case_match; auto. Qed.

Lemma controller_new_frames fs path random faults now :
  frames path fs (controller_new fs path random faults now).2 ∧
  ∀ c, (controller_new fs path random faults now).1 = Ok c → proxy_path c = path.
Proof.
  unfold controller_new, load_or_create. destruct (fs !! path); [split; [apply frames_same|]|].
  - intros c (s & _ & ->)%rmap_Ok. unfold restart. by destruct (negb _).
  - pose proof (proxy_save_frames (default_settings random) fs path faults) as Hf.
    destruct (proxy_save _ _ _ _) as [[u|] trace]; (split; [exact Hf|]); cbn; [|done]. by intros c [= <-].
Qed.

Lemma controller_update_frames new fs faults now c :
  frames (proxy_path c) fs (controller_update new fs faults now c).1.2 ∧
  proxy_path (controller_update new fs faults now c).2 = proxy_path c.
Proof.
  unfold controller_update. destruct (settings_validate new); [|split; [apply frames_same|done]].
  pose proof (proxy_save_frames new fs (proxy_path c) faults) as Hf.
  destruct (proxy_save _ _ _ _) as [[u|] trace]; [|done].
  case_match; (split; [exact Hf|]); [done|]. cbn. unfold restart. by destruct (negb _).
Qed.
End replacements.

Section admin.
Context `{HostLib} `{HttpLib} `{TomlLib Config} `{TomlLib ReverseProxySettings} `{TomlLib (list PersistentShortLink)}.
Context `{SessionLib} `{Blake2bMac} `{CredentialsToml} `{Sha256} `{HashIter} `{RouteLib} `{SubLib} `{SubDigest} `{HostOs}.
Context `{RouterLib}.
Variables (state : AdminState) (process : Process) (json_of : str → str).

Definition proxy_settings_path : str := with_file_name (config_path state) (lit "reverse-proxy.toml").
Definition links_path : str := with_file_name (config_path state) (lit "hy2-short-links.toml").

(** [run] until its loop.  [lim], [seconds] and [off] are the settings of the short
    links; [bound] says whether the listener could be bound. *)
Definition admin_start (fs : filesystem) (random : option (list Z)) (faults : ReplaceFaults) (now : Z) (lim : nat)
    (seconds : Z) (off bound : bool) (m : Host) : result AdminStartError World * list filesystem :=
  match load_credentials fs (credentials_path state) with
  | Err e => (Err (StartCredentials e), [fs])
  | Ok _ =>
      let '(r, trace) := controller_new fs proxy_settings_path random faults now in
      match r with
      | Err e => (Err (StartProxy e), trace)
      | Ok c =>
          let fs := default fs (last trace) in
          match from_env (Some links_path) fs lim seconds off with
          | Err e => (Err (StartLinks e), trace)
          | Ok l =>
              if bound then
                (Ok {| service := service_init fs; proxy := c; links := l; registry := empty_registry; machine := m |}, trace)
              else (Err StartBind, trace)
          end
      end
  end.

Inductive WorldEvent :=
| WRequest (q : Request) (env : Environment)
| WService (e : Event)
| WTaskEnd (id : nat) (error : option str).

(** Requests to save or to reload are requests; every other event is the service's. *)
Definition own_event (e : Event) : bool := match e with Put _ _ _ _ _ | Reload _ _ => false | _ => true end.

Definition config_files : list str := [config_path state; temporary (config_path state)].

Definition world_step (w : World) (e : WorldEvent) : option World :=
  match e with
  | WRequest q env => Some (respond state process json_of q env w).2
  | WService e =>
      if own_event e then
        s ← service_step state (service w) e;
        Some (with_files (overlay config_files (files s) (world_files w)) (with_service s w))
      else None
  | WTaskEnd id error => Some (with_proxy (task_end id error (proxy w)) w)
  end.

Fixpoint world_run (w : World) (events : list WorldEvent) : option World :=
  match events with
  | [] => Some w
  | e :: events => w ← world_step w e; world_run w events
  end.

(** ** Authorization depends on one file *)

Lemma authorize_ext fs fs' h now :
  fs !! credentials_path state = fs' !! credentials_path state → authorize fs state h now = authorize fs' state h now.
Proof. intros Hp. unfold authorize, load_credentials. by rewrite Hp. Qed.

(** The requests of a run are not authorized. *)
Definition outsider (fs : filesystem) (e : WorldEvent) : Prop :=
  match e with
  | WRequest q env => ∃ err, authorize fs state (req_headers q) (unix_now env) = Err err
  | _ => True
  end.

(** No handler waits, and the loop has no command. *)
Definition quiet (s : Service) : Prop := waiting s = [] ∧ put s = PutIdle ∧ reloading s = 0%nat ∧ commands s = 0%nat.

(** What others than administrators leave as it is. *)
Record untouched (w w' : World) : Prop := {
  ut_files : ∀ p, persistence_path (links w) ≠ Some p → world_files w' !! p = world_files w !! p;
  ut_quiet : quiet (service w) → quiet (service w');
  ut_settings : settings (proxy w') = settings (proxy w);
  ut_machine : machine w' = machine w;
  ut_registry : registry w' = registry w;
  ut_path : persistence_path (links w') = persistence_path (links w);
}.

Lemma untouched_refl w : untouched w w.
Proof. by split. Qed.

Lemma untouched_trans w1 w2 w3 : untouched w1 w2 → untouched w2 w3 → untouched w1 w3.
Proof.
  intros [F1 Q1 S1 M1 G1 P1] [F2 Q2 S2 M2 G2 P2]. split; try congruence; [|by auto].
  intros p Hp. rewrite F2; [by apply F1|by rewrite P1].
Qed.

Lemma request_untouched w q env :
  outsider (world_files w) (WRequest q env) → untouched w (respond state process json_of q env w).2.
Proof.
  intros [e He]. unfold respond. destruct (find_route q) as [[ms params]|]; [|apply untouched_refl].
  destruct (find_handler (method q) ms) as [h|]; [|apply untouched_refl]. destruct (protected h) eqn:Hp.
  - destruct (protected_refused state process json_of h params q env w e He Hp) as [_ ->]. apply untouched_refl.
  - destruct (public_handler state process json_of h params q env w Hp) as [_ (l & fs & -> & Hl & Hfs)]. by split.
Qed.

Lemma service_step_quiet s e s' :
  own_event e = true → quiet s → service_step state s e = Some s' → quiet s' ∧ files s' = files s.
Proof.
  intros Ho (Hw & Hp & Hr & Hc) Hs. destruct e; try discriminate Ho; cbn in Hs;
    unfold loop_load, loop_receive, loop_server_end, loop_ctrl_c, put_lock, put_write, put_send, put_drop_waiting, put_drop, reload_send, reload_drop in Hs;
    rewrite ?Hw, ?Hp, ?Hr, ?Hc in Hs; repeat case_match; simplify_eq; by repeat split.
Qed.

Lemma world_step_untouched w e w' :
  quiet (service w) → outsider (world_files w) e → world_step w e = Some w' → untouched w w'.
Proof.
  intros Hq Ho Hs. destruct e as [q env|e|id error]; cbn in Hs.
  - injection Hs as <-. by apply request_untouched.
  - destruct (own_event e) eqn:Eo; [|done]. apply bind_Some in Hs as (s & Hs & [= <-]).
    destruct (service_step_quiet _ _ _ Eo Hq Hs) as [Hq' Hf].
    split; try done. intros p _.
    change (overlay config_files (files s) (world_files w) !! p = world_files w !! p). unfold world_files.
    by rewrite Hf, overlay_same.
  - injection Hs as <-. split; try done. cbn. unfold task_end. by case_match.
Qed.

Lemma world_run_untouched w events w' :
  quiet (service w) → persistence_path (links w) ≠ Some (credentials_path state) →
  Forall (outsider (world_files w)) events → world_run w events = Some w' → untouched w w'.
Proof.
  revert w. induction events as [|e events IH]; intros w Hq Hp Ho Hr; cbn in Hr.
  { injection Hr as <-. apply untouched_refl. }
  apply Forall_cons in Ho as [He Ho]. apply bind_Some in Hr as (w1 & Hs & Hr).
  pose proof (world_step_untouched w e w1 Hq He Hs) as Hu. apply (untouched_trans w w1); [done|].
  apply IH; [by apply Hu|by rewrite (ut_path _ _ Hu)| |done].
  eapply Forall_impl; [exact Ho|]. intros [q env| |]; cbn; try done. intros [err Herr]. exists err.
  rewrite (authorize_ext _ (world_files w)); [done|by apply (ut_files _ _ Hu)].
Qed.

(** A service that has started. *)
Lemma admin_start_Ok fs random faults now lim seconds off bound m w trace :
  admin_start fs random faults now lim seconds off bound m = (Ok w, trace) →
  is_ok (load_credentials fs (credentials_path state)) = true ∧ quiet (service w) ∧ persistence_path (links w) = Some links_path ∧
  world_files w = default fs (last trace) ∧ machine w = m ∧ phase (service w) = Starting.
Proof.
  unfold admin_start. intros Hs. destruct (load_credentials _ _); [|done].
  destruct (controller_new _ _ _ _ _) as [[c|] tr]; [|done].
  destruct (from_env _ _ _ _ _) as [l|] eqn:El; [|done]. destruct bound; [|done]. injection Hs as <- <-.
  unfold from_env in El. destruct (default fs (last tr) !! links_path) as [f|]; cbn in El.
  - apply rbind_Ok in El as (ls & _ & [= <-]). by repeat split.
  - injection El as <-. by repeat split.
Qed.

(** Claim C9. From the start of the management service on, however many requests come, in
    whatever order and among whatever steps of the service's own: as long as none of them
    is authorized by the credentials that are there at the start, no file is changed but
    that of the short links, so that the configuration, the credentials and the tunnel's
    settings are what they were, and with them who is authorized; no save or reload waits
    and no command reaches the loop; and the tunnel's settings in use and the host's
    start-up service are unchanged. *)
Theorem outsiders_change_nothing fs random faults now lim seconds off bound m w trace events w' :
  admin_start fs random faults now lim seconds off bound m = (Ok w, trace) → links_path ≠ credentials_path state →
  Forall (outsider (world_files w)) events → world_run w events = Some w' →
  (∀ p, p ≠ links_path → world_files w' !! p = world_files w !! p) ∧ quiet (service w') ∧
  settings (proxy w') = settings (proxy w) ∧ machine w' = m ∧
  ∀ h t, authorize (world_files w') state h t = authorize (world_files w) state h t.
Proof.
  intros Hstart Hne Ho Hr. destruct (admin_start_Ok _ _ _ _ _ _ _ _ _ _ _ Hstart) as (_ & Hq & Hp & _ & Hm & _).
  pose proof (world_run_untouched w events w' Hq ltac:(rewrite Hp; congruence) Ho Hr) as Hu.
  assert (Hf : ∀ p, p ≠ links_path → world_files w' !! p = world_files w !! p).
  { intros p Hne'. apply (ut_files _ _ Hu). rewrite Hp. congruence. }
  split_and!; [done|by apply Hu|by apply Hu|by rewrite (ut_machine _ _ Hu)|]. intros h t. apply authorize_ext. by apply Hf.
Qed.

(** ** The loop among all handlers *)

(** The invariant of the service depends on its configuration file alone. *)
Lemma service_inv_files fs0 s fs :
  service_inv state fs0 s → fs !! config_path state = files s !! config_path state →
  service_inv state fs0 (set_put fs (commands s) (waiting s) (put s) s).
Proof.
  intros [Hf Hp Hg Hc Hw Hput] Heq.
  assert (Hload : load fs (config_path state) = load (files s) (config_path state)).
  { unfold load, read_to_string. by rewrite Heq. }
  split; cbn; try done.
  - unfold loadable. by rewrite Hload.
  - destruct (put s) as [|c rest r|rest|c]; cbn in *; try done; [|by rewrite Hload].
    destruct Hput as (Hok & Hall & Hend). split; [done|]. split; [done|]. intros Hr. destruct (Hend Hr) as (fs_end & Hlast & Hl).
    destruct rest as [|fs1 rest]; [|by exists fs_end]. injection Hlast as <-. exists fs. by rewrite Hload.
Qed.

(** The files beside the configuration are other files. *)
Definition separate : Prop :=
  config_path state ∉ [credentials_path state; private_temporary (credentials_path state); proxy_settings_path;
                       private_temporary proxy_settings_path; links_path].

Record world_inv (fs0 : filesystem) (w : World) : Prop := {
  wi_service : service_inv state fs0 (service w);
  wi_proxy : proxy_path (proxy w) = proxy_settings_path;
  wi_links : persistence_path (links w) = Some links_path;
}.

Lemma world_inv_files fs0 w fs c l :
  world_inv fs0 w → fs !! config_path state = world_files w !! config_path state → proxy_path c = proxy_path (proxy w) →
  persistence_path l = persistence_path (links w) → world_inv fs0 (with_files fs (with_proxy c (with_links l w))).
Proof.
  intros [Hs Hp Hl] Hf Hc Hl'. split; cbn; [by apply service_inv_files|congruence|congruence].
Qed.

Lemma world_inv_written fs0 w r trace path :
  world_inv fs0 w → frames path (world_files w) trace → config_path state ≠ path →
  config_path state ≠ private_temporary path → world_inv fs0 (written r trace w).2.
Proof.
  intros Hw Hf Hne Hne2. unfold written. cbn [snd]. replace w with (with_proxy (proxy w) (with_links (links w) w)) at 2 by (by destruct w).
  apply world_inv_files; try done. by apply Hf.
Qed.

(** The outcome of a handler that leaves the invariant. *)
Definition keeps (fs0 : filesystem) (out : Answer * World) : Prop := world_inv fs0 out.2.

Lemma authorized_then_keeps fs0 q env w k : world_inv fs0 w → keeps fs0 k → keeps fs0 (authorized_then state q env w k).
Proof. intros Hw Hk. unfold authorized_then. by case_match. Qed.

Lemma startup_handler_keeps fs0 program w : world_inv fs0 w → keeps fs0 (startup_handler program w).
Proof. intros [Hs Hp Hl]. unfold startup_handler. destruct (program (machine w)). by split. Qed.

(** A request that is queued in the service is a step of it. *)
Lemma world_inv_step fs0 w e s : world_inv fs0 w → service_step state (service w) e = Some s → world_inv fs0 (with_service s w).
Proof. intros [Hs Hp Hl] Hstep. split; [by eapply service_step_inv|done|done]. Qed.

Lemma handle_inv fs0 h params q env w :
  separate → world_inv fs0 w → keeps fs0 (handle state process json_of h params q env w).
Proof.
  intros Hsep Hw. unfold separate in Hsep. rewrite !not_elem_of_cons in Hsep. destruct Hsep as (S1 & S2 & S3 & S4 & S5 & _).
  destruct (protected h) eqn:Hp.
  2: { destruct (public_handler state process json_of h params q env w Hp) as [_ (l & fs & E & Hl & Hfs)].
       unfold keeps. rewrite E. replace (with_links l w) with (with_proxy (proxy w) (with_links l w)) by (by destruct w).
       apply world_inv_files; try done. apply Hfs. rewrite (wi_links _ _ Hw). congruence. }
  assert (Hsame : ∀ a, keeps fs0 (a, w)) by done.
  destruct h; try discriminate Hp; cbn [handle];
    try done; try (apply authorized_then_keeps; [done|]); try (by apply startup_handler_keeps); try done.
  - apply with_json_cases; [done|]. intros new. unfold put_reverse_proxy.
    pose proof (controller_update_frames new (world_files w) (replace_faults env) (instant_now env) (proxy w)) as [Hf Hc].
    rewrite (wi_proxy _ _ Hw) in Hf. destruct (authorize _ _ _ _;; _) as [u|e].
    + destruct (controller_update _ _ _ _ _) as [[r trace] c]. cbn in Hf, Hc. unfold keeps. cbn [snd].
      replace (with_proxy c w) with (with_proxy c (with_links (links w) w)) by (by destruct w).
      apply world_inv_files; try done. by apply Hf.
    + unfold keeps. cbn [snd last default]. replace w with (with_proxy (proxy w) (with_links (links w) w)) at 2 by (by destruct w).
      by apply world_inv_files.
  - apply with_json_cases; [done|]. intros c.
    destruct (put_config_checks _ _ _ _ _ _ _) as [c'|e] eqn:Ec; [|done]. unfold keeps. cbn [snd].
    apply (world_inv_step fs0 w (Put (req_headers q) (unix_now env) (probes1 env) (probes2 env) c)); [done|].
    cbn. unfold world_files in Ec. by rewrite Ec.
  - destruct (reload_checks _ _ _ _) as [u|e] eqn:Er; [|done]. unfold keeps. cbn [snd].
    apply (world_inv_step fs0 w (Reload (req_headers q) (unix_now env))); [done|]. cbn. unfold world_files in Er. by rewrite Er.
  - apply with_json_cases; [done|]. intros [name new]. apply authorized_then_keeps; [done|].
    pose proof (add_admin_user_frames (world_files w) (credentials_path state) name new (replace_faults env)) as Hf.
    destruct (add_admin_user _ _ _ _ _) as [r trace]. by eapply world_inv_written.
  - apply with_segments_cases; [done|]. intros l. apply with_json_cases; [done|]. intros new. apply authorized_then_keeps; [done|].
    pose proof (change_admin_password_frames (world_files w) (credentials_path state) (default [] (head l)) new (replace_faults env)) as Hf.
    destruct (change_admin_password _ _ _ _ _) as [r trace]. by eapply world_inv_written.
  - apply with_segments_cases; [done|]. intros l. apply authorized_then_keeps; [done|].
    pose proof (delete_admin_user_frames (world_files w) (credentials_path state) (default [] (head l)) (replace_faults env)) as Hf.
    destruct (delete_admin_user _ _ _ _) as [r trace]. by eapply world_inv_written.
Qed.

Lemma world_step_inv fs0 w e w' : separate → world_inv fs0 w → world_step w e = Some w' → world_inv fs0 w'.
Proof.
  intros Hsep Hw Hs. destruct e as [q env|e|id error]; cbn in Hs.
  - injection Hs as <-. unfold respond. destruct (find_route q) as [[ms params]|]; [|done].
    destruct (find_handler (method q) ms) as [h|]; [|done]. by apply handle_inv.
  - destruct (own_event e); [|done]. apply bind_Some in Hs as (s & Hs & [= <-]).
    pose proof (world_inv_step fs0 w e s Hw Hs) as Hw'.
    replace (with_service s w) with (with_proxy (proxy w) (with_links (links w) (with_service s w))) by (by destruct w).
    apply (world_inv_files fs0 (with_service s w)); try done.
    pose proof (overlay_lookup config_files (files s) (world_files w) (config_path state)) as Ho.
    by rewrite decide_True in Ho by (by left).
  - injection Hs as <-. destruct Hw as [Hs Hp Hl]. split; try done. cbn. unfold task_end. by case_match.
Qed.

Lemma world_run_inv fs0 w events w' : separate → world_inv fs0 w → world_run w events = Some w' → world_inv fs0 w'.
Proof.
  intros Hsep. revert w. induction events as [|e events IH]; intros w Hw Hr; cbn in Hr; [by injection Hr as <-|].
  apply bind_Some in Hr as (w1 & Hs & Hr). apply (IH w1); [|done]. by apply (world_step_inv fs0 w e).
Qed.

Lemma admin_start_inv fs random faults now lim seconds off bound m w trace :
  admin_start fs random faults now lim seconds off bound m = (Ok w, trace) → world_inv (world_files w) w.
Proof.
  intros Hstart. destruct (admin_start_Ok _ _ _ _ _ _ _ _ _ _ _ Hstart) as (_ & _ & Hp & _).
  unfold admin_start in Hstart. destruct (load_credentials _ _); [|done].
  pose proof (controller_new_frames fs proxy_settings_path random faults now) as [_ Hc].
  destruct (controller_new _ _ _ _ _) as [[c|] tr]; [|done]. destruct (from_env _ _ _ _ _) as [l|]; [|done].
  destruct bound; [|done]. injection Hstart as <- <-. split; [apply service_init_inv|by apply Hc|done].
Qed.

(** Claim C18. In every state of the management service, from its start on, whatever is
    requested, authorized or not, of whichever handler, and however the saves of the
    configuration, of the credentials, of the tunnel's settings and of the short links
    fail or interleave, and whichever requests that save the configuration or reload are
    dropped, as long as no save starts while that of a dropped request goes on, and if the files
    of the service have different paths: a server runs exactly when the status says so,
    and then, also while it is told to stop, the status is that of the valid
    configuration it runs; without one it is reported as
    stopped, with the error if the file did not load; the channel holds at most four
    commands; and if the configuration's file loads at the start it loads at every
    moment, so that the loop never finds it broken. *)
Theorem management_invariant fs random faults now lim seconds off bound m w trace events w' :
  separate → admin_start fs random faults now lim seconds off bound m = (Ok w, trace) → world_run w events = Some w' →
  let s := service w' in
  (running (runtime s) = true ↔ ∃ c, phase s = Serving c ∨ ∃ leave, phase s = Draining c leave) ∧
  (∀ c, (phase s = Serving c ∨ ∃ leave, phase s = Draining c leave) → config_ok c ∧ ∃ t, runtime s = serving_runtime (loads s) t c) ∧
  (phase s = Broken → ∃ e, last_error (runtime s) = Some (LoadError e)) ∧
  generation (runtime s) = loads s ∧ (commands s ≤ CHANNEL_CAPACITY)%nat ∧
  (is_ok (load (world_files w) (config_path state)) = true →
   is_ok (load (world_files w') (config_path state)) = true ∧ phase s ≠ Broken).
Proof.
  intros Hsep Hstart Hr s. apply (service_inv_facts state (world_files w) s).
  eapply wi_service, world_run_inv; [done| |exact Hr]. by eapply admin_start_inv.
Qed.
End admin.

(** ** A start, and requests of a stranger *)

Section example_outsider.
Let host := example_hostlib.
Let http := example_http.
Let toml := example_toml.
Let proxy_toml := example_proxy_toml.
Let links_toml := example_links_toml.
Let lib := example_session_lib.
Let mac := example_blake2b.
Let cred := example_cred_toml.
Let sha := example_sha256.
Let iter := hash_iter_sorted.
Let routes := example_routes.
Let sub := example_sublib.
Let digest := example_subdigest.
Let operating := example_os.
Let web := example_router.
#[local] Existing Instances host http toml proxy_toml links_toml lib mac cred sha iter routes sub digest operating web.

Definition example_started : result AdminStartError World * list filesystem :=
  admin_start example_admin_state example_service_fs (Some (repeat 7 32)) no_replace_faults 5 10 60 false true example_host.

Definition example_start_world : World := match example_started.1 with Ok w => w | Err _ => example_world end.

(** A stranger tries to remove an administrator, to reload and to change the
    configuration, and makes a short link, while the server starts. *)
Definition example_stranger : list WorldEvent :=
  let json := [(lit "content-type", lit "application/json")] in
  [WRequest (example_request DELETE "/api/v1/admin-users/admin" [] []) example_environment;
   WService (Load example_probes 7);
   WRequest (example_request POST "/api/v1/reload" [(lit "authorization", lit "Bearer guess")] []) example_environment;
   WRequest (example_request PUT "/api/v1/config" json (lit "example")) example_environment;
   WRequest (example_request GET "/sub/abc" [] []) example_environment].

Definition example_end : World :=
  default example_world (world_run example_admin_state example_process id example_start_world example_stranger).

Lemma example_started_ok : example_started = (Ok example_start_world, example_started.2).
Proof.
  rewrite (surjective_pairing example_started) at 1. f_equal.
Qed.

Lemma example_end_ok :
  world_run example_admin_state example_process id example_start_world example_stranger = Some example_end.
Proof.
  unfold example_end.
  assert (Hok : is_some (world_run example_admin_state example_process id example_start_world example_stranger) = true)
    by (vm_compute; reflexivity).
  by destruct (world_run _ _ _ _ _).
Qed.

Lemma outsiders_change_nothing_witness :
  phase (service example_end) = AdminService.Serving example_config ∧
  (∀ p, p ≠ links_path example_admin_state → world_files example_end !! p = world_files example_start_world !! p) ∧
  quiet (service example_end).
Proof.
  split; [vm_compute; reflexivity|].
  destruct (outsiders_change_nothing example_admin_state example_process id example_service_fs (Some (repeat 7 32))
    no_replace_faults 5 10 60 false true example_host example_start_world example_started.2 example_stranger example_end)
    as (Hf & Hq & _); [exact example_started_ok|vm_compute; intros [=]| |exact example_end_ok|].
  - repeat apply Forall_cons_2; try apply Forall_nil_2; try exact I; exists Unauthorized; vm_compute; reflexivity.
  - split; [exact Hf|exact Hq].
Defined.

(** An administrator saves the configuration, and another is added between two steps of
    the save. *)
Definition example_json : Headers := (lit "content-type", lit "application/json") :: example_basic.

Definition example_interleaved : list WorldEvent :=
  [WService (Load example_probes 7);
   WRequest (example_request PUT "/api/v1/config" example_json (lit "example")) example_environment;
   WService (PutLock no_faults); WService PutWrite; WService PutWrite;
   WRequest (example_request POST "/api/v1/admin-users" example_json (lit "second:hidden")) example_environment]
  ++ replicate 10 (WService PutWrite) ++ [WService PutSend; WService Receive].

Definition example_saved : World :=
  default example_world (world_run example_admin_state example_process id example_start_world example_interleaved).

Lemma example_saved_ok :
  world_run example_admin_state example_process id example_start_world example_interleaved = Some example_saved.
Proof.
  unfold example_saved.
  assert (Hok : is_some (world_run example_admin_state example_process id example_start_world example_interleaved) = true)
    by (vm_compute; reflexivity).
  by destruct (world_run _ _ _ _ _).
Qed.

Lemma management_invariant_witness :
  phase (service example_saved) = Draining example_config false ∧
  (length <$> (match load_credentials (world_files example_saved) example_cred_path with Ok c => Some (admins c) | Err _ => None end))
    = Some 2%nat ∧
  (is_ok (load (world_files example_start_world) (config_path example_admin_state)) = true →
   is_ok (load (world_files example_saved) (config_path example_admin_state)) = true ∧ phase (service example_saved) ≠ Broken).
Proof.
  split; [vm_compute; reflexivity|]. split; [vm_compute; reflexivity|].
  refine (proj2 (proj2 (proj2 (proj2 (proj2 (management_invariant example_admin_state example_process id example_service_fs
    (Some (repeat 7 32)) no_replace_faults 5 10 60 false true example_host example_start_world example_started.2
    example_interleaved example_saved _ example_started_ok example_saved_ok)))))).
  apply (bool_decide_unpack _). vm_compute. exact I.
Defined.
End example_outsider.
