(* ===== verification/SourceTests.v ===== *)
(** * The repository's unit tests on the model

    Tests of [src/src], under their own names, evaluated on the definitions: the inputs
    and the expected values are those of the tests.  Left out are those whose result
    comes from a library (the text of TOML, the digest behind a VLESS identifier, URLs)
    and those of real sockets; where a library only carries data through, its place is
    taken by the instance the other files evaluate with. *)

From stdpp Require Import base list gmap strings.
From Stdlib Require Import ZArith Lia.
From S2P Require Import Prelude RustStr Net Files PrivateFile.
From S2P Require Varint TcpCodec UdpCodec Reassembler Salamander Brutal Vless Outbound Traffic.
From S2P Require Rules Config Masquerade NatTunnel NatGateway ReverseProxy ShareAddress ServiceUnit AdminUsers AdminAuth.
From S2P Require SubNodes SubRender.

Open Scope Z_scope.

(** A hash map is visited in the order of its keys. *)
#[local] Existing Instance hash_iter_sorted.

(** ** [protocol] *)

Definition varint_again (value : Z) : option Z :=
  encoded ← rok (Varint.encode_varint value []);
  '(v, _) ← rok (Varint.decode_varint encoded);
  Some v.

Example round_trips_each_varint_width :
  Forall (fun value => varint_again value = Some value)
    [0; 63; 64; 16383; 16384; 1073741823; 1073741824; 4611686018427387903].
Proof. by repeat constructor. Qed.

Example decodes_tcp_request_and_preserves_early_payload :
  (TcpCodec.Request.encode (lit "example.com:443") (lit "padding") (lit "hello") ≫= TcpCodec.Request.decode)
  = Ok {| TcpCodec.req_destination := lit "example.com:443"; TcpCodec.req_payload := lit "hello" |}.
Proof. by vm_compute. Qed.

Example refuses_oversized_address :
  TcpCodec.Request.encode (replicate 2049 97) [] [] = Err (TcpCodec.InvalidLength "address" 2049).
Proof. by vm_compute. Qed.

Example encodes_success_response :
  TcpCodec.Response.encode {| TcpCodec.resp_status := TcpCodec.StatusOk; TcpCodec.resp_message := []; TcpCodec.resp_payload := lit "data" |} []
  = Ok ([0; 0; 0] ++ lit "data").
Proof. by vm_compute. Qed.

Definition udp_message (sid pid count : Z) (destination : string) (payload : list Z) : UdpCodec.UdpMessage :=
  {| UdpCodec.session_id := sid; UdpCodec.packet_id := pid; UdpCodec.fragment_id := 0; UdpCodec.fragment_count := count;
     UdpCodec.destination := lit destination; UdpCodec.payload := payload |}.

Example round_trips_udp_datagram :
  let message := udp_message 7 42 1 "1.1.1.1:53" [1; 2; 3] in
  (UdpCodec.Udp.encode message ≫= UdpCodec.Udp.decode) = Ok message.
Proof. by vm_compute. Qed.

Example reassembles_fragments_in_any_order :
  let message := udp_message 1 2 1 "127.0.0.1:53" (replicate 100 7) in
  match UdpCodec.Udp.fragment message 32 with
  | Ok fragments =>
      let pushed := Reassembler.push_all ∅ ((fun f => (f, 0)) <$> reverse fragments) in
      Forall (fun r => r = Ok None) (take (length fragments - 1) pushed.1.*2) ∧
      (match last pushed.1.*2 with Some (Ok (Some m)) => UdpCodec.payload m = replicate 100 7 | _ => False end)
  | Err _ => False
  end.
Proof. vm_compute. split; [by repeat constructor|done]. Qed.

Example expires_incomplete_packets :
  let first := udp_message 1 1 2 "127.0.0.1:53" [1] in
  let later := udp_message 1 2 2 "127.0.0.1:53" [1] in
  let pushed := Reassembler.push_all ∅ [(first, 0); (later, Reassembler.REASSEMBLY_TIMEOUT)] in
  pushed.1.*2 = [Ok None; Ok None] ∧ size pushed.2 = 1%nat.
Proof. by vm_compute. Qed.

Example directly_encodes_fragments_without_changing_payload :
  match UdpCodec.Udp.encode_fragments 3 4 (lit "127.0.0.1:53") (replicate 100 9) 32 ≫= rtraverse UdpCodec.Udp.decode with
  | Ok fragments =>
      (1 < length fragments)%nat ∧ UdpCodec.fragment_count <$> head fragments = Some (len fragments) ∧
      concat (UdpCodec.payload <$> fragments) = replicate 100 9
  | Err _ => False
  end.
Proof. vm_compute. split; [lia|done]. Qed.

Example directly_encodes_empty_payload_as_one_fragment :
  match UdpCodec.Udp.encode_fragments 3 4 (lit "127.0.0.1:53") [] 32 ≫= rtraverse UdpCodec.Udp.decode with
  | Ok [decoded] => UdpCodec.fragment_count decoded = 1 ∧ UdpCodec.payload decoded = []
  | _ => False
  end.
Proof. by vm_compute. Qed.

(** ** [salamander.rs], [salamander_socket.rs], [brutal.rs] *)

Section salamander.
Let hash := Salamander.example_blake2b.
#[local] Existing Instance hash.

Example encrypts_and_decrypts_like_salamander :
  let plain := lit "HY2 datagram" in
  let encrypted := Salamander.encrypt (lit "password") [1; 2; 3; 4; 5; 6; 7; 8] plain in
  length encrypted = (length plain + Salamander.SALT_LENGTH)%nat ∧ drop Salamander.SALT_LENGTH encrypted ≠ plain ∧
  Salamander.decrypt (lit "password") encrypted = Ok plain.
Proof. by vm_compute. Qed.

Example decrypts_multiple_gro_segments_and_updates_metadata :
  let first := Salamander.encrypt (lit "password") (replicate 8 1) (lit "first") in
  let second := Salamander.encrypt (lit "password") (replicate 8 2) (lit "other") in
  let packet := first ++ second in
  match Salamander.decrypt_receive_batch (lit "password") 1 [packet]
          [{| Salamander.rm_len := length packet; Salamander.rm_stride := length first; Salamander.rm_rest := tt |}] with
  | Some ([buffer], [metadata], count) =>
      count = 1%nat ∧ take 10 buffer = lit "firstother" ∧ Salamander.rm_len metadata = 10%nat ∧
      Salamander.rm_stride metadata = 5%nat
  | _ => False
  end.
Proof. by vm_compute. Qed.
End salamander.

Example negotiates_server_and_client_limits :
  Brutal.negotiated_rate 10000000 5000000 = 5000000 ∧ Brutal.negotiated_rate 10000000 20000000 = 10000000 ∧
  Brutal.negotiated_rate 10000000 0 = 0.
Proof. by vm_compute. Qed.

Example loss_compensation_increases_window :
  let controller := Brutal.brutal_new 10000000 1200 0 in
  let '(baseline, controller) := Brutal.target_window 10000000 controller in
  let controller := Brutal.record 10000000 1000000000 60000 60000 controller in
  Brutal.ack_rate controller = Brutal.MIN_ACK_RATE ∧ baseline < (Brutal.target_window 10000000 controller).1.
Proof. by vm_compute. Qed.

(** ** [tcp_server.rs], [vless_server.rs], [outbound.rs], [server.rs] *)

Example detects_ssh_without_consuming_the_client_banner :
  Vless.is_ssh_connection (E := unit) [Ok (lit "SSH-")] = Ok true.
Proof. done. Qed.

Example leaves_tls_connections_for_vless : Vless.is_ssh_connection (E := unit) [Ok [22; 3; 1; 0]] = Ok false.
Proof. done. Qed.

Example idle_server_first_connections_are_routed_to_ssh : Vless.is_ssh_connection (E := unit) [] = Ok true.
Proof. done. Qed.

Example maps_user_ids_to_names :
  let _ := Vless.example_sha256 in
  Vless.vless_users [{| Config.user_name := lit "poetry"; Config.user_password := lit "secret" |}]
    !! Vless.user_id (lit "poetry") (lit "secret") = Some (lit "poetry").
Proof. by vm_compute. Qed.

Example orders_and_filters_address_families :
  let ipv4 := {| ip := V4 [192; 0; 2; 1]; port := 443 |} in
  let ipv6 := {| ip := V6 ([32; 1; 13; 184] ++ replicate 11 0 ++ [1]); port := 443 |} in
  Outbound.order_addresses [ipv6; ipv4] Config.PreferIpv4 = [ipv4; ipv6] ∧
  Outbound.order_addresses [ipv6; ipv4] Config.Ipv4Only = [ipv4] ∧
  Outbound.order_addresses [ipv4; ipv6] Config.Ipv6Only = [ipv6].
Proof. by vm_compute. Qed.

Definition traffic_line (up down active : Z) : Traffic.UserTraffic :=
  {| Traffic.uploaded_bytes := up; Traffic.downloaded_bytes := down; Traffic.active_connections := active |}.

Example traffic_registry_tracks_users_and_preserves_existing_counters :
  let registry := Traffic.sync_users Traffic.empty_registry [lit "poetry"; lit "amamiya"] in
  let '(poetry, registry) := Traffic.user registry (lit "poetry") in
  let registry := Traffic.connection poetry (Traffic.record_download 2048 poetry (Traffic.record_upload 1024 poetry registry)) in
  let after := Traffic.drop_connection poetry (Traffic.sync_users registry [lit "poetry"; lit "new-user"]) in
  Traffic.snapshots registry = [(lit "amamiya", traffic_line 0 0 0); (lit "poetry", traffic_line 1024 2048 1)] ∧
  Traffic.snapshots after = [(lit "new-user", traffic_line 0 0 0); (lit "poetry", traffic_line 1024 2048 0)].
Proof. by vm_compute. Qed.

(** ** [config.rs] *)

(** [integration/server.toml], with the defaults. *)
Definition base_share : Config.ShareConfig := {|
  Config.share_server := lit "127.0.0.1"; Config.ipv6_server := []; Config.share_port := 14443;
  Config.share_sni := lit "localhost"; Config.share_insecure := true;
  Config.rule_preset := Config.default_share_rule_preset; Config.ad_block := false;
  Config.share_whitelist := []; Config.share_blacklist := [] |}.

Definition base_config : Config.Config := {|
  Config.listen := {| ip := V4 [127; 0; 0; 1]; port := 14443 |};
  Config.tls := {| Config.certificate := lit "integration/cert.pem"; Config.private_key := lit "integration/key.pem" |};
  Config.users := [{| Config.user_name := lit "integration"; Config.user_password := lit "integration-password" |}];
  Config.ssh := Config.default_ssh;
  Config.bandwidth := {| Config.up_mbps := 0; Config.down_mbps := 0; Config.ignore_client_bandwidth := false |};
  Config.udp := {| Config.udp_enabled := true; Config.timeout_secs := 30 |};
  Config.outbound := Config.PreferIpv4; Config.obfs := None;
  Config.masquerade := Some (Config.MString 200
    [(lit "content-type", [lit "text/plain; charset=utf-8"]); (lit "x-hy2-masquerade", [lit "active"])]
    (lit "sing-box-ser-mini"));
  Config.share := Some base_share |}.

(** Header names have hyphens too. *)
Definition test_http : Config.HttpLib := {|
  Config.url_scheme := fun u => fst <$> split_once_str (lit "://") u;
  Config.status_ok := fun s => in_range 100 s 999;
  Config.header_name_ok := fun n => negb (is_nil n) && forallb (fun b => is_ascii_alphanumeric b || (b =? 45)) n;
  Config.header_value_ok := forallb (fun b => in_range 32 b 126) |}.

(** A code of the key and of the message. *)
Definition test_mac (k m : list Z) : list Z := NatTunnel.example_mac (k ++ m) m.

Definition test_blake2b : NatTunnel.Blake2bMac := {|
  NatTunnel.mac512 := test_mac;
  NatTunnel.mac512_length := fun k m => NatTunnel.example_mac_length (k ++ m) m;
  NatTunnel.mac512_bytes := fun k m => NatTunnel.example_mac_bytes (k ++ m) m |}.

Section config.
Let host := Rules.example_hostlib.
Let http := test_http.
#[local] Existing Instances host http.

Definition with_share (s : Config.ShareConfig) : Config.Config := ShareAddress.with_share (Some s) base_config.

Definition with_ssh (s : Config.SshConfig) (c : Config.Config) : Config.Config := {|
  Config.listen := Config.listen c; Config.tls := Config.tls c; Config.users := Config.users c; Config.ssh := s;
  Config.bandwidth := Config.bandwidth c; Config.udp := Config.udp c; Config.outbound := Config.outbound c;
  Config.obfs := Config.obfs c; Config.masquerade := Config.masquerade c; Config.share := Config.share c |}.

Definition shared (server server6 preset : string) (ad_block : bool) (allowed blocked : list string) : Config.ShareConfig := {|
  Config.share_server := lit server; Config.ipv6_server := lit server6; Config.share_port := 443;
  Config.share_sni := lit "example.com"; Config.share_insecure := false; Config.rule_preset := lit preset;
  Config.ad_block := ad_block; Config.share_whitelist := lit <$> allowed; Config.share_blacklist := lit <$> blocked |}.

Example share_config_accepts_legacy_ipv4_only_files :
  Config.rule_preset base_share = lit "balanced" ∧
  Config.validate (with_share (shared "198.51.100.10" EmptyString "balanced" false [] [])) = Ok tt.
Proof. by vm_compute. Qed.

Example share_config_allows_an_ipv6_only_endpoint :
  Config.validate (with_share (shared EmptyString "2001:db8::10" "balanced" false [] [])) = Ok tt.
Proof. by vm_compute. Qed.

Example share_config_accepts_china_rule_preset :
  Config.validate (with_share (shared "127.0.0.1" EmptyString "china" true [] [])) = Ok tt.
Proof. by vm_compute. Qed.

Example share_config_validates_custom_domain_lists :
  let allowed := ["example.cn"; "*.internal.example.cn"]%string in
  Config.validate (with_share (shared "127.0.0.1" EmptyString "balanced" false allowed ["ads.example.com"%string])) = Ok tt ∧
  is_ok (Config.validate (with_share (shared "127.0.0.1" EmptyString "balanced" false allowed ["https://example.com/path"%string]))) = false.
Proof. by vm_compute. Qed.

Example legacy_config_prefers_ipv4_outbound : Config.outbound base_config = Config.PreferIpv4.
Proof. done. Qed.

Example ssh_protocol_sharing_requires_loopback_and_keys :
  let ssh upstream := {| Config.ssh_enabled := true; Config.ssh_upstream := upstream; Config.ssh_username := lit "singbox-proxy";
                         Config.ssh_private_key := lit "private-key"; Config.ssh_host_key := [] |} in
  Config.validate (with_ssh (ssh {| ip := V4 [127; 0; 0; 1]; port := 51401 |}) base_config) = Ok tt ∧
  is_ok (Config.validate (with_ssh (ssh {| ip := V4 [198; 51; 100; 10]; port := 51401 |}) base_config)) = false.
Proof. by vm_compute. Qed.

(** ** [masquerade.rs], [nat_tunnel.rs], [reverse_proxy.rs] *)

Let web := Masquerade.example_web.
Let mac := test_blake2b.
#[local] Existing Instances web mac.

Example string_response_keeps_repeated_headers :
  let config := Config.MString 201 [(lit "x-test", [lit "one"; lit "two"])] (lit "hello") in
  match Masquerade.response (Masquerade.example_webfs []) (fun _ => None) (Some config) (Masquerade.example_get "/") [] with
  | Ok r => Masquerade.status r = 201 ∧ Masquerade.body r = lit "hello" ∧
            length (List.filter (fun h => str_eqb h.1 (lit "x-test")) (Masquerade.resp_headers r)) = 2%nat
  | Err _ => False
  end.
Proof. by vm_compute. Qed.

Example file_response_rejects_encoded_parent_path :
  is_ok (Masquerade.file_response (Masquerade.example_webfs []) (lit "/www") (Masquerade.example_get "/%2e%2e/secret")) = false.
Proof. by vm_compute. Qed.

Example challenge_response_changes_with_the_challenge :
  match NatTunnel.challenge_mac NatTunnel.example_token (replicate 32 1) (lit "test-exit") [],
        NatTunnel.challenge_mac NatTunnel.example_token (replicate 32 2) (lit "test-exit") [] with
  | Ok first, Ok second => str_eqb first second = false
  | _, _ => False
  end.
Proof. by vm_compute. Qed.

Example tracks_connected_gateway_nodes :
  let '(id, tracker) := NatGateway.connect (lit "test-exit") (lit "https://exit.example/sub/code") 100 NatGateway.tracker_default in
  match NatGateway.snapshot tracker, NatGateway.snapshot (NatGateway.disconnect id 200 tracker) with
  | [a], [b] => NatGateway.online a = true ∧ NatGateway.status_tunnels a = 1 ∧
                NatGateway.status_url a = lit "https://exit.example/sub/code" ∧
                NatGateway.online b = false ∧ NatGateway.status_tunnels b = 0 ∧ 0 < NatGateway.status_seen b
  | _, _ => False
  end.
Proof. by vm_compute. Qed.

Definition tunnel_settings (enabled : bool) (role : ReverseProxy.ReverseProxyRole) (gateway : string) (public_port : Z)
    : ReverseProxy.ReverseProxySettings := {|
  ReverseProxy.enabled := enabled; ReverseProxy.role := role; ReverseProxy.gateway := lit gateway;
  ReverseProxy.tunnel_port := 7000; ReverseProxy.public_port := public_port; ReverseProxy.local_port := 51400;
  ReverseProxy.pool_size := 4; ReverseProxy.queue_capacity := 64; ReverseProxy.token := replicate 64 97;
  ReverseProxy.subscription := [] |}.

Example validates_role_specific_settings :
  is_ok (ReverseProxy.settings_validate (tunnel_settings true ReverseProxy.Client EmptyString 51400)) = false ∧
  ReverseProxy.settings_validate (tunnel_settings true ReverseProxy.Client "gateway.example.com:7000" 51400) = Ok tt ∧
  is_ok (ReverseProxy.settings_validate (tunnel_settings true ReverseProxy.Gateway "gateway.example.com:7000" 7000)) = false.
Proof. by vm_compute. Qed.

Example accepts_bracketed_ipv6_gateway :
  ReverseProxy.validate_endpoint (lit "[2001:db8::10]:7000") = Ok tt ∧
  is_ok (ReverseProxy.validate_endpoint (lit "2001:db8::10:7000")) = false.
Proof. by vm_compute. Qed.

(** The file is private, and loads again. *)
Example persists_private_configuration :
  let toml := ReverseProxy.example_proxy_toml in
  let fs := default ∅ (last (ReverseProxy.proxy_save ReverseProxy.example_proxy ∅ ReverseProxy.example_proxy_path no_replace_faults).2) in
  (ReverseProxy.load_or_create fs ReverseProxy.example_proxy_path None no_replace_faults).1 = Ok ReverseProxy.example_proxy ∧
  mode <$> fs !! ReverseProxy.example_proxy_path = Some PRIVATE_MODE.
Proof. by vm_compute. Qed.
End config.

(** ** [startup.rs] *)

Definition quoted (s : string) : str := [ServiceUnit.DQ] ++ lit s ++ [ServiceUnit.DQ].

Definition contains_all (parts : list str) (text : str) : bool := forallb (fun p => contains p text) parts.
Definition contains_none (parts : list str) (text : str) : bool := forallb (fun p => negb (contains p text)) parts.

Example renders_openrc_service_with_quoted_paths :
  let text := ServiceUnit.render_openrc (lit "/opt/sing box/bin/server") (lit "/opt/sing box") (lit "service-user")
                (lit "service-group") [lit "--config"; lit "/opt/sing box/etc/config.toml"] (Some (lit "/opt/sing box/log/server.log")) in
  starts_with (lit "#!/sbin/openrc-run") text = true ∧
  contains_all [lit "supervisor=" ++ quoted "supervise-daemon"; lit "service-user:service-group";
                lit "/opt/sing box/etc/config.toml"; lit "output_log="; lit "/opt/sing box/log/server.log"] text = true.
Proof. by vm_compute. Qed.

Example renders_systemd_service_without_a_shell :
  let text := ServiceUnit.render_systemd (lit "/opt/server") (lit "/opt/service data") (lit "service-user")
                [lit "--config"; lit "/opt/config.toml"] in
  contains_all [lit "User=service-user"; lit "WorkingDirectory=/opt/service\x20data";
                lit "ExecStart=" ++ quoted "/opt/server" ++ lit " " ++ quoted "--config" ++ lit " " ++ quoted "/opt/config.toml"]
    text = true ∧
  contains (lit "/bin/sh") text = false.
Proof. by vm_compute. Qed.

Example shell_quotes_single_quotes : ServiceUnit.shell_quote (lit "a'b") = lit "'a'\''b'".
Proof. by vm_compute. Qed.

(** ** [admin.rs] *)

Section admin.
Let sessions := AdminAuth.example_session_lib.
Let mac := test_blake2b.
#[local] Existing Instances sessions mac.

Definition operator (password : string) : AdminUsers.AdminCredentials :=
  {| AdminUsers.username := lit "operator"; AdminUsers.password := lit password |}.

Example signs_and_expires_admin_sessions :
  let credentials := {| AdminUsers.admins := [operator "secret"] |} in
  let changed := {| AdminUsers.admins := [operator "changed"] |} in
  match AdminAuth.issue_session_token (operator "secret") 86500 with
  | Some token =>
      let tampered := take (length token - 1) token ++ [if bool_decide (last token = Some 97) then 98 else 97] in
      AdminAuth.validate_session_token token credentials 100 = Some (lit "operator") ∧
      AdminAuth.validate_session_token token credentials 86500 = None ∧
      AdminAuth.validate_session_token token changed 100 = None ∧
      AdminAuth.validate_session_token tampered credentials 100 = None
  | None => False
  end.
Proof. by vm_compute. Qed.
End admin.

Example explicit_listen_addresses_are_used_for_read_only_share_addresses :
  let probes := {| ShareAddress.probe4 := None; ShareAddress.probe6 := None |} in
  let ipv6 := [32; 1; 13; 184] ++ replicate 11 0 ++ [16] in
  ShareAddress.detect_network_addresses probes {| ip := V4 [192; 0; 2; 10]; port := 443 |}
  = {| ShareAddress.detected4 := Some [192; 0; 2; 10]; ShareAddress.detected6 := None |} ∧
  ShareAddress.detect_network_addresses probes {| ip := V6 ipv6; port := 443 |}
  = {| ShareAddress.detected4 := None; ShareAddress.detected6 := Some ipv6 |}.
Proof. by vm_compute. Qed.

Example nat_detection_preserves_explicit_public_share_addresses :
  let merge := fun existing detected => ShareAddress.merge_auto_ipv4_address (lit existing) (Some detected) in
  let unique_local := [253] ++ replicate 14 0 ++ [32] in
  merge "ph1.deeprush.ai"%string [10; 91; 0; 36] = lit "ph1.deeprush.ai" ∧
  merge "23.147.56.201"%string [10; 0; 160; 2] = lit "23.147.56.201" ∧
  merge EmptyString [10; 0; 160; 2] = lit "10.0.160.2" ∧
  merge "23.147.56.201"%string [8; 8; 8; 8] = lit "23.147.56.201" ∧
  ShareAddress.merge_auto_ipv6_address (lit "2606:4700:4700::1111") (Some unique_local) = lit "2606:4700:4700::1111" ∧
  ShareAddress.merge_auto_ipv6_address [] (Some unique_local) = [].
Proof. by vm_compute. Qed.

(** ** [sublink.rs]: rules and documents

    The nodes are what the tests' subscriptions parse to. *)

(** Where a text first has a part. *)
Fixpoint find_from (n : nat) (part text : str) : option nat :=
  if starts_with part text then Some n
  else match text with
       | [] => None
       | _ :: rest => find_from (S n) part rest
       end.

Definition precedes (a b : string) (text : str) : bool :=
  match find_from 0 (lit a) text, find_from 0 (lit b) text with
  | Some i, Some j => (i <? j)%nat
  | _, _ => false
  end.

Definition vless_node : SubNodes.Node := {|
  SubNodes.kind := lit "vless"; SubNodes.node_name := lit "smoke"; SubNodes.server := lit "example.com"; SubNodes.port := 443;
  SubNodes.username := lit "12345678-1234-1234-1234-123456789012"; SubNodes.password := []; SubNodes.private_key := [];
  SubNodes.host_key := []; SubNodes.method := []; SubNodes.uuid := lit "12345678-1234-1234-1234-123456789012";
  SubNodes.network := lit "ws"; SubNodes.path := lit "/ws"; SubNodes.host := lit "edge.example.com";
  SubNodes.service_name := []; SubNodes.sni := lit "edge.example.com"; SubNodes.obfs := []; SubNodes.obfs_password := [];
  SubNodes.flow := []; SubNodes.packet_encoding := []; SubNodes.udp := false; SubNodes.original := []; SubNodes.tls := true;
  SubNodes.insecure := false |}.

Definition no_lists : Rules.CustomRules := {| Rules.whitelist := []; Rules.blacklist := [] |}.

Definition clash_text (preset : Rules.RulePreset) (ad_block mrs china : bool) (custom : Rules.CustomRules) : str :=
  SubRender.render_clash [vless_node] (Rules.selected_rule_specs (Some preset) ad_block) custom mrs china.

Definition surge_text (preset : Rules.RulePreset) (ad_block china : bool) (custom : Rules.CustomRules) : str :=
  SubRender.render_surge [vless_node] (Rules.selected_rule_specs (Some preset) ad_block) custom china.

Example converts_vless_to_clash :
  contains_all [lit "type: 'vless'"; lit "Host: 'edge.example.com'"] (clash_text Rules.Minimal false true false no_lists) = true.
Proof. by vm_compute. Qed.

Example original_rule_presets_generate_client_rule_sets :
  let minimal := clash_text Rules.Minimal true true false no_lists in
  let comprehensive := surge_text Rules.Comprehensive false false no_lists in
  contains_all [lit "category-ads-all.mrs"; lit "RULE-SET,category-ads-all,REJECT"; lit "RULE-SET,cn-ip,DIRECT,no-resolve"]
    minimal = true ∧
  contains (lit "youtube.mrs") minimal = false ∧
  contains_all [lit "category-ads-all.conf,REJECT"; lit "netflix.conf,PROXY"] comprehensive = true.
Proof. by vm_compute. Qed.

Example china_preset_orders_mainland_routes_and_split_dns :
  let clash := clash_text Rules.China true true true no_lists in
  let legacy := clash_text Rules.China true false true no_lists in
  let surge := surge_text Rules.China true true no_lists in
  contains_all [lit "enhanced-mode: fake-ip"; lit "https://1.1.1.1/dns-query#PROXY"; lit "    proxy: DIRECT";
                lit "RULE-SET,category-ads-all,REJECT"; lit "RULE-SET,private,DIRECT"; lit "RULE-SET,apple-cn,DIRECT";
                lit "RULE-SET,microsoft@cn,DIRECT"; lit "RULE-SET,steam@cn,DIRECT"; lit "RULE-SET,category-games@cn,DIRECT";
                lit "RULE-SET,bilibili,DIRECT"] clash = true ∧
  contains_none [lit "RULE-SET,apple,PROXY"; lit "RULE-SET,microsoft,PROXY"] clash = true ∧
  precedes "RULE-SET,bilibili,DIRECT" "RULE-SET,google,PROXY" clash = true ∧
  precedes "RULE-SET,google,PROXY" "RULE-SET,cn,DIRECT" clash = true ∧
  precedes "RULE-SET,cn,DIRECT" "RULE-SET,geolocation-!cn,PROXY" clash = true ∧
  contains (lit "format: yaml") legacy = true ∧ contains (lit "enhanced-mode: fake-ip") legacy = false ∧
  contains_all [lit "dns-server = 223.5.5.5, 119.29.29.29"; lit "apple-cn.conf,DIRECT"] surge = true.
Proof. by vm_compute. Qed.

Section lists.
Let host := Rules.example_hostlib.
#[local] Existing Instance host.

Example custom_domain_lists_render_with_blacklist_priority :
  match Rules.parse_custom_rules (Some (lit "direct.example" ++ [10] ++ lit "*.shared.example"))
                                 (Some (lit "blocked.example" ++ [10] ++ lit ".shared.example")) with
  | Ok custom =>
      let clash := clash_text Rules.China false true true custom in
      let surge := surge_text Rules.China false true custom in
      contains_all [lit "DOMAIN,direct.example,DIRECT"; lit "DOMAIN,blocked.example,REJECT";
                    lit "DOMAIN-SUFFIX,shared.example,REJECT"; lit "DOMAIN-SUFFIX,shared.example,DIRECT";
                    lit "DOMAIN,direct.example,real-ip"] clash = true ∧
      precedes "DOMAIN-SUFFIX,shared.example,REJECT" "DOMAIN-SUFFIX,shared.example,DIRECT" clash = true ∧
      contains_all [lit "DOMAIN,blocked.example,REJECT"; lit "DOMAIN,direct.example,DIRECT"] surge = true
  | Err _ => False
  end.
Proof. by vm_compute. Qed.

Example custom_domain_lists_validate_and_deduplicate :
  Rules.parse_domain_rules (lit "Example.COM" ++ [10] ++ lit "example.com" ++ [10] ++ lit "*.Example.NET")
  = Ok [Rules.Exact (lit "example.com"); Rules.Suffix (lit "example.net")] ∧
  is_ok (Rules.parse_domain_rules (lit "https://example.com")) = false.
Proof. by vm_compute. Qed.
End lists.
